(* ===== verification/_CoqProject ===== *)
-Q . S2P
Prelude.v
JsMap.v
SqlTable.v
JsString.v
Numerals.v
JsDate.v
JsValue.v
Contracts.v
Canonical.v
AdapterRegistry.v
IdempotencyStore.v
IngestBuffer.v
Frames.v
OutboundEmitter.v
SessionRegistry.v
CronExpression.v
CronRun.v
CronScheduler.v
Base64.v
RpcChild.v
RecordUpdate.v
Promises.v
PoolManager.v
PoolBooks.v
PoolChildren.v
Supervisor.v
SupervisorBooks.v
HttpWire.v
HttpAdapter.v
HttpAdapterBooks.v
HttpTurns.v
HttpStreams.v
JsonSchema.v
SupervisorRuns.v
CoreServer.v
CoreService.v
Effects.v
DeliveryStore.v
PumbleRenderer.v
PumbleEffects.v
PumbleDelivery.v
PumbleBooks.v
PumbleReplies.v
Disk.v
FilePlan.v
PlanContainment.v
PlanRollback.v
PlanRemoval.v
PlanWrites.v
PlanWriteRuns.v
PlanWriteOutcomes.v
