(* ===== verification/Prelude.v ===== *)
(** * omp-bundler: a verification library

    omp-bundler connects chat systems to coding agents.  An adapter (HTTP or
    Pumble) posts each message to the core service; the core decides whether the
    message concerns the agent, gives it to the agent's child process, one per
    conversation, and sends what the agent writes back to the adapter as events;
    the adapter shows them; a command line edits the project directory of such a
    service.  This library models the TypeScript of src/packages/core,
    src/packages/contracts, src/packages/http-adapter, the delivery path of
    src/packages/pumble-adapter and the file transactions of src/packages/cli,
    and proves what each part promises.  This file is the prelude: exceptions, runs of a step function,
    automation and generic lemmas.

    ** How the code is modelled

    Pure functions are functions; a method that may throw after it has changed
    its object is a [comp] (this file): the outcome and the state left behind.
    An asynchronous class is a state and a step function over what its
    environment can do next: a call, a promise that settles, a timer, a restart.
    Between two awaits code runs without interruption, so a step is the code
    from one await to the next and a suspended continuation is data of the
    state; a theorem about every list of steps is a theorem about every
    interleaving.  The Pumble renderer, whose handlers await one call after the
    other, is instead written in the monad of Effects.v, a program being the
    tree of its calls, which PumbleDelivery.v schedules.  The file transactions of
    the command line run alone: they are [comp]s whose calls, taken from Disk.v,
    change a tree of files, and any of which the host may refuse.  Objects that are
    shared are entries of tables.  Integers are [Z]; JavaScript numbers read
    from outside are the [number] of JsValue.v, with doubles' rounding.  Clock
    readings and what other programs answer are arguments of the steps.

    ** Files

    JavaScript and its libraries: JsMap (Map), JsString (strings, regular
    expressions), Numerals, JsDate (calendar), JsValue (values, numbers), SqlTable
    (SQLite tables), Base64, RecordUpdate, Promises, Canonical (sorted JSON),
    JsonSchema, Effects (async programs and their program logic).

    - Contracts: packages/contracts/src, messages and events.
    - AdapterRegistry: core/src/adapter-registry.ts, the registrations, the
      secret and signature checks, storage keys.
    - IdempotencyStore: core/src/idempotency-store.ts, one row per message; the
      abstract lifecycle of a message and the refinement to it.
    - IngestBuffer: core/src/ingest-buffer.ts, backlog, engagement windows,
      activation.
    - Frames, OutboundEmitter: core/src/outbound-emitter.ts, from agent frames to
      events, the outbox and its delivery with retries.
    - SessionRegistry: core/src/session-registry.ts, ownership and creation of
      sessions.
    - CronExpression, CronRun, CronScheduler: core/src/cron-expression.ts and
      cron-scheduler.ts, parsing, the next run, one run of a job, the tick loop.
    - RpcChild: core/src/rpc-child.ts, framing, chunk reassembly, commands.
    - PoolManager, PoolBooks, PoolChildren: core/src/pool-manager.ts, the bounded
      pool of children, its invariant, and the children that run.
    - Supervisor, SupervisorBooks, SupervisorRuns: core/src/supervisor.ts, the
      composition of the above, its invariant, and the messages it was given.
    - HttpWire, HttpAdapter, HttpAdapterBooks, HttpTurns, HttpStreams:
      http-adapter/src/server.ts, formats, the adapter, and its invariants:
      bounds, turns and timers, what the responses have sent.
    - CoreServer, CoreService: core/src/server.ts and the schema inbound-v1.json,
      the HTTP service over the supervisor.
    - DeliveryStore, PumbleRenderer, PumbleEffects, PumbleDelivery, PumbleBooks,
      PumbleReplies: pumble-adapter/src/delivery-store.ts, pumble-renderer.ts and
      the event intake of server.ts; which effects a rendering repeats, over
      every interleaving, and what becomes of a reply.
    - Disk: the calls of node:fs on a tree of files with symbolic links.
      FilePlan: cli/src/file-plan.ts, the plans of the command line and
      [applyFilePlan].  PlanContainment, PlanRollback, PlanRemoval, PlanWrites,
      PlanWriteRuns, PlanWriteOutcomes: where a plan may write, failed removals,
      removals, and the runs of plans of writes, failed or not.

    A file uses the definitions of the files before it, as the code calls them:
    the supervisor runs on the idempotency store, the ingest buffer and the
    session registry themselves, and sees the pool and the emitters through the
    calls it makes; the core service runs on the supervisor; the pool runs on
    the session registry; the Pumble delivery runs on the renderer and the
    delivery store.  The emitter's hooks into the idempotency store are the
    class [DurableHooks] of OutboundEmitter.v, with the laws [LawfulHooks].

    ** What the theorems show

    - Messages are taken once: the store refines the lifecycle of a message,
      [beginInbound] is idempotent and linearizable, canonical JSON decides
      equality of payloads up to what it drops ([undefined] and [__proto__]), the
      buffer conserves arrivals, a child sees a message at most once, runs of a
      conversation are serialized, and every message was authenticated and valid.
    - Events are sent in order: at most one terminal event per turn, unless one
      the outbox lost is redelivered, nothing is posted before it is stored,
      sequence order within a life of the emitter, the retry schedule.
    - Children are bounded: acquires are conserved, the children that run exceed
      the cap only by the two races the theorem counts, ownership is exclusive,
      sessions are created once at a time unless one is forgotten in the moment of
      its commit.
    - Schedules are met: a cron expression means what the grammar says but for two
      forms, the next run is sound and least, fires follow the schedule.
    - Framing does not depend on where the bytes of a line are cut, and the
      reassembly is bounded by the limit in force.
    - The HTTP adapter answers every turn, with well-formed responses, one turn
      per conversation, and bounded buffers.
    - The Pumble delivery store forgets nothing it was first to record, and a
      confirmed effect of an event is not performed again.  A rendering of a reply
      that resolves has delivered it, unless the turn was over; one that fails is
      dropped when it is posted again.
    - A file plan changes nothing outside its root.  A removal that fails is
      undone, one that succeeds leaves nothing behind; a plan of writes into
      existing directories that succeeds leaves the files as planned and nothing
      else, and one that fails deletes the files it had overwritten, which is a
      bug of the code.
    Where a theorem excludes a situation, its comment says so and an example shows
    what the code does there.

    ** Bounds and fuel

    Recursion is structural, or carries fuel that is proved to suffice where the
    result is used: the search for a next run visits each day of the horizon
    once, each missed run lies after the one before
    ([skip_loop_fuel]), a round of the pool's drain shifts its queue, a frame of
    the child consumes a byte.  The loops of the file plans go up a path.  Timer delays keep the
    32-bit bound of setTimeout, sequence numbers the safe-integer bound where
    the code checks it.

    ** Parameters

    Code that is not in the repository is a parameter, with documented behaviour
    as hypotheses where a theorem needs it: HMAC-SHA256 and SHA-256 (any function,
    of 32 bytes where a signature is read back), new URL, decodeURIComponent,
    JSON.parse and the YAML parser (any partial function to values),
    Intl.DateTimeFormat (any formatter; the law of a zone is [LawfulZone] of
    CronExpression.v), randomUUID and clocks (functions of a call counter, or
    arguments), the answers of the file system to the services (arguments of the
    steps).  For the file plans the file system is a tree with the calls of Disk.v;
    which calls fail, and how far a failing one has gone, is arbitrary ([Host]).

    ** Not modelled

    The rest of the command line (packages/cli): it runs docker, prompts in a
    terminal, reads configuration, and hands the files it makes to a file plan.  In
    the file plans no other process changes the tree meanwhile, and the tree has no
    owners, times or hard-link counts.  The child reaper (core/src/child-reaper.ts, orphan-sweep.ts),
    for the same reason: /proc and signals.  Configuration from the environment
    (core/src/config.ts, pumble-adapter/src/config.ts), whose result is a
    parameter of the components it configures.  The Pumble API client, message
    parsing, file downloads, OAuth and the other stores of the Pumble adapter: the
    renderer sees them as answers of its environment.  build/render-models.ts and
    entrypoint.sh run once per image.  Log lines, metrics and process signals are
    left out everywhere.  Two steps are coarser than the code's: [resumePending]
    without pending rows clears its promise at once, where the code does some
    microtasks later, and [fireOne] of the cron scheduler takes a job's run and the
    two writes of its outcome together, so no crash falls between them. *)

From stdpp Require Export base list strings gmap sorting.
From stdpp Require Import options.
From Stdlib Require Export ZArith Lia.

Set Default Proof Using "Type".
#[export] Set Warnings "-clear-no-such-hyp,-register-all".

Declare Scope omp_scope.
Delimit Scope omp_scope with omp.

(** ** Exceptions

    A synchronous TypeScript function that may [throw] is a value of
    [result E A].  A method that also mutates its object is a
    [comp S E A]: it returns the outcome and the state it leaves behind, and a
    [throw] keeps every mutation made before it, as in JavaScript. *)

Inductive result (E A : Type) : Type :=
| Ok (a : A)
| Throw (e : E).
Arguments Ok {E A} a.
Arguments Throw {E A} e.

Definition comp (S E A : Type) : Type := S -> result E A * S.

Definition result_bind {E A B} (m : result E A) (k : A -> result E B) : result E B :=
  match m with Ok a => k a | Throw e => Throw e end.

Definition cret {S E A} (a : A) : comp S E A := fun s => (Ok a, s).

Definition cthrow {S E A} (e : E) : comp S E A := fun s => (Throw e, s).

Definition cbind {S E A B} (m : comp S E A) (k : A -> comp S E B) : comp S E B :=
  fun s => match m s with
           | (Ok a, s') => k a s'
           | (Throw e, s') => (Throw e, s')
           end.

Definition is_ok {E A} (r : result E A) : bool :=
  match r with Ok _ => true | Throw _ => false end.

Notation "x <-! m ; k" := (result_bind m (fun x => k))
  (at level 100, m at next level, right associativity) : omp_scope.
Notation "x <-? m ; k" := (cbind m (fun x => k))
  (at level 100, m at next level, right associativity) : omp_scope.
Notation "m ;? k" := (cbind m (fun _ => k))
  (at level 100, right associativity) : omp_scope.
#[global] Open Scope omp_scope.

#[export] Instance result_eq_dec {E A} `{EqDecision E, EqDecision A} :
  EqDecision (result E A).
Proof. solve_decision. Defined.

(** ** Runs of a deterministic transition function *)

Definition run {S O : Type} (step : S -> O -> S) (s : S) (ops : list O) : S :=
  fold_left step ops s.

(** JavaScript's falsy string. *)
Definition is_empty (s : string) : bool :=
  match s with EmptyString => true | String _ _ => false end.

(** ** Automation *)

Create HintDb omp discriminated.
Create Rewrite HintDb omp.

(** Splits a hypothesis that says which branch a [match]/[if] took. *)
Ltac case_all := repeat (case_match; simplify_eq/=; try done).

(** Turns boolean guards into propositions. *)
Ltac bools :=
  repeat match goal with
  | H : (_ && _)%bool = true |- _ => apply andb_true_iff in H; destruct H
  | H : (_ || _)%bool = false |- _ => apply orb_false_iff in H; destruct H
  | H : negb _ = true |- _ => apply negb_true_iff in H
  | H : negb _ = false |- _ => apply negb_false_iff in H
  | H : bool_decide _ = true |- _ => apply bool_decide_eq_true in H
  | H : bool_decide _ = false |- _ => apply bool_decide_eq_false in H
  | H : (_ <=? _) = true |- _ => apply Z.leb_le in H
  | H : (_ <=? _) = false |- _ => apply Z.leb_gt in H
  | H : (_ <? _) = true |- _ => apply Z.ltb_lt in H
  | H : (_ <? _) = false |- _ => apply Z.ltb_ge in H
  | H : (_ =? _) = true |- _ => apply Z.eqb_eq in H
  | H : (_ =? _) = false |- _ => apply Z.eqb_neq in H
  end.

(** ** Generic lemmas *)

Section runs.
Context {S O : Type} (step : S -> O -> S).

Lemma run_nil s : run step s [] = s.
Proof. done. Qed.

Lemma run_cons s o ops : run step s (o :: ops) = run step (step s o) ops.
Proof. done. Qed.

Lemma run_app s ops1 ops2 : run step s (ops1 ++ ops2) = run step (run step s ops1) ops2.
Proof. apply fold_left_app. Qed.

(** An invariant of every operation is an invariant of every run. *)
Lemma run_invariant (I : S -> Prop) :
  (forall s o, I s -> I (step s o)) -> forall ops s, I s -> I (run step s ops).
Proof. intros Hstep ops. induction ops; simpl; eauto. Qed.

(** The same when the operations are restricted. *)
Lemma run_invariant_if (P : O -> Prop) (I : S -> Prop) :
  (forall s o, P o -> I s -> I (step s o)) ->
  forall ops s, Forall P ops -> I s -> I (run step s ops).
Proof. intros Hstep ops. induction ops; intros s HP HI; inv HP; simpl; eauto. Qed.

(** The same when what is allowed depends on the state: [legal P s ops] says that
    [P] holds of each operation of the run where it is done. *)
Fixpoint legal (P : S -> O -> Prop) (s : S) (ops : list O) : Prop :=
  match ops with [] => True | o :: ops => P s o /\ legal P (step s o) ops end.

Lemma run_invariant_legal (P : S -> O -> Prop) (I : S -> Prop) :
  (forall s o, P s o -> I s -> I (step s o)) ->
  forall ops s, legal P s ops -> I s -> I (run step s ops).
Proof. intros Hstep ops. induction ops; intros s; simpl; [done|]. intros [? ?] ?. eauto. Qed.

(** A reflexive-transitive relation followed by every operation is followed
    by every run. *)
Lemma run_preorder (R : S -> S -> Prop) `{!PreOrder R} :
  (forall s o, R s (step s o)) -> forall ops s, R s (run step s ops).
Proof.
  intros Hstep ops. induction ops as [|o ops IH]; intros s; simpl; [done|].
  etrans; [apply Hstep | apply IH].
Qed.
End runs.

(** ** Invariants of operations that may throw

    [m] keeps [P], whatever its outcome. *)
Definition keeps {S E A} (P : S -> Prop) (m : comp S E A) : Prop := forall s, P s -> P (m s).2.

Lemma keeps_ret {S E A} (P : S -> Prop) (a : A) : keeps P (cret a : comp S E A).
Proof. by intros s Hs. Qed.

Lemma keeps_throw {S E A} (P : S -> Prop) (e : E) : keeps P (cthrow e : comp S E A).
Proof. by intros s Hs. Qed.

Lemma keeps_bind {S E A B} (P : S -> Prop) (m : comp S E A) (k : A -> comp S E B) :
  keeps P m -> (forall a, keeps P (k a)) -> keeps P (cbind m k).
Proof.
  intros Hm Hk s Hs. unfold cbind. specialize (Hm s Hs). destruct (m s) as [[a|e] s']; [by apply Hk|done].
Qed.

#[export] Hint Resolve keeps_ret keeps_throw : omp.

Lemma is_empty_spec s : is_empty s = true <-> s = "".
Proof. by destruct s. Qed.

Lemma is_empty_false s : is_empty s = false <-> s <> "".
Proof. by destruct s. Qed.

Lemma append_cons c (a b : string) :
  (String c a +:+ b = String c (a +:+ b))%stdpp.
Proof. done. Qed.

Lemma append_nil_r (s : string) : (s +:+ "")%stdpp = s.
Proof. induction s as [|c s IH]; [done|]. by rewrite append_cons, IH. Qed.

Lemma append_assoc (a b c : string) : ((a +:+ b) +:+ c = a +:+ (b +:+ c))%stdpp.
Proof. induction a as [|x a IH]; [done|]. by rewrite !append_cons, IH. Qed.

Lemma length_append (a b : string) :
  String.length (a +:+ b)%stdpp = (String.length a + String.length b)%nat.
Proof. induction a as [|x a IH]; [done|]. rewrite append_cons. simpl. by rewrite IH. Qed.

Lemma append_inj_l (a b c : string) : (a +:+ b = a +:+ c)%stdpp -> b = c.
Proof. induction a as [|x a IH]; [done|]. rewrite !append_cons. intros [= ?]. auto. Qed.

(** Two concatenations with heads of one length split at the same place. *)
Lemma append_length_inj (a b c d : string) :
  String.length a = String.length c -> (a +:+ b = c +:+ d)%stdpp -> a = c /\ b = d.
Proof.
  revert c. induction a as [|x a IH]; intros [|y c]; simpl; try done.
  rewrite !append_cons. intros [= Hlen] [= -> Heq].
  by destruct (IH c Hlen Heq) as [-> ->].
Qed.

#[export] Hint Rewrite @run_nil @run_cons @run_app append_nil_r append_assoc length_append : omp.
