(* ===== verification/JsMap.v ===== *)
(** * JavaScript [Map] with string keys

    A [Map] iterates in insertion order: [set] on a present key keeps its
    position, [set] on an absent key appends, [delete] removes.  The ingest
    buffer, the pool's LRU map and the supervisor's tables are such maps. *)

From S2P Require Import Prelude.
From stdpp Require Import options.

Section jsmap.
Context {V : Type}.

Definition jsmap : Type := list (string * V).

Fixpoint jget (k : string) (m : list (string * V)) : option V :=
  match m with
  | [] => None
  | (k', v) :: m => if decide (k = k') then Some v else jget k m
  end.

Fixpoint jset (k : string) (v : V) (m : list (string * V)) : list (string * V) :=
  match m with
  | [] => [(k, v)]
  | (k', v') :: m =>
      if decide (k = k') then (k', v) :: m else (k', v') :: jset k v m
  end.

Definition jdelete (k : string) (m : list (string * V)) : list (string * V) :=
  List.filter (fun kv => negb (bool_decide (kv.1 = k))) m.

Definition jhas (k : string) (m : list (string * V)) : bool :=
  match jget k m with Some _ => true | None => false end.

Definition jkeys (m : list (string * V)) : list string := m.*1.

Lemma jget_set_eq k v m : jget k (jset k v m) = Some v.
Proof. induction m as [|[k' v'] m IH]; simpl; repeat case_decide; simplify_eq/=; try case_decide; done. Qed.

Lemma jget_set_ne k k' v m : k <> k' -> jget k (jset k' v m) = jget k m.
Proof.
  intros Hne. induction m as [|[k2 v2] m IH]; simpl; [by rewrite decide_False|].
  destruct (decide (k' = k2)) as [->|]; simpl; [by rewrite !decide_False|].
  by rewrite IH.
Qed.

Lemma jget_set k k' v m :
  jget k (jset k' v m) = if decide (k = k') then Some v else jget k m.
Proof. case_decide; [subst; apply jget_set_eq | by apply jget_set_ne]. Qed.

Lemma jget_delete_eq k m : jget k (jdelete k m) = None.
Proof.
  induction m as [|[k' v'] m IH]; simpl; [done|].
  case_bool_decide; simpl; [done|]. rewrite decide_False; congruence.
Qed.

Lemma jget_delete_ne k k' m : k <> k' -> jget k (jdelete k' m) = jget k m.
Proof.
  intros Hne. induction m as [|[k2 v2] m IH]; simpl; [done|].
  case_bool_decide; simpl; subst; [by rewrite decide_False|].
  by rewrite IH.
Qed.

Lemma jget_delete k k' m :
  jget k (jdelete k' m) = if decide (k = k') then None else jget k m.
Proof. case_decide; [subst; apply jget_delete_eq | by apply jget_delete_ne]. Qed.

Lemma elem_of_jkeys k m : k ∈ jkeys m <-> is_Some (jget k m).
Proof.
  unfold jkeys. induction m as [|[k' v'] m IH]; simpl.
  - split; [intros ?%elem_of_nil; done | by intros [? ?]].
  - rewrite elem_of_cons, IH. case_decide; subst.
    + split; [by eexists | by left].
    + split; [by intros [?|?] | by right].
Qed.

Lemma jget_None k m : jget k m = None <-> k ∉ jkeys m.
Proof. rewrite elem_of_jkeys, <- eq_None_not_Some. done. Qed.

Lemma jkeys_set_present k v m : is_Some (jget k m) -> jkeys (jset k v m) = jkeys m.
Proof.
  unfold jkeys. induction m as [|[k' v'] m IH]; simpl; [intros [? ?]; done|].
  case_decide; [done|]. intros Hs. f_equal/=. by apply IH.
Qed.

Lemma jset_absent k v m : jget k m = None -> jset k v m = m ++ [(k, v)].
Proof.
  induction m as [|[k' v'] m IH]; simpl; [done|].
  case_decide; [done|]. intros Hs. by rewrite IH.
Qed.

Lemma jkeys_set_absent k v m : jget k m = None -> jkeys (jset k v m) = jkeys m ++ [k].
Proof. intros H. unfold jkeys. rewrite jset_absent by done. by rewrite fmap_app. Qed.

Lemma NoDup_jset k v m : NoDup (jkeys m) -> NoDup (jkeys (jset k v m)).
Proof.
  intros Hnd. destruct (jget k m) eqn:Hg.
  - by rewrite jkeys_set_present.
  - rewrite jkeys_set_absent by done. apply NoDup_app. split; [done|].
    split; [|by apply NoDup_singleton].
    intros x Hx ->%list_elem_of_singleton. by apply jget_None in Hg.
Qed.

Lemma jdelete_sublist k m : sublist (jkeys (jdelete k m)) (jkeys m).
Proof.
  unfold jkeys, jdelete. induction m as [|[k' v'] m IH]; simpl; [constructor|].
  case_bool_decide; simpl; by constructor.
Qed.

Lemma NoDup_jdelete k m : NoDup (jkeys m) -> NoDup (jkeys (jdelete k m)).
Proof. intros Hnd. by eapply sublist_NoDup; [|apply jdelete_sublist]. Qed.

Lemma elem_of_jget k v m : NoDup (jkeys m) -> (k, v) ∈ m -> jget k m = Some v.
Proof.
  unfold jkeys. induction m as [|[k' v'] m IH]; simpl; intros Hnd Hin; [inv Hin|].
  inv Hnd. apply elem_of_cons in Hin as [Heq|Hin]; [simplify_eq; by rewrite decide_True|].
  case_decide; [|auto]. subst. exfalso.
  match goal with H : _ ∉ _ |- _ => apply H end. apply list_elem_of_fmap. by exists (k', v).
Qed.

Lemma jget_elem_of k v m : jget k m = Some v -> (k, v) ∈ m.
Proof.
  induction m as [|[k' v'] m IH]; simpl; [done|]. case_decide; intros; simplify_eq.
  - by left.
  - right. auto.
Qed.

Lemma length_jset_present k v m : is_Some (jget k m) -> length (jset k v m) = length m.
Proof.
  intros H. rewrite <- (length_fmap fst), <- (length_fmap fst m).
  by erewrite jkeys_set_present by done.
Qed.

Lemma length_jset_absent k v m : jget k m = None -> length (jset k v m) = S (length m).
Proof. intros H. rewrite jset_absent by done. rewrite length_app. simpl. lia. Qed.

Lemma jdelete_absent k m : jget k m = None -> jdelete k m = m.
Proof.
  induction m as [|[k' v'] m IH]; simpl; [done|]. case_decide; [done|]. intros Hs.
  rewrite bool_decide_eq_false_2 by congruence. simpl. by rewrite IH.
Qed.

Lemma length_jdelete_present k m :
  NoDup (jkeys m) -> is_Some (jget k m) -> S (length (jdelete k m)) = length m.
Proof.
  induction m as [|[k' v'] m IH]; simpl; intros Hnd [w Hw]; [done|].
  unfold jkeys in Hnd. simpl in Hnd. inv Hnd. case_decide as Hk.
  - subst. rewrite bool_decide_eq_true_2 by done. simpl.
    fold (jdelete k' m). rewrite jdelete_absent; [done|]. by apply jget_None.
  - rewrite bool_decide_eq_false_2 by congruence. simpl. rewrite <- IH; eauto.
Qed.

Lemma length_jdelete_le k m : (length (jdelete k m) <= length m)%nat.
Proof.
  rewrite <- (length_fmap fst), <- (length_fmap fst m).
  apply sublist_length, jdelete_sublist.
Qed.
End jsmap.

Arguments jsmap V : clear implicits.
#[export] Hint Rewrite @jget_set_eq @jget_delete_eq : omp.
#[export] Hint Resolve NoDup_jset NoDup_jdelete : omp.
