(* ===== verification/SqlTable.v ===== *)
(** * SQLite tables

    The three stores of the core package are single-table SQLite databases used
    synchronously.  A table is a finite map from the primary key to the row; a
    [Schema] gives the key columns and the [CHECK] constraints.  [INSERT],
    [UPDATE ... WHERE], [DELETE ... WHERE] and [SELECT ... WHERE ... ORDER BY]
    are the statements the sources issue; a statement that would break a
    constraint fails and changes nothing ([None]), and [UPDATE]/[DELETE] report
    [info.changes]. *)

From S2P Require Import Prelude.
From stdpp Require Import options.

Class Schema (K R : Type) `{Countable K} := {
  primary_key : R -> K;
  row_check : R -> bool;
}.

(** An [ORDER BY] comparison as a decidable relation. *)
Definition ordered_by {R : Type} (le : R -> R -> bool) (r1 r2 : R) : Prop :=
  le r1 r2 = true.

#[export] Instance ordered_by_dec {R} (le : R -> R -> bool) r1 r2 :
  Decision (ordered_by le r1 r2).
Proof. unfold ordered_by. apply _. Defined.

Section sql.
Context {K R : Type} `{Schema K R}.
Implicit Types (t : gmap K R) (r : R) (k : K).

(** [INSERT]: fails on a primary-key collision or a violated [CHECK]. *)
Definition sql_insert (r : R) (t : gmap K R) : option (gmap K R) :=
  if t !! primary_key r is Some _ then None
  else if row_check r then Some (<[primary_key r := r]> t) else None.

(** Number of rows a [WHERE] clause selects. *)
Definition sql_count (where_ : R -> bool) (t : gmap K R) : nat :=
  size (filter (fun kr : K * R => where_ kr.2 = true) t).

(** [UPDATE t SET upd WHERE where_]: the new table and [info.changes]. *)
Definition sql_update (where_ : R -> bool) (upd : R -> R) (t : gmap K R) :
    option (gmap K R * nat) :=
  if bool_decide (map_Forall (fun _ r => where_ r = true -> row_check (upd r) = true) t)
  then Some ((fun r => if where_ r then upd r else r) <$> t, sql_count where_ t)
  else None.

(** [DELETE FROM t WHERE where_]. *)
Definition sql_delete (where_ : R -> bool) (t : gmap K R) : gmap K R * nat :=
  (filter (fun kr : K * R => where_ kr.2 = false) t, sql_count where_ t).

(** [SELECT * FROM t WHERE where_ ORDER BY le]. *)
Definition sql_select (le : R -> R -> bool) (where_ : R -> bool) (t : gmap K R) : list R :=
  merge_sort (ordered_by le)
    (List.filter where_ (map_to_list t).*2).

(** Every row is stored under its key and satisfies the [CHECK]s. *)
Definition table_ok (t : gmap K R) : Prop :=
  map_Forall (fun k r => primary_key r = k /\ row_check r = true) t.

(** [upd] leaves the key columns alone on the rows selected. *)
Definition keeps_key (where_ : R -> bool) (upd : R -> R) : Prop :=
  forall r, where_ r = true -> primary_key (upd r) = primary_key r.

Lemma table_ok_empty : table_ok ∅.
Proof. apply map_Forall_empty. Qed.

Lemma table_ok_lookup t k r :
  table_ok t -> t !! k = Some r -> primary_key r = k /\ row_check r = true.
Proof. intros Hok Hk. apply (Hok _ _ Hk). Qed.

Lemma sql_insert_ok r t t' :
  sql_insert r t = Some t' ->
  t !! primary_key r = None /\ row_check r = true /\ t' = <[primary_key r := r]> t.
Proof. unfold sql_insert. intros. by case_all. Qed.

Lemma sql_insert_fresh r t :
  t !! primary_key r = None -> row_check r = true ->
  sql_insert r t = Some (<[primary_key r := r]> t).
Proof. unfold sql_insert. by intros -> ->. Qed.

Lemma table_ok_insert r t t' : table_ok t -> sql_insert r t = Some t' -> table_ok t'.
Proof.
  intros Hok (_ & Hc & ->)%sql_insert_ok. by apply map_Forall_insert_2.
Qed.

Lemma sql_count_zero where_ t :
  sql_count where_ t = 0%nat <-> map_Forall (fun _ r => where_ r = false) t.
Proof.
  unfold sql_count. rewrite map_size_empty_iff, map_empty_filter.
  split; intros Hf k r Hk; specialize (Hf k r Hk); simpl in *.
  - by apply not_true_is_false.
  - by rewrite Hf.
Qed.

Lemma sql_count_none where_ t : (forall k r, t !! k = Some r -> where_ r = false) ->
  sql_count where_ t = 0%nat.
Proof. intros Hf. apply sql_count_zero. by intros k r; apply Hf. Qed.

Lemma sql_count_ext w1 w2 t :
  (forall k r, t !! k = Some r -> w1 r = w2 r) -> sql_count w1 t = sql_count w2 t.
Proof.
  intros Hw. unfold sql_count. f_equal. apply map_filter_ext.
  intros k r Hk. simpl. by rewrite (Hw k r Hk).
Qed.

(** A [WHERE] that pins the whole key selects at most the row under it. *)
Lemma sql_count_key where_ t k :
  (forall k' r, t !! k' = Some r -> where_ r = true -> k' = k) ->
  sql_count where_ t =
    match t !! k with Some r => if where_ r then 1%nat else 0%nat | None => 0%nat end.
Proof.
  intros Hkey. unfold sql_count.
  destruct (t !! k) as [r|] eqn:Hk; [destruct (where_ r) eqn:Hw|].
  - replace (filter _ t) with ({[k := r]} : gmap K R); [apply map_size_singleton|].
    symmetry. apply map_eq. intros i. apply option_eq. intros x.
    rewrite map_lookup_filter_Some, lookup_singleton_Some. simpl. naive_solver.
  - rewrite map_size_empty_iff, map_empty_filter. intros i x Hi ?; simpl in *.
    assert (i = k) as -> by eauto. congruence.
  - rewrite map_size_empty_iff, map_empty_filter. intros i x Hi ?; simpl in *.
    assert (i = k) as -> by eauto. congruence.
Qed.

Lemma sql_update_ok where_ upd t t' n :
  sql_update where_ upd t = Some (t', n) ->
  t' = (fun r => if where_ r then upd r else r) <$> t /\ n = sql_count where_ t /\
  (forall k r, t !! k = Some r -> where_ r = true -> row_check (upd r) = true).
Proof. unfold sql_update. case_bool_decide as Hf; [|done]. intros; by simplify_eq. Qed.

Lemma sql_update_succeeds where_ upd t :
  (forall k r, t !! k = Some r -> where_ r = true -> row_check (upd r) = true) ->
  sql_update where_ upd t =
    Some ((fun r => if where_ r then upd r else r) <$> t, sql_count where_ t).
Proof. intros Hf. unfold sql_update. rewrite bool_decide_eq_true_2; [done|]. by intros k r; apply Hf. Qed.

Lemma lookup_sql_update where_ upd t t' n k :
  sql_update where_ upd t = Some (t', n) ->
  t' !! k = (fun r => if where_ r then upd r else r) <$> t !! k.
Proof. intros (-> & _)%sql_update_ok. apply lookup_fmap. Qed.

(** An [UPDATE] that selects nothing changes nothing. *)
Lemma sql_update_none where_ upd t t' :
  sql_update where_ upd t = Some (t', 0%nat) -> t' = t.
Proof.
  intros (-> & Hn & _)%sql_update_ok. symmetry in Hn. rewrite sql_count_zero in Hn.
  apply map_eq. intros k. rewrite lookup_fmap. destruct (t !! k) as [r|] eqn:Hk; [|done].
  simpl. by rewrite (Hn _ _ Hk).
Qed.

Lemma table_ok_update where_ upd t t' n :
  keeps_key where_ upd -> table_ok t -> sql_update where_ upd t = Some (t', n) -> table_ok t'.
Proof.
  intros Hkeep Hok (-> & _ & Hc)%sql_update_ok k r. rewrite lookup_fmap, fmap_Some.
  intros (r0 & Hr & ->). destruct (Hok _ _ Hr) as [<- ?].
  destruct (where_ r0) eqn:Hw; [|done]. split; [by apply Hkeep | by eapply Hc].
Qed.

Lemma lookup_sql_delete where_ t k :
  (sql_delete where_ t).1 !! k =
    match t !! k with Some r => if where_ r then None else Some r | None => None end.
Proof.
  unfold sql_delete. simpl. apply option_eq. intros r.
  rewrite map_lookup_filter_Some. simpl. destruct (t !! k) as [r0|]; [|naive_solver].
  destruct (where_ r0) eqn:Hw; split; naive_solver congruence.
Qed.

Lemma table_ok_delete where_ t : table_ok t -> table_ok (sql_delete where_ t).1.
Proof.
  intros Hok k r Hk. rewrite lookup_sql_delete in Hk. case_all. by apply Hok.
Qed.

Lemma sql_delete_none where_ t :
  (sql_delete where_ t).2 = 0%nat -> (sql_delete where_ t).1 = t.
Proof.
  simpl. rewrite sql_count_zero. intros Hn. apply map_eq. intros k.
  pose proof (lookup_sql_delete where_ t k) as Hl. simpl in Hl. rewrite Hl.
  destruct (t !! k) as [r|] eqn:Hk; [|done]. by rewrite (Hn _ _ Hk).
Qed.

Lemma sql_select_perm le where_ t :
  Permutation (sql_select le where_ t) (List.filter where_ (map_to_list t).*2).
Proof. apply merge_sort_Permutation. Qed.

Lemma elem_of_sql_select le where_ t r :
  r ∈ sql_select le where_ t <-> where_ r = true /\ exists k, t !! k = Some r.
Proof.
  rewrite (sql_select_perm le where_ t).
  rewrite list_elem_of_In, filter_In, <- list_elem_of_In, list_elem_of_fmap.
  split.
  - intros [([k r'] & -> & Hin) Hw]. split; [done|]. exists k. by apply elem_of_map_to_list.
  - intros [Hw [k Hk]]. split; [|done]. exists (k, r). split; [done|].
    by apply elem_of_map_to_list.
Qed.

(** Counting inside a selection is counting in the table. *)
Lemma length_select_filter le where_ sub t :
  length (List.filter sub (sql_select le where_ t)) =
  sql_count (fun r => where_ r && sub r) t.
Proof.
  assert (forall l l' : list R, Permutation l l' ->
    length (List.filter sub l) = length (List.filter sub l')) as Hperm.
  { induction 1; simpl; repeat case_match; simpl; lia. }
  rewrite (Hperm _ _ (sql_select_perm le where_ t)). unfold sql_count.
  induction t as [|k r t Hk IH] using map_ind.
  - rewrite map_to_list_empty, map_filter_empty. simpl. by rewrite map_size_empty.
  - assert (Permutation (List.filter where_ (map_to_list (<[k:=r]> t)).*2)
             (List.filter where_ ((k, r) :: map_to_list t).*2)) as HP.
    { assert (Permutation (map_to_list (<[k:=r]> t)).*2 ((k, r) :: map_to_list t).*2) as HP0
        by by rewrite map_to_list_insert.
      revert HP0. generalize (map_to_list (<[k:=r]> t)).*2, ((k, r) :: map_to_list t).*2.
      induction 1; simpl; repeat case_match; eauto using Permutation. }
    rewrite (Hperm _ _ HP), fmap_cons. cbn [List.filter snd].
    destruct (where_ r) eqn:Hw; cbn [List.filter];
      [destruct (sub r) eqn:Hs; cbn [length]|].
    + rewrite map_filter_insert_True by (simpl; by rewrite Hw, Hs).
      rewrite map_size_insert_None, IH; [done|].
      apply map_lookup_filter_None. by left.
    + rewrite map_filter_insert_False by (simpl; by rewrite Hw, Hs).
      by rewrite delete_id, IH.
    + rewrite map_filter_insert_False by (simpl; by rewrite Hw).
      by rewrite delete_id, IH.
Qed.

Lemma length_sql_select le where_ t :
  length (sql_select le where_ t) = sql_count where_ t.
Proof.
  pose proof (length_select_filter le where_ (fun _ => true) t) as Hl.
  replace (List.filter (fun _ => true) (sql_select le where_ t))
    with (sql_select le where_ t) in Hl.
  - rewrite Hl. unfold sql_count. f_equal. apply map_filter_ext.
    intros. simpl. by rewrite andb_true_r.
  - generalize (sql_select le where_ t). intros l; induction l; simpl; congruence.
Qed.

Lemma sql_select_nil le where_ t :
  sql_select le where_ t = [] <-> forall k r, t !! k = Some r -> where_ r = false.
Proof.
  split.
  - intros Hnil k r Hk. destruct (where_ r) eqn:Hw; [|done].
    assert (r ∈ sql_select le where_ t) as Hin by (apply elem_of_sql_select; eauto).
    rewrite Hnil in Hin. by apply elem_of_nil in Hin.
  - intros Hf. apply length_zero_iff_nil. rewrite length_sql_select.
    by apply sql_count_none.
Qed.
End sql.

#[export] Hint Resolve table_ok_empty table_ok_insert table_ok_update table_ok_delete : omp.
