(* ===== verification/JsString.v ===== *)
(** * JavaScript strings

    A JavaScript string is a sequence of UTF-16 code units.  Here it is a Rocq
    [string], one [ascii] per code unit, so the code units are those below 256;
    nothing in the development depends on where that bound lies.  The functions
    are the [String.prototype] methods and regular expressions the sources use. *)

From S2P Require Import Prelude.
From Stdlib Require Import Ascii.
From stdpp Require Import options.

(** [WhiteSpace] and [LineTerminator] below U+0100: what [trim] and [\s] match. *)
Definition is_js_space (c : ascii) : bool :=
  let n := N_of_ascii c in
  ((9 <=? n)%N && (n <=? 13)%N) || (n =? 32)%N || (n =? 160)%N.

Fixpoint trim_start (s : string) : string :=
  match s with
  | EmptyString => EmptyString
  | String c s' => if is_js_space c then trim_start s' else s
  end.

Fixpoint trim_end (s : string) : string :=
  match s with
  | EmptyString => EmptyString
  | String c s' =>
      match trim_end s' with
      | EmptyString => if is_js_space c then EmptyString else String c EmptyString
      | t => String c t
      end
  end.

(** [s.trim()] *)
Definition trim (s : string) : string := trim_end (trim_start s).

(** [s.replace(/\s+/g, " ")] *)
Fixpoint collapse_spaces (s : string) : string :=
  match s with
  | EmptyString => EmptyString
  | String c s' =>
      if is_js_space c then
        match s' with
        | String c' _ => if is_js_space c' then collapse_spaces s'
                         else String " " (collapse_spaces s')
        | EmptyString => String " " EmptyString
        end
      else String c (collapse_spaces s')
  end.

(** [s.split(sep)] for a one-character separator. *)
Fixpoint split_on (sep : ascii) (s : string) : list string :=
  match s with
  | EmptyString => [EmptyString]
  | String c s' =>
      if Ascii.eqb c sep then EmptyString :: split_on sep s'
      else match split_on sep s' with
           | w :: ws => String c w :: ws
           | [] => [String c EmptyString]
           end
  end.

(** [s.split(/[..]+/)] for the character class [sep]: one separator per run. *)
Fixpoint split_runs (sep : ascii -> bool) (s : string) : list string :=
  match s with
  | EmptyString => [EmptyString]
  | String c s' =>
      if sep c then
        match s' with
        | String c' _ => if sep c' then split_runs sep s' else EmptyString :: split_runs sep s'
        | EmptyString => [EmptyString; EmptyString]
        end
      else match split_runs sep s' with
           | w :: ws => String c w :: ws
           | [] => [String c EmptyString]
           end
  end.

(** [ws.join(sep)] *)
Fixpoint join (sep : string) (ws : list string) : string :=
  match ws with
  | [] => ""
  | [w] => w
  | w :: ws => (w +:+ sep +:+ join sep ws)%stdpp
  end.

Fixpoint starts_with (p s : string) : bool :=
  match p, s with
  | EmptyString, _ => true
  | String a p, String b s => Ascii.eqb a b && starts_with p s
  | String _ _, EmptyString => false
  end.

(** [s.slice(0, n)] *)
Fixpoint take_str (n : nat) (s : string) : string :=
  match n, s with
  | S n, String c s => String c (take_str n s)
  | _, _ => EmptyString
  end.

(** [s.slice(n)] *)
Fixpoint drop_str (n : nat) (s : string) : string :=
  match n, s with
  | S n, String _ s => drop_str n s
  | _, s => s
  end.

Definition ends_with (p s : string) : bool :=
  (String.length p <=? String.length s)%nat &&
  String.eqb (drop_str (String.length s - String.length p) s) p.

Definition lower_char (c : ascii) : ascii :=
  let n := N_of_ascii c in
  if ((65 <=? n)%N && (n <=? 90)%N) ||
     ((192 <=? n)%N && (n <=? 222)%N && negb (n =? 215)%N)
  then ascii_of_N (n + 32)%N else c.

(** [s.toLowerCase()] *)
Fixpoint to_lower (s : string) : string :=
  match s with
  | EmptyString => EmptyString
  | String c s => String (lower_char c) (to_lower s)
  end.

Definition is_digit (c : ascii) : bool :=
  let n := N_of_ascii c in (48 <=? n)%N && (n <=? 57)%N.

Definition digit_value (c : ascii) : Z := Z.of_N (N_of_ascii c) - 48.

(** The longest prefix of decimal digits, its value, its length and the rest. *)
Fixpoint take_digits (acc : Z) (len : nat) (s : string) : Z * nat * string :=
  match s with
  | String c s' =>
      if is_digit c then take_digits (acc * 10 + digit_value c) (S len) s'
      else (acc, len, s)
  | EmptyString => (acc, len, s)
  end.

Definition digits (s : string) : Z * nat * string := take_digits 0 0 s.

Fixpoint all_chars (P : ascii -> bool) (s : string) : bool :=
  match s with EmptyString => true | String c s => P c && all_chars P s end.

(** A string between double quotes, as template literals write it in messages. *)
Definition quoted (s : string) : string :=
  let dq := String (ascii_of_N 34) EmptyString in (dq +:+ s +:+ dq)%stdpp.

(** UTF-8 bytes of a string of code units below 256. *)
Fixpoint utf8 (s : string) : list N :=
  match s with
  | EmptyString => []
  | String c s =>
      let n := N_of_ascii c in
      (if (n <? 128)%N then [n] else [(192 + n / 64)%N; (128 + n mod 64)%N]) ++ utf8 s
  end.

Lemma length_take_str n s : (String.length (take_str n s) <= n)%nat.
Proof. revert s. induction n; intros [|c s]; simpl; try lia. specialize (IHn s). lia. Qed.

Lemma length_trim_start s : (String.length (trim_start s) <= String.length s)%nat.
Proof. induction s; simpl; [done|]. case_match; simpl; lia. Qed.

Lemma length_trim_end s : (String.length (trim_end s) <= String.length s)%nat.
Proof. induction s; simpl; [done|]. repeat case_match; simpl in *; lia. Qed.

Lemma trim_start_idemp s : trim_start (trim_start s) = trim_start s.
Proof. induction s; simpl; [done|]. case_match eqn:Hc; [done|]. simpl. by rewrite Hc. Qed.

Lemma trim_end_idemp s : trim_end (trim_end s) = trim_end s.
Proof.
  induction s as [|c s IH]; [done|]. cbn [trim_end].
  destruct (trim_end s) as [|c' t] eqn:Ht.
  - destruct (is_js_space c) eqn:Hc; [done|]. cbn. by rewrite Hc.
  - change (trim_end (String c (String c' t)) = String c (String c' t)).
    remember (String c' t) as u eqn:Hu. cbn [trim_end]. rewrite IH. by subst u.
Qed.

(** What trimming at the end keeps starts as before. *)
Lemma trim_end_head c s : is_js_space c = false -> exists t, trim_end (String c s) = String c t.
Proof. intros Hc. simpl. destruct (trim_end s); [rewrite Hc|]; eauto. Qed.

Lemma trim_idemp s : trim (trim s) = trim s.
Proof.
  unfold trim. destruct (trim_start s) as [|c t] eqn:Hs; [done|].
  assert (is_js_space c = false) as Hc.
  { clear -Hs. induction s as [|d s IH]; simpl in Hs; [done|].
    destruct (is_js_space d) eqn:Hd; [auto|]. congruence. }
  destruct (trim_end_head c t Hc) as [t' Ht']. rewrite Ht'. cbn [trim_start].
  rewrite Hc, <- Ht'. apply trim_end_idemp.
Qed.

Lemma starts_with_spec p s : starts_with p s = true <-> exists t, s = (p +:+ t)%stdpp.
Proof.
  revert s. induction p as [|a p IH]; intros s; simpl.
  - split; [by exists s|done].
  - destruct s as [|b s]; simpl.
    + split; [done|]. by intros [t Ht].
    + rewrite andb_true_iff, Ascii.eqb_eq, IH. split.
      * intros [-> [t ->]]. by exists t.
      * intros [t Ht]. rewrite append_cons in Ht. simplify_eq. eauto.
Qed.

Lemma length_join_2 (sep a b : string) ws :
  join sep (a :: b :: ws) = (a +:+ sep +:+ join sep (b :: ws))%stdpp.
Proof. done. Qed.

Lemma length_utf8_eq s t : utf8 s = utf8 t -> s = t.
Proof.
  assert (forall c : ascii, (N_of_ascii c < 256)%N) as Hb by apply N_ascii_bounded.
  revert t. induction s as [|c s IH]; intros [|d t]; simpl; [done| | |].
  - case_match; done.
  - case_match; done.
  - pose proof (Hb c). pose proof (Hb d).
    assert (forall n, (n < 256)%N -> (192 + n / 64 >= 128)%N) as Hge
      by (intros n _; generalize (n / 64)%N; lia).
    destruct (N.ltb_spec (N_of_ascii c) 128); destruct (N.ltb_spec (N_of_ascii d) 128); simpl;
      intros Heq.
    + injection Heq as Heq1 Heq2. f_equal; [|by apply IH].
      apply (f_equal ascii_of_N) in Heq1. by rewrite !ascii_N_embedding in Heq1.
    + exfalso. injection Heq as Heq1 _. specialize (Hge (N_of_ascii d)). lia.
    + exfalso. injection Heq as Heq1 _. specialize (Hge (N_of_ascii c)). lia.
    + injection Heq as Heq1 Heq2 Heq3.
      assert (N_of_ascii c = N_of_ascii d) as Hcd.
      { rewrite (N.div_mod' (N_of_ascii c) 64), (N.div_mod' (N_of_ascii d) 64).
        revert Heq1 Heq2. generalize (N_of_ascii c / 64)%N, (N_of_ascii d / 64)%N.
        generalize (N_of_ascii c mod 64)%N, (N_of_ascii d mod 64)%N. lia. }
      apply (f_equal ascii_of_N) in Hcd. rewrite !ascii_N_embedding in Hcd.
      f_equal; [done | by apply IH].
Qed.

#[export] Instance utf8_inj : Inj (=) (=) utf8.
Proof. intros s t. apply length_utf8_eq. Qed.
