(* ===== verification/Numerals.v ===== *)
(** * Decimal numerals

    Printing a number ([pretty], as a template literal prints an integer) and
    reading its digits back. *)

From S2P Require Import Prelude JsString.
From Stdlib Require Import Ascii.
From stdpp Require Import pretty options.
#[local] Open Scope Z_scope.

(** The text does not go on with a digit. *)
Definition no_digit_head (s : string) : bool :=
  match s with EmptyString => true | String c _ => negb (is_digit c) end.

Lemma take_digits_stop acc len s : no_digit_head s = true -> take_digits acc len s = (acc, len, s).
Proof. destruct s as [|c s]; simpl; [done|]. intros ->%negb_true_iff. done. Qed.

Lemma is_digit_pretty_char d : is_digit (pretty_N_char d) = true.
Proof. unfold pretty_N_char. by repeat case_match. Qed.

Lemma take_digits_go n acc len s :
  exists k : nat,
    take_digits acc len (pretty_N_go n s) =
    take_digits (acc * 10 ^ Z.of_nat k + Z.of_N n) (len + k) s.
Proof.
  revert acc len s. induction (N.lt_wf_0 n) as [n _ IH]. intros acc len s.
  destruct (decide (n = 0)%N) as [->|Hn].
  - exists 0%nat. rewrite pretty_N_go_0, Nat.add_0_r.
    replace (acc * 10 ^ Z.of_nat 0 + Z.of_N 0) with acc by lia. done.
  - rewrite pretty_N_go_step by lia.
    destruct (IH (n / 10)%N ltac:(apply N.div_lt; lia) acc len
                 (String (pretty_N_char (n mod 10)) s)) as [k Hk].
    exists (S k). rewrite Hk. cbn [take_digits].
    assert (forall d, (d < 10)%N -> is_digit (pretty_N_char d) = true /\
              digit_value (pretty_N_char d) = Z.of_N d) as Hd.
    { intros d Hd. assert (d = 0 \/ d = 1 \/ d = 2 \/ d = 3 \/ d = 4 \/ d = 5 \/ d = 6 \/ d = 7
        \/ d = 8 \/ d = 9)%N as Hcases by lia.
      by repeat destruct Hcases as [->|Hcases]; [..|subst]. }
    destruct (Hd (n mod 10)%N ltac:(apply N.mod_lt; lia)) as [-> ->].
    rewrite Nat.add_succ_r. f_equal.
    rewrite Nat2Z.inj_succ, Z.pow_succ_r by lia.
    rewrite (N.div_mod' n 10) at 3. lia.
Qed.

(** Reading the digits of a printed number back, up to the next character. *)
Lemma digits_pretty (n : N) s :
  no_digit_head s = true -> exists k, digits (pretty n +:+ s)%stdpp = (Z.of_N n, S k, s).
Proof.
  intros Hs. unfold digits, pretty, pretty_N. case_decide as Hn.
  - subst. exists 0%nat. by apply (take_digits_stop 0 1).
  - assert (forall x t u, (pretty_N_go x t +:+ u = pretty_N_go x (t +:+ u))%stdpp) as Happ.
    { intros x. induction (N.lt_wf_0 x) as [x _ IH]. intros t u.
      destruct (decide (x = 0)%N) as [->|]; [by rewrite !pretty_N_go_0|].
      rewrite !(pretty_N_go_step x) by lia.
      rewrite IH by (apply N.div_lt; lia). by rewrite append_cons. }
    rewrite Happ. change ("" +:+ s)%stdpp with s.
    destruct (take_digits_go n 0 0 s) as [k Hk]. rewrite Hk, take_digits_stop by done.
    destruct k as [|k]; [exfalso|by exists k].
    rewrite pretty_N_go_step in Hk by lia.
    destruct (take_digits_go (n / 10) 0 0 (String (pretty_N_char (n mod 10)) s)) as [k Hk2].
    rewrite Hk2 in Hk. cbn [take_digits] in Hk. rewrite is_digit_pretty_char in Hk.
    rewrite !take_digits_stop in Hk by done. by simplify_eq.
Qed.

Lemma all_digits_pretty (P : ascii -> bool) (n : N) :
  (forall c, is_digit c = true -> P c = true) -> all_chars P (pretty n) = true.
Proof.
  intros HP. unfold pretty, pretty_N. case_decide; [by apply andb_true_iff; auto|].
  assert (all_chars P "" = true) as Hs by done. revert Hs. generalize "".
  induction (N.lt_wf_0 n) as [n _ IH]. intros s Hs.
  destruct (decide (n = 0)%N) as [->|]; [by rewrite pretty_N_go_0|].
  rewrite pretty_N_go_step by lia. destruct (decide (n / 10 = 0)%N) as [Hz|].
  - rewrite Hz, pretty_N_go_0. cbn [all_chars]. rewrite Hs, HP; [done|apply is_digit_pretty_char].
  - apply IH; [apply N.div_lt; lia | done |].
    cbn [all_chars]. rewrite Hs, HP; [done|apply is_digit_pretty_char].
Qed.

Lemma pretty_N_nonempty (n : N) : pretty n <> "".
Proof.
  intros Heq. destruct (digits_pretty n "" eq_refl) as [k Hk]. rewrite Heq in Hk. done.
Qed.
