(* ===== verification/JsDate.v ===== *)
(** * JavaScript dates

    The calendar of ECMA-262 ([DayFromYear], [MakeDay], [Date.UTC],
    [getUTCFullYear] and its siblings) on integer milliseconds, with the proof
    that reading the calendar fields of a day number and making the day number
    of the fields are inverse.  [Date.UTC]'s time clip (beyond about 285,000
    years) is left out. *)

From S2P Require Import Prelude.
From stdpp Require Import options.
#[local] Open Scope Z_scope.

Definition ms_per_minute : Z := 60000.
Definition ms_per_hour : Z := 3600000.
Definition ms_per_day : Z := 86400000.

Definition leap_year (y : Z) : bool :=
  (y mod 4 =? 0) && (negb (y mod 100 =? 0) || (y mod 400 =? 0)).

(** The day number of 1 January. *)
Definition day_from_year (y : Z) : Z :=
  365 * (y - 1970) + (y - 1969) / 4 - (y - 1901) / 100 + (y - 1601) / 400.

Definition leap_day (l : bool) : Z := if l then 1 else 0.

(** Days of the year before month [m0] (0 is January). *)
Definition month_offset (l : bool) (m0 : Z) : Z :=
  if m0 =? 0 then 0 else if m0 =? 1 then 31
  else leap_day l +
    (if m0 =? 2 then 59 else if m0 =? 3 then 90 else if m0 =? 4 then 120
     else if m0 =? 5 then 151 else if m0 =? 6 then 181 else if m0 =? 7 then 212
     else if m0 =? 8 then 243 else if m0 =? 9 then 273 else if m0 =? 10 then 304
     else if m0 =? 11 then 334 else 365).

(** [MakeDay]: months outside 0..11 carry into the year. *)
Definition make_day (y m0 d : Z) : Z :=
  let ym := y + m0 / 12 in
  day_from_year ym + month_offset (leap_year ym) (m0 mod 12) + d - 1.

(** [Date.UTC(y, m0, d, h, min)]: years 0..99 mean 1900..1999. *)
Definition Date_UTC (y m0 d h min : Z) : Z :=
  let y' := if (0 <=? y) && (y <=? 99) then 1900 + y else y in
  make_day y' m0 d * ms_per_day + h * ms_per_hour + min * ms_per_minute.

(** The greatest year that starts on or before the day: an estimate, off by at
    most one. *)
Definition year_from_day (n : Z) : Z :=
  let y := 1970 + n * 400 / 146097 in
  if n <? day_from_year y then y - 1
  else if day_from_year (y + 1) <=? n then y + 1 else y.

Fixpoint month_from (fuel : nat) (l : bool) (m0 doy : Z) : Z :=
  match fuel with
  | O => m0
  | S fuel => if doy <? month_offset l (m0 + 1) then m0 else month_from fuel l (m0 + 1) doy
  end.

Definition date_fields (n : Z) : Z * Z * Z :=
  let y := year_from_day n in
  let doy := n - day_from_year y in
  let m0 := month_from 11 (leap_year y) 0 doy in
  (y, m0, doy - month_offset (leap_year y) m0 + 1).

(** Day 0, 1 January 1970, was a Thursday. *)
Definition week_day (n : Z) : Z := (n + 4) mod 7.

Definition day_of_ms (t : Z) : Z := t / ms_per_day.
Definition getUTCDay (t : Z) : Z := week_day (day_of_ms t).

(** A date that exists. *)
Definition valid_date (y m0 d : Z) : Prop :=
  0 <= m0 <= 11 /\
  1 <= d <= month_offset (leap_year y) (m0 + 1) - month_offset (leap_year y) m0.

(** ** The calendar is consistent *)

Lemma day_from_year_succ y :
  day_from_year (y + 1) = day_from_year y + 365 + leap_day (leap_year y).
Proof.
  unfold day_from_year, leap_year, leap_day.
  destruct (Z.eqb_spec (y mod 4) 0); simpl;
  destruct (Z.eqb_spec (y mod 100) 0); simpl;
  destruct (Z.eqb_spec (y mod 400) 0); simpl; Z.to_euclidean_division_equations; lia.
Qed.

Lemma day_from_year_mono y y' : y <= y' -> day_from_year y <= day_from_year y'.
Proof. unfold day_from_year. intros. Z.to_euclidean_division_equations. lia. Qed.

Lemma year_from_day_spec n :
  day_from_year (year_from_day n) <= n < day_from_year (year_from_day n + 1).
Proof.
  unfold year_from_day. set (y := 1970 + n * 400 / 146097).
  assert (day_from_year (y - 1) <= n < day_from_year (y + 2)) as Hy.
  { unfold day_from_year, y. Z.to_euclidean_division_equations. lia. }
  destruct (Z.ltb_spec n (day_from_year y)).
  - replace (y - 1 + 1) with y by lia. lia.
  - destruct (Z.leb_spec (day_from_year (y + 1)) n); [|lia].
    replace (y + 1 + 1) with (y + 2) by lia. lia.
Qed.

Lemma year_from_day_unique n y :
  day_from_year y <= n < day_from_year (y + 1) -> year_from_day n = y.
Proof.
  intros Hy. pose proof (year_from_day_spec n) as Hs.
  destruct (Z.lt_trichotomy (year_from_day n) y) as [Hlt|[Heq|Hgt]]; [|done|].
  - pose proof (day_from_year_mono (year_from_day n + 1) y). lia.
  - pose proof (day_from_year_mono (y + 1) (year_from_day n)). lia.
Qed.

Lemma month_cases (P : Z -> Prop) :
  P 0 -> P 1 -> P 2 -> P 3 -> P 4 -> P 5 -> P 6 -> P 7 -> P 8 -> P 9 -> P 10 -> P 11 ->
  forall m, 0 <= m <= 11 -> P m.
Proof.
  intros. assert (m = 0 \/ m = 1 \/ m = 2 \/ m = 3 \/ m = 4 \/ m = 5 \/ m = 6 \/ m = 7 \/
    m = 8 \/ m = 9 \/ m = 10 \/ m = 11) as Hm by lia.
  by repeat (destruct Hm as [->|Hm]); [..|subst].
Qed.

Lemma month_offset_step l m : 0 <= m <= 11 -> month_offset l m + 28 <= month_offset l (m + 1).
Proof. revert m. apply month_cases; destruct l; vm_compute; congruence. Qed.

Lemma month_offset_mono l m m' : 0 <= m -> m < m' -> m' <= 12 ->
  month_offset l m + 28 <= month_offset l m'.
Proof.
  intros Hm Hlt Hle. replace m' with (m + 1 + Z.of_nat (Z.to_nat (m' - m - 1))) in * by lia.
  generalize dependent (Z.to_nat (m' - m - 1)). intros k _. induction k as [|k IH]; intros Hle.
  - rewrite Z.add_0_r. apply month_offset_step. lia.
  - pose proof (month_offset_step l (m + 1 + Z.of_nat k)) as Hs.
    replace (m + 1 + Z.of_nat (S k)) with (m + 1 + Z.of_nat k + 1) in * by lia. lia.
Qed.

Lemma month_from_spec fuel l m0 doy :
  0 <= m0 -> m0 + Z.of_nat fuel = 11 ->
  month_offset l m0 <= doy < month_offset l 12 ->
  m0 <= month_from fuel l m0 doy <= 11 /\
  month_offset l (month_from fuel l m0 doy) <= doy < month_offset l (month_from fuel l m0 doy + 1).
Proof.
  revert m0. induction fuel as [|fuel IH]; intros m0 H0 Hf Hd; cbn [month_from].
  - assert (m0 = 11) as -> by lia. simpl. split; [lia|done].
  - destruct (Z.ltb_spec doy (month_offset l (m0 + 1))); [lia|].
    destruct (IH (m0 + 1)); [lia..|]. split; [lia|done].
Qed.

Lemma month_offset_year l : month_offset l 12 = 365 + leap_day l.
Proof. destruct l; done. Qed.

(** Making the day of the fields of a day gives it back, and the fields are a
    date that exists. *)
Lemma date_fields_spec n y m0 d :
  date_fields n = (y, m0, d) -> valid_date y m0 d /\ make_day y m0 d = n.
Proof.
  unfold date_fields. intros [[Hy Hm]%pair_equal_spec Hd]%pair_equal_spec.
  rewrite Hy in *. rewrite Hm in Hd.
  pose proof (year_from_day_spec n) as Hs. rewrite Hy in Hs.
  rewrite day_from_year_succ in Hs.
  pose proof (month_from_spec 11 (leap_year y) 0 (n - day_from_year y)) as Hf.
  rewrite Hm, month_offset_year in Hf. change (month_offset (leap_year y) 0) with 0 in Hf.
  destruct Hf as [Hr Ho]; [lia..|].
  unfold valid_date, make_day. rewrite (Z.div_small m0 12), (Z.mod_small m0 12) by lia.
  rewrite Z.add_0_r. lia.
Qed.

(** The fields of the day of a date that exists are that date. *)
Lemma make_day_fields y m0 d :
  valid_date y m0 d -> date_fields (make_day y m0 d) = (y, m0, d).
Proof.
  intros [Hm Hd]. unfold make_day. rewrite (Z.div_small m0 12), (Z.mod_small m0 12) by lia.
  rewrite Z.add_0_r. set (n := day_from_year y + month_offset (leap_year y) m0 + d - 1).
  assert (0 <= month_offset (leap_year y) m0) as H0.
  { revert Hm. clear. revert m0. apply month_cases; destruct (leap_year y); done. }
  assert (month_offset (leap_year y) (m0 + 1) <= 365 + leap_day (leap_year y)) as H12.
  { rewrite <- month_offset_year. destruct (decide (m0 = 11)) as [->|]; [done|].
    pose proof (month_offset_mono (leap_year y) (m0 + 1) 12). lia. }
  assert (year_from_day n = y) as Hy.
  { apply year_from_day_unique. rewrite day_from_year_succ. lia. }
  unfold date_fields. rewrite Hy.
  pose proof (month_from_spec 11 (leap_year y) 0 (n - day_from_year y)) as Hf.
  rewrite month_offset_year in Hf. change (month_offset (leap_year y) 0) with 0 in Hf.
  destruct Hf as [Hr Ho]; [lia..|].
  revert Hr Ho. generalize (month_from 11 (leap_year y) 0 (n - day_from_year y)). intros m Hr Ho.
  assert (m = m0) as ->.
  { destruct (Z.lt_trichotomy m m0) as [Hlt|[Heq|Hgt]]; [|done|].
    - destruct (Z.eq_dec (m + 1) m0) as [<-|]; [lia|].
      pose proof (month_offset_mono (leap_year y) (m + 1) m0). lia.
    - destruct (Z.eq_dec (m0 + 1) m) as [<-|]; [lia|].
      pose proof (month_offset_mono (leap_year y) (m0 + 1) m). lia. }
  f_equal. lia.
Qed.

Lemma make_day_add y m0 d k : make_day y m0 (d + k) = make_day y m0 d + k.
Proof. unfold make_day. lia. Qed.

Lemma Date_UTC_late y m0 d h min : 100 <= y ->
  Date_UTC y m0 d h min = make_day y m0 d * ms_per_day + h * ms_per_hour + min * ms_per_minute.
Proof.
  intros. unfold Date_UTC.
  replace ((0 <=? y) && (y <=? 99)) with false by (symmetry; apply andb_false_intro2; lia). done.
Qed.

Lemma day_of_midnight n : day_of_ms (n * ms_per_day + 0 * ms_per_hour + 0 * ms_per_minute) = n.
Proof. unfold day_of_ms, ms_per_day, ms_per_hour, ms_per_minute. Z.to_euclidean_division_equations. lia. Qed.

Lemma week_day_succ n : week_day (n + 1) = (week_day n + 1) mod 7.
Proof. unfold week_day. Z.to_euclidean_division_equations. lia. Qed.

Lemma week_day_range n : 0 <= week_day n < 7.
Proof. unfold week_day. apply Z.mod_pos_bound. lia. Qed.

(** Days from the year 100 on are in years from 100 on. *)
Lemma date_fields_late n y m0 d :
  date_fields n = (y, m0, d) -> day_from_year 100 <= n -> 100 <= y.
Proof.
  intros Hf Hn. unfold date_fields in Hf. apply pair_equal_spec in Hf as [[Hy _]%pair_equal_spec _].
  pose proof (year_from_day_spec n) as Hs. rewrite Hy in Hs.
  destruct (Z.le_gt_cases 100 y); [done|].
  pose proof (day_from_year_mono (y + 1) 100). lia.
Qed.
