(* ===== verification/JsValue.v ===== *)
(** * JavaScript values

    What [JSON.parse] and the YAML parser return is [unknown] to the sources,
    which test it with [typeof] and [Number.is...].  A [value] is such a
    JavaScript value: an object is its own properties in insertion order, a
    number is exact (every finite IEEE double is a rational; the sign of zero,
    which the sources never observe, is not represented).  [string_to_number] is
    ECMA-262 [StringToNumber] with round-half-even to a double, and [to_number]
    is the global [Number] function. *)

From S2P Require Import Prelude JsString.
From Stdlib Require Import Ascii QArith Qround.
From stdpp Require Import options.
#[local] Open Scope Z_scope.

(** ** Numbers *)

Inductive number : Type :=
| NaN
| Infinity (negative : bool)
| Fin (q : Q).

Definition num_of_Z (z : Z) : number := Fin (inject_Z z).

(** [Number.isFinite] *)
Definition num_is_finite (n : number) : bool :=
  match n with Fin _ => true | _ => false end.

(** [Number.isInteger] *)
Definition num_is_integer (n : number) : bool :=
  match n with Fin q => Qnum q mod Zpos (Qden q) =? 0 | _ => false end.

Definition max_safe_integer : Z := 2 ^ 53 - 1.

(** [Math.floor] of a finite number *)
Definition num_floor (n : number) : Z := match n with Fin q => Qfloor q | _ => 0 end.

(** [Number.isSafeInteger] *)
Definition num_is_safe_integer (n : number) : bool :=
  num_is_integer n && (Z.abs (num_floor n) <=? max_safe_integer).

(** [n <= m], [n < m], [n === m]; a comparison with [NaN] is false. *)
Definition num_leb (n m : number) : bool :=
  match n, m with
  | Fin a, Fin b => Qle_bool a b
  | NaN, _ | _, NaN => false
  | Infinity true, _ | _, Infinity false => true
  | _, _ => false
  end.

Definition num_eqb (n m : number) : bool := num_leb n m && num_leb m n.

Definition num_ltb (n m : number) : bool := num_leb n m && negb (num_leb m n).

Definition num_zero : number := num_of_Z 0.

(** Round half to even of [a / b], [0 <= a], [0 < b]. *)
Definition div_half_even (a b : Z) : Z :=
  let q := a / b in
  let r := a mod b in
  if (2 * r <? b) || ((2 * r =? b) && Z.even q) then q else q + 1.

Definition pow2_up (e : Z) : Z := 2 ^ Z.max 0 e.

(** The double nearest to [a / b] for [0 <= a], [0 < b]. *)
Definition round_double (negative : bool) (a b : Z) : number :=
  if a =? 0 then num_zero
  else
    let k := Z.log2 a - Z.log2 b in
    let e := if pow2_up k * b <=? a * pow2_up (- k) then k else k - 1 in
    let qe := Z.max (e - 52) (-1074) in
    let m := div_half_even (a * pow2_up (- qe)) (b * pow2_up qe) in
    if 2 ^ 1024 <=? m * pow2_up qe then Infinity negative
    else
      let m := if negative then - m else m in
      Fin (Qred ((m * pow2_up qe) # Z.to_pos (pow2_up (- qe)))).

(** [m * 10^e] as a double. *)
Definition decimal_to_number (negative : bool) (m e : Z) : number :=
  round_double negative (m * 10 ^ Z.max 0 e) (10 ^ Z.max 0 (- e)).

(** ** [StringToNumber] *)

Definition radix_digit (c : ascii) : option Z :=
  let n := Z.of_N (N_of_ascii c) in
  if (48 <=? n) && (n <=? 57) then Some (n - 48)
  else if (97 <=? n) && (n <=? 102) then Some (n - 87)
  else if (65 <=? n) && (n <=? 70) then Some (n - 55)
  else None.

Fixpoint parse_radix (radix acc : Z) (s : string) : option Z :=
  match s with
  | EmptyString => Some acc
  | String c s =>
      match radix_digit c with
      | Some d => if d <? radix then parse_radix radix (acc * radix + d) s else None
      | None => None
      end
  end.

(** The exponent part: [("e"|"E")[+-]?[0-9]+] or nothing. *)
Definition parse_exponent (s : string) : option Z :=
  match s with
  | EmptyString => Some 0
  | String c s =>
      if Ascii.eqb c "e" || Ascii.eqb c "E" then
        let '(sgn, s) := match s with
          | String "-" s' => (-1, s') | String "+" s' => (1, s') | _ => (1, s) end in
        match digits s with
        | (v, S _, EmptyString) => Some (sgn * v)
        | _ => None
        end
      else None
  end.

(** [StrUnsignedDecimalLiteral] *)
Definition parse_unsigned_decimal (negative : bool) (s : string) : number :=
  if String.eqb s "Infinity" then Infinity negative
  else
    let '(ip, il, rest) := digits s in
    let '(m, fl, ok, rest) :=
      match rest with
      | String "." rest' =>
          let '(m, fl, rest'') := take_digits ip 0 rest' in
          (m, fl, (0 <? il + fl)%nat, rest'')
      | _ => (ip, 0%nat, (0 <? il)%nat, rest)
      end in
    if ok then
      match parse_exponent rest with
      | Some e => decimal_to_number negative m (e - Z.of_nat fl)
      | None => NaN
      end
    else NaN.

Definition string_to_number (s0 : string) : number :=
  let s := trim s0 in
  match s with
  | EmptyString => num_zero
  | String "0" (String c ((String _ _) as rest)) =>
      let radix := if Ascii.eqb c "x" || Ascii.eqb c "X" then 16
                   else if Ascii.eqb c "o" || Ascii.eqb c "O" then 8
                   else if Ascii.eqb c "b" || Ascii.eqb c "B" then 2 else 0 in
      if radix =? 0 then parse_unsigned_decimal false s
      else match parse_radix radix 0 rest with
           | Some v => round_double false v 1
           | None => NaN
           end
  | String "-" rest => parse_unsigned_decimal true rest
  | String "+" rest => parse_unsigned_decimal false rest
  | _ => parse_unsigned_decimal false s
  end.

(** ** Values *)

Inductive value : Type :=
| VUndefined
| VNull
| VBool (b : bool)
| VNumber (n : number)
| VString (s : string)
| VArray (items : list value)
| VObject (props : list (string * value)).

(** [Number(v)].  An array goes through its [join(",")]. *)
Fixpoint to_number (v : value) : number :=
  match v with
  | VUndefined => NaN
  | VNull => num_zero
  | VBool b => num_of_Z (if b then 1 else 0)
  | VNumber n => n
  | VString s => string_to_number s
  | VArray [] => num_zero
  | VArray [VUndefined] | VArray [VNull] => num_zero
  | VArray [VBool _] => NaN
  | VArray [w] => to_number w
  | VArray _ => NaN
  | VObject _ => NaN
  end.

(** Own property lookup, [undefined] when absent. *)
Fixpoint prop (k : string) (props : list (string * value)) : value :=
  match props with
  | [] => VUndefined
  | (k', v) :: props => if decide (k = k') then v else prop k props
  end.

(** [k in obj] for an own property. *)
Definition has_prop (k : string) (props : list (string * value)) : bool :=
  existsb (fun kv => String.eqb k kv.1) props.

(** [typeof v === "object" && v !== null] and its properties; an array's named
    properties are absent. *)
Definition as_object (v : value) : option (list (string * value)) :=
  match v with VObject ps => Some ps | VArray _ => Some [] | _ => None end.

(** A plain object: [as_object] and not an array. *)
Definition as_record (v : value) : option (list (string * value)) :=
  match v with VObject ps => Some ps | _ => None end.

Definition as_string (v : value) : option string :=
  match v with VString s => Some s | _ => None end.

Definition as_bool (v : value) : option bool :=
  match v with VBool b => Some b | _ => None end.

(** [ToBoolean(v)] *)
Definition truthy (v : value) : bool :=
  match v with
  | VUndefined | VNull => false
  | VBool b => b
  | VNumber NaN => false
  | VNumber n => negb (num_eqb n num_zero)
  | VString s => negb (is_empty s)
  | VArray _ | VObject _ => true
  end.

Definition is_undefined (v : value) : bool :=
  match v with VUndefined => true | _ => false end.

Definition opt_value (f : string -> value) (o : option string) : value :=
  match o with Some s => f s | None => VUndefined end.

(** A non-empty string property. *)
Definition nonempty_string (v : value) : option string :=
  match v with
  | VString s => if is_empty s then None else Some s
  | _ => None
  end.

Example number_42 : string_to_number " 42 " = num_of_Z 42.
Proof. vm_compute. reflexivity. Qed.
Example number_1e3 : string_to_number "1e3" = num_of_Z 1000.
Proof. vm_compute. reflexivity. Qed.
Example number_hex : string_to_number "0x1F" = num_of_Z 31.
Proof. vm_compute. reflexivity. Qed.
Example number_half : string_to_number "-0.5" = Fin (-1 # 2).
Proof. vm_compute. reflexivity. Qed.
Example number_junk : string_to_number "12px" = NaN.
Proof. vm_compute. reflexivity. Qed.
Example number_rounds : string_to_number "9007199254740993" = num_of_Z 9007199254740992.
Proof. vm_compute. reflexivity. Qed.
Example number_tenth :
  string_to_number "0.1" = Fin (3602879701896397 # 36028797018963968).
Proof. vm_compute. reflexivity. Qed.
Example number_huge : string_to_number "1e400" = Infinity false.
Proof. vm_compute. reflexivity. Qed.

(** Structural induction that reaches array items and property values. *)
Section value_ind.
Variable P : value -> Prop.
Hypothesis Hundef : P VUndefined.
Hypothesis Hnull : P VNull.
Hypothesis Hbool : forall b, P (VBool b).
Hypothesis Hnum : forall n, P (VNumber n).
Hypothesis Hstr : forall s, P (VString s).
Hypothesis Harr : forall l, Forall P l -> P (VArray l).
Hypothesis Hobj : forall ps, Forall (fun kv => P kv.2) ps -> P (VObject ps).

Fixpoint value_deep_ind (v : value) : P v :=
  match v with
  | VUndefined => Hundef
  | VNull => Hnull
  | VBool b => Hbool b
  | VNumber n => Hnum n
  | VString s => Hstr s
  | VArray l =>
      Harr l ((fix go (l : list value) : Forall P l :=
        match l with
        | [] => List.Forall_nil _
        | v :: l => List.Forall_cons _ v l (value_deep_ind v) (go l)
        end) l)
  | VObject ps =>
      Hobj ps ((fix go (l : list (string * value)) : Forall (fun kv => P kv.2) l :=
        match l with
        | [] => List.Forall_nil _
        | kv :: l => List.Forall_cons _ kv l (value_deep_ind kv.2) (go l)
        end) ps)
  end.
End value_ind.

Lemma num_is_integer_Z z : num_is_integer (num_of_Z z) = true.
Proof. unfold num_of_Z, num_is_integer. simpl. by rewrite Z.mod_1_r. Qed.

Lemma num_leb_Z x y : num_leb (num_of_Z x) (num_of_Z y) = (x <=? y).
Proof. unfold num_leb, num_of_Z, Qle_bool, inject_Z. cbn [Qnum Qden]. by rewrite !Z.mul_1_r. Qed.

Lemma num_ltb_Z x y : num_ltb (num_of_Z x) (num_of_Z y) = (x <? y).
Proof. unfold num_ltb. rewrite !num_leb_Z. lia. Qed.

Lemma num_floor_Z z : num_floor (num_of_Z z) = z.
Proof. apply Qfloor_Z. Qed.

Lemma prop_absent k ps : has_prop k ps = false -> prop k ps = VUndefined.
Proof.
  unfold has_prop. induction ps as [|[k' v] ps IH]; simpl; [done|].
  intros [Hk Hps]%orb_false_iff. apply String.eqb_neq in Hk.
  by rewrite decide_False, IH.
Qed.

Lemma prop_elem k v ps : NoDup ps.*1 -> (k, v) ∈ ps -> prop k ps = v.
Proof.
  induction ps as [|[k' v'] ps IH]; simpl; intros Hnd Hin; [by apply elem_of_nil in Hin|].
  apply NoDup_cons in Hnd as [Hk Hnd]. apply elem_of_cons in Hin as [Heq|Hin].
  - simplify_eq. by rewrite decide_True.
  - rewrite decide_False; [by apply IH|]. intros ->. apply Hk.
    apply list_elem_of_fmap. by exists (k', v).
Qed.
