(* ===== verification/Contracts.v ===== *)
(** * Adapter API contracts

    packages/contracts/src: the inbound message and the outbound events. *)

From S2P Require Import Prelude JsValue.
From stdpp Require Import options.

(** shared.ts *)
Record Speaker : Type := mkSpeaker {
  speaker_id : string;
  displayName : string;
}.

Record WorkspaceAttachment : Type := mkAttachment {
  att_path : string;
  att_name : option string;
  att_mediaType : option string;
}.

(** inbound.ts *)
Record InboundMessage : Type := mkMessage {
  messageId : string;
  conversationKey : string;
  parentConversationKey : option string;
  speaker : Speaker;
  msg_text : string;
  attachments : list WorkspaceAttachment;
  addressed : bool;
}.

(** outbound.ts *)
Inductive Presence : Type := active | idle | offline.

Record TurnUsage : Type := mkUsage {
  usage_input : Z;
  usage_output : Z;
  usage_cacheRead : Z;
  usage_cacheWrite : Z;
  usage_costUsd : number;
}.

(** The variants of [OutboundEvent], without the fields they share. *)
Inductive EventBody : Type :=
| turn_started
| turn_progress (message : string)
| turn_delta (text : string)
| turn_reply (text : string) (attachments : list WorkspaceAttachment) (usage : TurnUsage)
| presence_changed (presence : Presence)
| turn_error (code message : string) (retryable : bool)
| turn_cancelled.

Record OutboundEvent : Type := mkEvent {
  ev_eventId : string;
  ev_conversationKey : string;
  ev_correlationId : string;
  ev_sequence : Z;
  ev_occurredAt : Z;
  ev_body : EventBody;
}.

(** [OutboundEventType] *)
Definition event_type (e : OutboundEvent) : string :=
  match ev_body e with
  | turn_started => "turn.started"
  | turn_progress _ => "turn.progress"
  | turn_delta _ => "turn.delta"
  | turn_reply _ _ _ => "turn.reply"
  | presence_changed _ => "presence.changed"
  | turn_error _ _ _ => "turn.error"
  | turn_cancelled => "turn.cancelled"
  end.

(** An object property that is omitted when the value is absent. *)
Definition opt_prop (k : string) (o : option string) : list (string * value) :=
  match o with Some s => [(k, VString s)] | None => [] end.

Definition speaker_value (s : Speaker) : value :=
  VObject [("id", VString (speaker_id s)); ("displayName", VString (displayName s))].

Definition attachment_value (a : WorkspaceAttachment) : value :=
  VObject (("path", VString (att_path a)) ::
           opt_prop "name" (att_name a) ++ opt_prop "mediaType" (att_mediaType a)).

(** The JavaScript object an [InboundMessage] is. *)
Definition message_value (m : InboundMessage) : value :=
  VObject
    ([("messageId", VString (messageId m));
      ("conversationKey", VString (conversationKey m))] ++
     opt_prop "parentConversationKey" (parentConversationKey m) ++
     [("speaker", speaker_value (speaker m));
      ("text", VString (msg_text m));
      ("attachments", VArray (map attachment_value (attachments m)));
      ("addressed", VBool (addressed m))]).

#[export] Instance speaker_eq_dec : EqDecision Speaker.
Proof. solve_decision. Defined.
#[export] Instance attachment_eq_dec : EqDecision WorkspaceAttachment.
Proof. solve_decision. Defined.
#[export] Instance message_eq_dec : EqDecision InboundMessage.
Proof. solve_decision. Defined.
#[export] Instance presence_eq_dec : EqDecision Presence.
Proof. solve_decision. Defined.
#[export] Instance Q_eq_dec : EqDecision QArith_base.Q.
Proof. solve_decision. Defined.
#[export] Instance number_eq_dec : EqDecision number.
Proof. solve_decision. Defined.
#[export] Instance usage_eq_dec : EqDecision TurnUsage.
Proof. solve_decision. Defined.
#[export] Instance body_eq_dec : EqDecision EventBody.
Proof. solve_decision. Defined.
#[export] Instance event_eq_dec : EqDecision OutboundEvent.
Proof. solve_decision. Defined.
