(* ===== verification/Canonical.v ===== *)
(** * Canonical JSON

    packages/core/src/idempotency-store.ts, [canonicalize]: object keys sorted
    at every depth, arrays in order.  The digest of an inbound message is taken
    over the text of this form. *)

From S2P Require Import Prelude JsValue.
From stdpp Require Import options.

(** [Object.keys(src).sort()] compares code units. *)
Definition key_le (a b : string * value) : Prop := String.le a.1 b.1.

#[export] Instance key_le_dec a b : Decision (key_le a b).
Proof. unfold key_le. apply _. Defined.

(** [out[key] = value] on an object literal: [__proto__] is the setter of
    Object.prototype, which makes no property of [out]. *)
Definition assignable (kv : string * value) : bool := negb (String.eqb kv.1 "__proto__").

(** [canonicalize(value)].  Keys that are array indices come first when [out] is
    enumerated, whatever order they were added in; that order, too, depends on the
    set of keys only, and is left out. *)
Fixpoint canonicalize (v : value) : value :=
  match v with
  | VArray l => VArray (List.map canonicalize l)
  | VObject ps =>
      VObject (merge_sort key_le
        (List.filter assignable (List.map (fun '(k, w) => (k, canonicalize w)) ps)))
  | _ => v
  end.

(** What the text [JSON.stringify] writes says: properties that are [undefined]
    are left out, as are those [skipped]; in an array [undefined] is null, and so
    is a number that is not finite. *)
Definition defined (kv : string * value) : bool := match kv.2 with VUndefined => false | _ => true end.
Definition or_null (v : value) : value := match v with VUndefined => VNull | v => v end.

Fixpoint json_data (skipped : string -> bool) (v : value) : value :=
  match v with
  | VArray l => VArray (List.map (fun w => or_null (json_data skipped w)) l)
  | VObject ps =>
      VObject (List.filter (fun kv => defined kv && negb (skipped kv.1))
        (List.map (fun '(k, w) => (k, json_data skipped w)) ps))
  | VNumber n => if num_is_finite n then VNumber n else VNull
  | _ => v
  end.

Definition serialized : value -> value := json_data (fun _ => false).

(** The data two values have to share to have one digest. *)
Definition significant : value -> value := json_data (String.eqb "__proto__").

(** The reference: only the keys are sorted, at every depth. *)
Fixpoint sort_keys (v : value) : value :=
  match v with
  | VArray l => VArray (List.map sort_keys l)
  | VObject ps => VObject (merge_sort key_le (List.map (fun '(k, w) => (k, sort_keys w)) ps))
  | _ => v
  end.

(** An object has one property per key, at every depth. *)
Inductive unique_keys : value -> Prop :=
| unique_array l : Forall unique_keys l -> unique_keys (VArray l)
| unique_object ps :
    NoDup ps.*1 -> Forall (fun kv => unique_keys kv.2) ps -> unique_keys (VObject ps)
| unique_other v :
    match v with VArray _ | VObject _ => False | _ => True end -> unique_keys v.

(** Equal up to the order of object properties. *)
Inductive same_json : value -> value -> Prop :=
| same_array l1 l2 : Forall2 same_json l1 l2 -> same_json (VArray l1) (VArray l2)
| same_object ps1 ps2 ps :
    Permutation ps ps2 ->
    Forall2 (fun a b => a.1 = b.1 /\ same_json a.2 b.2) ps1 ps ->
    same_json (VObject ps1) (VObject ps2)
| same_other v :
    match v with VArray _ | VObject _ => False | _ => True end -> same_json v v.

#[export] Instance key_le_trans : Transitive key_le.
Proof. intros a b c. unfold key_le. apply transitivity. Qed.
#[export] Instance key_le_total : Total key_le.
Proof. intros a b. unfold key_le. apply (total String.le). Qed.

Definition sort_prop (kv : string * value) : string * value := (kv.1, sort_keys kv.2).

Lemma sort_keys_object ps :
  sort_keys (VObject ps) = VObject (merge_sort key_le (List.map sort_prop ps)).
Proof.
  simpl. do 2 f_equal. apply map_ext. by intros [k w].
Qed.

(** Sorting by distinct keys depends on the set of properties only. *)
Lemma sort_props_perm (ps qs : list (string * value)) :
  NoDup ps.*1 -> Permutation ps qs -> merge_sort key_le ps = merge_sort key_le qs.
Proof.
  intros Hnd Hperm.
  apply (Sorted_unique_strong key_le); [| apply Sorted_merge_sort; apply _ .. |].
  - intros [k v] [k' v'] Hin Hin' Hle Hle'.
    rewrite merge_sort_Permutation in Hin, Hin'. rewrite <- Hperm in Hin'.
    unfold key_le in *. simpl in *. assert (k = k') as <- by by apply (anti_symm String.le).
    f_equal. rewrite <- (prop_elem k v ps), <- (prop_elem k v' ps); done.
  - rewrite !merge_sort_Permutation. done.
Qed.

Lemma map_fst_sort ps : (List.map sort_prop ps).*1 = ps.*1.
Proof. unfold sort_prop. induction ps as [|[k v] ps IH]; simpl; [done|]. f_equal. exact IH. Qed.

Lemma unique_array_inv l : unique_keys (VArray l) -> Forall unique_keys l.
Proof. intros Hu. by inv Hu. Qed.

Lemma unique_object_inv ps :
  unique_keys (VObject ps) -> NoDup ps.*1 /\ Forall (fun kv => unique_keys kv.2) ps.
Proof. intros Hu. by inv Hu. Qed.

Lemma same_json_sort_keys v1 v2 :
  unique_keys v1 -> same_json v1 v2 -> sort_keys v1 = sort_keys v2.
Proof.
  revert v2. induction v1 as [| | | | |l IH|ps IH] using value_deep_ind; intros v2 Hu Hs;
    inv Hs; try done.
  - simpl. f_equal. apply unique_array_inv in Hu.
    match goal with H : Forall2 _ _ _ |- _ => induction H end; [done|].
    apply Forall_cons in IH as [IH1 IH2]. apply Forall_cons in Hu as [Hu1 Hu2]. simpl. f_equal; auto.
  - rewrite !sort_keys_object. f_equal. apply unique_object_inv in Hu as [Hnd Hu].
    apply sort_props_perm; [by rewrite map_fst_sort|].
    match goal with H : Permutation ?a ?b |- _ =>
      transitivity (List.map sort_prop a); [|by apply Permutation_map]; clear H end.
    apply reflexive_eq. clear Hnd.
    match goal with H : Forall2 _ _ _ |- _ =>
      induction H as [|[k1 w1] [k2 w2] ? ? [Hk Hw]] end; [done|].
    apply Forall_cons in IH as [IH1 IH2]. apply Forall_cons in Hu as [Hu1 Hu2].
    unfold sort_prop in *. simpl in *. subst. f_equal; [f_equal; auto | auto].
Qed.

Lemma sort_keys_same_json v1 v2 :
  unique_keys v1 -> unique_keys v2 -> sort_keys v1 = sort_keys v2 -> same_json v1 v2.
Proof.
  revert v2. induction v1 as [| | | | |l IH|ps IH] using value_deep_ind; intros v2 Hu1 Hu2 Hc;
    destruct v2 as [| | | | |l2|ps2]; try discriminate Hc; try (simpl in Hc; simplify_eq; by constructor).
  - constructor. simpl in Hc. injection Hc as Hc.
    apply unique_array_inv in Hu1, Hu2. revert l2 Hu2 Hc.
    induction l as [|v l IHl]; intros [|v2 l2] Hu2 Hc;
      [constructor|discriminate|discriminate|].
    simpl in Hc. injection Hc as Hv Hl.
    rewrite Forall_cons in IH, Hu1, Hu2. destruct IH, Hu1, Hu2.
    constructor; auto.
  - rewrite !sort_keys_object in Hc. injection Hc as Hc.
    apply unique_object_inv in Hu1 as [Hnd1 Hu1], Hu2 as [Hnd2 Hu2].
    assert (Permutation (List.map sort_prop ps) (List.map sort_prop ps2)) as HP.
    { rewrite <- (merge_sort_Permutation key_le (List.map sort_prop ps)), Hc.
      apply merge_sort_Permutation. }
    apply Permutation_map_inv in HP as (ps' & Hps' & HP).
    apply (same_object ps ps2 ps'); [done|].
    assert (Forall (fun kv => unique_keys kv.2) ps') as Hu' by by rewrite <- HP.
    clear Hnd1 Hnd2 HP Hc Hu2. revert ps' Hps' Hu'.
    induction ps as [|[k v] ps IHps]; intros [|[k' v'] ps'] Hps' Hu';
      [constructor|discriminate|discriminate|].
    simpl in Hps'. unfold sort_prop in Hps' at 1 3. simpl in Hps'. injection Hps' as -> Hv Hps'.
    rewrite Forall_cons in IH, Hu1, Hu'. destruct IH, Hu1, Hu'.
    constructor; auto.
Qed.

(** ** The text of the canonical form *)

(** Two sorted lists of the same properties, with distinct keys, are equal. *)
Lemma sorted_props_eq (ps qs : list (string * value)) :
  NoDup ps.*1 -> Permutation ps qs -> Sorted key_le ps -> Sorted key_le qs -> ps = qs.
Proof.
  intros Hnd Hperm Hps Hqs. apply (Sorted_unique_strong key_le); [|done..].
  intros [k v] [k' v'] Hin Hin' Hle Hle'. rewrite <- Hperm in Hin'.
  unfold key_le in *. simpl in *. assert (k = k') as <- by by apply (anti_symm String.le).
  f_equal. rewrite <- (prop_elem k v ps), <- (prop_elem k v' ps); done.
Qed.

Lemma sorted_filter (f : string * value -> bool) ps : Sorted key_le ps -> Sorted key_le (List.filter f ps).
Proof.
  intros Hl%Sorted_StronglySorted; [|apply _]. apply StronglySorted_Sorted.
  induction Hl as [|x l Hl IH Hall]; simpl; [constructor|]. destruct (f x); [|done].
  constructor; [done|]. rewrite Forall_forall in Hall |- *. intros y Hy. apply Hall.
  apply list_elem_of_In in Hy. apply filter_In in Hy as [Hy _]. by apply list_elem_of_In.
Qed.

Lemma sorted_map (f : string * value -> string * value) ps :
  (forall kv, (f kv).1 = kv.1) -> Sorted key_le ps -> Sorted key_le (List.map f ps).
Proof.
  intros Hf Hl. induction Hl as [|x l Hl IH Hhd]; simpl; constructor; [done|].
  destruct Hhd; simpl; constructor. unfold key_le in *. by rewrite !Hf.
Qed.

Lemma filter_Perm {A} (f : A -> bool) (l l' : list A) :
  Permutation l l' -> Permutation (List.filter f l) (List.filter f l').
Proof.
  induction 1 as [|x l l' Hp IH|x y l|l1 l2 l3 H1 IH1 H2 IH2]; simpl; [done| | |by etrans].
  - destruct (f x); [by constructor|done].
  - destruct (f x), (f y); try done. constructor.
Qed.

Lemma NoDup_map_keys (f : string * value -> string * value) ps :
  (forall kv, (f kv).1 = kv.1) -> (List.map f ps).*1 = ps.*1.
Proof. intros Hf. induction ps as [|x ps IH]; [done|]. cbn. rewrite Hf. f_equal. exact IH. Qed.

Lemma NoDup_filter_keys (f : string * value -> bool) ps : NoDup ps.*1 -> NoDup (List.filter f ps).*1.
Proof.
  induction ps as [|x ps IH]; simpl; [done|]. intros [Hx Hnd]%NoDup_cons.
  destruct (f x); simpl; [|auto]. apply NoDup_cons. split; [|auto].
  intros (y & Hy & Hin)%list_elem_of_fmap. apply Hx, list_elem_of_fmap. exists y. split; [done|].
  apply list_elem_of_In in Hin. apply filter_In in Hin as [Hin _]. by apply list_elem_of_In.
Qed.

(** A property with its value mapped; the key stays. *)
Definition on_value (f : value -> value) (kv : string * value) : string * value := (kv.1, f kv.2).

Lemma map_on_value f ps : List.map (fun '(k, w) => (k, f w)) ps = List.map (on_value f) ps.
Proof. apply map_ext. by intros [k w]. Qed.

Lemma defined_sort_keys k v : defined (k, sort_keys v) = defined (k, v).
Proof. by destruct v. Qed.

Lemma unique_json_data skipped v : unique_keys v -> unique_keys (json_data skipped v).
Proof.
  induction v as [| | |n| |l IH|ps IH] using value_deep_ind; intros Hu; simpl; try by constructor.
  - destruct (num_is_finite n); by constructor.
  - constructor. apply unique_array_inv in Hu.
    induction l as [|x l IHl]; simpl; [constructor|].
    apply Forall_cons in IH as [IH1 IH2]. apply Forall_cons in Hu as [Hu1 Hu2].
    constructor; [|auto]. specialize (IH1 Hu1). destruct (json_data skipped x); try done; by constructor.
  - apply unique_object_inv in Hu as [Hnd Hu]. rewrite map_on_value. constructor.
    + apply NoDup_filter_keys. by rewrite NoDup_map_keys.
    + apply Forall_forall. intros kv Hin. apply list_elem_of_In, filter_In in Hin as [Hin _].
      apply in_map_iff in Hin as (x & <- & Hx). apply list_elem_of_In in Hx.
      rewrite Forall_forall in IH, Hu. by apply IH, Hu.
Qed.

(** What is written of the canonical form are the significant data, sorted. *)
Lemma serialized_canonicalize v : unique_keys v -> serialized (canonicalize v) = sort_keys (significant v).
Proof.
  induction v as [| | |n| |l IH|ps IH] using value_deep_ind; intros Hu; try done.
  - unfold serialized, significant. simpl. by destruct (num_is_finite n).
  - apply unique_array_inv in Hu. unfold serialized, significant.
    cbn [canonicalize json_data sort_keys]. f_equal. fold serialized significant.
    induction l as [|x l IHl]; [done|].
    apply Forall_cons in IH as [IH1 IH2]. apply Forall_cons in Hu as [Hu1 Hu2].
    cbn [List.map]. f_equal; [|auto]. rewrite (IH1 Hu1). by destruct (significant x).
  - apply unique_object_inv in Hu as [Hnd Hu]. unfold serialized, significant.
    cbn [canonicalize json_data sort_keys]. rewrite !map_on_value. f_equal. fold serialized significant.
    assert (List.filter (fun kv => defined kv && true) (List.map (on_value serialized)
        (List.filter assignable (List.map (on_value canonicalize) ps))) =
      List.map (on_value sort_keys) (List.filter (fun kv => defined kv && negb (String.eqb "__proto__" kv.1))
        (List.map (on_value significant) ps))) as Heq.
    { clear Hnd. induction ps as [|[k w] ps IHps]; [done|].
      apply Forall_cons in IH as [IH1 IH2]. apply Forall_cons in Hu as [Hu1 Hu2]. specialize (IHps IH2 Hu2).
      cbn [snd] in IH1, Hu1. cbn [List.map List.filter].
      change (on_value canonicalize (k, w)) with (k, canonicalize w).
      change (on_value significant (k, w)) with (k, significant w).
      change (assignable (k, canonicalize w)) with (negb (String.eqb k "__proto__")).
      rewrite (String.eqb_sym k). cbn [fst]. destruct (String.eqb "__proto__" k); cbn [negb].
      { rewrite andb_false_r. apply IHps. }
      cbn [List.map List.filter]. change (on_value serialized (k, canonicalize w)) with (k, serialized (canonicalize w)).
      rewrite (IH1 Hu1), defined_sort_keys, !andb_true_r. destruct (defined (k, significant w)); [|apply IHps].
      cbn [List.map]. f_equal. apply IHps. }
    apply sorted_props_eq.
    + apply NoDup_filter_keys. rewrite NoDup_map_keys by done.
      rewrite (merge_sort_Permutation key_le). apply NoDup_filter_keys. by rewrite NoDup_map_keys.
    + rewrite (merge_sort_Permutation key_le (List.map _ (List.filter _ _))).
      rewrite <- Heq.
      apply filter_Perm, Permutation_map, merge_sort_Permutation.
    + apply sorted_filter, sorted_map; [done|]. apply Sorted_merge_sort; apply _.
    + apply Sorted_merge_sort; apply _.
Qed.

(** C4: Two values have canonical forms with the same JSON text, so the same
    digest, exactly when their significant data differ at most in the order of
    object properties, at any depth; array order and every leaf count.  An
    [undefined] property is as good as absent, as the comment on [canonicalize]
    says; but so is a property named [__proto__], which the code assigns to the
    setter, so that two messages that differ there have one digest. *)
Theorem canonicalize_decides_same_json (v1 v2 : value) :
  unique_keys v1 -> unique_keys v2 ->
  (serialized (canonicalize v1) = serialized (canonicalize v2) <-> same_json (significant v1) (significant v2)).
Proof.
  intros H1 H2. rewrite !serialized_canonicalize by done. split.
  - apply sort_keys_same_json; by apply unique_json_data.
  - apply same_json_sort_keys. by apply unique_json_data.
Qed.

Definition demo_left : value :=
  VObject [("b", VArray [VBool true; VNull]); ("a", VObject [("y", VNull); ("x", VString "1")])].

Definition demo_right : value :=
  VObject [("a", VObject [("x", VString "1"); ("y", VNull)]); ("b", VArray [VBool true; VNull])].

(** Proves [unique_keys] of a closed value. *)
Ltac solve_unique :=
  unfold demo_left, demo_right;
  repeat (cbn [snd]; first
    [ apply unique_object; [apply (bool_decide_unpack _); vm_compute; exact I|]
    | apply unique_array | apply Forall_cons_2 | apply Forall_nil_2
    | apply unique_other; exact I ]).

(** The left one has an [undefined] property, the right one a [__proto__]. *)
Definition demo_undefined : value := VObject [("u", VUndefined); ("d", demo_left)].
Definition demo_proto : value := VObject [("d", demo_right); ("__proto__", VObject [("x", VNull)])].

Lemma canonicalize_decides_same_json_witness : same_json (significant demo_undefined) (significant demo_proto).
Proof.
  apply (canonicalize_decides_same_json demo_undefined demo_proto);
    [unfold demo_undefined; solve_unique|unfold demo_proto; solve_unique|vm_compute; reflexivity].
Defined.
