(* ===== verification/AdapterRegistry.v ===== *)
(** * Adapter registry

    packages/core/src/adapter-registry.ts: the immutable registry of adapter
    registrations, inbound secret check, outbound signature and the
    conversation storage key.  [new URL], HMAC-SHA256 are parameters. *)

From S2P Require Import Prelude JsString Numerals JsValue JsMap.
From stdpp Require Import pretty options.
From Stdlib Require Import Ascii.
#[local] Open Scope Z_scope.

Record AdapterRegistration : Type := mkRegistration {
  reg_adapterId : string;
  reg_callbackUrl : string;
  reg_sharedSecret : string;
  reg_agentId : value;
}.

(** What [listAdapters] exposes. *)
Record AdapterDescriptor : Type := mkDescriptor {
  desc_adapterId : string;
  desc_callbackUrl : string;
}.

Inductive RegistryError : Type :=
| AdapterRegistrationError (message : string) (adapterId : option string)
| UnknownAdapterError (adapterId : string)
| RangeError.

(** [byId]: a [Map] in construction order. *)
Definition Registry : Type := list (string * AdapterRegistration).

Definition SIGNATURE_PREFIX : string := "sha256=".

(** [conversationStorageKey(adapterId, conversationKey)] *)
Definition conversationStorageKey (adapterId conversationKey : string) : string :=
  (pretty (N.of_nat (String.length adapterId)) +:+ ":" +:+ adapterId +:+ conversationKey)%stdpp.

(** The decoding the key's documentation describes. *)
Definition decodeStorageKey (key : string) : option (string * string) :=
  match digits key with
  | (n, S _, String ":" rest) => Some (take_str (Z.to_nat n) rest, drop_str (Z.to_nat n) rest)
  | _ => None
  end.

(** Node's [timingSafeEqual]: throws on buffers of different lengths. *)
Definition timingSafeEqual (a b : list N) : result RegistryError bool :=
  if decide (length a = length b) then Ok (bool_decide (a = b)) else Throw RangeError.

(** [secretEquals(candidate, registered)] *)
Definition secretEquals (candidate registered : string) : result RegistryError bool :=
  let a := utf8 candidate in
  let b := utf8 registered in
  if negb (bool_decide (length a = length b)) then
    _ <-! timingSafeEqual b b; Ok false
  else timingSafeEqual a b.

Section registry.
(** [new URL(s).protocol], [None] when the constructor throws. *)
Variable url_protocol : string -> option string.
(** Lowercase hex HMAC-SHA256 of the bytes under the secret. *)
Variable hmac_sha256_hex : string -> list N -> string.

(** [parseCallbackUrl]: whether the result is not [null]. *)
Definition parseCallbackUrl (callbackUrl : value) : bool :=
  match callbackUrl with
  | VString s =>
      if is_empty s then false
      else match url_protocol s with
           | None => false
           | Some p => String.eqb p "http:" || String.eqb p "https:"
           end
  | _ => false
  end.

(** One iteration of the constructor's loop. *)
Definition register_entry (entry : value) (map : Registry) : result RegistryError Registry :=
  match as_record entry with
  | None => Throw (AdapterRegistrationError "each registration must be an object" None)
  | Some r =>
      match nonempty_string (prop "adapterId" r) with
      | None => Throw (AdapterRegistrationError "adapterId must be a non-empty string" None)
      | Some adapterId =>
          if negb (parseCallbackUrl (prop "callbackUrl" r)) then
            Throw (AdapterRegistrationError "callbackUrl must be an absolute http(s) URL" (Some adapterId))
          else
            match nonempty_string (prop "sharedSecret" r) with
            | None => Throw (AdapterRegistrationError "sharedSecret must be a non-empty string" (Some adapterId))
            | Some sharedSecret =>
                if jhas adapterId map then
                  Throw (AdapterRegistrationError "duplicate adapterId" (Some adapterId))
                else
                  Ok (jset adapterId
                        (mkRegistration adapterId
                           (default "" (as_string (prop "callbackUrl" r)))
                           sharedSecret (prop "agentId" r)) map)
            end
      end
  end.

Fixpoint register_entries (entries : list value) (map : Registry) :
    result RegistryError Registry :=
  match entries with
  | [] => Ok map
  | e :: es => map' <-! register_entry e map; register_entries es map'
  end.

(** [new AdapterRegistry(registrations)] *)
Definition new_registry (registrations : value) : result RegistryError Registry :=
  match registrations with
  | VArray entries => register_entries entries []
  | _ => Throw (AdapterRegistrationError "registrations must be an array" None)
  end.

Definition has (adapterId : string) (byId : Registry) : bool := jhas adapterId byId.

(** The private [require]. *)
Definition require_adapter (adapterId : string) (byId : Registry) :
    result RegistryError AdapterRegistration :=
  match jget adapterId byId with
  | None => Throw (UnknownAdapterError adapterId)
  | Some entry => Ok entry
  end.

Definition getCallbackUrl (adapterId : string) (byId : Registry) : result RegistryError string :=
  entry <-! require_adapter adapterId byId; Ok (reg_callbackUrl entry).

Definition authenticateInbound (adapterId presentedSecret : string) (byId : Registry) :
    result RegistryError bool :=
  entry <-! require_adapter adapterId byId;
  secretEquals presentedSecret (reg_sharedSecret entry).

(** [signOutbound] over a string body (signed as its UTF-8 bytes). *)
Definition signOutbound (adapterId : string) (body : string) (byId : Registry) :
    result RegistryError string :=
  entry <-! require_adapter adapterId byId;
  Ok (SIGNATURE_PREFIX +:+ hmac_sha256_hex (reg_sharedSecret entry) (utf8 body))%stdpp.

Definition listAdapters (byId : Registry) : list AdapterDescriptor :=
  map (fun kv => mkDescriptor (reg_adapterId kv.2) (reg_callbackUrl kv.2)) byId.

(** ** Invariant: what a constructed registry satisfies *)

Definition registration_ok (kv : string * AdapterRegistration) : Prop :=
  reg_adapterId kv.2 = kv.1 /\ kv.1 <> "" /\ reg_sharedSecret kv.2 <> "" /\
  reg_callbackUrl kv.2 <> "" /\
  exists p, url_protocol (reg_callbackUrl kv.2) = Some p /\ (p = "http:" \/ p = "https:").

Definition registry_ok (byId : Registry) : Prop :=
  NoDup (jkeys byId) /\ Forall registration_ok byId.

(** The registration an entry denotes, read without any check. *)
Definition entry_of (e : value) : option AdapterRegistration :=
  match as_record e with
  | Some r =>
      match as_string (prop "adapterId" r), as_string (prop "callbackUrl" r),
            as_string (prop "sharedSecret" r) with
      | Some i, Some u, Some s => Some (mkRegistration i u s (prop "agentId" r))
      | _, _, _ => None
      end
  | None => None
  end.

(** ** Storage key *)

Lemma take_drop_append a k :
  take_str (String.length a) (a +:+ k)%stdpp = a /\ drop_str (String.length a) (a +:+ k)%stdpp = k.
Proof.
  induction a as [|c a [IH1 IH2]]; [done|]. rewrite append_cons. simpl. by rewrite IH1, IH2.
Qed.

Lemma decode_storageKey a k : decodeStorageKey (conversationStorageKey a k) = Some (a, k).
Proof.
  unfold decodeStorageKey, conversationStorageKey.
  change (":" +:+ a +:+ k)%stdpp with (String ":" (a +:+ k)%stdpp).
  destruct (digits_pretty (N.of_nat (String.length a)) (String ":" (a +:+ k)%stdpp)) as [d ->]; [done|].
  rewrite nat_N_Z, Nat2Z.id. by destruct (take_drop_append a k) as [-> ->].
Qed.

Lemma storageKey_inj a1 k1 a2 k2 :
  conversationStorageKey a1 k1 = conversationStorageKey a2 k2 -> a1 = a2 /\ k1 = k2.
Proof.
  intros Heq. apply (f_equal decodeStorageKey) in Heq. rewrite !decode_storageKey in Heq.
  by simplify_eq.
Qed.

(** ** Secrets *)

Lemma timingSafeEqual_ok a b : length a = length b -> timingSafeEqual a b = Ok (bool_decide (a = b)).
Proof. intros. unfold timingSafeEqual. by rewrite decide_True. Qed.

Lemma secretEquals_spec candidate registered :
  secretEquals candidate registered = Ok (bool_decide (candidate = registered)).
Proof.
  unfold secretEquals. case_bool_decide as Hlen; cbn [negb].
  - rewrite timingSafeEqual_ok by done. f_equal. apply bool_decide_ext.
    split; [apply (inj utf8) | congruence].
  - rewrite timingSafeEqual_ok by done. cbn. f_equal. symmetry.
    apply bool_decide_eq_false_2. congruence.
Qed.

(** ** Construction *)

Lemma register_entry_ok e map map' :
  registry_ok map -> register_entry e map = Ok map' ->
  registry_ok map' /\ exists r, entry_of e = Some r /\ map' = map ++ [(reg_adapterId r, r)].
Proof.
  intros [Hnd Hall] Hreg. unfold register_entry in Hreg. unfold entry_of.
  destruct (as_record e) as [r|]; [|done].
  destruct (nonempty_string (prop "adapterId" r)) as [i|] eqn:Hi; [|done].
  destruct (parseCallbackUrl (prop "callbackUrl" r)) eqn:Hu; [|done]. cbn [negb] in Hreg.
  destruct (nonempty_string (prop "sharedSecret" r)) as [s|] eqn:Hs; [|done].
  destruct (jhas i map) eqn:Hhas; [done|]. simplify_eq.
  assert (jget i map = None) as Hnone by (unfold jhas in Hhas; by destruct (jget i map)).
  unfold nonempty_string in Hi, Hs. destruct (prop "adapterId" r); try done.
  destruct (prop "sharedSecret" r); try done.
  destruct (is_empty _) eqn:Hie in Hi; [done|]. destruct (is_empty _) eqn:Hse in Hs; [done|].
  unfold parseCallbackUrl in Hu. destruct (prop "callbackUrl" r) as [| | | |u| |]; try done.
  destruct (is_empty u) eqn:Hue; [done|]. destruct (url_protocol u) as [p|] eqn:Hp; [|done].
  simplify_eq. cbn. rewrite is_empty_false in Hie, Hse, Hue. split; [split|].
  - by apply NoDup_jset.
  - rewrite jset_absent by done. apply Forall_app. split; [done|]. apply Forall_singleton.
    do 4 (split; [done|]). exists p. split; [done|].
    apply orb_true_iff in Hu as [Hu|Hu]; apply String.eqb_eq in Hu; auto.
  - eexists. split; [done|]. by rewrite jset_absent.
Qed.

Lemma register_entries_ok es map map' :
  registry_ok map -> register_entries es map = Ok map' ->
  registry_ok map' /\
  exists rs, mapM entry_of es = Some rs /\
    map' = map ++ List.map (fun r => (reg_adapterId r, r)) rs.
Proof.
  revert map. induction es as [|e es IH]; intros map Hok; cbn.
  - intros [= <-]. split; [done|]. exists []. by rewrite app_nil_r.
  - destruct (register_entry e map) as [map1|] eqn:He; [|done]. cbn. intros Hes.
    destruct (register_entry_ok _ _ _ Hok He) as (Hok1 & r & Hr & ->).
    destruct (IH _ Hok1 Hes) as (Hok' & rs & Hrs & ->). split; [done|].
    exists (r :: rs). rewrite Hr, Hrs. cbn. by rewrite <- app_assoc.
Qed.

Lemma require_known i byId r :
  registry_ok byId -> require_adapter i byId = Ok r -> registration_ok (i, r).
Proof.
  intros [_ Hall]. unfold require_adapter. destruct (jget i byId) as [r'|] eqn:Hg; [|done].
  intros [= <-]. rewrite Forall_forall in Hall. apply Hall. by apply jget_elem_of.
Qed.
(** An entry that denotes a valid, fresh registration is accepted. *)
Lemma register_entry_accepts e map r :
  entry_of e = Some r -> registration_ok (reg_adapterId r, r) ->
  reg_adapterId r ∉ jkeys map ->
  register_entry e map = Ok (map ++ [(reg_adapterId r, r)]).
Proof.
  unfold entry_of, register_entry. destruct (as_record e) as [ps|]; [|done].
  destruct (prop "adapterId" ps) as [| | | |i| |]; try done.
  destruct (prop "callbackUrl" ps) as [| | | |u| |]; try done.
  destruct (prop "sharedSecret" ps) as [| | | |s| |]; try done. intros [= <-].
  intros (_ & Hi & Hs & Hu & p & Hp & Hhttp) Hfresh. cbn in *.
  apply is_empty_false in Hi, Hs, Hu. rewrite Hi, Hs, Hu, Hp.
  assert (String.eqb p "http:" || String.eqb p "https:" = true)%bool as ->
    by (destruct Hhttp; by subst). cbn [negb].
  apply jget_None in Hfresh. unfold jhas. rewrite Hfresh. by rewrite jset_absent.
Qed.

Definition of_registrations (rs : list AdapterRegistration) : Registry :=
  List.map (fun r => (reg_adapterId r, r)) rs.

Lemma register_entries_accepts es map rs :
  mapM entry_of es = Some rs -> registry_ok (map ++ of_registrations rs) ->
  register_entries es map = Ok (map ++ of_registrations rs).
Proof.
  revert map rs. induction es as [|e es IH]; intros map rs; cbn.
  - intros [= <-] _. by rewrite app_nil_r.
  - destruct (entry_of e) as [r|] eqn:He; [|done]. cbn.
    destruct (mapM entry_of es) as [rs'|] eqn:Hes; [|done]. intros [= <-] Hok.
    destruct Hok as [Hnd Hall]. cbn in *. unfold jkeys in Hnd. rewrite fmap_app in Hnd. cbn in Hnd.
    rewrite (register_entry_accepts e map r He).
    + cbn. rewrite (IH _ rs' eq_refl); [by rewrite <- app_assoc|].
      split; unfold jkeys; rewrite <- app_assoc; cbn; [by rewrite fmap_app|done].
    + apply Forall_app in Hall as [_ Hall]. by apply Forall_cons in Hall as [? _].
    + intros Hin. apply NoDup_app in Hnd as (_ & Hdis & _). apply (Hdis _ Hin). left.
Qed.

Lemma register_entries_throws es map err :
  register_entries es map = Throw err -> exists m i, err = AdapterRegistrationError m i.
Proof.
  revert map. induction es as [|e es IH]; intros map; cbn; [done|].
  destruct (register_entry e map) eqn:He; cbn; [apply IH|].
  intros [= ->]. unfold register_entry in He. repeat case_match; simplify_eq; eauto.
Qed.

Lemma registry_ok_nil : registry_ok [].
Proof. split; constructor. Qed.

Lemma new_registry_registry_ok regs byId : new_registry regs = Ok byId -> registry_ok byId.
Proof.
  destruct regs; try done. cbn. intros Hreg.
  by apply (register_entries_ok _ _ _ registry_ok_nil Hreg).
Qed.

(** The constructor is atomic and exact: it builds a registry precisely
    when every entry denotes a registration, each registration is valid and no
    two share an id, the registry then holds those registrations in the order
    given, and every other input throws an [AdapterRegistrationError]. *)
Theorem new_registry_spec (regs : value) (byId : Registry) :
  (new_registry regs = Ok byId <->
   exists es rs, regs = VArray es /\ mapM entry_of es = Some rs /\
     byId = of_registrations rs /\ NoDup (List.map reg_adapterId rs) /\
     Forall (fun r => registration_ok (reg_adapterId r, r)) rs) /\
  (forall err, new_registry regs = Throw err ->
     exists m i, err = AdapterRegistrationError m i).
Proof.
  assert (forall rs, registry_ok (of_registrations rs) <->
    NoDup (List.map reg_adapterId rs) /\
    Forall (fun r => registration_ok (reg_adapterId r, r)) rs) as Hok.
  { intros rs. unfold registry_ok, of_registrations, jkeys.
    rewrite <- list_fmap_compose. rewrite Forall_fmap. done. }
  split; [split|].
  - intros Hreg. destruct regs as [| | | | |es|]; try done. cbn in Hreg.
    destruct (register_entries_ok _ _ _ registry_ok_nil Hreg) as (Hr & rs & Hrs & ->).
    exists es, rs. do 3 (split; [done|]). by apply Hok.
  - intros (es & rs & -> & Hrs & -> & Hvalid). cbn.
    rewrite (register_entries_accepts es [] rs Hrs); [done|]. by apply Hok.
  - destruct regs; cbn; try (intros err [= <-]; eauto; fail). apply register_entries_throws.
Qed.

(** In a constructed registry, authentication of a registered adapter
    returns whether the presented secret is the registered one, whatever the
    lengths, without ever reaching [timingSafeEqual]'s length error; an empty
    secret is never accepted and an unknown adapter is an error, not a
    mismatch. *)
Theorem authenticate_inbound_spec (regs : value) (byId : Registry) (i presented : string) :
  new_registry regs = Ok byId ->
  match jget i byId with
  | Some r =>
      authenticateInbound i presented byId =
        Ok (bool_decide (presented = reg_sharedSecret r)) /\
      authenticateInbound i "" byId = Ok false
  | None => authenticateInbound i presented byId = Throw (UnknownAdapterError i)
  end.
Proof.
  intros Hreg%new_registry_registry_ok. unfold authenticateInbound.
  destruct (jget i byId) as [r|] eqn:Hget; unfold require_adapter; rewrite Hget; [|done].
  cbn. rewrite !secretEquals_spec. split; [done|].
  destruct (require_known i byId r Hreg) as (_ & _ & Hs & _);
    [by unfold require_adapter; rewrite Hget|]. f_equal. apply bool_decide_eq_false_2.
  cbn in Hs. congruence.
Qed.
End registry.

(** The documented decoding inverts the conversation storage key for every
    adapter id and conversation key, so no two tuples share a storage key. *)
Theorem storage_key_roundtrip (adapterId key : string) :
  decodeStorageKey (conversationStorageKey adapterId key) = Some (adapterId, key) /\
  forall adapterId' key',
    conversationStorageKey adapterId' key' = conversationStorageKey adapterId key <->
    adapterId' = adapterId /\ key' = key.
Proof.
  split; [apply decode_storageKey|]. intros a' k'. split; [apply storageKey_inj|].
  by intros [-> ->].
Qed.

Definition demo_protocol (s : string) : option string :=
  if starts_with "http://" s then Some "http:" else None.

Definition demo_registration (i u s : string) : value :=
  VObject [("adapterId", VString i); ("callbackUrl", VString u); ("sharedSecret", VString s)].

Lemma authenticate_inbound_spec_witness :
  exists byId,
    new_registry demo_protocol
      (VArray [demo_registration "http" "http://cb" "s3cret";
               demo_registration "chat" "http://chat" "other"]) = Ok byId /\
    authenticateInbound "chat" "other" byId = Ok true /\
    authenticateInbound "chat" "" byId = Ok false.
Proof.
  eexists. split; [vm_compute; reflexivity|].
  apply (authenticate_inbound_spec demo_protocol
    (VArray [demo_registration "http" "http://cb" "s3cret";
             demo_registration "chat" "http://chat" "other"])
    _ "chat" "other" eq_refl).
Defined.

#[export] Instance storageKey_inj2 : Inj2 (=) (=) (=) conversationStorageKey.
Proof. intros a1 k1 a2 k2 Heq. exact (storageKey_inj a1 k1 a2 k2 Heq). Qed.
