(* ===== verification/IdempotencyStore.v ===== *)
(** * Idempotency store

    packages/core/src/idempotency-store.ts: one row per (adapterId, messageId)
    with an ingest track and a delivery track.  Every mutation is one
    compare-and-set statement whose [info.changes] is checked.  The clock and
    [randomUUID] are arguments; a timestamp is its epoch millisecond, which
    orders as the ISO text does.  The [response_payload] column, the JSON text
    of the event, is represented by the event. *)

From S2P Require Import Prelude JsString JsValue SqlTable Contracts Canonical.
From stdpp Require Import options.
#[local] Open Scope Z_scope.

Inductive IngestState : Type := ingest_pending | ingest_completed.

Inductive DeliveryState : Type :=
| delivery_pending
| delivery_saved
| delivery_sent
| delivery_failed.

#[export] Instance ingest_eq_dec : EqDecision IngestState.
Proof. solve_decision. Defined.
#[export] Instance delivery_eq_dec : EqDecision DeliveryState.
Proof. solve_decision. Defined.

Record IdempotencyEntry : Type := mkEntry {
  ie_adapterId : string;
  ie_messageId : string;
  ie_conversationKey : string;
  ie_correlationId : string;
  ie_payloadHash : string;
  ie_ingestState : IngestState;
  ie_deliveryState : DeliveryState;
  ie_response : option OutboundEvent;
  ie_errorText : option string;
  ie_createdAt : Z;
  ie_updatedAt : Z;
}.

(** The [CHECK] constraints of [SCHEMA]; the state enumerations are typed. *)
Definition entry_check (r : IdempotencyEntry) : bool :=
  (match ie_deliveryState r, ie_response r with
   | delivery_pending, None => true
   | delivery_pending, Some _ => false
   | _, Some _ => true
   | _, None => false
   end) &&
  (match ie_deliveryState r, ie_errorText r with
   | delivery_failed, Some _ => true
   | delivery_failed, None => false
   | _, None => true
   | _, Some _ => false
   end).

#[export] Instance idempotency_schema : Schema (string * string) IdempotencyEntry := {
  primary_key := fun r => (ie_adapterId r, ie_messageId r);
  row_check := entry_check;
}.

Abbreviation Store := (@gmap (string * string)
  (@prod_eq_dec string String.eq_dec string String.eq_dec)
  (@prod_countable string String.eq_dec String.countable string String.eq_dec String.countable)
  IdempotencyEntry).

Inductive BeginInboundResult : Type :=
| created (correlationId : string)
| pending (correlationId : string)
| response_saved (correlationId : string) (response : option OutboundEvent)
| already_sent (correlationId : string)
| delivery_failed_result (correlationId : string) (response : option OutboundEvent) (error : string).

Inductive StoreError : Type :=
| GenericError (message : string)
| IdempotencyConflictError (adapterId messageId incomingHash existingHash : string)
| InvalidStateTransitionError (adapterId messageId : string)
| ConstraintError.

Definition MAX_ERROR_TEXT_LEN : nat := 2000.

(** [TERMINAL_EVENT_TYPES] *)
Definition isTerminalEventType (type : string) : bool :=
  String.eqb type "turn.reply" || String.eqb type "turn.error" ||
  String.eqb type "turn.cancelled".

(** [curateErrorText(input)]; [None] is [null] or [undefined]. *)
Definition curateErrorText (input : option string) : string :=
  let text := match input with None => "" | Some s => s end in
  let collapsed := trim (collapse_spaces text) in
  if (String.length collapsed <=? MAX_ERROR_TEXT_LEN)%nat then collapsed
  else (take_str (MAX_ERROR_TEXT_LEN - 3) collapsed +:+ "...")%stdpp.

Definition db_update (where_ : IdempotencyEntry -> bool)
    (upd : IdempotencyEntry -> IdempotencyEntry) : comp Store StoreError nat :=
  fun db => match sql_update where_ upd db with
            | Some (db', n) => (Ok n, db')
            | None => (Throw ConstraintError, db)
            end.

(** [getRaw], and [getEntry] which only calls it. *)
Definition getRaw (adapterId messageId : string) (db : Store) : option IdempotencyEntry :=
  db !! (adapterId, messageId).

Definition getEntry (adapterId messageId : string) (db : Store) : option IdempotencyEntry :=
  getRaw adapterId messageId db.

Definition classifyExisting (row : IdempotencyEntry) : BeginInboundResult :=
  match ie_deliveryState row with
  | delivery_sent => already_sent (ie_correlationId row)
  | delivery_saved => response_saved (ie_correlationId row) (ie_response row)
  | delivery_failed =>
      delivery_failed_result (ie_correlationId row) (ie_response row)
        (default "" (ie_errorText row))
  | delivery_pending => pending (ie_correlationId row)
  end.

(** The [WHERE adapter_id = ? AND message_id = ?] of the keyed statements. *)
Definition has_key (adapterId messageId : string) (r : IdempotencyEntry) : bool :=
  String.eqb (ie_adapterId r) adapterId && String.eqb (ie_messageId r) messageId.

Definition has_correlation (adapterId correlationId : string) (r : IdempotencyEntry) : bool :=
  String.eqb (ie_adapterId r) adapterId && String.eqb (ie_correlationId r) correlationId.

Definition is_delivery (s : DeliveryState) (r : IdempotencyEntry) : bool :=
  bool_decide (ie_deliveryState r = s).

(** [SET ingest_state = 'completed', updated_at = ?] *)
Definition set_ingest_completed (ts : Z) (r : IdempotencyEntry) : IdempotencyEntry :=
  mkEntry (ie_adapterId r) (ie_messageId r) (ie_conversationKey r) (ie_correlationId r)
    (ie_payloadHash r) ingest_completed (ie_deliveryState r) (ie_response r)
    (ie_errorText r) (ie_createdAt r) ts.

(** [SET ingest_state = 'completed', delivery_state = 'saved',
    response_payload = ?, error_text = NULL, updated_at = ?] *)
Definition set_saved (event : OutboundEvent) (ts : Z) (r : IdempotencyEntry) : IdempotencyEntry :=
  mkEntry (ie_adapterId r) (ie_messageId r) (ie_conversationKey r) (ie_correlationId r)
    (ie_payloadHash r) ingest_completed delivery_saved (Some event) None (ie_createdAt r) ts.

(** [SET delivery_state = 'sent', error_text = NULL, updated_at = ?] *)
Definition set_sent (ts : Z) (r : IdempotencyEntry) : IdempotencyEntry :=
  mkEntry (ie_adapterId r) (ie_messageId r) (ie_conversationKey r) (ie_correlationId r)
    (ie_payloadHash r) (ie_ingestState r) delivery_sent (ie_response r) None
    (ie_createdAt r) ts.

(** [SET delivery_state = 'failed', error_text = ?, updated_at = ?] *)
Definition set_failed (error : string) (ts : Z) (r : IdempotencyEntry) : IdempotencyEntry :=
  mkEntry (ie_adapterId r) (ie_messageId r) (ie_conversationKey r) (ie_correlationId r)
    (ie_payloadHash r) (ie_ingestState r) delivery_failed (ie_response r) (Some error)
    (ie_createdAt r) ts.

Definition fresh_entry (adapterId : string) (message : InboundMessage)
    (correlationId payloadHash : string) (ts : Z) : IdempotencyEntry :=
  mkEntry adapterId (messageId message) (conversationKey message) correlationId payloadHash
    ingest_pending delivery_pending None None ts ts.

(** [ORDER BY created_at, message_id] *)
Definition created_order (r1 r2 : IdempotencyEntry) : bool :=
  (ie_createdAt r1 <? ie_createdAt r2) ||
  ((ie_createdAt r1 =? ie_createdAt r2) && String.leb (ie_messageId r1) (ie_messageId r2)).

(** [ORDER BY created_at, adapter_id, correlation_id, message_id] *)
Definition recovery_order (r1 r2 : IdempotencyEntry) : bool :=
  let lex (c : comparison) (k : bool) := match c with Lt => true | Eq => k | Gt => false end in
  lex (ie_createdAt r1 ?= ie_createdAt r2)
    (lex (String.compare (ie_adapterId r1) (ie_adapterId r2))
       (lex (String.compare (ie_correlationId r1) (ie_correlationId r2))
          (String.leb (ie_messageId r1) (ie_messageId r2)))).

Definition getEntriesByCorrelation (adapterId correlationId : string) (db : Store) :
    list IdempotencyEntry :=
  sql_select created_order (has_correlation adapterId correlationId) db.

Definition listSavedResponses (db : Store) : list IdempotencyEntry :=
  sql_select recovery_order (is_delivery delivery_saved) db.

Definition getSavedResponse (adapterId messageId : string) (db : Store) : option OutboundEvent :=
  match getRaw adapterId messageId db with
  | None => None
  | Some row =>
      match ie_deliveryState row with
      | delivery_saved | delivery_failed => ie_response row
      | _ => None
      end
  end.

(** [assertRowExists] always throws. *)
Definition assertRowExists {A} (adapterId messageId : string) : comp Store StoreError A :=
  cthrow (InvalidStateTransitionError adapterId messageId).

Section store.
(** SHA-256, in hex, of the [JSON.stringify] text of a value. *)
Variable sha256_json : value -> string.

Definition canonicalPayloadHash (message : InboundMessage) : string :=
  sha256_json (canonicalize (message_value message)).

(** [beginInbound].  [race] is what other connections commit between the read
    and the insert; it is the identity when the process is alone. *)
Definition beginInbound (race : Store -> Store) (uuid : string) (ts : Z)
    (adapterId : string) (message : InboundMessage) (correlationId : option string) :
    comp Store StoreError BeginInboundResult := fun db =>
  if is_empty adapterId then (Throw (GenericError "adapterId is required"), db)
  else if is_empty (messageId message) then
    (Throw (GenericError "message.messageId is required"), db)
  else if match correlationId with Some c => is_empty c | None => false end then
    (Throw (GenericError "correlationId must be non-empty when provided"), db)
  else
    let payloadHash := canonicalPayloadHash message in
    match getRaw adapterId (messageId message) db with
    | None =>
        let assigned := default uuid correlationId in
        let db := race db in
        match sql_insert (fresh_entry adapterId message assigned payloadHash ts) db with
        | Some db' => (Ok (created assigned), db')
        | None =>
            match getRaw adapterId (messageId message) db with
            | Some raced =>
                if String.eqb (ie_payloadHash raced) payloadHash
                then (Ok (classifyExisting raced), db)
                else (Throw (IdempotencyConflictError adapterId (messageId message)
                               payloadHash (ie_payloadHash raced)), db)
            | None => (Throw ConstraintError, db)
            end
        end
    | Some existing =>
        if negb (String.eqb (ie_payloadHash existing) payloadHash)
        then (Throw (IdempotencyConflictError adapterId (messageId message)
                       payloadHash (ie_payloadHash existing)), db)
        else (Ok (classifyExisting existing), db)
    end.

Definition discardPendingInbound (adapterId messageId : string) : comp Store StoreError unit :=
  fun db =>
  let '(db', changes) := sql_delete (fun r =>
    has_key adapterId messageId r && bool_decide (ie_ingestState r = ingest_pending) &&
    is_delivery delivery_pending r && bool_decide (ie_response r = None)) db in
  match changes with
  | O => (Throw (InvalidStateTransitionError adapterId messageId), db')
  | S _ => (Ok tt, db')
  end.

Definition markIngestComplete (ts : Z) (adapterId messageId : string) :
    comp Store StoreError unit :=
  changes <-? db_update
    (fun r => has_key adapterId messageId r && bool_decide (ie_ingestState r = ingest_pending))
    (set_ingest_completed ts);
  match changes with O => assertRowExists adapterId messageId | S _ => cret tt end.

Definition saveResponse (ts : Z) (adapterId messageId : string) (event : OutboundEvent) :
    comp Store StoreError unit := fun db =>
  if negb (isTerminalEventType (event_type event)) then
    (Throw (GenericError "saveResponse accepts only terminal events"), db)
  else
    match getRaw adapterId messageId db with
    | None => (Throw (InvalidStateTransitionError adapterId messageId), db)
    | Some row =>
        if negb (String.eqb (ie_correlationId row) (ev_correlationId event)) then
          (Throw (GenericError "event.correlationId mismatch"), db)
        else if negb (String.eqb (ie_conversationKey row) (ev_conversationKey event)) then
          (Throw (GenericError "event.conversationKey mismatch"), db)
        else
          (changes <-? db_update
             (fun r => has_key adapterId messageId r && is_delivery delivery_pending r)
             (set_saved event ts);
           match changes with
           | O => cthrow (InvalidStateTransitionError adapterId messageId)
           | S _ => cret tt
           end) db
    end.

Definition markSent (ts : Z) (adapterId messageId : string) : comp Store StoreError unit :=
  changes <-? db_update
    (fun r => has_key adapterId messageId r &&
              (is_delivery delivery_saved r || is_delivery delivery_failed r))
    (set_sent ts);
  match changes with O => assertRowExists adapterId messageId | S _ => cret tt end.

Definition markFailed (ts : Z) (adapterId messageId : string) (error : option string) :
    comp Store StoreError unit :=
  changes <-? db_update
    (fun r => has_key adapterId messageId r && is_delivery delivery_saved r)
    (set_failed (curateErrorText error) ts);
  match changes with O => assertRowExists adapterId messageId | S _ => cret tt end.

(** The validation loop of [saveResponseForCorrelation]: counts pending rows. *)
Fixpoint count_pending (event : OutboundEvent) (entries : list IdempotencyEntry) (pending : nat) :
    result StoreError nat :=
  match entries with
  | [] => Ok pending
  | entry :: entries =>
      if negb (String.eqb (ie_conversationKey entry) (ev_conversationKey event)) then
        Throw (GenericError "event.conversationKey mismatch")
      else if is_delivery delivery_pending entry then count_pending event entries (S pending)
      else if bool_decide (ev_eventId <$> ie_response entry = Some (ev_eventId event)) then
        count_pending event entries pending
      else Throw (GenericError "terminal event mismatch")
  end.

Definition saveResponseForCorrelation (ts : Z) (adapterId correlationId : string)
    (event : OutboundEvent) : comp Store StoreError unit := fun db =>
  if negb (isTerminalEventType (event_type event)) then
    (Throw (GenericError "correlation response must be terminal"), db)
  else if negb (String.eqb (ev_correlationId event) correlationId) then
    (Throw (GenericError "event.correlationId mismatch"), db)
  else
    match getEntriesByCorrelation adapterId correlationId db with
    | [] => (Throw (GenericError "no idempotency entries for correlation"), db)
    | entries =>
        match count_pending event entries 0 with
        | Throw e => (Throw e, db)
        | Ok O => (Ok tt, db)
        | Ok (S n as pending) =>
            (changes <-? db_update
               (fun r => has_correlation adapterId correlationId r && is_delivery delivery_pending r)
               (set_saved event ts);
             if decide (changes = pending) then cret tt
             else cthrow (GenericError "correlation changed while saving its response")) db
        end
    end.

(** The validation loop of [markCorrelationSent] and [markCorrelationFailed]:
    every row must hold the event and be saved, failed or sent; counts the rows
    [todo] accepts. *)
Fixpoint count_deliverable (eventId : string) (todo : IdempotencyEntry -> bool)
    (entries : list IdempotencyEntry) (n : nat) : result StoreError nat :=
  match entries with
  | [] => Ok n
  | entry :: entries =>
      if negb (bool_decide (ev_eventId <$> ie_response entry = Some eventId)) ||
         (negb (is_delivery delivery_saved entry) && negb (is_delivery delivery_failed entry) &&
          negb (is_delivery delivery_sent entry))
      then Throw (GenericError "cannot confirm or record terminal delivery")
      else count_deliverable eventId todo entries (if todo entry then S n else n)
  end.

Definition markCorrelationSent (ts : Z) (adapterId correlationId eventId : string) :
    comp Store StoreError unit := fun db =>
  let entries := getEntriesByCorrelation adapterId correlationId db in
  match count_deliverable eventId (fun e => negb (is_delivery delivery_sent e)) entries 0 with
  | Throw e => (Throw e, db)
  | Ok O => (Ok tt, db)
  | Ok (S _ as unsent) =>
      (changes <-? db_update
         (fun r => has_correlation adapterId correlationId r &&
                   (is_delivery delivery_saved r || is_delivery delivery_failed r))
         (set_sent ts);
       if decide (changes = unsent) then cret tt
       else cthrow (GenericError "correlation changed while marking it sent")) db
  end.

Definition markCorrelationFailed (ts : Z) (adapterId correlationId eventId : string)
    (error : option string) : comp Store StoreError unit := fun db =>
  let entries := getEntriesByCorrelation adapterId correlationId db in
  match count_deliverable eventId (is_delivery delivery_saved) entries 0 with
  | Throw e => (Throw e, db)
  | Ok O => (Ok tt, db)
  | Ok (S _ as saved) =>
      (changes <-? db_update
         (fun r => has_correlation adapterId correlationId r && is_delivery delivery_saved r)
         (set_failed (curateErrorText error) ts);
       if decide (changes = saved) then cret tt
       else cthrow (GenericError "correlation changed while marking it failed")) db
  end.

(** ** The store as a state machine *)

Inductive store_op : Type :=
| OpBegin (uuid : string) (ts : Z) (adapterId : string) (message : InboundMessage)
    (correlationId : option string)
| OpDiscard (adapterId messageId : string)
| OpIngestComplete (ts : Z) (adapterId messageId : string)
| OpSave (ts : Z) (adapterId messageId : string) (event : OutboundEvent)
| OpSent (ts : Z) (adapterId messageId : string)
| OpFailed (ts : Z) (adapterId messageId : string) (error : option string)
| OpSaveCorrelation (ts : Z) (adapterId correlationId : string) (event : OutboundEvent)
| OpCorrelationSent (ts : Z) (adapterId correlationId eventId : string)
| OpCorrelationFailed (ts : Z) (adapterId correlationId eventId : string) (error : option string).

(** Whether an operation succeeds, and the table it leaves. *)
Definition exec (op : store_op) (db : Store) : bool * Store :=
  let ran {A} (m : result StoreError A * Store) := (is_ok m.1, m.2) in
  match op with
  | OpBegin uuid ts a m c => ran (beginInbound id uuid ts a m c db)
  | OpDiscard a m => ran (discardPendingInbound a m db)
  | OpIngestComplete ts a m => ran (markIngestComplete ts a m db)
  | OpSave ts a m e => ran (saveResponse ts a m e db)
  | OpSent ts a m => ran (markSent ts a m db)
  | OpFailed ts a m e => ran (markFailed ts a m e db)
  | OpSaveCorrelation ts a c e => ran (saveResponseForCorrelation ts a c e db)
  | OpCorrelationSent ts a c e => ran (markCorrelationSent ts a c e db)
  | OpCorrelationFailed ts a c e err => ran (markCorrelationFailed ts a c e err db)
  end.

Definition store_step (db : Store) (op : store_op) : Store := (exec op db).2.
End store.

(** ** Specification *)

(** The life of one row, as the module documentation describes it:
    ingest [pending -> completed]; delivery [pending -> saved],
    [saved -> failed], [saved|failed -> sent]; deletion only while both tracks
    are pending. *)
Inductive row_step (k : string * string) :
    option IdempotencyEntry -> option IdempotencyEntry -> Prop :=
| row_same o : row_step k o o
| row_created a m c h ts :
    k = (a, messageId m) -> row_step k None (Some (fresh_entry a m c h ts))
| row_discarded r :
    ie_ingestState r = ingest_pending -> ie_deliveryState r = delivery_pending ->
    row_step k (Some r) None
| row_ingested ts r :
    ie_ingestState r = ingest_pending ->
    row_step k (Some r) (Some (set_ingest_completed ts r))
| row_saved e ts r :
    ie_deliveryState r = delivery_pending ->
    isTerminalEventType (event_type e) = true ->
    ie_correlationId r = ev_correlationId e ->
    ie_conversationKey r = ev_conversationKey e ->
    row_step k (Some r) (Some (set_saved e ts r))
| row_sent ts r :
    ie_deliveryState r = delivery_saved \/ ie_deliveryState r = delivery_failed ->
    row_step k (Some r) (Some (set_sent ts r))
| row_failed err ts r :
    ie_deliveryState r = delivery_saved ->
    (String.length err <= MAX_ERROR_TEXT_LEN)%nat ->
    row_step k (Some r) (Some (set_failed err ts r)).

(** What every row of a reachable table satisfies. *)
Record entry_inv (k : string * string) (r : IdempotencyEntry) : Prop := {
  inv_key : primary_key r = k;
  inv_check : entry_check r = true;
  inv_response : forall e, ie_response r = Some e ->
    isTerminalEventType (event_type e) = true /\
    ev_correlationId e = ie_correlationId r /\
    ev_conversationKey e = ie_conversationKey r;
  inv_ingest : ie_deliveryState r <> delivery_pending -> ie_ingestState r = ingest_completed;
  inv_error : forall t, ie_errorText r = Some t -> (String.length t <= MAX_ERROR_TEXT_LEN)%nat;
}.

Definition store_inv (db : Store) : Prop := map_Forall entry_inv db.

(** What a caller of the store relies on for one message: the abstract state of
    a key, without the ingest track, the timestamps and the error text. *)
Inductive Phase : Type :=
| Absent
| Accepted (correlationId payloadHash : string)
| Undelivered (correlationId payloadHash : string) (response : OutboundEvent)
| Delivered (correlationId payloadHash : string) (response : OutboundEvent).

Definition phase (o : option IdempotencyEntry) : Phase :=
  match o with
  | None => Absent
  | Some r =>
      match ie_deliveryState r, ie_response r with
      | delivery_sent, Some e => Delivered (ie_correlationId r) (ie_payloadHash r) e
      | (delivery_saved | delivery_failed), Some e =>
          Undelivered (ie_correlationId r) (ie_payloadHash r) e
      | _, _ => Accepted (ie_correlationId r) (ie_payloadHash r)
      end
  end.

(** The contract: one response per message, kept until it is delivered, and a
    delivered message is closed. *)
Inductive phase_step : Phase -> Phase -> Prop :=
| phase_stay p : phase_step p p
| phase_accept c h : phase_step Absent (Accepted c h)
| phase_rollback c h : phase_step (Accepted c h) Absent
| phase_respond c h e :
    ev_correlationId e = c -> isTerminalEventType (event_type e) = true ->
    phase_step (Accepted c h) (Undelivered c h e)
| phase_deliver c h e : phase_step (Undelivered c h e) (Delivered c h e).

(** One operation, key by key, and nothing on failure. *)
Definition good_effect (db : Store) (res : bool * Store) : Prop :=
  (forall k, row_step k (db !! k) (res.2 !! k)) /\ (res.1 = false -> res.2 = db).

(** ** Lemmas *)

Lemma store_inv_empty : store_inv ∅.
Proof. apply map_Forall_empty. Qed.

Lemma store_inv_table_ok db : store_inv db -> table_ok db.
Proof. intros Hinv k r Hk. destruct (Hinv _ _ Hk). by split. Qed.

Lemma has_key_spec a m r : has_key a m r = true <-> primary_key r = (a, m).
Proof.
  unfold has_key. rewrite andb_true_iff, !String.eqb_eq. simpl. split; [by intros [-> ->]|].
  by intros [= -> ->].
Qed.

Lemma has_correlation_spec a c r :
  has_correlation a c r = true <-> ie_adapterId r = a /\ ie_correlationId r = c.
Proof. unfold has_correlation. by rewrite andb_true_iff, !String.eqb_eq. Qed.

Lemma is_delivery_spec s r : is_delivery s r = true <-> ie_deliveryState r = s.
Proof. unfold is_delivery. apply bool_decide_eq_true. Qed.

Lemma is_delivery_false s r : is_delivery s r = false <-> ie_deliveryState r <> s.
Proof. unfold is_delivery. apply bool_decide_eq_false. Qed.

(** Reads a row's guards as propositions. *)
Ltac guards :=
  bools; repeat match goal with
  | H : has_key _ _ _ = true |- _ => apply has_key_spec in H
  | H : has_correlation _ _ _ = true |- _ => apply has_correlation_spec in H as [? ?]
  | H : is_delivery _ _ = true |- _ => apply is_delivery_spec in H
  | H : is_delivery _ _ = false |- _ => apply is_delivery_false in H
  | H : (_ || _)%bool = true |- _ => apply orb_true_iff in H as [H|H]
  | H : String.eqb _ _ = true |- _ => apply String.eqb_eq in H
  | H : String.eqb _ _ = false |- _ => apply String.eqb_neq in H
  end.

Lemma length_curateErrorText input :
  (String.length (curateErrorText input) <= MAX_ERROR_TEXT_LEN)%nat.
Proof.
  unfold curateErrorText. case_match eqn:Hle; [by apply Nat.leb_le|].
  rewrite length_append. pose proof (length_take_str (MAX_ERROR_TEXT_LEN - 3)
    (trim (collapse_spaces (default "" input)))) as Hlen.
  unfold MAX_ERROR_TEXT_LEN in *. destruct input; simpl in *; lia.
Qed.

(** Each step keeps the invariant of its row. *)
Lemma row_step_inv k o o' :
  row_step k o o' ->
  (forall r, o = Some r -> entry_inv k r) -> forall r, o' = Some r -> entry_inv k r.
Proof.
  intros Hstep Hinv r' Hr'. destruct Hstep; simplify_eq; try (by eauto);
    try (destruct (Hinv _ eq_refl) as [Hkey Hcheck Hresp Hing Herr];
         unfold entry_check in Hcheck).
  all: split; simpl; try done; unfold entry_check; simpl.
  all: try (by intros; simplify_eq; split_and?; congruence).
  all: try (bools; case_all; naive_solver congruence).
  all: intros; apply Hing; naive_solver congruence.
Qed.

Lemma good_effect_inv db res : store_inv db -> good_effect db res -> store_inv res.2.
Proof.
  intros Hinv [Hstep _] k r Hr. eapply row_step_inv; [apply Hstep| |exact Hr].
  intros r0 Hr0. by apply Hinv.
Qed.

Lemma good_effect_same db b : good_effect db (b, db).
Proof. split; [constructor|done]. Qed.

(** An [UPDATE] whose selected rows make legal steps never breaks a [CHECK]. *)
Lemma db_update_runs (w : IdempotencyEntry -> bool) (u : IdempotencyEntry -> IdempotencyEntry) (db : Store) :
  store_inv db ->
  (forall k r, db !! k = Some r -> w r = true -> row_step k (Some r) (Some (u r))) ->
  db_update w u db = (Ok (sql_count w db), (fun r => if w r then u r else r) <$> db).
Proof.
  intros Hinv Hsteps. unfold db_update. rewrite sql_update_succeeds; [done|].
  intros k r Hk Hw. apply (inv_check k).
  eapply row_step_inv; [by apply Hsteps| |done]. intros r0 [= <-]. by apply Hinv.
Qed.

Lemma update_row_steps (w : IdempotencyEntry -> bool) (u : IdempotencyEntry -> IdempotencyEntry) (db : Store) :
  (forall k r, db !! k = Some r -> w r = true -> row_step k (Some r) (Some (u r))) ->
  forall k, row_step k (db !! k) (((fun r => if w r then u r else r) <$> db) !! k).
Proof.
  intros Hsteps k. rewrite lookup_fmap. destruct (db !! k) as [r|] eqn:Hk; simpl; [|constructor].
  destruct (w r) eqn:Hw; [by apply Hsteps|constructor].
Qed.

(** The common shape: update, then check that some row changed. *)
Lemma update_or_fail_effect (w : IdempotencyEntry -> bool) (u : IdempotencyEntry -> IdempotencyEntry)
    (fail : comp Store StoreError unit) (db : Store) :
  store_inv db ->
  (forall k r, db !! k = Some r -> w r = true -> row_step k (Some r) (Some (u r))) ->
  (forall db', exists e, fail db' = (Throw e, db')) ->
  let m := (changes <-? db_update w u; match changes with O => fail | S _ => cret tt end) db in
  good_effect db (is_ok m.1, m.2).
Proof.
  intros Hinv Hsteps Hfail m. subst m. unfold cbind.
  rewrite db_update_runs by done. destruct (sql_count w db) eqn:Hn.
  - assert (((fun r => if w r then u r else r) <$> db) = db) as ->.
    { apply (sql_update_none w u). rewrite sql_update_succeeds; [by rewrite Hn|].
      intros k r Hk Hw. apply (inv_check k).
      eapply row_step_inv; [by apply Hsteps| |done]. intros r0 [= <-]. by apply Hinv. }
    destruct (Hfail db) as [e ->]. apply good_effect_same.
  - simpl. split; [by apply update_row_steps|done].
Qed.

(** The same with an exact number of changes, known in advance. *)
Lemma update_exactly_effect (w : IdempotencyEntry -> bool) (u : IdempotencyEntry -> IdempotencyEntry)
    (n : nat) (fail : comp Store StoreError unit) (db : Store) :
  store_inv db ->
  (forall k r, db !! k = Some r -> w r = true -> row_step k (Some r) (Some (u r))) ->
  sql_count w db = n ->
  (changes <-? db_update w u; if decide (changes = n) then cret tt else fail) db =
    (Ok tt, (fun r => if w r then u r else r) <$> db).
Proof.
  intros Hinv Hsteps Hn. unfold cbind. rewrite db_update_runs by done.
  by rewrite Hn, decide_True.
Qed.

(** A row selected by its key is the row [getRaw] reads. *)
Lemma selected_by_key (db : Store) k r a m :
  store_inv db -> db !! k = Some r -> has_key a m r = true -> getRaw a m db = Some r.
Proof.
  intros Hinv Hk Hkey%has_key_spec. unfold getRaw. rewrite <- Hkey.
  by rewrite (inv_key _ _ (Hinv _ _ Hk)).
Qed.

Lemma count_pending_ok e es n m :
  count_pending e es n = Ok m ->
  m = (n + length (List.filter (is_delivery delivery_pending) es))%nat /\
  Forall (fun r => ie_conversationKey r = ev_conversationKey e /\
    (ie_deliveryState r <> delivery_pending ->
     ev_eventId <$> ie_response r = Some (ev_eventId e))) es.
Proof.
  revert n. induction es as [|r es IH]; intros n; simpl.
  - intros [= ->]. split; [lia|constructor].
  - case_match eqn:Hconv; [done|]. guards.
    destruct (is_delivery delivery_pending r) eqn:Hd; [|case_bool_decide as Hr; [|done]];
      guards; intros Hm; destruct (IH _ Hm) as [-> Hall]; simpl; (split; [lia|]);
      constructor; try done; by split.
Qed.

Lemma count_deliverable_ok id todo es n m :
  count_deliverable id todo es n = Ok m ->
  m = (n + length (List.filter todo es))%nat /\
  Forall (fun r => ev_eventId <$> ie_response r = Some id) es.
Proof.
  revert n. induction es as [|r es IH]; intros n; simpl.
  - intros [= ->]. split; [lia|constructor].
  - case_match eqn:Hg; [done|]. guards. intros Hm. destruct (IH _ Hm) as [-> Hall].
    split; [case_match; simpl; lia|]. by constructor.
Qed.

Section effects.
Variable sha256_json : value -> string.
Implicit Types (db : Store).

Lemma insert_row_step a msg c h ts db db' :
  sql_insert (fresh_entry a msg c h ts) db = Some db' ->
  forall k, row_step k (db !! k) (db' !! k).
Proof.
  intros (Hn & _ & ->)%sql_insert_ok k. simpl in *.
  destruct (decide (k = (a, messageId msg))) as [->|Hne].
  - rewrite Hn, lookup_insert_eq. by apply row_created.
  - rewrite lookup_insert_ne by done. constructor.
Qed.

Lemma begin_effect uuid ts a msg c db :
  good_effect db (exec sha256_json (OpBegin uuid ts a msg c) db).
Proof.
  simpl. unfold beginInbound, id.
  repeat case_match; simplify_eq/=; try apply good_effect_same;
    (split; [by eapply insert_row_step|done]).
Qed.

Lemma discard_effect a m db :
  good_effect db (exec sha256_json (OpDiscard a m) db).
Proof.
  simpl. unfold discardPendingInbound.
  set (w := fun r => _ && _). destruct (sql_delete w db) as [db' n] eqn:Hd.
  assert (db' = (sql_delete w db).1) as -> by by rewrite Hd.
  assert (n = (sql_delete w db).2) as -> by by rewrite Hd.
  destruct ((sql_delete w db).2) eqn:Hn.
  - rewrite sql_delete_none by done. apply good_effect_same.
  - split; [|done]. intros k. cbn [snd fst is_ok]. rewrite lookup_sql_delete.
    destruct (db !! k) as [r|]; [|constructor].
    destruct (w r) eqn:Hw; [|constructor]. subst w. simpl in Hw. guards.
    by apply row_discarded.
Qed.

Lemma ingest_effect ts a m db :
  store_inv db -> good_effect db (exec sha256_json (OpIngestComplete ts a m) db).
Proof.
  intros Hinv. apply update_or_fail_effect; [done| |by eexists].
  intros k r Hk Hw. guards. by constructor.
Qed.

Lemma sent_effect ts a m db :
  store_inv db -> good_effect db (exec sha256_json (OpSent ts a m) db).
Proof.
  intros Hinv. apply update_or_fail_effect; [done| |by eexists].
  intros k r Hk Hw. guards; constructor; auto.
Qed.

Lemma failed_effect ts a m err db :
  store_inv db -> good_effect db (exec sha256_json (OpFailed ts a m err) db).
Proof.
  intros Hinv. apply update_or_fail_effect; [done| |by eexists].
  intros k r Hk Hw. guards. constructor; [done|apply length_curateErrorText].
Qed.

Lemma save_effect ts a m e db :
  store_inv db -> good_effect db (exec sha256_json (OpSave ts a m e) db).
Proof.
  intros Hinv. simpl. unfold saveResponse.
  destruct (isTerminalEventType (event_type e)) eqn:Ht; cbn [negb]; [|apply good_effect_same].
  destruct (getRaw a m db) as [row|] eqn:Hrow; [|apply good_effect_same].
  destruct (String.eqb (ie_correlationId row) _) eqn:Hc; cbn [negb]; [|apply good_effect_same].
  destruct (String.eqb (ie_conversationKey row) _) eqn:Hv; cbn [negb]; [|apply good_effect_same].
  apply update_or_fail_effect; [done| |by eexists].
  intros k r Hk [Hkey Hd]%andb_true_iff.
  rewrite (selected_by_key _ _ _ _ _ Hinv Hk Hkey) in Hrow. simplify_eq. guards.
  by constructor.
Qed.

Lemma save_correlation_steps ts a c e n db :
  ev_correlationId e = c -> isTerminalEventType (event_type e) = true ->
  count_pending e (getEntriesByCorrelation a c db) 0 = Ok n ->
  sql_count (fun r => has_correlation a c r && is_delivery delivery_pending r) db = n /\
  forall k r, db !! k = Some r ->
    has_correlation a c r && is_delivery delivery_pending r = true ->
    row_step k (Some r) (Some (set_saved e ts r)).
Proof.
  intros <- Ht Hcount. apply count_pending_ok in Hcount as [-> Hall]. split.
  - symmetry. apply length_select_filter.
  - intros k r Hk Hw. rewrite Forall_forall in Hall.
    destruct (Hall r) as [Hconv _].
    { apply elem_of_sql_select. apply andb_true_iff in Hw as [Hw _]. eauto. }
    guards. by constructor.
Qed.

Lemma save_correlation_effect ts a c e db :
  store_inv db -> good_effect db (exec sha256_json (OpSaveCorrelation ts a c e) db).
Proof.
  intros Hinv. simpl. unfold saveResponseForCorrelation.
  destruct (isTerminalEventType (event_type e)) eqn:Ht; cbn [negb]; [|apply good_effect_same].
  destruct (String.eqb (ev_correlationId e) c) eqn:Hc; cbn [negb]; [|apply good_effect_same].
  apply String.eqb_eq in Hc.
  destruct (getEntriesByCorrelation a c db) as [|r0 es] eqn:Hes; [apply good_effect_same|].
  rewrite <- Hes. destruct (count_pending e _ 0) as [[|n]|err] eqn:Hn;
    [apply good_effect_same| |apply good_effect_same].
  destruct (save_correlation_steps ts a c e _ db Hc Ht Hn) as [Hcount Hsteps].
  rewrite (update_exactly_effect _ (set_saved e ts) (S n)) by done.
  split; [by apply update_row_steps|done].
Qed.

(** Rows of a correlation that still have to be confirmed. *)
Definition unsent_of (a c : string) (r : IdempotencyEntry) : bool :=
  has_correlation a c r && (is_delivery delivery_saved r || is_delivery delivery_failed r).

Lemma update_none_selected (w : IdempotencyEntry -> bool) (u : IdempotencyEntry -> IdempotencyEntry) db :
  sql_count w db = 0%nat -> (fun r => if w r then u r else r) <$> db = db.
Proof.
  intros Hn. apply sql_count_zero in Hn. apply map_eq. intros k. rewrite lookup_fmap.
  destruct (db !! k) as [r|] eqn:Hk; [|done]. simpl. by rewrite (Hn _ _ Hk).
Qed.

(** Once the loop accepts the rows, the update confirms exactly those left. *)
Lemma markCorrelationSent_accepted ts a c id n db :
  store_inv db ->
  count_deliverable id (fun e => negb (is_delivery delivery_sent e))
    (getEntriesByCorrelation a c db) 0 = Ok n ->
  markCorrelationSent ts a c id db =
    (Ok tt, (fun r => if unsent_of a c r then set_sent ts r else r) <$> db).
Proof.
  intros Hinv Hn. unfold markCorrelationSent. rewrite Hn.
  apply count_deliverable_ok in Hn as [Hn Hall]. unfold getEntriesByCorrelation in *.
  rewrite length_select_filter in Hn. rewrite Forall_forall in Hall.
  assert (sql_count (unsent_of a c) db = n) as Hcount.
  { rewrite Hn. apply sql_count_ext. intros k r Hk. unfold unsent_of.
    destruct (has_correlation a c r) eqn:Hc; [|done]. simpl.
    assert (r ∈ sql_select created_order (has_correlation a c) db) as Hin
      by (apply elem_of_sql_select; eauto).
    specialize (Hall _ Hin). pose proof (inv_check _ _ (Hinv _ _ Hk)) as Hcheck.
    unfold entry_check, is_delivery in *.
    by destruct (ie_deliveryState r), (ie_response r). }
  clear Hn. destruct n as [|n]; [by rewrite update_none_selected|].
  apply (update_exactly_effect (unsent_of a c) (set_sent ts) (S n)); [done| |done].
  intros k r Hk Hw. unfold unsent_of in Hw. guards; constructor; auto.
Qed.

Lemma correlation_sent_effect ts a c id db :
  store_inv db -> good_effect db (exec sha256_json (OpCorrelationSent ts a c id) db).
Proof.
  intros Hinv. simpl.
  destruct (count_deliverable id (fun e => negb (is_delivery delivery_sent e))
    (getEntriesByCorrelation a c db) 0) as [n|e] eqn:Hn.
  - rewrite (markCorrelationSent_accepted ts a c id n) by done.
    split; [apply update_row_steps|done]. intros k r Hk Hw. unfold unsent_of in Hw.
    guards; constructor; auto.
  - unfold markCorrelationSent. rewrite Hn. apply good_effect_same.
Qed.

Lemma correlation_failed_effect ts a c id err db :
  store_inv db -> good_effect db (exec sha256_json (OpCorrelationFailed ts a c id err) db).
Proof.
  intros Hinv. simpl. unfold markCorrelationFailed.
  destruct (count_deliverable id _ _ 0) as [[|n]|e] eqn:Hn;
    [apply good_effect_same| |apply good_effect_same].
  apply count_deliverable_ok in Hn as [Hn _]. unfold getEntriesByCorrelation in *.
  rewrite length_select_filter in Hn.
  assert (forall k r, db !! k = Some r ->
    has_correlation a c r && is_delivery delivery_saved r = true ->
    row_step k (Some r) (Some (set_failed (curateErrorText err) ts r))) as Hsteps.
  { intros k r Hk Hw. guards. constructor; [done|apply length_curateErrorText]. }
  rewrite (update_exactly_effect _ (set_failed (curateErrorText err) ts) (S n)) by done.
  split; [by apply update_row_steps|done].
Qed.

(** Every operation, on every key. *)
Lemma exec_effect op db : store_inv db -> good_effect db (exec sha256_json op db).
Proof.
  intros Hinv. destruct op; auto using begin_effect, discard_effect, ingest_effect, save_effect,
    sent_effect, failed_effect, save_correlation_effect, correlation_sent_effect,
    correlation_failed_effect.
Qed.

Lemma store_step_inv db op : store_inv db -> store_inv (store_step sha256_json db op).
Proof. intros Hinv. eapply good_effect_inv, exec_effect; done. Qed.

Lemma store_step_row db op k :
  store_inv db -> row_step k (db !! k) (store_step sha256_json db op !! k).
Proof. intros Hinv. apply (exec_effect op db Hinv). Qed.

Lemma store_run_inv ops : store_inv (run (store_step sha256_json) ∅ ops).
Proof. apply run_invariant; [apply store_step_inv | apply store_inv_empty]. Qed.
End effects.

(** Rows never disappear except by [discardPendingInbound]. *)
Definition keeps_rows {A} (m : comp Store StoreError A) : Prop :=
  forall db k, is_Some (db !! k) -> is_Some ((m db).2 !! k).

Definition result_correlation (r : BeginInboundResult) : string :=
  match r with
  | created c | pending c | response_saved c _ | already_sent c
  | delivery_failed_result c _ _ => c
  end.

Lemma keeps_rows_bind {A B} (m : comp Store StoreError A) (k : A -> comp Store StoreError B) :
  keeps_rows m -> (forall a, keeps_rows (k a)) -> keeps_rows (cbind m k).
Proof.
  intros Hm Hk db key Hkey. unfold cbind. specialize (Hm db key Hkey).
  destruct (m db) as [[a|e] db']; [by apply Hk|done].
Qed.

Lemma keeps_rows_ret {A} (a : A) : keeps_rows (cret a).
Proof. by intros db k Hk. Qed.

Lemma keeps_rows_throw {A} e : keeps_rows (A := A) (cthrow e).
Proof. by intros db k Hk. Qed.

Lemma keeps_rows_update w u : keeps_rows (db_update w u).
Proof.
  intros db k [r Hk]. unfold db_update, sql_update. case_bool_decide; [|by eexists].
  simpl. rewrite lookup_fmap, Hk. by eexists.
Qed.

Create HintDb keeps_rows discriminated.
#[export] Hint Resolve keeps_rows_bind keeps_rows_ret keeps_rows_throw keeps_rows_update : keeps_rows.

Lemma keeps_rows_nonzero w u (fail : comp Store StoreError unit) :
  keeps_rows fail ->
  keeps_rows (changes <-? db_update w u; match changes with O => fail | S _ => cret tt end).
Proof. intros Hf. apply keeps_rows_bind; [apply keeps_rows_update|].
  intros [|n]; [done | apply keeps_rows_ret]. Qed.

Lemma keeps_rows_exactly w u (n : nat) (fail : comp Store StoreError unit) :
  keeps_rows fail ->
  keeps_rows (changes <-? db_update w u; if decide (changes = n) then cret tt else fail).
Proof.
  intros Hf. apply keeps_rows_bind; [apply keeps_rows_update|]. intros n'.
  destruct (decide _); [apply keeps_rows_ret | done].
Qed.

Ltac keep_rows :=
  first [apply keeps_rows_nonzero | apply keeps_rows_exactly];
  [apply keeps_rows_throw | done].

Section replay.
Variable sha256_json : value -> string.
Implicit Types (db : Store).

Lemma keeps_rows_begin uuid ts a m c : keeps_rows (beginInbound sha256_json id uuid ts a m c).
Proof.
  intros db k Hk. unfold beginInbound, id. repeat case_match; simplify_eq/=; try done;
    match goal with H : sql_insert _ _ = Some _ |- _ => apply sql_insert_ok in H as (_ & _ & ->) end;
    rewrite lookup_insert; by case_decide.
Qed.

Lemma keeps_rows_save ts a m e : keeps_rows (saveResponse ts a m e).
Proof.
  intros db k Hk. unfold saveResponse. repeat case_match; try done.
  keep_rows.
Qed.

Lemma keeps_rows_save_correlation ts a c e : keeps_rows (saveResponseForCorrelation ts a c e).
Proof.
  intros db k Hk. unfold saveResponseForCorrelation. repeat case_match; try done.
  keep_rows.
Qed.

Lemma keeps_rows_correlation_sent ts a c i : keeps_rows (markCorrelationSent ts a c i).
Proof.
  intros db k Hk. unfold markCorrelationSent. repeat case_match; try done.
  keep_rows.
Qed.

Lemma keeps_rows_correlation_failed ts a c i err : keeps_rows (markCorrelationFailed ts a c i err).
Proof.
  intros db k Hk. unfold markCorrelationFailed. repeat case_match; try done.
  keep_rows.
Qed.

Lemma discard_other_key a m db k :
  store_inv db -> k <> (a, m) -> is_Some (db !! k) ->
  is_Some ((discardPendingInbound a m db).2 !! k).
Proof.
  intros Hinv Hne [r Hk]. unfold discardPendingInbound. set (w := fun r => _ && _).
  destruct (sql_delete w db) as [db' n] eqn:Hd.
  assert (db' = (sql_delete w db).1) as -> by by rewrite Hd.
  assert (is_Some ((sql_delete w db).1 !! k)) as Hsome; [|by destruct n].
  rewrite lookup_sql_delete, Hk. destruct (w r) eqn:Hw; [|by eexists].
  subst w. simpl in Hw. guards. exfalso. apply Hne.
  pose proof (inv_key _ _ (Hinv _ _ Hk)). congruence.
Qed.

Lemma exec_keeps_row op db k :
  (forall a m, op = OpDiscard a m -> k <> (a, m)) -> store_inv db ->
  is_Some (db !! k) -> is_Some (store_step sha256_json db op !! k).
Proof.
  intros Hop Hinv Hk. unfold store_step. destruct op; simpl.
  - by apply keeps_rows_begin.
  - apply discard_other_key; eauto.
  - keep_rows.
  - by apply keeps_rows_save.
  - keep_rows.
  - keep_rows.
  - by apply keeps_rows_save_correlation.
  - by apply keeps_rows_correlation_sent.
  - by apply keeps_rows_correlation_failed.
Qed.

(** The columns fixed at insertion. *)
Definition identity (r : IdempotencyEntry) : string * string * string :=
  (ie_correlationId r, ie_payloadHash r, ie_conversationKey r).

Lemma row_step_identity k r r' : row_step k (Some r) (Some r') -> identity r' = identity r.
Proof. intros Hstep. by inv Hstep. Qed.

Lemma step_row_identity db op k r :
  (forall a m, op = OpDiscard a m -> k <> (a, m)) -> store_inv db -> db !! k = Some r ->
  exists r', store_step sha256_json db op !! k = Some r' /\ identity r' = identity r.
Proof.
  intros Hop Hinv Hk. destruct (exec_keeps_row op db k Hop Hinv) as [r' Hr']; [by eexists|].
  exists r'. split; [done|]. eapply row_step_identity.
  pose proof (store_step_row sha256_json db op k Hinv) as Hstep. by rewrite Hk, Hr' in Hstep.
Qed.

Lemma run_row_identity ops : forall db k r,
  Forall (fun op => forall a m, op = OpDiscard a m -> k <> (a, m)) ops ->
  store_inv db -> db !! k = Some r ->
  exists r', run (store_step sha256_json) db ops !! k = Some r' /\ identity r' = identity r.
Proof.
  induction ops as [|op ops IH]; intros db k r Hops Hinv Hk; [by exists r|].
  apply Forall_cons in Hops as [Hop Hops].
  destruct (step_row_identity db op k r Hop Hinv Hk) as (r1 & Hk1 & Hid1).
  destruct (IH _ k r1 Hops (store_step_inv sha256_json db op Hinv) Hk1) as (r2 & Hk2 & Hid2).
  exists r2. split; [exact Hk2|congruence].
Qed.

(** A saved response stays, and a sent one stays sent. *)
Lemma row_step_response k r o' e :
  row_step k (Some r) o' -> entry_check r = true -> ie_response r = Some e ->
  exists r', o' = Some r' /\ ie_response r' = Some e /\ identity r' = identity r /\
    (ie_deliveryState r = delivery_sent -> ie_deliveryState r' = delivery_sent).
Proof.
  intros Hstep Hc He. unfold entry_check in Hc. rewrite He in Hc.
  inv Hstep; eauto;
    try (match goal with H : ie_deliveryState r = delivery_pending |- _ => by rewrite H in Hc end);
    eexists; (split; [done|]); split; try done; split; try done; naive_solver congruence.
Qed.

Lemma run_row_response ops : forall db k r e,
  store_inv db -> db !! k = Some r -> ie_response r = Some e ->
  exists r', run (store_step sha256_json) db ops !! k = Some r' /\ ie_response r' = Some e /\
    identity r' = identity r /\
    (ie_deliveryState r = delivery_sent -> ie_deliveryState r' = delivery_sent).
Proof.
  induction ops as [|op ops IH]; intros db k r e Hinv Hk He; [by exists r|].
  pose proof (store_step_row sha256_json db op k Hinv) as Hstep. rewrite Hk in Hstep.
  destruct (row_step_response _ _ _ _ Hstep (inv_check _ _ (Hinv _ _ Hk)) He)
    as (r1 & Hk1 & He1 & Hid1 & Hs1).
  destruct (IH _ k r1 e (store_step_inv sha256_json db op Hinv) Hk1 He1)
    as (r2 & Hk2 & He2 & Hid2 & Hs2).
  exists r2. split; [exact Hk2|]. split; [done|]. split; [congruence|auto].
Qed.

(** [beginInbound] on a valid request, branch by branch. *)
Lemma begin_existing race uuid ts a m c db r :
  a <> "" -> messageId m <> "" -> c <> Some "" -> db !! (a, messageId m) = Some r ->
  beginInbound sha256_json race uuid ts a m c db =
    if String.eqb (ie_payloadHash r) (canonicalPayloadHash sha256_json m)
    then (Ok (classifyExisting r), db)
    else (Throw (IdempotencyConflictError a (messageId m)
            (canonicalPayloadHash sha256_json m) (ie_payloadHash r)), db).
Proof.
  intros Ha Hm Hc Hr. unfold beginInbound, getRaw.
  apply is_empty_false in Ha, Hm. rewrite Ha, Hm, Hr.
  destruct c as [[|]|]; try done; cbn [is_empty]; by destruct (String.eqb _ _).
Qed.

Lemma begin_absent uuid ts a m c db :
  a <> "" -> messageId m <> "" -> c <> Some "" -> db !! (a, messageId m) = None ->
  beginInbound sha256_json id uuid ts a m c db =
    (Ok (created (default uuid c)),
     <[(a, messageId m) := fresh_entry a m (default uuid c)
         (canonicalPayloadHash sha256_json m) ts]> db).
Proof.
  intros Ha Hm Hc Hr. unfold beginInbound, getRaw, id.
  apply is_empty_false in Ha, Hm. rewrite Ha, Hm, Hr.
  destruct c as [[|]|]; try done; cbn [is_empty]; by rewrite sql_insert_fresh.
Qed.

Lemma classify_correlation r : result_correlation (classifyExisting r) = ie_correlationId r.
Proof. unfold classifyExisting. by case_match. Qed.

Lemma phase_row_step k o o' :
  row_step k o o' -> (forall r, o = Some r -> entry_inv k r) -> phase_step (phase o) (phase o').
Proof.
  intros Hstep Hinv. destruct Hstep as [o|a m c h ts|r Hi Hd|ts r Hi|e ts r Hd Ht Hc Hv
    |ts r Hd|err ts r Hd Hl]; [apply phase_stay|apply phase_accept|..];
    destruct (Hinv _ eq_refl) as [_ Hcheck _ _ _]; unfold entry_check in Hcheck;
    unfold phase; simpl; try rewrite Hd in *.
  - destruct (ie_response r); [discriminate|apply phase_rollback].
  - apply phase_stay.
  - rewrite Hc. by apply phase_respond.
  - destruct (ie_response r); [destruct Hd as [-> | ->]; apply phase_deliver|].
    destruct Hd as [Hd|Hd]; by rewrite Hd in Hcheck.
  - destruct (ie_response r); [apply phase_stay|discriminate].
Qed.
End replay.

(** ** Theorems *)

Section theorems.
Variable sha256_json : value -> string.
Implicit Types (db : Store).

(** The table of a store that started empty and ran [ops]. *)
Definition store_after (ops : list store_op) : Store := run (store_step sha256_json) ∅ ops.

Lemma count_deliverable_total id todo es n :
  Forall (fun r => ev_eventId <$> ie_response r = Some id /\
                   ie_deliveryState r <> delivery_pending) es ->
  exists m, count_deliverable id todo es n = Ok m.
Proof.
  intros Hall. revert n. induction Hall as [|r es [Hid Hd] _ IH]; intros n; simpl; [by eexists|].
  rewrite bool_decide_eq_true_2 by done. unfold is_delivery.
  destruct (ie_deliveryState r); try done; simpl; apply IH.
Qed.

(** C1: Every store operation moves every row along the documented life cycle,
    in every reachable table: ingest pending to completed, delivery pending to
    saved to failed or sent, deletion only of a row still pending on both
    tracks; seen from outside, a message is absent, accepted, holds one
    undelivered response, or is delivered for good. *)
Theorem store_refines_lifecycle (ops : list store_op) (op : store_op) (k : string * string) :
  let db := store_after ops in
  row_step k (db !! k) (store_step sha256_json db op !! k) /\
  phase_step (phase (db !! k)) (phase (store_step sha256_json db op !! k)).
Proof.
  intros db. assert (store_inv db) as Hinv by apply store_run_inv.
  pose proof (store_step_row sha256_json db op k Hinv) as Hstep. split; [done|].
  eapply phase_row_step; [done|]. intros r Hr. by apply Hinv.
Qed.

(** In every reachable table each row is stored under its key, satisfies
    the schema's CHECK constraints, carries only a terminal event of its own
    correlation and conversation, has completed ingest once it holds a
    response, and keeps its error text within 2000 code units; and an
    operation that throws leaves the table as it was. *)
Theorem store_reachable_rows (ops : list store_op) (op : store_op) :
  let db := store_after ops in
  store_inv db /\
  (let '(ok, db') := exec sha256_json op db in
   store_inv db' /\ (ok = false -> db' = db)).
Proof.
  intros db. assert (store_inv db) as Hinv by apply store_run_inv. split; [done|].
  pose proof (exec_effect sha256_json op db Hinv) as Heff.
  pose proof (good_effect_inv _ _ Hinv Heff) as Hinv'. destruct Heff as [_ Hfail].
  by destruct (exec sha256_json op db).
Qed.

(** C2: Once a message has been accepted, then whatever happens to the store
    short of discarding that message, a replay of the same payload returns the
    original correlation id and never [created], a different payload under the
    same message id is a conflict, and neither touches the table. *)
Theorem begin_inbound_idempotent
    (ops1 ops2 : list store_op) uuid ts a m c corr uuid2 ts2 m2 c2 :
  let db1 := beginInbound sha256_json id uuid ts a m c (store_after ops1) in
  let db2 := run (store_step sha256_json) db1.2 ops2 in
  db1.1 = Ok (created corr) ->
  Forall (fun op => op <> OpDiscard a (messageId m)) ops2 ->
  messageId m2 = messageId m -> c2 <> Some "" ->
  let h := canonicalPayloadHash sha256_json m in
  let h2 := canonicalPayloadHash sha256_json m2 in
  if decide (h2 = h) then
    exists res, beginInbound sha256_json id uuid2 ts2 a m2 c2 db2 = (Ok res, db2) /\
      result_correlation res = corr /\ forall c', res <> created c'
  else beginInbound sha256_json id uuid2 ts2 a m2 c2 db2 =
         (Throw (IdempotencyConflictError a (messageId m) h2 h), db2).
Proof.
  intros db1 db2 Hcreated Hops Hmid Hc2 h h2.
  assert (store_inv (store_after ops1)) as Hinv by apply store_run_inv.
  assert (store_inv db1.2) as Hinv1.
  { apply (good_effect_inv _ _ Hinv (begin_effect sha256_json uuid ts a m c _)). }
  assert (a <> "" /\ messageId m <> "" /\
    db1.2 !! (a, messageId m) = Some (fresh_entry a m corr h ts)) as (Ha & Hm & Hrow).
  { revert Hcreated. subst db1. unfold beginInbound, getRaw, id.
    repeat case_match; simplify_eq/=; try done; intros; simplify_eq;
      try (by unfold classifyExisting in *; case_match);
      match goal with H : sql_insert _ _ = Some _ |- _ =>
        apply sql_insert_ok in H as (_ & _ & ->) end;
      rewrite <- !is_empty_false; (split; [done|]); (split; [done|]); apply lookup_insert_eq. }
  destruct (run_row_identity sha256_json ops2 db1.2 (a, messageId m) _
    ltac:(by eapply Forall_impl; [exact Hops|]; intros op Hop a' m' -> [= <- <-]) Hinv1 Hrow)
    as (r & Hr & Hid).
  unfold identity in Hid. simpl in Hid. injection Hid as Hcorr Hhash _.
  rewrite <- Hmid in Hr, Hm |- *.
  rewrite (begin_existing sha256_json id uuid2 ts2 a m2 c2 db2 r) by done.
  rewrite Hhash. fold h2. case_decide as Hdec.
  - rewrite Hdec, String.eqb_refl. eexists. split; [done|].
    split; [by rewrite classify_correlation|]. unfold classifyExisting. by case_match.
  - destruct (String.eqb_spec h h2); [congruence|done].
Qed.

(** C3: A write that another connection commits between the read and the
    insert of [beginInbound] is not lost: on a valid request for an absent key
    the call behaves as if it had run after that write. *)
Theorem begin_inbound_linearizable (race : Store -> Store) uuid ts a m c db :
  a <> "" -> messageId m <> "" -> c <> Some "" -> db !! (a, messageId m) = None ->
  beginInbound sha256_json race uuid ts a m c db =
  beginInbound sha256_json id uuid ts a m c (race db).
Proof.
  intros Ha Hm Hc Hnone. destruct (race db !! (a, messageId m)) as [r|] eqn:Hr.
  - rewrite (begin_existing _ id _ _ _ _ _ _ r) by done.
    unfold beginInbound, getRaw. apply is_empty_false in Ha, Hm. rewrite Ha, Hm, Hnone.
    destruct c as [[|]|]; try done; cbn [is_empty]; unfold sql_insert; simpl; by rewrite Hr.
  - rewrite begin_absent by done.
    unfold beginInbound, getRaw. apply is_empty_false in Ha, Hm. rewrite Ha, Hm, Hnone.
    destruct c as [[|]|]; try done; cbn [is_empty]; by rewrite sql_insert_fresh.
Qed.

(** A saved response is never lost or replaced: after any further
    operations the row still holds that event, [getSavedResponse] offers it
    until delivery is confirmed and never afterwards, and a sent row stays
    sent. *)
Theorem saved_response_retained (ops1 ops2 : list store_op) a m r e :
  store_after ops1 !! (a, m) = Some r -> ie_response r = Some e ->
  exists r', store_after (ops1 ++ ops2) !! (a, m) = Some r' /\
    ie_response r' = Some e /\ identity r' = identity r /\
    (ie_deliveryState r = delivery_sent -> ie_deliveryState r' = delivery_sent) /\
    getSavedResponse a m (store_after (ops1 ++ ops2)) =
      if decide (ie_deliveryState r' = delivery_sent) then None else Some e.
Proof.
  intros Hr He. unfold store_after. rewrite run_app.
  assert (store_inv (store_after ops1)) as Hinv by apply store_run_inv.
  destruct (run_row_response sha256_json ops2 _ _ _ _ Hinv Hr He) as (r' & Hr' & He' & Hid & Hs).
  exists r'. do 4 (split; [done|]). unfold getSavedResponse, getRaw. fold (store_after ops1).
  rewrite Hr'. pose proof (store_run_inv sha256_json (ops1 ++ ops2) (a, m) r') as Hi.
  rewrite run_app in Hi. specialize (Hi Hr'). pose proof (inv_check _ _ Hi) as Hc.
  unfold entry_check in Hc. rewrite He' in Hc.
  by destruct (ie_deliveryState r'); case_decide.
Qed.

Lemma save_correlation_rows ts a c e (db db1 : Store) :
  store_inv db ->
  exec sha256_json (OpSaveCorrelation ts a c e) db = (true, db1) ->
  (exists k r, db1 !! k = Some r /\ has_correlation a c r = true) /\
  (forall k r, db1 !! k = Some r -> has_correlation a c r = true ->
    ie_deliveryState r <> delivery_pending /\
    ev_eventId <$> ie_response r = Some (ev_eventId e)).
Proof.
  intros Hinv Hsave. simpl in Hsave. unfold saveResponseForCorrelation in Hsave.
  destruct (isTerminalEventType (event_type e)) eqn:Ht; [|by simplify_eq].
  destruct (String.eqb (ev_correlationId e) c) eqn:Hc; [|by simplify_eq].
  apply String.eqb_eq in Hc. cbn [negb] in Hsave.
  destruct (getEntriesByCorrelation a c db) as [|r0 es] eqn:Hes; [by simplify_eq|].
  assert (exists k0, db !! k0 = Some r0 /\ has_correlation a c r0 = true) as (k0 & Hk0 & Hc0).
  { assert (r0 ∈ getEntriesByCorrelation a c db) as Hin by (rewrite Hes; left).
    apply elem_of_sql_select in Hin as [? [k0 ?]]. eauto. }
  rewrite <- Hes in Hsave.
  destruct (count_pending e (getEntriesByCorrelation a c db) 0) as [n|err] eqn:Hn;
    [|by simplify_eq].
  destruct (save_correlation_steps ts a c e _ db Hc Ht Hn) as [Hcount Hsteps].
  apply count_pending_ok in Hn as [_ Hall]. rewrite Forall_forall in Hall.
  assert (db1 = (fun r => if has_correlation a c r && is_delivery delivery_pending r
                          then set_saved e ts r else r) <$> db) as ->.
  { destruct n as [|n].
    - simpl in Hsave. injection Hsave as <-. symmetry. by apply update_none_selected.
    - rewrite (update_exactly_effect _ (set_saved e ts) (S n)) in Hsave by done.
      by simplify_eq. }
  split.
  - exists k0. rewrite lookup_fmap, Hk0. eexists. split; [done|].
    cbn beta. by destruct (has_correlation a c r0 && is_delivery delivery_pending r0).
  - intros k r. rewrite lookup_fmap, fmap_Some. intros (r1 & Hr1 & ->).
    destruct (has_correlation a c r1 && is_delivery delivery_pending r1) eqn:Hw; [done|].
    intros Hc1. rewrite Hc1 in Hw. simpl in Hw. guards. split; [done|].
    apply Hall.
    + apply elem_of_sql_select. split; [by apply has_correlation_spec|by exists k].
    + done.
Qed.

(** Saving a terminal event for a correlation is all or nothing, and it is
    what confirming needs: after a successful save every row of the correlation
    has completed ingest and holds that event, and [markCorrelationSent] with
    its id then succeeds and leaves every row sent. *)
Theorem correlation_save_then_sent (ops : list store_op) ts ts2 a c e :
  let db := store_after ops in
  let '(ok, db1) := exec sha256_json (OpSaveCorrelation ts a c e) db in
  let '(ok2, db2) := exec sha256_json (OpCorrelationSent ts2 a c (ev_eventId e)) db1 in
  ok = true ->
  (exists k r, db1 !! k = Some r /\ has_correlation a c r = true) /\
  (forall k r, db1 !! k = Some r -> has_correlation a c r = true ->
     ie_ingestState r = ingest_completed /\
     ev_eventId <$> ie_response r = Some (ev_eventId e)) /\
  ok2 = true /\
  (forall k r, db2 !! k = Some r -> has_correlation a c r = true ->
     ie_deliveryState r = delivery_sent).
Proof.
  intros db. assert (store_inv db) as Hinv by apply store_run_inv.
  pose proof (save_correlation_effect sha256_json ts a c e db Hinv) as Heff.
  pose proof (good_effect_inv _ _ Hinv Heff) as Hinv1. revert Hinv1 Heff.
  destruct (exec sha256_json (OpSaveCorrelation ts a c e) db) as [ok db1] eqn:Hsave.
  destruct (exec sha256_json (OpCorrelationSent ts2 a c (ev_eventId e)) db1) as [ok2 db2] eqn:Hsent.
  simpl. intros Hinv1 _ ->.
  destruct (save_correlation_rows ts a c e db db1 Hinv Hsave) as [Hex Hrows].
  assert (Forall (fun r => ev_eventId <$> ie_response r = Some (ev_eventId e) /\
     ie_deliveryState r <> delivery_pending) (getEntriesByCorrelation a c db1)) as Hall.
  { apply Forall_forall. intros r [Hc [k Hk]]%elem_of_sql_select.
    destruct (Hrows k r Hk Hc). by split. }
  destruct (count_deliverable_total (ev_eventId e) (fun r => negb (is_delivery delivery_sent r))
    _ 0 Hall) as [n Hn].
  simpl in Hsent. rewrite (markCorrelationSent_accepted ts2 a c _ n db1 Hinv1 Hn) in Hsent.
  simplify_eq. split; [done|]. split.
  { intros k r Hk Hc. destruct (Hrows k r Hk Hc) as [Hd Hid]. split; [|done].
    by apply (inv_ingest k r (Hinv1 k r Hk)). }
  split; [done|]. cbn [snd]. intros k r. rewrite lookup_fmap, fmap_Some. intros (r1 & Hr1 & ->) Hc.
  unfold unsent_of in *. destruct (has_correlation a c r1) eqn:Hc1; simpl in *; [|congruence].
  destruct (Hrows k r1 Hr1 Hc1) as [Hd _]. unfold is_delivery in *.
  by destruct (ie_deliveryState r1) eqn:Hd1.
Qed.
End theorems.

(** ** Witnesses *)

Definition demo_hash (v : value) : string :=
  match as_record v with
  | Some ps => default "" (as_string (prop "text" ps))
  | None => ""
  end.

Definition demo_message (text : string) : InboundMessage :=
  mkMessage "m1" "conv" None (mkSpeaker "u1" "Ada") text [] true.

Definition demo_event (body : EventBody) : OutboundEvent :=
  mkEvent "e1" "conv" "c1" 2 1000 body.

Definition demo_ops : list store_op :=
  [OpBegin "c1" 10 "http" (demo_message "hi") None;
   OpSave 20 "http" "m1" (demo_event (turn_error "x" "y" true))].

Lemma begin_inbound_idempotent_witness :
  let m2 := demo_message "hi" in
  exists res, (beginInbound demo_hash id "c9" 50 "http" m2 None
     (store_after demo_hash (demo_ops ++ [OpIngestComplete 30 "http" "m1"]))).1 = Ok res /\
    result_correlation res = "c1".
Proof.
  pose proof (begin_inbound_idempotent demo_hash []
    [OpSave 20 "http" "m1" (demo_event (turn_error "x" "y" true));
     OpIngestComplete 30 "http" "m1"]
    "c1" 10 "http" (demo_message "hi") None "c1" "c9" 50 (demo_message "hi") None
    ltac:(vm_compute; reflexivity)
    ltac:(repeat constructor; discriminate) ltac:(reflexivity) ltac:(discriminate)) as H.
  rewrite decide_True in H by reflexivity. destruct H as (res & Hb & Hc & _).
  exists res. split; [|exact Hc].
  match type of Hb with ?x = _ => transitivity x.1; [reflexivity|] end. by rewrite Hb.
Defined.

Lemma begin_inbound_linearizable_witness :
  let race := fun _ => store_after demo_hash demo_ops in
  (beginInbound demo_hash race "c2" 60 "http" (demo_message "other") None ∅).1 =
  Throw (IdempotencyConflictError "http" "m1" "other" "hi").
Proof.
  simpl. rewrite (begin_inbound_linearizable demo_hash (fun _ => store_after demo_hash demo_ops)
    "c2" 60 "http" (demo_message "other") None ∅);
    [vm_compute; reflexivity|discriminate|discriminate|discriminate|reflexivity].
Defined.

Lemma saved_response_retained_witness :
  exists r', store_after demo_hash (demo_ops ++ [OpSent 40 "http" "m1"]) !! ("http", "m1") = Some r' /\
    ie_response r' = Some (demo_event (turn_error "x" "y" true)).
Proof.
  destruct (store_after demo_hash demo_ops !! ("http", "m1")) as [r|] eqn:Hr;
    [|vm_compute in Hr; discriminate].
  assert (ie_response r = Some (demo_event (turn_error "x" "y" true))) as He
    by (vm_compute in Hr; injection Hr as <-; reflexivity).
  destruct (saved_response_retained demo_hash demo_ops [OpSent 40 "http" "m1"] "http" "m1" r _ Hr He)
    as (r' & Hr' & He' & _).
  exists r'. split; assumption.
Defined.

Lemma correlation_save_then_sent_witness :
  exists db2 : Store, (forall k r, db2 !! k = Some r -> has_correlation "http" "c1" r = true ->
     ie_deliveryState r = delivery_sent) /\ db2 !! ("http", "m1") <> None.
Proof.
  pose proof (correlation_save_then_sent demo_hash
    [OpBegin "c1" 10 "http" (demo_message "hi") None] 20 30 "http" "c1"
    (demo_event (turn_error "x" "y" true))) as H. cbv zeta in H.
  destruct (exec demo_hash (OpSaveCorrelation 20 "http" "c1" _) _) as [ok db1] eqn:H1.
  assert (ok = true) as -> by (apply (f_equal fst) in H1; by vm_compute in H1).
  destruct (exec demo_hash (OpCorrelationSent 30 "http" "c1" _) db1) as [ok2 db2] eqn:H2.
  exists db2. split; [by apply H|].
  apply (f_equal snd) in H1, H2. cbn [snd] in H1, H2. subst db1 db2. clear H.
  intros Hn. by vm_compute in Hn.
Defined.
