(* ===== verification/IngestBuffer.v ===== *)
(** * Ingest buffer

    packages/core/src/ingest-buffer.ts: per-conversation backlog, engagement
    window and activation decision.  The clock reading [now()] is an argument
    of each operation; times are integer milliseconds, as Date.now() and the
    integer configuration give them. *)

From S2P Require Import Prelude JsString JsValue JsMap Contracts AdapterRegistry.
From stdpp Require Import options.
#[local] Open Scope Z_scope.

Inductive ActivationMode : Type := mode_prompt | mode_steer | mode_followUp.

Record BufferedRecord : Type := mkRecord {
  rec_adapterId : string;
  rec_conversationKey : string;
  rec_messageId : string;
  rec_speaker : Speaker;
  rec_text : string;
  rec_attachments : list WorkspaceAttachment;
  rec_addressed : bool;
  rec_receivedAt : Z;
}.

Inductive IngestResult : Type :=
| buffered (record : BufferedRecord) (backlogDepth : nat)
| activate (mode : ActivationMode) (records : list BufferedRecord) (prompt : string).

Record ConversationStatus : Type := mkStatus {
  cs_active : bool;
  cs_backlogDepth : nat;
  cs_windowDeadline : option Z;
}.

Record SettledActivation : Type := mkSettled {
  settled_adapterId : string;
  settled_conversationKey : string;
  settled_records : list BufferedRecord;
  settled_prompt : string;
}.

Record ConversationState : Type := mkConversation {
  backlog : list BufferedRecord;
  windowDeadline : option Z;
  lastArrivalAt : Z;
}.

(** [this.states] *)
Abbreviation States := (list (string * ConversationState)).

Inductive BufferError : Type := TypeError (message : string) | BufferRangeError (message : string).

Definition compositeKey : string -> string -> string := conversationStorageKey.

Definition newline : string := String (Ascii.ascii_of_nat 10) "".

(** A JavaScript string field that is present and not empty. *)
Definition truthy (o : option string) : option string :=
  match o with Some "" | None => None | Some s => Some s end.

Definition renderAttachment (a : WorkspaceAttachment) : string :=
  ("  - " +:+ att_path a +:+
   match truthy (att_name a) with Some n => " [name: " +:+ n +:+ "]" | None => "" end +:+
   match truthy (att_mediaType a) with Some t => " [mediaType: " +:+ t +:+ "]" | None => "" end)%stdpp.

(** [renderRecord(record)] *)
Definition renderRecord (r : BufferedRecord) : string :=
  join newline
    ((displayName (rec_speaker r) +:+ " (id: " +:+ speaker_id (rec_speaker r) +:+ ")")%stdpp ::
     (if is_empty (rec_text r) then [] else [rec_text r]) ++
     map renderAttachment (rec_attachments r)).

(** [renderPrompt(records)] *)
Definition renderPrompt (records : list BufferedRecord) : string :=
  join (newline +:+ newline)%stdpp (map renderRecord records).

Definition isActive (state : ConversationState) (now : Z) : bool :=
  match windowDeadline state with Some d => now <? d | None => false end.

Definition toRecord (adapterId : string) (message : InboundMessage) (receivedAt : Z) :
    BufferedRecord :=
  mkRecord adapterId (conversationKey message) (messageId message)
    (mkSpeaker (speaker_id (speaker message)) (displayName (speaker message)))
    (msg_text message)
    (map (fun a => mkAttachment (att_path a) (att_name a) (att_mediaType a))
       (Contracts.attachments message))
    (addressed message) receivedAt.

Definition initial_state : ConversationState := mkConversation [] None 0.

(** [stateFor(key)] *)
Definition stateFor (key : string) (states : States) : ConversationState :=
  match jget key states with Some existing => existing | None => initial_state end.

(** The checks of the constructor; an option that is not a number fails
    [typeof], and [now_is_function] says what [typeof now] answers. *)
Definition new_IngestBuffer (options : option (value * value * bool)) :
    result BufferError (number * number) :=
  match options with
  | None => Throw (TypeError "IngestBufferOptions is required")
  | Some (engagementWindowMs, quietPeriodMs, now_is_function) =>
      match engagementWindowMs with
      | VNumber w =>
          if negb (num_is_finite w) || num_leb w num_zero then
            Throw (BufferRangeError "engagementWindowMs")
          else
            match quietPeriodMs with
            | VNumber q =>
                if negb (num_is_finite q) || num_ltb q num_zero then
                  Throw (BufferRangeError "quietPeriodMs")
                else if negb now_is_function then Throw (TypeError "now")
                else Ok (w, q)
            | _ => Throw (BufferRangeError "quietPeriodMs")
            end
      | _ => Throw (BufferRangeError "engagementWindowMs")
      end
  end.

Section buffer.
Variables engagementWindowMs quietPeriodMs : Z.

(** [ingest(adapterId, message, streaming)] *)
Definition ingest (now : Z) (adapterId : string) (message : InboundMessage) (streaming : bool)
    (states : States) : IngestResult * States :=
  let key := compositeKey adapterId (conversationKey message) in
  let receivedAt := now in
  let record := toRecord adapterId message receivedAt in
  let state := stateFor key states in
  let sinceLastArrival := receivedAt - lastArrivalAt state in
  if addressed message then
    let records := backlog state ++ [record] in
    (activate (if streaming then mode_steer else mode_prompt) records (renderPrompt records),
     jset key (mkConversation [] (Some (receivedAt + engagementWindowMs)) receivedAt) states)
  else if isActive state receivedAt then
    if (0 <? quietPeriodMs) && (sinceLastArrival <? quietPeriodMs) then
      let backlog' := backlog state ++ [record] in
      (buffered record (length backlog'),
       jset key (mkConversation backlog' (windowDeadline state) receivedAt) states)
    else
      let records := backlog state ++ [record] in
      (activate (if streaming then mode_followUp else mode_prompt) records (renderPrompt records),
       jset key (mkConversation [] (Some (receivedAt + engagementWindowMs)) receivedAt) states)
  else
    let backlog' := backlog state ++ [record] in
    (buffered record (length backlog'),
     jset key (mkConversation backlog' None receivedAt) states).

(** The test the loop of [sweepSettled] makes on one conversation. *)
Definition is_due (now : Z) (state : ConversationState) : bool :=
  match backlog state with
  | [] => false
  | _ :: _ =>
      if now - lastArrivalAt state <? quietPeriodMs then false else isActive state now
  end.

(** The loop: replacing the state of a present key keeps its position. *)
Fixpoint sweep_loop (now : Z) (states : States) : list SettledActivation * States :=
  match states with
  | [] => ([], [])
  | (key, state) :: states =>
      let '(due, states') := sweep_loop now states in
      match backlog state with
      | (first :: _) as records =>
          if is_due now state then
            (mkSettled (rec_adapterId first) (rec_conversationKey first) records
               (renderPrompt records) :: due,
             (key, mkConversation [] (Some (now + engagementWindowMs)) (lastArrivalAt state))
               :: states')
          else (due, (key, state) :: states')
      | [] => (due, (key, state) :: states')
      end
  end.

(** [sweepSettled()] *)
Definition sweepSettled (now : Z) (states : States) : list SettledActivation * States :=
  if quietPeriodMs <=? 0 then ([], states) else sweep_loop now states.

(** [dismiss(adapterId, conversationKey)] *)
Definition dismiss (now : Z) (adapterId conversationKey : string) (states : States) :
    bool * States :=
  let key := compositeKey adapterId conversationKey in
  match jget key states with
  | None => (false, states)
  | Some state =>
      match windowDeadline state with
      | None => (false, states)
      | Some _ =>
          let closed := mkConversation (backlog state) None (lastArrivalAt state) in
          (isActive state now, jset key closed states)
      end
  end.

(** [recordInteraction(adapterId, conversationKey)] *)
Definition recordInteraction (now : Z) (adapterId conversationKey : string) (states : States) :
    bool * States :=
  let key := compositeKey adapterId conversationKey in
  match jget key states with
  | None => (false, states)
  | Some state =>
      if negb (isActive state now) then (false, states)
      else (true, jset key (mkConversation (backlog state) (Some (now + engagementWindowMs))
                              (lastArrivalAt state)) states)
  end.

(** [inspect(adapterId, conversationKey)], which prunes an expired deadline. *)
Definition inspect (now : Z) (adapterId conversationKey : string) (states : States) :
    ConversationStatus * States :=
  let key := compositeKey adapterId conversationKey in
  match jget key states with
  | None => (mkStatus false 0 None, states)
  | Some state =>
      let active := isActive state now in
      let states' :=
        if negb active && bool_decide (is_Some (windowDeadline state))
        then jset key (mkConversation (backlog state) None (lastArrivalAt state)) states
        else states in
      (mkStatus active (length (backlog state))
         (if active then windowDeadline state else None), states')
  end.

(** ** Operations as one step function *)

Inductive buffer_op : Type :=
| BIngest (now : Z) (adapterId : string) (message : InboundMessage) (streaming : bool)
| BSweep (now : Z)
| BDismiss (now : Z) (adapterId conversationKey : string)
| BInteraction (now : Z) (adapterId conversationKey : string)
| BInspect (now : Z) (adapterId conversationKey : string).

(** The records an operation hands to a turn. *)
Definition flushed_by (r : IngestResult) : list BufferedRecord :=
  match r with activate _ records _ => records | buffered _ _ => [] end.

Definition buffer_exec (states : States) (op : buffer_op) : list BufferedRecord * States :=
  match op with
  | BIngest now a m s =>
      let '(r, states') := ingest now a m s states in (flushed_by r, states')
  | BSweep now =>
      let '(due, states') := sweepSettled now states in
      (flat_map settled_records due, states')
  | BDismiss now a c => ([], (dismiss now a c states).2)
  | BInteraction now a c => ([], (recordInteraction now a c states).2)
  | BInspect now a c => ([], (inspect now a c states).2)
  end.

(** A run: everything flushed so far, in order, and the states. *)
Definition buffer_step (s : list BufferedRecord * States) (op : buffer_op) :
    list BufferedRecord * States :=
  let '(out, states') := buffer_exec s.2 op in (s.1 ++ out, states').

Definition buffer_run (ops : list buffer_op) : list BufferedRecord * States :=
  run buffer_step ([], []) ops.

(** ** Specification: one conversation on its own *)

(** A record of the conversation [(a, c)]. *)
Definition belongs (a c : string) (r : BufferedRecord) : bool :=
  String.eqb (rec_adapterId r) a && String.eqb (rec_conversationKey r) c.

(** A conversation releases its backlog when it is addressed, or engaged and
    not in the middle of a fast exchange; holding never loses a record. *)
Definition conv_arrival (st : ConversationState) (now : Z) (r : BufferedRecord) :
    list BufferedRecord * ConversationState :=
  let engaged := isActive st now in
  let busy := (0 <? quietPeriodMs) && (now - lastArrivalAt st <? quietPeriodMs) in
  if rec_addressed r || (engaged && negb busy) then
    (backlog st ++ [r], mkConversation [] (Some (now + engagementWindowMs)) now)
  else
    ([], mkConversation (backlog st ++ [r]) (if engaged then windowDeadline st else None) now).

Definition close_window (st : ConversationState) : ConversationState :=
  mkConversation (backlog st) None (lastArrivalAt st).

Definition conv_exec (a c : string) (st : ConversationState) (op : buffer_op) :
    list BufferedRecord * ConversationState :=
  match op with
  | BIngest now a' m _ =>
      if bool_decide ((a', conversationKey m) = (a, c))
      then conv_arrival st now (toRecord a m now) else ([], st)
  | BSweep now =>
      if (0 <? quietPeriodMs) && is_due now st
      then (backlog st, mkConversation [] (Some (now + engagementWindowMs)) (lastArrivalAt st))
      else ([], st)
  | BDismiss _ a' c' => ([], if bool_decide ((a', c') = (a, c)) then close_window st else st)
  | BInteraction now a' c' =>
      ([], if bool_decide ((a', c') = (a, c)) && isActive st now
           then mkConversation (backlog st) (Some (now + engagementWindowMs)) (lastArrivalAt st)
           else st)
  | BInspect now a' c' =>
      ([], if bool_decide ((a', c') = (a, c)) && negb (isActive st now)
           then close_window st else st)
  end.

Definition conv_step (a c : string) (s : list BufferedRecord * ConversationState)
    (op : buffer_op) : list BufferedRecord * ConversationState :=
  let '(out, st) := conv_exec a c s.2 op in (s.1 ++ out, st).

Definition conv_run (a c : string) (ops : list buffer_op) :
    list BufferedRecord * ConversationState :=
  run (conv_step a c) ([], initial_state) ops.

(** The records that arrived for the conversation. *)
Definition arrivals (a c : string) (ops : list buffer_op) : list BufferedRecord :=
  omap (fun op => match op with
                  | BIngest now a' m _ =>
                      if bool_decide ((a', conversationKey m) = (a, c))
                      then Some (toRecord a m now) else None
                  | _ => None
                  end) ops.

(** Every stored backlog holds records of the conversation it is stored under. *)
Definition states_ok (states : States) : Prop :=
  NoDup (jkeys states) /\
  Forall (fun kv => exists a c, kv.1 = compositeKey a c /\
            Forall (fun r => belongs a c r = true) (backlog kv.2)) states.

(** ** Lemmas *)

Lemma belongs_toRecord a m now : belongs a (conversationKey m) (toRecord a m now) = true.
Proof. unfold belongs. simpl. by rewrite !String.eqb_refl. Qed.

Lemma belongs_spec a c r :
  belongs a c r = true <-> rec_adapterId r = a /\ rec_conversationKey r = c.
Proof. unfold belongs. by rewrite andb_true_iff, !String.eqb_eq. Qed.

Lemma filter_belongs_all a c rs :
  Forall (fun r => belongs a c r = true) rs -> List.filter (belongs a c) rs = rs.
Proof. induction 1 as [|r rs Hr _ IH]; [done|]. simpl. by rewrite Hr, IH. Qed.

Lemma filter_belongs_none a c a' c' rs :
  (a', c') <> (a, c) -> Forall (fun r => belongs a' c' r = true) rs ->
  List.filter (belongs a c) rs = [].
Proof.
  intros Hne. induction 1 as [|r rs Hr _ IH]; [done|]. simpl.
  destruct (belongs a c r) eqn:Hb; [|done]. apply belongs_spec in Hr, Hb. destruct Hr, Hb. congruence.
Qed.

Lemma states_ok_get states k st :
  states_ok states -> jget k states = Some st ->
  exists a c, k = compositeKey a c /\ Forall (fun r => belongs a c r = true) (backlog st).
Proof.
  intros [_ Hall] Hg%jget_elem_of. rewrite Forall_forall in Hall. by apply (Hall (k, st)).
Qed.

Lemma states_ok_stateFor states a c :
  states_ok states ->
  Forall (fun r => belongs a c r = true) (backlog (stateFor (compositeKey a c) states)).
Proof.
  intros Hok. unfold stateFor. destruct (jget _ states) as [st|] eqn:Hg; [|constructor].
  destruct (states_ok_get _ _ _ Hok Hg) as (a' & c' & Hk & Hall).
  apply (inj2 conversationStorageKey) in Hk as [-> ->]. done.
Qed.

Lemma states_ok_set states a c st :
  states_ok states -> Forall (fun r => belongs a c r = true) (backlog st) ->
  states_ok (jset (compositeKey a c) st states).
Proof.
  intros [Hnd Hall] Hst. split; [by apply NoDup_jset|].
  assert (exists a' c', compositeKey a c = compositeKey a' c' /\
            Forall (fun r => belongs a' c' r = true) (backlog st)) as Hnew by eauto.
  clear Hnd Hst. induction Hall as [|[k s] states Hs Hall IH]; simpl.
  - by constructor.
  - case_decide; constructor; auto; subst. exact Hnew.
Qed.

Lemma stateFor_set k k' st states :
  stateFor k (jset k' st states) = if decide (k = k') then st else stateFor k states.
Proof. unfold stateFor. rewrite jget_set. by case_decide. Qed.

Lemma compositeKey_decide {A} a c a' c' (x y : A) :
  (if decide (compositeKey a c = compositeKey a' c') then x else y) =
  (if bool_decide ((a', c') = (a, c)) then x else y).
Proof.
  destruct (decide (compositeKey a c = compositeKey a' c')) as [Hk|Hk].
  - apply (inj2 conversationStorageKey) in Hk as [-> ->]. by rewrite bool_decide_eq_true_2.
  - rewrite bool_decide_eq_false_2; [done|]. congruence.
Qed.

(** The loop is a map over the conversations. *)
Definition swept (now : Z) (st : ConversationState) : ConversationState :=
  if is_due now st
  then mkConversation [] (Some (now + engagementWindowMs)) (lastArrivalAt st) else st.

Definition released (now : Z) (st : ConversationState) : list BufferedRecord :=
  if is_due now st then backlog st else [].

Lemma is_due_backlog now st : is_due now st = true -> backlog st <> [].
Proof. unfold is_due. by destruct (backlog st). Qed.

Lemma sweep_loop_states now states :
  (sweep_loop now states).2 = map (fun kv => (kv.1, swept now kv.2)) states.
Proof.
  induction states as [|[k st] states IH]; [done|]. cbn [sweep_loop map fst snd]. rewrite <- IH.
  destruct (sweep_loop now states) as [due states']. unfold swept.
  destruct (backlog st) eqn:Hb; destruct (is_due now st) eqn:Hd; try done.
  by apply is_due_backlog in Hd.
Qed.

Lemma sweep_loop_records now states :
  flat_map settled_records (sweep_loop now states).1 =
  flat_map (fun kv => released now kv.2) states.
Proof.
  induction states as [|[k st] states IH]; [done|]. cbn [sweep_loop flat_map fst snd].
  rewrite <- IH. destruct (sweep_loop now states) as [due states']. unfold released.
  destruct (backlog st) eqn:Hb; destruct (is_due now st) eqn:Hd; done.
Qed.

Lemma stateFor_swept now k states :
  stateFor k (map (fun kv => (kv.1, swept now kv.2)) states) = swept now (stateFor k states).
Proof.
  unfold stateFor. induction states as [|[k' st] states IH]; [done|]. simpl.
  by case_decide.
Qed.

Lemma swept_ok now states :
  states_ok states -> states_ok (map (fun kv => (kv.1, swept now kv.2)) states).
Proof.
  intros [Hnd Hall]. split.
  - unfold jkeys in *. by rewrite <- list_fmap_compose.
  - apply Forall_fmap. eapply Forall_impl; [exact Hall|].
    intros [k st] (a & c & Hk & Hb). exists a, c. split; [done|]. simpl. unfold swept.
    by case_match.
Qed.

(** Among all the records a sweep releases, those of one conversation are what
    that conversation alone releases. *)
Lemma released_of a c now states :
  states_ok states ->
  List.filter (belongs a c) (flat_map (fun kv => released now kv.2) states) =
  released now (stateFor (compositeKey a c) states).
Proof.
  intros [Hnd Hall]. unfold stateFor, jkeys in *.
  induction Hall as [|[k st] states (a' & c' & Hk & Hb) Hall IH]; [done|].
  simpl in Hnd. inv Hnd. cbn [flat_map fst snd jget] in *. rewrite List.filter_app.
  assert (Forall (fun r => belongs a' c' r = true) (released now st)) as Hrel
    by (unfold released; destruct (is_due now st); [exact Hb|constructor]).
  case_decide as Heq; subst.
  - apply (inj2 conversationStorageKey) in Heq as [-> ->].
    rewrite (filter_belongs_all a' c') by done. rewrite IH by done.
    assert (jget (compositeKey a' c') states = None) as -> by by apply jget_None.
    apply app_nil_r.
  - rewrite (filter_belongs_none a c a' c') by (congruence || done). by apply IH.
Qed.

Lemma conv_arrival_ok a c st now r :
  belongs a c r = true -> Forall (fun r => belongs a c r = true) (backlog st) ->
  Forall (fun r => belongs a c r = true) (conv_arrival st now r).1 /\
  Forall (fun r => belongs a c r = true) (backlog (conv_arrival st now r).2).
Proof.
  intros Hr Hst. unfold conv_arrival. case_match; simpl; (split; [|constructor]) || (split; [constructor|]);
    apply Forall_app; auto.
Qed.

(** [ingest] is the specification's arrival on its own conversation. *)
Lemma ingest_spec now a m s states :
  let key := compositeKey a (conversationKey m) in
  let '(r, states') := ingest now a m s states in
  let '(out, st') := conv_arrival (stateFor key states) now (toRecord a m now) in
  flushed_by r = out /\ states' = jset key st' states.
Proof.
  cbv zeta. unfold ingest, conv_arrival. cbn [rec_addressed toRecord].
  destruct (addressed m); [done|].
  destruct (isActive _ now) eqn:Ha; cbn [orb andb]; [|done].
  destruct ((0 <? quietPeriodMs) && _); done.
Qed.

(** An operation that updates the state of one conversation, if at all. *)
Definition local_update (a c : string) (f : ConversationState -> ConversationState)
    (states states' : States) : Prop :=
  let st := stateFor (compositeKey a c) states in
  states' = jset (compositeKey a c) (f st) states \/ (states' = states /\ f st = st).

Lemma local_update_ok a c a' c' f states states' :
  states_ok states -> (forall st, backlog (f st) = backlog st) ->
  local_update a' c' f states states' ->
  states_ok states' /\
  stateFor (compositeKey a c) states' =
    if bool_decide ((a', c') = (a, c)) then f (stateFor (compositeKey a c) states)
    else stateFor (compositeKey a c) states.
Proof.
  intros Hok Hf [->|[-> Heq]].
  - split.
    + apply states_ok_set; [done|]. rewrite Hf. by apply states_ok_stateFor.
    + rewrite stateFor_set, compositeKey_decide. case_bool_decide; [|done]. by simplify_eq.
  - split; [done|]. case_bool_decide; [|done]. by simplify_eq.
Qed.

Ltac at_key :=
  unfold local_update, stateFor;
  match goal with |- context [jget ?k ?m] =>
    destruct (jget k m) as [[rs [d|] last]|] eqn:Hget; cbn; auto end.

Lemma dismiss_update now a c states :
  local_update a c close_window states (dismiss now a c states).2.
Proof. unfold dismiss. at_key. Qed.

Definition extend_window (now : Z) (st : ConversationState) : ConversationState :=
  if isActive st now
  then mkConversation (backlog st) (Some (now + engagementWindowMs)) (lastArrivalAt st) else st.

Lemma interaction_update now a c states :
  local_update a c (extend_window now) states (recordInteraction now a c states).2.
Proof.
  unfold recordInteraction, extend_window, isActive. at_key. destruct (now <? d); cbn; auto.
Qed.

Definition prune_window (now : Z) (st : ConversationState) : ConversationState :=
  if isActive st now then st else close_window st.

Lemma inspect_update now a c states :
  local_update a c (prune_window now) states (inspect now a c states).2.
Proof.
  unfold inspect, prune_window, isActive. at_key. destruct (now <? d); cbn; auto.
Qed.

Lemma sweep_refines a c now states :
  states_ok states ->
  let '(due, states') := sweepSettled now states in
  states_ok states' /\
  List.filter (belongs a c) (flat_map settled_records due) =
    (conv_exec a c (stateFor (compositeKey a c) states) (BSweep now)).1 /\
  stateFor (compositeKey a c) states' =
    (conv_exec a c (stateFor (compositeKey a c) states) (BSweep now)).2.
Proof.
  intros Hok. unfold sweepSettled. cbn [conv_exec].
  destruct (quietPeriodMs <=? 0) eqn:Hq; bools.
  - rewrite (proj2 (Z.ltb_ge _ _)) by lia. done.
  - rewrite (proj2 (Z.ltb_lt _ _)) by lia. cbn [andb].
    pose proof (sweep_loop_states now states) as Hs.
    pose proof (sweep_loop_records now states) as Hr.
    destruct (sweep_loop now states) as [due states']. cbn [fst snd] in Hs, Hr. subst states'.
    rewrite Hr, released_of, stateFor_swept by done. unfold released, swept.
    split; [by apply swept_ok|]. by destruct (is_due now (stateFor _ states)).
Qed.

Lemma ingest_refines a c now a' m s states :
  states_ok states ->
  let '(r, states') := ingest now a' m s states in
  states_ok states' /\
  List.filter (belongs a c) (flushed_by r) =
    (conv_exec a c (stateFor (compositeKey a c) states) (BIngest now a' m s)).1 /\
  stateFor (compositeKey a c) states' =
    (conv_exec a c (stateFor (compositeKey a c) states) (BIngest now a' m s)).2.
Proof.
  intros Hok. pose proof (ingest_spec now a' m s states) as Hspec. cbv zeta in Hspec.
  pose proof (conv_arrival_ok a' (conversationKey m) _ now _ (belongs_toRecord a' m now)
    (states_ok_stateFor states a' (conversationKey m) Hok)) as [Hout Hst].
  cbn [conv_exec]. destruct (ingest now a' m s states) as [r states'].
  case_bool_decide as Heq.
  - injection Heq as -> <-. destruct (conv_arrival _ _ _) as [out st'].
    destruct Hspec as [-> ->]. split; [by apply states_ok_set|].
    rewrite filter_belongs_all by done. split; [done|]. rewrite stateFor_set.
    by rewrite decide_True.
  - destruct (conv_arrival _ _ _) as [out st']. destruct Hspec as [-> ->].
    split; [by apply states_ok_set|].
    rewrite (filter_belongs_none a c a' (conversationKey m)) by done. split; [done|].
    rewrite stateFor_set, compositeKey_decide. by rewrite bool_decide_eq_false_2.
Qed.

(** Every operation acts on each conversation as on that conversation alone. *)
Lemma buffer_exec_refines a c states op :
  states_ok states ->
  let '(out, states') := buffer_exec states op in
  let '(out1, st1) := conv_exec a c (stateFor (compositeKey a c) states) op in
  states_ok states' /\ List.filter (belongs a c) out = out1 /\
  stateFor (compositeKey a c) states' = st1.
Proof.
  intros Hok. destruct op as [now a' m s|now|now a' c'|now a' c'|now a' c']; cbn [buffer_exec].
  - pose proof (ingest_refines a c now a' m s states Hok).
    destruct (ingest _ _ _ _ _), (conv_exec _ _ _ _). done.
  - pose proof (sweep_refines a c now states Hok).
    destruct (sweepSettled _ _), (conv_exec _ _ _ _). done.
  - destruct (local_update_ok a c a' c' close_window _ _ Hok (fun st => eq_refl) (dismiss_update now a' c' states))
      as [? ->]. done.
  - destruct (local_update_ok a c a' c' (extend_window now) _ _ Hok
      ltac:(intros st; unfold extend_window; by case_match) (interaction_update now a' c' states))
      as [? ->]. cbn [conv_exec]. unfold extend_window. case_bool_decide; done.
  - destruct (local_update_ok a c a' c' (prune_window now) _ _ Hok
      ltac:(intros st; unfold prune_window; by case_match) (inspect_update now a' c' states))
      as [? ->]. cbn [conv_exec]. unfold prune_window. case_bool_decide; [|done].
    cbn [andb]. by destruct (isActive _ now).
Qed.

Lemma buffer_run_refines_from a c ops log states log1 :
  states_ok states -> List.filter (belongs a c) log = log1 ->
  let r := run buffer_step (log, states) ops in
  let r1 := run (conv_step a c) (log1, stateFor (compositeKey a c) states) ops in
  states_ok r.2 /\ List.filter (belongs a c) r.1 = r1.1 /\
  stateFor (compositeKey a c) r.2 = r1.2.
Proof.
  revert log states log1. induction ops as [|op ops IH]; intros log states log1 Hok Hlog; [done|].
  cbv zeta. rewrite !run_cons. unfold buffer_step at 2 4 6, conv_step at 2 4. cbn [fst snd].
  pose proof (buffer_exec_refines a c states op Hok) as Hstep.
  destruct (buffer_exec states op) as [out states'], (conv_exec _ _ _ _) as [out1 st1].
  destruct Hstep as (Hok' & Hout & <-). apply IH; [done|].
  by rewrite List.filter_app, Hlog, Hout.
Qed.

Lemma states_ok_nil : states_ok [].
Proof. split; constructor. Qed.

Lemma buffer_run_refines a c ops :
  states_ok (buffer_run ops).2 /\
  List.filter (belongs a c) (buffer_run ops).1 = (conv_run a c ops).1 /\
  stateFor (compositeKey a c) (buffer_run ops).2 = (conv_run a c ops).2.
Proof. exact (buffer_run_refines_from a c ops [] [] [] states_ok_nil eq_refl). Qed.

Lemma conv_exec_conserves a c st op :
  let '(out, st') := conv_exec a c st op in
  out ++ backlog st' = backlog st ++ arrivals a c [op].
Proof.
  destruct op as [now a' m s|now|now a' c'|now a' c'|now a' c'];
    cbn [conv_exec arrivals omap list_omap].
  { case_bool_decide as Heq; [|cbn; by rewrite app_nil_r]. injection Heq as -> _.
    unfold conv_arrival. destruct (_ || _); cbn; by rewrite ?app_nil_r. }
  { destruct (_ && _); cbn; by rewrite ?app_nil_r. }
  all: rewrite app_nil_r; by destruct (bool_decide _), (isActive st now).
Qed.

Lemma arrivals_app a c ops1 ops2 : arrivals a c (ops1 ++ ops2) = arrivals a c ops1 ++ arrivals a c ops2.
Proof. apply omap_app. Qed.

Lemma conv_run_conserves a c ops :
  (conv_run a c ops).1 ++ backlog (conv_run a c ops).2 = arrivals a c ops.
Proof.
  unfold conv_run. induction ops as [|op ops IH] using rev_ind; [done|].
  rewrite run_app, arrivals_app, <- IH, run_cons, run_nil. unfold conv_step at 1 3.
  pose proof (conv_exec_conserves a c (run (conv_step a c) ([], initial_state) ops).2 op) as Hop.
  destruct (conv_exec _ _ _ op) as [out st']. cbn [fst snd]. by rewrite <- !app_assoc, Hop.
Qed.

(** An operation that does not address the conversation. *)
Definition not_addressing (a c : string) (op : buffer_op) : Prop :=
  match op with
  | BIngest _ a' m _ => (a', conversationKey m) = (a, c) -> addressed m = false
  | _ => True
  end.

Lemma conv_idle_step a c s op :
  not_addressing a c op -> s.1 = [] /\ windowDeadline s.2 = None ->
  (conv_step a c s op).1 = [] /\ windowDeadline (conv_step a c s op).2 = None.
Proof.
  destruct s as [log [rs w last]]. cbn. intros Hop [-> ->].
  unfold conv_step. destruct op as [now a' m s|now|now a' c'|now a' c'|now a' c']; cbn in *.
  - case_bool_decide as Heq; [|done]. unfold conv_arrival. cbn. by rewrite (Hop Heq).
  - unfold is_due. cbn. by destruct rs, (now - last <? quietPeriodMs), (0 <? quietPeriodMs).
  - by case_bool_decide.
  - by rewrite andb_false_r.
  - by case_bool_decide.
Qed.

(** C5: No authored message is lost, duplicated, reordered or leaked into
    another conversation: whatever the operations, what was flushed for a
    conversation followed by its backlog is exactly what arrived for it, in
    order; and its state is the one it would have had alone. *)
Theorem buffer_conserves_arrivals (ops : list buffer_op) (a c : string) :
  let flushed := List.filter (belongs a c) (buffer_run ops).1 in
  let st := stateFor (compositeKey a c) (buffer_run ops).2 in
  flushed ++ backlog st = arrivals a c ops /\ (flushed, st) = conv_run a c ops.
Proof.
  destruct (buffer_run_refines a c ops) as (_ & -> & ->).
  split; [apply conv_run_conserves|by destruct (conv_run a c ops)].
Qed.

(** The agent never activates itself: in a run in which no message
    addresses the conversation, none of its records is ever flushed, all of
    them stay in the backlog as context, and the window is closed at every
    time. *)
Theorem never_self_activates (ops : list buffer_op) (a c : string) (now : Z) :
  Forall (not_addressing a c) ops ->
  let '(flushed, states) := buffer_run ops in
  List.filter (belongs a c) flushed = [] /\
  backlog (stateFor (compositeKey a c) states) = arrivals a c ops /\
  (inspect now a c states).1 = mkStatus false (length (arrivals a c ops)) None.
Proof.
  intros Hops. pose proof (conv_run_conserves a c ops) as Hcons.
  destruct (buffer_run_refines a c ops) as (_ & Hf & Hst).
  assert ((conv_run a c ops).1 = [] /\ windowDeadline (conv_run a c ops).2 = None) as [Hout Hwin].
  { apply (run_invariant_if _ (not_addressing a c)
      (fun s => s.1 = [] /\ windowDeadline s.2 = None)); [by intros; apply conv_idle_step|done..]. }
  rewrite Hout in Hcons. cbn in Hcons.
  destruct (buffer_run ops) as [flushed states]. cbn [fst snd] in *.
  rewrite Hf, Hout, Hst. split; [done|]. split; [done|].
  rewrite <- Hst in Hcons, Hwin. unfold inspect, stateFor in *.
  destruct (jget _ states) as [st|]; [|cbn in Hcons; by rewrite <- Hcons].
  unfold isActive. by rewrite Hwin, Hcons.
Qed.

(** The constructor accepts integer options exactly in their documented range. *)
Lemma new_IngestBuffer_range o :
  new_IngestBuffer (Some (VNumber (num_of_Z engagementWindowMs),
                          VNumber (num_of_Z quietPeriodMs), true)) = Ok o ->
  0 < engagementWindowMs /\ 0 <= quietPeriodMs.
Proof.
  unfold new_IngestBuffer, num_zero. rewrite num_leb_Z, num_ltb_Z. cbn [num_is_finite num_of_Z negb orb].
  destruct (engagementWindowMs <=? 0) eqn:Hw; [done|].
  destruct (quietPeriodMs <? 0) eqn:Hq; [done|]. intros _. bools. lia.
Qed.

(** The activation decision, in terms of what [inspect] shows before: an
    arrival starts a turn exactly when it is addressed or falls in the open
    window after a lull; the turn then carries the whole backlog and the
    message, in the mode the stream calls for, the backlog is empty and the
    window runs anew; otherwise the message is held, the window as it was. *)
Theorem ingest_decision (o : number * number) (now : Z) (a : string) (m : InboundMessage)
    (streaming : bool) (states : States) :
  new_IngestBuffer (Some (VNumber (num_of_Z engagementWindowMs),
                          VNumber (num_of_Z quietPeriodMs), true)) = Ok o ->
  let c := conversationKey m in
  let before := (inspect now a c states).1 in
  let st := stateFor (compositeKey a c) states in
  let '(r, states') := ingest now a m streaming states in
  let after := (inspect now a c states').1 in
  let records := backlog st ++ [toRecord a m now] in
  if addressed m ||
     (cs_active before && ((quietPeriodMs =? 0) || (quietPeriodMs <=? now - lastArrivalAt st)))
  then r = activate (if streaming then if addressed m then mode_steer else mode_followUp
                     else mode_prompt) records (renderPrompt records) /\
       after = mkStatus true 0 (Some (now + engagementWindowMs))
  else r = buffered (toRecord a m now) (S (cs_backlogDepth before)) /\
       after = mkStatus (cs_active before) (S (cs_backlogDepth before)) (cs_windowDeadline before).
Proof.
  intros [Hw Hq]%new_IngestBuffer_range. cbv zeta.
  set (c := conversationKey m). set (k := compositeKey a c).
  assert (exists rs w last, stateFor k states = mkConversation rs w last /\
    (inspect now a c states).1 =
      let act := isActive (stateFor k states) now in
      mkStatus act (length rs) (if act then w else None)) as (rs & w & last & Hst & Hin).
  { unfold inspect, stateFor. fold k. destruct (jget k states) as [[rs w last]|]; eauto 6. }
  rewrite Hin. unfold ingest. fold c k. rewrite Hst. cbn [backlog windowDeadline lastArrivalAt].
  assert (forall st', (inspect now a c (jset k st' states)).1 =
    mkStatus (isActive st' now) (length (backlog st'))
      (if isActive st' now then windowDeadline st' else None)) as Hafter.
  { intros st'. unfold inspect. fold k. by rewrite jget_set_eq. }
  assert (isActive (mkConversation [] (Some (now + engagementWindowMs)) now) now = true) as Hopen
    by (unfold isActive; cbn; lia).
  destruct (addressed m); cbn [orb].
  { rewrite Hafter, Hopen. by destruct streaming. }
  destruct (isActive (mkConversation rs w last) now) eqn:Ha; cbn [cs_active andb].
  - assert ((quietPeriodMs =? 0) || (quietPeriodMs <=? now - last) =
      negb ((0 <? quietPeriodMs) && (now - last <? quietPeriodMs)))%bool as -> by lia.
    destruct ((0 <? quietPeriodMs) && _); cbn [negb]; rewrite Hafter.
    + unfold isActive in *. cbn in *. rewrite Ha, length_app, Nat.add_1_r. done.
    + rewrite Hopen. by destruct streaming.
  - rewrite Hafter. cbn. by rewrite length_app, Nat.add_1_r.
Qed.

(** Operations that leave a conversation waiting: those on other
    conversations, looks at this one, and sweeps before its quiet period ends. *)
Definition waits (a c : string) (due deadline : Z) (op : buffer_op) : Prop :=
  match op with
  | BIngest _ a' m _ => (a', conversationKey m) <> (a, c)
  | BSweep now => now < due
  | BDismiss _ a' c' | BInteraction _ a' c' => (a', c') <> (a, c)
  | BInspect now a' c' => (a', c') = (a, c) -> now < deadline
  end.

Lemma conv_waits a c deadline st log op :
  windowDeadline st = Some deadline ->
  waits a c (lastArrivalAt st + quietPeriodMs) deadline op ->
  (conv_step a c (log, st) op).2 = st.
Proof.
  intros Hw Hop. unfold conv_step. destruct op as [now a' m s|now|now a' c'|now a' c'|now a' c'];
    cbn [conv_exec fst snd] in *.
  - by rewrite bool_decide_eq_false_2.
  - cbn in Hop. unfold is_due. destruct (backlog st); [by rewrite andb_false_r|].
    rewrite (proj2 (Z.ltb_lt (now - _) _)) by lia. by rewrite andb_false_r.
  - by rewrite bool_decide_eq_false_2.
  - by rewrite bool_decide_eq_false_2.
  - cbn in Hop. case_bool_decide as Heq; [|done]. unfold isActive. rewrite Hw.
    by rewrite (proj2 (Z.ltb_lt _ _)) by auto.
Qed.

Lemma conv_waits_run a c deadline ops st log :
  windowDeadline st = Some deadline ->
  Forall (waits a c (lastArrivalAt st + quietPeriodMs) deadline) ops ->
  (run (conv_step a c) (log, st) ops).2 = st.
Proof.
  intros Hw. revert log. induction ops as [|op ops IH]; intros log Hops; inv Hops; [done|].
  rewrite run_cons. destruct (conv_step a c (log, st) op) as [log' st'] eqn:Hstep.
  assert (st' = st) as -> by (rewrite <- (conv_waits a c deadline st log op), Hstep by done; done).
  by apply IH.
Qed.

(** What it takes for an arrival in an open window to be held. *)
Lemma held_arrival now a m streaming deadline states :
  let st := stateFor (compositeKey a (conversationKey m)) states in
  windowDeadline st = Some deadline -> now < deadline ->
  (ingest now a m streaming states).1 = buffered (toRecord a m now) (S (length (backlog st))) ->
  0 < quietPeriodMs /\ (conv_arrival st now (toRecord a m now)).2 =
    mkConversation (backlog st ++ [toRecord a m now]) (Some deadline) now.
Proof.
  cbv zeta. intros Hw Hnow Hheld. pose proof (ingest_spec now a m streaming states) as Hspec.
  cbv zeta in Hspec. set (st := stateFor (compositeKey a (conversationKey m)) states) in *.
  destruct (ingest _ _ _ _ _) as [res states']. cbn in Hheld. subst res.
  unfold conv_arrival, isActive in *. rewrite Hw, (proj2 (Z.ltb_lt _ _) Hnow) in *.
  destruct (rec_addressed _); cbn in *; [by destruct Hspec; destruct (backlog st)|].
  destruct (0 <? quietPeriodMs) eqn:Hq; cbn in *.
  - destruct (now - _ <? quietPeriodMs); cbn in *; [split; [lia|done]|].
    by destruct Hspec; destruct (backlog st).
  - by destruct Hspec; destruct (backlog st).
Qed.

(** A message held in an open window is answered on the settling of the
    room: the first sweep after its quiet period and before the window closes
    releases it with the whole backlog, whatever other conversations do
    meanwhile; and the next sweep finds nothing left to release. *)
Theorem held_message_released (ops ops2 : list buffer_op) (now : Z) (a : string)
    (m : InboundMessage) (streaming : bool) (deadline t : Z) :
  let c := conversationKey m in
  let st := stateFor (compositeKey a c) (buffer_run ops).2 in
  let r := toRecord a m now in
  windowDeadline st = Some deadline -> now < deadline ->
  (ingest now a m streaming (buffer_run ops).2).1 = buffered r (S (length (backlog st))) ->
  Forall (waits a c (now + quietPeriodMs) deadline) ops2 ->
  now + quietPeriodMs <= t < deadline ->
  let s := buffer_run (ops ++ BIngest now a m streaming :: ops2) in
  let '(out, states) := buffer_exec s.2 (BSweep t) in
  List.filter (belongs a c) out = backlog st ++ [r] /\
  stateFor (compositeKey a c) states =
    mkConversation [] (Some (t + engagementWindowMs)) now /\
  forall t', List.filter (belongs a c) (buffer_exec states (BSweep t')).1 = [].
Proof.
  cbv zeta. intros Hw Hnow Hheld Hwait Ht.
  set (c := conversationKey m) in *.
  set (ops' := ops ++ BIngest now a m streaming :: ops2).
  destruct (buffer_run_refines a c ops) as (Hok & _ & Hst).
  set (st := stateFor (compositeKey a c) (buffer_run ops).2) in *.
  destruct (buffer_run_refines a c ops') as (Hok' & _ & Hst').
  destruct (held_arrival now a m streaming deadline _ Hw Hnow Hheld) as [Hq Harr].
  fold c st in Harr.
  assert ((conv_run a c ops').2 =
    mkConversation (backlog st ++ [toRecord a m now]) (Some deadline) now) as Hrun.
  { unfold ops', conv_run. rewrite run_app, run_cons.
    unfold conv_step at 2. cbn [conv_exec]. rewrite bool_decide_eq_true_2 by done.
    fold (conv_run a c ops). rewrite <- Hst. fold st.
    destruct (conv_arrival st now (toRecord a m now)) as [out st1]. cbn in Harr. subst st1.
    by apply (conv_waits_run a c deadline). }
  pose proof (sweep_refines a c t (buffer_run ops').2 Hok') as Hsweep.
  rewrite Hst', Hrun in Hsweep. cbn [buffer_exec].
  destruct (sweepSettled t (buffer_run ops').2) as [due states].
  destruct Hsweep as (Hok2 & -> & Hst2). revert Hst2. cbn [conv_exec].
  assert (is_due t (mkConversation (backlog st ++ [toRecord a m now]) (Some deadline) now) = true)
    as ->.
  { unfold is_due, isActive. cbn [backlog lastArrivalAt windowDeadline].
    destruct (backlog st); cbn; rewrite (proj2 (Z.ltb_ge _ _)) by lia; lia. }
  rewrite (proj2 (Z.ltb_lt _ _) Hq). cbn [andb fst snd backlog lastArrivalAt].
  intros Hst2. split; [done|]. split; [done|]. intros t'.
  pose proof (sweep_refines a c t' states Hok2) as Hagain. rewrite Hst2 in Hagain.
  destruct (sweepSettled t' states) as [due' states'']. destruct Hagain as (_ & Hout & _).
  cbn [fst]. rewrite Hout. cbn [conv_exec is_due backlog]. by rewrite andb_false_r.
Qed.
End buffer.

(** ** Witnesses *)

Definition demo_arrival (id : string) (direct : bool) : InboundMessage :=
  mkMessage id "room" None (mkSpeaker "u1" "Ada") "hi" [] direct.

Lemma never_self_activates_witness :
  (inspect 5000 "chat" "room"
     (buffer_run 1000 50 [BIngest 10 "chat" (demo_arrival "m1" false) false; BSweep 900]).2).1 =
  mkStatus false 1 None.
Proof.
  apply (never_self_activates 1000 50
    [BIngest 10 "chat" (demo_arrival "m1" false) false; BSweep 900] "chat" "room" 5000).
  repeat constructor.
Defined.

Lemma ingest_decision_witness :
  (inspect 10 "chat" "room" (ingest 1000 50 10 "chat" (demo_arrival "m1" true) true []).2).1 =
  mkStatus true 0 (Some 1010).
Proof.
  apply (ingest_decision 1000 50 (num_of_Z 1000, num_of_Z 50) 10 "chat"
    (demo_arrival "m1" true) true []).
  reflexivity.
Defined.

Lemma held_message_released_witness :
  List.filter (belongs "chat" "room")
    (buffer_exec 1000 50
       (buffer_run 1000 50
          [BIngest 10 "chat" (demo_arrival "m1" true) false;
           BIngest 20 "chat" (demo_arrival "m2" false) false; BSweep 30]).2 (BSweep 70)).1 =
  [toRecord "chat" (demo_arrival "m2" false) 20].
Proof.
  apply (held_message_released 1000 50 [BIngest 10 "chat" (demo_arrival "m1" true) false]
    [BSweep 30] 20 "chat" (demo_arrival "m2" false) false 1010 70).
  - reflexivity.
  - lia.
  - reflexivity.
  - repeat constructor.
  - lia.
Defined.
