(* ===== verification/Frames.v ===== *)
(** * Frame extraction

    packages/core/src/outbound-emitter.ts, "Frame extraction helpers": what the
    emitter reads out of an RPC event frame.  A frame is the property list of a
    parsed JSON object, trusted for nothing but being an object. *)

From S2P Require Import Prelude JsString JsValue Contracts.
From stdpp Require Import options.
#[local] Open Scope Z_scope.

(** [RpcEventFrame] *)
Definition Frame : Type := list (string * value).

(** ambient-ingest-extension.ts *)
Definition DELIVERY_ATTACHMENT_TOOL : string := "deliver_attachment".
Definition STAY_SILENT_TOOL : string := "stay_silent".

Definition is_string (s : string) (v : value) : bool :=
  match v with VString t => String.eqb s t | _ => false end.

Definition is_true (v : value) : bool :=
  match v with VBool b => b | _ => false end.

(** [nonnegInt(value)], [nonnegNum(value)] *)
Definition nonnegInt (v : value) : Z :=
  let n := match v with VNumber n => n | _ => to_number v end in
  if num_is_finite n && num_ltb num_zero n then num_floor n else 0.

Definition nonnegNum (v : value) : number :=
  let n := match v with VNumber n => n | _ => to_number v end in
  if num_is_finite n && num_ltb num_zero n then n else num_zero.

Definition extractTextDelta (frame : Frame) : option string :=
  match as_object (prop "assistantMessageEvent" frame) with
  | None => None
  | Some ev =>
      if negb (is_string "text_delta" (prop "type" ev)) then None
      else as_string (prop "delta" ev)
  end.

Definition extractDeliveryAttachment (frame : Frame) : option WorkspaceAttachment :=
  if negb (is_string DELIVERY_ATTACHMENT_TOOL (prop "toolName" frame)) ||
     is_true (prop "isError" frame) then None
  else
    match as_object (prop "result" frame) with
    | None => None
    | Some result =>
        match as_object (prop "details" result) with
        | None => None
        | Some details =>
            match as_object (prop "ompBundlerAttachment" details) with
            | None => None
            | Some v =>
                match nonempty_string (prop "path" v) with
                | None => None
                | Some path =>
                    Some (mkAttachment path (nonempty_string (prop "name" v))
                            (nonempty_string (prop "mediaType" v)))
                end
            end
        end
    end.

Definition usageFromMessage (msg : list (string * value)) : option TurnUsage :=
  match as_object (prop "usage" msg) with
  | None => None
  | Some u =>
      Some (mkUsage (nonnegInt (prop "input" u)) (nonnegInt (prop "output" u))
              (nonnegInt (prop "cacheRead" u)) (nonnegInt (prop "cacheWrite" u))
              (match as_object (prop "cost" u) with
               | Some cost => nonnegNum (prop "total" cost)
               | None => num_zero
               end))
  end.

Definition extractUsage (frame : Frame) : option TurnUsage :=
  match as_object (prop "message" frame) with
  | None => None
  | Some message => usageFromMessage message
  end.

Definition zero_usage : TurnUsage := mkUsage 0 0 0 0 num_zero.

(** The loop over [messages]: the first assistant message with usage. *)
Fixpoint first_usage (messages : list value) : TurnUsage :=
  match messages with
  | [] => zero_usage
  | msg :: messages =>
      match as_object msg with
      | None => first_usage messages
      | Some m =>
          if is_string "assistant" (prop "role" m) then
            match usageFromMessage m with
            | Some u => u
            | None => first_usage messages
            end
          else first_usage messages
      end
  end.

Definition extractUsageFromAgentEnd (frame : Frame) : TurnUsage :=
  match prop "messages" frame with
  | VArray messages => first_usage messages
  | _ => zero_usage
  end.

(** The loop of [agentEndHasModelError], over the messages last to first. *)
Fixpoint last_assistant_error (messages : list value) : bool :=
  match messages with
  | [] => false
  | message :: messages =>
      match as_object message with
      | None => last_assistant_error messages
      | Some m =>
          if is_string "assistant" (prop "role" m)
          then is_string "error" (prop "stopReason" m)
          else last_assistant_error messages
      end
  end.

Definition agentEndHasModelError (frame : Frame) : bool :=
  match prop "messages" frame with
  | VArray messages => last_assistant_error (rev messages)
  | _ => false
  end.

(** [describeSubagentFrame(frame)] *)
Definition describeSubagentFrame (frame : Frame) : string :=
  let type := prop "type" frame in
  let label :=
    if is_string "subagent_lifecycle" type then "subagent lifecycle"
    else if is_string "subagent_progress" type then "subagent progress"
    else "subagent event" in
  let id := default "" (as_string (prop "id" frame)) in
  let name := default "" (as_string (prop "name" frame)) in
  let detail := if is_empty name then (if is_empty id then "" else id) else name in
  if is_empty detail then label else (label +:+ ": " +:+ detail)%stdpp.

(** ** Bounds *)

Lemma nonnegInt_nonneg v : 0 <= nonnegInt v.
Proof.
  unfold nonnegInt. set (n := match v with VNumber n => n | _ => to_number v end).
  destruct (num_is_finite n) eqn:Hf, (num_ltb num_zero n) eqn:Hl; cbn [andb]; try lia.
  destruct n as [|s|q]; try done. cbn [num_floor].
  unfold num_ltb, num_leb, num_zero, num_of_Z in Hl. apply andb_true_iff in Hl as [Hl _].
  apply QArith_base.Qle_bool_iff in Hl. apply Qround.Qfloor_resp_le in Hl. exact Hl.
Qed.

Definition usage_nonneg (u : TurnUsage) : Prop :=
  0 <= usage_input u /\ 0 <= usage_output u /\ 0 <= usage_cacheRead u /\ 0 <= usage_cacheWrite u.

Lemma usageFromMessage_nonneg m u : usageFromMessage m = Some u -> usage_nonneg u.
Proof.
  unfold usageFromMessage. destruct (as_object _); [|done]. intros [= <-].
  unfold usage_nonneg; cbn. repeat split; apply nonnegInt_nonneg.
Qed.

Lemma agentEnd_usage_nonneg f : usage_nonneg (extractUsageFromAgentEnd f).
Proof.
  unfold extractUsageFromAgentEnd.
  destruct (prop "messages" f) as [| | | | |l|]; try (by repeat split).
  induction l as [|m l IH]; cbn; [by repeat split|].
  destruct (as_object m) as [ps|]; [|done]. destruct (is_string _ _); [|done].
  destruct (usageFromMessage ps) eqn:Hu; [by eapply usageFromMessage_nonneg|done].
Qed.
