(* ===== verification/OutboundEmitter.v ===== *)
(** * Outbound emitter

    packages/core/src/outbound-emitter.ts: frames to events, the durable outbox
    and the per-emitter delivery chain.

    The methods run to completion between two awaits; they are [comp]s over the
    emitter state.  The promise chain is the list of jobs not yet started, and
    what the job at its head awaits is [em_running]; the environment decides
    when an awaited timer or [fetch] completes and how.  The injected clock and
    uuid factory are functions of the number of calls made so far.  The
    [payload] column, the JSON text of the event, is represented by the event.
    The lifecycle hooks are an interface, [DurableHooks]. *)

From S2P Require Import Prelude JsString JsValue SqlTable Contracts Frames.
From stdpp Require Import options.
#[local] Open Scope Z_scope.

Inductive EmitterError : Type :=
| HookError (message : string)
| DatabaseError
| DuplicateEventConflictError (eventId : string)
| EmitterGenericError (message : string).

(** ** The outbox table *)

Inductive OutboxStatus : Type := outbox_pending | outbox_delivered | outbox_permanent_failure.

#[export] Instance outbox_status_eq_dec : EqDecision OutboxStatus.
Proof. solve_decision. Defined.

Record OutboxRow : Type := mkOutboxRow {
  ob_eventId : string;
  ob_adapterId : string;
  ob_conversationKey : string;
  ob_correlationId : string;
  ob_sequence : Z;
  ob_eventType : string;
  ob_payload : OutboundEvent;
  ob_status : OutboxStatus;
  ob_attempts : nat;
  ob_lastError : option string;
  ob_createdAt : Z;
  ob_updatedAt : Z;
}.

#[export] Instance outbox_schema : Schema string OutboxRow := {
  primary_key := ob_eventId;
  row_check := fun _ => true;
}.

Abbreviation Outbox := (gmap string OutboxRow).

Definition set_outcome (status : OutboxStatus) (attempts : nat) (error : option string) (ts : Z)
    (r : OutboxRow) : OutboxRow :=
  mkOutboxRow (ob_eventId r) (ob_adapterId r) (ob_conversationKey r) (ob_correlationId r)
    (ob_sequence r) (ob_eventType r) (ob_payload r) status attempts error (ob_createdAt r) ts.

Definition has_status (status : OutboxStatus) (r : OutboxRow) : bool :=
  bool_decide (ob_status r = status).

Definition has_event (eventId : string) (r : OutboxRow) : bool := String.eqb (ob_eventId r) eventId.

(** [UPDATE]; the table has no [CHECK], so it cannot fail. *)
Definition outbox_update (w : OutboxRow -> bool) (u : OutboxRow -> OutboxRow) (db : Outbox) :
    Outbox * nat :=
  match sql_update w u db with Some r => r | None => (db, O) end.

(** [ORDER BY sequence ASC] *)
Definition sequence_order (r1 r2 : OutboxRow) : bool := ob_sequence r1 <=? ob_sequence r2.

Record PendingOutboundCorrelation : Type := mkPendingCorrelation {
  poc_adapterId : string;
  poc_conversationKey : string;
  poc_correlationId : string;
}.

#[export] Instance pending_correlation_eq_dec : EqDecision PendingOutboundCorrelation.
Proof. solve_decision. Defined.

(** [ORDER BY adapter_id, correlation_id] *)
Definition correlation_order (r1 r2 : OutboxRow) : bool :=
  match String.compare (ob_adapterId r1) (ob_adapterId r2) with
  | Lt => true
  | Gt => false
  | Eq => String.leb (ob_correlationId r1) (ob_correlationId r2)
  end.

(** [listPendingOutboundCorrelations] on an existing database. *)
Definition listPendingOutboundCorrelations (db : Outbox) : list PendingOutboundCorrelation :=
  remove_dups
    (map (fun r => mkPendingCorrelation (ob_adapterId r) (ob_conversationKey r) (ob_correlationId r))
       (sql_select correlation_order (has_status outbox_pending) db)).

(** ** Interfaces *)

(** [DurableLifecycleHooks], over the state of the object behind the hooks. *)
Class DurableHooks (H : Type) := {
  onDurablePrepared : OutboundEvent -> comp H EmitterError unit;
  onDurableDelivered : OutboundEvent -> comp H EmitterError unit;
  onDurableFailed : OutboundEvent -> string -> comp H EmitterError unit;
}.

(** One call of a lifecycle hook. *)
Inductive hook_step {H : Type} `{!DurableHooks H} (h : H) : H -> Prop :=
| hook_prepared e : hook_step h (onDurablePrepared e h).2
| hook_delivered e : hook_step h (onDurableDelivered e h).2
| hook_failed e err : hook_step h (onDurableFailed e err h).2.

(** What an object behind the hooks promises: once it has accepted an event in
    [onDurablePrepared] it retains that event, whatever calls follow. *)
Class LawfulHooks (H : Type) `{!DurableHooks H} := {
  retained : H -> OutboundEvent -> Prop;
  retained_now : forall e h h', onDurablePrepared e h = (Ok tt, h') -> retained h' e;
  retained_stable : forall e h h', hook_step h h' -> retained h e -> retained h' e;
}.

Record AdapterTarget : Type := mkTarget {
  callbackUrl : string;
  sign : string -> string;
}.

(** [OutboundEmitterOptions]; the target is what [resolveAdapterTarget]
    answers for [adapterId]. *)
Record EmitterOptions : Type := mkOptions {
  opt_adapterId : string;
  opt_conversationKey : string;
  opt_correlationId : string;
  adapterTarget : option AdapterTarget;
  progressThresholdMs : Z;
  retryDelaysMs : list Z;
  requestTimeoutMs : Z;
}.

(** ** State *)

(** Which call enqueued a durable delivery. *)
Inductive Origin : Type :=
| Live
| Resumed (batch : nat)
| Retried.

#[export] Instance origin_eq_dec : EqDecision Origin.
Proof. solve_decision. Defined.

(** A closure on the delivery chain. *)
Inductive Job : Type :=
| JobReject (failure : EmitterError)
| JobDurable (event : OutboundEvent) (startingAttempts : nat) (origin : Origin)
| JobBestEffort (event : OutboundEvent).

(** What the started job awaits. *)
Inductive Running : Type :=
| Posting (event : OutboundEvent) (attempt : nat) (origin : Origin) (target : AdapterTarget)
| Sleeping (event : OutboundEvent) (attempt : nat) (origin : Origin) (target : AdapterTarget)
| PostingBestEffort (event : OutboundEvent).

(** One HTTP request: URL, signature header, event type header, body. *)
Record Post : Type := mkPost {
  post_url : string;
  post_signature : string;
  post_type : string;
  post_event : OutboundEvent;
}.

Inductive HttpOutcome : Type :=
| HttpStatus (status : Z)
| HttpError (message : string).

(** The accumulators of the turn. *)
Record Turn : Type := mkTurn {
  replyText : string;
  replyAttachments : list WorkspaceAttachment;
  replyUsage : option TurnUsage;
  terminalEmitted : bool;
  staySilent : bool;
  startedEmitted : bool;
  presence : option Presence;
  lastProgressAt : Z;
  pendingProgress : option string;
}.

(** The delivery chain; [posts] logs the requests sent. *)
Record Delivery : Type := mkDelivery {
  chain : list Job;
  running : option Running;
  settled : option EmitterError;
  resumePromise : option nat;
  batches : nat;
  posts : list Post;
}.

Record Emitter (H : Type) : Type := mkEmitter {
  em_db : Outbox;
  em_closed : bool;
  em_sequence : Z;
  em_calls : nat;
  em_turn : Turn;
  em_delivery : Delivery;
  em_hook : H;
}.
Arguments mkEmitter {H}. Arguments em_db {H}. Arguments em_closed {H}.
Arguments em_sequence {H}. Arguments em_calls {H}. Arguments em_turn {H}.
Arguments em_delivery {H}. Arguments em_hook {H}.

Definition initial_turn : Turn := mkTurn "" [] None false false false None 0 None.
Definition initial_delivery : Delivery := mkDelivery [] None None None 0 [].

(** [TERMINAL_EVENT_TYPES] of the constructor's query. *)
Definition is_terminal_type (t : string) : bool :=
  String.eqb t "turn.reply" || String.eqb t "turn.error" || String.eqb t "turn.cancelled".

Section setters.
Context {H : Type}.
Implicit Types s : Emitter H.

Definition set_db (db : Outbox) s : Emitter H :=
  mkEmitter db (em_closed s) (em_sequence s) (em_calls s) (em_turn s) (em_delivery s) (em_hook s).
Definition set_closed (b : bool) s : Emitter H :=
  mkEmitter (em_db s) b (em_sequence s) (em_calls s) (em_turn s) (em_delivery s) (em_hook s).
Definition set_sequence (n : Z) s : Emitter H :=
  mkEmitter (em_db s) (em_closed s) n (em_calls s) (em_turn s) (em_delivery s) (em_hook s).
Definition set_calls (n : nat) s : Emitter H :=
  mkEmitter (em_db s) (em_closed s) (em_sequence s) n (em_turn s) (em_delivery s) (em_hook s).
Definition set_turn (t : Turn) s : Emitter H :=
  mkEmitter (em_db s) (em_closed s) (em_sequence s) (em_calls s) t (em_delivery s) (em_hook s).
Definition set_delivery (d : Delivery) s : Emitter H :=
  mkEmitter (em_db s) (em_closed s) (em_sequence s) (em_calls s) (em_turn s) d (em_hook s).
Definition set_hook (h : H) s : Emitter H :=
  mkEmitter (em_db s) (em_closed s) (em_sequence s) (em_calls s) (em_turn s) (em_delivery s) h.

Definition modify (f : Emitter H -> Emitter H) : comp (Emitter H) EmitterError unit :=
  fun s => (Ok tt, f s).

Definition modify_turn (f : Turn -> Turn) : comp (Emitter H) EmitterError unit :=
  modify (fun s => set_turn (f (em_turn s)) s).

Definition on_hook (m : comp H EmitterError unit) : comp (Emitter H) EmitterError unit :=
  fun s => let '(r, h) := m (em_hook s) in (r, set_hook h s).
End setters.

Definition with_replyText (x : string) (t : Turn) : Turn :=
  mkTurn x (replyAttachments t) (replyUsage t) (terminalEmitted t) (staySilent t)
    (startedEmitted t) (presence t) (lastProgressAt t) (pendingProgress t).
Definition with_attachments (x : list WorkspaceAttachment) (t : Turn) : Turn :=
  mkTurn (replyText t) x (replyUsage t) (terminalEmitted t) (staySilent t)
    (startedEmitted t) (presence t) (lastProgressAt t) (pendingProgress t).
Definition with_usage (x : option TurnUsage) (t : Turn) : Turn :=
  mkTurn (replyText t) (replyAttachments t) x (terminalEmitted t) (staySilent t)
    (startedEmitted t) (presence t) (lastProgressAt t) (pendingProgress t).
Definition with_terminal (x : bool) (t : Turn) : Turn :=
  mkTurn (replyText t) (replyAttachments t) (replyUsage t) x (staySilent t)
    (startedEmitted t) (presence t) (lastProgressAt t) (pendingProgress t).
Definition with_silent (x : bool) (t : Turn) : Turn :=
  mkTurn (replyText t) (replyAttachments t) (replyUsage t) (terminalEmitted t) x
    (startedEmitted t) (presence t) (lastProgressAt t) (pendingProgress t).
Definition with_started (x : bool) (t : Turn) : Turn :=
  mkTurn (replyText t) (replyAttachments t) (replyUsage t) (terminalEmitted t) (staySilent t)
    x (presence t) (lastProgressAt t) (pendingProgress t).
Definition with_presence (x : option Presence) (t : Turn) : Turn :=
  mkTurn (replyText t) (replyAttachments t) (replyUsage t) (terminalEmitted t) (staySilent t)
    (startedEmitted t) x (lastProgressAt t) (pendingProgress t).
Definition with_progressAt (x : Z) (t : Turn) : Turn :=
  mkTurn (replyText t) (replyAttachments t) (replyUsage t) (terminalEmitted t) (staySilent t)
    (startedEmitted t) (presence t) x (pendingProgress t).
Definition with_pending (x : option string) (t : Turn) : Turn :=
  mkTurn (replyText t) (replyAttachments t) (replyUsage t) (terminalEmitted t) (staySilent t)
    (startedEmitted t) (presence t) (lastProgressAt t) x.

(** ** Operations *)

Section emitter.
Context {H : Type} `{!DurableHooks H}.
Variable opts : EmitterOptions.
Variable uuid : nat -> string.
(** [opts.now()] and [nowUtc()], by the number of calls made so far. *)
Variables clock nowUtc : nat -> Z.

Abbreviation Em := (Emitter H).
Abbreviation M := (comp Em EmitterError).

Definition tick : M nat := fun s => (Ok (em_calls s), set_calls (S (em_calls s)) s).

Definition nextSequence : M Z :=
  fun s => (Ok (em_sequence s + 1), set_sequence (em_sequence s + 1) s).

(** A row of this emitter's correlation. *)
Definition mine (r : OutboxRow) : bool :=
  String.eqb (ob_adapterId r) (opt_adapterId opts) &&
  String.eqb (ob_correlationId r) (opt_correlationId opts).

(** [SELECT MAX(sequence) ... WHERE adapter_id = ? AND correlation_id = ?] *)
Definition max_sequence (db : Outbox) : option Z :=
  foldr (fun r m => Some (match m with None => ob_sequence r | Some n => Z.max (ob_sequence r) n end))
    None (sql_select sequence_order mine db).

(** The option checks of the constructor. *)
Definition check_options : result EmitterError unit :=
  if is_empty (opt_adapterId opts) then Throw (EmitterGenericError "adapterId is required")
  else if is_empty (opt_conversationKey opts) then
    Throw (EmitterGenericError "conversationKey is required")
  else if is_empty (opt_correlationId opts) then
    Throw (EmitterGenericError "correlationId is required")
  else if progressThresholdMs opts <? 0 then
    Throw (EmitterGenericError "progressThresholdMs must be a nonnegative finite number")
  else if requestTimeoutMs opts <=? 0 then
    Throw (EmitterGenericError "requestTimeoutMs must be a positive finite number")
  else if existsb (fun d => d <? 0) (retryDelaysMs opts) then
    Throw (EmitterGenericError "retryDelaysMs entries must be nonnegative finite numbers")
  else Ok tt.

(** [new OutboundEmitter(options)] on an existing outbox: the sequence resumes
    and a terminal row of the correlation sets both guards.  [calls] and
    [log] carry over what lies outside the object. *)
Definition new_emitter (calls : nat) (log : list Post) (db : Outbox) (hook : H) :
    result EmitterError Em :=
  _ <-! check_options;
  let sequence := match max_sequence db with Some m => m | None => 0 end in
  let terminal :=
    negb (bool_decide (sql_select sequence_order
      (fun r => mine r && is_terminal_type (ob_eventType r)) db = [])) in
  let turn :=
    if terminal then with_started true (with_terminal true initial_turn) else initial_turn in
  Ok (mkEmitter db false sequence calls turn
        (mkDelivery [] None None None 0 log) hook).

(** [enqueue(post)] *)
Definition enqueue (job : Job) : M unit :=
  modify (fun s =>
    let d := em_delivery s in
    set_delivery (mkDelivery (chain d ++ [job]) (running d) (settled d) (resumePromise d)
                    (batches d) (posts d)) s).

(** [persistEvent]: whether a row was inserted. *)
Definition persistEvent (event : OutboundEvent) : M bool := fun s =>
  if em_closed s then (Throw DatabaseError, s)
  else
    let row := mkOutboxRow (ev_eventId event) (opt_adapterId opts) (opt_conversationKey opts)
      (opt_correlationId opts) (ev_sequence event) (event_type event) event outbox_pending 0 None
      (ev_occurredAt event) (ev_occurredAt event) in
    match sql_insert row (em_db s) with
    | Some db => (Ok true, set_db db s)
    | None =>
        match em_db s !! ev_eventId event with
        | None => (Throw DatabaseError, s)
        | Some existing =>
            if String.eqb (ob_adapterId existing) (opt_adapterId opts) &&
               String.eqb (ob_conversationKey existing) (opt_conversationKey opts) &&
               String.eqb (ob_correlationId existing) (opt_correlationId opts) &&
               (ob_sequence existing =? ev_sequence event) &&
               String.eqb (ob_eventType existing) (event_type event) &&
               bool_decide (ob_payload existing = event) &&
               (ob_createdAt existing =? ev_occurredAt event)
            then (Ok false, s)
            else (Throw (DuplicateEventConflictError (ev_eventId event)), s)
        end
    end.

(** [deliverDurable(event)] *)
Definition deliverDurable (event : OutboundEvent) : M unit := fun s =>
  match on_hook (onDurablePrepared event) s with
  | (Throw failure, s) => enqueue (JobReject failure) s
  | (Ok _, s) =>
      (inserted <-? persistEvent event;
       if (inserted : bool) then enqueue (JobDurable event 0 Live) else cret tt) s
  end.

Definition deliverBestEffort (event : OutboundEvent) : M unit := enqueue (JobBestEffort event).

(** The object literal of an event: [uuid()], [nextSequence()], [now()]. *)
Definition make_event (body : EventBody) : M OutboundEvent :=
  k <-? tick;
  sequence <-? nextSequence;
  t <-? tick;
  cret (mkEvent (uuid k) (opt_conversationKey opts) (opt_correlationId opts) sequence (clock t) body).

(** [handleTurnStart] and [ensureStarted], which share their body. *)
Definition ensureStarted : M unit := fun s =>
  if startedEmitted (em_turn s) then (Ok tt, s)
  else
    (modify_turn (with_started true) ;?
     now <-? tick;
     modify_turn (with_progressAt (clock now)) ;?
     k <-? tick;
     sequence <-? nextSequence;
     deliverDurable (mkEvent (uuid k) (opt_conversationKey opts) (opt_correlationId opts) sequence
                       (clock now) turn_started)) s.

Definition handleTurnStart : M unit := ensureStarted.

(** [emitProviderError({code, message, retryable})] *)
Definition emitProviderError (code message : string) (retryable : bool) : M unit := fun s =>
  if em_closed s || terminalEmitted (em_turn s) then (Ok tt, s)
  else
    (ensureStarted ;?
     modify_turn (with_terminal true) ;?
     event <-? make_event (turn_error code message retryable);
     deliverDurable event) s.

(** [emitPresence(presence)] *)
Definition emitPresence (p : Presence) : M unit := fun s =>
  if bool_decide (presence (em_turn s) = Some p) then (Ok tt, s)
  else
    (modify_turn (with_presence (Some p)) ;?
     event <-? make_event (presence_changed p);
     deliverDurable event) s.

(** [emitCancelled()] *)
Definition emitCancelled : M unit := fun s =>
  if em_closed s || terminalEmitted (em_turn s) then (Ok tt, s)
  else
    (modify_turn (with_terminal true) ;?
     event <-? make_event turn_cancelled;
     deliverDurable event) s.

(** [emitDirectReply(text)] *)
Definition emitDirectReply (text : string) : M unit := fun s =>
  if em_closed s || terminalEmitted (em_turn s) then (Ok tt, s)
  else
    (modify_turn (with_terminal true) ;?
     event <-? make_event (turn_reply text [] zero_usage);
     deliverDurable event) s.

(** [emitDelta(text)], [emitProgress(message)] *)
Definition emitDelta (text : string) : M unit :=
  event <-? make_event (turn_delta text);
  deliverBestEffort event.

Definition emitProgress (message : string) : M unit :=
  now <-? tick;
  modify_turn (with_progressAt (clock now)) ;?
  event <-? make_event (turn_progress message);
  deliverBestEffort event.

(** [flushProgress()] *)
Definition flushProgress : M unit := fun s =>
  match pendingProgress (em_turn s) with
  | None => (Ok tt, s)
  | Some message =>
      (now <-? tick;
       if progressThresholdMs opts <=? clock now - lastProgressAt (em_turn s) then
         modify_turn (with_pending None) ;? emitProgress message
       else cret tt) s
  end.

Definition handleProgressCandidate (message : string) : M unit :=
  modify_turn (with_pending (Some message)) ;? flushProgress.

(** [handleMessageUpdate(frame)] *)
Definition handleMessageUpdate (frame : Frame) : M unit := fun s =>
  match extractTextDelta frame with
  | None | Some "" => (Ok tt, s)
  | Some delta =>
      (modify_turn (fun t => with_replyText (replyText t +:+ delta)%stdpp t) ;?
       fun s =>
         if em_closed s || terminalEmitted (em_turn s) then (Ok tt, s)
         else (emitDelta delta ;? handleProgressCandidate delta) s) s
  end.

(** [handleTurnEnd(frame)] *)
Definition handleTurnEnd (frame : Frame) : M unit :=
  match extractUsage frame with
  | Some usage => modify_turn (with_usage (Some usage))
  | None => cret tt
  end.

(** [handleToolExecutionEnd(frame)] *)
Definition handleToolExecutionEnd (frame : Frame) : M unit :=
  match extractDeliveryAttachment frame with
  | Some attachment =>
      modify_turn (fun t =>
        if existsb (fun c => String.eqb (att_path c) (att_path attachment)) (replyAttachments t)
        then t else with_attachments (replyAttachments t ++ [attachment]) t)
  | None => cret tt
  end ;?
  if is_string STAY_SILENT_TOOL (prop "toolName" frame) && negb (is_true (prop "isError" frame))
  then modify_turn (with_silent true) else cret tt.

(** [handleAgentEnd(frame)] *)
Definition handleAgentEnd (frame : Frame) : M unit := fun s =>
  let t := em_turn s in
  if em_closed s || terminalEmitted t then (Ok tt, s)
  else if agentEndHasModelError frame then
    emitProviderError "model_error" "Agent model request failed" true s
  else
    let usage := default (extractUsageFromAgentEnd frame) (replyUsage t) in
    if staySilent t then
      (ensureStarted ;?
       modify_turn (with_terminal true) ;?
       event <-? make_event (turn_reply "" [] usage);
       deliverDurable event) s
    else if is_empty (replyText t) && bool_decide (replyAttachments t = []) then
      emitProviderError "empty_response" "Agent completed without producing a reply" false s
    else
      (ensureStarted ;?
       modify_turn (with_terminal true) ;?
       event <-? make_event (turn_reply (replyText t) (replyAttachments t) usage);
       deliverDurable event) s.

(** [ingest(frame)] *)
Definition ingest (frame : Frame) : M unit :=
  let type := prop "type" frame in
  if is_string "turn_start" type then handleTurnStart
  else if is_string "message_update" type then handleMessageUpdate frame
  else if is_string "tool_execution_end" type then handleToolExecutionEnd frame
  else if is_string "turn_end" type then handleTurnEnd frame
  else if is_string "agent_end" type then handleAgentEnd frame
  else if is_string "subagent_lifecycle" type || is_string "subagent_progress" type ||
          is_string "subagent_event" type then
    handleProgressCandidate (describeSubagentFrame frame)
  else cret tt.

(** ** Delivery *)

(** [1 + retryDelaysMs.length] *)
Definition totalPosts : nat := S (length (retryDelaysMs opts)).

Definition set_running (r : option Running) : M unit :=
  modify (fun s =>
    let d := em_delivery s in
    set_delivery (mkDelivery (chain d) r (settled d) (resumePromise d) (batches d) (posts d)) s).

Definition log_post (p : Post) : M unit :=
  modify (fun s =>
    let d := em_delivery s in
    set_delivery (mkDelivery (chain d) (running d) (settled d) (resumePromise d) (batches d)
                    (posts d ++ [p])) s).

(** An [UPDATE] by event id; it throws on a closed handle. *)
Definition update_event (eventId : string) (u : Z -> OutboxRow -> OutboxRow) : M unit := fun s =>
  if em_closed s then (Throw DatabaseError, s)
  else
    (k <-? tick;
     modify (fun s => set_db (outbox_update (has_event eventId) (u (nowUtc k)) (em_db s)).1 s)) s.

Definition markDelivered (eventId : string) (attempts : nat) : M unit :=
  update_event eventId (fun ts => set_outcome outbox_delivered attempts None ts).

Definition recordAttempt (eventId : string) (attempts : nat) (error : string) : M unit :=
  update_event eventId (fun ts r => set_outcome (ob_status r) attempts (Some error) ts r).

Definition markPermanentFailure (eventId : string) (error : string) : M unit :=
  update_event eventId
    (fun ts r => set_outcome outbox_permanent_failure (ob_attempts r) (Some error) ts r).

(** The synchronous prefix of [postOnce]: the request as it is sent. *)
Definition postOnce (json : OutboundEvent -> string) (target : AdapterTarget)
    (event : OutboundEvent) : M unit :=
  log_post (mkPost (callbackUrl target) (sign target (json event)) (event_type event) event).

Definition http_ok (o : HttpOutcome) : bool :=
  match o with HttpStatus n => (200 <=? n) && (n <? 300) | HttpError _ => false end.

(** The [lastError] an unsuccessful attempt leaves; [shown] formats the status. *)
Definition http_error (shown : Z -> string) (target : AdapterTarget) (o : HttpOutcome) : string :=
  match o with
  | HttpStatus n => ("adapter " +:+ callbackUrl target +:+ " responded " +:+ shown n)%stdpp
  | HttpError message => message
  end.

Definition error_message (e : EmitterError) : string :=
  match e with
  | HookError m | EmitterGenericError m => m
  | DatabaseError => "database error"
  | DuplicateEventConflictError i => i
  end.

(** A job's promise settles: the chain's tail takes its outcome, and a
    recovery whose [Promise.all] is decided clears [resumePromise]. *)
Definition job_batch (j : Job) : option nat :=
  match j with JobDurable _ _ (Resumed b) => Some b | _ => None end.

Definition settle (origin : Origin) (failure : option EmitterError) : M unit :=
  modify (fun s =>
    let d := em_delivery s in
    let resume :=
      match origin with
      | Resumed b =>
          if bool_decide (resumePromise d = Some b) &&
             (bool_decide (is_Some failure) ||
              negb (existsb (fun j => bool_decide (job_batch j = Some b)) (chain d)))
          then None else resumePromise d
      | _ => resumePromise d
      end in
    set_delivery (mkDelivery (chain d) None failure resume (batches d) (posts d)) s).

(** A job body that may throw settles its promise either way. *)
Definition settling (origin : Origin) (body : M unit) : M unit := fun s =>
  match body s with
  | (Ok _, s) => settle origin None s
  | (Throw e, s) => settle origin (Some e) s
  end.

Section delivery.
Variable json : OutboundEvent -> string.
Variable shown : Z -> string.

Definition permanently_failed (event : OutboundEvent) (origin : Origin) (error : string) : M unit :=
  settling origin
    (markPermanentFailure (ev_eventId event) error ;?
     on_hook (onDurableFailed event error)).

(** The head of the [for] loop of [deliverPayload]. *)
Definition delivery_loop (event : OutboundEvent) (attempt : nat) (origin : Origin)
    (target : AdapterTarget) (lastError : string) : M unit :=
  if (attempt <? totalPosts)%nat then
    let delay := match attempt with O => 0 | S n => default 0 (retryDelaysMs opts !! n) end in
    if 0 <? delay then set_running (Some (Sleeping event attempt origin target))
    else postOnce json target event ;? set_running (Some (Posting event attempt origin target))
  else permanently_failed event origin lastError.

(** [deliverPayload(event, payload, startingAttempts)] up to its first await. *)
Definition deliverPayload (event : OutboundEvent) (startingAttempts : nat) (origin : Origin) :
    M unit :=
  match adapterTarget opts with
  | None => permanently_failed event origin ("no adapter target registered for " +:+ opt_adapterId opts)%stdpp
  | Some target => delivery_loop event startingAttempts origin target ""
  end.

(** The rest of an attempt, when [fetch] has answered. *)
Definition attempt_failed (event : OutboundEvent) (attempt : nat) (origin : Origin)
    (target : AdapterTarget) (lastError : string) : M unit := fun s =>
  match recordAttempt (ev_eventId event) (S attempt) lastError s with
  | (Throw e, s) => settle origin (Some e) s
  | (Ok _, s) => delivery_loop event (S attempt) origin target lastError s
  end.

Definition fetched (event : OutboundEvent) (attempt : nat) (origin : Origin)
    (target : AdapterTarget) (o : HttpOutcome) : M unit := fun s =>
  if http_ok o then
    match (markDelivered (ev_eventId event) (S attempt) ;?
           on_hook (onDurableDelivered event)) s with
    | (Ok _, s) => settle origin None s
    | (Throw err, s) => attempt_failed event attempt origin target (error_message err) s
    end
  else attempt_failed event attempt origin target (http_error shown target o) s.

(** The chain starts its next job once the previous one has settled. *)
Definition start_job : M unit := fun s =>
  let d := em_delivery s in
  match running d, chain d with
  | None, job :: rest =>
      let s := set_delivery (mkDelivery rest None (settled d) (resumePromise d) (batches d)
                               (posts d)) s in
      match job with
      | JobReject failure => settle Live (Some failure) s
      | JobDurable event attempts origin => deliverPayload event attempts origin s
      | JobBestEffort event =>
          match adapterTarget opts with
          | None => settle Live None s
          | Some target =>
              (postOnce json target event ;? set_running (Some (PostingBestEffort event))) s
          end
      end
  | _, _ => (Ok tt, s)
  end.

(** The timer of the running job fires. *)
Definition wake : M unit := fun s =>
  match running (em_delivery s) with
  | Some (Sleeping event attempt origin target) =>
      (postOnce json target event ;? set_running (Some (Posting event attempt origin target))) s
  | _ => (Ok tt, s)
  end.

(** The [fetch] of the running job settles. *)
Definition http_done (o : HttpOutcome) : M unit := fun s =>
  match running (em_delivery s) with
  | Some (Posting event attempt origin target) => fetched event attempt origin target o s
  | Some (PostingBestEffort _) => settle Live None s
  | _ => (Ok tt, s)
  end.

(** ** Recovery *)

(** [resumePending()] *)
Definition resumePending : M unit := fun s =>
  match resumePromise (em_delivery s) with
  | Some _ => (Ok tt, s)
  | None =>
      if em_closed s then (Throw DatabaseError, s)
      else
        let rows := sql_select sequence_order
          (fun r => mine r && has_status outbox_pending r) (em_db s) in
        let d := em_delivery s in
        let batch := batches d in
        (Ok tt, set_delivery
           (mkDelivery
              (chain d ++ map (fun r => JobDurable (ob_payload r) (ob_attempts r) (Resumed batch)) rows)
              (running d) (settled d)
              (match rows with [] => None | _ :: _ => Some batch end) (S batch) (posts d)) s)
  end.

(** Whether [retryPromises] holds the event: its retry has not settled. *)
Definition retrying (eventId : string) (d : Delivery) : bool :=
  existsb (fun j => match j with
                    | JobDurable e _ Retried => String.eqb (ev_eventId e) eventId
                    | _ => false
                    end) (chain d) ||
  match running d with
  | Some (Posting e _ Retried _) | Some (Sleeping e _ Retried _) =>
      String.eqb (ev_eventId e) eventId
  | _ => false
  end.

(** [retryPermanentFailureOnce(eventId)] *)
Definition retryPermanentFailureOnce (eventId : string) : M unit := fun s =>
  if em_closed s then (Throw DatabaseError, s)
  else
    match em_db s !! eventId with
    | Some row =>
        if mine row && has_status outbox_permanent_failure row then
          (on_hook (onDurablePrepared (ob_payload row)) ;?
           k <-? tick;
           fun s =>
             let '(db, changes) := outbox_update
               (fun r => has_event eventId r && has_status outbox_permanent_failure r)
               (set_outcome outbox_pending 0 None (nowUtc k)) (em_db s) in
             let s := set_db db s in
             if decide (changes = 1%nat) then
               enqueue (JobDurable (ob_payload row) 0 Retried) s
             else (Throw (EmitterGenericError "outbound failure changed before retry"), s)) s
        else (Throw (EmitterGenericError "no permanent outbound failure found"), s)
    | None => (Throw (EmitterGenericError "no permanent outbound failure found"), s)
    end.

(** [retryPermanentFailure(eventId)] *)
Definition retryPermanentFailure (eventId : string) : M unit := fun s =>
  if retrying eventId (em_delivery s) then (Ok tt, s)
  else retryPermanentFailureOnce eventId s.

(** [redeliverDurable(event)] *)
Definition redeliverDurable (event : OutboundEvent) : M unit := fun s =>
  if em_closed s then (Throw DatabaseError, s)
  else
    match em_db s !! ev_eventId event with
    | Some row =>
        if mine row then
          if negb (bool_decide (ob_payload row = event)) then
            (Throw (DuplicateEventConflictError (ev_eventId event)), s)
          else
            match ob_status row with
            | outbox_pending => resumePending s
            | outbox_permanent_failure => retryPermanentFailure (ev_eventId event) s
            | outbox_delivered => on_hook (onDurableDelivered event) s
            end
        else deliverDurable event s
    | None => deliverDurable event s
    end.

(** [outboxByStatus(status)], [permanentFailures()] *)
Definition outboxByStatus (status : OutboxStatus) (s : Em) : list OutboxRow :=
  sql_select sequence_order (fun r => mine r && has_status status r) (em_db s).

Definition permanentFailures (s : Em) : list OutboxRow :=
  outboxByStatus outbox_permanent_failure s.

(** [close()] *)
Definition close : M unit := modify (set_closed true).

(** ** The emitter as a state machine *)

Inductive emitter_op : Type :=
| EIngest (frame : Frame)
| EProviderError (code message : string) (retryable : bool)
| EPresence (p : Presence)
| ECancelled
| EDirectReply (text : string)
| EFlushProgress
| EStart
| EWake
| EHttp (o : HttpOutcome)
| EResume
| ERetry (eventId : string)
| ERedeliver (event : OutboundEvent)
| EClose
| ECrash.

(** [ECrash]: the process dies and a new emitter opens the same outbox; the
    hooks' state is durable too. *)
Definition emitter_exec (op : emitter_op) : M unit :=
  match op with
  | EIngest f => ingest f
  | EProviderError c m r => emitProviderError c m r
  | EPresence p => emitPresence p
  | ECancelled => emitCancelled
  | EDirectReply t => emitDirectReply t
  | EFlushProgress => flushProgress
  | EStart => start_job
  | EWake => wake
  | EHttp o => http_done o
  | EResume => resumePending
  | ERetry i => retryPermanentFailure i
  | ERedeliver e => redeliverDurable e
  | EClose => close
  | ECrash => fun s =>
      match new_emitter (em_calls s) (posts (em_delivery s)) (em_db s) (em_hook s) with
      | Ok s' => (Ok tt, s')
      | Throw e => (Throw e, s)
      end
  end.

Definition emitter_step (s : Em) (op : emitter_op) : Em := (emitter_exec op s).2.

(** ** Invariants *)

(** What the constructor's owner sees of a row. *)
Definition row_ok (k : string) (r : OutboxRow) : Prop :=
  ob_eventId r = k /\ ev_eventId (ob_payload r) = k /\
  ob_eventType r = event_type (ob_payload r) /\ ob_sequence r = ev_sequence (ob_payload r).

Definition is_terminal_row (r : OutboxRow) : bool := mine r && is_terminal_type (ob_eventType r).

(** The outbox and the counters that guard it. *)
Record emitter_inv (s : Em) : Prop := {
  inv_rows : forall k r, em_db s !! k = Some r -> row_ok k r;
  inv_mine : forall k r, em_db s !! k = Some r -> mine r = true ->
    0 < ob_sequence r <= em_sequence s;
  inv_sequences : forall k1 r1 k2 r2, em_db s !! k1 = Some r1 -> em_db s !! k2 = Some r2 ->
    mine r1 = true -> mine r2 = true -> ob_sequence r1 = ob_sequence r2 -> k1 = k2;
  inv_terminal : forall k r, em_db s !! k = Some r -> is_terminal_row r = true ->
    terminalEmitted (em_turn s) = true;
  inv_one_terminal : forall k1 r1 k2 r2, em_db s !! k1 = Some r1 -> em_db s !! k2 = Some r2 ->
    is_terminal_row r1 = true -> is_terminal_row r2 = true -> k1 = k2;
  inv_positive : 0 <= em_sequence s;
}.

(** Rows change only in status, attempts, error and time of update. *)
Definition same_content (r r' : OutboxRow) : Prop :=
  ob_eventId r' = ob_eventId r /\ ob_adapterId r' = ob_adapterId r /\
  ob_conversationKey r' = ob_conversationKey r /\ ob_correlationId r' = ob_correlationId r /\
  ob_sequence r' = ob_sequence r /\ ob_eventType r' = ob_eventType r /\
  ob_payload r' = ob_payload r /\ ob_createdAt r' = ob_createdAt r.

Definition same_contents (db db' : Outbox) : Prop :=
  forall k, match db !! k, db' !! k with
            | Some r, Some r' => same_content r r'
            | None, None => True
            | _, _ => False
            end.

#[local] Instance same_content_preorder : PreOrder same_content.
Proof.
  split; [by intros r|]. intros r1 r2 r3. unfold same_content. intros. naive_solver congruence.
Qed.

#[local] Instance same_contents_preorder : PreOrder same_contents.
Proof.
  split.
  - intros db k. by destruct (db !! k).
  - intros db1 db2 db3 H1 H2 k. specialize (H1 k). specialize (H2 k).
    destruct (db1 !! k), (db2 !! k), (db3 !! k); try done. by etrans.
Qed.

Lemma outbox_update_eq (w : OutboxRow -> bool) (u : OutboxRow -> OutboxRow) db :
  outbox_update w u db = ((fun r => if w r then u r else r) <$> db, sql_count w db).
Proof.
  unfold outbox_update, sql_update. rewrite bool_decide_eq_true_2; [done|]. intros k r _ _. done.
Qed.

Lemma set_outcome_content st n err ts r : same_content r (set_outcome st n err ts r).
Proof. done. Qed.

Lemma outbox_update_content (w : OutboxRow -> bool) (u : OutboxRow -> OutboxRow) db :
  (forall r, same_content r (u r)) -> same_contents db (outbox_update w u db).1.
Proof.
  intros Hu k. rewrite outbox_update_eq. cbn [fst]. rewrite lookup_fmap.
  destruct (db !! k) as [r|]; cbn; [|done]. destruct (w r); [apply Hu|done].
Qed.

Lemma same_contents_lookup db db' k r' :
  same_contents db db' -> db' !! k = Some r' -> exists r, db !! k = Some r /\ same_content r r'.
Proof. intros Hs Hk. specialize (Hs k). rewrite Hk in Hs. destruct (db !! k); naive_solver. Qed.

Lemma same_contents_lookup' db db' k r :
  same_contents db db' -> db !! k = Some r -> exists r', db' !! k = Some r' /\ same_content r r'.
Proof. intros Hs Hk. specialize (Hs k). rewrite Hk in Hs. destruct (db' !! k); naive_solver. Qed.

Lemma same_content_mine r r' : same_content r r' -> mine r' = mine r.
Proof. unfold mine. by intros (_ & -> & _ & -> & _). Qed.

Lemma same_content_terminal r r' : same_content r r' -> is_terminal_row r' = is_terminal_row r.
Proof.
  intros Hc. unfold is_terminal_row. rewrite (same_content_mine r r' Hc).
  by destruct Hc as (_ & _ & _ & _ & _ & -> & _).
Qed.

(** The invariant only reads contents, the sequence and the terminal guard. *)
Lemma emitter_inv_same s s' :
  emitter_inv s -> same_contents (em_db s) (em_db s') -> em_sequence s <= em_sequence s' ->
  (terminalEmitted (em_turn s) = true -> terminalEmitted (em_turn s') = true) ->
  emitter_inv s'.
Proof.
  intros Hinv Hdb Hseq Hterm. split.
  - intros k r' (r & Hr & Hc)%(same_contents_lookup _ _ _ _ Hdb).
    destruct (inv_rows s Hinv k r Hr) as (H1 & H2 & H3 & H4).
    destruct Hc as (? & ? & ? & ? & ? & ? & ? & ?). unfold row_ok. naive_solver congruence.
  - intros k r' (r & Hr & Hc)%(same_contents_lookup _ _ _ _ Hdb) Hm.
    rewrite (same_content_mine _ _ Hc) in Hm. pose proof (inv_mine s Hinv k r Hr Hm).
    destruct Hc as (_ & _ & _ & _ & -> & _). lia.
  - intros k1 r1' k2 r2' (r1 & Hr1 & Hc1)%(same_contents_lookup _ _ _ _ Hdb)
      (r2 & Hr2 & Hc2)%(same_contents_lookup _ _ _ _ Hdb) Hm1 Hm2 Heq.
    rewrite (same_content_mine _ _ Hc1) in Hm1. rewrite (same_content_mine _ _ Hc2) in Hm2.
    eapply (inv_sequences s Hinv); [exact Hr1|exact Hr2|done..|].
    destruct Hc1 as (_ & _ & _ & _ & <- & _), Hc2 as (_ & _ & _ & _ & <- & _). done.
  - intros k r' (r & Hr & Hc)%(same_contents_lookup _ _ _ _ Hdb) Ht.
    rewrite (same_content_terminal _ _ Hc) in Ht. eapply Hterm, (inv_terminal s Hinv); done.
  - intros k1 r1' k2 r2' (r1 & Hr1 & Hc1)%(same_contents_lookup _ _ _ _ Hdb)
      (r2 & Hr2 & Hc2)%(same_contents_lookup _ _ _ _ Hdb) Ht1 Ht2.
    rewrite (same_content_terminal _ _ Hc1) in Ht1. rewrite (same_content_terminal _ _ Hc2) in Ht2.
    by eapply (inv_one_terminal s Hinv).
  - pose proof (inv_positive s Hinv). lia.
Qed.

(** ** Emission steps *)

Definition body_terminal (b : EventBody) : bool :=
  match b with turn_reply _ _ _ | turn_error _ _ _ | turn_cancelled => true | _ => false end.

Definition body_best_effort (b : EventBody) : bool :=
  match b with turn_progress _ | turn_delta _ => true | _ => false end.

Lemma is_terminal_event_type e : is_terminal_type (event_type e) = body_terminal (ev_body e).
Proof. unfold event_type. by destruct (ev_body e). Qed.

(** The event built from call [k]'s uuid at time [t] in state [s]. *)
Definition event_at (k : nat) (t : Z) (b : EventBody) (s : Em) : OutboundEvent :=
  mkEvent (uuid k) (opt_conversationKey opts) (opt_correlationId opts) (em_sequence s + 1) t b.

Definition bump (s : Em) : Em := set_sequence (em_sequence s + 1) s.

Definition mark_terminal (s : Em) : Em := set_turn (with_terminal true (em_turn s)) s.

(** What a public emission method does, one effect at a time. *)
Inductive prim : Em -> Em -> Prop :=
| prim_turn t s :
    terminalEmitted t = terminalEmitted (em_turn s) -> prim s (set_turn t s)
| prim_tick s : prim s (set_calls (S (em_calls s)) s)
| prim_best k t b s :
    body_best_effort b = true -> (k < em_calls s)%nat ->
    prim s (deliverBestEffort (event_at k t b s) (bump s)).2
| prim_durable k t b s :
    body_terminal b = false -> body_best_effort b = false -> (k < em_calls s)%nat ->
    prim s (deliverDurable (event_at k t b s) (bump s)).2
| prim_terminal k t b s :
    body_terminal b = true -> terminalEmitted (em_turn s) = false -> (k < em_calls s)%nat ->
    prim s (deliverDurable (event_at k t b s) (bump (mark_terminal s))).2.

Definition emits {A} (m : M A) : Prop := forall s, rtc prim s (m s).2.

Lemma emits_bind {A B} (m : M A) (k : A -> M B) :
  emits m -> (forall a, emits (k a)) -> emits (cbind m k).
Proof.
  intros Hm Hk s. unfold cbind. specialize (Hm s).
  destruct (m s) as [[a|e] s']; [|done]. etrans; [exact Hm|apply Hk].
Qed.

Lemma emits_ret {A} (a : A) : emits (cret a).
Proof. intros s. apply rtc_refl. Qed.

Lemma emits_tick : emits tick.
Proof. intros s. apply rtc_once, prim_tick. Qed.

Lemma emits_turn f :
  (forall t, terminalEmitted (f t) = terminalEmitted t) -> emits (modify_turn f).
Proof. intros Hf s. apply rtc_once, prim_turn, Hf. Qed.

Lemma two_ticks s : rtc prim s (set_calls (S (S (em_calls s))) s).
Proof.
  apply (rtc_l _ _ (set_calls (S (em_calls s)) s)); [apply prim_tick|].
  apply rtc_once. apply (prim_tick (set_calls (S (em_calls s)) s)).
Qed.

Lemma emits_best b : body_best_effort b = true -> emits (event <-? make_event b; deliverBestEffort event).
Proof.
  intros Hb s. etrans; [apply two_ticks|]. apply rtc_once.
  apply (prim_best (em_calls s) (clock (S (em_calls s))) b (set_calls (S (S (em_calls s))) s));
    [done|cbn; lia].
Qed.

Lemma emits_durable b :
  body_terminal b = false -> body_best_effort b = false ->
  emits (event <-? make_event b; deliverDurable event).
Proof.
  intros Hb Hb' s. etrans; [apply two_ticks|]. apply rtc_once.
  apply (prim_durable (em_calls s) (clock (S (em_calls s))) b (set_calls (S (S (em_calls s))) s));
    [done|done|cbn; lia].
Qed.

(** Closing the turn: the guard is read before, so no terminal was emitted. *)
Lemma emits_terminal b s :
  body_terminal b = true -> terminalEmitted (em_turn s) = false ->
  rtc prim s ((modify_turn (with_terminal true) ;?
               event <-? make_event b; deliverDurable event) s).2.
Proof.
  intros Hb Ht. etrans; [apply two_ticks|]. apply rtc_once.
  apply (prim_terminal (em_calls s) (clock (S (em_calls s))) b (set_calls (S (S (em_calls s))) s));
    [done|done|cbn; lia].
Qed.

Lemma emits_started : emits ensureStarted.
Proof.
  intros s. unfold ensureStarted. destruct (startedEmitted (em_turn s)); [done|].
  set (t := with_progressAt (clock (em_calls s)) (with_started true (em_turn s))).
  etrans; [apply two_ticks|].
  eapply rtc_l; [by apply (prim_turn t)|]. apply rtc_once.
  apply (prim_durable (S (em_calls s)) (clock (em_calls s)) turn_started
           (set_turn t (set_calls (S (S (em_calls s))) s))); [done|done|cbn; lia].
Qed.

Lemma deliverDurable_turn e s : em_turn (deliverDurable e s).2 = em_turn s.
Proof.
  unfold deliverDurable, on_hook. destruct (onDurablePrepared e (em_hook s)) as [[[]|err] h]; [|done].
  unfold cbind, persistEvent. cbn [em_closed set_hook].
  destruct (em_closed s); [done|]. destruct (sql_insert _ _); [done|].
  destruct (_ !! _); [|done]. by destruct (_ && _).
Qed.

Lemma ensureStarted_terminal s :
  terminalEmitted (em_turn (ensureStarted s).2) = terminalEmitted (em_turn s).
Proof.
  unfold ensureStarted. destruct (startedEmitted (em_turn s)) eqn:Hs; [done|].
  unfold cbind, modify_turn, modify, tick, nextSequence. cbn [fst snd].
  by rewrite deliverDurable_turn.
Qed.

Lemma emits_started_then b s :
  body_terminal b = true -> terminalEmitted (em_turn s) = false ->
  rtc prim s ((ensureStarted ;? modify_turn (with_terminal true) ;?
               event <-? make_event b; deliverDurable event) s).2.
Proof.
  intros Hb Ht. pose proof (emits_started s) as Hst. pose proof (ensureStarted_terminal s) as Ht'.
  unfold cbind at 1. destruct (ensureStarted s) as [[[]|e] s']; [|done].
  etrans; [exact Hst|]. apply emits_terminal; [done|]. cbn in Ht'. congruence.
Qed.

Lemma emits_flushProgress : emits flushProgress.
Proof.
  intros s. unfold flushProgress. destruct (pendingProgress (em_turn s)) as [message|]; [|done].
  apply emits_bind; [apply emits_tick|]. intros now. case_match; [|apply emits_ret].
  apply emits_bind; [by apply emits_turn|]. intros _.
  apply emits_bind; [apply emits_tick|]. intros now'.
  apply emits_bind; [by apply emits_turn|]. intros _. by apply emits_best.
Qed.

Lemma emits_progress m : emits (handleProgressCandidate m).
Proof.
  apply emits_bind; [by apply emits_turn|]. intros _. apply emits_flushProgress.
Qed.

Lemma emits_error c m r : emits (emitProviderError c m r).
Proof.
  intros s. unfold emitProviderError. destruct (em_closed s); [done|]. cbn [orb].
  destruct (terminalEmitted (em_turn s)) eqn:Ht; [done|]. by apply emits_started_then.
Qed.

Lemma emits_agentEnd f : emits (handleAgentEnd f).
Proof.
  intros s. unfold handleAgentEnd. destruct (em_closed s) eqn:Hc; [done|]. cbn [orb].
  destruct (terminalEmitted (em_turn s)) eqn:Ht; [done|].
  destruct (agentEndHasModelError f); [apply emits_error|].
  destruct (staySilent (em_turn s)); [by apply emits_started_then|].
  destruct (is_empty _ && _); [apply emits_error|by apply emits_started_then].
Qed.

Lemma emits_messageUpdate f : emits (handleMessageUpdate f).
Proof.
  intros s. unfold handleMessageUpdate. destruct (extractTextDelta f) as [[|c d]|]; [done| |done].
  apply emits_bind; [by apply emits_turn|]. intros _ s'.
  destruct (em_closed s' || terminalEmitted (em_turn s')); [done|].
  apply emits_bind; [by apply emits_best|]. intros _. apply emits_progress.
Qed.

Lemma emits_toolEnd f : emits (handleToolExecutionEnd f).
Proof.
  unfold handleToolExecutionEnd. apply emits_bind.
  - case_match; [|apply emits_ret]. apply emits_turn. intros t. by case_match.
  - intros _. case_match; [by apply emits_turn|apply emits_ret].
Qed.

Lemma emits_turnEnd f : emits (handleTurnEnd f).
Proof. unfold handleTurnEnd. case_match; [by apply emits_turn|apply emits_ret]. Qed.

Lemma emits_ingest f : emits (ingest f).
Proof.
  unfold ingest, handleTurnStart.
  repeat case_match;
    auto using emits_ret, emits_started, emits_messageUpdate, emits_toolEnd, emits_turnEnd,
      emits_agentEnd, emits_progress.
Qed.

Lemma emits_presence p : emits (emitPresence p).
Proof.
  intros s. unfold emitPresence. case_bool_decide; [done|].
  apply emits_bind; [by apply emits_turn|]. intros _. by apply emits_durable.
Qed.

(** The operations that emit. *)
Definition emission (op : emitter_op) : bool :=
  match op with
  | EIngest _ | EProviderError _ _ _ | EPresence _ | ECancelled | EDirectReply _ | EFlushProgress => true
  | _ => false
  end.

Lemma emission_emits op : emission op = true -> emits (emitter_exec op).
Proof.
  destruct op; try done; intros _; cbn [emitter_exec];
    auto using emits_ingest, emits_error, emits_presence, emits_flushProgress.
  - intros s. unfold emitCancelled. destruct (em_closed s); [done|]. cbn [orb].
    destruct (terminalEmitted (em_turn s)) eqn:Ht; [done|]. by apply emits_terminal.
  - intros s. unfold emitDirectReply. destruct (em_closed s); [done|]. cbn [orb].
    destruct (terminalEmitted (em_turn s)) eqn:Ht; [done|]. by apply emits_terminal.
Qed.

Definition new_row (e : OutboundEvent) : OutboxRow :=
  mkOutboxRow (ev_eventId e) (opt_adapterId opts) (opt_conversationKey opts)
    (opt_correlationId opts) (ev_sequence e) (event_type e) e outbox_pending 0 None
    (ev_occurredAt e) (ev_occurredAt e).

Lemma new_row_mine e : mine (new_row e) = true.
Proof. unfold mine. cbn. by rewrite !String.eqb_refl. Qed.

(** The outcomes of [deliverDurable]: the hook's refusal is put on the chain;
    else a fresh row is inserted and its POST enqueued; else nothing is. *)
Inductive durable_outcome (e : OutboundEvent) (s s' : Em) : Prop :=
| durable_refused failure h :
    onDurablePrepared e (em_hook s) = (Throw failure, h) ->
    s' = (enqueue (JobReject failure) (set_hook h s)).2 -> durable_outcome e s s'
| durable_inserted h :
    onDurablePrepared e (em_hook s) = (Ok tt, h) -> em_closed s = false ->
    em_db s !! ev_eventId e = None ->
    s' = (enqueue (JobDurable e 0 Live)
            (set_db (<[ev_eventId e := new_row e]> (em_db s)) (set_hook h s))).2 ->
    durable_outcome e s s'
| durable_not_inserted h :
    onDurablePrepared e (em_hook s) = (Ok tt, h) ->
    em_closed s = true \/ is_Some (em_db s !! ev_eventId e) ->
    s' = set_hook h s -> durable_outcome e s s'.

Lemma deliverDurable_outcome e s : durable_outcome e s (deliverDurable e s).2.
Proof.
  unfold deliverDurable, on_hook.
  destruct (onDurablePrepared e (em_hook s)) as [[[]|err] h] eqn:Hp;
    [|by eapply durable_refused].
  unfold cbind, persistEvent. cbn [em_closed em_db set_hook].
  destruct (em_closed s) eqn:Hc; [eapply durable_not_inserted; eauto|].
  unfold sql_insert. cbn [primary_key outbox_schema row_check ob_eventId].
  destruct (em_db s !! ev_eventId e) as [r|] eqn:Hr.
  - destruct (_ && _); eapply durable_not_inserted; eauto.
  - by eapply durable_inserted.
Qed.

Lemma emitter_inv_insert e s s' :
  emitter_inv s -> em_db s !! ev_eventId e = None ->
  em_db s' = <[ev_eventId e := new_row e]> (em_db s) ->
  ev_sequence e = em_sequence s + 1 -> em_sequence s' = em_sequence s + 1 ->
  (if body_terminal (ev_body e)
   then terminalEmitted (em_turn s) = false /\ terminalEmitted (em_turn s') = true
   else terminalEmitted (em_turn s') = terminalEmitted (em_turn s)) ->
  emitter_inv s'.
Proof.
  intros Hinv Hnone Hdb He Hseq Hterm.
  assert (forall k r, em_db s !! k = Some r -> is_terminal_row r = true ->
    body_terminal (ev_body e) = false) as Hclash.
  { intros k r Hr Ht. destruct (body_terminal (ev_body e)); [|done].
    rewrite (inv_terminal s Hinv k r Hr Ht) in Hterm. by destruct Hterm. }
  assert (is_terminal_row (new_row e) = body_terminal (ev_body e)) as Hnew.
  { unfold is_terminal_row. rewrite new_row_mine. apply is_terminal_event_type. }
  pose proof (inv_positive s Hinv) as Hpos.
  split; rewrite ?Hdb.
  - intros k r. rewrite lookup_insert_Some. intros [[<- <-]|[_ Hr]]; [done|].
    by apply (inv_rows s Hinv).
  - intros k r. rewrite lookup_insert_Some. intros [[<- <-]|[_ Hr]] Hm; cbn; [lia|].
    pose proof (inv_mine s Hinv k r Hr Hm). lia.
  - intros k1 r1 k2 r2. rewrite !lookup_insert_Some.
    intros [[<- <-]|[_ Hr1]] [[<- <-]|[_ Hr2]] Hm1 Hm2; cbn; intros Heq; try done.
    + pose proof (inv_mine s Hinv _ _ Hr2 Hm2). lia.
    + pose proof (inv_mine s Hinv _ _ Hr1 Hm1). lia.
    + by eapply (inv_sequences s Hinv).
  - intros k r. rewrite lookup_insert_Some. intros [[<- <-]|[_ Hr]] Ht.
    + rewrite Hnew in Ht. rewrite Ht in Hterm. by destruct Hterm.
    + rewrite (Hclash k r Hr Ht) in Hterm. rewrite Hterm. by eapply (inv_terminal s Hinv).
  - intros k1 r1 k2 r2. rewrite !lookup_insert_Some.
    intros [[<- <-]|[_ Hr1]] [[<- <-]|[_ Hr2]] Ht1 Ht2; try done.
    + pose proof (Hclash _ _ Hr2 Ht2). congruence.
    + pose proof (Hclash _ _ Hr1 Ht1). congruence.
    + by eapply (inv_one_terminal s Hinv).
  - lia.
Qed.

Lemma prim_inv s s' : prim s s' -> emitter_inv s -> emitter_inv s'.
Proof.
  intros Hstep Hinv. destruct Hstep as [t s Ht|s|k t b s Hb _|k t b s Hb _ _|k t b s Hb Ht _].
  - apply (emitter_inv_same s); cbn; [done|done|lia|congruence].
  - by apply (emitter_inv_same s).
  - apply (emitter_inv_same s); cbn; [done|done|lia|done].
  - destruct (deliverDurable_outcome (event_at k t b s) (bump s))
      as [f h Hp ->|h Hp Hc Hnone ->|h Hp _ ->].
    1,3: apply (emitter_inv_same s); cbn; [done|done|lia|done].
    apply (emitter_inv_insert (event_at k t b s) s); try done. cbn. by rewrite Hb.
  - destruct (deliverDurable_outcome (event_at k t b s) (bump (mark_terminal s)))
      as [f h Hp ->|h Hp Hc Hnone ->|h Hp _ ->].
    1,3: apply (emitter_inv_same s); cbn; [done|done|lia|done].
    apply (emitter_inv_insert (event_at k t b s) s); try done. cbn. by rewrite Hb.
Qed.

(** An invariant of the primitive effects is an invariant of every emission. *)
Lemma emission_invariant (I : Em -> Prop) op s :
  (forall s s', prim s s' -> I s -> I s') -> emission op = true -> I s -> I (emitter_step s op).
Proof.
  intros Hprim Hop Hs. pose proof (emission_emits op Hop s) as Hrtc.
  unfold emitter_step. revert Hs. induction Hrtc; eauto.
Qed.

(** ** Delivery steps *)

(** What running a job leaves alone, and how it touches the outbox. *)
Record quiet (s s' : Em) : Prop := {
  quiet_hook : rtc hook_step (em_hook s) (em_hook s');
  quiet_db : same_contents (em_db s) (em_db s');
  quiet_closed : em_closed s' = em_closed s;
  quiet_sequence : em_sequence s' = em_sequence s;
  quiet_turn : em_turn s' = em_turn s;
  quiet_calls : (em_calls s <= em_calls s')%nat;
}.

#[local] Instance quiet_preorder : PreOrder quiet.
Proof.
  split; [by intros s|]. intros s1 s2 s3 [] []. split; try congruence; try lia; by etrans.
Qed.

(** The durable event a job is about. *)
Definition running_event (r : Running) : OutboundEvent :=
  match r with Posting e _ _ _ | Sleeping e _ _ _ | PostingBestEffort e => e end.

Definition running_target (r : Running) : option AdapterTarget :=
  match r with Posting _ _ _ t | Sleeping _ _ _ t => Some t | PostingBestEffort _ => None end.

(** The request for an event. *)
Definition post_of (target : AdapterTarget) (e : OutboundEvent) : Post :=
  mkPost (callbackUrl target) (sign target (json e)) (event_type e) e.

(** The effect of one step of a job for [e]: at most one request, for [e];
    the chain behind it is untouched; the job is over or awaits again. *)
Record job_step (e : OutboundEvent) (s s' : Em) : Prop := {
  job_quiet : quiet s s';
  job_chain : chain (em_delivery s') = chain (em_delivery s);
  job_batches : batches (em_delivery s') = batches (em_delivery s);
  job_posts : posts (em_delivery s') = posts (em_delivery s) \/
    exists t, adapterTarget opts = Some t /\
      posts (em_delivery s') = posts (em_delivery s) ++ [post_of t e];
  job_running : running (em_delivery s') = None \/
    exists r, running (em_delivery s') = Some r /\ running_event r = e /\
      (forall t, running_target r = Some t -> adapterTarget opts = Some t);
}.

(** Same delivery state. *)
Definition silent (s s' : Em) : Prop := quiet s s' /\ em_delivery s' = em_delivery s.

#[local] Instance silent_preorder : PreOrder silent.
Proof.
  split; [by intros s|]. intros s1 s2 s3 [] []. split; [by etrans|congruence].
Qed.

Lemma update_event_silent i (u : Z -> OutboxRow -> OutboxRow) s :
  (forall ts r, same_content r (u ts r)) -> silent s (update_event i u s).2.
Proof.
  intros Hu. unfold update_event. destruct (em_closed s) eqn:Hc; [done|].
  split; [|done]. split; cbn; try done; [|lia]. by apply outbox_update_content.
Qed.

Lemma on_hook_silent m s : hook_step (em_hook s) (m (em_hook s)).2 -> silent s (on_hook m s).2.
Proof.
  intros Hm. unfold on_hook. destruct (m (em_hook s)) as [r h]. split; [|done]. split; try done.
  by apply rtc_once.
Qed.

Lemma silent_bind {A B} (m : M A) (k : A -> M B) s :
  silent s (m s).2 -> (forall a s, silent s (k a s).2) -> silent s ((cbind m k) s).2.
Proof.
  intros Hm Hk. unfold cbind. destruct (m s) as [[a|e] s']; [|done]. etrans; [exact Hm|apply Hk].
Qed.

Lemma silent_job_step e s s1 s2 : silent s s1 -> job_step e s1 s2 -> job_step e s s2.
Proof.
  intros [Hq Hd] [Hq' Hc Hb Hp Hr]. rewrite Hd in *. split; try done. by etrans.
Qed.

Lemma settle_job_step e origin f s : job_step e s (settle origin f s).2.
Proof. split; cbn; auto. by split. Qed.

Lemma settling_job_step e origin m s : silent s (m s).2 -> job_step e s (settling origin m s).2.
Proof.
  intros Hm. unfold settling. destruct (m s) as [[a|err] s'];
    (eapply silent_job_step; [exact Hm|apply settle_job_step]).
Qed.

Lemma permanently_failed_job_step e origin err s : job_step e s (permanently_failed e origin err s).2.
Proof.
  apply settling_job_step, silent_bind; [by apply update_event_silent|].
  intros _ s'. apply on_hook_silent; constructor.
Qed.

Lemma delivery_loop_job_step e n origin t err s :
  adapterTarget opts = Some t -> job_step e s (delivery_loop e n origin t err s).2.
Proof.
  intros Ht. unfold delivery_loop. destruct (n <? totalPosts)%nat; [|apply permanently_failed_job_step].
  case_match.
  - split; cbn; auto; [by split|]. right. eexists. split; [done|]. cbn. split; [done|]. congruence.
  - split; cbn; auto; [by split|by eauto|]. right. eexists. split; [done|]. cbn. split; [done|]. congruence.
Qed.

Lemma deliverPayload_job_step e n origin s : job_step e s (deliverPayload e n origin s).2.
Proof.
  unfold deliverPayload. destruct (adapterTarget opts) eqn:Ht;
    [by apply delivery_loop_job_step|apply permanently_failed_job_step].
Qed.

Lemma attempt_failed_job_step e n origin t err s :
  adapterTarget opts = Some t -> job_step e s (attempt_failed e n origin t err s).2.
Proof.
  intros Ht. unfold attempt_failed.
  pose proof (update_event_silent (ev_eventId e)
    (fun ts r => set_outcome (ob_status r) (S n) (Some err) ts r) s ltac:(done)) as Hs.
  unfold recordAttempt. destruct (update_event _ _ s) as [[[]|er] s'];
    (eapply silent_job_step; [exact Hs|]).
  - by apply delivery_loop_job_step.
  - apply settle_job_step.
Qed.

Lemma fetched_job_step e n origin t o s :
  adapterTarget opts = Some t -> job_step e s (fetched e n origin t o s).2.
Proof.
  intros Ht. unfold fetched. destruct (http_ok o); [|by apply attempt_failed_job_step].
  assert (silent s ((markDelivered (ev_eventId e) (S n) ;? on_hook (onDurableDelivered e)) s).2) as Hs.
  { apply silent_bind; [by apply update_event_silent|]. intros _ s'. apply on_hook_silent; constructor. }
  destruct ((markDelivered _ _ ;? _) s) as [[[]|er] s']; (eapply silent_job_step; [exact Hs|]).
  - apply settle_job_step.
  - by apply attempt_failed_job_step.
Qed.

Definition pop (rest : list Job) (s : Em) : Em :=
  let d := em_delivery s in
  set_delivery (mkDelivery rest None (settled d) (resumePromise d) (batches d) (posts d)) s.

Definition job_event (j : Job) : option OutboundEvent :=
  match j with JobReject _ => None | JobDurable e _ _ | JobBestEffort e => Some e end.

(** The operations of the environment on the chain. *)
Definition advancing (op : emitter_op) : bool :=
  match op with EStart | EWake | EHttp _ => true | _ => false end.

Definition targets_ok (s : Em) : Prop :=
  forall r t, running (em_delivery s) = Some r -> running_target r = Some t ->
    adapterTarget opts = Some t.

(** One step of the chain concerns the job at its head or the one running. *)
Inductive advance (s s' : Em) : Prop :=
| advance_idle : s' = s -> advance s s'
| advance_rejected f rest :
    running (em_delivery s) = None -> chain (em_delivery s) = JobReject f :: rest ->
    s' = (settle Live (Some f) (pop rest s)).2 -> advance s s'
| advance_start j rest e :
    running (em_delivery s) = None -> chain (em_delivery s) = j :: rest -> job_event j = Some e ->
    job_step e (pop rest s) s' -> advance s s'
| advance_running r :
    running (em_delivery s) = Some r -> job_step (running_event r) s s' -> advance s s'.

Lemma post_job_step t e r s :
  adapterTarget opts = Some t -> running_event r = e ->
  (forall t', running_target r = Some t' -> t' = t) ->
  job_step e s ((postOnce json t e ;? set_running (Some r)) s).2.
Proof.
  intros Ht Hr Hrt. split; cbn; auto; [by split|by eauto|]. right. eexists. split; [done|].
  split; [done|]. intros t' ->%Hrt. done.
Qed.

Lemma advancing_advance op s :
  targets_ok s -> advancing op = true -> advance s (emitter_step s op).
Proof.
  intros Htgt. unfold emitter_step. destruct op as [| | | | | | | |o| | | | |]; try done;
    intros _; cbn [emitter_exec].
  - unfold start_job. destruct (running (em_delivery s)) eqn:Hr; [by apply advance_idle|].
    destruct (chain (em_delivery s)) as [|[f|e n o|e] rest] eqn:Hc; [by apply advance_idle|..].
    + by eapply advance_rejected.
    + eapply advance_start; [done|done|done|]. apply deliverPayload_job_step.
    + eapply advance_start; [done|done|done|]. destruct (adapterTarget opts) eqn:Ht.
      * by apply post_job_step.
      * apply settle_job_step.
  - unfold wake. destruct (running (em_delivery s)) as [[| |]|] eqn:Hr; try by apply advance_idle.
    eapply advance_running; [done|]. apply post_job_step; [|done|cbn; congruence].
    by eapply Htgt.
  - unfold http_done. destruct (running (em_delivery s)) as [[e n og t|e n og t|e]|] eqn:Hr;
      try by apply advance_idle.
    + eapply advance_running; [done|]. apply fetched_job_step. by eapply Htgt.
    + eapply advance_running; [done|]. apply settle_job_step.
Qed.

(** *** Persisted before posted *)

(** A durable event is in the outbox, with exactly this payload. *)
Definition backed (db : Outbox) (e : OutboundEvent) : Prop :=
  exists r, db !! ev_eventId e = Some r /\ ob_payload r = e.

Definition sendable (db : Outbox) (e : OutboundEvent) : Prop :=
  body_best_effort (ev_body e) = true \/ backed db e.

Definition post_ok (db : Outbox) (p : Post) : Prop :=
  exists t, adapterTarget opts = Some t /\ p = post_of t (post_event p) /\ sendable db (post_event p).

Record jobs_ok (s : Em) : Prop := {
  jobs_rows : forall k r, em_db s !! k = Some r -> row_ok k r;
  jobs_targets : targets_ok s;
  jobs_chain : Forall (fun j => forall e, job_event j = Some e -> sendable (em_db s) e)
    (chain (em_delivery s));
  jobs_running : forall r, running (em_delivery s) = Some r -> sendable (em_db s) (running_event r);
  jobs_posts : Forall (post_ok (em_db s)) (posts (em_delivery s));
}.

(** Rows stay and keep their payload. *)
Definition keeps_payloads (db db' : Outbox) : Prop :=
  forall k r, db !! k = Some r -> exists r', db' !! k = Some r' /\ ob_payload r' = ob_payload r.

Lemma same_contents_keeps db db' : same_contents db db' -> keeps_payloads db db'.
Proof.
  intros Hs k r Hr. destruct (same_contents_lookup' _ _ _ _ Hs Hr) as (r' & Hr' & Hc).
  exists r'. split; [done|]. by destruct Hc as (_ & _ & _ & _ & _ & _ & ? & _).
Qed.

Lemma insert_keeps db e : db !! ev_eventId e = None -> keeps_payloads db (<[ev_eventId e := new_row e]> db).
Proof. intros Hn k r Hr. exists r. split; [|done]. rewrite lookup_insert_ne; congruence. Qed.

Lemma sendable_mono db db' e : keeps_payloads db db' -> sendable db e -> sendable db' e.
Proof.
  intros Hk [Hb|(r & Hr & He)]; [by left|right]. destruct (Hk _ _ Hr) as (r' & Hr' & Hp).
  exists r'. split; [done|]. congruence.
Qed.

Lemma post_ok_mono db db' p : keeps_payloads db db' -> post_ok db p -> post_ok db' p.
Proof.
  intros Hk (t & Ht & Hp & Hs). exists t. split; [done|]. split; [done|]. by eapply sendable_mono.
Qed.

Lemma same_contents_row_ok db db' :
  same_contents db db' -> (forall k r, db !! k = Some r -> row_ok k r) ->
  forall k r, db' !! k = Some r -> row_ok k r.
Proof.
  intros Hs Hrows k r' (r & Hr & Hc)%(same_contents_lookup _ _ _ _ Hs).
  destruct (Hrows k r Hr) as (H1 & H2 & H3 & H4).
  destruct Hc as (? & ? & ? & ? & ? & ? & ? & ?). unfold row_ok. naive_solver congruence.
Qed.

(** A step that keeps the rows and only appends sendable jobs. *)
Lemma jobs_ok_enqueue s s' js :
  jobs_ok s -> keeps_payloads (em_db s) (em_db s') ->
  (forall k r, em_db s' !! k = Some r -> row_ok k r) ->
  chain (em_delivery s') = chain (em_delivery s) ++ js ->
  running (em_delivery s') = running (em_delivery s) ->
  posts (em_delivery s') = posts (em_delivery s) ->
  Forall (fun j => forall e, job_event j = Some e -> sendable (em_db s') e) js ->
  jobs_ok s'.
Proof.
  intros [Hr Ht Hc Hrun Hp] Hk Hr' Hc' Hrun' Hp' Hjs. split.
  - done.
  - unfold targets_ok. by rewrite Hrun'.
  - rewrite Hc'. apply Forall_app. split; [|done]. eapply Forall_impl; [exact Hc|].
    intros j Hj e He. eapply sendable_mono; [done|]. by apply Hj.
  - rewrite Hrun'. intros r Hrr. eapply sendable_mono; [done|]. by apply Hrun.
  - rewrite Hp'. eapply Forall_impl; [exact Hp|]. intros p. by apply post_ok_mono.
Qed.

Lemma jobs_ok_job_step e s s' :
  jobs_ok s -> sendable (em_db s) e -> job_step e s s' -> jobs_ok s'.
Proof.
  intros [Hr Ht Hc Hrun Hp] He [Hq Hch Hb Hpo Hru].
  pose proof (same_contents_keeps _ _ (quiet_db _ _ Hq)) as Hk. split.
  - eapply same_contents_row_ok; [apply (quiet_db _ _ Hq)|done].
  - intros r t Hr' Htt. destruct Hru as [Hn|(r0 & Hr0 & _ & Htr)]; [congruence|].
    rewrite Hr0 in Hr'. injection Hr' as <-. by apply Htr.
  - rewrite Hch. eapply Forall_impl; [exact Hc|]. intros j Hj e' He'.
    eapply sendable_mono; [done|]. by apply Hj.
  - intros r Hr'. destruct Hru as [Hn|(r0 & Hr0 & <- & Htr)]; [congruence|].
    rewrite Hr0 in Hr'. injection Hr' as <-. by eapply sendable_mono.
  - assert (Forall (post_ok (em_db s')) (posts (em_delivery s))) as Hold
      by (eapply Forall_impl; [exact Hp|]; intros p; by apply post_ok_mono).
    destruct Hpo as [->|(t & Htt & ->)]; [done|]. apply Forall_app. split; [done|].
    apply Forall_singleton. exists t. split; [done|]. split; [done|]. cbn. by eapply sendable_mono.
Qed.

Lemma jobs_ok_pop j rest s :
  jobs_ok s -> chain (em_delivery s) = j :: rest -> jobs_ok (pop rest s).
Proof.
  intros [Hr Ht Hc Hrun Hp] Hch. rewrite Hch in Hc. apply Forall_cons in Hc as [_ Hc].
  split; try done.
Qed.

Lemma jobs_ok_advance s s' : jobs_ok s -> advance s s' -> jobs_ok s'.
Proof.
  intros Hok [->|f rest Hr Hc ->|j rest e Hr Hc Hj Hstep|r Hr Hstep].
  - done.
  - pose proof (jobs_ok_pop _ _ _ Hok Hc) as [? ? ? ? ?]. by split.
  - eapply jobs_ok_job_step; [by eapply jobs_ok_pop| |exact Hstep].
    pose proof (jobs_chain s Hok) as Hall. rewrite Hc in Hall. apply Forall_cons in Hall as [Hall _].
    by apply Hall.
  - eapply jobs_ok_job_step; [done| |exact Hstep]. by apply (jobs_running s Hok).
Qed.

Lemma jobs_ok_durable e s :
  jobs_ok s -> jobs_ok (deliverDurable e s).2.
Proof.
  intros Hok. pose proof (jobs_rows s Hok) as Hrows.
  destruct (deliverDurable_outcome e s) as [f h Hp ->|h Hp Hc Hnone ->|h Hp _ ->].
  - eapply (jobs_ok_enqueue s _ [JobReject f]); cbn; try done.
    + by apply same_contents_keeps.
    + by apply Forall_singleton.
  - eapply (jobs_ok_enqueue s _ [JobDurable e 0 Live]); cbn; try done.
    + by apply insert_keeps.
    + intros k r. rewrite lookup_insert_Some. intros [[<- <-]|[_ Hr]]; [done|by apply Hrows].
    + apply Forall_singleton. intros e' [= <-]. right. exists (new_row e).
      by rewrite lookup_insert_eq.
  - eapply (jobs_ok_enqueue s _ []); cbn; try done; [by apply same_contents_keeps|by rewrite app_nil_r].
Qed.

Lemma jobs_ok_meta s s' :
  jobs_ok s -> em_db s' = em_db s -> em_delivery s' = em_delivery s -> jobs_ok s'.
Proof. intros [] Hdb Hd. split; unfold targets_ok; rewrite ?Hdb, ?Hd; done. Qed.

Lemma prim_jobs_ok s s' : prim s s' -> jobs_ok s -> jobs_ok s'.
Proof.
  intros Hstep Hok. destruct Hstep as [t s Ht|s|k t b s Hb _|k t b s Hb _ _|k t b s Hb Ht _].
  - by apply (jobs_ok_meta s).
  - by apply (jobs_ok_meta s).
  - eapply (jobs_ok_enqueue s _ [JobBestEffort (event_at k t b s)]); cbn; try done.
    + by apply same_contents_keeps.
    + apply (jobs_rows s Hok).
    + apply Forall_singleton. intros e [= <-]. by left.
  - apply jobs_ok_durable. by apply (jobs_ok_meta s).
  - apply jobs_ok_durable. by apply (jobs_ok_meta s).
Qed.

(** *** Recovery *)

(** An outbox another process may have left behind. *)
Record outbox_ok (db : Outbox) : Prop := {
  ok_rows : forall k r, db !! k = Some r -> row_ok k r;
  ok_mine : forall k r, db !! k = Some r -> mine r = true -> 0 < ob_sequence r;
  ok_sequences : forall k1 r1 k2 r2, db !! k1 = Some r1 -> db !! k2 = Some r2 ->
    mine r1 = true -> mine r2 = true -> ob_sequence r1 = ob_sequence r2 -> k1 = k2;
  ok_one_terminal : forall k1 r1 k2 r2, db !! k1 = Some r1 -> db !! k2 = Some r2 ->
    is_terminal_row r1 = true -> is_terminal_row r2 = true -> k1 = k2;
}.

Lemma emitter_inv_outbox s : emitter_inv s -> outbox_ok (em_db s).
Proof.
  intros [Hr Hm Hs Ht H1 Hp]. split; try done. intros k r Hk Hmine. by apply (Hm k r).
Qed.

Lemma max_sequence_fold rs :
  match foldr (fun r m => Some (match m with None => ob_sequence r | Some n => Z.max (ob_sequence r) n end))
          None rs with
  | Some m => (forall r, r ∈ rs -> ob_sequence r <= m) /\ exists r, r ∈ rs /\ ob_sequence r = m
  | None => rs = []
  end.
Proof.
  induction rs as [|r rs IH]; cbn; [done|].
  destruct (foldr _ None rs) as [m|].
  - destruct IH as [Hle (r0 & Hin & Heq)]. split.
    + intros r' [->|Hr']%elem_of_cons; [lia|]. specialize (Hle r' Hr'). lia.
    + destruct (Z.max_spec (ob_sequence r) m) as [[_ ->]|[_ ->]].
      * exists r0. split; [by right|done].
      * exists r. split; [by left|done].
  - subst. split; [|exists r; by split; [left|]].
    intros r' [->|Hr']%elem_of_cons; [lia|]. by apply elem_of_nil in Hr'.
Qed.

Lemma max_sequence_spec db :
  match max_sequence db with
  | Some m => (forall k r, db !! k = Some r -> mine r = true -> ob_sequence r <= m) /\
      exists k r, db !! k = Some r /\ mine r = true /\ ob_sequence r = m
  | None => forall k r, db !! k = Some r -> mine r = false
  end.
Proof.
  unfold max_sequence. pose proof (max_sequence_fold (sql_select sequence_order mine db)) as Hf.
  destruct (foldr _ None _) as [m|].
  - destruct Hf as [Hle (r & Hin & Heq)]. apply elem_of_sql_select in Hin as [Hm [k Hk]].
    split; [|eauto]. intros k' r' Hk' Hm'. apply Hle, elem_of_sql_select. eauto.
  - intros k r Hk. destruct (mine r) eqn:Hm; [|done].
    assert (r ∈ sql_select sequence_order mine db) as Hin by (apply elem_of_sql_select; eauto).
    rewrite Hf in Hin. by apply elem_of_nil in Hin.
Qed.

Lemma new_emitter_inv calls log db h s :
  outbox_ok db -> new_emitter calls log db h = Ok s -> emitter_inv s.
Proof.
  intros [Hr Hm Hs H1]. unfold new_emitter. destruct check_options; [|done]. cbn [result_bind].
  intros [= <-]. pose proof (max_sequence_spec db) as Hmax. split; cbn; try done.
  - intros k r Hk Hmine. specialize (Hm k r Hk Hmine).
    destruct (max_sequence db) as [m|]; [|by rewrite (Hmax k r Hk) in Hmine].
    destruct Hmax as [Hle _]. specialize (Hle k r Hk Hmine). lia.
  - intros k r Hk Hterm. rewrite bool_decide_eq_false_2; [done|]. intros Hnil.
    assert (r ∈ sql_select sequence_order (fun r => mine r && is_terminal_type (ob_eventType r)) db)
      as Hin by (apply elem_of_sql_select; eauto).
    rewrite Hnil in Hin. by apply elem_of_nil in Hin.
  - destruct (max_sequence db) as [m|]; [|done].
    destruct Hmax as (_ & k & r & Hk & Hmine & <-). specialize (Hm k r Hk Hmine). lia.
Qed.

Lemma new_emitter_fields calls log db h s :
  new_emitter calls log db h = Ok s ->
  em_db s = db /\ em_delivery s = mkDelivery [] None None None 0 log /\ em_calls s = calls.
Proof.
  unfold new_emitter. destruct check_options; [|done]. by intros [= <-].
Qed.

(** What the recovery calls do to the rows and the chain. *)
Definition recovery_jobs (s : Em) (js : list Job) : Prop :=
  Forall (fun j => forall e, job_event j = Some e -> backed (em_db s) e) js.

Record recovers (s s' : Em) : Prop := {
  rec_quiet : quiet s s';
  rec_running : running (em_delivery s') = running (em_delivery s);
  rec_posts : posts (em_delivery s') = posts (em_delivery s);
  rec_chain : exists js, chain (em_delivery s') = chain (em_delivery s) ++ js /\ recovery_jobs s js;
}.

Lemma recovers_silent s s' : silent s s' -> recovers s s'.
Proof.
  intros [Hq Hd]. split; [done|by rewrite Hd..|]. exists []. rewrite Hd, app_nil_r.
  split; [done|constructor].
Qed.

Definition rows_ok (s : Em) : Prop := forall k r, em_db s !! k = Some r -> row_ok k r.

Lemma resume_recovers s : rows_ok s -> recovers s (resumePending s).2.
Proof.
  intros Hrows. unfold resumePending.
  destruct (resumePromise (em_delivery s)); [by apply recovers_silent|].
  destruct (em_closed s) eqn:Hcl; [by apply recovers_silent|].
  split; cbn; try done. eexists. split; [done|]. unfold recovery_jobs. apply Forall_fmap, Forall_forall.
  intros r [_ [k Hk]]%elem_of_sql_select e. cbn. intros [= <-]. exists r. split; [|done].
  destruct (Hrows k r Hk) as (_ & -> & _). done.
Qed.

Lemma retry_recovers i s : rows_ok s -> recovers s (retryPermanentFailure i s).2.
Proof.
  intros Hrows. unfold retryPermanentFailure.
  destruct (retrying i (em_delivery s)); [by apply recovers_silent|].
  unfold retryPermanentFailureOnce. destruct (em_closed s) eqn:Hc; [by apply recovers_silent|].
  destruct (em_db s !! i) as [row|] eqn:Hrow; [|by apply recovers_silent].
  destruct (mine row && _); [|by apply recovers_silent].
  unfold cbind at 1, on_hook. destruct (onDurablePrepared (ob_payload row) (em_hook s)) as [[[]|e] h] eqn:Hp;
    [|apply recovers_silent; pose proof (hook_prepared (em_hook s) (ob_payload row)) as Hh;
      rewrite Hp in Hh; split; [|done]; split; try done; by apply rtc_once].
  cbn [cbind tick em_db set_calls set_hook]. unfold cbind, tick. cbn.
  pose proof (outbox_update_content
    (fun r => has_event i r && has_status outbox_permanent_failure r)
    (set_outcome outbox_pending 0 None (nowUtc (em_calls s))) (em_db s) ltac:(done)) as Hcont.
  destruct (outbox_update _ _ (em_db s)) as [db' changes]. cbn in Hcont.
  assert (rtc hook_step (em_hook s) h) as Hh.
  { apply rtc_once. pose proof (hook_prepared (em_hook s) (ob_payload row)) as Hs. by rewrite Hp in Hs. }
  destruct (decide (changes = 1%nat)); cbn.
  - split; cbn; try done; [split; cbn; try done; lia|]. eexists. split; [done|].
    apply Forall_singleton. intros e'. cbn. intros [= <-]. exists row. split; [|done].
    by destruct (Hrows i row Hrow) as (_ & -> & _).
  - apply recovers_silent. split; [|done]. split; cbn; try done. lia.
Qed.

Lemma redeliver_recovers e s :
  rows_ok s -> recovers s (redeliverDurable e s).2 \/
    redeliverDurable e s = deliverDurable e s.
Proof.
  intros Hrows. unfold redeliverDurable. destruct (em_closed s); [by left; apply recovers_silent|].
  destruct (em_db s !! ev_eventId e) as [row|]; [|by right].
  destruct (mine row); [|by right]. left. destruct (negb _); [by apply recovers_silent|].
  destruct (ob_status row).
  - by apply resume_recovers.
  - apply recovers_silent, on_hook_silent. constructor.
  - by apply retry_recovers.
Qed.

Lemma redeliver_known e r s :
  rows_ok s -> em_db s !! ev_eventId e = Some r -> mine r = true -> recovers s (redeliverDurable e s).2.
Proof.
  intros Hrows Hr Hm. unfold redeliverDurable. destruct (em_closed s); [by apply recovers_silent|].
  rewrite Hr, Hm. destruct (negb _); [by apply recovers_silent|]. destruct (ob_status r).
  - by apply resume_recovers.
  - apply recovers_silent, on_hook_silent. constructor.
  - by apply retry_recovers.
Qed.

Lemma recovers_inv s s' : emitter_inv s -> recovers s s' -> emitter_inv s'.
Proof.
  intros Hinv [[_ Hdb _ Hseq Ht _] _ _ _].
  apply (emitter_inv_same s); [done|done|lia|by rewrite Ht].
Qed.

Lemma recovers_jobs_ok s s' : jobs_ok s -> recovers s s' -> jobs_ok s'.
Proof.
  intros Hok [Hq Hrun Hposts (js & Hc & Hjs)].
  pose proof (same_contents_keeps _ _ (quiet_db _ _ Hq)) as Hk.
  eapply (jobs_ok_enqueue s s' js); try done.
  - eapply same_contents_row_ok; [apply (quiet_db _ _ Hq)|apply (jobs_rows s Hok)].
  - eapply Forall_impl; [exact Hjs|]. intros j Hj e He. eapply sendable_mono; [done|]. right. by apply Hj.
Qed.

Lemma advance_inv s s' : emitter_inv s -> advance s s' -> emitter_inv s'.
Proof.
  intros Hinv Hadv.
  assert (forall s1, em_db s1 = em_db s -> em_sequence s1 = em_sequence s -> em_turn s1 = em_turn s ->
    forall s2, quiet s1 s2 -> emitter_inv s2) as Hgo.
  { intros s1 Hd Hs Ht s2 [_ Hdb _ Hseq Hturn _]. apply (emitter_inv_same s);
      [done|by rewrite <- Hd|lia|by rewrite Hturn, Ht]. }
  destruct Hadv as [->|f rest Hr Hc ->|j rest e Hr Hc Hj [Hq _ _ _ _]|r Hr [Hq _ _ _ _]].
  - done.
  - by apply (Hgo s).
  - by apply (Hgo (pop rest s)).
  - by apply (Hgo s).
Qed.

(** A redelivery is of an event the outbox holds for the correlation. *)
Definition redelivers_known (s : Em) (op : emitter_op) : Prop :=
  match op with
  | ERedeliver e => exists r, em_db s !! ev_eventId e = Some r /\ mine r = true
  | _ => True
  end.

Lemma step_jobs_ok op s : jobs_ok s -> jobs_ok (emitter_step s op).
Proof.
  intros Hok. destruct (emission op) eqn:Hem.
  { eapply emission_invariant; [|done|done]. intros s1 s2. apply prim_jobs_ok. }
  destruct (advancing op) eqn:Had.
  { eapply jobs_ok_advance; [done|]. apply advancing_advance; [apply (jobs_targets s Hok)|done]. }
  pose proof (jobs_rows s Hok) as Hrows. unfold emitter_step.
  destruct op; try done; cbn [emitter_exec].
  - eapply recovers_jobs_ok; [done|by apply resume_recovers].
  - eapply recovers_jobs_ok; [done|by apply retry_recovers].
  - destruct (redeliver_recovers event s Hrows) as [Hrec| ->];
      [by eapply recovers_jobs_ok|by apply jobs_ok_durable].
  - by apply (jobs_ok_meta s).
  - destruct (new_emitter _ _ _ _) as [s'|] eqn:Hnew; [|done]. cbn.
    apply new_emitter_fields in Hnew as (Hdb & Hd & _). destruct Hok as [? ? ? ? ?].
    split; unfold targets_ok; rewrite ?Hdb, ?Hd; done.
Qed.

Lemma step_inv op s :
  emitter_inv s -> jobs_ok s -> redelivers_known s op -> emitter_inv (emitter_step s op).
Proof.
  intros Hinv Hok Hnr. destruct (emission op) eqn:Hem.
  { eapply emission_invariant; [|done|done]. intros s1 s2. apply prim_inv. }
  destruct (advancing op) eqn:Had.
  { eapply advance_inv; [done|]. apply advancing_advance; [apply (jobs_targets s Hok)|done]. }
  pose proof (jobs_rows s Hok) as Hrows. unfold emitter_step.
  destruct op; try done; cbn [emitter_exec].
  - eapply recovers_inv; [done|by apply resume_recovers].
  - eapply recovers_inv; [done|by apply retry_recovers].
  - destruct Hnr as (r & Hr & Hm). eapply recovers_inv; [done|by eapply redeliver_known].
  - by apply (emitter_inv_same s).
  - destruct (new_emitter _ _ _ _) as [s'|] eqn:Hnew; [|done]. cbn.
    eapply new_emitter_inv; [|exact Hnew]. by apply emitter_inv_outbox.
Qed.

(** *** Delivery order *)

Definition pending_events (s : Em) : list OutboundEvent :=
  match running (em_delivery s) with Some r => [running_event r] | None => [] end ++
  omap job_event (chain (em_delivery s)).

(** Every event in the order of its requests: sent, being sent, to be sent. *)
Definition timeline (s : Em) : list Z :=
  map ev_sequence (map post_event (posts (em_delivery s)) ++ pending_events s).

Definition in_order (s : Em) : Prop :=
  targets_ok s /\ StronglySorted Z.le (timeline s) /\ Forall (fun n => n <= em_sequence s) (timeline s).

(** Emitting and delivering, without recovery. *)
Definition straight (op : emitter_op) : bool := emission op || advancing op.

Lemma sorted_app_cons (l1 l2 : list Z) x :
  StronglySorted Z.le (l1 ++ x :: l2) ->
  StronglySorted Z.le (l1 ++ l2) /\ StronglySorted Z.le (l1 ++ x :: x :: l2).
Proof.
  induction l1 as [|y l1 IH]; cbn; intros Hs; inv Hs as [|? ? Hs' Hall].
  - split; [done|]. constructor; [by constructor|]. by constructor.
  - destruct (IH Hs') as [H1 H2]. apply Forall_app in Hall as [Ha Hb].
    split; constructor; try done; apply Forall_app; split; try done; [by inv Hb|].
    by constructor; [inv Hb|].
Qed.

Lemma sorted_snoc (l : list Z) x :
  StronglySorted Z.le l -> Forall (fun n => n <= x) l -> StronglySorted Z.le (l ++ [x]).
Proof.
  induction 1 as [|y l Hs IH Hall]; intros Hle; cbn; [by repeat constructor|].
  inv Hle. constructor; [by apply IH|]. apply Forall_app. split; [done|]. by repeat constructor.
Qed.

(** A job for the event at the head of what is pending keeps the order. *)
Lemma job_step_order e before after s s' :
  job_step e s s' ->
  map post_event (posts (em_delivery s)) = before -> omap job_event (chain (em_delivery s)) = after ->
  StronglySorted Z.le (map ev_sequence (before ++ e :: after)) ->
  Forall (fun n => n <= em_sequence s) (map ev_sequence (before ++ e :: after)) ->
  StronglySorted Z.le (timeline s') /\ Forall (fun n => n <= em_sequence s') (timeline s').
Proof.
  intros [Hq Hch _ Hpo Hru] Hb Ha Hs Hf. unfold timeline, pending_events.
  rewrite (quiet_sequence _ _ Hq), Hch, Ha.
  rewrite map_app in Hs, Hf. cbn in Hs, Hf. destruct (sorted_app_cons _ _ _ Hs) as [H1 H2].
  apply Forall_app in Hf as [Hf1 Hf2]. inv Hf2.
  destruct Hpo as [->|(t & _ & ->)], Hru as [->|(r & -> & <- & _)];
    rewrite ?map_app; cbn; rewrite ?map_app, ?Hb, <- ?app_assoc; cbn;
    (split; [done|]); rewrite ?Forall_app, ?Forall_cons; auto.
Qed.

Lemma job_step_targets e s s' : job_step e s s' -> targets_ok s'.
Proof.
  intros [_ _ _ _ [Hn|(r & Hr & _ & Ht)]] r' t Hr' Ht'; [congruence|].
  rewrite Hr in Hr'. simplify_eq. by apply Ht.
Qed.

Lemma in_order_advance s s' : in_order s -> advance s s' -> in_order s'.
Proof.
  intros (Htgt & Hs & Hf) [->|f rest Hr Hc ->|j rest e Hr Hc Hj Hstep|r Hr Hstep].
  - done.
  - revert Hs Hf. unfold in_order, timeline, pending_events, targets_ok. cbn.
    rewrite Hr, Hc. cbn. done.
  - split; [by eapply job_step_targets|].
    apply (job_step_order e _ _ _ _ Hstep eq_refl eq_refl); revert Hs Hf;
      unfold timeline, pending_events; rewrite Hr, Hc; cbn; by rewrite Hj.
  - split; [by eapply job_step_targets|].
    apply (job_step_order _ _ _ _ _ Hstep eq_refl eq_refl); revert Hs Hf;
      unfold timeline, pending_events; by rewrite Hr.
Qed.

(** Appending a job for an event that takes the next sequence, or none. *)
Lemma in_order_enqueue s s' js :
  in_order s -> em_sequence s' = em_sequence s + 1 ->
  chain (em_delivery s') = chain (em_delivery s) ++ js ->
  running (em_delivery s') = running (em_delivery s) ->
  posts (em_delivery s') = posts (em_delivery s) ->
  map ev_sequence (omap job_event js) = [] \/
    map ev_sequence (omap job_event js) = [em_sequence s + 1] ->
  in_order s'.
Proof.
  intros (Htgt & Hs & Hf) Hseq Hc Hr Hp Hjs.
  assert (timeline s' = timeline s ++ map ev_sequence (omap job_event js)) as Htl.
  { unfold timeline, pending_events. rewrite Hc, Hr, Hp, omap_app. by rewrite !map_app, <- !app_assoc. }
  split; [unfold targets_ok; by rewrite Hr|]. rewrite Htl.
  assert (Forall (fun n => n <= em_sequence s + 1) (timeline s)) as Hf'
    by (eapply Forall_impl; [exact Hf|]; cbn; lia).
  rewrite Hseq. destruct Hjs as [->| ->].
  - by rewrite app_nil_r.
  - split; [by apply sorted_snoc|]. apply Forall_app. split; [done|]. by repeat constructor.
Qed.

Lemma in_order_durable e s s0 :
  in_order s -> em_delivery s0 = em_delivery s -> em_sequence s0 = em_sequence s + 1 ->
  ev_sequence e = em_sequence s + 1 -> in_order (deliverDurable e s0).2.
Proof.
  intros Hs Hd Hseq He. destruct (deliverDurable_outcome e s0) as [f h _ ->|h _ _ _ ->|h _ _ ->].
  - eapply (in_order_enqueue s _ [JobReject f]); cbn; rewrite ?Hd; auto.
  - eapply (in_order_enqueue s _ [JobDurable e 0 Live]); cbn; rewrite ?Hd, ?He; auto.
  - eapply (in_order_enqueue s _ []); cbn; rewrite ?Hd, ?app_nil_r; auto.
Qed.

Lemma prim_in_order s s' : prim s s' -> in_order s -> in_order s'.
Proof.
  intros Hstep Hs. destruct Hstep as [t s Ht|s|k t b s Hb _|k t b s Hb _ _|k t b s Hb Ht _].
  - done.
  - done.
  - eapply (in_order_enqueue s _ [JobBestEffort (event_at k t b s)]); cbn; auto.
  - by apply (in_order_durable _ s).
  - by apply (in_order_durable _ s).
Qed.

Lemma step_in_order op s : straight op = true -> in_order s -> in_order (emitter_step s op).
Proof.
  unfold straight. intros [Hop|Hop]%orb_true_iff Hs.
  - eapply emission_invariant; [|done|done]. intros s1 s2. apply prim_in_order.
  - eapply in_order_advance; [done|]. apply advancing_advance; [apply Hs|done].
Qed.

Lemma sorted_rows where_ (db : Outbox) :
  StronglySorted Z.le (map ob_sequence (sql_select sequence_order where_ db)).
Proof.
  assert (StronglySorted (ordered_by sequence_order) (sql_select sequence_order where_ db)) as Hs.
  { apply Sorted_StronglySorted.
    - intros r1 r2 r3. unfold ordered_by, sequence_order. rewrite !Z.leb_le. lia.
    - apply Sorted_merge_sort. intros r1 r2. unfold ordered_by, sequence_order. rewrite !Z.leb_le. lia. }
  induction Hs as [|r rows Hs IH Hall]; cbn; constructor; [done|].
  apply Forall_map. eapply Forall_impl; [exact Hall|]. intros r'. cbn. unfold ordered_by, sequence_order.
  by rewrite Z.leb_le.
Qed.

(** A new emitter, and one that has just recovered its outbox. *)
Lemma started_in_order calls db h s0 (recovery : bool) :
  outbox_ok db -> new_emitter calls [] db h = Ok s0 ->
  in_order (run emitter_step s0 (if recovery then [EResume] else [])).
Proof.
  intros Hdb Hnew. pose proof (new_emitter_inv _ _ _ _ _ Hdb Hnew) as Hinv.
  pose proof (new_emitter_fields _ _ _ _ _ Hnew) as (_ & Hd & _).
  assert (in_order s0) as H0.
  { unfold in_order, timeline, pending_events, targets_ok. rewrite Hd. cbn. split; [done|]. split; constructor. }
  destruct recovery; [|done]. cbn [run fold_left]. unfold emitter_step. cbn [emitter_exec].
  unfold resumePending. rewrite Hd. cbn [resumePromise]. destruct (em_closed s0); [done|].
  set (rows := sql_select sequence_order _ (em_db s0)).
  assert (Forall (fun r => ev_sequence (ob_payload r) = ob_sequence r /\ ob_sequence r <= em_sequence s0) rows) as Hrows.
  { apply Forall_forall. intros r [Hr (k & Hk)]%elem_of_sql_select. apply andb_true_iff in Hr as [Hm _].
    destruct (inv_rows _ Hinv k r Hk) as (_ & _ & _ & Hs). destruct (inv_mine _ Hinv k r Hk Hm) as [_ Hle].
    by split. }
  assert (StronglySorted Z.le (map ob_sequence rows)) as Hsorted by apply sorted_rows.
  unfold in_order, targets_ok, timeline, pending_events. cbn.
  assert (map ev_sequence (omap job_event (map (fun r =>
    JobDurable (ob_payload r) (ob_attempts r) (Resumed (batches (em_delivery s0)))) rows)) = map ob_sequence rows) as Heq.
  { clear Hsorted. induction Hrows as [|r rows [Hr _] _ IH]; [done|]. cbn. by rewrite Hr, IH. }
  rewrite Hd in Heq. cbn in Heq. rewrite Heq. split; [done|]. split; [done|].
  apply Forall_map. eapply Forall_impl; [exact Hrows|]. by intros r [_ ?].
Qed.

(** *** The hooks see every durable event before the outbox does *)

Section lawful.
Context `{!LawfulHooks H}.

Definition rows_retained (s : Em) : Prop :=
  forall k r, em_db s !! k = Some r -> retained (em_hook s) (ob_payload r).

Lemma retained_rtc e h h' : rtc hook_step h h' -> retained h e -> retained h' e.
Proof. induction 1; eauto using retained_stable. Qed.

Lemma rows_retained_quiet s s' : quiet s s' -> rows_retained s -> rows_retained s'.
Proof.
  intros [Hh Hdb _ _ _ _] Hs k r' (r & Hr & Hc)%(same_contents_lookup _ _ _ _ Hdb).
  destruct Hc as (_ & _ & _ & _ & _ & _ & -> & _). eapply retained_rtc; [done|by eapply Hs].
Qed.

Lemma rows_retained_durable e s : rows_retained s -> rows_retained (deliverDurable e s).2.
Proof.
  intros Hs. pose proof (hook_prepared (em_hook s) e) as Hstep.
  destruct (deliverDurable_outcome e s) as [f h Hp ->|h Hp Hc Hnone ->|h Hp _ ->];
    rewrite Hp in Hstep; intros k r; cbn.
  - intros Hr. eapply retained_stable; [done|by eapply Hs].
  - rewrite lookup_insert_Some. intros [[<- <-]|[_ Hr]]; cbn.
    + by apply retained_now in Hp.
    + eapply retained_stable; [done|by eapply Hs].
  - intros Hr. eapply retained_stable; [done|by eapply Hs].
Qed.

Lemma advance_quiet s s' : advance s s' -> quiet s s'.
Proof.
  intros [->|f rest Hr Hc ->|j rest e Hr Hc Hj [[] _ _ _ _]|r Hr [Hq _ _ _ _]]; try done;
    by split.
Qed.

Lemma step_retained op s : jobs_ok s -> rows_retained s -> rows_retained (emitter_step s op).
Proof.
  intros Hok Hs. destruct (emission op) eqn:Hem.
  { eapply emission_invariant; [|done|done]. intros s1 s2 [] Hs1; try done;
      by apply rows_retained_durable. }
  destruct (advancing op) eqn:Had.
  { eapply rows_retained_quiet; [|done]. apply advance_quiet, advancing_advance;
      [apply (jobs_targets s Hok)|done]. }
  pose proof (jobs_rows s Hok) as Hrows. unfold emitter_step.
  destruct op; try done; cbn [emitter_exec].
  - eapply rows_retained_quiet; [by apply rec_quiet, resume_recovers|done].
  - eapply rows_retained_quiet; [by apply rec_quiet, retry_recovers|done].
  - destruct (redeliver_recovers event s Hrows) as [Hrec| ->];
      [eapply rows_retained_quiet; [by apply rec_quiet|done]|by apply rows_retained_durable].
  - unfold new_emitter. destruct check_options; [|done]. done.
Qed.
End lawful.

(** *** The retry schedule *)

Lemma lookup_outbox_update db i (u : OutboxRow -> OutboxRow) k :
  (forall k r, db !! k = Some r -> row_ok k r) ->
  (outbox_update (has_event i) u db).1 !! k = if decide (k = i) then u <$> db !! k else db !! k.
Proof.
  intros Hrows. rewrite outbox_update_eq. cbn [fst]. rewrite lookup_fmap.
  destruct (db !! k) as [r|] eqn:Hk; cbn; [|by case_decide].
  destruct (Hrows k r Hk) as [Hi _]. unfold has_event. rewrite Hi.
  destruct (String.eqb_spec k i); case_decide; done.
Qed.

(** Only the event's row differs, in its outcome. *)
Definition row_outcome (e : OutboundEvent) (db db' : Outbox) (st : OutboxStatus) (n : nat)
    (err : option string) : Prop :=
  (forall k, k <> ev_eventId e -> db' !! k = db !! k) /\
  exists r, db' !! ev_eventId e = Some r /\ ob_payload r = e /\
    ob_status r = st /\ ob_attempts r = n /\ ob_lastError r = err.

Lemma update_event_open i u s :
  em_closed s = false ->
  update_event i u s =
    (Ok tt, set_db (outbox_update (has_event i) (u (nowUtc (em_calls s))) (em_db s)).1
              (set_calls (S (em_calls s)) s)).
Proof. intros Hc. unfold update_event. by rewrite Hc. Qed.

Definition post_ready (e : OutboundEvent) (n : nat) (og : Origin) (t : AdapterTarget) (s s2 : Em) : Prop :=
  running (em_delivery s2) = Some (Posting e n og t) /\ em_db s2 = em_db s /\
  em_closed s2 = em_closed s /\ chain (em_delivery s2) = chain (em_delivery s) /\
  posts (em_delivery s2) = posts (em_delivery s) ++ [post_of t e].

(** Within the schedule the next request goes out, after its delay. *)
Lemma wake_posting e n og t err s :
  (n < totalPosts)%nat ->
  post_ready e n og t s (emitter_step (delivery_loop e n og t err s).2 EWake).
Proof.
  intros Hn. unfold delivery_loop. rewrite (proj2 (Nat.ltb_lt _ _) Hn).
  by destruct (0 <? _).
Qed.

Section calm.
Variables (e : OutboundEvent) (t : AdapterTarget) (og : Origin).
Hypothesis Hdelivered : forall h, is_ok (onDurableDelivered e h).1 = true.
Hypothesis Hfailed : forall err h, is_ok (onDurableFailed e err h).1 = true.

Lemma calm_hook (m : comp H EmitterError unit) (s : Em) :
  (forall h, is_ok (m h).1 = true) -> exists h, on_hook m s = (Ok tt, set_hook h s).
Proof.
  intros Hm. specialize (Hm (em_hook s)). unfold on_hook.
  destruct (m (em_hook s)) as [[[]|?] h]; [by exists h|done].
Qed.

(** The end of a delivery, from the state [s] its attempt [n] starts in. *)
Record delivered_as (s s' : Em) (requests : nat) (st : OutboxStatus) (n : nat)
    (err : option string) : Prop := {
  da_posts : posts (em_delivery s') = posts (em_delivery s) ++ replicate requests (post_of t e);
  da_chain : chain (em_delivery s') = chain (em_delivery s);
  da_running : running (em_delivery s') = None;
  da_settled : settled (em_delivery s') = None;
  da_row : row_outcome e (em_db s) (em_db s') st n err;
}.

Lemma acked_http n o s s2 :
  post_ready e n og t s s2 -> http_ok o = true -> em_closed s = false -> rows_ok s ->
  backed (em_db s) e ->
  delivered_as s (emitter_step s2 (EHttp o)) 1 outbox_delivered (S n) None.
Proof using Hdelivered.
  intros (Hr & Hdb & Hcl & Hc & Hp) Ho Hclosed Hrows (row & Hrow & Hpay).
  unfold emitter_step. cbn [emitter_exec]. unfold http_done. rewrite Hr. unfold fetched. rewrite Ho.
  unfold cbind at 1, markDelivered. rewrite update_event_open by congruence.
  match goal with |- context [on_hook ?m ?s] => destruct (calm_hook m s Hdelivered) as [h ->] end.
  split; cbn; try done; [by rewrite Hp..|].
  rewrite Hdb. split.
  - intros k Hk. rewrite lookup_outbox_update by done. by rewrite decide_False.
  - rewrite lookup_outbox_update, decide_True, Hrow by done. eexists. by split.
Qed.

Lemma failed_http n o s s2 :
  post_ready e n og t s s2 -> http_ok o = false -> em_closed s = false -> rows_ok s ->
  backed (em_db s) e ->
  exists s3, emitter_step s2 (EHttp o) =
      (delivery_loop e (S n) og t (http_error shown t o) s3).2 /\
    em_closed s3 = false /\ rows_ok s3 /\ backed (em_db s3) e /\
    chain (em_delivery s3) = chain (em_delivery s) /\
    posts (em_delivery s3) = posts (em_delivery s) ++ [post_of t e] /\
    (forall k, k <> ev_eventId e -> em_db s3 !! k = em_db s !! k) /\
    (forall r, em_db s3 !! ev_eventId e = Some r -> ob_attempts r = S n).
Proof.
  intros (Hr & Hdb & Hcl & Hc & Hp) Ho Hclosed Hrows (row & Hrow & Hpay).
  unfold emitter_step. cbn [emitter_exec]. unfold http_done. rewrite Hr. unfold fetched. rewrite Ho.
  unfold attempt_failed, recordAttempt. rewrite update_event_open by congruence.
  eexists. split; [reflexivity|]. cbn. rewrite Hdb. split; [congruence|].
  assert (forall k, (outbox_update (has_event (ev_eventId e))
    (fun r => set_outcome (ob_status r) (S n) (Some (http_error shown t o)) (nowUtc (em_calls s2)) r)
    (em_db s)).1 !! k = if decide (k = ev_eventId e) then
      (fun r => set_outcome (ob_status r) (S n) (Some (http_error shown t o)) (nowUtc (em_calls s2)) r)
        <$> em_db s !! k else em_db s !! k) as Hlook by (intros; by apply lookup_outbox_update).
  split; [|split].
  - unfold rows_ok. cbn. eapply same_contents_row_ok; [|exact Hrows].
    by apply outbox_update_content.
  - exists (set_outcome (ob_status row) (S n) (Some (http_error shown t o)) (nowUtc (em_calls s2)) row).
    by rewrite Hlook, decide_True, Hrow.
  - split; [done|]. split; [done|]. split.
    + intros k Hk. by rewrite Hlook, decide_False.
    + intros r. rewrite Hlook, decide_True, Hrow by done. by intros [= <-].
Qed.

Definition retry_ops (outs : list HttpOutcome) : list emitter_op :=
  flat_map (fun o => [EWake; EHttp o]) outs.

Definition all_failed (outs : list HttpOutcome) : Prop := Forall (fun o => http_ok o = false) outs.

Lemma delivered_as_trans s s3 s' k st n err :
  chain (em_delivery s3) = chain (em_delivery s) ->
  posts (em_delivery s3) = posts (em_delivery s) ++ [post_of t e] ->
  (forall k, k <> ev_eventId e -> em_db s3 !! k = em_db s !! k) ->
  delivered_as s3 s' k st n err -> delivered_as s s' (S k) st n err.
Proof.
  intros Hc Hp Hdb [H1 H2 H3 H4 [H5 H6]]. split; try done; try congruence.
  - rewrite H1, Hp, <- app_assoc. done.
  - split; [|done]. intros k' Hk. by rewrite H5, Hdb.
Qed.

(** Failures within the schedule, then an acknowledgement. *)
Lemma loop_acked fails ack n err s :
  all_failed fails -> http_ok ack = true -> (n + length fails < totalPosts)%nat ->
  em_closed s = false -> rows_ok s -> backed (em_db s) e ->
  delivered_as s (run emitter_step (delivery_loop e n og t err s).2 (retry_ops (fails ++ [ack])))
    (S (length fails)) outbox_delivered (S (n + length fails)) None.
Proof using Hdelivered.
  revert n err s. induction fails as [|o fails IH]; intros n err s Hf Hack Hn Hc Hrows Hb.
  - cbn in *. rewrite Nat.add_0_r in *.
    by apply (acked_http n ack); [apply wake_posting|..].
  - inv Hf. cbn [app retry_ops flat_map]. rewrite !run_cons. fold (retry_ops (fails ++ [ack])).
    destruct (failed_http n o s _ (wake_posting e n og t err s ltac:(cbn in Hn; lia)))
      as (s3 & -> & Hc3 & Hr3 & Hb3 & Hch3 & Hp3 & Hdb3 & _); try done.
    cbn [length]. replace (S (n + S (length fails))) with (S (S n + length fails)) by lia.
    eapply delivered_as_trans; [done|done|done|]. apply IH; try done. cbn in Hn. lia.
Qed.

(** The whole schedule fails. *)
Lemma loop_exhausted fails n err s :
  all_failed fails -> (n + length fails = totalPosts)%nat -> em_closed s = false -> rows_ok s ->
  backed (em_db s) e -> (forall r, em_db s !! ev_eventId e = Some r -> ob_attempts r = n) ->
  delivered_as s (run emitter_step (delivery_loop e n og t err s).2 (retry_ops fails))
    (length fails) outbox_permanent_failure totalPosts
    (Some (default err (http_error shown t <$> last fails))).
Proof using Hfailed.
  revert n err s. induction fails as [|o fails IH]; intros n err s Hf Hn Hc Hrows Hb Hatt.
  - cbn in Hn |- *. unfold delivery_loop. rewrite (proj2 (Nat.ltb_ge _ _)) by lia.
    unfold permanently_failed, settling, cbind, markPermanentFailure. rewrite update_event_open by done.
    match goal with |- context [on_hook ?m ?s] =>
      destruct (calm_hook m s (Hfailed err)) as [h ->] end.
    destruct Hb as (row & Hrow & Hpay).
    split; cbn; try done; [by rewrite app_nil_r|]. split.
    + intros k Hk. rewrite lookup_outbox_update by done. by rewrite decide_False.
    + rewrite lookup_outbox_update, decide_True, Hrow by done. eexists. split; [done|].
      cbn. rewrite (Hatt row Hrow). do 2 (split; [done|]). split; [lia|done].
  - inv Hf. cbn [retry_ops flat_map app]. rewrite !run_cons. fold (retry_ops fails).
    destruct (failed_http n o s _ (wake_posting e n og t err s ltac:(cbn in Hn; lia)))
      as (s3 & -> & Hc3 & Hr3 & Hb3 & Hch3 & Hp3 & Hdb3 & Hatt3); try done.
    cbn [length]. eapply delivered_as_trans; [done|done|done|].
    replace (default err (http_error shown t <$> last (o :: fails)))
      with (default (http_error shown t o) (http_error shown t <$> last fails))
      by (destruct fails; [done|]; cbn [last]; by destruct (last (_ :: _)) eqn:Hl; [|by apply last_None in Hl]).
    apply IH; try done. cbn in Hn. lia.
Qed.
End calm.

(** *** The content of the reply *)

Definition frame_type (f : Frame) (t : string) : bool := is_string t (prop "type" f).

(** What the frames of a turn add up to. *)
Definition turn_text (fs : list Frame) : string :=
  fold_left (fun acc f =>
    (acc +:+ (if frame_type f "message_update" then default "" (extractTextDelta f) else ""))%stdpp)
    fs "".

Definition add_attachment (acc : list WorkspaceAttachment) (f : Frame) : list WorkspaceAttachment :=
  match (if frame_type f "tool_execution_end" then extractDeliveryAttachment f else None) with
  | Some a =>
      if existsb (fun c => String.eqb (att_path c) (att_path a)) acc then acc else acc ++ [a]
  | None => acc
  end.

Definition turn_attachments (fs : list Frame) : list WorkspaceAttachment :=
  fold_left add_attachment fs [].

Definition turn_usage (fs : list Frame) : option TurnUsage :=
  fold_left (fun acc f =>
    match (if frame_type f "turn_end" then extractUsage f else None) with
    | Some u => Some u | None => acc end) fs None.

Definition turn_silent (fs : list Frame) : bool :=
  existsb (fun f => frame_type f "tool_execution_end" && is_string STAY_SILENT_TOOL (prop "toolName" f) &&
                    negb (is_true (prop "isError" f))) fs.

(** The one terminal event a turn of these frames ends in. *)
Definition terminal_body (fs : list Frame) (agent_end : Frame) : EventBody :=
  let usage := default (extractUsageFromAgentEnd agent_end) (turn_usage fs) in
  if agentEndHasModelError agent_end then
    turn_error "model_error" "Agent model request failed" true
  else if turn_silent fs then turn_reply "" [] usage
  else if is_empty (turn_text fs) && bool_decide (turn_attachments fs = []) then
    turn_error "empty_response" "Agent completed without producing a reply" false
  else turn_reply (turn_text fs) (turn_attachments fs) usage.

(** Operations of a turn before its end. *)
Definition turn_op (op : emitter_op) : bool :=
  match op with
  | EIngest f => negb (frame_type f "agent_end")
  | EPresence _ | EFlushProgress | EStart | EWake | EHttp _ => true
  | _ => false
  end.

Definition frames_of (ops : list emitter_op) : list Frame :=
  omap (fun op => match op with EIngest f => Some f | _ => None end) ops.

Definition accumulated (t : Turn) : string * list WorkspaceAttachment * option TurnUsage * bool * bool :=
  (replyText t, replyAttachments t, replyUsage t, staySilent t, terminalEmitted t).

Definition keeps_acc {A} (m : M A) : Prop :=
  forall s, accumulated (em_turn (m s).2) = accumulated (em_turn s).

Lemma acc_keeps_bind {A B} (m : M A) (k : A -> M B) :
  keeps_acc m -> (forall a, keeps_acc (k a)) -> keeps_acc (cbind m k).
Proof.
  intros Hm Hk s. unfold cbind. specialize (Hm s). destruct (m s) as [[a|e] s']; [|done].
  cbn in Hm. rewrite <- Hm. apply Hk.
Qed.

Lemma acc_keeps_turn f : (forall t, accumulated (f t) = accumulated t) -> keeps_acc (modify_turn f).
Proof. intros Hf s. apply Hf. Qed.

Lemma acc_keeps_ret {A} (a : A) : keeps_acc (cret a).
Proof. done. Qed.

Lemma acc_keeps_durable e : keeps_acc (deliverDurable e).
Proof. intros s. by rewrite deliverDurable_turn. Qed.

Lemma acc_keeps_make b : keeps_acc (make_event b).
Proof. done. Qed.

Lemma acc_keeps_started : keeps_acc ensureStarted.
Proof.
  intros s. unfold ensureStarted. destruct (startedEmitted (em_turn s)); [done|].
  unfold cbind, modify_turn, modify, tick, nextSequence. cbn [fst snd]. by rewrite deliverDurable_turn.
Qed.

Lemma acc_keeps_flush : keeps_acc flushProgress.
Proof.
  intros s. unfold flushProgress. destruct (pendingProgress (em_turn s)); [|done].
  apply acc_keeps_bind; [done|]. intros now. by case_match.
Qed.

Lemma acc_keeps_progress m : keeps_acc (handleProgressCandidate m).
Proof. apply acc_keeps_bind; [done|]. intros _. apply acc_keeps_flush. Qed.

Lemma acc_keeps_presence p : keeps_acc (emitPresence p).
Proof.
  intros s. unfold emitPresence. case_bool_decide; [done|].
  apply acc_keeps_bind; [done|]. intros _. apply acc_keeps_bind; [done|]. intros e. apply acc_keeps_durable.
Qed.

(** One frame's contribution. *)
Definition accumulate (acc : string * list WorkspaceAttachment * option TurnUsage * bool * bool)
    (f : Frame) : string * list WorkspaceAttachment * option TurnUsage * bool * bool :=
  let '(text, atts, usage, silent, terminal) := acc in
  ((text +:+ (if frame_type f "message_update" then default "" (extractTextDelta f) else ""))%stdpp,
   add_attachment atts f,
   (match (if frame_type f "turn_end" then extractUsage f else None) with
    | Some u => Some u | None => usage end),
   silent || (frame_type f "tool_execution_end" && is_string STAY_SILENT_TOOL (prop "toolName" f) &&
              negb (is_true (prop "isError" f))),
   terminal).

Lemma messageUpdate_acc f s :
  accumulated (em_turn (handleMessageUpdate f s).2) =
  accumulated (with_replyText (replyText (em_turn s) +:+ default "" (extractTextDelta f))%stdpp (em_turn s)).
Proof.
  unfold handleMessageUpdate. destruct (extractTextDelta f) as [[|c d]|]; cbn [default];
    try (destruct s as [? ? ? ? [] ? ?]; cbn; by rewrite append_nil_r).
  unfold cbind at 1, modify_turn at 1, modify.
  case_match; [done|].
  match goal with |- context [(emitDelta ?d ;? ?k) ?s] =>
    assert (keeps_acc (emitDelta d ;? k)) as Hk by
      (apply acc_keeps_bind; [done|intros _; apply acc_keeps_progress]); by rewrite (Hk s) end.
Qed.

Lemma toolEnd_acc f s :
  accumulated (em_turn (handleToolExecutionEnd f s).2) =
  accumulated (with_silent (staySilent (em_turn s) || (is_string STAY_SILENT_TOOL (prop "toolName" f) &&
              negb (is_true (prop "isError" f))))
    (with_attachments
      (match extractDeliveryAttachment f with
       | Some a => if existsb (fun c => String.eqb (att_path c) (att_path a)) (replyAttachments (em_turn s))
                   then replyAttachments (em_turn s) else replyAttachments (em_turn s) ++ [a]
       | None => replyAttachments (em_turn s)
       end) (em_turn s))).
Proof.
  destruct s as [? ? ? ? [? ? ? ? sil ? ? ? ?] ? ?].
  unfold handleToolExecutionEnd, cbind, modify_turn, modify, cret. cbn.
  destruct (extractDeliveryAttachment f) as [a|]; cbn;
    destruct (is_string _ _ && _); cbn; rewrite ?orb_true_r, ?orb_false_r; try done;
    by destruct (existsb _ _).
Qed.

Lemma is_string_true s v : is_string s v = true -> v = VString s.
Proof. destruct v as [| | | |t| |]; try done. cbn. intros H0%String.eqb_eq. by subst. Qed.

Lemma ingest_acc f s :
  frame_type f "agent_end" = false ->
  accumulated (em_turn (ingest f s).2) = accumulate (accumulated (em_turn s)) f.
Proof.
  intros Hend. unfold accumulate, add_attachment, frame_type in *. unfold accumulated at 2.
  set (v := prop "type" f) in *.
  assert (forall m : M unit, keeps_acc m -> accumulated (em_turn (m s).2) =
    ((replyText (em_turn s) +:+ "")%stdpp, replyAttachments (em_turn s), replyUsage (em_turn s),
     staySilent (em_turn s) || false, terminalEmitted (em_turn s))) as Hkeep.
  { intros m Hm. rewrite Hm. by rewrite append_nil_r, orb_false_r. }
  unfold ingest. fold v.
  destruct (is_string "turn_start" v) eqn:H0.
  { apply is_string_true in H0. rewrite H0 in *. apply Hkeep, acc_keeps_started. }
  destruct (is_string "message_update" v) eqn:H1.
  { apply is_string_true in H1. rewrite H1 in *. cbn. rewrite messageUpdate_acc.
    unfold accumulated. cbn. by rewrite orb_false_r. }
  destruct (is_string "tool_execution_end" v) eqn:H2.
  { apply is_string_true in H2. rewrite H2 in *. cbn. rewrite toolEnd_acc.
    unfold accumulated. cbn. by rewrite append_nil_r. }
  destruct (is_string "turn_end" v) eqn:H3.
  { apply is_string_true in H3. rewrite H3 in *. cbn. unfold handleTurnEnd, accumulated.
    destruct (extractUsage f); cbn; by rewrite append_nil_r, orb_false_r. }
  rewrite Hend. cbn [andb].
  destruct (_ || _ || _); apply Hkeep; [apply acc_keeps_progress|apply acc_keeps_ret].
Qed.
(** ** Theorems *)

(** A run of a fresh emitter on an outbox. *)
Definition emitter_run (s : Em) (ops : list emitter_op) : Em := run emitter_step s ops.


Lemma turn_op_straight op : turn_op op = true -> straight op = true.
Proof. by destruct op. Qed.

Lemma advance_turn_op op s :
  targets_ok s -> advancing op = true -> em_turn (emitter_step s op) = em_turn s.
Proof. intros Ht Hop. apply quiet_turn, advance_quiet, advancing_advance; done. Qed.

Lemma turn_op_acc op s :
  targets_ok s -> turn_op op = true ->
  accumulated (em_turn (emitter_step s op)) =
    fold_left accumulate (frames_of [op]) (accumulated (em_turn s)).
Proof.
  intros Ht Hop. destruct (advancing op) eqn:Had.
  { rewrite advance_turn_op by done. by destruct op. }
  destruct op; try done; cbn.
  - apply ingest_acc. cbn in Hop. by apply negb_true_iff in Hop.
  - apply acc_keeps_presence.
  - apply acc_keeps_flush.
Qed.

Lemma fold_accumulate fs text atts usage silent terminal :
  fold_left accumulate fs (text, atts, usage, silent, terminal) =
  (fold_left (fun acc f =>
    (acc +:+ (if frame_type f "message_update" then default "" (extractTextDelta f) else ""))%stdpp) fs text,
   fold_left add_attachment fs atts,
   fold_left (fun acc f =>
    match (if frame_type f "turn_end" then extractUsage f else None) with
    | Some u => Some u | None => acc end) fs usage,
   silent || turn_silent fs, terminal).
Proof.
  revert text atts usage silent. induction fs as [|f fs IH]; intros text atts usage silent; cbn.
  - by rewrite orb_false_r.
  - rewrite IH. by rewrite <- orb_assoc.
Qed.

(** The uuids still to be drawn name no row, and the handle is open. *)
Definition fresh (s : Em) : Prop :=
  em_closed s = false /\ forall k, (em_calls s <= k)%nat -> em_db s !! uuid k = None.

Lemma fresh_quiet s s' : quiet s s' -> fresh s -> fresh s'.
Proof.
  intros [_ Hdb Hc _ _ Hcalls] [Hcl Hf]. split; [congruence|]. intros k Hk.
  specialize (Hf k ltac:(lia)). specialize (Hdb (uuid k)). rewrite Hf in Hdb.
  by destruct (em_db s' !! uuid k).
Qed.

Section accepting.
Hypothesis Huuid : forall i j, uuid i = uuid j -> i = j.
Hypothesis Haccept : forall e h, is_ok (onDurablePrepared e h).1 = true.

Lemma fresh_durable k t b s s0 :
  fresh s -> (k < em_calls s)%nat -> em_db s0 = em_db s -> em_calls s0 = em_calls s ->
  em_closed s0 = em_closed s -> fresh (deliverDurable (event_at k t b s) s0).2.
Proof using Huuid.
  intros [Hcl Hf] Hk Hdb Hcalls Hc.
  destruct (deliverDurable_outcome (event_at k t b s) s0) as [f h _ ->|h _ _ _ ->|h _ _ ->];
    (split; cbn; [congruence|]); rewrite ?Hdb, ?Hcalls; try done.
  intros k' Hk'. rewrite lookup_insert_ne; [by apply Hf|]. cbn. intros Heq%Huuid. lia.
Qed.

Lemma prim_fresh s s' : prim s s' -> fresh s -> fresh s'.
Proof using Huuid.
  intros Hstep Hs. destruct Hstep as [t s Ht|s|k t b s Hb Hk|k t b s Hb _ Hk|k t b s Hb Ht Hk].
  - done.
  - destruct Hs as [Hc Hf]. split; [done|]. intros k Hk. apply Hf. cbn in Hk. lia.
  - done.
  - by apply fresh_durable.
  - by apply fresh_durable.
Qed.

Lemma straight_fresh op s : targets_ok s -> straight op = true -> fresh s -> fresh (emitter_step s op).
Proof using Huuid.
  intros Ht. unfold straight. intros [Hop|Hop]%orb_true_iff Hs.
  - eapply emission_invariant; [|done|done]. intros s1 s2. by apply prim_fresh.
  - eapply fresh_quiet; [|done]. by apply advance_quiet, advancing_advance.
Qed.

(** An accepted, fresh durable event is inserted and enqueued. *)
Lemma deliverDurable_fresh e s :
  em_closed s = false -> em_db s !! ev_eventId e = None ->
  exists h, deliverDurable e s =
    enqueue (JobDurable e 0 Live) (set_db (<[ev_eventId e := new_row e]> (em_db s)) (set_hook h s)).
Proof using Haccept.
  intros Hc Hn. unfold deliverDurable, on_hook. specialize (Haccept e (em_hook s)).
  destruct (onDurablePrepared e (em_hook s)) as [[[]|err] h]; [|done]. exists h.
  unfold cbind, persistEvent. cbn [em_closed em_db set_hook]. rewrite Hc.
  unfold sql_insert. cbn [primary_key outbox_schema row_check ob_eventId]. by rewrite Hn.
Qed.

Lemma ensureStarted_fresh s :
  fresh s -> exists s1, ensureStarted s = (Ok tt, s1) /\ fresh s1 /\
    startedEmitted (em_turn s1) = true /\ accumulated (em_turn s1) = accumulated (em_turn s).
Proof using Huuid Haccept.
  intros Hs. pose proof (acc_keeps_started s) as Hacc.
  assert (fresh (ensureStarted s).2) as Hf.
  { pose proof (emits_started s) as Hrtc. clear Hacc. revert Hs.
    induction Hrtc; eauto using prim_fresh. }
  revert Hacc Hf. unfold ensureStarted. destruct (startedEmitted (em_turn s)) eqn:Hst; [by eauto|].
  unfold cbind, modify_turn, modify, tick, nextSequence. cbn [fst snd].
  destruct Hs as [Hc Hfr].
  match goal with |- context [deliverDurable ?e ?s0] =>
    destruct (deliverDurable_fresh e s0) as [h Hd] end.
  { done. } { cbn. apply Hfr. lia. }
  intros Hacc Hf. rewrite Hd in Hacc, Hf |- *. eexists. split; [reflexivity|]. done.
Qed.

(** The terminal event of a turn, inserted and enqueued. *)
Definition terminated (b : EventBody) (s s' : Em) : Prop :=
  terminalEmitted (em_turn s') = true /\
  exists e js, ev_body e = b /\ em_db s !! ev_eventId e = None /\
    em_db s' !! ev_eventId e = Some (new_row e) /\
    chain (em_delivery s') = chain (em_delivery s) ++ js ++ [JobDurable e 0 Live].

Lemma terminal_fresh b s :
  fresh s ->
  let s' := ((ensureStarted ;? modify_turn (with_terminal true) ;?
              event <-? make_event b; deliverDurable event) s) in
  s'.1 = Ok tt /\ terminated b s s'.2.
Proof using Huuid Haccept.
  intros Hs. pose proof Hs as Hs0. destruct (ensureStarted_fresh s Hs) as (s1 & Hst & [Hc1 Hf1] & _ & _).
  assert (exists js, chain (em_delivery s1) = chain (em_delivery s) ++ js) as [js Hjs].
  { revert Hst. unfold ensureStarted. destruct (startedEmitted (em_turn s));
      [intros [= <-]; exists []; by rewrite app_nil_r|].
    unfold cbind, modify_turn, modify, tick, nextSequence. cbn [fst snd].
    match goal with |- context [deliverDurable ?e ?s0] =>
      pose proof (deliverDurable_outcome e s0) as Ho end.
    intros Heq. rewrite Heq in Ho. cbn in Ho.
    destruct Ho as [f h _ ->|h _ _ _ ->|h _ _ ->]; cbn; eauto.
    exists []. by rewrite app_nil_r. }
  assert (forall k, em_db s1 !! uuid k = None -> em_db s !! uuid k = None) as Hmono.
  { intros k. pose proof (emits_started s) as Hrtc. rewrite Hst in Hrtc. cbn in Hrtc.
    clear -Hrtc. induction Hrtc as [|x y z Hp _ IH]; [done|]. intros Hk. specialize (IH Hk).
    destruct Hp as [t s0 Ht|s0|k0 t b0 s0 Hb Hk0|k0 t b0 s0 Hb _ Hk0|k0 t b0 s0 Hb Ht Hk0]; try done;
      revert IH;
      match goal with |- context [deliverDurable ?e ?s1] =>
        destruct (deliverDurable_outcome e s1) as [f h _ ->|h _ _ _ ->|h _ _ ->] end; cbn; try done;
      by intros [? _]%lookup_insert_None. }
  unfold cbind at 1. rewrite Hst. unfold cbind, modify_turn, modify, make_event, tick, nextSequence, cret.
  cbn [fst snd cbind]. unfold cbind. cbn [fst snd].
  match goal with |- context [deliverDurable ?e ?s0] =>
    destruct (deliverDurable_fresh e s0) as [h ->] end.
  { done. } { cbn. apply Hf1. lia. }
  split; [done|]. split; [done|]. do 2 eexists. split; [|split; [|split]]; cbn.
  4: { rewrite Hjs, <- app_assoc. reflexivity. }
  - done.
  - cbn. apply Hmono, Hf1. lia.
  - by rewrite lookup_insert_eq.
Qed.
End accepting.

Lemma step_targets op s : straight op = true -> targets_ok s -> targets_ok (emitter_step s op).
Proof.
  unfold straight. intros [Hop|Hop]%orb_true_iff Ht.
  - eapply (emission_invariant targets_ok); [|done|done]. intros s2 s3 Hp Hs2.
    destruct Hp; try done;
      match goal with |- context [deliverDurable ?e ?s] =>
        destruct (deliverDurable_outcome e s) as [? ? _ ->|? _ _ _ ->|? _ _ ->]; exact Hs2 end.
  - destruct (advancing_advance op s Ht Hop) as [->|? ? ? ? ->|? ? ? ? ? ? Hj|? ? Hj];
      [done|done|by eapply job_step_targets..].
Qed.

Lemma turn_ops_run ops s :
  (forall i j, uuid i = uuid j -> i = j) ->
  Forall (fun op => turn_op op = true) ops -> targets_ok s -> fresh s ->
  fresh (run emitter_step s ops) /\
  accumulated (em_turn (run emitter_step s ops)) =
    fold_left accumulate (frames_of ops) (accumulated (em_turn s)).
Proof.
  intros Huuid. revert s. induction ops as [|op ops IH]; intros s Hall Ht Hf; [done|].
  inv Hall. rewrite run_cons.
  destruct (IH (emitter_step s op)) as [Hf' ->]; [done|..].
  - apply step_targets; [by apply turn_op_straight|done].
  - apply straight_fresh; [done|done|by apply turn_op_straight|done].
  - split; [done|]. rewrite turn_op_acc by done. by destruct op.
Qed.

Lemma agentEnd_ingest f : frame_type f "agent_end" = true -> ingest f = handleAgentEnd f.
Proof. intros Hf%is_string_true. unfold ingest. by rewrite Hf. Qed.

Lemma new_emitter_turn calls log db h s :
  new_emitter calls log db h = Ok s -> terminalEmitted (em_turn s) = false ->
  em_turn s = initial_turn /\ em_closed s = false.
Proof.
  unfold new_emitter. destruct check_options; [|done]. cbn [result_bind]. intros [= <-]. cbn.
  by destruct (negb _).
Qed.

(** C18: The content of the one terminal event: whatever deliveries, presence
    changes and HTTP outcomes interleave with the frames of a turn, [agent_end]
    puts on the outbox and enqueues a fresh event whose body is the error, the
    silence or the reply the frames add up to -- the concatenation of all text
    deltas, the attachments in order without repeated paths, the last usage --
    and any later [agent_end] changes nothing. *)
Theorem agent_end_terminal (calls : nat) (db : Outbox) (h : H) (s0 : Em) (ops : list emitter_op)
    (agent_end again : Frame) :
  (forall i j, uuid i = uuid j -> i = j) ->
  (forall k, (calls <= k)%nat -> db !! uuid k = None) ->
  (forall e h, is_ok (onDurablePrepared e h).1 = true) ->
  new_emitter calls [] db h = Ok s0 -> terminalEmitted (em_turn s0) = false ->
  Forall (fun op => turn_op op = true) ops ->
  frame_type agent_end "agent_end" = true -> frame_type again "agent_end" = true ->
  let s := emitter_run s0 ops in
  let '(r, s') := ingest agent_end s in
  r = Ok tt /\ terminated (terminal_body (frames_of ops) agent_end) s s' /\
  ingest again s' = (Ok tt, s').
Proof.
  intros Huuid Hfresh Haccept Hnew Hterm Hops Hend Hagain s.
  pose proof (new_emitter_fields _ _ _ _ _ Hnew) as (Hdb & Hd & Hcalls).
  destruct (new_emitter_turn _ _ _ _ _ Hnew Hterm) as [Hturn Hclosed].
  destruct (turn_ops_run ops s0 Huuid Hops) as [Hf Hacc].
  { unfold targets_ok. by rewrite Hd. }
  { split; [done|]. by rewrite Hdb, Hcalls. }
  fold (emitter_run s0 ops) in Hf, Hacc. fold s in Hf, Hacc.
  rewrite Hturn in Hacc. change (accumulated initial_turn) with ("", @nil WorkspaceAttachment, @None TurnUsage, false, false) in Hacc.
  rewrite fold_accumulate in Hacc. unfold accumulated in Hacc.
  injection Hacc as Htext Hatts Husage Hsilent Hterm'.
  assert (forall s', terminalEmitted (em_turn s') = true -> ingest again s' = (Ok tt, s')) as Hlast.
  { intros s' Ht'. rewrite agentEnd_ingest by done. unfold handleAgentEnd.
    rewrite Ht'. by rewrite orb_true_r. }
  assert (forall b, let s' := ((ensureStarted ;? modify_turn (with_terminal true) ;?
      event <-? make_event b; deliverDurable event) s) in
    s'.1 = Ok tt /\ terminated b s s'.2 /\ ingest again s'.2 = (Ok tt, s'.2)) as Hgo.
  { intros b. destruct (terminal_fresh Huuid Haccept b s Hf) as [Hok Ht]. cbv zeta.
    split; [done|]. split; [done|]. apply Hlast, Ht. }
  rewrite agentEnd_ingest by done. unfold handleAgentEnd. rewrite (proj1 Hf), Hterm'. cbn [orb].
  unfold terminal_body, turn_text, turn_attachments, turn_usage, emitProviderError.
  rewrite <- Hsilent, <- Htext, <- Hatts, <- Husage, (proj1 Hf), Hterm'. cbn [orb].
  destruct (agentEndHasModelError agent_end); [|destruct (staySilent (em_turn s));
    [|destruct (is_empty _ && _)]];
    match goal with |- context [make_event ?b] => specialize (Hgo b) end; cbv zeta in Hgo;
    match goal with |- let '(r, s') := ?m in _ => destruct m as [r s'] end; exact Hgo.
Qed.
Lemma new_emitter_jobs_ok calls db h s :
  (forall k r, db !! k = Some r -> row_ok k r) ->
  new_emitter calls [] db h = Ok s -> jobs_ok s.
Proof.
  intros Hrows Hnew. apply new_emitter_fields in Hnew as (Hdb & Hd & _).
  split; unfold targets_ok; rewrite ?Hdb, ?Hd; try done; constructor.
Qed.

(** C10: From a well-formed outbox, however frames, errors, cancellations, HTTP outcomes, recoveries, crashes
    and redeliveries of events that the outbox holds interleave, a correlation has
    at most one terminal event in its outbox, the terminal guard knows of it, and
    its durable events have distinct positive sequences that the counter never
    falls behind.  ([redeliverDurable] of an event that is in no row inserts it as
    it is, past the guard and the counter: [redelivery_past_guard].) *)
Theorem at_most_one_terminal (calls : nat) (db : Outbox) (h : H) (s0 : Em) (ops : list emitter_op) :
  outbox_ok db -> new_emitter calls [] db h = Ok s0 ->
  legal emitter_step redelivers_known s0 ops ->
  let s := emitter_run s0 ops in
  (forall k1 r1 k2 r2, em_db s !! k1 = Some r1 -> em_db s !! k2 = Some r2 ->
     is_terminal_row r1 = true -> is_terminal_row r2 = true -> k1 = k2) /\
  (forall k r, em_db s !! k = Some r -> is_terminal_row r = true ->
     terminalEmitted (em_turn s) = true) /\
  (forall k r, em_db s !! k = Some r -> mine r = true -> 0 < ob_sequence r <= em_sequence s) /\
  (forall k1 r1 k2 r2, em_db s !! k1 = Some r1 -> em_db s !! k2 = Some r2 ->
     mine r1 = true -> mine r2 = true -> ob_sequence r1 = ob_sequence r2 -> k1 = k2).
Proof.
  intros Hdb Hnew Hops s.
  assert (emitter_inv s /\ jobs_ok s) as [Hinv _].
  { apply (run_invariant_legal emitter_step redelivers_known (fun s => emitter_inv s /\ jobs_ok s)); [|done|].
    - intros s' op Hop [Hi Hj]. split; [by apply step_inv|by apply step_jobs_ok].
    - split; [by eapply new_emitter_inv|]. eapply new_emitter_jobs_ok; [|done]. apply (ok_rows db Hdb). }
  destruct Hinv as [Hr Hm Hs Ht H1 Hp]. done.
Qed.

(** C16: Nothing durable is POSTed before it is in the outbox: in every run,
    each request carries either a best-effort event or exactly the payload of
    a row of the outbox, is addressed to the adapter's callback and signed over
    the exact body; and with lawful hooks every row's event was accepted by
    [onDurablePrepared] and is still retained behind the hooks. *)
Theorem posts_are_persisted `{!LawfulHooks H} (calls : nat) (db : Outbox) (h : H) (s0 : Em)
    (ops : list emitter_op) :
  (forall k r, db !! k = Some r -> row_ok k r /\ retained h (ob_payload r)) ->
  new_emitter calls [] db h = Ok s0 ->
  let s := emitter_run s0 ops in
  (forall p, p ∈ posts (em_delivery s) ->
     exists t, adapterTarget opts = Some t /\
       post_url p = callbackUrl t /\ post_signature p = sign t (json (post_event p)) /\
       post_type p = event_type (post_event p) /\
       (body_best_effort (ev_body (post_event p)) = true \/
        exists r, em_db s !! ev_eventId (post_event p) = Some r /\ ob_payload r = post_event p)) /\
  (forall k r, em_db s !! k = Some r -> retained (em_hook s) (ob_payload r)).
Proof.
  intros Hdb Hnew s.
  assert (jobs_ok s /\ rows_retained s) as [Hok Hret].
  { apply (run_invariant emitter_step (fun s => jobs_ok s /\ rows_retained s)).
    - intros s' op [Hj Hr]. split; [by apply step_jobs_ok|by apply step_retained].
    - split; [eapply new_emitter_jobs_ok; [|done]; intros k r Hk; by apply Hdb|].
      unfold new_emitter in Hnew. destruct check_options; [|done]. injection Hnew as <-.
      intros k r Hk. exact (proj2 (Hdb k r Hk)). }
  split; [|done]. intros p Hp. pose proof (jobs_posts s Hok) as Hall.
  rewrite Forall_forall in Hall. destruct (Hall p Hp) as (t & Ht & Heq & Hsend).
  exists t. split; [done|]. do 3 (split; [by rewrite Heq|]). exact Hsend.
Qed.

(** C17: In one life of the emitter, with a recovery at its start or none, requests
    leave in sequence order: the sequences of the requests sent, the one being
    awaited and the jobs still queued never decrease, the undelivered events of
    earlier lives included.  (A recovery or a redelivery in mid-life queues
    undelivered events behind newer ones.) *)
Theorem posts_in_sequence_order (calls : nat) (db : Outbox) (h : H) (s0 : Em) (recovery : bool)
    (ops : list emitter_op) :
  outbox_ok db -> new_emitter calls [] db h = Ok s0 ->
  Forall (fun op => straight op = true) ops ->
  let s := emitter_run s0 ((if recovery then [EResume] else []) ++ ops) in
  StronglySorted Z.le (map ev_sequence (map post_event (posts (em_delivery s)) ++ pending_events s)) /\
  Forall (fun e => ev_sequence e <= em_sequence s) (pending_events s).
Proof.
  intros Hdb Hnew Hops s.
  assert (in_order s) as (_ & Hs & Hf).
  { unfold s, emitter_run. rewrite run_app.
    apply (run_invariant_if emitter_step (fun op => straight op = true) in_order); [|done|].
    - intros s' op Hop Hin. by apply step_in_order.
    - by eapply started_in_order. }
  split; [done|]. unfold timeline in Hf. rewrite map_app, Forall_app in Hf.
  destruct Hf as [_ Hf]. apply Forall_forall. intros e He.
  apply (proj1 (Forall_forall _ _) Hf). by apply (list_elem_of_fmap_2 ev_sequence).
Qed.

Lemma start_loop e og t rest s :
  running (em_delivery s) = None -> chain (em_delivery s) = JobDurable e 0 og :: rest ->
  adapterTarget opts = Some t ->
  emitter_step s EStart = (delivery_loop e 0 og t "" (pop rest s)).2.
Proof.
  intros Hr Hc Ht. unfold emitter_step. cbn [emitter_exec]. unfold start_job. rewrite Hr, Hc.
  unfold deliverPayload. by rewrite Ht.
Qed.

(** C19: The retry schedule, driven to its end: a durable event at the head of
    the chain is POSTed once per failure and once more, never more than
    [1 + retryDelaysMs.length] times; the first 2xx marks its row delivered
    with that number of attempts; a schedule that fails throughout retains it
    as a permanent failure with the last error; the chain then moves on, and no
    other row changes. *)
Theorem delivery_schedule (e : OutboundEvent) (t : AdapterTarget) (og : Origin) (rest : list Job)
    (s : Em) (fails : list HttpOutcome) (ack : HttpOutcome) :
  (forall h, is_ok (onDurableDelivered e h).1 = true) ->
  (forall err h, is_ok (onDurableFailed e err h).1 = true) ->
  adapterTarget opts = Some t -> em_closed s = false ->
  (forall k r, em_db s !! k = Some r -> row_ok k r) ->
  em_db s !! ev_eventId e = Some (new_row e) ->
  running (em_delivery s) = None -> chain (em_delivery s) = JobDurable e 0 og :: rest ->
  all_failed fails -> http_ok ack = true ->
  ((length fails <= length (retryDelaysMs opts))%nat ->
   let s' := run emitter_step s (EStart :: retry_ops (fails ++ [ack])) in
   posts (em_delivery s') = posts (em_delivery s) ++ replicate (S (length fails)) (post_of t e) /\
   running (em_delivery s') = None /\ chain (em_delivery s') = rest /\
   settled (em_delivery s') = None /\
   row_outcome e (em_db s) (em_db s') outbox_delivered (S (length fails)) None) /\
  (length fails = totalPosts ->
   let s' := run emitter_step s (EStart :: retry_ops fails) in
   posts (em_delivery s') = posts (em_delivery s) ++ replicate totalPosts (post_of t e) /\
   running (em_delivery s') = None /\ chain (em_delivery s') = rest /\
   settled (em_delivery s') = None /\
   row_outcome e (em_db s) (em_db s') outbox_permanent_failure totalPosts
     (http_error shown t <$> last fails)).
Proof.
  intros Hdel Hfail Ht Hc Hrows Hrow Hr Hch Hf Hack.
  assert (backed (em_db (pop rest s)) e) as Hb by (by exists (new_row e)).
  split; intros Hn; rewrite run_cons, (start_loop e og t rest) by done.
  - destruct (loop_acked e t og Hdel fails ack 0 "" (pop rest s)) as [H1 H2 H3 H4 H5]; try done.
    unfold totalPosts. lia.
  - destruct (loop_exhausted e t og Hfail fails 0 "" (pop rest s)) as [H1 H2 H3 H4 H5]; try done.
    { cbn. rewrite Hrow. by intros r [= <-]. }
    rewrite Hn in H1. do 4 (split; [done|]).
    assert (Some (default "" (http_error shown t <$> last fails)) = http_error shown t <$> last fails)
      as Hl.
    { destruct (last fails) eqn:Hlast; [done|]. apply last_None in Hlast. by subst. }
    by rewrite <- Hl.
Qed.
End delivery.
End emitter.

(** ** Witnesses *)

Lemma sorted_app_1 (l1 l2 : list Z) :
  StronglySorted Z.le (l1 ++ l2) -> StronglySorted Z.le l1 /\ StronglySorted Z.le l2.
Proof.
  induction l1 as [|x l1 IH]; cbn; intros Hs; [by split; [constructor|]|]. inv Hs as [|? ? Hs' Hall].
  apply Forall_app in Hall as [? ?]. destruct (IH Hs'). split; [by constructor|done].
Qed.

(** Hooks that record what they accept. *)
#[export] Instance recording_hooks : DurableHooks (list OutboundEvent) := {
  onDurablePrepared := fun e h => (Ok tt, h ++ [e]);
  onDurableDelivered := fun _ h => (Ok tt, h);
  onDurableFailed := fun _ _ h => (Ok tt, h);
}.

#[export] Program Instance recording_lawful : LawfulHooks (list OutboundEvent) := {
  retained := fun h e => e ∈ h;
}.
Next Obligation. intros e h h'. cbn. intros [= <-]. apply elem_of_app. right. by left. Qed.
Next Obligation. intros e h h' []; cbn; [|done..]. intros Hin. apply elem_of_app. by left. Qed.

Definition demo_opts : EmitterOptions :=
  mkOptions "chat" "room" "c1" (Some (mkTarget "http://cb" (fun body => body))) 1000 [0; 50] 5000.

Definition demo_uuid (k : nat) : string := (pretty.pretty (N.of_nat k) +:+ "")%stdpp.

Definition demo_json (e : OutboundEvent) : string := ev_eventId e.

Definition demo_clock (k : nat) : Z := Z.of_nat k.

Definition demo_frame (type : string) (ps : list (string * value)) : Frame :=
  ("type", VString type) :: ps.

Definition demo_delta (text : string) : Frame :=
  demo_frame "message_update"
    [("assistantMessageEvent", VObject [("type", VString "text_delta"); ("delta", VString text)])].

Definition demo_turn : list emitter_op :=
  [EIngest (demo_frame "turn_start" []); EStart; EIngest (demo_delta "Hel"); EHttp (HttpStatus 200);
   EIngest (demo_delta "lo"); EPresence active; EStart].

Definition demo_end : Frame := demo_frame "agent_end" [("messages", VArray [])].

Definition demo_start : Emitter (list OutboundEvent) :=
  mkEmitter ∅ false 0 0 initial_turn initial_delivery [].

Abbreviation demo_run := (emitter_run demo_opts demo_uuid demo_clock demo_clock demo_json
  (fun _ : Z => ""%string) demo_start).

Lemma outbox_ok_empty opts : outbox_ok opts ∅.
Proof. split; intros; by rewrite ?lookup_empty in *. Qed.

Lemma demo_uuid_inj i j : demo_uuid i = demo_uuid j -> i = j.
Proof. unfold demo_uuid. rewrite !append_nil_r. intros Heq%(inj _). lia. Qed.

Definition demo_crashed : list emitter_op :=
  demo_turn ++ [EIngest demo_end; ECancelled; ECrash; EResume].

Lemma at_most_one_terminal_witness :
  (is_terminal_row demo_opts <$> em_db (demo_run demo_crashed) !! "11") = Some true /\
  terminalEmitted (em_turn (demo_run demo_crashed)) = true.
Proof.
  split; [vm_compute; reflexivity|].
  destruct (at_most_one_terminal demo_opts demo_uuid demo_clock demo_clock demo_json (fun _ => "")
    0 ∅ [] demo_start demo_crashed (outbox_ok_empty demo_opts) eq_refl
    ltac:(repeat split)) as (_ & Hterm & _).
  destruct (em_db (demo_run demo_crashed) !! "11") as [r|] eqn:Hr;
    [|vm_compute in Hr; discriminate].
  apply (Hterm "11" r Hr). vm_compute in Hr. injection Hr as <-. reflexivity.
Defined.

Lemma posts_are_persisted_witness :
  Forall (fun p => post_url p = "http://cb") (posts (em_delivery (demo_run demo_turn))).
Proof.
  apply Forall_forall. intros p Hp.
  destruct (posts_are_persisted demo_opts demo_uuid demo_clock demo_clock demo_json (fun _ => "")
    0 ∅ [] demo_start demo_turn ltac:(intros k r Hk; by rewrite lookup_empty in Hk) eq_refl)
    as [Hall _].
   destruct (Hall p Hp) as (t & Ht & Hu & _). injection Ht as <-. exact Hu.
Defined.

(** An outbox with the undelivered event of an earlier life. *)
Definition demo_undelivered : Outbox :=
  {["e1" := new_row demo_opts (mkEvent "e1" "room" "c1" 1 5 turn_started)]}.

Definition demo_recovering : Emitter (list OutboundEvent) :=
  mkEmitter demo_undelivered false 1 0 initial_turn initial_delivery [].

Lemma demo_undelivered_ok : outbox_ok demo_opts demo_undelivered.
Proof.
  assert (forall k r, demo_undelivered !! k = Some r ->
    k = "e1" /\ r = new_row demo_opts (mkEvent "e1" "room" "c1" 1 5 turn_started)) as H.
  { intros k r. unfold demo_undelivered. by intros [<- <-]%lookup_singleton_Some. }
  split.
  - by intros k r [-> ->]%H.
  - by intros k r [-> ->]%H _.
  - by intros k1 r1 k2 r2 [-> ->]%H [-> ->]%H.
  - by intros k1 r1 k2 r2 [-> ->]%H [-> ->]%H.
Qed.

Definition demo_recovered : list emitter_op :=
  [EStart; EIngest (demo_frame "turn_start" []); EHttp (HttpStatus 200); EStart; EHttp (HttpStatus 200)].

Lemma posts_in_sequence_order_witness :
  let s := emitter_run demo_opts demo_uuid demo_clock demo_clock demo_json (fun _ : Z => ""%string)
    demo_recovering (EResume :: demo_recovered) in
  map ev_sequence (map post_event (posts (em_delivery s))) = [1; 2] /\
  StronglySorted Z.le (map ev_sequence (map post_event (posts (em_delivery s)))).
Proof.
  split; [vm_compute; reflexivity|].
  destruct (posts_in_sequence_order demo_opts demo_uuid demo_clock demo_clock demo_json (fun _ => "")
    0 demo_undelivered [] demo_recovering true demo_recovered demo_undelivered_ok
    ltac:(vm_compute; reflexivity) ltac:(repeat constructor)) as [Hs _].
  rewrite map_app in Hs. exact (proj1 (sorted_app_1 _ _ Hs)).
Defined.

(** A redelivery of an event that is in no row: two terminal events. *)
Example redelivery_past_guard :
  let s := demo_run (demo_turn ++ [EIngest demo_end; ERedeliver (mkEvent "e1" "room" "c1" 1 5 turn_cancelled)]) in
  map (fun r => (ob_eventType r, ob_sequence r)) (outboxByStatus demo_opts outbox_pending s) =
    [("turn.cancelled", 1); ("presence.changed", 4); ("turn.reply", 5)].
Proof. vm_compute. reflexivity. Qed.

Lemma agent_end_terminal_witness :
  exists s', ingest demo_opts demo_uuid demo_clock demo_end (demo_run demo_turn) = (Ok tt, s') /\
    terminated demo_opts (turn_reply "Hello" [] zero_usage) (demo_run demo_turn) s'.
Proof.
  pose proof (agent_end_terminal demo_opts demo_uuid demo_clock demo_clock demo_json (fun _ => "")
    0 ∅ [] demo_start demo_turn demo_end demo_end demo_uuid_inj
    ltac:(intros; apply lookup_empty) ltac:(done) eq_refl eq_refl ltac:(repeat constructor)
    eq_refl eq_refl) as Hthm. cbv zeta in Hthm.
  destruct (ingest _ _ _ demo_end (demo_run demo_turn)) as [r s'].
  destruct Hthm as (-> & Ht & _). exists s'. split; [reflexivity|exact Ht].
Defined.

Definition demo_event : OutboundEvent := mkEvent "e1" "room" "c1" 1 5 (turn_error "x" "y" true).

Definition demo_queued : Emitter (list OutboundEvent) :=
  mkEmitter {["e1" := new_row demo_opts demo_event]} false 1 9 initial_turn
    (mkDelivery [JobDurable demo_event 0 Live] None None None 0 []) [demo_event].

Lemma delivery_schedule_witness :
  let s' := run (emitter_step demo_opts demo_uuid demo_clock demo_clock demo_json (fun _ => ""))
              demo_queued (EStart :: retry_ops [HttpStatus 500; HttpError "timeout"; HttpStatus 204]) in
  length (posts (em_delivery s')) = 3%nat /\
  (exists r, em_db s' !! "e1" = Some r /\ ob_status r = outbox_delivered).
Proof.
  destruct (delivery_schedule demo_opts demo_uuid demo_clock demo_clock demo_json (fun _ => "")
    demo_event (mkTarget "http://cb" (fun body => body)) Live [] demo_queued
    [HttpStatus 500; HttpError "timeout"] (HttpStatus 204)) as [Hack _]; try done.
  - intros k r Hk. change (({["e1" := new_row demo_opts demo_event]} : Outbox) !! k = Some r) in Hk.
    apply lookup_singleton_Some in Hk as [<- <-]. done.
  - repeat constructor.
  - destruct (Hack ltac:(cbn; lia)) as (Hp & _ & _ & _ & _ & r & Hr & _ & Hst & _).
    split; [exact (f_equal length Hp)|]. exists r. split; [exact Hr|exact Hst].
Defined.

(** A hook that throws once the adapter has acknowledged is taken for a failed
    attempt: the acknowledged event is POSTed again until the schedule is
    exhausted, and ends as a permanent failure. *)
Definition refusing_hooks : DurableHooks (list OutboundEvent) := {|
  onDurablePrepared := fun e h => (Ok tt, h ++ [e]);
  onDurableDelivered := fun _ h => (Throw (HookError "cannot confirm"), h);
  onDurableFailed := fun _ _ h => (Ok tt, h);
|}.

Example acknowledged_event_posted_again :
  let s' := run (emitter_step (DurableHooks0 := refusing_hooks)
                   demo_opts demo_uuid demo_clock demo_clock demo_json (fun _ => ""))
              demo_queued (EStart :: retry_ops [HttpStatus 200; HttpStatus 200; HttpStatus 200]) in
  length (posts (em_delivery s')) = 3%nat /\
  ob_status <$> em_db s' !! "e1" = Some outbox_permanent_failure.
Proof. vm_compute. split; reflexivity. Qed.
