(* ===== verification/SessionRegistry.v ===== *)
(** * Session registry

    packages/core/src/session-registry.ts: one row per (adapterId,
    conversationKey), ownership by compare-and-set, and the creation of a
    session in the child, whose two RPC round-trips are awaits: a creation is a
    small state machine, [inflight] maps a conversation's storage key to the
    creation its promise belongs to. *)

From S2P Require Import Prelude JsString JsValue JsMap SqlTable AdapterRegistry.
From stdpp Require Import options.
#[local] Open Scope Z_scope.

Record SessionRecord : Type := mkSession {
  sr_adapterId : string;
  sr_conversationKey : string;
  sr_sessionFile : string;
  sr_createdAt : Z;
  sr_lastActive : Z;
  sr_currentOwner : option string;
}.

#[export] Instance session_record_eq_dec : EqDecision SessionRecord.
Proof. solve_decision. Defined.

#[export] Instance session_schema : Schema (string * string) SessionRecord := {
  primary_key := fun r => (sr_adapterId r, sr_conversationKey r);
  row_check := fun _ => true;
}.

Abbreviation Sessions := (@gmap (string * string)
  (@prod_eq_dec string String.eq_dec string String.eq_dec)
  (@prod_countable string String.eq_dec String.countable string String.eq_dec String.countable)
  SessionRecord).

Inductive SessionError : Type :=
| SessionGenericError (message : string)
| SessionExists (race : bool)
| NoMapping
| OwnerMismatchError (adapterId conversationKey : string) (expectedOwner : option string).

Record AcquireResult : Type := mkAcquire {
  acq_record : SessionRecord;
  acquired : bool;
}.

(** The part of an RPC response the registry reads. *)
Record RpcResult : Type := mkRpcResult {
  rpc_success : bool;
  rpc_data : value;
}.

(** ** Synchronous operations *)

Definition session_getRaw (adapterId conversationKey : string) (db : Sessions) :
    option SessionRecord := db !! (adapterId, conversationKey).

Definition session_get := session_getRaw.

Definition with_owner (owner : option string) (ts : Z) (r : SessionRecord) : SessionRecord :=
  mkSession (sr_adapterId r) (sr_conversationKey r) (sr_sessionFile r) (sr_createdAt r) ts owner.

(** [UPDATE]; the table has no [CHECK], so it cannot fail. *)
Definition session_update (w : SessionRecord -> bool) (u : SessionRecord -> SessionRecord)
    (db : Sessions) : Sessions * nat :=
  match sql_update w u db with Some r => r | None => (db, O) end.

(** [WHERE adapter_id = ? AND conversation_key = ?] *)
Definition has_conversation (adapterId conversationKey : string) (r : SessionRecord) : bool :=
  String.eqb (sr_adapterId r) adapterId && String.eqb (sr_conversationKey r) conversationKey.

(** [current_owner IS ?] *)
Definition owner_is (owner : option string) (r : SessionRecord) : bool :=
  bool_decide (sr_currentOwner r = owner).

(** [setOwner(adapterId, conversationKey, currentOwner, newOwner)] *)
Definition setOwner (ts : Z) (adapterId conversationKey : string)
    (currentOwner newOwner : option string) : comp Sessions SessionError AcquireResult := fun db =>
  let '(db', changes) := session_update
    (fun r => has_conversation adapterId conversationKey r && owner_is currentOwner r)
    (with_owner newOwner ts) db in
  match changes with
  | O => (Throw (OwnerMismatchError adapterId conversationKey currentOwner), db)
  | S _ =>
      match session_getRaw adapterId conversationKey db' with
      | None => (Throw NoMapping, db')
      | Some record =>
          (Ok (mkAcquire record (match newOwner with Some _ => true | None => false end)), db')
      end
  end.

(** [heartbeat(adapterId, conversationKey, owner)] *)
Definition heartbeat (ts : Z) (adapterId conversationKey owner : string) (db : Sessions) :
    bool * Sessions :=
  let '(db', changes) := session_update
    (fun r => has_conversation adapterId conversationKey r && owner_is (Some owner) r)
    (fun r => with_owner (sr_currentOwner r) ts r) db in
  ((0 <? changes)%nat, db').

(** [touch(adapterId, conversationKey)] *)
Definition touch (ts : Z) (adapterId conversationKey : string) (db : Sessions) : bool * Sessions :=
  let '(db', changes) := session_update (has_conversation adapterId conversationKey)
    (fun r => with_owner (sr_currentOwner r) ts r) db in
  ((0 <? changes)%nat, db').

(** [release(adapterId, conversationKey, owner)] *)
Definition release (ts : Z) (adapterId conversationKey owner : string) :
    comp Sessions SessionError SessionRecord := fun db =>
  let '(db', changes) := session_update
    (fun r => has_conversation adapterId conversationKey r && owner_is (Some owner) r)
    (with_owner None ts) db in
  match changes with
  | O =>
      match session_getRaw adapterId conversationKey db with
      | None => (Throw NoMapping, db)
      | Some _ => (Throw (OwnerMismatchError adapterId conversationKey (Some owner)), db)
      end
  | S _ =>
      match session_getRaw adapterId conversationKey db' with
      | None => (Throw NoMapping, db')
      | Some record => (Ok record, db')
      end
  end.

(** ** Creation *)

Inductive CreatePhase : Type :=
| AwaitNewSession
| AwaitGetState
| AwaitFinally (outcome : result SessionError SessionRecord).

(** A started [create]; [cr_tracked] when [getOrCreate] put its promise in
    [inflight]. *)
Record Creation : Type := mkCreation {
  cr_adapterId : string;
  cr_conversationKey : string;
  cr_parent : option string;
  cr_tracked : bool;
  cr_phase : CreatePhase;
}.

Definition at_phase (p : CreatePhase) (c : Creation) : Creation :=
  mkCreation (cr_adapterId c) (cr_conversationKey c) (cr_parent c) (cr_tracked c) p.

Record SessionRegistry : Type := mkSessionRegistry {
  sdb : Sessions;
  inflight : list (string * nat);
  creations : gmap nat Creation;
  next_creation : nat;
}.

(** What a call returns before its first await settles. *)
Inductive Acquisition : Type :=
| Switching (record : SessionRecord)
| Joined (creation : nat)
| Started (creation : nat).

(** [create(child, adapterId, conversationKey, parentSessionFile)] up to the
    await of [child.newSession(parentSessionFile)]. *)
Definition create (tracked : bool) (adapterId conversationKey : string) (parent : option string) :
    comp SessionRegistry SessionError nat := fun s =>
  if is_empty adapterId then (Throw (SessionGenericError "adapterId is required"), s)
  else if is_empty conversationKey then (Throw (SessionGenericError "conversationKey is required"), s)
  else
    match session_getRaw adapterId conversationKey (sdb s) with
    | Some _ => (Throw (SessionExists false), s)
    | None =>
        let i := next_creation s in
        (Ok i, mkSessionRegistry (sdb s) (inflight s)
           (<[i := mkCreation adapterId conversationKey parent tracked AwaitNewSession]> (creations s))
           (S i))
    end.

(** [getOrCreate(child, adapterId, conversationKey, parentConversationKey)].
    A rejected [create] is a promise whose [finally] also runs; it is in
    [inflight] until then. *)
Definition getOrCreate (adapterId conversationKey : string) (parentKey : option string) :
    comp SessionRegistry SessionError Acquisition := fun s =>
  match session_getRaw adapterId conversationKey (sdb s) with
  | Some existing => (Ok (Switching existing), s)
  | None =>
      let key := conversationStorageKey adapterId conversationKey in
      match jget key (inflight s) with
      | Some i => (Ok (Joined i), s)
      | None =>
          let parent :=
            match parentKey with
            | None | Some "" => None
            | Some p => sr_sessionFile <$> session_getRaw adapterId p (sdb s)
            end in
          match create true adapterId conversationKey parent s with
          | (Ok i, s) =>
              (Ok (Started i), mkSessionRegistry (sdb s) (jset key i (inflight s)) (creations s)
                                 (next_creation s))
          | (Throw e, s) =>
              let i := next_creation s in
              (Ok (Started i),
               mkSessionRegistry (sdb s) (jset key i (inflight s))
                 (<[i := mkCreation adapterId conversationKey parent true (AwaitFinally (Throw e))]>
                    (creations s)) (S i))
          end
      end
  end.

Definition set_phase (i : nat) (c : Creation) (p : CreatePhase) (s : SessionRegistry) :
    SessionRegistry :=
  mkSessionRegistry (sdb s) (inflight s) (<[i := at_phase p c]> (creations s)) (next_creation s).

(** [newSession] settles. *)
Definition newSession_done (i : nat) (res : RpcResult) (s : SessionRegistry) : SessionRegistry :=
  match creations s !! i with
  | Some c =>
      match cr_phase c with
      | AwaitNewSession =>
          if rpc_success res then set_phase i c AwaitGetState s
          else set_phase i c (AwaitFinally (Throw (SessionGenericError "new_session failed"))) s
      | _ => s
      end
  | None => s
  end.

(** [getState] settles: the checks, and the [INSERT]. *)
Definition getState_done (ts : Z) (i : nat) (res : RpcResult) (s : SessionRegistry) :
    SessionRegistry :=
  match creations s !! i with
  | Some c =>
      match cr_phase c with
      | AwaitGetState =>
          let fail e := set_phase i c (AwaitFinally (Throw e)) s in
          if negb (rpc_success res) then fail (SessionGenericError "get_state failed")
          else
            match as_object (rpc_data res) with
            | None => fail (SessionGenericError "get_state returned no data")
            | Some state =>
                match nonempty_string (prop "sessionFile" state) with
                | None => fail (SessionGenericError "get_state returned no sessionFile")
                | Some sessionFile =>
                    let record := mkSession (cr_adapterId c) (cr_conversationKey c) sessionFile
                                    ts ts None in
                    match sql_insert record (sdb s) with
                    | None => fail (SessionExists true)
                    | Some db =>
                        set_phase i c (AwaitFinally (Ok record))
                          (mkSessionRegistry db (inflight s) (creations s) (next_creation s))
                    end
                end
            end
      | _ => s
      end
  | None => s
  end.

(** The promise settles: [.finally(() => this.inflight.delete(key))]. *)
Definition create_settled (i : nat) (s : SessionRegistry) : SessionRegistry :=
  match creations s !! i with
  | Some c =>
      match cr_phase c with
      | AwaitFinally _ =>
          mkSessionRegistry (sdb s)
            (if cr_tracked c
             then jdelete (conversationStorageKey (cr_adapterId c) (cr_conversationKey c)) (inflight s)
             else inflight s)
            (delete i (creations s)) (next_creation s)
      | _ => s
      end
  | None => s
  end.

(** [forget(adapterId, conversationKey)] *)
Definition forget (adapterId conversationKey : string) (s : SessionRegistry) :
    bool * SessionRegistry :=
  match session_getRaw adapterId conversationKey (sdb s) with
  | None => (false, s)
  | Some _ =>
      (true, mkSessionRegistry (sql_delete (has_conversation adapterId conversationKey) (sdb s)).1
               (jdelete (conversationStorageKey adapterId conversationKey) (inflight s))
               (creations s) (next_creation s))
  end.

(** [resolve(child, adapterId, conversationKey)] up to its await. *)
Definition resolve (adapterId conversationKey : string) (s : SessionRegistry) :
    result SessionError SessionRecord :=
  match session_getRaw adapterId conversationKey (sdb s) with
  | None => Throw NoMapping
  | Some row => Ok row
  end.

(** What [getOrCreate] and [resolve] return when [switchSession] settles, and
    what [attach] does. *)
Definition switched (record : SessionRecord) (res : RpcResult) : result SessionError SessionRecord :=
  if rpc_success res then Ok record else Throw (SessionGenericError "switch_session failed").

Definition attach (res : RpcResult) : result SessionError unit :=
  if rpc_success res then Ok tt else Throw (SessionGenericError "switch_session failed").

(** ** Steps *)

Inductive session_op : Type :=
| SSetOwner (ts : Z) (adapterId conversationKey : string) (currentOwner newOwner : option string)
| SHeartbeat (ts : Z) (adapterId conversationKey owner : string)
| STouch (ts : Z) (adapterId conversationKey : string)
| SRelease (ts : Z) (adapterId conversationKey owner : string)
| SForget (adapterId conversationKey : string)
| SCreate (adapterId conversationKey : string) (parent : option string)
| SGetOrCreate (adapterId conversationKey : string) (parentKey : option string)
| SNewSession (creation : nat) (res : RpcResult)
| SGetState (ts : Z) (creation : nat) (res : RpcResult)
| SSettled (creation : nat).

Definition with_db (db : Sessions) (s : SessionRegistry) : SessionRegistry :=
  mkSessionRegistry db (inflight s) (creations s) (next_creation s).

Definition session_step (s : SessionRegistry) (op : session_op) : SessionRegistry :=
  match op with
  | SSetOwner ts a c o n => with_db (setOwner ts a c o n (sdb s)).2 s
  | SHeartbeat ts a c o => with_db (heartbeat ts a c o (sdb s)).2 s
  | STouch ts a c => with_db (touch ts a c (sdb s)).2 s
  | SRelease ts a c o => with_db (release ts a c o (sdb s)).2 s
  | SForget a c => (forget a c s).2
  | SCreate a c p => (create false a c p s).2
  | SGetOrCreate a c p => (getOrCreate a c p s).2
  | SNewSession i res => newSession_done i res s
  | SGetState ts i res => getState_done ts i res s
  | SSettled i => create_settled i s
  end.

Definition empty_registry : SessionRegistry := mkSessionRegistry ∅ [] ∅ 0.

(** ** Ownership *)

Definition keyed (db : Sessions) : Prop := forall k r, db !! k = Some r -> primary_key r = k.

(** A guarded [UPDATE] of one conversation, spelled out. *)
Lemma session_update_key (p : SessionRecord -> bool) (u : SessionRecord -> SessionRecord) a c db :
  keyed db ->
  session_update (fun r => has_conversation a c r && p r) u db =
    match db !! (a, c) with
    | Some r => if p r then (<[(a, c) := u r]> db, 1%nat) else (db, 0%nat)
    | None => (db, 0%nat)
    end.
Proof.
  intros Hk. unfold session_update. rewrite sql_update_succeeds by done.
  assert (forall k r, db !! k = Some r -> has_conversation a c r = bool_decide (k = (a, c))) as Hconv.
  { intros k r Hr. specialize (Hk k r Hr). cbn in Hk. subst k. unfold has_conversation.
    apply eq_true_iff_eq. rewrite andb_true_iff, !String.eqb_eq, bool_decide_eq_true.
    split; [by intros [-> ->]|by intros [= -> ->]]. }
  rewrite (sql_count_key _ db (a, c)).
  2: { intros k r Hr Hw. rewrite (Hconv k r Hr) in Hw. bools. done. }
  assert (forall d, (forall r, db !! (a, c) = Some r -> p r = true -> d = <[(a, c) := u r]> db) ->
    (forall r, db !! (a, c) = Some r -> p r = false -> d = db) -> (db !! (a, c) = None -> d = db) ->
    (fun r => if has_conversation a c r && p r then u r else r) <$> db = d) as Heq.
  { intros d H1 H2 H3. apply map_eq. intros k. rewrite lookup_fmap.
    destruct (db !! (a, c)) as [r0|] eqn:Hac; [destruct (p r0) eqn:Hp|].
    - rewrite (H1 r0) by done. destruct (decide (k = (a, c))) as [->|Hne].
      + rewrite lookup_insert_eq, Hac. cbn. by rewrite (Hconv _ _ Hac), bool_decide_eq_true_2, Hp.
      + rewrite lookup_insert_ne by done. destruct (db !! k) as [r|] eqn:Hr; [|done]. cbn.
        by rewrite (Hconv _ _ Hr), bool_decide_eq_false_2.
    - rewrite (H2 r0) by done. destruct (db !! k) as [r|] eqn:Hr; [|done]. cbn.
      rewrite (Hconv _ _ Hr). case_bool_decide; [|done]. subst. simplify_eq. by rewrite Hp.
    - rewrite H3 by done. destruct (db !! k) as [r|] eqn:Hr; [|done]. cbn.
      rewrite (Hconv _ _ Hr). case_bool_decide; [|done]. congruence. }
  destruct (db !! (a, c)) as [r|] eqn:Hac.
  - rewrite (Hconv _ _ Hac), bool_decide_eq_true_2 by done. cbn [andb].
    destruct (p r) eqn:Hp; f_equal; apply Heq; intros; simplify_eq; try done; congruence.
  - f_equal. apply Heq; intros; by simplify_eq.
Qed.

Lemma session_update_touch (u : SessionRecord -> SessionRecord) a c db :
  keyed db ->
  session_update (has_conversation a c) u db =
    match db !! (a, c) with
    | Some r => (<[(a, c) := u r]> db, 1%nat)
    | None => (db, 0%nat)
    end.
Proof.
  intros Hk. rewrite <- (session_update_key (fun _ => true) u a c db Hk).
  unfold session_update. f_equal. unfold sql_update, sql_count.
  assert (forall r, has_conversation a c r && true = has_conversation a c r) as Ht
    by (intros; apply andb_true_r).
  assert (filter (fun kr : (string * string) * SessionRecord => has_conversation a c kr.2 = true) db =
    filter (fun kr : (string * string) * SessionRecord => has_conversation a c kr.2 && true = true) db)
    as Hf by (apply map_filter_ext; intros k r _; by rewrite Ht).
  rewrite Hf.
  replace ((fun r => if has_conversation a c r && true then u r else r) <$> db)
    with ((fun r => if has_conversation a c r then u r else r) <$> db)
    by (apply map_fmap_ext; intros k r _; by rewrite Ht).
  rewrite !bool_decide_eq_true_2 by (by intros k r _ _). done.
Qed.

Lemma setOwner_eq ts a c o n db :
  keyed db ->
  setOwner ts a c o n db =
    match db !! (a, c) with
    | Some r =>
        if owner_is o r
        then (Ok (mkAcquire (with_owner n ts r) (match n with Some _ => true | None => false end)),
              <[(a, c) := with_owner n ts r]> db)
        else (Throw (OwnerMismatchError a c o), db)
    | None => (Throw (OwnerMismatchError a c o), db)
    end.
Proof.
  intros Hk. unfold setOwner. rewrite session_update_key by done.
  destruct (db !! (a, c)) as [r|]; [|done]. destruct (owner_is o r); [|done].
  unfold session_getRaw. by rewrite lookup_insert_eq.
Qed.

Lemma heartbeat_eq ts a c o db :
  keyed db ->
  heartbeat ts a c o db =
    match db !! (a, c) with
    | Some r => if owner_is (Some o) r
                then (true, <[(a, c) := with_owner (sr_currentOwner r) ts r]> db) else (false, db)
    | None => (false, db)
    end.
Proof.
  intros Hk. unfold heartbeat. rewrite session_update_key by done.
  destruct (db !! (a, c)) as [r|]; [|done]. by destruct (owner_is (Some o) r).
Qed.

Lemma touch_eq ts a c db :
  keyed db ->
  touch ts a c db =
    match db !! (a, c) with
    | Some r => (true, <[(a, c) := with_owner (sr_currentOwner r) ts r]> db)
    | None => (false, db)
    end.
Proof.
  intros Hk. unfold touch. rewrite session_update_touch by done. by destruct (db !! (a, c)).
Qed.

Lemma release_eq ts a c o db :
  keyed db ->
  release ts a c o db =
    match db !! (a, c) with
    | Some r => if owner_is (Some o) r
                then (Ok (with_owner None ts r), <[(a, c) := with_owner None ts r]> db)
                else (Throw (OwnerMismatchError a c (Some o)), db)
    | None => (Throw NoMapping, db)
    end.
Proof.
  intros Hk. unfold release. rewrite session_update_key by done. unfold session_getRaw.
  destruct (db !! (a, c)) as [r|]; [|done]. destruct (owner_is (Some o) r); [|done].
  by rewrite lookup_insert_eq.
Qed.

Lemma keyed_insert a c r db : keyed db -> primary_key r = (a, c) -> keyed (<[(a, c) := r]> db).
Proof. intros Hk Hr k r'. rewrite lookup_insert_Some. intros [[<- <-]|[_ Hr']]; [done|by apply Hk]. Qed.

Lemma forget_lookup a c s k :
  keyed (sdb s) ->
  sdb (forget a c s).2 !! k = if decide (k = (a, c)) then None else sdb s !! k.
Proof.
  intros Hk. unfold forget, session_getRaw. destruct (sdb s !! (a, c)) as [r|] eqn:Hac.
  - cbn [snd sdb]. rewrite lookup_sql_delete. destruct (sdb s !! k) as [r'|] eqn:Hr; [|by case_decide].
    pose proof (Hk k r' Hr) as Hkey. cbn in Hkey. unfold has_conversation.
    destruct (String.eqb_spec (sr_adapterId r') a), (String.eqb_spec (sr_conversationKey r') c);
      cbn; case_decide; simplify_eq; congruence.
  - cbn. by case_decide; subst.
Qed.

(** How a step may change the row of a conversation. *)
Lemma session_step_keyed op s : keyed (sdb s) -> keyed (sdb (session_step s op)).
Proof.
  intros Hk. destruct op as [ts a c o n|ts a c o|ts a c|ts a c o|a c|a c p|a c p|i res|ts i res|i];
    cbn [session_step with_db sdb].
  - rewrite setOwner_eq by done. destruct (sdb s !! (a, c)) as [r|] eqn:Hr; [|done].
    destruct (owner_is o r); [|done]. apply keyed_insert; [done|]. apply (Hk _ _ Hr).
  - rewrite heartbeat_eq by done. destruct (sdb s !! (a, c)) as [r|] eqn:Hr; [|done].
    destruct (owner_is _ r); [|done]. apply keyed_insert; [done|]. apply (Hk _ _ Hr).
  - rewrite touch_eq by done. destruct (sdb s !! (a, c)) as [r|] eqn:Hr; [|done].
    apply keyed_insert; [done|]. apply (Hk _ _ Hr).
  - rewrite release_eq by done. destruct (sdb s !! (a, c)) as [r|] eqn:Hr; [|done].
    destruct (owner_is _ r); [|done]. apply keyed_insert; [done|]. apply (Hk _ _ Hr).
  - intros k r. rewrite forget_lookup by done. case_decide; [done|apply Hk].
  - unfold create. repeat case_match; done.
  - unfold getOrCreate, create. repeat case_match; simplify_eq; done.
  - unfold newSession_done, set_phase. repeat case_match; done.
  - unfold getState_done. repeat case_match; try done. cbn.
    match goal with Hi : sql_insert _ _ = Some _ |- _ => apply sql_insert_ok in Hi as (_ & _ & ->) end.
    by apply keyed_insert.
  - unfold create_settled. repeat case_match; done.
Qed.

(** An operation by which [o] does not give the conversation away. *)
Definition keeps_owner (a c o : string) (op : session_op) : Prop :=
  match op with
  | SSetOwner _ a' c' (Some o') _ => (a', c') = (a, c) -> o' <> o
  | SRelease _ a' c' o' => (a', c') = (a, c) -> o' <> o
  | SForget a' c' => (a', c') <> (a, c)
  | _ => True
  end.

Definition owned_row (s : SessionRegistry) (a c o file : string) : Prop :=
  exists r, sdb s !! (a, c) = Some r /\ sr_currentOwner r = Some o /\ sr_sessionFile r = file.

Lemma owned_insert s a c o file a' c' r' :
  owned_row s a c o file ->
  ((a', c') = (a, c) -> sr_currentOwner r' = Some o /\ sr_sessionFile r' = file) ->
  owned_row (with_db (<[(a', c') := r']> (sdb s)) s) a c o file.
Proof.
  intros (r & Hr & Ho & Hf) Hr'. unfold owned_row. cbn.
  destruct (decide ((a', c') = (a, c))) as [Heq|Hne].
  - exists r'. rewrite Heq, lookup_insert_eq. by destruct (Hr' Heq).
  - exists r. by rewrite lookup_insert_ne.
Qed.

Lemma with_db_same s : with_db (sdb s) s = s.
Proof. by destruct s. Qed.

Lemma owner_is_spec o r : owner_is o r = true <-> sr_currentOwner r = o.
Proof. apply bool_decide_eq_true. Qed.

Lemma session_step_owned op s a c o file :
  keyed (sdb s) -> keeps_owner a c o op -> owned_row s a c o file ->
  owned_row (session_step s op) a c o file.
Proof.
  intros Hk Hop Hown. pose proof Hown as (r & Hr & Ho & Hf).
  destruct op as [ts a' c' e n|ts a' c' o'|ts a' c'|ts a' c' o'|a' c'|a' c' p|a' c' p|i res|ts i res|i];
    cbn [session_step keeps_owner] in *.
  - rewrite setOwner_eq by done. destruct (sdb s !! (a', c')) as [r'|] eqn:Hr';
      [|by cbn [snd]; rewrite with_db_same]. destruct (owner_is e r') eqn:He; [|by cbn [snd]; rewrite with_db_same].
    apply owner_is_spec in He. apply owned_insert; [done|]. intros Heq. exfalso.
    rewrite Heq in Hr'. simplify_eq. rewrite Ho in Hop. by apply Hop.
  - rewrite heartbeat_eq by done. destruct (sdb s !! (a', c')) as [r'|] eqn:Hr';
      [|by cbn [snd]; rewrite with_db_same]. destruct (owner_is (Some o') r'); [|by cbn [snd]; rewrite with_db_same].
    apply owned_insert; [done|]. intros Heq. rewrite Heq in Hr'. by simplify_eq.
  - rewrite touch_eq by done. destruct (sdb s !! (a', c')) as [r'|] eqn:Hr';
      [|by cbn [snd]; rewrite with_db_same].
    apply owned_insert; [done|]. intros Heq. rewrite Heq in Hr'. by simplify_eq.
  - rewrite release_eq by done. destruct (sdb s !! (a', c')) as [r'|] eqn:Hr';
      [|by cbn [snd]; rewrite with_db_same]. destruct (owner_is (Some o') r') eqn:He; [|by cbn [snd]; rewrite with_db_same].
    apply owner_is_spec in He. apply owned_insert; [done|]. intros Heq. exfalso.
    rewrite Heq in Hr'. simplify_eq. by apply Hop.
  - exists r. rewrite forget_lookup by done. by rewrite decide_False.
  - exists r. unfold create. by repeat case_match.
  - exists r. unfold getOrCreate, create. repeat case_match; simplify_eq; done.
  - exists r. unfold newSession_done, set_phase. by repeat case_match.
  - exists r. unfold getState_done. repeat case_match; try done. cbn.
    match goal with Hi : sql_insert _ _ = Some _ |- _ =>
      apply sql_insert_ok in Hi as (Hnone & _ & ->) end.
    rewrite lookup_insert_ne; [done|]. congruence.
  - exists r. unfold create_settled. by repeat case_match.
Qed.

Lemma session_run_keyed ops s : keyed (sdb s) -> keyed (sdb (run session_step s ops)).
Proof.
  apply (run_invariant session_step (fun s => keyed (sdb s))). intros. by apply session_step_keyed.
Qed.

Lemma keyed_empty : keyed (sdb empty_registry).
Proof. intros k r. cbn. by rewrite lookup_empty. Qed.

(** C20: Ownership is exclusive: once [setOwner] has granted a free
    conversation to an owner, then whatever anybody else does -- until the
    owner releases or transfers it or the mapping is forgotten -- the owner and
    the session file stay, every compare-and-set that expects another owner
    fails and changes nothing, and only the owner's heartbeat is accepted. *)
Theorem ownership_exclusive (ops1 ops2 : list session_op) (ts : Z) (a c o : string)
    (res : AcquireResult) :
  let s := run session_step empty_registry ops1 in
  let '(r, db) := setOwner ts a c None (Some o) (sdb s) in
  r = Ok res -> Forall (keeps_owner a c o) ops2 ->
  let s' := run session_step (with_db db s) ops2 in
  acquired res = true /\
  owned_row s' a c o (sr_sessionFile (acq_record res)) /\
  (forall ts' expected n, expected <> Some o ->
     setOwner ts' a c expected n (sdb s') = (Throw (OwnerMismatchError a c expected), sdb s')) /\
  (forall ts' o', o' <> o ->
     heartbeat ts' a c o' (sdb s') = (false, sdb s') /\
     release ts' a c o' (sdb s') = (Throw (OwnerMismatchError a c (Some o')), sdb s')) /\
  (forall ts', (heartbeat ts' a c o (sdb s')).1 = true).
Proof.
  intros s. assert (keyed (sdb s)) as Hk by (apply session_run_keyed, keyed_empty).
  rewrite setOwner_eq by done. destruct (sdb s !! (a, c)) as [r|] eqn:Hr; [|done].
  destruct (owner_is None r) eqn:Hn; [|done]. intros [= <-] Hops.
  set (s1 := with_db (<[(a, c) := with_owner (Some o) ts r]> (sdb s)) s).
  assert (keyed (sdb s1)) as Hk1 by (apply keyed_insert; [done|apply (Hk _ _ Hr)]).
  assert (owned_row s1 a c o (sr_sessionFile r)) as Hown1.
  { eexists. split; [apply lookup_insert_eq|done]. }
  assert (keyed (sdb (run session_step s1 ops2)) /\
          owned_row (run session_step s1 ops2) a c o (sr_sessionFile r)) as [Hk2 Hown].
  { apply (run_invariant_if session_step (keeps_owner a c o)
      (fun s => keyed (sdb s) /\ owned_row s a c o (sr_sessionFile r))); [|done|done].
    intros s' op Hop [Hk' Ho']. split; [by apply session_step_keyed|by apply session_step_owned]. }
  cbv zeta. destruct (Hown) as (r' & Hr' & Ho & _).
  do 2 (split; [done|]). split; [|split].
  - intros ts' e n He. rewrite setOwner_eq, Hr' by done.
    destruct (owner_is e r') eqn:Hi; [|done]. apply owner_is_spec in Hi. congruence.
  - intros ts' o' Hne. rewrite heartbeat_eq, release_eq, Hr' by done.
    destruct (owner_is (Some o') r') eqn:Hi; [|done]. apply owner_is_spec in Hi. congruence.
  - intros ts'. rewrite heartbeat_eq, Hr' by done.
    by rewrite (proj2 (owner_is_spec (Some o) r') Ho).
Qed.

(** ** Creation *)

Definition creation_key (c : Creation) : string :=
  conversationStorageKey (cr_adapterId c) (cr_conversationKey c).

Definition creation_ok (db : Sessions) (c : Creation) : Prop :=
  let row := db !! (cr_adapterId c, cr_conversationKey c) in
  match cr_phase c with
  | AwaitFinally (Ok r) => exists r', row = Some r' /\ sr_sessionFile r' = sr_sessionFile r
  | AwaitFinally (Throw e) => row = None /\ forall race, e <> SessionExists race
  | _ => row = None
  end.

Record session_inv (s : SessionRegistry) : Prop := {
  si_keyed : keyed (sdb s);
  si_fresh : forall i c, creations s !! i = Some c -> (i < next_creation s)%nat;
  si_tracked : forall i c, creations s !! i = Some c ->
    cr_tracked c = true /\ jget (creation_key c) (inflight s) = Some i;
  si_inflight : forall k i, jget k (inflight s) = Some i ->
    exists c, creations s !! i = Some c /\ creation_key c = k;
  si_phase : forall i c, creations s !! i = Some c -> creation_ok (sdb s) c;
}.

(** Conversations are opened by [getOrCreate] only, and none is forgotten in the
    moment between the [INSERT] of its creation and the [finally] that takes the
    creation out of [inflight]. *)
Definition shared_creation (s : SessionRegistry) (op : session_op) : Prop :=
  match op with
  | SCreate _ _ _ => False
  | SForget a c => forall i cr r, creations s !! i = Some cr ->
      cr_adapterId cr = a -> cr_conversationKey cr = c -> cr_phase cr <> AwaitFinally (Ok r)
  | _ => True
  end.

(** Two creations of one conversation are one creation. *)
Lemma creations_unique s i1 c1 i2 c2 :
  session_inv s -> creations s !! i1 = Some c1 -> creations s !! i2 = Some c2 ->
  cr_adapterId c1 = cr_adapterId c2 -> cr_conversationKey c1 = cr_conversationKey c2 -> i1 = i2.
Proof.
  intros Hinv H1 H2 Ha Hc. destruct (si_tracked s Hinv _ _ H1) as [_ Hk1].
  destruct (si_tracked s Hinv _ _ H2) as [_ Hk2]. unfold creation_key in *.
  rewrite Ha, Hc in Hk1. congruence.
Qed.

(** Rows that keep presence and session file keep every creation's state. *)
Lemma session_inv_rows s db :
  session_inv s -> keyed db ->
  (forall k, sr_sessionFile <$> db !! k = sr_sessionFile <$> sdb s !! k) ->
  session_inv (with_db db s).
Proof.
  intros [Hk Hf Ht Hi Hp] Hk' Hsame. split; try done. intros i c Hc. specialize (Hp i c Hc). cbn.
  unfold creation_ok in *. specialize (Hsame (cr_adapterId c, cr_conversationKey c)).
  assert (sdb s !! (cr_adapterId c, cr_conversationKey c) = None ->
    db !! (cr_adapterId c, cr_conversationKey c) = None) as Hnone.
  { intros Hr. rewrite Hr in Hsame. by destruct (db !! _). }
  destruct (cr_phase c) as [| |[r|e]]; [by auto|by auto| |destruct Hp; by auto].
  - destruct Hp as (r' & Hr' & Hfile). rewrite Hr' in Hsame. cbn in Hsame.
    destruct (db !! _) as [r2|]; [|done]. exists r2. split; [done|]. cbn in Hsame. congruence.
Qed.

(** Advancing one creation, with a row inserted for it or not. *)
Lemma session_inv_phase s i c p db :
  session_inv s -> creations s !! i = Some c -> keyed db ->
  (db = sdb s \/ exists r, db = <[(cr_adapterId c, cr_conversationKey c) := r]> (sdb s)) ->
  creation_ok db (at_phase p c) ->
  session_inv (mkSessionRegistry db (inflight s) (<[i := at_phase p c]> (creations s))
                 (next_creation s)).
Proof.
  intros Hinv Hc Hk Hdb Hok. pose proof Hinv as [Hk0 Hf Ht Hi Hp]. split; cbn.
  - done.
  - intros i' c'. rewrite lookup_insert_Some. intros [[<- <-]|[_ Hc']]; by eapply Hf.
  - intros i' c'. rewrite lookup_insert_Some. intros [[<- <-]|[_ Hc']]; [|by apply Ht].
    apply (Ht _ _ Hc).
  - intros k i' Hg. destruct (Hi k i' Hg) as (c' & Hc' & Hkey).
    destruct (decide (i = i')) as [->|].
    + simplify_eq. exists (at_phase p c). by rewrite lookup_insert_eq.
    + exists c'. by rewrite lookup_insert_ne.
  - intros i' c'. rewrite lookup_insert_Some. intros [[<- <-]|[Hne Hc']]; [done|].
    specialize (Hp i' c' Hc'). destruct Hdb as [->|(r & ->)]; [done|].
    unfold creation_ok in *. rewrite lookup_insert_ne; [done|].
    intros [= Ha Hck]. apply Hne. by eapply creations_unique.
Qed.

Lemma newSession_inv i res s : session_inv s -> session_inv (newSession_done i res s).
Proof.
  intros Hinv. unfold newSession_done. destruct (creations s !! i) as [c|] eqn:Hc; [|done].
  destruct (cr_phase c) eqn:Hph; try done.
  pose proof (si_phase s Hinv i c Hc) as Hok. unfold creation_ok in Hok. rewrite Hph in Hok.
  destruct (rpc_success res); (apply session_inv_phase; [done|done|apply (si_keyed s Hinv)|by left|try split; done]).
Qed.

Lemma getState_inv ts i res s : session_inv s -> session_inv (getState_done ts i res s).
Proof.
  intros Hinv. unfold getState_done. destruct (creations s !! i) as [c|] eqn:Hc; [|done].
  destruct (cr_phase c) eqn:Hph; try done.
  pose proof (si_phase s Hinv i c Hc) as Hnone. unfold creation_ok in Hnone. rewrite Hph in Hnone.
  assert (forall m, session_inv (set_phase i c (AwaitFinally (Throw (SessionGenericError m))) s)) as Hfail.
  { intros m. apply session_inv_phase; [done|done|apply (si_keyed s Hinv)|by left|by split]. }
  destruct (rpc_success res); [|apply Hfail]. cbn [negb].
  destruct (as_object (rpc_data res)) as [state|]; [|apply Hfail].
  destruct (nonempty_string _) as [f|]; [|apply Hfail].
  rewrite sql_insert_fresh by done.
  set (r := mkSession (cr_adapterId c) (cr_conversationKey c) f ts ts None).
  apply (session_inv_phase s i c (AwaitFinally (Ok r))); [done|done| |right; by exists r|].
  - by apply keyed_insert; [apply (si_keyed s Hinv)|].
  - exists r. split; [|done]. cbn. by rewrite lookup_insert_eq.
Qed.

Lemma settled_inv i s : session_inv s -> session_inv (create_settled i s).
Proof.
  intros Hinv. unfold create_settled. destruct (creations s !! i) as [c|] eqn:Hc; [|done].
  destruct (cr_phase c) eqn:Hph; try done. pose proof Hinv as [Hk Hf Ht Hi Hp].
  destruct (Ht i c Hc) as [-> Hkey]. split; cbn; try done.
  - intros i' c' [_ Hc']%lookup_delete_Some. by eapply Hf.
  - intros i' c' [Hne Hc']%lookup_delete_Some. destruct (Ht i' c' Hc') as [? Hkey'].
    split; [done|]. rewrite jget_delete_ne; [done|]. intros Heq. unfold creation_key in *. congruence.
  - intros k i'. rewrite jget_delete. case_decide as Hkk; [done|]. intros Hg.
    destruct (Hi k i' Hg) as (c' & Hc' & Hkey'). exists c'. split; [|done].
    rewrite lookup_delete_ne; [done|]. intros ->. by simplify_eq.
  - intros i' c' [_ Hc']%lookup_delete_Some. by eapply Hp.
Qed.

Lemma fresh_creation_none s : session_inv s -> creations s !! next_creation s = None.
Proof.
  intros Hinv. destruct (creations s !! next_creation s) as [c|] eqn:Hc; [|done].
  apply (si_fresh s Hinv) in Hc. lia.
Qed.

(** A creation put in [inflight] under a key nobody is creating. *)
Lemma started_inv s a c p ph :
  session_inv s -> sdb s !! (a, c) = None -> jget (conversationStorageKey a c) (inflight s) = None ->
  creation_ok (sdb s) (mkCreation a c p true ph) ->
  session_inv (mkSessionRegistry (sdb s)
    (jset (conversationStorageKey a c) (next_creation s) (inflight s))
    (<[next_creation s := mkCreation a c p true ph]> (creations s)) (S (next_creation s))).
Proof.
  intros Hinv Hnone Hget Hok. pose proof Hinv as [Hk Hf Ht Hi Hp]. split; cbn.
  - done.
  - intros i' c'. rewrite lookup_insert_Some. intros [[<- <-]|[_ Hc']]; [lia|].
    specialize (Hf i' c' Hc'). lia.
  - intros i' c'. rewrite lookup_insert_Some. intros [[<- <-]|[_ Hc']].
    + split; [done|]. apply jget_set_eq.
    + destruct (Ht i' c' Hc') as [? Hg]. split; [done|]. rewrite jget_set_ne; [done|].
      intros Heq. congruence.
  - intros k i'. rewrite jget_set. case_decide as Hkk.
    + intros [= <-]. eexists. split; [apply lookup_insert_eq|done].
    + intros Hg. destruct (Hi k i' Hg) as (c' & Hc' & Hkey). exists c'. split; [|done].
      rewrite lookup_insert_ne; [done|]. intros Heq. subst i'.
      by rewrite (fresh_creation_none s Hinv) in Hc'.
  - intros i' c'. rewrite lookup_insert_Some. intros [[<- <-]|[_ Hc']]; [done|by eapply Hp].
Qed.

Lemma getOrCreate_inv a c p s : session_inv s -> session_inv (getOrCreate a c p s).2.
Proof.
  intros Hinv. unfold getOrCreate, session_getRaw. destruct (sdb s !! (a, c)) eqn:Hr; [done|].
  destruct (jget _ (inflight s)) eqn:Hg; [done|].
  unfold create. destruct (is_empty a); [|destruct (is_empty c)]; unfold session_getRaw; rewrite ?Hr;
    cbn; by apply started_inv.
Qed.

(** A row deleted while nobody is creating the conversation: if there is one,
    its creation is over, since a creation in flight has not inserted it yet. *)
Lemma forget_inv a c s : shared_creation s (SForget a c) -> session_inv s -> session_inv (forget a c s).2.
Proof.
  intros Hop Hinv. pose proof Hinv as [Hk Hf Ht Hi Hp].
  assert (forall k, sdb (forget a c s).2 !! k = if decide (k = (a, c)) then None else sdb s !! k)
    as Hrows by (intros; by apply forget_lookup).
  unfold forget, session_getRaw in *. destruct (sdb s !! (a, c)) as [row|] eqn:Hrow; [|done].
  assert (forall i cr, creations s !! i = Some cr -> (cr_adapterId cr, cr_conversationKey cr) <> (a, c))
    as Hothers.
  { intros i cr Hc [= <- <-]. specialize (Hp i cr Hc). unfold creation_ok in Hp.
    destruct (cr_phase cr) as [| |[r|e]] eqn:Hph; try congruence; [|destruct Hp; congruence].
    by apply (Hop i cr r). }
  cbn [snd sdb] in *. split; cbn [sdb inflight creations next_creation]; try done.
  - intros k r. rewrite Hrows. case_decide; [done|apply Hk].
  - intros i cr Hc. destruct (Ht i cr Hc) as [? Hg]. split; [done|].
    rewrite jget_delete_ne; [done|]. intros [Heq1 Heq2]%(inj2 conversationStorageKey).
    apply (Hothers i cr Hc). congruence.
  - intros k i. rewrite jget_delete. case_decide; [done|]. apply Hi.
  - intros i cr Hc. specialize (Hp i cr Hc). unfold creation_ok in *.
    by rewrite Hrows, decide_False by (by eapply Hothers).
Qed.

Lemma session_step_inv op s : shared_creation s op -> session_inv s -> session_inv (session_step s op).
Proof.
  intros Hop Hinv. pose proof (si_keyed s Hinv) as Hk.
  assert (forall a c r r', sdb s !! (a, c) = Some r -> sr_sessionFile r' = sr_sessionFile r ->
    primary_key r' = primary_key r -> session_inv (with_db (<[(a, c) := r']> (sdb s)) s)) as Hrow.
  { intros a c r r' Hr Hfile Hkey. apply session_inv_rows; [done| |].
    - apply keyed_insert; [done|]. rewrite Hkey. by apply (Hk _ _ Hr).
    - intros k. destruct (decide (k = (a, c))) as [->|].
      + rewrite lookup_insert_eq, Hr. cbn. by rewrite Hfile.
      + by rewrite lookup_insert_ne. }
  destruct op as [ts a c e n|ts a c o|ts a c|ts a c o|a c| |a c p|i res|ts i res|i]; try done;
    cbn [session_step].
  - rewrite setOwner_eq by done. destruct (sdb s !! (a, c)) eqn:Hr;
      [destruct (owner_is _ _)|]; cbn [snd]; rewrite ?with_db_same; try done. by eapply Hrow.
  - rewrite heartbeat_eq by done. destruct (sdb s !! (a, c)) eqn:Hr;
      [destruct (owner_is _ _)|]; cbn [snd]; rewrite ?with_db_same; try done. by eapply Hrow.
  - rewrite touch_eq by done. destruct (sdb s !! (a, c)) eqn:Hr; cbn [snd];
      rewrite ?with_db_same; try done. by eapply Hrow.
  - rewrite release_eq by done. destruct (sdb s !! (a, c)) eqn:Hr;
      [destruct (owner_is _ _)|]; cbn [snd]; rewrite ?with_db_same; try done. by eapply Hrow.
  - by apply forget_inv.
  - by apply getOrCreate_inv.
  - by apply newSession_inv.
  - by apply getState_inv.
  - by apply settled_inv.
Qed.

Lemma session_inv_empty : session_inv empty_registry.
Proof. split; try apply keyed_empty; cbn; try done; intros i c; by rewrite ?lookup_empty. Qed.

(** C21: One session per conversation: when conversations are opened through
    [getOrCreate] and none is forgotten between the [INSERT] of its creation and
    the creation's [finally], at most one creation per conversation is in flight
    and later callers join it; no creation ever meets a duplicate row; and a
    creation whose [getState] answers with a session file commits that row,
    unowned.  [forgotten_while_creating] shows what [forget] does in that moment:
    it takes the promise of a creation that is not over out of [inflight], the
    next creation's promise is taken out by the first one's [finally], and two
    creations of the conversation run. *)
Theorem creation_single_flight (ops : list session_op) :
  legal session_step shared_creation empty_registry ops ->
  let s := run session_step empty_registry ops in
  (forall i1 c1 i2 c2, creations s !! i1 = Some c1 -> creations s !! i2 = Some c2 ->
     cr_adapterId c1 = cr_adapterId c2 -> cr_conversationKey c1 = cr_conversationKey c2 -> i1 = i2) /\
  (forall i c p, creations s !! i = Some c ->
     sdb s !! (cr_adapterId c, cr_conversationKey c) = None ->
     getOrCreate (cr_adapterId c) (cr_conversationKey c) p s = (Ok (Joined i), s)) /\
  (forall i c race, creations s !! i = Some c -> cr_phase c <> AwaitFinally (Throw (SessionExists race))) /\
  (forall i c ts ps file, creations s !! i = Some c -> cr_phase c = AwaitGetState ->
     nonempty_string (prop "sessionFile" ps) = Some file ->
     sdb (session_step s (SGetState ts i (mkRpcResult true (VObject ps)))) !!
       (cr_adapterId c, cr_conversationKey c) =
     Some (mkSession (cr_adapterId c) (cr_conversationKey c) file ts ts None)).
Proof.
  intros Hops s. assert (session_inv s) as Hinv.
  { apply (run_invariant_legal session_step shared_creation session_inv);
      [|done|apply session_inv_empty]. intros s' op Hop Hs. by apply session_step_inv. }
  split; [|split; [|split]].
  - intros i1 c1 i2 c2. by apply creations_unique.
  - intros i c p Hc Hnone. unfold getOrCreate, session_getRaw. rewrite Hnone.
    destruct (si_tracked s Hinv i c Hc) as [_ Hk]. unfold creation_key in Hk. by rewrite Hk.
  - intros i c race Hc Hph. pose proof (si_phase s Hinv i c Hc) as Hok. unfold creation_ok in Hok.
    rewrite Hph in Hok. by apply (proj2 Hok race).
  - intros i c ts ps file Hc Hph Hfile. cbn [session_step]. unfold getState_done.
    rewrite Hc, Hph. cbn [rpc_success negb rpc_data as_object]. rewrite Hfile.
    pose proof (si_phase s Hinv i c Hc) as Hnone. unfold creation_ok in Hnone. rewrite Hph in Hnone.
    rewrite sql_insert_fresh by done. cbn. by rewrite lookup_insert_eq.
Qed.

(** ** Witnesses *)

Definition demo_created : list session_op :=
  [SGetOrCreate "chat" "room" None; SGetOrCreate "chat" "room" None;
   SNewSession 0 (mkRpcResult true VNull);
   SGetState 7 0 (mkRpcResult true (VObject [("sessionFile", VString "/s/1")])); SSettled 0].

Lemma ownership_exclusive_witness :
  (heartbeat 30 "chat" "room" "worker-2"
     (sdb (run session_step (with_db (setOwner 8 "chat" "room" None (Some "worker-1")
       (sdb (run session_step empty_registry demo_created))).2
       (run session_step empty_registry demo_created))
       [SSetOwner 9 "chat" "room" None (Some "worker-2"); STouch 10 "chat" "room"]))).1 = false.
Proof.
  pose proof (ownership_exclusive demo_created
    [SSetOwner 9 "chat" "room" None (Some "worker-2"); STouch 10 "chat" "room"] 8 "chat" "room"
    "worker-1" (mkAcquire (mkSession "chat" "room" "/s/1" 7 8 (Some "worker-1")) true)) as Hthm.
  cbv zeta in Hthm. destruct (setOwner 8 "chat" "room" None (Some "worker-1") _) as [r db] eqn:Hset.
  assert (r = Ok (mkAcquire (mkSession "chat" "room" "/s/1" 7 8 (Some "worker-1")) true)) as Hr
    by (vm_compute in Hset; injection Hset as <- _; reflexivity).
  destruct (Hthm Hr ltac:(repeat constructor)) as (_ & _ & _ & Hothers & _).
  cbn [snd]. by rewrite (proj1 (Hothers 30 "worker-2" ltac:(discriminate))).
Defined.

Definition demo_reopened : list session_op :=
  demo_created ++ [SForget "chat" "room"; SGetOrCreate "chat" "room" None; SForget "chat" "room";
                   SNewSession 1 (mkRpcResult true VNull)].

Lemma creation_single_flight_witness :
  getOrCreate "chat" "room" None (run session_step empty_registry demo_reopened)
  = (Ok (Joined 1), run session_step empty_registry demo_reopened).
Proof.
  destruct (creation_single_flight demo_reopened) as (_ & Hjoin & _).
  - cbn [legal demo_reopened demo_created app shared_creation]. repeat split.
    + intros i cr r. replace (creations _) with (∅ : gmap nat Creation) by (vm_compute; reflexivity).
      by rewrite lookup_empty.
    + intros i cr r.
      replace (creations _) with ({[1%nat := mkCreation "chat" "room" None true AwaitNewSession]} :
        gmap nat Creation) by (vm_compute; reflexivity).
      by intros [<- <-]%lookup_singleton_Some.
  - apply (Hjoin 1%nat (mkCreation "chat" "room" None true AwaitGetState) None); vm_compute; reflexivity.
Defined.

(** The moment [shared_creation] excludes. *)
Example forgotten_while_creating :
  let s := run session_step empty_registry
    [SGetOrCreate "chat" "room" None; SNewSession 0 (mkRpcResult true VNull);
     SGetState 7 0 (mkRpcResult true (VObject [("sessionFile", VString "/s/1")]));
     SForget "chat" "room"; SGetOrCreate "chat" "room" None; SSettled 0;
     SGetOrCreate "chat" "room" None] in
  creations s !! 1%nat = Some (mkCreation "chat" "room" None true AwaitNewSession) /\
  creations s !! 2%nat = Some (mkCreation "chat" "room" None true AwaitNewSession).
Proof. by vm_compute. Qed.
