(* ===== verification/CronExpression.v ===== *)
(** * Cron expressions (src/packages/core/src/cron-expression.ts)

    The 5-field parser ([parseField], [parseCronExpression]) and the
    next-fire-time search ([nextRunAfter]).  [Intl.DateTimeFormat] is a
    parameter: for a time zone it gives the two formatters the code builds.  A
    formatted part is its type and the number its text reads as; [offset] gives
    the text of the time zone name part.  Either throws a [RangeError] on a time
    value it cannot format. *)

From S2P Require Import Prelude JsString Numerals JsDate.
From Stdlib Require Import Ascii.
From stdpp Require Import options pretty.
#[local] Open Scope Z_scope.

(** ** Schedules *)

Record CronSchedule := mkCronSchedule {
  minute : list Z;
  hour : list Z;
  dayOfMonth : list Z;
  month : list Z;
  dayOfWeek : list Z
}.

Record FieldDef := mkFieldDef { fd_name : string; fd_min : Z; fd_max : Z }.

Definition FIELDS : list FieldDef :=
  [ mkFieldDef "minute" 0 59; mkFieldDef "hour" 0 23; mkFieldDef "day-of-month" 1 31;
    mkFieldDef "month" 1 12; mkFieldDef "day-of-week" 0 7 ].

(** ** Parsing *)

(** One [(\d+)] group: its number and what follows. *)
Definition digit_group (s : string) : option (Z * string) :=
  match digits s with
  | (_, O, _) => None
  | (n, S _, rest) => Some (n, rest)
  end.

(** [(?:\/(\d+))?$]: [None] is no match, [Some None] a match without step. *)
Definition step_suffix (s : string) : option (option Z) :=
  match s with
  | EmptyString => Some None
  | String c s =>
      if Ascii.eqb c "/" then
        match digit_group s with
        | Some (n, EmptyString) => Some (Some n)
        | _ => None
        end
      else None
  end.

(** The groups of [PART_RE]: the range bounds, if not [*], and the step. *)
Record PartMatch := mkPartMatch {
  m1 : option Z;
  m2 : option Z;
  m3 : option Z
}.

Definition PART_RE (p : string) : option PartMatch :=
  match p with
  | EmptyString => None
  | String c s =>
      if Ascii.eqb c "*" then
        match step_suffix s with Some m3 => Some (mkPartMatch None None m3) | None => None end
      else
        match digit_group p with
        | None => None
        | Some (a, rest) =>
            let '(b, rest) :=
              match rest with
              | String c s =>
                  if Ascii.eqb c "-" then
                    match digit_group s with
                    | Some (b, rest') => (Some b, rest')
                    | None => (None, rest)
                    end
                  else (None, rest)
              | EmptyString => (None, rest)
              end in
            match step_suffix rest with
            | Some m3 => Some (mkPartMatch (Some a) b m3)
            | None => None
            end
        end
  end.

(** [for (let v = from; v <= to; v += step) push(v)] *)
Fixpoint for_loop (fuel : nat) (from to step : Z) : list Z :=
  match fuel with
  | O => []
  | S fuel => if from <=? to then from :: for_loop fuel (from + step) to step else []
  end.

Definition for_range (from to step : Z) : list Z := for_loop (Z.to_nat (to - from + 1)) from to step.

(** [[...new Set(l)]] keeps the first of equal elements. *)
Fixpoint set_from (seen l : list Z) : list Z :=
  match l with
  | [] => []
  | x :: l => if decide (x ∈ seen) then set_from seen l else x :: set_from (seen ++ [x]) l
  end.

Definition new_Set (l : list Z) : list Z := set_from [] l.

(** The values of one part that matched. *)
Definition part_values (def : FieldDef) (p : string) (m : PartMatch) : result string (list Z) :=
  let start := match m1 m with None => fd_min def | Some a => a end in
  let end_ := match m1 m with
              | None => fd_max def
              | Some _ => match m2 m with Some b => b | None => start end
              end in
  let step := match m3 m with Some s => s | None => 1 end in
  if step <? 1 then
    Throw ("invalid step value " +:+ pretty step +:+ " in " +:+ quoted p)%stdpp
  else if (start <? fd_min def) || (end_ <? fd_min def) || (fd_max def <? start)
          || (fd_max def <? end_) then
    Throw (fd_name def +:+ " value out of range in " +:+ quoted p +:+ " (valid " +:+
           pretty (fd_min def) +:+ "-" +:+ pretty (fd_max def) +:+ ")")%stdpp
  else if start <=? end_ then Ok (for_range start end_ step)
  else
    let seq := for_range start (fd_max def) 1 ++ for_range (fd_min def) end_ 1 in
    Ok (omap (fun i => seq !! Z.to_nat i) (for_range 0 (Z.of_nat (length seq) - 1) step)).

(** One round of the loop over the comma-separated parts. *)
Definition parse_part (raw : string) (def : FieldDef) (part : string) : result string (list Z) :=
  let p := trim part in
  if is_empty p then Throw ("empty list element in " +:+ quoted raw)%stdpp
  else match PART_RE p with
       | None => Throw ("invalid " +:+ fd_name def +:+ " field part " +:+ quoted p +:+
                        " (expected *, A, A-B, or a /step form)")%stdpp
       | Some m => part_values def p m
       end.

Fixpoint parse_parts (raw : string) (def : FieldDef) (values : list Z) (parts : list string)
    : result string (list Z) :=
  match parts with
  | [] => Ok values
  | part :: parts =>
      vs <-! parse_part raw def part;
      parse_parts raw def (values ++ vs) parts
  end.

(** The deduplication, the collapse of day-of-week 7 and the sort. *)
Definition field_result (def : FieldDef) (values : list Z) : list Z :=
  let uniq := new_Set values in
  let uniq := if fd_max def =? 7 then map (fun v => if v =? 7 then 0 else v) uniq else uniq in
  merge_sort (≤) (new_Set uniq).

Definition parseField (raw : string) (def : FieldDef) : result string (list Z) :=
  values <-! parse_parts raw def [] (split_on "," raw);
  Ok (field_result def values).

(** [fields.map((f, i) => parseField(f, FIELDS[i]))] *)
Fixpoint parse_fields (fields : list string) (defs : list FieldDef)
    : result string (list (list Z)) :=
  match fields, defs with
  | f :: fields, def :: defs =>
      vs <-! parseField f def;
      rest <-! parse_fields fields defs;
      Ok (vs :: rest)
  | _, _ => Ok []
  end.

Definition parseCronExpression (expr : string) : result string CronSchedule :=
  let trimmed := trim expr in
  if starts_with "@" trimmed then
    Throw ("named cron macros are not supported: " +:+
           quoted (default "" (head (split_runs is_js_space trimmed))))%stdpp
  else
    let fields := split_runs is_js_space trimmed in
    if negb (length fields =? 5)%nat then
      Throw ("cron expression must have exactly 5 fields, got " +:+
             pretty (length fields) +:+ ": " +:+ quoted expr)%stdpp
    else
      parsed <-! parse_fields fields FIELDS;
      match parsed with
      | [minute; hour; dayOfMonth; month; dayOfWeek] =>
          Ok (mkCronSchedule minute hour dayOfMonth month dayOfWeek)
      | _ => Throw ""
      end.

(** ** The next fire time *)

Definition WallFormat : Type := Z -> result string (list (string * Z)).
Definition OffsetFormat : Type := Z -> result string (option string).

Definition MAX_DAYS : nat := 366.

Definition partOf (parts : list (string * Z)) (type : string) : result string Z :=
  match List.find (fun p => bool_decide (p.1 = type)) parts with
  | None => Throw ("timezone formatting did not produce " +:+ quoted type)%stdpp
  | Some found => Ok found.2
  end.

(** [/^GMT([+-])(\d{1,2})(?::(\d{2}))?$/] and the arithmetic on its groups. *)
Definition gmt_offset (name : string) : option Z :=
  if starts_with "GMT" name then
    match drop_str 3 name with
    | String c s =>
        if Ascii.eqb c "+" || Ascii.eqb c "-" then
          let sign := if Ascii.eqb c "-" then -1 else 1 in
          match digits s with
          | (h, len, rest) =>
              if (len =? 1)%nat || (len =? 2)%nat then
                match rest with
                | EmptyString => Some (sign * (h * 60 + 0) * 60000)
                | String c s =>
                    if Ascii.eqb c ":" then
                      match digits s with
                      | (m, len, EmptyString) =>
                          if (len =? 2)%nat then Some (sign * (h * 60 + m) * 60000) else None
                      | _ => None
                      end
                    else None
                end
              else None
          end
        else None
    | EmptyString => None
    end
  else None.

Definition offsetMs (fmt : OffsetFormat) (epochMs : Z) : result string Z :=
  found <-! fmt epochMs;
  let name := default "GMT" found in
  if bool_decide (name = "GMT") || bool_decide (name = "UTC") then Ok 0
  else match gmt_offset name with
       | None => Throw ("unable to interpret timezone offset " +:+ quoted name)%stdpp
       | Some o => Ok o
       end.

(** [a && b] of two tests that may throw. *)
Definition and_then (a b : result string bool) : result string bool :=
  x <-! a; if x then b else Ok false.

Definition part_is (parts : list (string * Z)) (type : string) (v : Z) : result string bool :=
  x <-! partOf parts type; Ok (x =? v).

Definition wallEquals (fmt : WallFormat) (epochMs y m0 d h min : Z) : result string bool :=
  parts <-! fmt epochMs;
  and_then (part_is parts "year" y)
  (and_then (x <-! partOf parts "month"; Ok (x - 1 =? m0))
  (and_then (part_is parts "day" d)
  (and_then (part_is parts "hour" h)
            (part_is parts "minute" min)))).

Definition wallToEpoch (wall : WallFormat) (offset : OffsetFormat) (y m0 d h min : Z)
    : result string (option Z) :=
  let guess := Date_UTC y m0 d h min in
  o <-! offsetMs offset guess;
  let cand := guess - o in
  same <-! wallEquals wall cand y m0 d h min;
  if (same : bool) then Ok (Some cand)
  else
    o <-! offsetMs offset cand;
    let cand := guess - o in
    same <-! wallEquals wall cand y m0 d h min;
    Ok (if (same : bool) then Some cand else None).

Definition includes (l : list Z) (v : Z) : bool := bool_decide (v ∈ l).

(** Vixie's rule: with both day fields restricted, either may match. *)
Definition day_matches (s : CronSchedule) (m0 d weekday : Z) : bool :=
  let domAll := (length (dayOfMonth s) =? 31)%nat in
  let dowAll := (length (dayOfWeek s) =? 7)%nat in
  (if domAll && dowAll then true
   else if domAll then includes (dayOfWeek s) weekday
   else if dowAll then includes (dayOfMonth s) d
   else includes (dayOfMonth s) d || includes (dayOfWeek s) weekday)
  && includes (month s) (m0 + 1).

Section search.
Context (schedule : CronSchedule) (afterEpochMs : Z) (wall : WallFormat) (offset : OffsetFormat).
Context (afterHour afterMinute : Z).

(** The inner loop, over the minutes of one hour. *)
Fixpoint try_minutes (day0 : bool) (y m0 d hh : Z) (ms : list Z) : result string (option Z) :=
  match ms with
  | [] => Ok None
  | mm :: ms =>
      if day0 && ((hh <? afterHour) || ((hh =? afterHour) && (mm <=? afterMinute)))
      then try_minutes day0 y m0 d hh ms
      else
        cand <-! wallToEpoch wall offset y m0 d hh mm;
        match cand with
        | Some t => if afterEpochMs <? t then Ok (Some t) else try_minutes day0 y m0 d hh ms
        | None => try_minutes day0 y m0 d hh ms
        end
  end.

Fixpoint try_hours (day0 : bool) (y m0 d : Z) (hs : list Z) : result string (option Z) :=
  match hs with
  | [] => Ok None
  | hh :: hs =>
      found <-! try_minutes day0 y m0 d hh (minute schedule);
      match found with
      | Some t => Ok (Some t)
      | None => try_hours day0 y m0 d hs
      end
  end.

(** The loop over the days; [days] counts the rounds that remain. *)
Fixpoint scan_days (days : nat) (day0 : bool) (y m0 d weekday : Z) : result string Z :=
  match days with
  | O => Throw "cron expression never matches within the search window"
  | S days =>
      found <-! (if day_matches schedule m0 d weekday
                 then try_hours day0 y m0 d (hour schedule) else Ok None);
      match found with
      | Some t => Ok t
      | None =>
          let '(y', m0', d') := date_fields (day_of_ms (Date_UTC y m0 (d + 1) 0 0)) in
          scan_days days false y' m0' d' ((weekday + 1) mod 7)
      end
  end.
End search.

Section nextRun.
Context (DateTimeFormat : string -> option (WallFormat * OffsetFormat)).

Definition nextRunAfter (schedule : CronSchedule) (afterEpochMs : Z) (timezone : string)
    : result string Z :=
  match DateTimeFormat timezone with
  | None => Throw ("invalid timezone: " +:+ quoted timezone)%stdpp
  | Some (wall, offset) =>
      start <-! wall afterEpochMs;
      y <-! partOf start "year";
      m1 <-! partOf start "month";
      let m0 := m1 - 1 in
      d <-! partOf start "day";
      afterHour <-! partOf start "hour";
      afterMinute <-! partOf start "minute";
      let weekday := getUTCDay (Date_UTC y m0 d 0 0) in
      scan_days schedule afterEpochMs wall offset afterHour afterMinute
        MAX_DAYS true y m0 d weekday
  end.
End nextRun.

Example cron1 : parseCronExpression " */15 22-2 1,15 * 1-5/2 " =
  Ok (mkCronSchedule [0;15;30;45] [0;1;2;22;23] [1;15] [1;2;3;4;5;6;7;8;9;10;11;12] [1;3;5]).
Proof. vm_compute. reflexivity. Qed.

(** ** What an expression means

    The grammar of the module comment as data: a part is [*], a value or a
    range, with an optional step.  [denotes] is what the parser's loops make of
    it, in one form for both: walking up from the start (and from the maximum on
    to the minimum), the values up to the end whose distance from the start is a
    multiple of the step.  What the comment says a part means is [grammar], below;
    the theorem compares the two. *)

Inductive CronRange : Type :=
| Star
| Value (a : N)
| Range (a b : N).

Record CronPart := mkCronPart { range : CronRange; every : option N }.

(** The bounds the parser walks between; for a value it is the value twice, with a
    step or without. *)
Definition range_bounds (def : FieldDef) (r : CronRange) : Z * Z :=
  match r with
  | Star => (fd_min def, fd_max def)
  | Value a => (Z.of_N a, Z.of_N a)
  | Range a b => (Z.of_N a, Z.of_N b)
  end.

Definition in_field (def : FieldDef) (v : Z) : Prop := fd_min def <= v <= fd_max def.

(** The distance from [a] up to [v] around the cycle of the field's values. *)
Definition distance (def : FieldDef) (a v : Z) : Z := (v - a) mod (fd_max def - fd_min def + 1).

(** Every [step]-th value walking up from [a] to [b]. *)
Definition walks_to (def : FieldDef) (a b step v : Z) : Prop :=
  in_field def v /\ distance def a v <= distance def a b /\ (step | distance def a v).

Definition step_of (p : CronPart) : Z := match every p with Some n => Z.of_N n | None => 1 end.

Definition denotes (def : FieldDef) (p : CronPart) (v : Z) : Prop :=
  let '(a, b) := range_bounds def (range p) in walks_to def a b (step_of p) v.

Definition valid_part (def : FieldDef) (p : CronPart) : Prop :=
  let '(a, b) := range_bounds def (range p) in
  in_field def a /\ in_field def b /\ 1 <= step_of p.

(** Day-of-week 7 is Sunday. *)
Definition normalize (def : FieldDef) (v : Z) : Z :=
  if (fd_max def =? 7) && (v =? 7) then 0 else v.

Definition print_range (r : CronRange) : string :=
  match r with
  | Star => "*"
  | Value a => pretty a
  | Range a b => (pretty a +:+ "-" +:+ pretty b)%stdpp
  end.

Definition print_part (p : CronPart) : string :=
  (print_range (range p) +:+ match every p with Some n => "/" +:+ pretty n | None => "" end)%stdpp.

Definition print_field (ps : list CronPart) : string := JsString.join "," (map print_part ps).
Definition print_cron (fs : list (list CronPart)) : string := JsString.join " " (map print_field fs).

(** ** Loops and sets *)

Lemma elem_of_for_loop fuel from to step v :
  1 <= step -> to - from + 1 <= Z.of_nat fuel ->
  v ∈ for_loop fuel from to step <-> from <= v <= to /\ (step | v - from).
Proof.
  intros Hstep. revert from. induction fuel as [|fuel IH]; intros from Hfuel; cbn [for_loop].
  - rewrite elem_of_nil. lia.
  - destruct (Z.leb_spec from to) as [Hle|Hgt]; [|rewrite elem_of_nil; lia].
    rewrite elem_of_cons, IH by lia. split.
    + intros [->|[Hr [q Hq]]]; [split; [lia|by exists 0; lia]|].
      split; [lia|]. exists (q + 1). lia.
    + intros [Hr [q Hq]]. destruct (decide (v = from)) as [->|Hne]; [by left|right].
      assert (1 <= q) by nia. split; [nia|]. exists (q - 1). lia.
Qed.

Lemma elem_of_for_range from to step v :
  1 <= step -> v ∈ for_range from to step <-> from <= v <= to /\ (step | v - from).
Proof. intros. apply elem_of_for_loop; lia. Qed.

(** A loop with step one lists consecutive values. *)
Lemma lookup_for_loop_1 fuel from to i :
  to - from + 1 = Z.of_nat fuel ->
  for_loop fuel from to 1 !! i = if decide (i < fuel)%nat then Some (from + Z.of_nat i) else None.
Proof.
  revert from i. induction fuel as [|fuel IH]; intros from i Hf; cbn [for_loop]; [done|].
  destruct (Z.leb_spec from to); [|lia].
  destruct i as [|i]; simpl; [by rewrite Z.add_0_r|].
  rewrite IH by lia. repeat case_decide; try lia; [|done]. f_equal. lia.
Qed.

Lemma length_for_loop_1 fuel from to :
  to - from + 1 = Z.of_nat fuel -> length (for_loop fuel from to 1) = fuel.
Proof.
  revert from. induction fuel as [|fuel IH]; intros from Hf; cbn [for_loop]; [done|].
  destruct (Z.leb_spec from to); [|lia]. simpl. by rewrite IH by lia.
Qed.

Lemma elem_of_set_from seen l v : v ∈ set_from seen l <-> v ∈ l /\ v ∉ seen.
Proof.
  revert seen. induction l as [|x l IH]; intros seen; simpl.
  - rewrite elem_of_nil. tauto.
  - case_decide as Hx.
    + rewrite IH, elem_of_cons. split; [tauto|]. by intros [[->|Hl] Hs].
    + rewrite !elem_of_cons, IH, not_elem_of_app, list_elem_of_singleton.
      split; [intros [->|[? [? ?]]]; tauto|]. intros [Hv Hs].
      destruct (decide (v = x)); tauto.
Qed.

Lemma NoDup_set_from seen l : NoDup (set_from seen l).
Proof.
  revert seen. induction l as [|x l IH]; intros seen; simpl; [constructor|].
  case_decide; [apply IH|]. constructor; [|apply IH].
  rewrite elem_of_set_from, not_elem_of_app, list_elem_of_singleton. tauto.
Qed.

Lemma elem_of_new_Set l v : v ∈ new_Set l <-> v ∈ l.
Proof. unfold new_Set. rewrite elem_of_set_from. pose proof (not_elem_of_nil v). tauto. Qed.

(** A field's list is strictly increasing, and holds the normalized values. *)
Lemma field_result_sorted def vs : StronglySorted Z.lt (field_result def vs).
Proof.
  unfold field_result. set (l := new_Set _).
  assert (NoDup (merge_sort (≤) l)) as Hnd.
  { rewrite (merge_sort_Permutation (≤) l). apply NoDup_set_from. }
  pose proof (StronglySorted_merge_sort (≤) l) as Hs. revert Hnd Hs.
  generalize (merge_sort (≤) l). clear. intros l. induction l as [|x l IH]; intros Hnd Hs; constructor.
  - apply IH; [by inv Hnd | by inv Hs].
  - inv Hnd. inv Hs. apply Forall_forall. intros y Hy.
    assert (x <= y) by (by eapply Forall_forall in H4). assert (x <> y) by (by intros ->). lia.
Qed.

Lemma elem_of_field_result def vs v :
  v ∈ field_result def vs <-> exists w, w ∈ vs /\ v = normalize def w.
Proof.
  unfold field_result, normalize.
  rewrite (merge_sort_Permutation (≤) _), elem_of_new_Set.
  destruct (fd_max def =? 7); simpl.
  - rewrite list_elem_of_fmap. setoid_rewrite elem_of_new_Set. naive_solver.
  - rewrite elem_of_new_Set. naive_solver.
Qed.

(** ** Parts *)

Lemma distance_up def a v :
  in_field def a -> in_field def v -> a <= v -> distance def a v = v - a.
Proof. unfold distance, in_field. intros. apply Z.mod_small. lia. Qed.

Lemma distance_wrap def a v :
  in_field def a -> in_field def v -> v < a ->
  distance def a v = v - a + (fd_max def - fd_min def + 1).
Proof.
  unfold distance, in_field. intros. symmetry. apply (Z.mod_unique _ _ (-1)); lia.
Qed.

Lemma elem_of_up def a b step v :
  in_field def a -> in_field def b -> a <= b -> 1 <= step ->
  v ∈ for_range a b step <-> walks_to def a b step v.
Proof.
  intros Ha Hb Hab Hstep. rewrite elem_of_for_range by done. unfold walks_to.
  rewrite (distance_up def a b) by done. split.
  - intros [Hv Hd]. assert (in_field def v) by (unfold in_field in *; lia).
    rewrite distance_up by (done || lia). done || (split_and!; [done|lia|done]).
  - intros (Hv & Hle & Hd). destruct (Z.le_gt_cases a v).
    + rewrite distance_up in Hle, Hd by done. split; [lia|done].
    + rewrite distance_wrap in Hle by done. unfold in_field in *. lia.
Qed.

(** The wrapped sequence lists the values by their distance from the start. *)
Lemma wrapped_lookup def a b i v :
  in_field def a -> in_field def b -> b < a ->
  let seq := for_range a (fd_max def) 1 ++ for_range (fd_min def) b 1 in
  Z.of_nat (length seq) = distance def a b + 1 /\
  (seq !! i = Some v <->
   in_field def v /\ distance def a v <= distance def a b /\ distance def a v = Z.of_nat i).
Proof.
  intros Ha Hb Hba. unfold in_field in Ha, Hb.
  set (k1 := Z.to_nat (fd_max def - a + 1)). set (k2 := Z.to_nat (b - fd_min def + 1)).
  assert (length (for_range a (fd_max def) 1) = k1) as H1 by (apply length_for_loop_1; lia).
  assert (length (for_range (fd_min def) b 1) = k2) as H2 by (apply length_for_loop_1; lia).
  cbn zeta. rewrite length_app, H1, H2. rewrite (distance_wrap def a b) by done.
  split; [lia|].
  rewrite lookup_app_Some, H1. unfold for_range at 1 2. rewrite !lookup_for_loop_1 by lia.
  fold k1 k2. split.
  - intros [Hi|[Hi Hj]]; case_decide; simplify_eq.
    + rewrite distance_up by (unfold in_field; lia). unfold in_field. lia.
    + rewrite distance_wrap by (unfold in_field; lia). unfold in_field. lia.
  - intros (Hv & Hle & Hi). destruct (Z.le_gt_cases a v).
    + rewrite distance_up in Hi by done. unfold in_field in *. left.
      rewrite decide_True by lia. f_equal. lia.
    + rewrite distance_wrap in Hi, Hle by done. unfold in_field in *. right.
      split; [lia|]. rewrite decide_True by lia. f_equal. lia.
Qed.

Lemma elem_of_wrapped def a b step v :
  in_field def a -> in_field def b -> b < a -> 1 <= step ->
  let seq := for_range a (fd_max def) 1 ++ for_range (fd_min def) b 1 in
  v ∈ omap (fun i => seq !! Z.to_nat i) (for_range 0 (Z.of_nat (length seq) - 1) step) <->
  walks_to def a b step v.
Proof.
  intros Ha Hb Hba Hstep seq.
  pose proof (fun i => wrapped_lookup def a b i v Ha Hb Hba) as Hl. fold seq in Hl.
  destruct (Hl O) as [Hlen _]. rewrite Hlen, list_elem_of_omap. unfold walks_to. split.
  - intros (i & Hi & Hs). apply elem_of_for_range in Hi as [Hr Hd]; [|done].
    apply (proj2 (Hl (Z.to_nat i))) in Hs as (Hv & Hle & Heq).
    split_and!; [done..|]. rewrite Heq, Z2Nat.id by lia. by rewrite Z.sub_0_r in Hd.
  - intros (Hv & Hle & Hd). exists (distance def a v).
    assert (0 <= distance def a v) by (apply Z.mod_pos_bound; unfold in_field in *; lia).
    rewrite elem_of_for_range, Z.sub_0_r by done. split; [split; [lia|done]|].
    apply Hl. split_and!; [done|done|lia].
Qed.

Definition match_bounds (def : FieldDef) (m : PartMatch) : Z * Z * Z :=
  (match m1 m with None => fd_min def | Some a => a end,
   match m1 m with
   | None => fd_max def
   | Some a => match m2 m with Some b => b | None => a end
   end,
   match m3 m with Some s => s | None => 1 end).

(** What a matched part yields: an error exactly when the step is not positive
    or a bound is outside the field, and otherwise the values walked. *)
Lemma part_values_spec def p m a b step :
  match_bounds def m = (a, b, step) ->
  match part_values def p m with
  | Ok vs => in_field def a /\ in_field def b /\ 1 <= step /\
             forall v, v ∈ vs <-> walks_to def a b step v
  | Throw _ => ~ (in_field def a /\ in_field def b /\ 1 <= step)
  end.
Proof.
  unfold match_bounds. intros [[Ha Hb]%pair_equal_spec Hstep]%pair_equal_spec.
  unfold part_values. rewrite Ha, Hstep.
  replace (match m1 m with None => fd_max def | Some _ => match m2 m with Some b => b | None => a end end)
    with b by (rewrite <- Ha, <- Hb; by destruct (m1 m)).
  clear Ha Hb Hstep.
  destruct (Z.ltb_spec step 1); [lia|].
  destruct (Z.ltb_spec a (fd_min def)); [unfold in_field; simpl; lia|].
  destruct (Z.ltb_spec b (fd_min def)); [unfold in_field; simpl; lia|].
  destruct (Z.ltb_spec (fd_max def) a); [unfold in_field; simpl; lia|].
  destruct (Z.ltb_spec (fd_max def) b); [unfold in_field; simpl; lia|].
  assert (in_field def a /\ in_field def b) as [Ha Hb] by (unfold in_field; lia).
  cbn [orb]. destruct (Z.leb_spec a b); split_and!; try done; intros v.
  - by apply elem_of_up.
  - by apply elem_of_wrapped.
Qed.

(** ** Printed parts are matched back *)

Lemma digit_group_pretty (n : N) s :
  no_digit_head s = true -> digit_group (pretty n +:+ s)%stdpp = Some (Z.of_N n, s).
Proof. intros Hs. unfold digit_group. by destruct (digits_pretty n s Hs) as [k ->]. Qed.

Definition print_step (e : option N) : string :=
  match e with Some n => ("/" +:+ pretty n)%stdpp | None => "" end.

Lemma step_suffix_print e : step_suffix (print_step e) = Some (Z.of_N <$> e).
Proof.
  destruct e as [n|]; [|done]. unfold print_step. rewrite append_cons. cbn [step_suffix].
  rewrite Ascii.eqb_refl. change ("" +:+ pretty n)%stdpp with (pretty n).
  rewrite <- (append_nil_r (pretty n)), digit_group_pretty by done. done.
Qed.

Lemma no_digit_head_step e : no_digit_head (print_step e) = true.
Proof. by destruct e. Qed.

(** A text that starts with a digit does not start with an asterisk. *)
Lemma PART_RE_digits p a rest :
  digit_group p = Some (a, rest) ->
  PART_RE p =
    (let '(b, rest) :=
       match rest with
       | String c s =>
           if Ascii.eqb c "-" then
             match digit_group s with Some (b, rest') => (Some b, rest') | None => (None, rest) end
           else (None, rest)
       | EmptyString => (None, rest)
       end in
     match step_suffix rest with Some m3 => Some (mkPartMatch (Some a) b m3) | None => None end).
Proof.
  intros Hp. destruct p as [|c s]; [done|]. unfold PART_RE. rewrite Hp.
  destruct (Ascii.eqb_spec c "*") as [->|]; [done|]. done.
Qed.

Definition match_of (p : CronPart) : PartMatch :=
  match range p with
  | Star => mkPartMatch None None (Z.of_N <$> every p)
  | Value a => mkPartMatch (Some (Z.of_N a)) None (Z.of_N <$> every p)
  | Range a b => mkPartMatch (Some (Z.of_N a)) (Some (Z.of_N b)) (Z.of_N <$> every p)
  end.

Lemma PART_RE_print p : PART_RE (print_part p) = Some (match_of p).
Proof.
  destruct p as [r e]. unfold print_part, match_of. cbn [range every]. fold (print_step e).
  destruct r as [|a|a b]; cbn [print_range].
  - rewrite append_cons. unfold PART_RE. rewrite Ascii.eqb_refl.
    change ("" +:+ print_step e)%stdpp with (print_step e). by rewrite step_suffix_print.
  - rewrite (PART_RE_digits _ (Z.of_N a) (print_step e))
      by (apply digit_group_pretty, no_digit_head_step).
    destruct e as [n|]; [|done]. unfold print_step. rewrite append_cons.
    change (Ascii.eqb "/" "-") with false. cbn iota.
    rewrite <- (append_cons "/"), <- (append_nil_r (_ +:+ pretty n)%stdpp).
    change ((String "/" "" +:+ pretty n) +:+ "")%stdpp with (print_step (Some n) +:+ "")%stdpp.
    by rewrite append_nil_r, step_suffix_print.
  - rewrite !append_assoc, append_cons.
    change ("" +:+ pretty b +:+ print_step e)%stdpp with (pretty b +:+ print_step e)%stdpp.
    rewrite (PART_RE_digits _ (Z.of_N a) (String "-" (pretty b +:+ print_step e)%stdpp))
      by (by apply digit_group_pretty).
    rewrite Ascii.eqb_refl, digit_group_pretty by apply no_digit_head_step.
    by rewrite step_suffix_print.
Qed.

Lemma match_bounds_of def p a b :
  range_bounds def (range p) = (a, b) -> match_bounds def (match_of p) = (a, b, step_of p).
Proof.
  destruct p as [[|x|x y] [n|]]; unfold match_bounds, match_of, step_of; simpl;
    by intros [= <- <-].
Qed.

(** ** Separators *)

(** The characters of a printed part. *)
Definition part_char (c : ascii) : bool :=
  is_digit c || Ascii.eqb c "*" || Ascii.eqb c "-" || Ascii.eqb c "/".

Lemma all_chars_app P a b : all_chars P (a +:+ b)%stdpp = all_chars P a && all_chars P b.
Proof. induction a as [|c a IH]; [done|]. rewrite append_cons. simpl. by rewrite IH, andb_assoc. Qed.

Lemma all_chars_impl (P Q : ascii -> bool) s :
  (forall c, P c = true -> Q c = true) -> all_chars P s = true -> all_chars Q s = true.
Proof. intros HPQ. induction s; simpl; [done|]. intros [? ?]%andb_true_iff. rewrite HPQ, IHs; done. Qed.

Lemma part_char_pretty (n : N) : all_chars part_char (pretty n) = true.
Proof. apply all_digits_pretty. intros c Hc. unfold part_char. by rewrite Hc. Qed.

Lemma part_char_print p : all_chars part_char (print_part p) = true.
Proof.
  unfold print_part. rewrite all_chars_app. destruct p as [[|a|a b] [n|]]; simpl;
    rewrite ?all_chars_app; simpl; rewrite ?all_chars_app, ?part_char_pretty; try done;
    rewrite append_cons; simpl; by rewrite part_char_pretty.
Qed.

Lemma part_char_neq c d : part_char d = false -> part_char c = true -> Ascii.eqb c d = false.
Proof. intros Hd Hc. apply Ascii.eqb_neq. intros ->. congruence. Qed.

Lemma part_char_nonspace c : part_char c = true -> is_js_space c = false.
Proof. destruct c as [[] [] [] [] [] [] [] []]; vm_compute; congruence. Qed.

Lemma print_part_nonempty p : print_part p <> "".
Proof.
  intros Heq. pose proof (PART_RE_print p) as Hp. by rewrite Heq in Hp.
Qed.

Lemma split_on_app sep w s :
  all_chars (fun c => negb (Ascii.eqb c sep)) w = true ->
  split_on sep (w +:+ String sep s)%stdpp = w :: split_on sep s.
Proof.
  induction w as [|c w IH]; rewrite ?append_cons; simpl.
  - intros _. change ("" +:+ String sep s)%stdpp with (String sep s). simpl. by rewrite Ascii.eqb_refl.
  - intros [->%negb_true_iff Hw]%andb_true_iff. by rewrite IH.
Qed.

Lemma split_on_none sep w :
  all_chars (fun c => negb (Ascii.eqb c sep)) w = true -> split_on sep w = [w].
Proof.
  induction w as [|c w IH]; simpl; [done|].
  intros [->%negb_true_iff Hw]%andb_true_iff. by rewrite IH.
Qed.

Lemma split_on_join sep ws :
  ws <> [] -> Forall (fun w => all_chars (fun c => negb (Ascii.eqb c sep)) w = true) ws ->
  split_on sep (JsString.join (String sep "") ws) = ws.
Proof.
  intros Hne Hws. induction Hws as [|w ws Hw Hws IH]; [done|].
  destruct ws as [|w2 ws]; [by apply split_on_none|]. rewrite length_join_2, append_cons.
  change ("" +:+ JsString.join (String sep "") (w2 :: ws))%stdpp
    with (JsString.join (String sep "") (w2 :: ws)).
  rewrite split_on_app by done. by rewrite IH.
Qed.

Lemma split_runs_app (sep : ascii -> bool) w c s :
  all_chars (fun c => negb (sep c)) w = true -> sep c = true ->
  (forall d t, s = String d t -> sep d = false) -> s <> "" ->
  split_runs sep (w +:+ String c s)%stdpp = w :: split_runs sep s.
Proof.
  intros Hw Hc Hs Hne. induction w as [|x w IH]; rewrite ?append_cons.
  - change ("" +:+ String c s)%stdpp with (String c s). cbn [split_runs]. rewrite Hc.
    destruct s as [|d t]; [done|]. by rewrite (Hs d t eq_refl).
  - simpl in Hw. apply andb_true_iff in Hw as [Hx%negb_true_iff Hw].
    cbn [split_runs]. by rewrite Hx, IH.
Qed.

Lemma split_runs_none (sep : ascii -> bool) w :
  all_chars (fun c => negb (sep c)) w = true -> split_runs sep w = [w].
Proof.
  induction w as [|c w IH]; simpl; [done|].
  intros [->%negb_true_iff Hw]%andb_true_iff. by rewrite IH.
Qed.

(** A word: not empty and without white space. *)
Definition word (w : string) : Prop :=
  w <> "" /\ all_chars (fun c => negb (is_js_space c)) w = true.

Lemma word_head w : word w -> exists c t, w = String c t /\ is_js_space c = false.
Proof.
  intros [Hne Hw]. destruct w as [|c t]; [done|]. simpl in Hw.
  apply andb_true_iff in Hw as [Hc%negb_true_iff _]. by exists c, t.
Qed.

Lemma join_head w ws : word w ->
  exists c t, JsString.join " " (w :: ws) = String c t /\ is_js_space c = false.
Proof.
  intros (c & t & -> & Hc)%word_head. destruct ws; [by exists c, t|].
  rewrite length_join_2, append_cons. eauto.
Qed.

Lemma split_runs_join ws :
  ws <> [] -> Forall word ws -> split_runs is_js_space (JsString.join " " ws) = ws.
Proof.
  intros Hne Hws. induction Hws as [|w ws Hw Hws IH]; [done|].
  destruct ws as [|w2 ws]; [by apply split_runs_none, Hw|]. rewrite length_join_2, append_cons.
  change ("" +:+ JsString.join " " (w2 :: ws))%stdpp with (JsString.join " " (w2 :: ws)).
  inv Hws. destruct (join_head w2 ws) as (c & t & Heq & Hc); [done|].
  rewrite split_runs_app.
  - by rewrite IH.
  - apply Hw.
  - done.
  - intros d t'. rewrite Heq. intros [= <- _]. done.
  - by rewrite Heq.
Qed.

Lemma trim_end_app a b : trim_end b <> "" -> trim_end (a +:+ b)%stdpp = (a +:+ trim_end b)%stdpp.
Proof.
  intros Hb. induction a as [|c a IH]; [done|]. rewrite !append_cons. cbn [trim_end].
  rewrite IH. destruct (a +:+ trim_end b)%stdpp eqn:Heq; [|done].
  destruct a; [|done]. by destruct Hb.
Qed.

Lemma trim_end_word w : all_chars (fun c => negb (is_js_space c)) w = true -> trim_end w = w.
Proof.
  induction w as [|c w IH]; simpl; [done|]. intros [Hc%negb_true_iff Hw]%andb_true_iff.
  rewrite IH by done. destruct w; [by rewrite Hc|done].
Qed.

Lemma trim_join ws : Forall word ws -> trim (JsString.join " " ws) = JsString.join " " ws.
Proof.
  intros Hws.
  assert (trim_end (JsString.join " " ws) = JsString.join " " ws) as Hend.
  { induction Hws as [|w ws Hw Hws IH]; [done|].
    destruct ws as [|w2 ws]; [apply trim_end_word, Hw|]. rewrite length_join_2.
    assert (trim_end (" " +:+ JsString.join " " (w2 :: ws))%stdpp =
            (" " +:+ JsString.join " " (w2 :: ws))%stdpp) as Ht.
    { rewrite trim_end_app; rewrite IH; [done|]. inv Hws.
      by destruct (join_head w2 ws) as (c & t & -> & _). }
    rewrite trim_end_app; rewrite Ht; done. }
  unfold trim. destruct ws as [|w ws]; [done|]. inv Hws.
  destruct (join_head w ws) as (c & t & Heq & Hc); [done|].
  rewrite Heq at 1. simpl trim_start. rewrite Hc, <- Heq. done.
Qed.

Lemma word_field ps : ps <> [] -> word (print_field ps).
Proof.
  intros Hne. split.
  - destruct ps as [|p ps]; [done|]. unfold print_field. simpl map.
    pose proof (print_part_nonempty p) as Hp.
    destruct (map print_part ps); [done|]. rewrite length_join_2. by destruct (print_part p).
  - unfold print_field. clear Hne. induction ps as [|p ps IH]; [done|]. simpl map.
    assert (all_chars (fun c => negb (is_js_space c)) (print_part p) = true) as Hp.
    { eapply all_chars_impl, part_char_print. intros c Hc. by rewrite part_char_nonspace. }
    destruct (map print_part ps) as [|w ws] eqn:Hm; [done|].
    by rewrite length_join_2, !all_chars_app, Hp, IH.
Qed.

Lemma trim_part p : trim (print_part p) = print_part p.
Proof.
  apply (trim_join [print_part p]). constructor; [|done].
  split; [apply print_part_nonempty|].
  eapply all_chars_impl, part_char_print. intros c Hc. by rewrite part_char_nonspace.
Qed.

Lemma split_field ps : ps <> [] -> split_on "," (print_field ps) = map print_part ps.
Proof.
  intros Hne. apply split_on_join; [by destruct ps|].
  apply Forall_map, Forall_forall. intros p _. eapply all_chars_impl, part_char_print.
  intros c Hc. by rewrite (part_char_neq c ",").
Qed.

(** ** Fields *)

(** A value that one of the parts yields. *)
Definition part_yields (def : FieldDef) (part : string) (v : Z) : Prop :=
  exists m, PART_RE (trim part) = Some m /\
  exists a b step, match_bounds def m = (a, b, step) /\ walks_to def a b step v.

Definition part_accepted (def : FieldDef) (part : string) : Prop :=
  exists m, PART_RE (trim part) = Some m /\
  exists a b step, match_bounds def m = (a, b, step) /\
    in_field def a /\ in_field def b /\ 1 <= step.

Lemma part_yields_bounds def part m a b step v :
  PART_RE (trim part) = Some m -> match_bounds def m = (a, b, step) ->
  part_yields def part v <-> walks_to def a b step v.
Proof.
  intros Hm Hb. unfold part_yields. split; [|by eauto 8].
  intros (m' & Hm' & a' & b' & st' & Hb' & Hw). rewrite Hm' in Hm. injection Hm as ->.
  rewrite Hb' in Hb. by injection Hb as -> -> ->.
Qed.

Lemma parse_part_spec raw def part :
  match parse_part raw def part with
  | Ok vs => part_accepted def part /\ forall v, v ∈ vs <-> part_yields def part v
  | Throw _ => ~ part_accepted def part
  end.
Proof.
  unfold parse_part, part_accepted. destruct (is_empty (trim part)) eqn:He.
  - apply is_empty_spec in He. rewrite He. by intros (m & Hm & _).
  - destruct (PART_RE (trim part)) as [m|] eqn:Hm; [|by intros (m & [=] & _)].
    destruct (match_bounds def m) as [[a b] step] eqn:Hb.
    pose proof (part_values_spec def (trim part) m a b step Hb) as Hs.
    destruct (part_values def (trim part) m) as [vs|e].
    + destruct Hs as (Ha & Hb' & Hst & Hv). split; [by eauto 10|]. intros v.
      by rewrite (part_yields_bounds def part m a b step).
    + intros (m' & [= <-] & a' & b' & st' & Hb' & Hacc). rewrite Hb in Hb'.
      injection Hb' as -> -> ->. done.
Qed.

Lemma parse_parts_spec raw def vs parts :
  match parse_parts raw def vs parts with
  | Ok ws => Forall (part_accepted def) parts /\
             forall v, v ∈ ws <-> v ∈ vs \/ exists part, part ∈ parts /\ part_yields def part v
  | Throw _ => ~ Forall (part_accepted def) parts
  end.
Proof.
  revert vs. induction parts as [|part parts IH]; intros vs; cbn [parse_parts].
  - split; [done|]. intros v. split; [by left|]. intros [?|(p & []%elem_of_nil & _)]. done.
  - pose proof (parse_part_spec raw def part) as Hp.
    destruct (parse_part raw def part) as [ws|e]; simpl; [|by intros [? _]%Forall_cons].
    destruct Hp as [Hacc Hv]. specialize (IH (vs ++ ws)).
    destruct (parse_parts raw def (vs ++ ws) parts) as [us|e].
    + destruct IH as [Hall Hu]. split; [by constructor|]. intros v.
      rewrite Hu, elem_of_app, Hv. setoid_rewrite elem_of_cons. naive_solver.
    + intros [_ ?]%Forall_cons. done.
Qed.

(** [parseField] accepts exactly the fields whose parts it all accepts, and
    yields the increasing list of their normalized values. *)
Lemma parseField_spec raw def :
  match parseField raw def with
  | Ok l => Forall (part_accepted def) (split_on "," raw) /\ StronglySorted Z.lt l /\
            forall v, v ∈ l <->
              exists part w, part ∈ split_on "," raw /\ part_yields def part w /\ v = normalize def w
  | Throw _ => ~ Forall (part_accepted def) (split_on "," raw)
  end.
Proof.
  unfold parseField. pose proof (parse_parts_spec raw def [] (split_on "," raw)) as Hs.
  destruct (parse_parts raw def [] (split_on "," raw)) as [ws|e]; simpl; [|done].
  destruct Hs as [Hall Hv]. split_and!; [done|apply field_result_sorted|].
  intros v. rewrite elem_of_field_result. setoid_rewrite Hv. setoid_rewrite elem_of_nil. naive_solver.
Qed.

Lemma split_on_nonempty sep s : split_on sep s <> [].
Proof. destruct s as [|c s]; simpl; [done|]. by repeat case_match. Qed.

Lemma walks_to_start def a b step :
  in_field def a -> in_field def b -> walks_to def a b step a.
Proof.
  intros Ha Hb. unfold walks_to. rewrite (distance_up def a a), Z.sub_diag by done || lia.
  split_and!; [done| |by exists 0].
  unfold distance, in_field in *. pose proof (Z.mod_pos_bound (b - a) (fd_max def - fd_min def + 1)). lia.
Qed.

(** What [parseField] returns is a non-empty increasing list of the field's
    values, Sunday as 0 only. *)
Lemma parseField_wf raw def l :
  parseField raw def = Ok l ->
  l <> [] /\ StronglySorted Z.lt l /\
  Forall (fun v => exists w, in_field def w /\ v = normalize def w) l.
Proof.
  intros Heq. pose proof (parseField_spec raw def) as Hs. rewrite Heq in Hs.
  destruct Hs as (Hall & Hsort & Hv). split_and!; [|done|].
  - pose proof (split_on_nonempty "," raw) as Hne.
    destruct (split_on "," raw) as [|part parts]; [done|].
    apply Forall_cons in Hall as [(m & Hm & a & b & step & Hb & Ha & Hb' & Hst) _].
    intros ->. apply (not_elem_of_nil (normalize def a)), Hv. exists part, a.
    split_and!; [by left| |done]. exists m. split; [done|]. exists a, b, step.
    split; [done|]. by apply walks_to_start.
  - apply Forall_forall. intros v (part & w & _ & (m & _ & a & b & st & _ & Hw & _) & ->)%Hv. eauto.
Qed.

Lemma part_accepted_print def p : part_accepted def (print_part p) <-> valid_part def p.
Proof.
  unfold part_accepted, valid_part. rewrite trim_part, PART_RE_print.
  destruct (range_bounds def (range p)) as [a b] eqn:Hr.
  pose proof (match_bounds_of def p a b Hr) as Hb. split; [|by eauto 10].
  intros (m' & [= <-] & a' & b' & st' & Hb' & Hacc). rewrite Hb in Hb'.
  by injection Hb' as -> -> ->.
Qed.

Lemma part_yields_print def p v : part_yields def (print_part p) v <-> denotes def p v.
Proof.
  unfold denotes. destruct (range_bounds def (range p)) as [a b] eqn:Hr.
  apply part_yields_bounds with (m := match_of p); [by rewrite trim_part, PART_RE_print|].
  by apply match_bounds_of.
Qed.

(** The same for a printed field, in terms of what its parts denote. *)
Lemma parseField_print def ps : ps <> [] ->
  match parseField (print_field ps) def with
  | Ok l => Forall (valid_part def) ps /\ StronglySorted Z.lt l /\
            forall v, v ∈ l <-> exists p w, p ∈ ps /\ denotes def p w /\ v = normalize def w
  | Throw _ => ~ Forall (valid_part def) ps
  end.
Proof.
  intros Hne. pose proof (parseField_spec (print_field ps) def) as Hs.
  rewrite (split_field ps Hne) in Hs.
  assert (Forall (part_accepted def) (map print_part ps) <-> Forall (valid_part def) ps) as Hacc.
  { rewrite Forall_map. apply Forall_iff. intros p. apply part_accepted_print. }
  destruct (parseField (print_field ps) def) as [l|e].
  - destruct Hs as (Hall & Hsort & Hv). split_and!; [by apply Hacc|done|]. intros v. rewrite Hv.
    setoid_rewrite list_elem_of_fmap. split.
    + intros (? & w & (p & -> & Hp) & Hw & ->). apply part_yields_print in Hw. eauto 6.
    + intros (p & w & Hp & Hw & ->). exists (print_part p), w. rewrite part_yields_print. eauto.
  - by rewrite <- Hacc.
Qed.

(** ** Expressions *)

Definition schedule_fields (s : CronSchedule) : list (list Z) :=
  [minute s; hour s; dayOfMonth s; month s; dayOfWeek s].

Definition valid_fields (fs : list (list CronPart)) : Prop :=
  Forall2 (fun def ps => Forall (valid_part def) ps) FIELDS fs.

(** The list of a field is increasing and holds what its parts denote. *)
Definition field_means (def : FieldDef) (ps : list CronPart) (l : list Z) : Prop :=
  StronglySorted Z.lt l /\
  forall v, v ∈ l <-> exists p w, p ∈ ps /\ denotes def p w /\ v = normalize def w.

Lemma parse_fields_print defs fs :
  length fs = length defs -> Forall (fun ps => ps <> []) fs ->
  match parse_fields (map print_field fs) defs with
  | Ok ls => Forall2 (fun def ps => Forall (valid_part def) ps) defs fs /\
             Forall3 field_means defs fs ls
  | Throw _ => ~ Forall2 (fun def ps => Forall (valid_part def) ps) defs fs
  end.
Proof.
  revert fs. induction defs as [|def defs IH]; intros [|ps fs]; try done.
  - intros _ _. split; constructor.
  - intros [= Hlen] [Hps Hfs]%Forall_cons. cbn [map parse_fields].
    pose proof (parseField_print def ps Hps) as Hp.
    destruct (parseField (print_field ps) def) as [l|e]; simpl; [|by intros [? _]%Forall2_cons].
    specialize (IH fs Hlen Hfs). destruct Hp as (Hv & Hs & Hm).
    destruct (parse_fields (map print_field fs) defs) as [ls|e]; simpl.
    + destruct IH. split; constructor; try done.
    + by intros [_ ?]%Forall2_cons.
Qed.

Lemma length_parse_fields fields defs ls :
  parse_fields fields defs = Ok ls -> length ls = Nat.min (length fields) (length defs).
Proof.
  revert defs ls. induction fields as [|f fields IH]; intros [|def defs] ls; simpl;
    try (by intros [= <-]).
  destruct (parseField f def) as [l|e]; simpl; [|done].
  destruct (parse_fields fields defs) as [ls'|e] eqn:Hls; simpl; [|done].
  intros [= <-]. simpl. f_equal. by apply IH.
Qed.

Lemma print_part_head p : exists c t, print_part p = String c t /\ part_char c = true.
Proof.
  pose proof (part_char_print p) as Hc. pose proof (print_part_nonempty p) as Hne.
  destruct (print_part p) as [|c t]; [done|]. simpl in Hc. apply andb_true_iff in Hc as [? _]. eauto.
Qed.

Lemma no_macro ps fs : ps <> [] -> starts_with "@" (print_cron (ps :: fs)) = false.
Proof.
  intros Hne. destruct ps as [|p ps]; [done|].
  destruct (print_part_head p) as (c & t & Hp & Hc).
  assert (exists t', print_field (p :: ps) = String c t') as [t' Ht'].
  { unfold print_field. simpl map. rewrite Hp.
    destruct (map print_part ps); [by eexists|]. rewrite length_join_2, append_cons. by eexists. }
  assert (exists t', print_cron ((p :: ps) :: fs) = String c t') as [t'' ->].
  { unfold print_cron. simpl map. fold (print_field (p :: ps)). rewrite Ht'.
    destruct (map print_field fs); [by eexists|]. rewrite length_join_2, append_cons. by eexists. }
  apply not_true_is_false. intros Hs. apply starts_with_spec in Hs as [u Hu].
  rewrite append_cons in Hu. injection Hu as -> _. done.
Qed.

(** ** The grammar of the module comment

    The values of a field form a cycle of [period] numbers from its minimum on;
    those of day-of-week are the seven days, 7 being Sunday again. *)
Definition period (def : FieldDef) : Z :=
  if fd_max def =? 7 then 7 else fd_max def - fd_min def + 1.

(** [v] is one of [a], [a + n], [a + 2n], ... up to [b]. *)
Definition counts_to (a b n v : Z) : Prop := exists k, 0 <= k /\ v = a + k * n /\ v <= b.

(** - [*]/N: every N-th value across the field's full range
    - [A]: the single value A
    - [A-B]/N: every N-th value within A..B, round the cycle when A > B
    - [A]/M: every M-th value from A to the range's maximum *)
Definition grammar (def : FieldDef) (p : CronPart) (v : Z) : Prop :=
  let n := step_of p in
  match range p, every p with
  | Star, _ => counts_to (fd_min def) (fd_min def + period def - 1) n v
  | Value a, None => v = normalize def (Z.of_N a)
  | Value a, Some _ => exists w, counts_to (Z.of_N a) (fd_max def) n w /\ v = normalize def w
  | Range a b, _ =>
      if (a <=? b)%N
      then exists w, counts_to (Z.of_N a) (Z.of_N b) n w /\ v = normalize def w
      else exists k, 0 <= k /\ k * n <= (Z.of_N b - Z.of_N a) mod period def /\
             v = fd_min def + (Z.of_N a - fd_min def + k * n) mod period def
  end.

(** The two forms the parser reads otherwise: a value with a step that reaches a
    second value of the field, and a stepped range of weekdays that wraps. *)
Definition departs (def : FieldDef) (p : CronPart) : Prop :=
  match range p, every p with
  | Value a, Some n => Z.of_N a + Z.of_N n <= fd_max def
  | Range a b, Some n => fd_max def = 7 /\ (b < a)%N /\ (1 < n)%N
  | _, _ => False
  end.

(** The first is read as the value alone; the second counts the step through the
    eight numbers 0 to 7, so Sunday twice. *)
Definition read_instead (def : FieldDef) (p : CronPart) (v : Z) : Prop :=
  match range p with
  | Star => False
  | Value a => v = normalize def (Z.of_N a)
  | Range a b => exists w k, 0 <= k /\ v = normalize def w /\
      (w = Z.of_N a + k * step_of p /\ w <= 7 \/
       w = Z.of_N a + k * step_of p - 8 /\ 0 <= w <= Z.of_N b)
  end.

Definition part_means (def : FieldDef) (p : CronPart) (v : Z) : Prop :=
  (~ departs def p /\ grammar def p v) \/ (departs def p /\ read_instead def p v).

(** The list of a field is increasing and holds what its parts mean. *)
Definition field_reads (def : FieldDef) (ps : list CronPart) (l : list Z) : Prop :=
  StronglySorted Z.lt l /\ forall v, v ∈ l <-> exists p, p ∈ ps /\ part_means def p v.

Lemma walks_counts def a b n w :
  in_field def a -> in_field def b -> a <= b -> 1 <= n ->
  walks_to def a b n w <-> counts_to a b n w.
Proof.
  intros Ha Hb Hab Hn. rewrite <- elem_of_up, elem_of_for_range by done. unfold counts_to. split.
  - intros [Hw [k Hk]]. exists k. nia.
  - intros (k & Hk & -> & Hle). split; [nia|]. exists k. lia.
Qed.

(** Round the cycle of all the numbers the field accepts. *)
Lemma walks_round def a b n w :
  in_field def a -> in_field def b -> 1 <= n ->
  let size := fd_max def - fd_min def + 1 in
  walks_to def a b n w <->
  exists k, 0 <= k /\ k * n <= (b - a) mod size /\ w = fd_min def + (a - fd_min def + k * n) mod size.
Proof.
  intros Ha Hb Hn size. unfold walks_to, distance. fold size.
  assert (0 < size) as Hsize by (unfold size, in_field in *; lia).
  pose proof (Z.mod_pos_bound (b - a) size Hsize). split.
  - intros (Hw & Hle & [k Hk]). exists k. rewrite <- Hk.
    pose proof (Z.mod_pos_bound (w - a) size Hsize). split_and!; [nia|lia|].
    rewrite Zplus_mod_idemp_r. replace (a - fd_min def + (w - a)) with (w - fd_min def) by lia.
    rewrite Z.mod_small; unfold size, in_field in *; lia.
  - intros (k & Hk & Hle & ->). set (x := a - fd_min def + k * n).
    assert ((fd_min def + x mod size - a) mod size = k * n) as Hd.
    { replace (fd_min def + x mod size - a) with (x mod size + (fd_min def - a)) by lia.
      rewrite Zplus_mod_idemp_l. replace (x + (fd_min def - a)) with (k * n) by (unfold x; lia).
      apply Z.mod_small. nia. }
    rewrite Hd. pose proof (Z.mod_pos_bound x size Hsize).
    split_and!; [unfold in_field, size in *; lia|done|by exists k].
Qed.

Lemma walks_wrapped def a b n w :
  in_field def a -> in_field def b -> b < a -> 1 <= n ->
  walks_to def a b n w <->
  exists k, 0 <= k /\ (w = a + k * n /\ w <= fd_max def \/
    w = a + k * n - (fd_max def - fd_min def + 1) /\ fd_min def <= w <= b).
Proof.
  intros Ha Hb Hba Hn. unfold walks_to. rewrite (distance_wrap def a b) by done. split.
  - intros (Hw & Hle & [k Hk]). exists k. destruct (Z.le_gt_cases a w).
    + rewrite distance_up in Hk by done. unfold in_field in *. nia.
    + rewrite distance_wrap in Hk by done. unfold in_field in *.
      split; [nia|]. right. rewrite distance_wrap in Hle by done. lia.
  - intros (k & Hk & Hw). assert (in_field def w) as Hin by (unfold in_field in *; nia).
    split; [done|]. destruct Hw as [[-> ?]|[-> ?]].
    + rewrite distance_up by (done || nia). unfold in_field in *. split; [lia|]. exists k. lia.
    + rewrite distance_wrap by (done || (unfold in_field in *; lia)).
      split; [lia|]. exists k. lia.
Qed.

(** The weekdays round from [a] to [b], one by one. *)
Lemma weekdays_round def a b v :
  fd_min def = 0 -> fd_max def = 7 -> in_field def a -> in_field def b -> b < a ->
  (exists w, walks_to def a b 1 w /\ v = normalize def w) <->
  exists k, 0 <= k /\ k * 1 <= (b - a) mod 7 /\ v = fd_min def + (a - fd_min def + k * 1) mod 7.
Proof.
  intros Hmin Hmax Ha Hb Hba. setoid_rewrite walks_wrapped; [|done..|lia].
  unfold in_field, normalize in *. rewrite Hmin, Hmax in *. cbn [Z.eqb Pos.eqb andb].
  assert ((b - a) mod 7 = b - a + 7) as -> by (symmetry; apply (Z.mod_unique _ _ (-1)); lia).
  split.
  - intros (w & (k & Hk & Hw) & ->). destruct (Z.eqb_spec w 7) as [->|].
    + exists (7 - a). split_and!; [lia..|]. replace (a - 0 + (7 - a) * 1) with 7 by lia. done.
    + destruct Hw as [[-> ?]|[-> ?]].
      * exists k. split_and!; [lia..|]. symmetry. rewrite Z.mod_small; lia.
      * exists (k - 1). split_and!; [lia..|].
        rewrite <- (Z.mod_unique (a - 0 + (k - 1) * 1) 7 1 (a + k - 8)); lia.
  - intros (k & Hk & Hle & ->). destruct (Z.lt_ge_cases (a + k) 7).
    + exists (a + k). split; [exists k; lia|]. rewrite Z.mod_small by lia.
      destruct (Z.eqb_spec (a + k) 7); lia.
    + exists (a + k - 7). split; [exists (k + 1); lia|].
      rewrite <- (Z.mod_unique (a - 0 + k * 1) 7 1 (a + k - 7)) by lia.
      destruct (Z.eqb_spec (a + k - 7) 7); lia.
Qed.
(** Across the field's full range: 7 adds no day. *)
Lemma star_means def n v :
  (fd_max def = 7 -> fd_min def = 0) -> in_field def (fd_min def) -> in_field def (fd_max def) -> 1 <= n ->
  (exists w, walks_to def (fd_min def) (fd_max def) n w /\ v = normalize def w) <->
  counts_to (fd_min def) (fd_min def + period def - 1) n v.
Proof.
  intros Hweek Hmin Hmax Hn. assert (fd_min def <= fd_max def) by apply Hmin.
  setoid_rewrite walks_counts; [|done..].
  unfold counts_to, period, normalize. destruct (Z.eqb_spec (fd_max def) 7) as [H7|H7]; cbn [andb].
  - rewrite (Hweek H7), H7. split.
    + intros (w & (k & Hk & -> & Hle) & ->). destruct (Z.eqb_spec (0 + k * n) 7); [exists 0|exists k]; lia.
    + intros (k & Hk & -> & Hle). exists (0 + k * n). split; [exists k; lia|].
      destruct (Z.eqb_spec (0 + k * n) 7); lia.
  - split; [intros (w & (k & ?) & ->); exists k; lia|]. intros (k & ?). exists v. split; [exists k; lia|done].
Qed.

Lemma value_means def a n v :
  in_field def a -> 1 <= n ->
  (exists w, walks_to def a a n w /\ v = normalize def w) <-> v = normalize def a.
Proof.
  intros Ha Hn. setoid_rewrite walks_counts; [|done..|lia]. unfold counts_to. split.
  - intros (w & (k & Hk & -> & Hle) & ->). f_equal. nia.
  - intros ->. exists a. split; [exists 0; lia|done].
Qed.

(** A step that leaves the field at once has the value alone. *)
Lemma value_step_out def a n v :
  in_field def a -> 1 <= n -> fd_max def < a + n ->
  (exists w, counts_to a (fd_max def) n w /\ v = normalize def w) <-> v = normalize def a.
Proof.
  intros Ha Hn Hout. unfold counts_to, in_field in *. split.
  - intros (w & (k & Hk & -> & Hle) & ->). assert (k = 0) as -> by nia. by rewrite Z.mul_0_l, Z.add_0_r.
  - intros ->. exists a. split; [exists 0|done]. lia.
Qed.

(** The values the loops of one part produce are those it means. *)
Lemma denoted_means def p v :
  def ∈ FIELDS -> valid_part def p ->
  (exists w, denotes def p w /\ v = normalize def w) <-> part_means def p v.
Proof.
  intros Hdef Hvalid. assert (fd_max def = 7 -> fd_min def = 0) as Hweek.
  { unfold FIELDS in Hdef. repeat (apply elem_of_cons in Hdef as [->|Hdef]; [done|]).
    by apply elem_of_nil in Hdef. }
  unfold part_means, denotes, valid_part, departs, read_instead, grammar in *.
  destruct (range p) as [|a|a b]; cbn [range_bounds] in *; destruct Hvalid as (Ha & Hb & Hn).
  - rewrite (star_means def (step_of p) v) by done. destruct (every p); tauto.
  - rewrite (value_means def (Z.of_N a) (step_of p) v) by done.
    unfold step_of in *. destruct (every p) as [n|]; [|tauto].
    destruct (decide (Z.of_N a + Z.of_N n <= fd_max def)); [tauto|].
    rewrite (value_step_out def (Z.of_N a) (Z.of_N n) v) by (done || lia). tauto.
  - destruct (N.leb_spec a b) as [Hab|Hab].
    + setoid_rewrite walks_counts; [|done || lia..]. destruct (every p); [|tauto].
      split; [intros; left; split; [lia|done]|intros [[_ ?]|[? _]]; [done|lia]].
    + unfold period. destruct (Z.eqb_spec (fd_max def) 7) as [H7|H7].
      * specialize (Hweek H7). destruct (decide (step_of p = 1)) as [H1|H1].
        -- rewrite H1, (weekdays_round def (Z.of_N a) (Z.of_N b) v) by (done || lia).
           unfold step_of in H1. destruct (every p) as [n|]; [|tauto].
           split; [intros; left; split; [lia|done]|intros [[_ ?]|[? _]]; [done|lia]].
        -- setoid_rewrite walks_wrapped; [|done || lia..]. rewrite Hweek, H7.
           change (7 - 0 + 1) with 8. unfold step_of in *. destruct (every p) as [n|]; [|done].
           split; [intros (w & (k & Hw) & ->); right; split; [lia|]; exists w, k; tauto|].
           intros [[[] _]|(_ & w & k & Hw)]; [lia|]. exists w. split; [exists k|]; tauto.
      * setoid_rewrite walks_round; [|done || lia..]. cbv zeta.
        assert (forall w, normalize def w = w) as Hnorm
          by (intros; unfold normalize; by destruct (Z.eqb_spec (fd_max def) 7)).
        setoid_rewrite Hnorm. destruct (every p); naive_solver.
Qed.

Lemma fields_read fs ls :
  valid_fields fs -> Forall3 field_means FIELDS fs ls -> Forall3 field_reads FIELDS fs ls.
Proof.
  unfold valid_fields. assert (forall def, def ∈ FIELDS -> def ∈ FIELDS) as Hsub by done. revert Hsub.
  generalize FIELDS at 1 3 4 5. intros defs Hsub Hv Hm. revert Hv.
  induction Hm as [|def ps l defs fs ls [Hsorted Hl] Hm IH]; [constructor|].
  intros [Hps Hv]%Forall2_cons. constructor; [|apply IH; [|done]; intros; apply Hsub; by right].
  split; [done|]. intros v. rewrite Hl. split.
  - intros (p & w & Hp & Hd & ->). exists p. split; [done|].
    apply denoted_means; [apply Hsub; by left| |by eauto]. by eapply Forall_forall in Hps.
  - intros (p & Hp & Hd). apply denoted_means in Hd as (w & ? & ->); [by eauto|apply Hsub; by left|].
    by eapply Forall_forall in Hps.
Qed.

(** C22: A cron expression means what the module comment's grammar says, two
    forms apart.  For every expression written with the grammar (five fields,
    each a comma-separated list of [*], values and ranges with optional steps),
    the parser accepts it exactly when every bound lies in its field and every
    step is positive, and then each field of the schedule is the strictly
    increasing list of the values its parts mean: what [grammar] says, except
    that a value with a step, [A/M], is read as the value alone and that a
    stepped range of weekdays that wraps counts its step through 0 to 7, Sunday
    twice ([departs], [read_instead]). *)
Theorem cron_parse_printed fs :
  length fs = 5%nat -> Forall (fun ps => ps <> []) fs ->
  match parseCronExpression (print_cron fs) with
  | Ok s => valid_fields fs /\ Forall3 field_reads FIELDS fs (schedule_fields s)
  | Throw _ => ~ valid_fields fs
  end.
Proof.
  intros Hlen Hne.
  assert (Forall word (map print_field fs)) as Hw.
  { apply Forall_map. eapply Forall_impl; [exact Hne|]. intros ps. apply word_field. }
  assert (trim (print_cron fs) = print_cron fs) as Ht by (by apply trim_join).
  assert (split_runs is_js_space (print_cron fs) = map print_field fs) as Hsp.
  { apply split_runs_join; [by destruct fs|done]. }
  unfold parseCronExpression. rewrite Ht, Hsp. destruct fs as [|ps fs]; [done|].
  rewrite no_macro by (by inv Hne). rewrite length_map, Hlen. cbn [negb Nat.eqb].
  pose proof (parse_fields_print FIELDS (ps :: fs) Hlen Hne) as Hp.
  destruct (parse_fields (map print_field (ps :: fs)) FIELDS) as [ls|e] eqn:Hls; simpl; [|done].
  apply length_parse_fields in Hls. rewrite length_map, Hlen in Hls.
  destruct ls as [|? [|? [|? [|? [|? []]]]]]; try done. destruct Hp. split; [done|].
  by apply fields_read.
Qed.

(** The part [every 5 minutes from 50 round to 10] and its companions. *)
Lemma cron_parse_printed_witness :
  let fs := [[mkCronPart (Range 50 10) (Some 5%N)]; [mkCronPart Star None];
             [mkCronPart (Value 1) None; mkCronPart (Value 15) None]; [mkCronPart Star (Some 3%N)];
             [mkCronPart (Range 5 7) None]] in
  print_cron fs = "50-10/5 * 1,15 */3 5-7" /\
  valid_fields fs /\
  exists s, parseCronExpression "50-10/5 * 1,15 */3 5-7" = Ok s /\
    Forall3 field_reads FIELDS fs (schedule_fields s) /\
    minute s = [0; 5; 10; 50; 55] /\ dayOfWeek s = [0; 5; 6].
Proof.
  intros fs. assert (print_cron fs = "50-10/5 * 1,15 */3 5-7") as Hpr by reflexivity.
  assert (Forall (fun ps : list CronPart => ps <> []) fs) as Hne by (by repeat constructor).
  pose proof (cron_parse_printed fs eq_refl Hne) as H.
  rewrite Hpr in H.
  assert (exists s, parseCronExpression "50-10/5 * 1,15 */3 5-7" = Ok s /\
    minute s = [0; 5; 10; 50; 55] /\ dayOfWeek s = [0; 5; 6]) as (s & Hs & Hm & Hd).
  { eexists. vm_compute. done. }
  rewrite Hs in H. destruct H as [Hv Hf]. split; [exact Hpr|]. split; [exact Hv|].
  exists s. by split_and!.
Defined.

(** The fields of a schedule the scheduler can rely on. *)
Definition wf_schedule (s : CronSchedule) : Prop :=
  Forall2 (fun def l => l <> [] /\ StronglySorted Z.lt l /\ Forall (in_field def) l)
    [ mkFieldDef "minute" 0 59; mkFieldDef "hour" 0 23; mkFieldDef "day-of-month" 1 31;
      mkFieldDef "month" 1 12; mkFieldDef "day-of-week" 0 6 ] (schedule_fields s).

Lemma parse_fields_wf fields defs ls :
  parse_fields fields defs = Ok ls -> length fields = length defs ->
  Forall2 (fun def l => l <> [] /\ StronglySorted Z.lt l /\
    Forall (fun v => exists w, in_field def w /\ v = normalize def w) l) defs ls.
Proof.
  revert defs ls. induction fields as [|f fields IH]; intros [|def defs] ls; simpl; try done.
  - by intros [= <-] _.
  - destruct (parseField f def) as [l|e] eqn:Hf; simpl; [|done].
    destruct (parse_fields fields defs) as [ls'|e] eqn:Hls; simpl; [|done].
    intros [= <-] [= Hlen]. constructor; [by eapply parseField_wf | by apply IH].
Qed.

Lemma parsed_wf expr s :
  parseCronExpression expr = Ok s ->
  wf_schedule s /\ length (split_runs is_js_space (trim expr)) = 5%nat.
Proof.
  unfold parseCronExpression. destruct (starts_with "@" (trim expr)); [done|].
  destruct (Nat.eqb_spec (length (split_runs is_js_space (trim expr))) 5) as [Hlen|]; [|done].
  simpl. destruct (parse_fields _ FIELDS) as [ls|e] eqn:Hls; simpl; [|done].
  apply parse_fields_wf in Hls; [|done].
  destruct ls as [|l1 [|l2 [|l3 [|l4 [|l5 []]]]]]; try done. intros [= <-].
  split; [|done]. unfold wf_schedule, schedule_fields. simpl.
  assert (forall d d' (l : list Z), (forall w, in_field d w -> in_field d' (normalize d w)) ->
    l <> [] /\ StronglySorted Z.lt l /\
      Forall (fun v => exists w, in_field d w /\ v = normalize d w) l ->
    l <> [] /\ StronglySorted Z.lt l /\ Forall (in_field d') l) as Hmono.
  { intros d d' l Hd (? & ? & Hl). split_and!; [done..|].
    eapply Forall_impl; [exact Hl|]. intros v (w & Hw & ->). auto. }
  unfold FIELDS in Hls. repeat (apply Forall2_cons in Hls as [? Hls]).
  repeat (apply Forall2_cons; split); [eapply Hmono; [|eassumption].. | constructor];
    intros w Hw; unfold normalize, in_field in *; simpl in *; try lia.
  case_match; bools; lia.
Qed.

(** C25: Whatever the text, a schedule the parser accepts is well formed: each
    field is a non-empty, strictly increasing list of values of its range, with
    day-of-week between 0 and 6; and the text had exactly five fields. *)
Theorem cron_parse_wf expr s :
  parseCronExpression expr = Ok s ->
  wf_schedule s /\ length (split_runs is_js_space (trim expr)) = 5%nat.
Proof. apply parsed_wf. Qed.

Lemma cron_parse_wf_witness :
  parseCronExpression "0 9 * * 1-5" =
    Ok (mkCronSchedule [0] [9] (for_range 1 31 1) (for_range 1 12 1) [1;2;3;4;5]) /\
  wf_schedule (mkCronSchedule [0] [9] (for_range 1 31 1) (for_range 1 12 1) [1;2;3;4;5]).
Proof.
  assert (parseCronExpression "0 9 * * 1-5" =
    Ok (mkCronSchedule [0] [9] (for_range 1 31 1) (for_range 1 12 1) [1;2;3;4;5])) as Hp
    by (vm_compute; reflexivity).
  split; [exact Hp|]. exact (proj1 (cron_parse_wf _ _ Hp)).
Defined.

(** The module comment gives [A/M] every M-th value from A to the range's end;
    the code reads it as the single value A. *)
Example step_without_range :
  parseField "5/10" (mkFieldDef "minute" 0 59) = Ok [5].
Proof. reflexivity. Qed.

(** A wrap-around day-of-week range counts Sunday twice, as 7 and as 0: every
    other day from Friday to Monday is Friday, Sunday and Monday. *)
Example wrapped_weekdays :
  parseField "5-1/2" (mkFieldDef "day-of-week" 0 7) = Ok [0; 1; 5] /\
  distance (mkFieldDef "day-of-week" 0 7) 5 1 = 4.
Proof. split; reflexivity. Qed.

(** ** The next fire time *)

Definition local_day (l : Z) : Z := l / ms_per_day.
Definition local_hour (l : Z) : Z := (l mod ms_per_day) / ms_per_hour.
Definition local_minute (l : Z) : Z := (l mod ms_per_hour) / ms_per_minute.

(** A local time, in milliseconds, at which the schedule fires. *)
Definition fires_at (s : CronSchedule) (l : Z) : Prop :=
  let '(_, m0, d) := date_fields (local_day l) in
  day_matches s m0 d (week_day (local_day l)) = true /\
  local_hour l ∈ hour s /\ local_minute l ∈ minute s.

(** What the two formatters of one zone promise: when they format an instant,
    they show the local time, which is [off] ahead of UTC. *)
Class LawfulZone (wall : WallFormat) (offset : OffsetFormat) (off : Z -> Z) : Prop := {
  wall_law t parts y m0 d :
    wall t = Ok parts -> date_fields (local_day (t + off t)) = (y, m0, d) ->
    partOf parts "year" = Ok y /\ partOf parts "month" = Ok (m0 + 1) /\
    partOf parts "day" = Ok d /\ partOf parts "hour" = Ok (local_hour (t + off t)) /\
    partOf parts "minute" = Ok (local_minute (t + off t));
  offset_law t o : offsetMs offset t = Ok o -> o = off t
}.

(** The instant of a clock time of day [n], [o] ahead of UTC. *)
Definition clock (o n hh mm : Z) : Z :=
  n * ms_per_day + hh * ms_per_hour + mm * ms_per_minute - o.

Lemma local_clock n hh mm r :
  0 <= hh <= 23 -> 0 <= mm <= 59 -> 0 <= r < 60000 ->
  let l := n * ms_per_day + hh * ms_per_hour + mm * ms_per_minute + r in
  local_day l = n /\ local_hour l = hh /\ local_minute l = mm.
Proof.
  intros Hh Hm Hr l. unfold l, local_day, local_hour, local_minute, ms_per_day, ms_per_hour, ms_per_minute.
  split_and!.
  - symmetry. apply (Z.div_unique _ _ _ (hh * 3600000 + mm * 60000 + r)); lia.
  - assert ((n * 86400000 + hh * 3600000 + mm * 60000 + r) mod 86400000 =
            hh * 3600000 + mm * 60000 + r) as ->
      by (symmetry; apply (Z.mod_unique _ _ n); lia).
    symmetry. apply (Z.div_unique _ _ _ (mm * 60000 + r)); lia.
  - assert ((n * 86400000 + hh * 3600000 + mm * 60000 + r) mod 3600000 = mm * 60000 + r) as ->
      by (symmetry; apply (Z.mod_unique _ _ (n * 24 + hh)); lia).
    symmetry. apply (Z.div_unique _ _ _ r); lia.
Qed.

Lemma local_ranges l : 0 <= local_hour l <= 23 /\ 0 <= local_minute l <= 59.
Proof.
  unfold local_hour, local_minute, ms_per_day, ms_per_hour, ms_per_minute.
  Z.to_euclidean_division_equations. lia.
Qed.

Lemma local_split l :
  l = local_day l * ms_per_day + local_hour l * ms_per_hour + local_minute l * ms_per_minute
      + l mod ms_per_minute.
Proof.
  unfold local_day, local_hour, local_minute, ms_per_day, ms_per_hour, ms_per_minute.
  pose proof (Z.div_mod l 86400000 ltac:(done)).
  pose proof (Z.div_mod (l mod 86400000) 3600000 ltac:(done)) as H2.
  pose proof (Z.div_mod (l mod 3600000) 60000 ltac:(done)) as H3.
  rewrite (Z.mod_mod_divide l 86400000 3600000) in H2 by (by exists 24).
  rewrite (Z.mod_mod_divide l 3600000 60000) in H3 by (by exists 60). lia.
Qed.

(** The next calendar day is the day with the next number. *)
Lemma next_day n y m0 d :
  date_fields n = (y, m0, d) -> day_from_year 100 <= n ->
  day_of_ms (Date_UTC y m0 (d + 1) 0 0) = n + 1.
Proof.
  intros Hf Hn. rewrite Date_UTC_late by (by eapply date_fields_late).
  rewrite day_of_midnight, make_day_add. by destruct (date_fields_spec _ _ _ _ Hf) as [_ ->].
Qed.

Lemma start_weekday n y m0 d :
  date_fields n = (y, m0, d) -> day_from_year 100 <= n ->
  getUTCDay (Date_UTC y m0 d 0 0) = week_day n.
Proof.
  intros Hf Hn. unfold getUTCDay. rewrite Date_UTC_late by (by eapply date_fields_late).
  rewrite day_of_midnight. by destruct (date_fields_spec _ _ _ _ Hf) as [_ ->].
Qed.

Section zone.
Context (wall : WallFormat) (offset : OffsetFormat) (off : Z -> Z).
Context `{HZ : !LawfulZone wall offset off}.

Lemma part_is_Ok parts type v x :
  partOf parts type = Ok x -> part_is parts type v = Ok (x =? v).
Proof. unfold part_is. by intros ->. Qed.

(** [wallEquals] compares with the local time. *)
Lemma wallEquals_spec t y m0 d h mi b :
  wallEquals wall t y m0 d h mi = Ok b ->
  b = true <-> date_fields (local_day (t + off t)) = (y, m0, d) /\
               local_hour (t + off t) = h /\ local_minute (t + off t) = mi.
Proof using HZ.
  unfold wallEquals. destruct (wall t) as [parts|e] eqn:Hw; simpl; [|done].
  destruct (date_fields (local_day (t + off t))) as [[y' m0'] d'] eqn:Hf.
  destruct (wall_law t parts y' m0' d' Hw Hf) as (Hy & Hmo & Hd & Hh & Hm).
  rewrite (part_is_Ok _ _ _ _ Hy), Hmo, (part_is_Ok _ _ _ _ Hd), (part_is_Ok _ _ _ _ Hh),
    (part_is_Ok _ _ _ _ Hm). simpl. replace (m0' + 1 - 1) with m0' by lia.
  unfold and_then.
  destruct (Z.eqb_spec y' y); simpl; [|intros [= <-]; naive_solver].
  destruct (Z.eqb_spec m0' m0); simpl; [|intros [= <-]; naive_solver].
  destruct (Z.eqb_spec d' d); simpl; [|intros [= <-]; naive_solver].
  destruct (Z.eqb_spec (local_hour (t + off t)) h); simpl; [|intros [= <-]; naive_solver].
  destruct (Z.eqb_spec (local_minute (t + off t)) mi); intros [= <-]; naive_solver.
Qed.

Lemma wallToEpoch_sound y m0 d h mi t :
  wallToEpoch wall offset y m0 d h mi = Ok (Some t) ->
  date_fields (local_day (t + off t)) = (y, m0, d) /\
  local_hour (t + off t) = h /\ local_minute (t + off t) = mi.
Proof using HZ.
  unfold wallToEpoch. set (guess := Date_UTC y m0 d h mi).
  destruct (offsetMs offset guess) as [o|e]; simpl; [|done].
  destruct (wallEquals wall (guess - o) y m0 d h mi) as [b|e] eqn:Hw; simpl; [|done].
  apply wallEquals_spec in Hw. destruct b; [intros [= <-]; by apply Hw|].
  destruct (offsetMs offset (guess - o)) as [o'|e]; simpl; [|done].
  destruct (wallEquals wall (guess - o') y m0 d h mi) as [b|e] eqn:Hw'; simpl; [|done].
  apply wallEquals_spec in Hw'. destruct b; [intros [= <-]; by apply Hw'|done].
Qed.

Section sound.
Context (s : CronSchedule) (after ah am : Z).

Lemma try_minutes_sound day0 y m0 d hh ms t :
  try_minutes after wall offset ah am day0 y m0 d hh ms = Ok (Some t) ->
  after < t /\ exists mm, mm ∈ ms /\ date_fields (local_day (t + off t)) = (y, m0, d) /\
    local_hour (t + off t) = hh /\ local_minute (t + off t) = mm.
Proof using HZ.
  induction ms as [|mm ms IH]; cbn [try_minutes]; [done|].
  setoid_rewrite elem_of_cons. case_match; [naive_solver|].
  destruct (wallToEpoch wall offset y m0 d hh mm) as [[c|]|e] eqn:Hw; simpl; [|naive_solver|done].
  apply wallToEpoch_sound in Hw.
  destruct (Z.ltb_spec after c); [|naive_solver]. intros [= <-]. naive_solver.
Qed.

Lemma try_hours_sound day0 y m0 d hs t :
  try_hours s after wall offset ah am day0 y m0 d hs = Ok (Some t) ->
  after < t /\ exists hh mm, hh ∈ hs /\ mm ∈ minute s /\
    date_fields (local_day (t + off t)) = (y, m0, d) /\
    local_hour (t + off t) = hh /\ local_minute (t + off t) = mm.
Proof using HZ.
  induction hs as [|hh hs IH]; cbn [try_hours]; [done|]. setoid_rewrite elem_of_cons.
  destruct (try_minutes _ _ _ _ _ _ _ _ _ _ _) as [[c|]|e] eqn:Hm; simpl; [|naive_solver|done].
  intros [= <-]. apply try_minutes_sound in Hm. naive_solver.
Qed.

Lemma scan_days_sound days day0 n y m0 d t :
  date_fields n = (y, m0, d) -> day_from_year 100 <= n ->
  scan_days s after wall offset ah am days day0 y m0 d (week_day n) = Ok t ->
  after < t /\ fires_at s (t + off t).
Proof using HZ.
  revert day0 n y m0 d. induction days as [|days IH]; intros day0 n y m0 d Hf Hn; cbn [scan_days]; [done|].
  rewrite (next_day n) by done. rewrite <- week_day_succ.
  destruct (date_fields (n + 1)) as [[y' m0'] d'] eqn:Hf'.
  destruct (day_matches s m0 d (week_day n)) eqn:Hd; simpl.
  - destruct (try_hours _ _ _ _ _ _ _ _ _ _ _) as [[c|]|e] eqn:Hh; simpl; [| |done].
    + intros [= <-]. apply try_hours_sound in Hh as (Hlt & hh & mm & Hhh & Hmm & Hf2 & <- & <-).
      split; [done|]. unfold fires_at. rewrite Hf2. split_and!; try done.
      destruct (date_fields_spec _ _ _ _ Hf) as [_ <-].
      by destruct (date_fields_spec _ _ _ _ Hf2) as [_ <-] in Hd |- *.
    + apply (IH false (n + 1)); [done|lia].
  - apply (IH false (n + 1)); [done|lia].
Qed.
End sound.
End zone.

(** ** The least fire time, in a zone without transitions *)

(** A zone [o] ahead of UTC at every instant, whose formatters never throw. *)
Class FixedZone (wall : WallFormat) (offset : OffsetFormat) (o : Z) : Prop := {
  fixed_lawful :: LawfulZone wall offset (fun _ => o);
  fixed_wall t : is_ok (wall t) = true;
  fixed_offset t : offsetMs offset t = Ok o
}.

Section fixed.
Context (wall : WallFormat) (offset : OffsetFormat) (o : Z).
Context `{HF : !FixedZone wall offset o}.

Lemma wallEquals_fixed t y m0 d h mi :
  date_fields (local_day (t + o)) = (y, m0, d) ->
  local_hour (t + o) = h -> local_minute (t + o) = mi ->
  wallEquals wall t y m0 d h mi = Ok true.
Proof using HF.
  intros Hf Hh Hm. unfold wallEquals. pose proof (fixed_wall t) as Hw.
  destruct (wall t) as [parts|e] eqn:Hwt; [|done].
  destruct (wall_law t parts y m0 d Hwt Hf) as (Hy & Hmo & Hd & Hh' & Hm').
  unfold part_is. simpl. rewrite Hy, Hmo, Hd, Hh', Hm', Hh, Hm. simpl. rewrite Z.eqb_refl. simpl.
  replace (m0 + 1 - 1) with m0 by lia. by rewrite !Z.eqb_refl.
Qed.

(** Every clock time exists, once. *)
Lemma wallToEpoch_fixed n y m0 d hh mm :
  date_fields n = (y, m0, d) -> day_from_year 100 <= n -> 0 <= hh <= 23 -> 0 <= mm <= 59 ->
  wallToEpoch wall offset y m0 d hh mm = Ok (Some (clock o n hh mm)).
Proof using HF.
  intros Hf Hn Hh Hm. unfold wallToEpoch. rewrite fixed_offset. simpl.
  rewrite Date_UTC_late by (by eapply date_fields_late).
  destruct (date_fields_spec _ _ _ _ Hf) as [_ ->].
  change (n * ms_per_day + hh * ms_per_hour + mm * ms_per_minute - o) with (clock o n hh mm).
  destruct (local_clock n hh mm 0) as (Hd & Hh' & Hm'); [done|done|lia|].
  assert (clock o n hh mm + o = n * ms_per_day + hh * ms_per_hour + mm * ms_per_minute + 0) as Heq
    by (unfold clock; lia).
  rewrite wallEquals_fixed; rewrite ?Heq; [done|by rewrite Hd|done|done].
Qed.

Section least.
Context (s : CronSchedule) (after : Z).
Context (Hhours : StronglySorted Z.lt (hour s)) (Hhr : Forall (fun h => 0 <= h <= 23) (hour s)).
Context (Hmins : StronglySorted Z.lt (minute s)) (Hmr : Forall (fun m => 0 <= m <= 59) (minute s)).

Let n0 := local_day (after + o).
Let ah := local_hour (after + o).
Let am := local_minute (after + o).

(** The times skipped on the first day are not after [after]; on a later day
    every time is after it. *)
Lemma skipped hh mm : 0 <= hh -> 0 <= mm <= 59 ->
  (hh <? ah) || ((hh =? ah) && (mm <=? am)) = true -> clock o n0 hh mm <= after.
Proof.
  intros Hh Hm Hs. pose proof (local_split (after + o)) as Hl. fold n0 ah am in Hl.
  pose proof (Z.mod_pos_bound (after + o) ms_per_minute eq_refl) as Hr.
  destruct (local_ranges (after + o)) as [Hah Ham]. fold ah in Hah. fold am in Ham.
  unfold clock, ms_per_day, ms_per_hour, ms_per_minute in *.
  apply orb_true_iff in Hs as [Hs|[Hs1 Hs2]%andb_true_iff]; bools; lia.
Qed.

(** [r] answers a search among clock times of the set [P]: the least one after
    [after], if there is one. *)
Definition answers (P : Z -> Prop) (r : option Z) : Prop :=
  match r with
  | Some t => P t /\ after < t /\ forall t', P t' -> after < t' -> t <= t'
  | None => forall t', P t' -> t' <= after
  end.

Lemma try_minutes_least n y m0 d hh ms :
  date_fields n = (y, m0, d) -> day_from_year 100 <= n -> 0 <= hh <= 23 ->
  StronglySorted Z.lt ms -> Forall (fun m => 0 <= m <= 59) ms ->
  exists r, try_minutes after wall offset ah am (bool_decide (n = n0)) y m0 d hh ms = Ok r /\
    answers (fun t => exists mm, mm ∈ ms /\ t = clock o n hh mm) r.
Proof using HF.
  intros Hf Hn Hh. induction ms as [|mm ms IH]; intros Hs Hr; cbn [try_minutes].
  - exists None. split; [done|]. intros t (mm & []%elem_of_nil & _).
  - apply StronglySorted_inv in Hs as [Hs Hlt]. apply Forall_cons in Hr as [Hm Hr].
    destruct (IH Hs Hr) as (r & Hrun & Hans).
    assert (clock o n hh mm <= after ->
      answers (fun t => exists mm', mm' ∈ mm :: ms /\ t = clock o n hh mm') r) as Hnext.
    { intros Hle. destruct r as [t|]; simpl in *.
      - destruct Hans as ((mm' & Hmm' & ->) & Hgt & Hmin).
        split_and!; [exists mm'; split; [by right|done]|done|].
        intros t' (m' & [->|Hm']%elem_of_cons & ->) Ht'; [lia|eauto].
      - intros t' (m' & [->|Hm']%elem_of_cons & ->); [lia|eauto]. }
    rewrite Hrun. case_match eqn:Hskip.
    + exists r. split; [done|]. apply Hnext. apply andb_true_iff in Hskip as [Hn0 Hskip].
      apply bool_decide_eq_true in Hn0. subst n. apply skipped; [lia|done|done].
    + rewrite (wallToEpoch_fixed n) by done. simpl. destruct (Z.ltb_spec after (clock o n hh mm)) as [Hgt|Hle].
      * eexists. split; [done|]. simpl. split_and!; [exists mm; split; [by left|done]|done|].
        intros t' (m' & [->|Hm']%elem_of_cons & ->) _; [done|].
        eapply Forall_forall in Hlt; [|exact Hm']. unfold clock, ms_per_minute. lia.
      * exists r. split; [done|]. by apply Hnext.
Qed.

Lemma try_hours_least n y m0 d hs :
  date_fields n = (y, m0, d) -> day_from_year 100 <= n ->
  StronglySorted Z.lt hs -> Forall (fun h => 0 <= h <= 23) hs ->
  exists r, try_hours s after wall offset ah am (bool_decide (n = n0)) y m0 d hs = Ok r /\
    answers (fun t => exists hh mm, hh ∈ hs /\ mm ∈ minute s /\ t = clock o n hh mm) r.
Proof using HF Hmins Hmr.
  intros Hf Hn. induction hs as [|hh hs IH]; intros Hs Hr; cbn [try_hours].
  - exists None. split; [done|]. intros t (hh & mm & []%elem_of_nil & _).
  - apply StronglySorted_inv in Hs as [Hs Hlt]. apply Forall_cons in Hr as [Hh Hr].
    destruct (try_minutes_least n y m0 d hh (minute s) Hf Hn Hh Hmins Hmr) as (r1 & -> & Ha1).
    simpl. destruct r1 as [t|]; simpl in Ha1.
    + destruct Ha1 as ((mm & Hmm & ->) & Hgt & Hmin). eexists. split; [done|]. simpl.
      split_and!; [exists hh, mm; split_and!; [by left|done|done]|done|].
      intros t' (h' & m' & [->|Hh']%elem_of_cons & Hm' & ->) Ht'; [by eauto|].
      eapply Forall_forall in Hlt; [|exact Hh'].
      pose proof (proj1 (Forall_forall _ _) Hmr mm Hmm) as Hr1.
      pose proof (proj1 (Forall_forall _ _) Hmr m' Hm') as Hr2. simpl in Hr1, Hr2.
      unfold clock, ms_per_hour, ms_per_minute. lia.
    + destruct (IH Hs Hr) as (r & -> & Ha). exists r. split; [done|].
      destruct r as [t|]; simpl in *.
      * destruct Ha as ((h' & m' & Hh' & Hm' & ->) & Hgt & Hmin).
        split_and!; [exists h', m'; split_and!; [by right|done|done]|done|].
        intros t' (h2 & m2 & [->|Hh2]%elem_of_cons & Hm2 & ->) Ht'; [|by eauto 6].
        assert (clock o n hh m2 <= after) by eauto. lia.
      * intros t' (h2 & m2 & [->|Hh2]%elem_of_cons & Hm2 & ->); eauto 6.
Qed.

(** The clock times of the matching days of a range of days. *)
Definition candidate (lo hi t : Z) : Prop :=
  exists n hh mm, lo <= n < hi /\ hh ∈ hour s /\ mm ∈ minute s /\ t = clock o n hh mm /\
    let '(_, m0, d) := date_fields n in day_matches s m0 d (week_day n) = true.

Lemma clock_day_lt n n' hh mm hh' mm' :
  n < n' -> hh ∈ hour s -> mm ∈ minute s -> hh' ∈ hour s -> mm' ∈ minute s ->
  clock o n hh mm < clock o n' hh' mm'.
Proof using Hhr Hmr.
  clear n0 ah am. intros Hlt H1 H2 H3 H4. rewrite Forall_forall in Hhr, Hmr.
  apply Hhr in H1, H3. apply Hmr in H2, H4.
  unfold clock, ms_per_day, ms_per_hour, ms_per_minute. lia.
Qed.

Lemma scan_days_least days n y m0 d :
  date_fields n = (y, m0, d) -> day_from_year 100 <= n -> n0 <= n ->
  match scan_days s after wall offset ah am days (bool_decide (n = n0)) y m0 d (week_day n) with
  | Ok t => answers (candidate n (n + Z.of_nat days)) (Some t)
  | Throw e => e = "cron expression never matches within the search window" /\
               answers (candidate n (n + Z.of_nat days)) None
  end.
Proof using All.
  revert n y m0 d. induction days as [|days IH]; intros n y m0 d Hf Hn Hn0; cbn [scan_days].
  - split; [done|]. intros t (n' & _ & _ & Hr & _). lia.
  - rewrite (next_day n) by done. rewrite <- week_day_succ.
    destruct (date_fields (n + 1)) as [[y' m0'] d'] eqn:Hf'.
    specialize (IH (n + 1) y' m0' d' Hf'). rewrite bool_decide_eq_false_2 in IH by lia.
    specialize (IH ltac:(lia) ltac:(lia)).
    assert ((forall t, candidate n (n + 1) t -> t <= after) ->
      match scan_days s after wall offset ah am days false y' m0' d' (week_day (n + 1)) with
      | Ok t => answers (candidate n (n + Z.of_nat (S days))) (Some t)
      | Throw e => e = "cron expression never matches within the search window" /\
                   answers (candidate n (n + Z.of_nat (S days))) None
      end) as Hnext.
    { intros Hnone.
      assert (forall t, candidate n (n + Z.of_nat (S days)) t ->
                candidate n (n + 1) t \/ candidate (n + 1) (n + 1 + Z.of_nat days) t) as Hsplit.
      { intros t (n' & hh & mm & Hr & Hrest). destruct (decide (n' = n)) as [->|].
        - left. exists n, hh, mm. split; [lia|done].
        - right. exists n', hh, mm. split; [lia|done]. }
      destruct (scan_days _ _ _ _ _ _ _ _ _ _ _ _) as [t|e]; simpl in *.
      - destruct IH as ((n' & hh & mm & Hr & Hrest) & Hgt & Hmin).
        split_and!; [exists n', hh, mm; split; [lia|done]|done|].
        intros t' [Hc|Hc]%Hsplit Ht'; [apply Hnone in Hc; lia|eauto].
      - destruct IH as [-> Hall]. split; [done|]. intros t' [Hc|Hc]%Hsplit; eauto. }
    destruct (day_matches s m0 d (week_day n)) eqn:Hd; simpl.
    + destruct (try_hours_least n y m0 d (hour s) Hf Hn Hhours Hhr) as (r & -> & Ha). simpl.
      destruct r as [t|]; simpl in Ha.
      * destruct Ha as ((hh & mm & Hhh & Hmm & ->) & Hgt & Hmin). simpl.
        split_and!; [exists n, hh, mm; rewrite Hf; split_and!; done || lia|done|].
        intros t' (n' & h' & m' & Hr & Hh' & Hm' & -> & _) Ht'.
        destruct (decide (n' = n)) as [->|]; [by apply Hmin; eauto|].
        apply Z.lt_le_incl, clock_day_lt; done || lia.
      * apply Hnext. intros t (n' & hh & mm & Hr & Hh & Hm & -> & _).
        assert (n' = n) as -> by lia. apply Ha. by exists hh, mm.
    + apply Hnext. intros t (n' & hh & mm & Hr & Hh & Hm & -> & Hday).
      assert (n' = n) as -> by lia. rewrite Hf in Hday. congruence.
Qed.
End least.
End fixed.

(** Whatever the formatters do, an answer is later than the question. *)
Lemma try_minutes_later after wall offset ah am day0 y m0 d hh ms t :
  try_minutes after wall offset ah am day0 y m0 d hh ms = Ok (Some t) -> after < t.
Proof.
  induction ms as [|mm ms IH]; cbn [try_minutes]; [done|]. case_match; [done|].
  destruct (wallToEpoch wall offset y m0 d hh mm) as [[c|]|e]; simpl; [|done|done].
  destruct (Z.ltb_spec after c); [by intros [= <-]|done].
Qed.

Lemma try_hours_later s after wall offset ah am day0 y m0 d hs t :
  try_hours s after wall offset ah am day0 y m0 d hs = Ok (Some t) -> after < t.
Proof.
  induction hs as [|hh hs IH]; cbn [try_hours]; [done|].
  destruct (try_minutes _ _ _ _ _ _ _ _ _ _ _) as [[c|]|e] eqn:Hm; simpl; [|done|done].
  intros [= <-]. by eapply try_minutes_later.
Qed.

Lemma scan_days_later s after wall offset ah am days day0 y m0 d wd t :
  scan_days s after wall offset ah am days day0 y m0 d wd = Ok t -> after < t.
Proof.
  revert day0 y m0 d wd. induction days as [|days IH]; intros day0 y m0 d wd; cbn [scan_days]; [done|].
  destruct (date_fields _) as [[y' m0'] d']. destruct (day_matches s m0 d wd); cbn [result_bind]; [|apply IH].
  destruct (try_hours _ _ _ _ _ _ _ _ _ _ _) as [[c|]|e] eqn:Hh; cbn [result_bind]; [|apply IH|done].
  intros [= <-]. by eapply try_hours_later.
Qed.

Lemma nextRunAfter_later DateTimeFormat s after tz t :
  nextRunAfter DateTimeFormat s after tz = Ok t -> after < t.
Proof.
  unfold nextRunAfter. destruct (DateTimeFormat tz) as [[wall offset]|]; [|done].
  destruct (wall after); cbn [result_bind]; [|done].
  do 5 (destruct (partOf _ _); cbn [result_bind]; [|done]). apply scan_days_later.
Qed.

Lemma fires_at_candidate o s n0 t :
  fires_at s (t + o) -> (t + o) mod ms_per_minute = 0 -> n0 <= local_day (t + o) ->
  forall k, local_day (t + o) < n0 + k -> candidate o s n0 (n0 + k) t.
Proof.
  intros Hf Ha Hn k Hk. unfold fires_at in Hf.
  destruct (date_fields (local_day (t + o))) as [[y m0] d] eqn:Hd.
  destruct Hf as (Hday & Hh & Hm). exists (local_day (t + o)), (local_hour (t + o)), (local_minute (t + o)).
  rewrite Hd. split_and!; try done. unfold clock. pose proof (local_split (t + o)). lia.
Qed.

Lemma candidate_fires_at o s lo hi t :
  Forall (fun h => 0 <= h <= 23) (hour s) -> Forall (fun m => 0 <= m <= 59) (minute s) ->
  candidate o s lo hi t ->
  fires_at s (t + o) /\ (t + o) mod ms_per_minute = 0 /\ local_day (t + o) < hi.
Proof.
  intros Hhr Hmr (n & hh & mm & Hn & Hh & Hm & -> & Hd).
  pose proof (proj1 (Forall_forall _ _) Hhr hh Hh) as Hhh.
  pose proof (proj1 (Forall_forall _ _) Hmr mm Hm) as Hmm. simpl in Hhh, Hmm.
  destruct (local_clock n hh mm 0) as (H1 & H2 & H3); [lia..|].
  replace (clock o n hh mm + o) with (n * ms_per_day + hh * ms_per_hour + mm * ms_per_minute + 0)
    by (unfold clock; lia).
  unfold fires_at. rewrite H1, H2, H3. destruct (date_fields n) as [[y m0] d].
  split_and!; try done; [|lia].
  replace (n * ms_per_day + hh * ms_per_hour + mm * ms_per_minute + 0)
    with ((n * 1440 + hh * 60 + mm) * ms_per_minute)
    by (unfold ms_per_day, ms_per_hour, ms_per_minute; lia).
  by apply Z.mod_mul.
Qed.

Lemma local_day_mono l l' : l <= l' -> local_day l <= local_day l'.
Proof. intros. apply Z.div_le_mono; [done|lia]. Qed.

(** What a call of [nextRunAfter] computes before its search. *)
Lemma nextRunAfter_scan DateTimeFormat s after tz wall offset off parts y m0 d :
  DateTimeFormat tz = Some (wall, offset) -> LawfulZone wall offset off ->
  wall after = Ok parts ->
  date_fields (local_day (after + off after)) = (y, m0, d) ->
  day_from_year 100 <= local_day (after + off after) ->
  nextRunAfter DateTimeFormat s after tz =
    scan_days s after wall offset (local_hour (after + off after)) (local_minute (after + off after))
      MAX_DAYS true y m0 d (week_day (local_day (after + off after))).
Proof.
  intros Hz HL Hw Hf Hn. unfold nextRunAfter. rewrite Hz, Hw. cbn [result_bind].
  destruct (wall_law after parts y m0 d Hw Hf) as (Hy & Hmo & Hd & Hh & Hm).
  rewrite Hy, Hmo, Hd, Hh, Hm. cbn [result_bind].
  replace (m0 + 1 - 1) with m0 by lia. by rewrite (start_weekday _ _ _ _ Hf Hn).
Qed.

(** C24: Soundness of [nextRunAfter] in every time zone, with or without
    transitions: the instant it returns is strictly after the given one, and the
    local time there is one the schedule fires at, in minute, hour and month and
    by Vixie's rule for the two day fields, with the true weekday of that date.
    (From the year 100 on, where [Date.UTC] reads years literally.) *)
Theorem next_run_sound DateTimeFormat s after tz wall offset off t :
  DateTimeFormat tz = Some (wall, offset) -> LawfulZone wall offset off ->
  day_from_year 100 <= local_day (after + off after) ->
  nextRunAfter DateTimeFormat s after tz = Ok t ->
  after < t /\ fires_at s (t + off t).
Proof.
  intros Hz HL Hn Hrun. destruct (wall after) as [parts|e] eqn:Hw.
  - destruct (date_fields (local_day (after + off after))) as [[y m0] d] eqn:Hf.
    rewrite (nextRunAfter_scan _ _ _ _ wall offset off parts y m0 d) in Hrun by done.
    by apply scan_days_sound with (off := off) in Hrun.
  - unfold nextRunAfter in Hrun. by rewrite Hz, Hw in Hrun.
Qed.

(** C23: In a zone without transitions [nextRunAfter] computes the least fire
    time: its result is the first whole local minute after the given instant at
    which the schedule fires; and it throws only when no such minute exists on
    the 366 days that start with the local day of the given instant. *)
Theorem next_run_least DateTimeFormat s after tz wall offset o :
  DateTimeFormat tz = Some (wall, offset) -> FixedZone wall offset o -> wf_schedule s ->
  day_from_year 100 <= local_day (after + o) ->
  let fire t := after < t /\ (t + o) mod ms_per_minute = 0 /\ fires_at s (t + o) in
  match nextRunAfter DateTimeFormat s after tz with
  | Ok t => fire t /\ forall t', fire t' -> t <= t'
  | Throw e => e = "cron expression never matches within the search window" /\
      forall t', fire t' -> local_day (after + o) + 366 <= local_day (t' + o)
  end.
Proof.
  intros Hz HF Hwf Hn fire. unfold wf_schedule, schedule_fields in Hwf.
  apply Forall2_cons in Hwf as [(_ & Hms & Hmr) Hwf].
  apply Forall2_cons in Hwf as [(_ & Hhs & Hhr) _].
  pose proof (fixed_wall (FixedZone := HF) after) as Hw.
  destruct (wall after) as [parts|e] eqn:Hwa; [|done].
  destruct (date_fields (local_day (after + o))) as [[y m0] d] eqn:Hf.
  rewrite (nextRunAfter_scan _ _ _ _ wall offset (fun _ => o) parts y m0 d) by (done || apply HF).
  pose proof (scan_days_least wall offset o s after Hhs Hhr Hms Hmr MAX_DAYS
    (local_day (after + o)) y m0 d Hf Hn ltac:(lia)) as Hs.
  rewrite bool_decide_eq_true_2 in Hs by done.
  assert (forall t', fire t' -> local_day (t' + o) < local_day (after + o) + Z.of_nat MAX_DAYS ->
    candidate o s (local_day (after + o)) (local_day (after + o) + Z.of_nat MAX_DAYS) t') as Hcand.
  { intros t' (Hgt & Ha & Hfi) Hlt. apply fires_at_candidate; try done.
    apply local_day_mono. lia. }
  destruct (scan_days _ _ _ _ _ _ _ _ _ _ _ _) as [t|e]; simpl in Hs.
  - destruct Hs as (Hc & Hgt & Hmin).
    destruct (candidate_fires_at o s _ _ t Hhr Hmr Hc) as (Hfi & Ha & Hd). split; [by split_and!|].
    intros t' Ht'. destruct (Z.lt_ge_cases (local_day (t' + o)) (local_day (after + o) + Z.of_nat MAX_DAYS)).
    + apply Hmin; [by apply Hcand|apply Ht'].
    + destruct (Z.le_gt_cases t t'); [done|].
      pose proof (local_day_mono (t' + o) (t + o)). lia.
  - destruct Hs as [-> Hall]. split; [done|]. intros t' Ht'.
    destruct (Z.lt_ge_cases (local_day (t' + o)) (local_day (after + o) + Z.of_nat MAX_DAYS)); [|done].
    specialize (Hall t' (Hcand t' Ht' ltac:(done))). destruct Ht'. lia.
Qed.

(** *** Concrete zones *)

Definition zone_wall (off : Z -> Z) : WallFormat := fun t =>
  let l := t + off t in
  let '(y, m0, d) := date_fields (local_day l) in
  Ok [("month", m0 + 1); ("day", d); ("year", y); ("hour", local_hour l); ("minute", local_minute l)].

Definition zone_offset (name : Z -> string) : OffsetFormat := fun t => Ok (Some (name t)).

Lemma zone_lawful off name :
  (forall t, offsetMs (zone_offset name) t = Ok (off t)) ->
  LawfulZone (zone_wall off) (zone_offset name) off.
Proof.
  intros Ho. split.
  - unfold zone_wall. intros t parts y m0 d Hp Hf. rewrite Hf in Hp. injection Hp as <-. done.
  - intros t o. rewrite Ho. by intros [= <-].
Qed.

(** Indian time. *)
Definition kolkata_offset : Z := 19800000.
Definition kolkata : WallFormat * OffsetFormat :=
  (zone_wall (fun _ => kolkata_offset), zone_offset (fun _ => "GMT+05:30")).

#[export] Instance kolkata_fixed : FixedZone kolkata.1 kolkata.2 kolkata_offset.
Proof.
  split; [by apply (zone_lawful (fun _ => kolkata_offset) (fun _ => "GMT+05:30"))| |done]. intros t. unfold kolkata, zone_wall. simpl.
  by destruct (date_fields (local_day (t + kolkata_offset))) as [[? ?] ?].
Qed.

(** London in 2026: summer time from 29 March, 01:00 UTC. *)
Definition london_spring : Z := 1774746000000.
Definition london_off (t : Z) : Z := if t <? london_spring then 0 else 3600000.
Definition london_name (t : Z) : string := if t <? london_spring then "GMT" else "GMT+01:00".
Definition london : WallFormat * OffsetFormat := (zone_wall london_off, zone_offset london_name).

Lemma london_lawful : LawfulZone london.1 london.2 london_off.
Proof.
  apply zone_lawful. intros t. unfold offsetMs, zone_offset, london_name, london_off. simpl.
  by destruct (t <? london_spring).
Qed.

Definition zones (tz : string) : option (WallFormat * OffsetFormat) :=
  if bool_decide (tz = "Asia/Kolkata") then Some kolkata
  else if bool_decide (tz = "Europe/London") then Some london else None.

(** 01:30 does not exist in London on 29 March 2026: asked on the 28th at noon,
    a daily 01:30 job runs next on the 30th, at 00:30 UTC. *)
Lemma next_run_sound_witness :
  let s := mkCronSchedule [30] [1] (for_range 1 31 1) (for_range 1 12 1) (for_range 0 6 1) in
  nextRunAfter zones s 1774699200000 "Europe/London" = Ok 1774830600000 /\
  1774699200000 < 1774830600000 /\ fires_at s (1774830600000 + london_off 1774830600000).
Proof.
  intros s.
  assert (nextRunAfter zones s 1774699200000 "Europe/London" = Ok 1774830600000) as Hrun
    by (vm_compute; reflexivity).
  split; [exact Hrun|].
  apply (next_run_sound zones s 1774699200000 "Europe/London" london.1 london.2 london_off);
    [reflexivity | exact london_lawful | vm_compute; congruence | exact Hrun].
Defined.

(** 29 February: from 1 March 2026 in India the search gives no answer, the next
    one being in 2028. *)
Lemma next_run_least_witness :
  let s := mkCronSchedule [0] [9] [29] [2] (for_range 0 6 1) in
  let fire t := 1772303400000 < t /\ (t + kolkata_offset) mod ms_per_minute = 0 /\
                fires_at s (t + kolkata_offset) in
  nextRunAfter zones s 1772303400000 "Asia/Kolkata" =
    Throw "cron expression never matches within the search window" /\
  forall t', fire t' ->
    local_day (1772303400000 + kolkata_offset) + 366 <= local_day (t' + kolkata_offset).
Proof.
  intros s fire.
  assert (nextRunAfter zones s 1772303400000 "Asia/Kolkata" =
    Throw "cron expression never matches within the search window") as Hrun
    by (vm_compute; reflexivity).
  assert (wf_schedule s) as Hwf.
  { exact (proj1 (parsed_wf "0 9 29 2 *" s eq_refl)). }
  pose proof (next_run_least zones s 1772303400000 "Asia/Kolkata" kolkata.1 kolkata.2 kolkata_offset
    eq_refl kolkata_fixed Hwf) as H.
  rewrite Hrun in H. split; [exact Hrun|]. apply H. vm_compute. congruence.
Defined.
