(* ===== verification/CronRun.v ===== *)
(** * Running one cron job (src/packages/core/src/cron-scheduler.ts)

    [runPromptOnce] and [runCommandOnce] as machines: an input is what the
    environment does next (a promise settles, the child emits an event, a timer
    expires), a step is what the code does then.  Every input carries the time
    the clock shows. *)

From S2P Require Import Prelude JsString JsValue Contracts Frames CronExpression.
From stdpp Require Import options pretty.
#[local] Open Scope Z_scope.

(** ** Jobs and results *)

Inductive Missed : Type := skip | catchUp.

Record CronJob := mkCronJob {
  id : string;
  schedule : string;
  timezone : string;
  missed : Missed;
  prompt : option string;
  command : option string;
  timeout : option Z;
  runAtBoot : bool;
  parsed : CronSchedule
}.

Inductive Status : Type := ok | error.

Record RunResult := mkRunResult {
  status : Status;
  text : string;
  sessionFile : option string;
  run_error : option string;
  durationMs : Z
}.

Definition DEFAULT_COMMAND_TIMEOUT_SECONDS : Z := 600.
Definition COMMAND_KILL_GRACE_MS : Z := 250.

(** The part of an RPC response the scheduler reads. *)
Record Response := mkResponse {
  success : bool;
  data : value;
  res_error : option string
}.

Definition extractDelta (frame : Frame) : option string :=
  match as_object (prop "assistantMessageEvent" frame) with
  | None => None
  | Some ev =>
      if is_string "text_delta" (prop "type" ev) then as_string (prop "delta" ev) else None
  end.

(** ** Prompt mode *)

Inductive PromptPhase : Type :=
| Spawning | Negotiating | NewSession | GetState | Prompting | AwaitTurn
| Done (r : RunResult).

Record PromptRun := mkPromptRun {
  pr_phase : PromptPhase;
  pr_text : string;
  pr_session : option string;
  agentEnded : bool;
  turnDone : bool;
  (** the child the [finally] block closes *)
  pr_child : bool;
  pr_closed : bool;
  pr_startedAt : Z
}.

Inductive PromptInput : Type :=
| Settle (r : result string Response)
| ChildEvent (frame : Frame)
| ChildExit
| Resume.

Definition prompt_init (now : Z) : PromptRun :=
  mkPromptRun Spawning "" None false false false false now.

Definition with_phase (p : PromptPhase) (r : PromptRun) : PromptRun :=
  mkPromptRun p (pr_text r) (pr_session r) (agentEnded r) (turnDone r) (pr_child r) (pr_closed r)
    (pr_startedAt r).

(** [return] and [catch], then the [finally] block. *)
Definition prompt_return (now : Z) (st : Status) (err : option string) (r : PromptRun) : PromptRun :=
  mkPromptRun
    (Done (mkRunResult st (pr_text r) (pr_session r) err (now - pr_startedAt r)))
    (pr_text r) (pr_session r) (agentEnded r) (turnDone r) (pr_child r) (pr_child r) (pr_startedAt r).

(** [onEvent] and [onTurnEvent], both attached once the child exists. *)
Definition onEvent (frame : Frame) (r : PromptRun) : PromptRun :=
  if negb (pr_child r) then r
  else
    let ended := is_string "agent_end" (prop "type" frame) in
    mkPromptRun (pr_phase r)
      (if is_string "message_update" (prop "type" frame)
       then (pr_text r +:+ default "" (extractDelta frame))%stdpp else pr_text r)
      (pr_session r) (agentEnded r || ended) (turnDone r || ended) (pr_child r) (pr_closed r)
      (pr_startedAt r).

Definition onTurnExit (r : PromptRun) : PromptRun :=
  if negb (pr_child r) then r
  else mkPromptRun (pr_phase r) (pr_text r) (pr_session r) (agentEnded r) true (pr_child r)
         (pr_closed r) (pr_startedAt r).

Definition failed (what : string) (res : Response) : string :=
  (what +:+ " failed: " +:+ default "unknown" (res_error res))%stdpp.

(** The continuation after the [await] the run is at. *)
Definition prompt_settled (now : Z) (res : Response) (r : PromptRun) : PromptRun :=
  match pr_phase r with
  | Spawning =>
      mkPromptRun Negotiating (pr_text r) (pr_session r) (agentEnded r) (turnDone r) true
        (pr_closed r) (pr_startedAt r)
  | Negotiating =>
      if success res then with_phase NewSession r
      else prompt_return now error (Some (failed "negotiate_protocol v2" res)) r
  | NewSession =>
      if success res then with_phase GetState r
      else prompt_return now error (Some (failed "new_session" res)) r
  | GetState =>
      let sf := if success res then
                  match as_object (data res) with
                  | Some d => as_string (prop "sessionFile" d)
                  | None => None
                  end
                else None in
      mkPromptRun Prompting (pr_text r) (match sf with Some f => Some f | None => pr_session r end)
        (agentEnded r) (turnDone r) (pr_child r) (pr_closed r) (pr_startedAt r)
  | Prompting =>
      if success res then with_phase AwaitTurn r
      else prompt_return now error (Some (failed "prompt" res)) r
  | AwaitTurn | Done _ => r
  end.

Definition awaiting_response (p : PromptPhase) : bool :=
  match p with AwaitTurn | Done _ => false | _ => true end.

Definition prompt_step (r : PromptRun) (i : Z * PromptInput) : PromptRun :=
  let '(now, i) := i in
  match i with
  | ChildEvent frame => onEvent frame r
  | ChildExit => onTurnExit r
  | Settle res =>
      if awaiting_response (pr_phase r) then
        match res with
        | Ok res => prompt_settled now res r
        | Throw e => prompt_return now error (Some e) r
        end
      else r
  | Resume =>
      match pr_phase r with
      | AwaitTurn =>
          if turnDone r then
            if agentEnded r then prompt_return now ok None r
            else prompt_return now error (Some "agent ended without an agent_end frame") r
          else r
      | _ => r
      end
  end.

Definition run_prompt (startedAt : Z) (inputs : list (Z * PromptInput)) : PromptRun :=
  run prompt_step (prompt_init startedAt) inputs.

Definition prompt_result (r : PromptRun) : option RunResult :=
  match pr_phase r with Done res => Some res | _ => None end.

(** ** Command mode *)

Inductive Signal : Type := SIGTERM | SIGKILL.

(** What a kill call reaches: the process group or the child alone. *)
Inductive Target : Type := Group | Child.

Record CommandRun := mkCommandRun {
  cm_text : string;
  timedOut : bool;
  settled : option RunResult;
  cm_child : bool;
  timeoutTimer : bool;
  forceKillTimer : bool;
  signals : list (Target * Signal);
  cm_startedAt : Z
}.

Inductive CommandInput : Type :=
| SpawnThrows (e : string)
| Spawned
| Output (chunk : string)
| ErrorEvent (e : string)
| Close (code : option Z)
| TimeoutFires
| ForceKillFires.

Definition command_init (now : Z) : CommandRun :=
  mkCommandRun "" false None false false false [] now.

(** [finish]: only the first call counts. *)
Definition finish (now : Z) (st : Status) (err : option string) (r : CommandRun) : CommandRun :=
  match settled r with
  | Some _ => r
  | None =>
      mkCommandRun (cm_text r) (timedOut r)
        (Some (mkRunResult st (cm_text r) None err (now - cm_startedAt r)))
        (cm_child r) false false (signals r) (cm_startedAt r)
  end.

Definition timeoutError (timeoutSeconds : Z) : string :=
  ("command timed out after " +:+ pretty timeoutSeconds +:+ "s")%stdpp.

Definition exit_error (code : option Z) : string :=
  ("exit code " +:+ match code with Some c => pretty c | None => "unknown" end)%stdpp.

Section command.
(** [process.platform !== "win32" && typeof child.pid === "number"] *)
Context (has_group : bool).
(** [job.timeout ?? DEFAULT_COMMAND_TIMEOUT_SECONDS] *)
Context (timeoutSeconds : Z).

(** A kill that throws is swallowed, so both calls are made. *)
Definition killCommandProcess (s : Signal) (r : CommandRun) : CommandRun :=
  mkCommandRun (cm_text r) (timedOut r) (settled r) (cm_child r) (timeoutTimer r)
    (forceKillTimer r) (signals r ++ (if has_group then [(Group, s)] else []) ++ [(Child, s)])
    (cm_startedAt r).

Definition set_timers (timedOut timeout force : bool) (r : CommandRun) : CommandRun :=
  mkCommandRun (cm_text r) timedOut (settled r) (cm_child r) timeout force (signals r)
    (cm_startedAt r).

Definition command_step (r : CommandRun) (i : Z * CommandInput) : CommandRun :=
  let '(now, i) := i in
  match i with
  | SpawnThrows e => if cm_child r then r else finish now error (Some e) r
  | Spawned =>
      match cm_child r, settled r with
      | false, None => mkCommandRun (cm_text r) (timedOut r) None true true (forceKillTimer r)
                         (signals r) (cm_startedAt r)
      | _, _ => r
      end
  | Output chunk =>
      if cm_child r then
        mkCommandRun (cm_text r +:+ chunk)%stdpp (timedOut r) (settled r) (cm_child r)
          (timeoutTimer r) (forceKillTimer r) (signals r) (cm_startedAt r)
      else r
  | ErrorEvent e =>
      if cm_child r && negb (timedOut r) then finish now error (Some e) r else r
  | Close code =>
      if negb (cm_child r) then r
      else if timedOut r then finish now error (Some (timeoutError timeoutSeconds)) r
      else match code with
           | Some 0 => finish now ok None r
           | _ => finish now error (Some (exit_error code)) r
           end
  | TimeoutFires =>
      if timeoutTimer r then
        match settled r with
        | Some _ => set_timers (timedOut r) false (forceKillTimer r) r
        | None => set_timers true false true (killCommandProcess SIGTERM r)
        end
      else r
  | ForceKillFires =>
      if forceKillTimer r then
        match settled r with
        | Some _ => set_timers (timedOut r) (timeoutTimer r) false r
        | None =>
            finish now error (Some (timeoutError timeoutSeconds))
              (set_timers (timedOut r) (timeoutTimer r) false (killCommandProcess SIGKILL r))
        end
      else r
  end.

Definition run_command (startedAt : Z) (inputs : list (Z * CommandInput)) : CommandRun :=
  run command_step (command_init startedAt) inputs.
End command.

(** ** [runJobOnce] *)

(** What happens while a job runs, in either mode. *)
Record JobEnv := mkJobEnv {
  startedAt : Z;
  prompt_inputs : list (Z * PromptInput);
  command_inputs : list (Z * CommandInput);
  (** when the fire is recorded: [firedAt] *)
  finishedAt : Z;
  (** [stop()] is called while the job runs *)
  stop_called : bool
}.

(** [None]: the run never returns. *)
Definition runJobOnce (has_group : bool) (job : CronJob) (env : JobEnv) : option RunResult :=
  match command job with
  | Some _ =>
      settled (run_command has_group (default DEFAULT_COMMAND_TIMEOUT_SECONDS (timeout job))
                 (startedAt env) (command_inputs env))
  | None => prompt_result (run_prompt (startedAt env) (prompt_inputs env))
  end.

(** ** Prompt runs *)

(** The inputs since the child was there to be listened to. *)
Fixpoint after_spawn (inputs : list (Z * PromptInput)) : list (Z * PromptInput) :=
  match inputs with
  | [] => []
  | (_, Settle (Ok _)) :: inputs => inputs
  | (_, Settle (Throw _)) :: _ => []
  | _ :: inputs => after_spawn inputs
  end.

(** The text the child streamed. *)
Fixpoint deltas (inputs : list (Z * PromptInput)) : string :=
  match inputs with
  | [] => ""
  | (_, ChildEvent frame) :: inputs =>
      ((if is_string "message_update" (prop "type" frame)
        then default "" (extractDelta frame) else "") +:+ deltas inputs)%stdpp
  | _ :: inputs => deltas inputs
  end.

Definition ends_agent (i : Z * PromptInput) : bool :=
  match i.2 with ChildEvent frame => is_string "agent_end" (prop "type" frame) | _ => false end.

(** The responses that settled, in order. *)
Definition responses (inputs : list (Z * PromptInput)) : list (result string Response) :=
  omap (fun i => match i.2 with Settle r => Some r | _ => None end) inputs.

Definition session_of (res : Response) : option string :=
  if success res then
    match as_object (data res) with Some d => as_string (prop "sessionFile" d) | None => None end
  else None.

(** How far the responses have brought the run. *)
Definition phase_reached (p : PromptPhase) (sf : option string)
    (rs : list (result string Response)) : Prop :=
  match p with
  | Spawning => rs = [] /\ sf = None
  | Negotiating => sf = None /\ exists r0, rs = [Ok r0]
  | NewSession => sf = None /\ exists r0 neg, rs = [Ok r0; Ok neg] /\ success neg = true
  | GetState => sf = None /\ exists r0 neg new, rs = [Ok r0; Ok neg; Ok new] /\
      success neg = true /\ success new = true
  | Prompting => exists r0 neg new st, rs = [Ok r0; Ok neg; Ok new; Ok st] /\
      success neg = true /\ success new = true /\ sf = session_of st
  | AwaitTurn => exists r0 neg new st pr rest,
      rs = Ok r0 :: Ok neg :: Ok new :: Ok st :: Ok pr :: rest /\
      success neg = true /\ success new = true /\ success pr = true /\ sf = session_of st
  | Done _ => True
  end.

Record prompt_inv (inputs : list (Z * PromptInput)) (r : PromptRun) : Prop := {
  inv_phase : phase_reached (pr_phase r) (pr_session r) (responses inputs);
  inv_child : match responses inputs with
              | [] => pr_child r = false /\ pr_phase r = Spawning
              | Ok _ :: _ => pr_child r = true
              | Throw _ :: _ => pr_child r = false /\ exists res, pr_phase r = Done res
              end;
  inv_text : pr_text r = deltas (after_spawn inputs);
  inv_ended : agentEnded r = existsb ends_agent (after_spawn inputs)
}.

Lemma responses_app a b : responses (a ++ b) = responses a ++ responses b.
Proof. apply omap_app. Qed.

Lemma deltas_app a b : deltas (a ++ b) = (deltas a +:+ deltas b)%stdpp.
Proof.
  induction a as [|[t []] a IH]; simpl; rewrite ?IH, ?append_assoc; done.
Qed.

Lemma after_spawn_app a i :
  after_spawn (a ++ [i]) =
    match responses a with
    | [] => after_spawn [i]
    | Ok _ :: _ => after_spawn a ++ [i]
    | Throw _ :: _ => after_spawn a
    end.
Proof. induction a as [|[t [[]| | |]] a IH]; simpl; try done; rewrite IH; done. Qed.

Lemma after_spawn_silent a e rs : responses a = Throw e :: rs -> after_spawn a = [].
Proof. induction a as [|[t [[]| | |]] a IH]; simpl; try done; auto. Qed.

Lemma after_spawn_before a : responses a = [] -> after_spawn a = [].
Proof. induction a as [|[t [[]| | |]] a IH]; simpl; try done; auto. Qed.

(** What the child's inputs do once it is there. *)
Lemma deltas_snoc a i :
  deltas (a ++ [i]) =
    (deltas a +:+ match i.2 with
                  | ChildEvent frame => if is_string "message_update" (prop "type" frame)
                                        then default "" (extractDelta frame) else ""
                  | _ => ""
                  end)%stdpp.
Proof. rewrite deltas_app. destruct i as [t []]; simpl; by rewrite ?append_nil_r. Qed.

(** An input that is not an event neither streams text nor ends the agent. *)
Lemma after_spawn_quiet inputs i :
  (forall frame, i.2 <> ChildEvent frame) ->
  deltas (after_spawn (inputs ++ [i])) = deltas (after_spawn inputs) /\
  existsb ends_agent (after_spawn (inputs ++ [i])) = existsb ends_agent (after_spawn inputs).
Proof.
  intros Hi. rewrite after_spawn_app. destruct (responses inputs) as [|[r0|e] rs] eqn:Hrs; [| |done].
  - rewrite (after_spawn_before inputs) by done.
    destruct i as [t [[]|frame| |]]; simpl; done || by destruct (Hi frame).
  - rewrite deltas_snoc, existsb_app.
    destruct i as [t [|frame| |]]; simpl; rewrite ?append_nil_r, ?orb_false_r; done || by destruct (Hi frame).
Qed.

Lemma prompt_step_inv inputs r i :
  prompt_inv inputs r -> prompt_inv (inputs ++ [i]) (prompt_step r i).
Proof.
  intros [Hp Hc Ht He]. destruct i as [now [res|frame| |]].
  - (* a promise settles *)
    assert (responses (inputs ++ [(now, Settle res)]) = responses inputs ++ [res]) as Hr
      by apply responses_app.
    assert (deltas (after_spawn (inputs ++ [(now, Settle res)])) = deltas (after_spawn inputs) /\
            existsb ends_agent (after_spawn (inputs ++ [(now, Settle res)])) =
            existsb ends_agent (after_spawn inputs)) as [Hd Hx].
    { by apply after_spawn_quiet. }
    assert (forall p sf c, phase_reached p sf (responses inputs ++ [res]) ->
      match responses inputs ++ [res] with
      | [] => c = false /\ p = Spawning
      | Ok _ :: _ => c = true
      | Throw _ :: _ => c = false /\ exists res, p = Done res
      end -> forall en td cl st, en = agentEnded r ->
      prompt_inv (inputs ++ [(now, Settle res)]) (mkPromptRun p (pr_text r) sf en td c cl st)) as Hk.
    { intros p sf c Hph Hch en td cl st ->. split; simpl; rewrite ?Hr, ?Hd, ?Hx; done. }
    destruct r as [p tx sf en td c cl st]. simpl in *. subst tx en.
    unfold prompt_settled, prompt_return, with_phase. destruct p; simpl in *.
    + destruct Hp as [Hrs ->]. rewrite Hrs in *. destruct Hc as [-> _].
      destruct res as [res|e]; apply Hk; simpl; eauto.
    + destruct Hp as (-> & r0 & Hrs). rewrite Hrs in *. subst c.
      destruct res as [res|e]; [destruct (success res) eqn:Hs|]; apply Hk; simpl; eauto 10.
    + destruct Hp as (-> & r0 & neg & Hrs & Hn). rewrite Hrs in *. subst c.
      destruct res as [res|e]; [destruct (success res) eqn:Hs|]; apply Hk; simpl; eauto 10.
    + destruct Hp as (-> & r0 & neg & new & Hrs & Hn & Hw). rewrite Hrs in *. subst c.
      destruct res as [res|e]; apply Hk; simpl; eauto 10.
      exists r0, neg, new, res. split_and!; try done. unfold session_of. by repeat case_match.
    + destruct Hp as (r0 & neg & new & st' & Hrs & Hn & Hw & ->). rewrite Hrs in *. subst c.
      destruct res as [res|e]; [destruct (success res) eqn:Hs|]; apply Hk; simpl; eauto 15.
    + destruct Hp as (r0 & neg & new & st' & pr & rest & Hrs & Hn & Hw & Hpr & ->).
      rewrite Hrs in *. subst c. apply Hk; simpl; [|done|done].
      exists r0, neg, new, st', pr, (rest ++ [res]). done.
    + apply Hk; [done| |done]. by destruct (responses inputs) as [|[] ?]; [destruct Hc|..].
  - (* an event *)
    assert (responses (inputs ++ [(now, ChildEvent frame)]) = responses inputs) as Hr
      by (rewrite responses_app; apply app_nil_r).
    split; simpl; rewrite ?Hr; unfold onEvent;
      destruct (pr_child r) eqn:Hch; simpl; rewrite ?Hch; try done.
    + rewrite after_spawn_app. destruct (responses inputs) as [|[] ?]; [by destruct Hc| |by destruct Hc].
      rewrite deltas_snoc, Ht. simpl. case_match; [done|]. by rewrite append_nil_r.
    + rewrite after_spawn_app. destruct (responses inputs) as [|[] ?] eqn:Hrs; [|done|].
      * by rewrite Ht, after_spawn_before.
      * by rewrite Ht.
    + rewrite after_spawn_app. destruct (responses inputs) as [|[] ?]; [by destruct Hc| |by destruct Hc].
      rewrite existsb_app, He. simpl. by rewrite orb_false_r.
    + rewrite after_spawn_app. destruct (responses inputs) as [|[] ?] eqn:Hrs; [|done|].
      * by rewrite He, after_spawn_before.
      * by rewrite He.
  - (* an exit *)
    destruct (after_spawn_quiet inputs (now, ChildExit)) as [Hd Hx]; [done|].
    assert (responses (inputs ++ [(now, ChildExit)]) = responses inputs) as Hr
      by (rewrite responses_app; apply app_nil_r).
    split; rewrite ?Hr, ?Hd, ?Hx; simpl; unfold onTurnExit;
      destruct (pr_child r) eqn:Hch; simpl; rewrite ?Hch; done.
  - (* the turn is over *)
    destruct (after_spawn_quiet inputs (now, Resume)) as [Hd Hx]; [done|].
    assert (responses (inputs ++ [(now, Resume)]) = responses inputs) as Hr
      by (rewrite responses_app; apply app_nil_r).
    assert (prompt_inv (inputs ++ [(now, Resume)]) r) as Hsame
      by (split; rewrite ?Hr, ?Hd, ?Hx; done).
    assert (pr_phase r = AwaitTurn -> forall st err,
      prompt_inv (inputs ++ [(now, Resume)]) (prompt_return now st err r)) as Hret.
    { intros Hph st err. destruct Hsame as [Hp' Hc' Ht' He']. split; simpl; try done.
      revert Hc'. destruct (responses (inputs ++ _)) as [|[] ?]; [|done|].
      - intros [_ ?]. congruence.
      - intros [_ [? ?]]. congruence. }
    cbn [prompt_step]. destruct (pr_phase r) eqn:Hph; try exact Hsame.
    destruct (turnDone r); [|exact Hsame]. destruct (agentEnded r); by apply Hret.
Qed.

Lemma run_prompt_snoc t0 inputs i :
  run_prompt t0 (inputs ++ [i]) = prompt_step (run_prompt t0 inputs) i.
Proof. unfold run_prompt. by rewrite run_app. Qed.

Lemma run_prompt_inv t0 inputs : prompt_inv inputs (run_prompt t0 inputs).
Proof.
  induction inputs as [|i inputs IH] using rev_ind; [by split|].
  rewrite run_prompt_snoc. by apply prompt_step_inv.
Qed.

Lemma startedAt_kept r i : pr_startedAt (prompt_step r i) = pr_startedAt r.
Proof.
  destruct r as [p tx sf en td c cl st], i as [t [[res|e]|frame| |]]; simpl;
    unfold onEvent, onTurnExit, prompt_settled, with_phase, prompt_return; simpl;
    destruct p; simpl; by repeat case_match.
Qed.

Lemma run_prompt_startedAt t0 inputs : pr_startedAt (run_prompt t0 inputs) = t0.
Proof.
  induction inputs as [|i inputs IH] using rev_ind; [done|].
  by rewrite run_prompt_snoc, startedAt_kept.
Qed.

(** Once there is a result it stays, and the child is closed. *)
Lemma prompt_result_kept r i res :
  prompt_result r = Some res -> prompt_result (prompt_step r i) = Some res.
Proof.
  unfold prompt_result. destruct r as [p tx sf en td c cl st], i as [t [[x|e]|frame| |]]; simpl;
    destruct p; simpl; try done; unfold onEvent, onTurnExit; simpl; by destruct c.
Qed.

(** What a prompt run returns.  Take any interleaving of settled promises,
    child events and exits, up to the input on which the run returns.  The text
    it returns is the concatenation of the deltas streamed since the child was
    spawned, the duration is measured from the start, and the result stays
    whatever happens next.  It is ok exactly when an [agent_end] came and the
    turn was awaited, which happens only after the four commands were answered,
    those that may refuse with success; the session file is then the one
    [get_state] reported. *)
Theorem prompt_run_outcome t0 inputs now i more r :
  prompt_result (run_prompt t0 inputs) = None ->
  prompt_result (run_prompt t0 (inputs ++ [(now, i)])) = Some r ->
  prompt_result (run_prompt t0 (inputs ++ (now, i) :: more)) = Some r /\
  text r = deltas (after_spawn inputs) /\
  durationMs r = now - t0 /\
  (status r = ok <-> i = Resume /\ existsb ends_agent (after_spawn inputs) = true) /\
  (status r = ok <-> run_error r = None) /\
  (i = Resume -> exists r0 neg new st pr rest,
     responses inputs = Ok r0 :: Ok neg :: Ok new :: Ok st :: Ok pr :: rest /\
     success neg = true /\ success new = true /\ success pr = true /\
     sessionFile r = session_of st).
Proof.
  intros Hnone Hsome. split.
  { rewrite cons_middle, app_assoc. unfold run_prompt in *. rewrite run_app.
    revert Hsome. generalize (run prompt_step (prompt_init t0) (inputs ++ [(now, i)])).
    induction more as [|j more IH]; intros s Hs; [done|]. rewrite run_cons.
    by apply IH, prompt_result_kept. }
  rewrite run_prompt_snoc in Hsome.
  pose proof (run_prompt_inv t0 inputs) as [Hp Hc Ht He].
  pose proof (run_prompt_startedAt t0 inputs) as Hst.
  revert Hp Hc Ht He Hst Hnone Hsome. generalize (run_prompt t0 inputs).
  intros [p tx sf en td c cl st] Hp Hc Ht He Hst Hnone Hsome.
  unfold prompt_result in *. simpl in *. subst.
  destruct i as [[x|e]|frame| |]; simpl in Hsome.
  - unfold prompt_settled in Hsome.
    destruct p; simpl in *; try (destruct (success x); simpl in *); simplify_eq; simpl;
      split_and!; try done; split; try done; by intros [? ?].
  - destruct p; simpl in *; simplify_eq; simpl; split_and!; try done; split; try done;
      by intros [? ?].
  - unfold onEvent in Hsome. destruct c; simpl in Hsome; by destruct p.
  - unfold onTurnExit in Hsome. destruct c; simpl in Hsome; by destruct p.
  - destruct p; simpl in *; try done. destruct td; simpl in Hsome; [|done].
    destruct (existsb ends_agent (after_spawn inputs)); simpl in Hsome;
      injection Hsome as <-; simpl; split_and!; try done; intuition congruence.
Qed.

Definition delta_event (d : string) : Frame :=
  [("type", VString "message_update");
   ("assistantMessageEvent",
    VObject [("type", VString "text_delta"); ("delta", VString d)])].

Definition yes (d : value) : PromptInput := Settle (Ok (mkResponse true d None)).

Lemma prompt_run_outcome_witness :
  let inputs := [(0, yes VUndefined); (1, yes VUndefined); (2, yes VUndefined);
    (3, yes (VObject [("sessionFile", VString "/s/1.jsonl")])); (4, ChildEvent (delta_event "Hel"));
    (5, yes VUndefined); (6, ChildEvent (delta_event "lo"));
    (7, ChildEvent [("type", VString "agent_end")])] in
  prompt_result (run_prompt 0 inputs) = None /\
  prompt_result (run_prompt 0 (inputs ++ [(9, Resume)])) =
    Some (mkRunResult ok "Hello" (Some "/s/1.jsonl") None 9) /\
  (9 : Z) = 9 - 0 /\ existsb ends_agent (after_spawn inputs) = true.
Proof.
  intros inputs.
  assert (prompt_result (run_prompt 0 inputs) = None) as H1 by reflexivity.
  assert (prompt_result (run_prompt 0 (inputs ++ [(9, Resume)])) =
    Some (mkRunResult ok "Hello" (Some "/s/1.jsonl") None 9)) as H2 by reflexivity.
  destruct (prompt_run_outcome 0 inputs 9 Resume [] _ H1 H2) as (_ & _ & Hd & Hok & _).
  split_and!; [exact H1 | exact H2 | exact Hd | apply Hok; reflexivity].
Defined.

(** ** Command runs *)

(** [spawn] returned or threw. *)
Definition spawn_over (inputs : list (Z * CommandInput)) : bool :=
  existsb (fun i => match i.2 with Spawned | SpawnThrows _ => true | _ => false end) inputs.

Section command_facts.
Context (has_group : bool) (timeoutSeconds : Z).

(** The calls of one [killCommandProcess]. *)
Definition kill_calls (s : Signal) : list (Target * Signal) :=
  (if has_group then [(Group, s)] else []) ++ [(Child, s)].

Record command_inv (r : CommandRun) : Prop := {
  ci_timers : timeoutTimer r = bool_decide (settled r = None) && cm_child r && negb (timedOut r);
  ci_force : forceKillTimer r = bool_decide (settled r = None) && timedOut r;
  ci_signals : signals r =
    (if timedOut r then kill_calls SIGTERM else []) \/
    (timedOut r = true /\ is_Some (settled r) /\
     signals r = kill_calls SIGTERM ++ kill_calls SIGKILL);
  ci_child : timedOut r = true -> cm_child r = true;
  ci_result : forall res, settled r = Some res ->
    (status res = ok <-> run_error res = None) /\
    (status res = ok -> timedOut r = false) /\
    (timedOut r = true -> run_error res = Some (timeoutError timeoutSeconds))
}.

Lemma finish_inv now st err r :
  command_inv r -> (st = ok <-> err = None) -> (st = ok -> timedOut r = false) ->
  (timedOut r = true -> err = Some (timeoutError timeoutSeconds)) ->
  command_inv (finish now st err r).
Proof.
  intros [Ht Hf Hs Hc Hr] H1 H2 H3. unfold finish. destruct (settled r) eqn:Hset; [by split; rewrite ?Hset|].
  split; simpl; try done.
  - destruct Hs as [Hs|(? & [? ?] & ?)]; [by left|done].
  - intros res [= <-]. done.
Qed.

Lemma command_step_inv r i :
  command_inv r -> command_inv (command_step has_group timeoutSeconds r i).
Proof.
  intros Hinv. pose proof Hinv as [Ht Hf Hs Hc Hr]. destruct i as [now i].
  destruct i as [e| |chunk|e|code| |]; cbn [command_step].
  - destruct (cm_child r) eqn:Hch; [done|]. apply finish_inv; try done.
    intros Hto. by apply Hc in Hto.
  - destruct (cm_child r) eqn:Hch; [done|]. destruct (settled r) eqn:Hset; [done|].
    destruct (timedOut r) eqn:Hto; [by discriminate Hc|].
    split; simpl; try done; rewrite ?Hto; try done.
  - destruct (cm_child r) eqn:Hch; [|done]. split; simpl; done.
  - destruct (cm_child r && negb (timedOut r)) eqn:Hg; [|done].
    apply andb_true_iff in Hg as [_ Hto%negb_true_iff]. apply finish_inv; try done. congruence.
  - destruct (negb (cm_child r)); [done|]. destruct (timedOut r) eqn:Hto.
    + apply finish_inv; try done; by rewrite Hto.
    + destruct code as [[|c|c]|]; apply finish_inv; try done; rewrite ?Hto; done.
  - rewrite Ht. destruct (settled r) eqn:Hset; [done|]. simpl.
    destruct (cm_child r) eqn:Hch; [|done]. destruct (timedOut r) eqn:Hto; [done|]. simpl.
    destruct Hs as [Hs|[? _]]; [|done].
    split; simpl; rewrite ?Hset, ?Hs, ?Hch; try done; by left.
  - rewrite Hf. destruct (settled r) eqn:Hset; [done|]. simpl.
    destruct (timedOut r) eqn:Hto; [|done]. simpl.
    destruct Hs as [Hs|(_ & [? ?] & _)]; [|done].
    unfold finish, set_timers. cbn [settled killCommandProcess]. rewrite Hset.
    split; simpl; try done.
    + right. split_and!; [done|by eexists|]. by rewrite Hs.
    + intros res [= <-]. done.
Qed.

Lemma run_command_inv t0 inputs : command_inv (run_command has_group timeoutSeconds t0 inputs).
Proof.
  unfold run_command. apply (run_invariant _ command_inv); [intros; by apply command_step_inv|].
  split; simpl; try done. by left.
Qed.

Lemma settled_kept r i res :
  command_inv r -> settled r = Some res ->
  settled (command_step has_group timeoutSeconds r i) = Some res.
Proof.
  intros [Ht Hf _ _ _] Hs. destruct i as [now i].
  assert (forall st err, settled (finish now st err r) = Some res) as Hfin
    by (intros; unfold finish; by rewrite Hs).
  destruct i as [e| |chunk|e|code| |]; cbn [command_step]; rewrite ?Ht, ?Hf, ?Hs; simpl; try done.
  - by destruct (cm_child r).
  - by destruct (cm_child r).
  - by destruct (cm_child r).
  - by destruct (cm_child r && negb (timedOut r)).
  - destruct (negb (cm_child r)); [done|]. destruct (timedOut r); [done|].
    by destruct code as [[]|].
Qed.

Lemma run_settled_kept r more res :
  command_inv r -> settled r = Some res ->
  settled (run (command_step has_group timeoutSeconds) r more) = Some res.
Proof.
  revert r. induction more as [|i more IH]; intros r Hinv Hres; [done|].
  rewrite run_cons. apply IH; [by apply command_step_inv|by apply settled_kept].
Qed.

(** After the spawn the run has a child or a result. *)
Lemma spawned_or_settled t0 inputs :
  spawn_over inputs = true ->
  let r := run_command has_group timeoutSeconds t0 inputs in
  cm_child r = true \/ is_Some (settled r).
Proof.
  unfold run_command. induction inputs as [|[t i] inputs IH] using rev_ind; [done|].
  unfold spawn_over. rewrite existsb_app, run_app. cbn zeta. rewrite run_cons, run_nil.
  pose proof (run_command_inv t0 inputs) as Hinv. unfold run_command in Hinv.
  revert IH Hinv. generalize (run (command_step has_group timeoutSeconds) (command_init t0) inputs).
  intros r IH Hinv Hor.
  assert (cm_child r = true \/ is_Some (settled r) ->
    cm_child (command_step has_group timeoutSeconds r (t, i)) = true \/
    is_Some (settled (command_step has_group timeoutSeconds r (t, i)))) as Hk.
  { intros [Hc|[res Hs]]; [left|right; exists res; by apply settled_kept].
    destruct i; cbn [command_step]; unfold finish, set_timers; simpl; rewrite ?Hc; simpl; try done;
      by repeat (case_match; simpl). }
  apply orb_true_iff in Hor as [Hor|Hor]; [by apply Hk, IH|].
  destruct i as [e| |chunk|e|code| |]; try done; cbn [command_step].
  - destruct (cm_child r) eqn:Hch; [by left|right]. unfold finish.
    destruct (settled r) eqn:Hs; simpl; [by rewrite Hs|done].
  - destruct (cm_child r) eqn:Hch; [by left|]. destruct (settled r) eqn:Hs; simpl; [right; by rewrite Hs|by left].
Qed.

(** Both timers firing ends every run whose spawn is over. *)
Lemma timers_settle r t1 t2 :
  command_inv r -> cm_child r = true \/ is_Some (settled r) ->
  is_Some (settled (command_step has_group timeoutSeconds
    (command_step has_group timeoutSeconds r (t1, TimeoutFires)) (t2, ForceKillFires))).
Proof.
  intros Hinv Hor.
  assert (forall s j res, command_inv s -> settled s = Some res ->
    is_Some (settled (command_step has_group timeoutSeconds s j))) as Hk
    by (intros s j res Hs Hres; exists res; by apply settled_kept).
  destruct (settled r) as [res|] eqn:Hs.
  { eapply Hk; [by apply command_step_inv|]. by apply settled_kept. }
  destruct Hor as [Hc|[? ?]]; [|done].
  pose proof Hinv as [Ht Hf _ _ _]. rewrite Hs, Hc in Ht. simpl in Ht. rewrite Hs in Hf. simpl in Hf.
  cbn [command_step]. rewrite Ht. destruct (timedOut r) eqn:Hto; simpl.
  - rewrite Hf, Hs. unfold finish, set_timers. simpl. by rewrite Hs.
  - rewrite Hs. cbn [forceKillTimer set_timers settled killCommandProcess]. rewrite Hs.
    unfold finish, set_timers. simpl. by rewrite Hs.
Qed.

(** A command run is bounded and has one outcome.  Under every interleaving
    of output, errors, closes and timers: the child is sent nothing, or SIGTERM,
    or SIGTERM and then SIGKILL, to its group and itself; a result, once there,
    never changes; it is ok only if no timeout fired, and after a timeout it
    says so; while there is no result a timer is armed; and once the spawn is
    over, the timeout and the grace period expiring always produce one. *)
Theorem command_bounded t0 inputs :
  let r := run_command has_group timeoutSeconds t0 inputs in
  (signals r = [] \/ signals r = kill_calls SIGTERM \/
   signals r = kill_calls SIGTERM ++ kill_calls SIGKILL) /\
  (forall res, settled r = Some res ->
     (forall more, settled (run_command has_group timeoutSeconds t0 (inputs ++ more)) = Some res) /\
     (status res = ok -> timedOut r = false /\ signals r = []) /\
     (timedOut r = true -> run_error res = Some (timeoutError timeoutSeconds))) /\
  (spawn_over inputs = true ->
     (settled r = None -> timeoutTimer r || forceKillTimer r = true) /\
     forall t1 t2, is_Some (settled (run_command has_group timeoutSeconds t0
       (inputs ++ [(t1, TimeoutFires); (t2, ForceKillFires)])))).
Proof.
  intros r. pose proof (run_command_inv t0 inputs) as Hinv. fold r in Hinv.
  pose proof Hinv as [Ht Hf Hs Hc Hr]. split_and!.
  - destruct Hs as [->|(_ & _ & ->)]; [destruct (timedOut r)|]; auto.
  - intros res Hres. destruct (Hr res Hres) as (Hok & Hnt & Hto). split_and!; [|intros Hst|done].
    + intros more. unfold run_command. rewrite run_app. by apply run_settled_kept.
    + specialize (Hnt Hst). rewrite Hnt in *. split; [done|]. destruct Hs as [Hs|[? _]]; done.
  - intros Hsp. pose proof (spawned_or_settled t0 inputs Hsp) as Hor. fold r in Hor. split.
    + intros Hn. rewrite Ht, Hf, Hn. simpl. destruct Hor as [->|[? ?]]; [|congruence].
      by destruct (timedOut r).
    + intros t1 t2. unfold run_command. rewrite run_app.
      fold (run_command has_group timeoutSeconds t0 inputs). fold r. rewrite !run_cons, run_nil.
      by apply timers_settle.
Qed.
End command_facts.
