(* ===== verification/CronScheduler.v ===== *)
(** * The cron scheduler (src/packages/core/src/cron-scheduler.ts)

    Loading and validating schedule files, the fires that are due, and the tick
    loop over the durable last-run files.  The YAML parser and
    [Intl.DateTimeFormat] are parameters.  One [Wake] is one run of the timer
    callback to its end; [stop()] may be called while a job runs. *)

From S2P Require Import Prelude JsMap JsString JsValue Contracts Frames JsDate CronExpression CronRun.
From stdpp Require Import options pretty.
#[local] Open Scope Z_scope.

Definition MAX_WAKE_MS : Z := 60000.
Definition CATCH_UP_CAP : nat := 5.

Section scheduler.
Context (DateTimeFormat : string -> option (WallFormat * OffsetFormat)).
(** [Bun.YAML.parse] *)
Context (parseYaml : string -> result string value).
Context (has_group : bool).

(** ** Schedule files *)

Definition schedule_error (id what : string) : string :=
  ("schedule '" +:+ id +:+ "'" +:+ what)%stdpp.

Definition is_blank (s : string) : bool := is_empty (trim s).

Definition requiredString (record : list (string * value)) (field id : string)
    : result string string :=
  match prop field record with
  | VString s => if is_blank s
                 then Throw (schedule_error id (": " +:+ field +:+ " must be a non-empty string")%stdpp)
                 else Ok s
  | _ => Throw (schedule_error id (": " +:+ field +:+ " must be a non-empty string")%stdpp)
  end.

Definition optionalString (record : list (string * value)) (field id : string)
    : result string (option string) :=
  match prop field record with
  | VUndefined => Ok None
  | VString s => if is_blank s
                 then Throw (schedule_error id (": " +:+ field +:+ " must be a non-empty string")%stdpp)
                 else Ok (Some s)
  | _ => Throw (schedule_error id (": " +:+ field +:+ " must be a non-empty string")%stdpp)
  end.

Definition parseCommandTimeout (v : value) (id : string) : result string Z :=
  let timeout := match v with
                 | VNumber n => n
                 | VString s => if is_blank s then NaN else to_number v
                 | _ => NaN
                 end in
  if negb (num_is_finite timeout) || negb (num_is_integer timeout) || num_leb timeout num_zero
  then Throw (schedule_error id ": timeout must be a positive finite integer")
  else Ok (num_floor timeout).

Definition validateTimezone (tz id : string) : result string unit :=
  match DateTimeFormat tz with
  | Some _ => Ok tt
  | None => Throw (schedule_error id (": timezone '" +:+ tz +:+ "' is not a valid IANA timezone")%stdpp)
  end.

Definition is_none {A} (o : option A) : bool := match o with None => true | Some _ => false end.

Definition parseScheduleFile (id source : string) : result string CronJob :=
  parsed <-! parseYaml source;
  match as_record parsed with
  | None => Throw (schedule_error id " must be a YAML mapping")
  | Some record =>
      schedule <-! requiredString record "schedule" id;
      tz <-! optionalString record "timezone" id;
      let timezone := default "UTC" tz in
      missed <-! match prop "missed" record with
                 | VString s =>
                     if String.eqb s "skip" then Ok skip
                     else if String.eqb s "catchUp" then Ok catchUp
                     else Throw (schedule_error id ": missed must be 'skip' or 'catchUp'")
                 | _ => Throw (schedule_error id ": missed must be 'skip' or 'catchUp'")
                 end;
      prompt <-! optionalString record "prompt" id;
      command <-! optionalString record "command" id;
      if Bool.eqb (is_none prompt) (is_none command)
      then Throw (schedule_error id ": exactly one of prompt or command is required")
      else
        timeout <-! match prop "timeout" record with
                    | VUndefined =>
                        Ok (if is_none command then None else Some DEFAULT_COMMAND_TIMEOUT_SECONDS)
                    | v =>
                        if is_none command
                        then Throw (schedule_error id ": timeout is only valid with command")
                        else t <-! parseCommandTimeout v id; Ok (Some t)
                    end;
        runAtBoot <-! match prop "runAtBoot" record with
                      | VUndefined => Ok false
                      | VBool b => Ok b
                      | _ => Throw (schedule_error id ": runAtBoot must be true or false")
                      end;
        _ <-! validateTimezone timezone id;
        match parseCronExpression schedule with
        | Throw e => Throw (schedule_error id (": " +:+ e)%stdpp)
        | Ok cronSchedule =>
            Ok (mkCronJob id schedule timezone missed prompt command timeout runAtBoot cronSchedule)
        end
  end.

(** A directory: file names and what reading each gives. *)
Definition Directory : Type := list (string * result string string).

Definition file_le (a b : string * result string string) : Prop := String.le a.1 b.1.
#[local] Instance file_le_dec : RelDecision file_le := fun a b => String.le_dec a.1 b.1.

Fixpoint load_files (names : Directory) : result string (list CronJob) :=
  match names with
  | [] => Ok []
  | (name, content) :: names =>
      if negb (ends_with ".yml" name) then load_files names
      else
        let id := take_str (String.length name - 4) name in
        source <-! content;
        job <-! parseScheduleFile id source;
        jobs <-! load_files names;
        Ok (job :: jobs)
  end.

(** A directory that cannot be read holds nothing. *)
Definition loadSchedules (dir : option Directory) : result string (list CronJob) :=
  load_files (merge_sort file_le (default [] dir)).

(** ** Due fires *)

Definition next_run (job : CronJob) (after : Z) : result string Z :=
  nextRunAfter DateTimeFormat (parsed job) after (timezone job).

(** The [for (;;)] of the skip policy. *)
Fixpoint skip_loop (fuel : nat) (job : CronJob) (nowMs latest cursor : Z) : result string Z :=
  match fuel with
  | O => Throw "out of fuel"
  | S fuel =>
      fire <-! next_run job cursor;
      if nowMs <? fire then Ok latest else skip_loop fuel job nowMs fire fire
  end.

(** Every round moves the cursor forward, by a millisecond at least. *)
Definition skip_fuel (nowMs cursor : Z) : nat := S (Z.to_nat (nowMs - cursor)).

Fixpoint catch_up_loop (rounds : nat) (job : CronJob) (nowMs cursor : Z) : result string (list Z) :=
  match rounds with
  | O => Ok []
  | S rounds =>
      fire <-! next_run job cursor;
      if nowMs <? fire then Ok []
      else
        fires <-! catch_up_loop rounds job nowMs fire;
        Ok (fire :: fires)
  end.

Definition computeDueFires (job : CronJob) (lastRunMs : option Z) (nowMs : Z)
    : result string (list Z) :=
  let base := default nowMs lastRunMs in
  match missed job with
  | skip =>
      latest <-! skip_loop (skip_fuel nowMs base) job nowMs (-1) base;
      Ok (if 0 <=? latest then [latest] else [])
  | catchUp => catch_up_loop CATCH_UP_CAP job nowMs base
  end.

(** ** The durable state *)

(** A [last-run.json]: what [JSON.parse] makes of it, [None] when it fails. *)
Record Disk := mkDisk {
  last_run : gmap string (option value);
  runs : gmap (string * Z) string
}.

(** [fireEpoch] of the file; a fractional epoch counts as its floor, which is
    the same for every later comparison. *)
Definition readLastRun (d : Disk) (jobId : string) : option number :=
  match last_run d !! jobId with
  | Some (Some v) =>
      match as_object v with
      | Some ps => match prop "fireEpoch" ps with VNumber n => Some n | _ => None end
      | None => None
      end
  | _ => None
  end.

Definition writeLastRun (jobId : string) (v : list (string * value)) (d : Disk) : Disk :=
  mkDisk (<[jobId := Some (VObject v)]> (last_run d)) (runs d).

Definition writeRun (jobId : string) (fireEpoch : Z) (text : string) (d : Disk) : Disk :=
  mkDisk (last_run d) (<[(jobId, fireEpoch) := text]> (runs d)).

(** ** The tick loop *)

(** One line of the console: a run that was started. *)
Record Run := mkRun { run_job : string; run_epoch : Z; at_boot : bool }.

Record Scheduler := mkScheduler {
  stopped : bool;
  (** the delay of the armed [setTimeout], if one is armed *)
  timer : option Z;
  bootRan : gset string;
  disk : Disk;
  started : list Run
}.

(** A tick fails with an exception, or never ends because a run does not. *)
Inductive TickError : Type := Error (message : string) | Hangs.

Definition M (A : Type) : Type := comp Scheduler TickError A.

Definition gets {A} (f : Scheduler -> A) : M A := fun s => (Ok (f s), s).
Definition set_disk (f : Disk -> Disk) : M unit := fun s =>
  (Ok tt, mkScheduler (stopped s) (timer s) (bootRan s) (f (disk s)) (started s)).
Definition lift {A} (r : result string A) : M A :=
  match r with Ok a => cret a | Throw e => cthrow (Error e) end.

Definition announce (r : Run) : M unit := fun s =>
  (Ok tt, mkScheduler (stopped s) (timer s) (bootRan s) (disk s) (started s ++ [r])).

(** [stop()]: the flag and [clearTimeout]; it then waits for [inFlight]. *)
Definition stop : M unit := fun s =>
  (Ok tt, mkScheduler true None (bootRan s) (disk s) (started s)).

Definition scheduleNext (delayMs : Z) : M unit := fun s =>
  (Ok tt, if stopped s then s
          else mkScheduler (stopped s) (Some delayMs) (bootRan s) (disk s) (started s)).

(** What happens during the run of a job for a fire. *)
Definition World : Type := string -> Z -> JobEnv.

Definition await_run (job : CronJob) (env : JobEnv) : M RunResult :=
  (if stop_called env then stop else cret tt) ;?
  match runJobOnce has_group job env with
  | Some result => cret result
  | None => cthrow Hangs
  end.

Definition status_text (s : Status) : string := match s with ok => "ok" | error => "error" end.

Definition last_run_entry (job : CronJob) (firedAt fireEpoch : Z) (r : RunResult)
    : list (string * value) :=
  [("jobId", VString (id job)); ("firedAt", VNumber (num_of_Z firedAt));
   ("fireEpoch", VNumber (num_of_Z fireEpoch)); ("status", VString (status_text (status r)));
   ("sessionFile", match sessionFile r with Some f => VString f | None => VNull end)] ++
  match run_error r with
  | Some e => if is_empty e then [] else [("error", VString e)]
  | None => []
  end ++
  [("durationMs", VNumber (num_of_Z (durationMs r)))].

Definition fireOne (world : World) (job : CronJob) (fireEpoch : Z) : M unit :=
  announce (mkRun (id job) fireEpoch false) ;?
  result <-? await_run job (world (id job) fireEpoch);
  set_disk (writeRun (id job) fireEpoch (text result)) ;?
  set_disk (writeLastRun (id job)
    (last_run_entry job (finishedAt (world (id job) fireEpoch)) fireEpoch result)).

Definition runAtBootOnce (world : World) (job : CronJob) (atMs : Z) : M unit :=
  announce (mkRun (id job) atMs true) ;?
  result <-? await_run job (world (id job) atMs);
  set_disk (writeRun (id job) atMs (text result)).

Definition mark_booted (jobId : string) : M unit := fun s =>
  (Ok tt, mkScheduler (stopped s) (timer s) ({[jobId]} ∪ bootRan s) (disk s) (started s)).

Fixpoint boot_loop (world : World) (nowMs : Z) (jobs : list CronJob) : M unit :=
  match jobs with
  | [] => cret tt
  | job :: jobs =>
      ran <-? gets (fun s => bool_decide (id job ∈ bootRan s));
      (if negb (runAtBoot job) || ran then cret tt
       else mark_booted (id job) ;? runAtBootOnce world job nowMs) ;?
      boot_loop world nowMs jobs
  end.

Fixpoint fire_loop (world : World) (job : CronJob) (due : list Z) : M unit :=
  match due with
  | [] => cret tt
  | fireEpoch :: due => fireOne world job fireEpoch ;? fire_loop world job due
  end.

(** The anchor written for a job seen for the first time. *)
Definition anchor_entry (job : CronJob) (nowMs : Z) : list (string * value) :=
  [("jobId", VString (id job)); ("fireEpoch", VNumber (num_of_Z nowMs));
   ("anchoredAt", VNumber (num_of_Z nowMs))].

Definition finite_epoch (n : number) : result string Z :=
  if num_is_finite n then Ok (num_floor n) else Throw "Invalid time value".

Definition run_due (world : World) (nowMs : Z) (job : CronJob) : M unit :=
  lastRun <-? gets (fun s => readLastRun (disk s) (id job));
  match lastRun with
  | None => set_disk (writeLastRun (id job) (anchor_entry job nowMs))
  | Some n =>
      last <-? lift (finite_epoch n);
      due <-? lift (computeDueFires job (Some last) nowMs);
      fire_loop world job due
  end.

(** [earliestNext] is [None] for the initial infinity. *)
Fixpoint job_loop (world : World) (nowMs : Z) (earliestNext : option Z) (jobs : list CronJob)
    : M (option Z) :=
  match jobs with
  | [] => cret earliestNext
  | job :: jobs =>
      run_due world nowMs job ;?
      next <-? lift (next_run job nowMs);
      job_loop world nowMs
        (Some match earliestNext with Some e => if next <? e then next else e | None => next end) jobs
  end.

Definition tick (world : World) (dir : option Directory) (nowMs : Z) : M unit :=
  stop_flag <-? gets stopped;
  if (stop_flag : bool) then cret tt
  else
    match loadSchedules dir with
    | Throw _ => scheduleNext 0
    | Ok [] => scheduleNext MAX_WAKE_MS
    | Ok jobs =>
        boot_loop world nowMs jobs ;?
        earliest <-? job_loop world nowMs None jobs;
        scheduleNext (Z.max 0 (match earliest with
                               | Some e => Z.min MAX_WAKE_MS (e - nowMs)
                               | None => MAX_WAKE_MS
                               end))
    end.

(** The timer callback: a tick that throws is retried later. *)
Definition wake (world : World) (dir : option Directory) (nowMs : Z) : M unit := fun s =>
  let s := mkScheduler (stopped s) None (bootRan s) (disk s) (started s) in
  match tick world dir nowMs s with
  | (Throw (Error _), s') => scheduleNext MAX_WAKE_MS s'
  | r => r
  end.

Inductive Op : Type :=
| Start
| Wake (world : World) (dir : option Directory) (nowMs : Z)
| Stop.

(** A scheduler whose tick never ends takes no further step but [stop()]. *)
Record Machine := mkMachine { sched : Scheduler; hung : bool }.

Definition step (m : Machine) (op : Op) : Machine :=
  match op with
  | Start => mkMachine (scheduleNext 0 (sched m)).2 (hung m)
  | Stop => mkMachine (stop (sched m)).2 (hung m)
  | Wake world dir nowMs =>
      if hung m then m
      else match timer (sched m) with
           | None => m
           | Some _ =>
               match wake world dir nowMs (sched m) with
               | (Throw Hangs, s) => mkMachine s true
               | (_, s) => mkMachine s false
               end
           end
  end.
End scheduler.

(** ** The process environment *)

(** [env.NAME?.trim() || None] *)
Definition trimmed_env (env : string -> option string) (name : string) : option string :=
  match env name with
  | Some v => if is_blank v then None else Some (trim v)
  | None => None
  end.

Definition parseArgs (raw : option string) : list string :=
  match raw with
  | None => []
  | Some raw => if is_blank raw then [] else split_runs is_js_space (trim raw)
  end.

Record CronOptions := mkCronOptions {
  schedulesDir : string; cronDataDir : string; workspaceDir : string;
  ompBinary : string; ompModel : option string; ompProfile : option string;
  ompArgs : list string; ambientExtensionPath : string
}.

(** [path_join] is [node:path]'s [join], [here] the module's extension path. *)
Definition optionsFromEnv (path_join : string -> string -> string) (here : string)
    (env : string -> option string) : CronOptions :=
  let cronDataDir := default "/data/cron" (env "OMP_CRON_DATA_DIR") in
  mkCronOptions
    (default (path_join cronDataDir "schedules") (env "OMP_CRON_SCHEDULES_DIR"))
    cronDataDir
    (default "/data/workspace" (env "OMP_WORKSPACE_DIR"))
    (default "omp" (trimmed_env env "OMP_BINARY"))
    (trimmed_env env "OMP_MODEL") (trimmed_env env "OMP_PROFILE")
    (parseArgs (env "OMP_ARGS"))
    (default here (trimmed_env env "OMP_AMBIENT_EXTENSION")).

(** An empty model or profile is falsy and passed over. *)
Definition flag (name : string) (v : option string) : list string :=
  match v with Some s => if is_empty s then [] else [name; s] | None => [] end.

Definition buildChildArgs (o : CronOptions) : list string :=
  ["-e"; ambientExtensionPath o] ++ flag "--model" (ompModel o) ++ flag "--profile" (ompProfile o) ++
  ["--cwd"; workspaceDir o] ++ ompArgs o.

(** ** Due fires *)

Section due.
Context (DateTimeFormat : string -> option (WallFormat * OffsetFormat)).
Abbreviation next_run := (next_run DateTimeFormat).
Abbreviation skip_loop := (skip_loop DateTimeFormat).
Abbreviation catch_up_loop := (catch_up_loop DateTimeFormat).
Abbreviation computeDueFires := (computeDueFires DateTimeFormat).

Lemma next_run_later job after t : next_run job after = Ok t -> after < t.
Proof. apply nextRunAfter_later. Qed.

(** The fires of the job's schedule one after another, from an instant on. *)
Inductive consecutive (job : CronJob) : Z -> list Z -> Prop :=
| consecutive_nil base : consecutive job base []
| consecutive_cons base f fs :
    next_run job base = Ok f -> consecutive job f fs -> consecutive job base (f :: fs).

(** The last of the fires, the base when there is none. *)
Definition last_fire (base : Z) (fs : list Z) : Z := List.last fs base.

Lemma last_fire_cons base f fs : last_fire base (f :: fs) = last_fire f fs.
Proof.
  unfold last_fire. revert base f. induction fs as [|g fs IH]; intros base f; [done|].
  change (List.last (f :: g :: fs) base) with (List.last (g :: fs) base).
  by rewrite (IH base g), (IH f g).
Qed.

(** Enough fuel is enough: the loop does not depend on how much there is. *)
Lemma skip_loop_fuel job nowMs fuel latest cursor :
  (Z.to_nat (nowMs - cursor) < fuel)%nat ->
  skip_loop fuel job nowMs latest cursor = skip_loop (skip_fuel nowMs cursor) job nowMs latest cursor.
Proof.
  assert (forall f1 f2 latest cursor, (Z.to_nat (nowMs - cursor) < f1)%nat ->
    (Z.to_nat (nowMs - cursor) < f2)%nat ->
    skip_loop f1 job nowMs latest cursor = skip_loop f2 job nowMs latest cursor) as Hboth.
  { induction f1 as [|f1 IH]; intros [|f2] l c H1 H2; try lia. cbn [CronScheduler.skip_loop].
    destruct (next_run job c) as [fire|e] eqn:Hn; simpl; [|done]. apply next_run_later in Hn.
    destruct (Z.ltb_spec nowMs fire); [done|]. apply IH; lia. }
  intros H. apply Hboth; [done|]. unfold skip_fuel. lia.
Qed.

(** The equation of the [for (;;)] loop. *)
Lemma skip_loop_eq job nowMs latest cursor :
  skip_loop (skip_fuel nowMs cursor) job nowMs latest cursor =
    (fire <-! next_run job cursor;
     if nowMs <? fire then Ok latest else skip_loop (skip_fuel nowMs fire) job nowMs fire fire).
Proof.
  unfold skip_fuel at 1. cbn [CronScheduler.skip_loop].
  destruct (next_run job cursor) as [fire|e] eqn:Hn; simpl; [|done]. apply next_run_later in Hn.
  destruct (Z.ltb_spec nowMs fire); [done|]. apply skip_loop_fuel. lia.
Qed.

(** All fires of [(base, nowMs]], in order, and what follows them. *)
Definition all_due (job : CronJob) (base nowMs : Z) (fs : list Z) (next : result string Z) : Prop :=
  consecutive job base fs /\ Forall (fun f => f <= nowMs) fs /\ next_run job (last_fire base fs) = next.

Lemma all_due_cons job base nowMs f fs next :
  next_run job base = Ok f -> f <= nowMs -> all_due job f nowMs fs next ->
  all_due job base nowMs (f :: fs) next.
Proof.
  intros Hn Hle (Hc & Hf & Hl). unfold all_due. rewrite last_fire_cons.
  split_and!; [by constructor|by constructor|done].
Qed.

Lemma all_due_nil job base nowMs next :
  next_run job base = next -> all_due job base nowMs [] next.
Proof. intros Hn. split_and!; [constructor|done|done]. Qed.

Lemma skip_loop_spec job nowMs latest cursor :
  match skip_loop (skip_fuel nowMs cursor) job nowMs latest cursor with
  | Ok r => exists fs f, all_due job cursor nowMs fs (Ok f) /\ nowMs < f /\
              r = List.last fs latest
  | Throw e => exists fs, all_due job cursor nowMs fs (Throw e)
  end.
Proof.
  remember (Z.to_nat (nowMs - cursor)) as n eqn:Hn. revert latest cursor Hn.
  induction n as [n IH] using lt_wf_ind. intros latest cursor Hn. rewrite skip_loop_eq.
  destruct (next_run job cursor) as [fire|e] eqn:Hnext; cbn [result_bind]; [|by exists []; apply all_due_nil].
  pose proof (next_run_later _ _ _ Hnext) as Hlt.
  destruct (Z.ltb_spec nowMs fire) as [Hgt|Hle].
  - exists [], fire. split_and!; [by apply all_due_nil|done|done].
  - specialize (IH (Z.to_nat (nowMs - fire)) ltac:(lia) fire fire eq_refl).
    destruct (skip_loop (skip_fuel nowMs fire) job nowMs fire fire) as [r|e].
    + destruct IH as (fs & f & Hdue & Hf & ->). exists (fire :: fs), f.
      split_and!; [by apply all_due_cons|done|]. symmetry. apply (last_fire_cons latest).
    + destruct IH as (fs & Hdue). exists (fire :: fs). by apply all_due_cons.
Qed.

Lemma catch_up_loop_spec job nowMs rounds cursor :
  match catch_up_loop rounds job nowMs cursor with
  | Ok fs => consecutive job cursor fs /\ Forall (fun f => f <= nowMs) fs /\
             (length fs <= rounds)%nat /\
             ((length fs < rounds)%nat -> exists f, all_due job cursor nowMs fs (Ok f) /\ nowMs < f)
  | Throw e => exists fs, all_due job cursor nowMs fs (Throw e)
  end.
Proof.
  revert cursor. induction rounds as [|rounds IH]; intros cursor; cbn [CronScheduler.catch_up_loop].
  - split_and!; [constructor|done|done|]. simpl. lia.
  - destruct (next_run job cursor) as [fire|e] eqn:Hnext; cbn [result_bind]; [|by exists []; apply all_due_nil].
    destruct (Z.ltb_spec nowMs fire) as [Hgt|Hle].
    + split_and!; [constructor|done|simpl; lia|]. intros _. exists fire. split; [by apply all_due_nil|done].
    + specialize (IH fire). destruct (catch_up_loop rounds job nowMs fire) as [fs|e]; cbn [result_bind].
      * destruct IH as (Hc & Hf & Hl & Hall).
        split_and!; [by constructor|by constructor|simpl; lia|]. simpl. intros Hlt.
        destruct Hall as (f & Hdue & Hf2); [lia|]. exists f. split; [by apply all_due_cons|done].
      * destruct IH as (fs & Hdue). exists (fire :: fs). by apply all_due_cons.
Qed.

Lemma due_fires_cases job lastRunMs nowMs :
  0 <= default nowMs lastRunMs ->
  let base := default nowMs lastRunMs in
  match computeDueFires job lastRunMs nowMs with
  | Throw e => exists fs, all_due job base nowMs fs (Throw e)
  | Ok fires =>
      match missed job with
      | catchUp =>
          consecutive job base fires /\ Forall (fun f => f <= nowMs) fires /\
          (length fires <= 5)%nat /\
          ((length fires < 5)%nat -> exists f, all_due job base nowMs fires (Ok f) /\ nowMs < f)
      | skip =>
          exists all f, all_due job base nowMs all (Ok f) /\ nowMs < f /\
            fires = match last all with Some l => [l] | None => [] end
      end
  end.
Proof.
  intros Hbase base. unfold CronScheduler.computeDueFires. fold base. fold base in Hbase.
  clearbody base. destruct (missed job).
  - pose proof (skip_loop_spec job nowMs (-1) base) as Hs.
    destruct (skip_loop _ job nowMs (-1) base) as [latest|e]; simpl; [|done].
    destruct Hs as (all & f & Hdue & Hf & ->). exists all, f. split_and!; [done..|].
    destruct Hdue as (Hc & _ & _). destruct Hc as [base|base g fs Hn Hc]; [done|].
    assert (0 <= g) as Hg by (apply next_run_later in Hn; lia).
    clear Hbase Hn.
    assert (forall g, 0 <= g -> consecutive job g fs ->
      0 <= List.last (g :: fs) (-1) /\
      last (g :: fs) = Some (List.last (g :: fs) (-1))) as Hlast.
    { clear. induction fs as [|h fs IH]; intros g Hg Hc; [done|]. inv Hc.
      match goal with H : next_run job g = Ok h |- _ => apply next_run_later in H end.
      apply (IH h); [lia|done]. }
    destruct (Hlast g Hg Hc) as [Hpos ->]. destruct (Z.leb_spec 0 (List.last (g :: fs) (-1))); [done|lia].
  - apply (catch_up_loop_spec job nowMs CATCH_UP_CAP base).
Qed.

(** The due fires of a job, on every branch.  Let [base] be the last run,
    or now for a job without one (not before 1970).  Both loops terminate, and
    they fail only with the error of a [nextRunAfter] call they reach.  Under
    catchUp the result is the first five at most of the consecutive fires after
    [base] up to now, and all of them when it has fewer than five.  Under skip
    it is the last of all of them alone, and empty exactly when there is none. *)
Theorem due_fires_spec job lastRunMs nowMs :
  0 <= default nowMs lastRunMs ->
  let base := default nowMs lastRunMs in
  match computeDueFires job lastRunMs nowMs with
  | Throw e => exists fs, all_due job base nowMs fs (Throw e)
  | Ok fires =>
      match missed job with
      | catchUp =>
          consecutive job base fires /\ Forall (fun f => f <= nowMs) fires /\
          (length fires <= 5)%nat /\
          ((length fires < 5)%nat -> exists f, all_due job base nowMs fires (Ok f) /\ nowMs < f)
      | skip =>
          exists all f, all_due job base nowMs all (Ok f) /\ nowMs < f /\
            fires = match last all with Some l => [l] | None => [] end
      end
  end.
Proof. apply due_fires_cases. Qed.

Lemma consecutive_app job base l1 l2 :
  consecutive job base (l1 ++ l2) -> consecutive job base l1.
Proof.
  revert base. induction l1 as [|f l1 IH]; intros base Hc; [constructor|].
  inv Hc. econstructor; eauto.
Qed.

(** [f] comes after [a] on the schedule; next, under catchUp. *)
Definition advances (job : CronJob) (a f : Z) : Prop :=
  exists skipped, consecutive job a (skipped ++ [f]) /\ (missed job = catchUp -> skipped = []).

Fixpoint chain (job : CronJob) (a : Z) (l : list Z) : Prop :=
  match l with
  | [] => True
  | f :: l => advances job a f /\ chain job f l
  end.

Lemma consecutive_later job base l f :
  consecutive job base l -> f ∈ l -> base < f.
Proof.
  intros Hc. induction Hc as [|base g l Hn Hc IH]; [by intros ?%elem_of_nil|].
  apply next_run_later in Hn. intros [->|Hf]%elem_of_cons; [done|]. apply IH in Hf. lia.
Qed.

Lemma advances_later job a f : advances job a f -> a < f.
Proof.
  intros (l & Hc & _). eapply consecutive_later; [exact Hc|]. apply elem_of_app. right. by left.
Qed.

Lemma due_chain job base nowMs fires :
  0 <= base -> computeDueFires job (Some base) nowMs = Ok fires -> chain job base fires.
Proof.
  intros Hb Hd. pose proof (due_fires_cases job (Some base) nowMs Hb) as Hs.
  rewrite Hd in Hs. simpl in Hs. destruct (missed job) eqn:Hm.
  - destruct Hs as (all & f & (Hc & _) & _ & ->).
    destruct (last all) as [l|] eqn:Hl; [|done].
    apply last_Some in Hl as [all' ->]. split; [|done]. exists all'. split; [done|congruence].
  - destruct Hs as (Hc & _). clear Hb Hd. induction Hc as [|base f l Hn Hc IH]; [done|].
    split; [|done]. exists []. split; [|done]. repeat econstructor; done.
Qed.
End due.

(** ** The tick loop keeps to the schedule *)

(** The scheduled fires of one job, in the order they were started. *)
Definition fires_of (jobId : string) (s : Scheduler) : list Z :=
  omap (fun r => if String.eqb (run_job r) jobId && negb (at_boot r)
                 then Some (run_epoch r) else None) (started s).

Lemma keeps_gets {A} P (f : Scheduler -> A) : keeps P (gets f).
Proof. by intros s Hs. Qed.

Lemma keeps_lift {A} P (r : result string A) : keeps P (lift r).
Proof. destruct r; [apply keeps_ret|apply keeps_throw]. Qed.

#[export] Hint Resolve keeps_gets keeps_lift : omp.

(** A property of the durable files and the started runs is kept by what only
    touches timers and flags. *)
Definition view (s : Scheduler) : Disk * list Run := (disk s, started s).

Section views.
Context (P : Scheduler -> Prop) (HP : forall s s', view s = view s' -> P s -> P s').

Lemma keeps_stop : keeps P stop.
Proof using HP. intros s. by apply HP. Qed.

Lemma keeps_scheduleNext d : keeps P (scheduleNext d).
Proof using HP. intros s. apply HP. unfold scheduleNext. by destruct (stopped s). Qed.

Lemma keeps_mark jobId : keeps P (mark_booted jobId).
Proof using HP. intros s. by apply HP. Qed.

Lemma keeps_await has_group job env : keeps P (await_run has_group job env).
Proof using HP.
  apply keeps_bind; [destruct (stop_called env); [apply keeps_stop|auto with omp]|].
  intros _. destruct (runJobOnce has_group job env); auto with omp.
Qed.
End views.

Section follow.
Context (DateTimeFormat : string -> option (WallFormat * OffsetFormat)).
Context (parseYaml : string -> result string value) (has_group : bool) (job : CronJob).
(** Whether a run of the job may never return, as when the process dies. *)
Context (lossy : bool).

Abbreviation advances := (advances DateTimeFormat job).

(** From the anchor [a], the started fires, and the last one on disk.  A fire
    whose run never returned was not recorded, so it is started again. *)
Inductive follows : Z -> list Z -> Z -> Prop :=
| follows_nil a : follows a [] a
| follows_fire a f l b : advances a f -> follows f l b -> follows a (f :: l) b
| follows_lost a f l b : lossy = true -> advances a f -> follows a l b -> follows a (f :: l) b.

Lemma follows_fire_snoc a l b f : follows a l b -> advances b f -> follows a (l ++ [f]) f.
Proof.
  intros Hl Hf. induction Hl as [a|a g l b Hg Hl IH|a g l b Hlo Hg Hl IH]; simpl.
  - apply follows_fire; [done|constructor].
  - apply follows_fire; auto.
  - apply follows_lost; auto.
Qed.

Lemma follows_lost_snoc a l b f :
  lossy = true -> follows a l b -> advances b f -> follows a (l ++ [f]) b.
Proof.
  intros Hlossy Hl Hf. induction Hl as [a|a g l b Hg Hl IH|a g l b Hlo Hg Hl IH]; simpl.
  - apply follows_lost; [done|done|constructor].
  - apply follows_fire; auto.
  - apply follows_lost; auto.
Qed.

(** The job's last-run file says [b], after fires that follow the schedule. *)
Definition at_fire (b : Z) (s : Scheduler) : Prop :=
  readLastRun (disk s) (id job) = Some (num_of_Z b) /\ 0 <= b /\
  exists a, 0 <= a /\ follows a (fires_of (id job) s) b.

Definition on_schedule (s : Scheduler) : Prop :=
  (readLastRun (disk s) (id job) = None /\ fires_of (id job) s = []) \/ exists b, at_fire b s.

Lemma fires_of_view s s' : view s = view s' -> fires_of (id job) s = fires_of (id job) s'.
Proof. unfold view, fires_of. intros [= _ ->]. done. Qed.

Lemma at_fire_view b s s' : view s = view s' -> at_fire b s -> at_fire b s'.
Proof.
  intros Hv. unfold at_fire. rewrite (fires_of_view _ _ Hv). unfold view in Hv.
  by injection Hv as -> _.
Qed.

Lemma on_schedule_view s s' : view s = view s' -> on_schedule s -> on_schedule s'.
Proof.
  intros Hv. unfold on_schedule. rewrite (fires_of_view _ _ Hv).
  intros [H|[b Hb]]; [left; unfold view in Hv; by injection Hv as <- _|right; exists b; by eapply at_fire_view].
Qed.

(** Any announcement but a scheduled fire of the job is invisible to it. *)
Lemma fires_of_announce r s :
  fires_of (id job) (announce r s).2 =
    fires_of (id job) s ++
    (if String.eqb (run_job r) (id job) && negb (at_boot r) then [run_epoch r] else []).
Proof.
  unfold announce, fires_of. simpl. rewrite omap_app. simpl. by destruct (_ && _).
Qed.

Lemma keeps_announce r :
  run_job r <> id job \/ at_boot r = true -> keeps on_schedule (announce r).
Proof.
  intros Hr s. unfold on_schedule, at_fire. rewrite fires_of_announce.
  replace (String.eqb (run_job r) (id job) && negb (at_boot r)) with false; [by rewrite app_nil_r|].
  destruct Hr as [Hr| ->]; [|by rewrite andb_false_r]. by apply String.eqb_neq in Hr as ->.
Qed.

Lemma readLastRun_write jobId v d other :
  readLastRun (writeLastRun jobId v d) other =
    if decide (jobId = other)
    then match prop "fireEpoch" v with VNumber n => Some n | _ => None end
    else readLastRun d other.
Proof.
  unfold readLastRun, writeLastRun. cbn [last_run].
  destruct (decide (jobId = other)) as [->|Hne]; [by rewrite lookup_insert_eq|].
  by rewrite lookup_insert_ne.
Qed.

Lemma keeps_write_other jobId v :
  jobId <> id job -> keeps on_schedule (set_disk (writeLastRun jobId v)).
Proof.
  intros Hne s. unfold on_schedule, at_fire, fires_of. simpl. by rewrite readLastRun_write, decide_False.
Qed.

Lemma keeps_write_run jobId f t : keeps on_schedule (set_disk (writeRun jobId f t)).
Proof. by intros s. Qed.

Lemma keeps_boot world nowMs jobs : keeps on_schedule (boot_loop has_group world nowMs jobs).
Proof.
  induction jobs as [|j jobs IH]; cbn [boot_loop]; [auto with omp|].
  apply keeps_bind; [auto with omp|]. intros ran. apply keeps_bind; [|done].
  destruct (negb (runAtBoot j) || ran); [auto with omp|].
  apply keeps_bind; [apply keeps_mark, on_schedule_view|]. intros _. unfold runAtBootOnce.
  apply keeps_bind; [apply keeps_announce; by right|]. intros _.
  apply keeps_bind; [apply keeps_await, on_schedule_view|]. intros r. apply keeps_write_run.
Qed.

Lemma keeps_fires_other world j due :
  id j <> id job -> keeps on_schedule (fire_loop has_group world j due).
Proof.
  intros Hne. induction due as [|f due IH]; cbn [fire_loop]; [auto with omp|].
  apply keeps_bind; [|done]. unfold fireOne.
  apply keeps_bind; [apply keeps_announce; by left|]. intros _.
  apply keeps_bind; [apply keeps_await, on_schedule_view|]. intros r.
  apply keeps_bind; [apply keeps_write_run|]. intros _. by apply keeps_write_other.
Qed.

Lemma keeps_due_other world nowMs j :
  id j <> id job -> keeps on_schedule (run_due DateTimeFormat has_group world nowMs j).
Proof.
  intros Hne. unfold run_due. apply keeps_bind; [auto with omp|].
  intros [n|]; [|by apply keeps_write_other].
  apply keeps_bind; [auto with omp|]. intros z. apply keeps_bind; [auto with omp|].
  intros due. by apply keeps_fires_other.
Qed.

Definition world_returns (world : World) : Prop :=
  forall f, is_Some (runJobOnce has_group job (world (id job) f)).

Lemma await_returns env s e s' :
  is_Some (runJobOnce has_group job env) -> await_run has_group job env s <> (Throw e, s').
Proof. intros [r Hr]. unfold await_run, cbind. rewrite Hr. by destruct (stop_called env). Qed.

(** One fire of the job: recorded, unless its run never returns. *)
Lemma fireOne_at_fire world f b s :
  lossy = true \/ world_returns world ->
  at_fire b s -> advances b f ->
  match fireOne has_group world job f s with
  | (Ok _, s') => at_fire f s'
  | (Throw _, s') => at_fire b s'
  end.
Proof.
  intros Hlo (Hr & Hb & a & Ha & Hf) Hadv. pose proof (advances_later _ _ _ _ Hadv) as Hlt.
  set (s1 := (announce (mkRun (id job) f false) s).2).
  assert (fires_of (id job) s1 = fires_of (id job) s ++ [f]) as Hs1.
  { unfold s1. rewrite fires_of_announce. cbn [run_job at_boot run_epoch]. by rewrite String.eqb_refl. }
  assert (lossy = true -> at_fire b s1) as Hlost.
  { intros Hlossy. split_and!; [done|done|]. exists a. split; [done|]. rewrite Hs1. by apply follows_lost_snoc. }
  unfold fireOne. unfold cbind at 1.
  change (announce (mkRun (id job) f false) s) with (@Ok TickError unit tt, s1). cbv beta iota.
  pose proof (fun Hl => keeps_await _ (at_fire_view b) has_group job (world (id job) f) s1 (Hlost Hl)) as Hk.
  assert (fires_of (id job) (await_run has_group job (world (id job) f) s1).2 = fires_of (id job) s1) as Hsame.
  { apply (keeps_await (fun s => fires_of (id job) s = fires_of (id job) s1)); [|done].
    intros x y Hv <-. symmetry. by apply fires_of_view. }
  unfold cbind at 1.
  destruct (await_run has_group job (world (id job) f) s1) as [[r|e] s2] eqn:Haw;
    [|destruct Hlo as [Hlo|Hret]; [by apply Hk|by destruct (await_returns _ _ _ _ (Hret f) Haw)]].
  cbn [snd] in Hsame. unfold cbind, set_disk, at_fire. cbn [disk].
  rewrite readLastRun_write, decide_True by done. split_and!; [done|lia|].
  exists a. split; [done|].
  change (fires_of (id job) _) with (fires_of (id job) s2). rewrite Hsame, Hs1.
  by apply follows_fire_snoc with (b := b).
Qed.

Lemma fire_loop_at_fire world due b s :
  lossy = true \/ world_returns world -> at_fire b s -> chain DateTimeFormat job b due ->
  exists b', at_fire b' (fire_loop has_group world job due s).2.
Proof.
  intros Hlo. revert b s. induction due as [|f due IH]; intros b s Hs Hc; [by exists b|].
  destruct Hc as [Hadv Hc]. cbn [fire_loop]. unfold cbind.
  pose proof (fireOne_at_fire world f b s Hlo Hs Hadv) as Hf.
  destruct (fireOne has_group world job f s) as [[r|e] s']; [by eapply IH|by exists b].
Qed.

Lemma keeps_due world nowMs :
  lossy = true \/ world_returns world -> 0 <= nowMs ->
  keeps on_schedule (run_due DateTimeFormat has_group world nowMs job).
Proof.
  intros Hlo Hnow s Hs. unfold run_due. unfold cbind at 1. cbn [gets].
  destruct Hs as [[Hnone Hnil]|[b Hb]].
  - rewrite Hnone. right. exists nowMs. unfold set_disk, at_fire. cbn [disk snd].
    rewrite readLastRun_write, decide_True by done. split_and!; [done|done|].
    exists nowMs. split; [done|]. change (fires_of (id job) _) with (fires_of (id job) s).
    rewrite Hnil. constructor.
  - pose proof Hb as (Hr & Hpos & _). rewrite Hr. unfold finite_epoch. cbn [num_is_finite num_of_Z].
    fold (num_of_Z b). rewrite num_floor_Z. unfold cbind at 1. cbn [lift cret]. unfold cbind.
    destruct (computeDueFires DateTimeFormat job (Some b) nowMs) as [due|e] eqn:Hd;
      cbn [lift cret cthrow]; [|right; by exists b].
    right. eapply fire_loop_at_fire; [exact Hlo|exact Hb|]. by eapply due_chain.
Qed.

Lemma keeps_jobs world nowMs e jobs :
  lossy = true \/ world_returns world -> 0 <= nowMs -> (forall j, j ∈ jobs -> id j = id job -> j = job) ->
  keeps on_schedule (job_loop DateTimeFormat has_group world nowMs e jobs).
Proof.
  intros Hlo Hnow. revert e. induction jobs as [|j jobs IH]; intros e Hj; cbn [job_loop]; [auto with omp|].
  apply keeps_bind.
  - destruct (decide (id j = id job)) as [Heq|Hne].
    + rewrite (Hj j) by (done || by left). by apply keeps_due.
    + by apply keeps_due_other.
  - intros _. apply keeps_bind; [auto with omp|]. intros next. apply IH. intros j' Hj'. apply Hj. by right.
Qed.

(** The job's file says the same whenever it is read, and clocks are sane. *)
Definition op_ok (op : Op) : Prop :=
  match op with
  | Wake world dir nowMs =>
      0 <= nowMs /\ (lossy = true \/ world_returns world) /\
      forall jobs j, loadSchedules DateTimeFormat parseYaml dir = Ok jobs ->
        j ∈ jobs -> id j = id job -> j = job
  | _ => True
  end.

Lemma keeps_wake world dir nowMs :
  op_ok (Wake world dir nowMs) ->
  keeps on_schedule (wake DateTimeFormat parseYaml has_group world dir nowMs).
Proof.
  intros (Hnow & Hlo & Hdir) s Hs. unfold wake.
  set (s0 := mkScheduler (stopped s) None (bootRan s) (disk s) (started s)).
  assert (on_schedule s0) as Hs0 by (by eapply on_schedule_view; [|exact Hs]).
  assert (keeps on_schedule (tick DateTimeFormat parseYaml has_group world dir nowMs)) as Htick.
  { unfold tick. apply keeps_bind; [auto with omp|]. intros [|]; [auto with omp|].
    destruct (loadSchedules DateTimeFormat parseYaml dir) as [[|j jobs]|e] eqn:Hl;
      try apply keeps_scheduleNext, on_schedule_view.
    apply keeps_bind; [apply keeps_boot|]. intros _.
    apply keeps_bind; [apply keeps_jobs; [done|done|by intros; eapply Hdir]|]. intros earliest.
    apply keeps_scheduleNext, on_schedule_view. }
  specialize (Htick s0 Hs0).
  destruct (tick _ _ _ _ _ _ s0) as [[u|[msg|]] s'] eqn:Ht; cbn [snd] in Htick; try done.
  by apply keeps_scheduleNext; [apply on_schedule_view|].
Qed.

(** A crash of the process: a new scheduler over the same files. *)
Inductive LifeOp : Type :=
| Do (op : Op)
| Crash.

Definition life_step (m : Machine) (op : LifeOp) : Machine :=
  match op with
  | Do op => step DateTimeFormat parseYaml has_group m op
  | Crash => mkMachine (mkScheduler false None ∅ (disk (sched m)) (started (sched m))) false
  end.

Definition life_ok (op : LifeOp) : Prop := match op with Do op => op_ok op | Crash => True end.

Lemma life_step_on_schedule m op :
  life_ok op -> on_schedule (sched m) -> on_schedule (sched (life_step m op)).
Proof.
  intros Hop Hm. destruct op as [[|world dir nowMs|]|]; cbn [life_step step].
  - by apply keeps_scheduleNext; [apply on_schedule_view|].
  - destruct (hung m); [done|]. destruct (timer (sched m)); [|done].
    pose proof (keeps_wake world dir nowMs Hop (sched m) Hm) as Hk.
    by destruct (wake _ _ _ _ _ _ _) as [[u|[msg|]] s'].
  - by apply keeps_stop; [apply on_schedule_view|].
  - by eapply on_schedule_view; [|exact Hm].
Qed.
End follow.

(** Nothing is lost when every run returns. *)
Lemma follows_chain DateTimeFormat job a l b :
  follows DateTimeFormat job false a l b -> chain DateTimeFormat job a l /\ last_fire a l = b.
Proof.
  intros Hf. induction Hf as [a|a f l b Hadv Hf [IH1 IH2]|]; [done| |done].
  rewrite last_fire_cons. by split.
Qed.


(** A prompt job every five minutes in India, its child quick, and a command
    that is never answered. *)
Definition demo_yaml (source : string) : result string value :=
  if String.eqb source "five" then
    Ok (VObject [("schedule", VString "*/5 * * * *"); ("timezone", VString "Asia/Kolkata");
                 ("missed", VString "catchUp"); ("prompt", VString "hello");
                 ("runAtBoot", VBool true)])
  else Throw "bad yaml".

Definition demo_env : JobEnv :=
  mkJobEnv 0 [(0, yes VUndefined); (1, yes VUndefined); (2, yes VUndefined); (3, yes VUndefined);
              (4, yes VUndefined); (5, ChildEvent (delta_event "done"));
              (6, ChildEvent [("type", VString "agent_end")]); (7, Resume)] [] 10 false.

Definition demo_world : World := fun _ _ => demo_env.
Definition demo_dir : option Directory :=
  Some [("five.yml", Ok "five"); ("six.yml.example", Ok "junk")].

Definition demo_job : CronJob :=
  mkCronJob "five" "*/5 * * * *" "Asia/Kolkata" catchUp (Some "hello") None None true
    (mkCronSchedule (for_range 0 55 5) (for_range 0 23 1) (for_range 1 31 1) (for_range 1 12 1)
       (for_range 0 6 1)).

Definition demo_start : Machine :=
  mkMachine (mkScheduler false None ∅ (mkDisk ∅ ∅) []) false.

(** Anchored at 12:01 UTC, the job fires for 12:05 and 12:10 at 12:12, is
    restarted, and fires for 12:15. *)
Abbreviation demo_ops :=
  [Do Start; Do (Wake demo_world demo_dir 1772366460000); Do (Wake demo_world demo_dir 1772367120000);
   Crash; Do Start; Do (Wake demo_world demo_dir 1772367300000); Do Stop].

Lemma demo_ok op : op ∈ demo_ops -> life_ok zones demo_yaml true demo_job false op.
Proof.
  assert (forall now, 0 <= now -> op_ok zones demo_yaml true demo_job false (Wake demo_world demo_dir now)) as Hw.
  { intros now Hnow. split_and!; [done|right; by intros f; exists (mkRunResult ok "done" None None 7)|].
    assert (loadSchedules zones demo_yaml demo_dir = Ok [demo_job]) as -> by (vm_compute; reflexivity).
    by intros jobs j [= <-] ->%list_elem_of_singleton. }
  rewrite !elem_of_cons, elem_of_nil.
  intros [->|[->|[->|[->|[->|[->|[->|[]]]]]]]]; try exact I; by apply Hw.
Qed.


(** ** Waking in time *)

Section waking.
Context (DateTimeFormat : string -> option (WallFormat * OffsetFormat)).
Context (parseYaml : string -> result string value) (has_group : bool).

Definition unarmed (s : Scheduler) : Prop := timer s = None.

Lemma keeps_unarmed_stop : keeps unarmed stop.
Proof. by intros s. Qed.

Lemma keeps_unarmed_await job env : keeps unarmed (await_run has_group job env).
Proof.
  apply keeps_bind; [destruct (stop_called env); [apply keeps_unarmed_stop|auto with omp]|].
  intros _. destruct (runJobOnce has_group job env); auto with omp.
Qed.

Lemma keeps_unarmed_disk f : keeps unarmed (set_disk f).
Proof. by intros s. Qed.

Lemma keeps_unarmed_announce r : keeps unarmed (announce r).
Proof. by intros s. Qed.

#[local] Hint Resolve keeps_unarmed_await keeps_unarmed_disk keeps_unarmed_announce : omp.

Lemma keeps_unarmed_boot world nowMs jobs : keeps unarmed (boot_loop has_group world nowMs jobs).
Proof.
  induction jobs as [|j jobs IH]; cbn [boot_loop]; [auto with omp|].
  apply keeps_bind; [auto with omp|]. intros ran. apply keeps_bind; [|done].
  destruct (negb (runAtBoot j) || ran); [auto with omp|].
  apply keeps_bind; [by intros s|]. intros _. unfold runAtBootOnce.
  repeat (apply keeps_bind; [auto with omp|]; intros ?). auto with omp.
Qed.

Lemma keeps_unarmed_fires world job due : keeps unarmed (fire_loop has_group world job due).
Proof.
  induction due as [|f due IH]; cbn [fire_loop]; [auto with omp|].
  apply keeps_bind; [|done]. unfold fireOne.
  repeat (apply keeps_bind; [auto with omp|]; intros ?). auto with omp.
Qed.

Lemma keeps_unarmed_due world nowMs job : keeps unarmed (run_due DateTimeFormat has_group world nowMs job).
Proof.
  unfold run_due. apply keeps_bind; [auto with omp|]. intros [n|]; [|auto with omp].
  apply keeps_bind; [auto with omp|]. intros z. apply keeps_bind; [auto with omp|].
  intros due. apply keeps_unarmed_fires.
Qed.

Lemma keeps_unarmed_jobs world nowMs e jobs :
  keeps unarmed (job_loop DateTimeFormat has_group world nowMs e jobs).
Proof.
  revert e. induction jobs as [|j jobs IH]; intros e; cbn [job_loop]; [auto with omp|].
  apply keeps_bind; [apply keeps_unarmed_due|]. intros _. apply keeps_bind; [auto with omp|]. intros n. apply IH.
Qed.

(** [earliestNext] ends up the least next fire, after now. *)
Lemma job_loop_earliest world nowMs e0 jobs s e s' :
  (forall x, e0 = Some x -> nowMs < x) ->
  job_loop DateTimeFormat has_group world nowMs e0 jobs s = (Ok e, s') ->
  (forall x, e = Some x -> nowMs < x) /\
  (forall x, e0 = Some x -> exists y, e = Some y /\ y <= x) /\
  forall job, job ∈ jobs -> exists n y, next_run DateTimeFormat job nowMs = Ok n /\ e = Some y /\ y <= n.
Proof.
  revert e0 s. induction jobs as [|job jobs IH]; intros e0 s He0; cbn [job_loop].
  - intros [= <- <-]. split_and!; [done|intros x ->; by exists x|by intros job ?%elem_of_nil].
  - unfold cbind at 1. destruct (run_due _ _ _ _ _ s) as [[u|err] s1]; [|done].
    unfold cbind at 1. destruct (next_run DateTimeFormat job nowMs) as [n|err] eqn:Hn; [|done].
    cbn [lift cret]. intros Hrun. pose proof (next_run_later _ _ _ _ Hn) as Hlt.
    apply IH in Hrun as (Hgt & Hle & Hall).
    + destruct (Hle _ eq_refl) as (y & -> & Hy). split_and!; [done| |].
      * intros x Hx. exists y. split; [done|]. subst e0. destruct (Z.ltb_spec n x); lia.
      * intros j [->|Hj]%elem_of_cons; [|by apply Hall].
        exists n, y. split_and!; [done|done|]. destruct e0 as [x|]; [|done]. destruct (Z.ltb_spec n x); lia.
    + intros x [= <-]. destruct e0 as [x|]; [|done]. specialize (He0 x eq_refl). by case_match.
Qed.

(** Either the scheduler was stopped, and no timer is armed, or one is armed
    with the delay. *)
Definition rearmed (s : Scheduler) (P : Z -> Prop) : Prop :=
  if stopped s then timer s = None else exists d, timer s = Some d /\ P d.

Lemma scheduleNext_rearmed d s (P : Z -> Prop) :
  unarmed s -> P d -> rearmed (scheduleNext d s).2 P.
Proof.
  intros Hs Hd. unfold rearmed, scheduleNext. cbn [snd]. destruct (stopped s) eqn:Hst; [by rewrite Hst|].
  cbn [stopped timer]. eauto.
Qed.

(** The timer after a wake-up.  Unless the tick never ends, the timer is
    armed again, or the scheduler has been stopped, even in the middle of a run,
    and no timer is armed.  The delay is at most a minute, and after a tick that
    did not fail the scheduler wakes no later than the next fire of any job it
    loaded; a tick that threw is retried after a minute. *)
Theorem wake_rearms world dir nowMs s :
  match wake DateTimeFormat parseYaml has_group world dir nowMs s with
  | (Throw (Error _), _) => False
  | (Throw Hangs, s') => timer s' = None
  | (Ok _, s') => rearmed s' (fun d => 0 <= d <= 60000 /\
      (d = 60000 \/
       forall jobs job n, loadSchedules DateTimeFormat parseYaml dir = Ok jobs -> job ∈ jobs ->
         next_run DateTimeFormat job nowMs = Ok n -> nowMs + d <= n))
  end.
Proof.
  unfold wake. set (s0 := mkScheduler (stopped s) None (bootRan s) (disk s) (started s)).
  assert (unarmed s0) as H0 by done. clearbody s0. unfold tick, cbind at 1. cbn [gets].
  destruct (stopped s0) eqn:Hst; [unfold rearmed; simpl; by rewrite Hst|].
  destruct (loadSchedules DateTimeFormat parseYaml dir) as [[|j jobs]|e] eqn:Hl.
  - apply scheduleNext_rearmed; [done|]. split; [done|by left].
  - unfold cbind at 1. pose proof (keeps_unarmed_boot world nowMs (j :: jobs) s0 H0) as Hb.
    destruct (boot_loop has_group world nowMs (j :: jobs) s0) as [[u|[msg|]] s1]; cbn [snd] in Hb;
      [|by apply scheduleNext_rearmed; [|split; [done|by left]]|done].
    unfold cbind at 1. pose proof (keeps_unarmed_jobs world nowMs None (j :: jobs) s1 Hb) as Hj.
    destruct (job_loop DateTimeFormat has_group world nowMs None (j :: jobs) s1) as [[e|[msg|]] s2] eqn:Hrun;
      cbn [snd] in Hj; [|by apply scheduleNext_rearmed; [|split; [done|by left]]|done].
    apply job_loop_earliest in Hrun as (Hgt & _ & Hall); [|done].
    apply scheduleNext_rearmed; [done|]. unfold MAX_WAKE_MS.
    destruct (Hall j (list_elem_of_here _ _)) as (_ & y & _ & -> & _). specialize (Hgt y eq_refl).
    split; [lia|]. right. intros jobs' job n [= <-] Hin Hn.
    destruct (Hall job Hin) as (n' & y' & Hn' & [= <-] & Hy). rewrite Hn in Hn'. simplify_eq. lia.
  - apply scheduleNext_rearmed; [done|]. split; [done|]. right. by intros ? ? ? [=].
Qed.
End waking.

(** Three boundaries missed under the skip policy: only the last one fires. *)
Lemma due_fires_spec_witness :
  let job := mkCronJob "five" "*/5 * * * *" "Asia/Kolkata" skip (Some "hello") None None false
               (parsed demo_job) in
  computeDueFires zones job (Some 1772366460000) 1772367400000 = Ok [1772367300000] /\
  exists all f, all_due zones job 1772366460000 1772367400000 all (Ok f) /\ 1772367400000 < f /\
    [1772367300000] = match last all with Some l => [l] | None => [] end.
Proof.
  intros job.
  assert (computeDueFires zones job (Some 1772366460000) 1772367400000 = Ok [1772367300000]) as Hd
    by (vm_compute; reflexivity).
  split; [exact Hd|].
  pose proof (due_fires_spec zones job (Some 1772366460000) 1772367400000) as H.
  rewrite Hd in H. apply H. discriminate.
Defined.

(** ** Two behaviours on the record *)

(** [stop()] waits for the run in flight, but the tick goes on: called during the
    first of two due fires, it does not keep the second from starting. *)
Definition stop_world : World := fun _ f =>
  mkJobEnv 0 (prompt_inputs demo_env) [] 10 (bool_decide (f = 1772366700000)).

Example stop_leaves_tick_running :
  let m := run (step zones demo_yaml true) demo_start
             [Start; Wake demo_world demo_dir 1772366460000;
              Wake stop_world demo_dir 1772367120000] in
  (stopped (sched m), fires_of "five" (sched m)) = (true, [1772366700000; 1772367000000]).
Proof. vm_compute. reflexivity. Qed.

(** A job whose [nextRunAfter] throws ends the tick before the jobs after it:
    beside [a.yml], on 29 February only, the job [five] is never even anchored. *)
Definition starving_yaml (source : string) : result string value :=
  if String.eqb source "leap" then
    Ok (VObject [("schedule", VString "0 0 29 2 *"); ("missed", VString "skip");
                 ("command", VString "true"); ("timezone", VString "Asia/Kolkata")])
  else demo_yaml source.

Example bad_job_starves_others :
  let m := run (step zones starving_yaml true) demo_start
             [Start; Wake demo_world (Some [("a.yml", Ok "leap"); ("five.yml", Ok "five")]) 1772366460000;
              Wake demo_world (Some [("a.yml", Ok "leap"); ("five.yml", Ok "five")]) 1772367120000] in
  (timer (sched m), readLastRun (disk (sched m)) "five", fires_of "five" (sched m)) =
  (Some 60000, None, []).
Proof. vm_compute. reflexivity. Qed.
