(* ===== verification/Base64.v ===== *)
(** * Base64

    The alphabet, the shape that [BASE64_RE] accepts, and [Buffer]'s conversion
    in both directions, on bytes as numbers below 256. *)

From S2P Require Import Prelude JsString.
From Stdlib Require Import Ascii.
From stdpp Require Import options.
#[local] Open Scope Z_scope.

Definition b64_char (v : Z) : ascii :=
  ascii_of_N (Z.to_N (if v <? 26 then v + 65 else if v <? 52 then v + 71
                      else if v <? 62 then v - 4 else if v =? 62 then 43 else 47)).

Definition b64_value (c : ascii) : option Z :=
  let n := Z.of_N (N_of_ascii c) in
  if (65 <=? n) && (n <=? 90) then Some (n - 65)
  else if (97 <=? n) && (n <=? 122) then Some (n - 71)
  else if (48 <=? n) && (n <=? 57) then Some (n + 4)
  else if n =? 43 then Some 62
  else if n =? 47 then Some 63
  else None.

Definition is_pad (c : ascii) : bool := Ascii.eqb c "=".

(** The text is groups of four characters, the last one padded or not. *)
Fixpoint b64_decode (s : string) : option (list Z) :=
  match s with
  | EmptyString => Some []
  | String c1 (String c2 (String c3 (String c4 rest))) =>
      match b64_value c1, b64_value c2, b64_value c3, b64_value c4 with
      | Some a, Some b, Some c, Some d =>
          match b64_decode rest with
          | Some bytes =>
              Some (a * 4 + b / 16 :: (b mod 16) * 16 + c / 4 :: (c mod 4) * 64 + d :: bytes)
          | None => None
          end
      | Some a, Some b, Some c, None =>
          if is_pad c4 && is_empty rest
          then Some [a * 4 + b / 16; (b mod 16) * 16 + c / 4] else None
      | Some a, Some b, None, None =>
          if is_pad c3 && is_pad c4 && is_empty rest then Some [a * 4 + b / 16] else None
      | _, _, _, _ => None
      end
  | _ => None
  end.

Definition b64_pad : ascii := "="%char.

(** [bytes.toString("base64")] *)
Fixpoint b64_encode (bytes : list Z) : string :=
  match bytes with
  | [] => EmptyString
  | [a] => String (b64_char (a / 4)) (String (b64_char ((a mod 4) * 16))
             (String b64_pad (String b64_pad EmptyString)))
  | [a; b] => String (b64_char (a / 4)) (String (b64_char ((a mod 4) * 16 + b / 16))
                (String (b64_char ((b mod 16) * 4)) (String b64_pad EmptyString)))
  | a :: b :: c :: rest =>
      String (b64_char (a / 4)) (String (b64_char ((a mod 4) * 16 + b / 16))
        (String (b64_char ((b mod 16) * 4 + c / 64)) (String (b64_char (c mod 64)) (b64_encode rest))))
  end.

Definition is_byte (b : Z) : Prop := 0 <= b < 256.

Lemma b64_value_char v : 0 <= v < 64 -> b64_value (b64_char v) = Some v.
Proof.
  intros Hv.
  assert (forallb (fun n => bool_decide (b64_value (b64_char (Z.of_nat n)) = Some (Z.of_nat n)))
            (seq 0 64) = true) as Hall by (vm_compute; reflexivity).
  rewrite forallb_forall in Hall. specialize (Hall (Z.to_nat v)).
  rewrite bool_decide_eq_true, Z2Nat.id in Hall by lia. apply Hall, in_seq. lia.
Qed.

Lemma b64_value_range c v : b64_value c = Some v -> 0 <= v < 64.
Proof. unfold b64_value. repeat case_match; intros; bools; simplify_eq; lia. Qed.

Lemma b64_pad_value : b64_value b64_pad = None.
Proof. reflexivity. Qed.

Lemma length_b64_encode_nonempty bytes : bytes <> [] -> b64_encode bytes <> EmptyString.
Proof. by destruct bytes as [|a [|b [|c bytes]]]. Qed.

(** Decoding what was encoded. *)
Lemma b64_decode_encode bytes : Forall is_byte bytes -> b64_decode (b64_encode bytes) = Some bytes.
Proof.
  assert (forall n bytes, (length bytes <= n)%nat -> Forall is_byte bytes ->
    b64_decode (b64_encode bytes) = Some bytes) as H; [|eauto].
  clear bytes. induction n as [|n IH]; intros bytes Hn Hb.
  { by destruct bytes; [|simpl in Hn; lia]. }
  destruct bytes as [|a [|b [|c rest]]]; [done| | |]; rewrite ?Forall_cons in Hb;
    destruct_and?; unfold is_byte in *; cbn [b64_encode b64_decode].
  - rewrite !b64_value_char by (Z.to_euclidean_division_equations; lia).
    rewrite b64_pad_value. simpl. do 2 f_equal. Z.to_euclidean_division_equations. lia.
  - rewrite !b64_value_char by (Z.to_euclidean_division_equations; lia).
    rewrite b64_pad_value. simpl. do 2 f_equal; [|f_equal]; Z.to_euclidean_division_equations; lia.
  - rewrite !b64_value_char by (Z.to_euclidean_division_equations; lia).
    rewrite IH by (done || simpl in Hn; lia).
    do 2 f_equal; [|f_equal; [|f_equal]]; Z.to_euclidean_division_equations; lia.
Qed.
