(* ===== verification/RpcChild.v ===== *)
(** * The RPC child (src/packages/core/src/rpc-child.ts)

    One [omp --mode rpc] process: the start handshake and its registration, the
    line framing of stdout, the reassembly of chunked frames, the correlation of
    responses with commands, the reply to dialog requests, and shutdown.

    Each operation is one event the code reacts to.  [JSON.parse] and the UTF-8
    decoder are parameters; a line written to stdin is the value it encodes.  An
    [error] event nobody listens to is thrown, as [EventEmitter] does. *)

From S2P Require Import Prelude JsMap JsString JsValue Frames Base64.
From Stdlib Require Import QArith Qround.
From stdpp Require Import options pretty.
#[local] Open Scope Z_scope.

Definition DEFAULT_MAX_FRAME_BYTES : Z := 1024 * 1024.
Definition DEFAULT_MAX_REASSEMBLED_BYTES : Z := 64 * 1024 * 1024.
Definition CHUNK_PAYLOAD_BYTES : Z := 256 * 1024.

Record PendingChunks := mkPendingChunks {
  pc_count : Z;
  pc_byteLength : Z;
  nextIndex : Z;
  chunks : list (list Z);
  receivedBytes : Z
}.

(** A command waiting for its response: its promise and its name. *)
Record PendingResponse := mkPendingResponse { pr_promise : nat; pr_command : string }.

(** What the child object emits to its listeners. *)
Inductive Emitted : Type :=
| EmReady (frame : Frame)
| EmEvent (frame : Frame)
| EmOrphan (frame : Frame)
| EmParseError (line : string)
| EmError (message : string)
| EmExit.

Inductive Kill : Type := KillGroup | KillChild.

Inductive StartPhase : Type :=
| NotStarted
| Registering
| Started
| StartFailed (e : string).

Record RpcChild := mkRpcChild {
  child : bool;
  pgid : option Z;
  start_phase : StartPhase;
  (** the ready handshake: its listeners are attached *)
  awaiting_ready : bool;
  ready_promise : option (result string Frame);
  ready : option Frame;
  protocolVersion : Z;
  buffer : string;
  pendingChunks : list (string * PendingChunks);
  pendingResponses : list (string * PendingResponse);
  nextId : Z;
  closed : bool;
  registering : bool;
  exitDuringRegister : bool;
  (** the promises of [send], by number *)
  promises : list (option (result string Frame));
  stdin : list Frame;
  stdin_ended : bool;
  (** [close] waits for the exit with its kill timer armed *)
  closing : bool;
  kills : list Kill;
  (** is the child's entry in the registry of process groups *)
  in_registry : bool;
  emitted : list Emitted
}.

Definition new_RpcChild : RpcChild :=
  mkRpcChild false None NotStarted false None None 1 "" [] [] 1 false false false [] [] false false []
    false [].

Definition M (A : Type) : Type := comp RpcChild string A.
Definition gets {A} (f : RpcChild -> A) : M A := fun s => (Ok (f s), s).
Definition modify (f : RpcChild -> RpcChild) : M unit := fun s => (Ok tt, f s).

(** Field updates. *)
Definition set_buffer (b : string) (s : RpcChild) : RpcChild :=
  mkRpcChild (child s) (pgid s) (start_phase s) (awaiting_ready s) (ready_promise s) (ready s)
    (protocolVersion s) b (pendingChunks s) (pendingResponses s) (nextId s) (closed s)
    (registering s) (exitDuringRegister s) (promises s) (stdin s) (stdin_ended s) (closing s)
    (kills s) (in_registry s) (emitted s).

Definition set_chunks (c : list (string * PendingChunks)) (s : RpcChild) : RpcChild :=
  mkRpcChild (child s) (pgid s) (start_phase s) (awaiting_ready s) (ready_promise s) (ready s)
    (protocolVersion s) (buffer s) c (pendingResponses s) (nextId s) (closed s)
    (registering s) (exitDuringRegister s) (promises s) (stdin s) (stdin_ended s) (closing s)
    (kills s) (in_registry s) (emitted s).

Definition set_responses (p : list (string * PendingResponse))
    (ps : list (option (result string Frame))) (s : RpcChild) : RpcChild :=
  mkRpcChild (child s) (pgid s) (start_phase s) (awaiting_ready s) (ready_promise s) (ready s)
    (protocolVersion s) (buffer s) (pendingChunks s) p (nextId s) (closed s)
    (registering s) (exitDuringRegister s) ps (stdin s) (stdin_ended s) (closing s)
    (kills s) (in_registry s) (emitted s).

Definition set_ready (w : bool) (p : option (result string Frame)) (r : option Frame)
    (s : RpcChild) : RpcChild :=
  mkRpcChild (child s) (pgid s) (start_phase s) w p r
    (protocolVersion s) (buffer s) (pendingChunks s) (pendingResponses s) (nextId s) (closed s)
    (registering s) (exitDuringRegister s) (promises s) (stdin s) (stdin_ended s) (closing s)
    (kills s) (in_registry s) (emitted s).

Definition set_start (ph : StartPhase) (reg ex inreg : bool) (s : RpcChild) : RpcChild :=
  mkRpcChild (child s) (pgid s) ph (awaiting_ready s) (ready_promise s) (ready s)
    (protocolVersion s) (buffer s) (pendingChunks s) (pendingResponses s) (nextId s) (closed s)
    reg ex (promises s) (stdin s) (stdin_ended s) (closing s) (kills s) inreg (emitted s).

Definition set_closed (c cl ended : bool) (s : RpcChild) : RpcChild :=
  mkRpcChild (child s) (pgid s) (start_phase s) (awaiting_ready s) (ready_promise s) (ready s)
    (protocolVersion s) (buffer s) (pendingChunks s) (pendingResponses s) (nextId s) c
    (registering s) (exitDuringRegister s) (promises s) (stdin s) ended cl
    (kills s) (in_registry s) (emitted s).

Definition push (e : Emitted) (s : RpcChild) : RpcChild :=
  mkRpcChild (child s) (pgid s) (start_phase s) (awaiting_ready s) (ready_promise s) (ready s)
    (protocolVersion s) (buffer s) (pendingChunks s) (pendingResponses s) (nextId s) (closed s)
    (registering s) (exitDuringRegister s) (promises s) (stdin s) (stdin_ended s) (closing s)
    (kills s) (in_registry s) (emitted s ++ [e]).

Definition kill (s : RpcChild) : RpcChild :=
  mkRpcChild (child s) (pgid s) (start_phase s) (awaiting_ready s) (ready_promise s) (ready s)
    (protocolVersion s) (buffer s) (pendingChunks s) (pendingResponses s) (nextId s) (closed s)
    (registering s) (exitDuringRegister s) (promises s) (stdin s) (stdin_ended s) (closing s)
    (kills s ++ [match pgid s with Some _ => KillGroup | None => KillChild end])
    (in_registry s) (emitted s).

Definition write (frame : Frame) (s : RpcChild) : RpcChild :=
  mkRpcChild (child s) (pgid s) (start_phase s) (awaiting_ready s) (ready_promise s) (ready s)
    (protocolVersion s) (buffer s) (pendingChunks s) (pendingResponses s) (nextId s) (closed s)
    (registering s) (exitDuringRegister s) (promises s) (stdin s ++ [frame]) (stdin_ended s)
    (closing s) (kills s) (in_registry s) (emitted s).

Definition set_version (v : Z) (s : RpcChild) : RpcChild :=
  mkRpcChild (child s) (pgid s) (start_phase s) (awaiting_ready s) (ready_promise s) (ready s)
    v (buffer s) (pendingChunks s) (pendingResponses s) (nextId s) (closed s)
    (registering s) (exitDuringRegister s) (promises s) (stdin s) (stdin_ended s)
    (closing s) (kills s) (in_registry s) (emitted s).

Definition take_id (s : RpcChild) : RpcChild :=
  mkRpcChild (child s) (pgid s) (start_phase s) (awaiting_ready s) (ready_promise s) (ready s)
    (protocolVersion s) (buffer s) (pendingChunks s) (pendingResponses s) (nextId s + 1) (closed s)
    (registering s) (exitDuringRegister s) (promises s) (stdin s) (stdin_ended s)
    (closing s) (kills s) (in_registry s) (emitted s).

Definition spawn (p : option Z) (s : RpcChild) : RpcChild :=
  mkRpcChild true p (start_phase s) true (ready_promise s) (ready s)
    (protocolVersion s) (buffer s) (pendingChunks s) (pendingResponses s) (nextId s) (closed s)
    (registering s) (exitDuringRegister s) (promises s) (stdin s) (stdin_ended s)
    (closing s) (kills s) (in_registry s) (emitted s).

(** ** Operations *)

Definition DIALOG_METHODS : list string := ["select"; "confirm"; "input"; "editor"].

(** A property every object inherits is truthy under [DIALOG_METHODS[method]]. *)
Definition inherited : list string :=
  ["constructor"; "toString"; "toLocaleString"; "valueOf"; "hasOwnProperty"; "isPrototypeOf";
   "propertyIsEnumerable"; "__proto__"; "__defineGetter__"; "__defineSetter__";
   "__lookupGetter__"; "__lookupSetter__"].

Definition is_dialog (method : value) : bool :=
  match method with
  | VString m => bool_decide (m ∈ DIALOG_METHODS ++ inherited)
  | _ => false
  end.

Definition newline : Ascii.ascii := Ascii.ascii_of_N 10.

(** The line up to the first newline, and what follows it. *)
Fixpoint cut_line (s : string) : option (string * string) :=
  match s with
  | EmptyString => None
  | String c s =>
      if Ascii.eqb c newline then Some (EmptyString, s)
      else match cut_line s with
           | Some (l, rest) => Some (String c l, rest)
           | None => None
           end
  end.

Section rpc.
Context (parse_json : string -> option value) (decode_utf8 : list Z -> option string).
(** [registryPath] and [conversationKey] are set *)
Context (registry_configured : bool).
(** the owner listens to [error] events *)
Context (error_listener : bool).
(** [onExtensionUiRequest]: [None] is no handler, [Some] of it what it returns *)
Context (ui_handler : option (Frame -> option Frame)).

(** [cleanup(); readyReject(err)], when the handshake still listens. *)
Definition reject_ready (e : string) (s : RpcChild) : RpcChild :=
  if awaiting_ready s then set_ready false (Some (Throw e)) (ready s) s else s.

(** [this.emit("error", new Error(message))] *)
Definition emit_error (message : string) : M unit := fun s =>
  if awaiting_ready s || error_listener
  then (Ok tt, push (EmError message) (reject_ready message s))
  else (Throw message, s).

(** The promise of a command settles, unless it has. *)
Definition settle (p : nat) (r : result string Frame) (s : RpcChild) : RpcChild :=
  match promises s !! p with
  | Some None => set_responses (pendingResponses s) (<[p := Some r]> (promises s)) s
  | _ => s
  end.

Definition rejectAllPending (e : string) (s : RpcChild) : RpcChild :=
  let s := fold_left (fun s kp => settle (pr_promise kp.2) (Throw e) s) (pendingResponses s) s in
  set_responses [] (promises s) s.

Definition writeRaw (frame : Frame) : M unit := fun s =>
  if negb (child s) then (Throw "RpcChild not started", s)
  else if closed s then (Throw "RpcChild is closed", s)
  else (Ok tt, write frame s).

Definition sendRaw : Frame -> M unit := writeRaw.

(** [{ ...frame, id }] *)
Definition with_id (frame : Frame) (id : string) : Frame := jset "id" (VString id) frame.

Definition id_pending_error (id : string) : string :=
  ("omp rpc command id " +:+ quoted id +:+ " is already pending")%stdpp.

(** A promise that is rejected from the start. *)
Definition rejected (e : string) : M nat := fun s =>
  (Ok (length (promises s)),
   set_responses (pendingResponses s) (promises s ++ [Some (Throw e)]) s).

(** [typeof frame.id === "string" ? frame.id : String(this.nextId++)] *)
Definition command_id (frame : Frame) (s : RpcChild) : string * RpcChild :=
  match prop "id" frame with
  | VString id => (id, s)
  | _ => (pretty (nextId s), take_id s)
  end.

(** [send(frame)] of a command of type [command]; the result is its promise. *)
Definition send (command : string) (props : Frame) : M nat := fun s =>
  if negb (child s) then rejected "RpcChild not started" s
  else if closed s then rejected "RpcChild is closed" s
  else
    let frame := ("type", VString command) :: props in
    let '(id, s) := command_id frame s in
    if jhas id (pendingResponses s) then rejected (id_pending_error id) s
    else
      let p := length (promises s) in
      let s := set_responses (jset id (mkPendingResponse p command) (pendingResponses s))
                 (promises s ++ [None]) s in
      match writeRaw (with_id frame id) s with
      | (Ok _, s) => (Ok p, s)
      | (Throw e, s) =>
          (Ok p, settle p (Throw e) (set_responses (jdelete id (pendingResponses s)) (promises s) s))
      end.

(** [close()]: what it does before waiting for the exit. *)
Definition close (already_exited : bool) (s : RpcChild) : RpcChild :=
  if closed s then s
  else
    if negb (child s) then set_closed true (closing s) (stdin_ended s) s
    else set_closed true (negb already_exited) true
           (rejectAllPending "RpcChild closed" (set_closed true (closing s) (stdin_ended s) s)).

(** The kill timer of [close] expires. *)
Definition close_timeout (s : RpcChild) : RpcChild :=
  if closing s then set_closed (closed s) false (stdin_ended s) (kill s) else s.

(** The acknowledgement timer of a command expires. *)
Definition response_timeout (id : string) (s : RpcChild) : RpcChild :=
  match jget id (pendingResponses s) with
  | None => s
  | Some p =>
      close false (settle (pr_promise p)
        (Throw ("omp rpc command " +:+ quoted (pr_command p) +:+
                " timed out waiting for acknowledgement")%stdpp)
        (set_responses (jdelete id (pendingResponses s)) (promises s) s))
  end.

(** *** Frames *)

Definition cancel_frame (request : Frame) : Frame :=
  [("type", VString "extension_ui_response"); ("id", prop "id" request); ("cancelled", VBool true)].

Definition handleExtensionUiRequest (request : Frame) : M unit :=
  modify (push (EmEvent request)) ;?
  match match ui_handler with Some h => h request | None => None end with
  | Some response => sendRaw response
  | None => if is_dialog (prop "method" request) then sendRaw (cancel_frame request) else cret tt
  end.

Definition resolve_response (response : Frame) (s : RpcChild) : RpcChild :=
  match prop "id" response with
  | VString id =>
      match jget id (pendingResponses s) with
      | Some p =>
          settle (pr_promise p) (Ok response)
            (set_responses (jdelete id (pendingResponses s)) (promises s) s)
      | None => push (EmOrphan response) s
      end
  | _ => push (EmOrphan response) s
  end.

(** [this.ready = frame] and its listeners. *)
Definition take_ready (frame : Frame) (s : RpcChild) : RpcChild :=
  push (EmReady frame)
    (set_ready false (if awaiting_ready s then Some (Ok frame) else ready_promise s) (Some frame) s).

Definition processFrame (frame : Frame) : M unit :=
  let type := prop "type" frame in
  if is_string "ready" type then modify (take_ready frame)
  else if is_string "response" type then modify (resolve_response frame)
  else if is_string "extension_ui_request" type then handleExtensionUiRequest frame
  else modify (push (EmEvent frame)).

(** *** Chunks *)

(** A limit the ready frame may announce. *)
Definition ready_limit (name : string) (default : Z) (s : RpcChild) : number :=
  match ready s with
  | None => num_of_Z default
  | Some f => match prop name f with
              | VUndefined | VNull => num_of_Z default
              | v => JsValue.to_number v
              end
  end.

(** [Math.ceil(n / d)] *)
Definition num_ceil_div (n : number) (d : Z) : number :=
  match n with
  | Fin q => num_of_Z (Qceiling (q / inject_Z d))
  | n => n
  end.

(** [Number.isSafeInteger(v)], with the integer. *)
Definition safe_integer (v : value) : option Z :=
  match v with
  | VNumber n => if num_is_safe_integer n then Some (num_floor n) else None
  | _ => None
  end.

(** [emit("error", ...); return undefined] *)
Definition chunk_error (message : string) : M (option Frame) :=
  emit_error message ;? cret None.

Definition drop_chunks (chunkId : string) (s : RpcChild) : RpcChild :=
  set_chunks (jdelete chunkId (pendingChunks s)) s.

(** The same, after [this.pendingChunks.delete(chunkId)]: the error is emitted
    first, so a throw leaves the sequence in place. *)
Definition chunk_abort (chunkId message : string) : M (option Frame) :=
  emit_error message ;? modify (drop_chunks chunkId) ;? cret None.

(** The validated metadata of a chunk.  The numbers in parentheses of three of the
    error messages are left out. *)
Record ChunkMeta := mkChunkMeta { chunkId : string; index : Z; count : Z; byteLength : Z }.

Definition chunk_meta (chunk : Frame) (s : RpcChild) : result string ChunkMeta :=
  match prop "chunkId" chunk with
  | VString chunkId =>
      if is_empty chunkId || (128 <? String.length chunkId)%nat then Throw "invalid rpc_chunk chunkId"
      else
        match safe_integer (prop "index" chunk) with
        | None => Throw "invalid rpc_chunk index"
        | Some index =>
            if index <? 0 then Throw "invalid rpc_chunk index"
            else
              match safe_integer (prop "count" chunk) with
              | None => Throw "invalid rpc_chunk count"
              | Some count =>
                  if count <? 2 then Throw "invalid rpc_chunk count"
                  else if count <=? index then Throw "rpc_chunk index out of range"
                  else
                    let maxReassembled :=
                      ready_limit "maxReassembledFrameBytes" DEFAULT_MAX_REASSEMBLED_BYTES s in
                    if num_ltb (num_ceil_div maxReassembled CHUNK_PAYLOAD_BYTES) (num_of_Z count)
                    then Throw "rpc_chunk count exceeds maximum"
                    else
                      match safe_integer (prop "byteLength" chunk) with
                      | None => Throw "invalid rpc_chunk byteLength"
                      | Some byteLength =>
                          if byteLength <? 0 then Throw "invalid rpc_chunk byteLength"
                          else if num_ltb (num_of_Z byteLength)
                                    (ready_limit "maxFrameBytes" DEFAULT_MAX_FRAME_BYTES s)
                          then Throw "rpc_chunk byteLength must be >= maxFrameBytes"
                          else if num_ltb maxReassembled (num_of_Z byteLength)
                          then Throw "rpc_chunk byteLength exceeds maxReassembledFrameBytes"
                          else Ok (mkChunkMeta chunkId index count byteLength)
                      end
              end
        end
  | _ => Throw "invalid rpc_chunk chunkId"
  end.

(** The payload of a chunk: canonical, non-empty base64 within the limit. *)
Definition chunk_bytes (data : value) : result string (list Z) :=
  match data with
  | VString d =>
      if is_empty d then Throw "invalid rpc_chunk base64 data"
      else
        match b64_decode d with
        | None => Throw "invalid rpc_chunk base64 data"
        | Some bytes =>
            if negb (String.eqb (b64_encode bytes) d)
            then Throw "rpc_chunk base64 round-trip mismatch"
            else if CHUNK_PAYLOAD_BYTES <? Z.of_nat (length bytes)
            then Throw "rpc_chunk payload exceeds transport limit"
            else Ok bytes
        end
  | _ => Throw "invalid rpc_chunk base64 data"
  end.

Definition put_chunks (id : string) (p : PendingChunks) (s : RpcChild) : RpcChild :=
  set_chunks (jset id p (pendingChunks s)) s.

(** The frame of the concatenated chunks. *)
Definition decode_frame (bytes : list Z) : result string Frame :=
  match decode_utf8 bytes with
  | None => Throw "failed to parse reassembled frame"
  | Some text =>
      match parse_json text with
      | None => Throw "failed to parse reassembled frame"
      | Some v => match as_object v with
                  | None => Throw "reassembled frame is not an object"
                  | Some f => Ok f
                  end
      end
  end.

(** The payload joins its sequence. *)
Definition accumulate (m : ChunkMeta) (pending : PendingChunks) (data : value) : M (option Frame) :=
  match chunk_bytes data with
  | Throw e => chunk_abort (chunkId m) e
  | Ok bytes =>
      let received := receivedBytes pending + Z.of_nat (length bytes) in
      if pc_byteLength pending <? received then
        (* the counter of the pending object has already been raised *)
        modify (put_chunks (chunkId m) (mkPendingChunks (pc_count pending) (pc_byteLength pending)
                  (nextIndex pending) (chunks pending) received)) ;?
        chunk_abort (chunkId m) "rpc_chunk accumulated bytes exceed declared byteLength"
      else
        let pending := mkPendingChunks (pc_count pending) (pc_byteLength pending)
                         (nextIndex pending + 1) (chunks pending ++ [bytes]) received in
        modify (put_chunks (chunkId m) pending) ;?
        if nextIndex pending <? pc_count pending then cret None
        else if negb (received =? pc_byteLength pending)
        then chunk_abort (chunkId m) "rpc_chunk length mismatch"
        else
          modify (drop_chunks (chunkId m)) ;?
          match decode_frame (concat (chunks pending)) with
          | Throw e => chunk_error e
          | Ok f => cret (Some f)
          end
  end.

Definition processChunk (chunk : Frame) : M (option Frame) :=
  s <-? gets (fun s => s);
  if protocolVersion s <? 2 then chunk_error "rpc_chunk received before v2 negotiation"
  else
    match chunk_meta chunk s with
    | Throw e => chunk_error e
    | Ok m =>
        match jget (chunkId m) (pendingChunks s) with
        | None =>
            if negb (index m =? 0) then chunk_error "rpc_chunk sequence must start at index 0"
            else
              let pending := mkPendingChunks (count m) (byteLength m) 0 [] 0 in
              modify (put_chunks (chunkId m) pending) ;?
              accumulate m pending (prop "data" chunk)
        | Some pending =>
            if negb ((pc_count pending =? count m) && (pc_byteLength pending =? byteLength m) &&
                     (nextIndex pending =? index m))
            then chunk_abort (chunkId m) "rpc_chunk sequence mismatch"
            else accumulate m pending (prop "data" chunk)
        end
    end.

(** *** Lines *)

Definition process_value (parsed : value) : M unit :=
  match as_object parsed with
  | None => cret tt
  | Some frame =>
      if is_string "rpc_chunk" (prop "type" frame) then
        reassembled <-? processChunk frame;
        match reassembled with
        | Some f => processFrame f
        | None => cret tt
        end
      else processFrame frame
  end.

Definition processLine (line : string) : M unit :=
  match parse_json line with
  | None => modify (push (EmParseError line))
  | Some v => process_value v
  end.

(** The [while] loop: every round takes a line off the buffer, so its length is
    fuel enough.  An exception leaves the rest of the buffer for later. *)
Fixpoint drain (fuel : nat) : M unit := fun s =>
  match fuel with
  | O => (Ok tt, s)
  | S fuel =>
      match cut_line (buffer s) with
      | None => (Ok tt, s)
      | Some (l, rest) =>
          let s := set_buffer rest s in
          let line := trim l in
          if is_empty line then drain fuel s
          else (processLine line ;? drain fuel) s
      end
  end.

Definition onStdoutData (data : string) : M unit := fun s =>
  let s := set_buffer (buffer s +:+ data)%stdpp s in
  drain (S (String.length (buffer s))) s.

(** *** Lifecycle *)

(** [start()], to its first [await]; a second call throws. *)
Definition start (spawned_pid : option Z) : M unit := fun s =>
  if child s then (Throw "RpcChild already started", s)
  else if closed s then (Throw "RpcChild is closed", s)
  else
    let s := spawn spawned_pid s in
    let registers := registry_configured && bool_decide (is_Some spawned_pid) in
    (Ok tt, set_start Registering registers (exitDuringRegister s) (in_registry s) s).

(** [registerPgid()] settles, and [start] goes on. *)
Definition registered (r : result string unit) (s : RpcChild) : RpcChild :=
  match start_phase s with
  | Registering =>
      match r with
      | Throw e =>
          if registering s then
            kill (set_start (StartFailed e) false (exitDuringRegister s) (in_registry s)
              (set_ready false (ready_promise s) (ready s) s))
          else s
      | Ok _ =>
          set_start Started false (exitDuringRegister s)
            (registering s && negb (exitDuringRegister s)) s
      end
  | _ => s
  end.

Definition ready_timeout (s : RpcChild) : RpcChild :=
  if awaiting_ready s
  then kill (set_ready false (Some (Throw "omp rpc child timed out waiting for ready frame")) (ready s) s)
  else s.

(** What [start()] returned. *)
Definition start_result (s : RpcChild) : option (result string Frame) :=
  match start_phase s with
  | StartFailed e => Some (Throw e)
  | Started => ready_promise s
  | _ => None
  end.

(** [child.on("error")]: a throw skips the rejections. *)
Definition on_child_error (e : string) : M unit :=
  emit_error e ;? modify (rejectAllPending e).

Definition exit_text (detail : string) : string :=
  ("omp rpc child exited (" +:+ detail +:+ ")")%stdpp.

(** [child.on("exit")] *)
Definition on_exit (detail : string) (s : RpcChild) : RpcChild :=
  let s := push EmExit
    (set_closed (closed s) false (stdin_ended s)
      (reject_ready ("omp rpc child exited before ready (" +:+ detail +:+ ")")%stdpp s)) in
  let s := if registering s
           then set_start (start_phase s) (registering s) true (in_registry s) s
           else set_start (start_phase s) (registering s) (exitDuringRegister s) false s in
  if closed s then s
  else rejectAllPending (exit_text detail) (set_closed true (closing s) (stdin_ended s) s).

(** The typed command helpers; an absent option is [None]. *)
Definition negotiateProtocolV2 : M nat :=
  send "negotiate_protocol" [("protocolVersion", VNumber (num_of_Z 2))].

Definition getState : M nat := send "get_state" [].

Definition prompt (message : string) (images : option value) (streamingBehavior : option string) : M nat :=
  send "prompt" (("message", VString message) ::
    match images with Some i => [("images", i)] | None => [] end ++
    match streamingBehavior with Some b => [("streamingBehavior", VString b)] | None => [] end).

Definition abort : M nat := send "abort" [].

Definition bash (command : string) : M nat := send "bash" [("command", VString command)].

Definition abortBash : M unit := sendRaw [("type", VString "abort_bash")].

Definition switchSession (sessionPath : string) : M nat :=
  send "switch_session" [("sessionPath", VString sessionPath)].

(** An empty parent is falsy, and left out. *)
Definition newSession (parentSession : option string) : M nat :=
  send "new_session"
    match parentSession with
    | Some p => if is_empty p then [] else [("parentSession", VString p)]
    | None => []
    end.

Definition getMessages : M nat := send "get_messages" [].

(** The continuation of [negotiateProtocolV2] after its response; its result is
    what the promise settles with. *)
Definition negotiated (r : result string Frame) : M unit :=
  match r with
  | Throw e => cthrow e
  | Ok res =>
      if truthy (prop "success" res) then modify (set_version 2)
      else cthrow ("negotiate_protocol v2 failed: " +:+
                   default "unknown" (as_string (prop "error" res)))%stdpp
  end.

Inductive Op : Type :=
| Start (spawned_pid : option Z)
| Registered (r : result string unit)
| ReadyTimeout
| Stdout (data : string)
| Send (command : string) (props : Frame)
| SendRaw (frame : Frame)
| ResponseTimeout (id : string)
| Negotiated (p : nat)
| ChildError (e : string)
| Exit (detail : string)
| Close (already_exited : bool)
| CloseTimeout.

(** One event; an exception goes to the caller, or is uncaught. *)
Definition exec (op : Op) : M unit :=
  match op with
  | Start p => start p
  | Registered r => modify (registered r)
  | ReadyTimeout => modify ready_timeout
  | Stdout data => onStdoutData data
  | Send command props => _ <-? send command props; cret tt
  | SendRaw frame => sendRaw frame
  | ResponseTimeout id => modify (response_timeout id)
  | Negotiated p =>
      s <-? gets (fun s => s);
      match promises s !! p with
      | Some (Some r) => negotiated r
      | _ => cret tt
      end
  | ChildError e => on_child_error e
  | Exit detail => modify (on_exit detail)
  | Close b => modify (close b)
  | CloseTimeout => modify close_timeout
  end.

Definition step (s : RpcChild) (op : Op) : RpcChild := (exec op s).2.
End rpc.

(** ** Line framing *)

Lemma set_buffer_same s : set_buffer (buffer s) s = s.
Proof. by destruct s. Qed.

Lemma set_buffer_twice x y s : set_buffer x (set_buffer y s) = set_buffer x s.
Proof. done. Qed.

Lemma cut_line_app s b l rest :
  cut_line s = Some (l, rest) -> cut_line (s +:+ b)%stdpp = Some (l, (rest +:+ b)%stdpp).
Proof.
  revert l rest. induction s as [|c s IH]; intros l rest; rewrite ?append_cons; simpl; [done|].
  destruct (Ascii.eqb c newline); [by intros [= <- <-]|].
  destruct (cut_line s) as [[l' rest']|]; [|done]. intros [= <- <-]. by rewrite (IH l' rest').
Qed.

Lemma cut_line_shorter s l rest :
  cut_line s = Some (l, rest) -> (String.length rest < String.length s)%nat.
Proof.
  revert l rest. induction s as [|c s IH]; intros l rest; simpl; [done|].
  destruct (Ascii.eqb c newline); [intros [= <- <-]; lia|].
  destruct (cut_line s) as [[l' rest']|]; [|done]. intros [= <- <-]. specialize (IH l' rest' eq_refl). lia.
Qed.

(** An operation that neither reads nor writes the line buffer. *)
Definition buffer_free {A} (m : M A) : Prop :=
  forall x s, m (set_buffer x s) = ((m s).1, set_buffer x (m s).2).

Lemma buffer_free_ret {A} (a : A) : buffer_free (cret a).
Proof. done. Qed.

Lemma buffer_free_bind {A B} (m : M A) (k : A -> M B) :
  buffer_free m -> (forall a, buffer_free (k a)) -> buffer_free (cbind m k).
Proof.
  intros Hm Hk x s. unfold cbind. rewrite Hm. destruct (m s) as [[a|e] s']; simpl; [apply Hk|done].
Qed.

Lemma buffer_free_modify f :
  (forall x s, f (set_buffer x s) = set_buffer x (f s)) -> buffer_free (modify f).
Proof. intros Hf x s. unfold modify. simpl. by rewrite Hf. Qed.

Lemma buffer_free_kept {A} (m : M A) s : buffer_free m -> buffer (m s).2 = buffer s.
Proof.
  intros Hm. pose proof (Hm (buffer s) s) as H. rewrite set_buffer_same in H.
  apply (f_equal snd) in H. simpl in H. by rewrite H.
Qed.

#[export] Hint Resolve @buffer_free_ret @buffer_free_bind @buffer_free_modify : omp.

Section framing.
Context (parse_json : string -> option value) (decode_utf8 : list Z -> option string).
Context (error_listener : bool) (ui_handler : option (Frame -> option Frame)).

Abbreviation processLine := (processLine parse_json decode_utf8 error_listener ui_handler).
Abbreviation drain := (drain parse_json decode_utf8 error_listener ui_handler).
Abbreviation onStdoutData := (onStdoutData parse_json decode_utf8 error_listener ui_handler).

Lemma buffer_free_error msg : buffer_free (emit_error error_listener msg).
Proof.
  intros x s. unfold emit_error, reject_ready. simpl. destruct (awaiting_ready s); simpl; [done|].
  by destruct error_listener.
Qed.

Lemma buffer_free_chunk_error msg : buffer_free (chunk_error error_listener msg).
Proof. apply buffer_free_bind; [apply buffer_free_error|auto with omp]. Qed.

Lemma buffer_free_abort id msg : buffer_free (chunk_abort error_listener id msg).
Proof.
  apply buffer_free_bind; [apply buffer_free_error|]. intros _.
  apply buffer_free_bind; [by apply buffer_free_modify|auto with omp].
Qed.

#[local] Hint Resolve buffer_free_error buffer_free_chunk_error buffer_free_abort : omp.

Lemma buffer_free_writeRaw frame : buffer_free (writeRaw frame).
Proof. intros x s. unfold writeRaw. simpl. destruct (child s), (closed s); done. Qed.

Lemma settle_set_buffer p r x s : settle p r (set_buffer x s) = set_buffer x (settle p r s).
Proof. unfold settle. simpl. by destruct (promises s !! p) as [[]|]. Qed.

Lemma buffer_free_processFrame f : buffer_free (processFrame ui_handler f).
Proof.
  unfold processFrame. case_match; [|case_match; [|case_match]].
  - by apply buffer_free_modify.
  - apply buffer_free_modify. intros x s. unfold resolve_response. simpl.
    destruct (prop "id" f); try done. destruct (jget s0 (pendingResponses s)); [|done].
    apply (settle_set_buffer _ _ x (set_responses _ _ s)).
  - unfold handleExtensionUiRequest. apply buffer_free_bind; [by apply buffer_free_modify|]. intros _.
    repeat case_match; auto using buffer_free_writeRaw with omp.
  - by apply buffer_free_modify.
Qed.

Lemma buffer_free_accumulate m p d :
  buffer_free (accumulate parse_json decode_utf8 error_listener m p d).
Proof.
  unfold accumulate. destruct (chunk_bytes d) as [bytes|e]; [|auto with omp].
  case_match.
  - apply buffer_free_bind; [by apply buffer_free_modify|auto with omp].
  - apply buffer_free_bind; [by apply buffer_free_modify|]. intros _.
    case_match; [auto with omp|]. case_match; [auto with omp|].
    apply buffer_free_bind; [by apply buffer_free_modify|]. intros _.
    destruct (decode_frame _ _ _); auto with omp.
Qed.

Lemma buffer_free_processChunk c :
  buffer_free (processChunk parse_json decode_utf8 error_listener c).
Proof.
  intros x s. unfold processChunk, cbind, gets.
  change (protocolVersion (set_buffer x s)) with (protocolVersion s).
  change (chunk_meta c (set_buffer x s)) with (chunk_meta c s).
  change (pendingChunks (set_buffer x s)) with (pendingChunks s).
  destruct (protocolVersion s <? 2); [apply buffer_free_chunk_error|].
  destruct (chunk_meta c s) as [m|e]; [|apply buffer_free_chunk_error].
  destruct (jget (chunkId m) (pendingChunks s)) as [p|].
  - case_match; [apply buffer_free_abort|apply buffer_free_accumulate].
  - case_match; [apply buffer_free_chunk_error|].
    apply (buffer_free_accumulate _ _ _ x (put_chunks _ _ s)).
Qed.

Lemma buffer_free_processLine l : buffer_free (processLine l).
Proof.
  unfold RpcChild.processLine. destruct (parse_json l) as [v|]; [|by apply buffer_free_modify].
  unfold process_value. destruct (as_object v) as [f|]; [|auto with omp].
  case_match; [|apply buffer_free_processFrame].
  apply buffer_free_bind; [apply buffer_free_processChunk|].
  intros [f'|]; [apply buffer_free_processFrame|auto with omp].
Qed.

(** How much fuel the loop has does not matter once it is enough. *)
Lemma drain_fuel n1 n2 s :
  (String.length (buffer s) < n1)%nat -> (String.length (buffer s) < n2)%nat ->
  drain n1 s = drain n2 s.
Proof.
  revert n2 s. induction n1 as [|n1 IH]; intros [|n2] s H1 H2; try lia. cbn [RpcChild.drain].
  destruct (cut_line (buffer s)) as [[l rest]|] eqn:Hc; [|done].
  apply cut_line_shorter in Hc. destruct (is_empty (trim l)); [apply IH; simpl; lia|].
  unfold cbind.
  pose proof (buffer_free_kept _ (set_buffer rest s) (buffer_free_processLine (trim l))) as Hk.
  destruct (processLine (trim l) (set_buffer rest s)) as [[u|e] s']; [|done].
  simpl in Hk. apply IH; rewrite Hk; lia.
Qed.

Lemma drain_le n s : (String.length (buffer (drain n s).2) <= String.length (buffer s))%nat.
Proof.
  revert s. induction n as [|n IH]; intros s; cbn [RpcChild.drain]; [done|].
  destruct (cut_line (buffer s)) as [[l rest]|] eqn:Hc; [|done]. apply cut_line_shorter in Hc.
  destruct (is_empty (trim l)); [specialize (IH (set_buffer rest s)); simpl in IH; lia|]. unfold cbind.
  pose proof (buffer_free_kept _ (set_buffer rest s) (buffer_free_processLine (trim l))) as Hk.
  destruct (processLine (trim l) (set_buffer rest s)) as [[u|e] s']; simpl in *; [|rewrite Hk; lia].
  specialize (IH s'). rewrite Hk in IH. lia.
Qed.

Lemma drain_app n m m' s b :
  (String.length (buffer s) < n)%nat -> (String.length (buffer s +:+ b)%stdpp < m)%nat ->
  (String.length (buffer s +:+ b)%stdpp < m')%nat ->
  drain m (set_buffer (buffer s +:+ b)%stdpp s) =
    match drain n s with
    | (Ok _, s1) => drain m' (set_buffer (buffer s1 +:+ b)%stdpp s1)
    | (Throw e, s1) => (Throw e, set_buffer (buffer s1 +:+ b)%stdpp s1)
    end.
Proof.
  revert m s. induction n as [|n IH]; intros m s Hn Hm Hm'; [lia|].
  destruct m as [|m]; [lia|]. cbn [RpcChild.drain].
  destruct (cut_line (buffer s)) as [[l rest]|] eqn:Hc.
  - assert (cut_line (buffer s +:+ b)%stdpp = Some (l, (rest +:+ b)%stdpp)) as Hc' by by apply cut_line_app.
    change (buffer (set_buffer (buffer s +:+ b)%stdpp s)) with (buffer s +:+ b)%stdpp. rewrite Hc'.
    apply cut_line_shorter in Hc. apply cut_line_shorter in Hc'.
    rewrite set_buffer_twice. destruct (is_empty (trim l)).
    + apply (IH m (set_buffer rest s)); simpl; lia.
    + unfold cbind. rewrite <- (set_buffer_twice (rest +:+ b)%stdpp rest s), buffer_free_processLine.
      pose proof (buffer_free_kept _ (set_buffer rest s) (buffer_free_processLine (trim l))) as Hk.
      destruct (processLine (trim l) (set_buffer rest s)) as [[u|e] s1]; simpl in *; rewrite <- Hk in *; [|done].
      apply IH; lia.
  - symmetry. apply (drain_fuel m' (S m)); simpl; lia.
Qed.

Lemma cut_line_none a b : cut_line a = None -> cut_line b = None -> cut_line (a +:+ b)%stdpp = None.
Proof.
  intros Ha Hb. induction a as [|c a IH]; [done|]. rewrite append_cons. simpl in *.
  destruct (Ascii.eqb c newline); [done|]. destruct (cut_line a) as [[]|]; [done|]. by rewrite IH.
Qed.

(** The loop ends with an unfinished line in the buffer. *)
Lemma drain_ends n s u s' :
  (String.length (buffer s) < n)%nat -> drain n s = (Ok u, s') -> cut_line (buffer s') = None.
Proof.
  revert s. induction n as [|n IH]; intros s Hn; [lia|]. cbn [RpcChild.drain].
  destruct (cut_line (buffer s)) as [[l rest]|] eqn:Hc; [|by intros [= _ <-]].
  apply cut_line_shorter in Hc. destruct (is_empty (trim l)); [apply IH; simpl; lia|]. unfold cbind.
  pose proof (buffer_free_kept _ (set_buffer rest s) (buffer_free_processLine (trim l))) as Hk.
  destruct (processLine (trim l) (set_buffer rest s)) as [[u'|e] s1]; [|done]. simpl in Hk.
  apply IH. rewrite Hk. lia.
Qed.

(** Two reads with nothing in between are one. *)
Lemma onStdoutData_app a b s :
  onStdoutData (a +:+ b)%stdpp s =
    match onStdoutData a s with
    | (Ok _, s1) => onStdoutData b s1
    | (Throw e, s1) => (Throw e, set_buffer (buffer s1 +:+ b)%stdpp s1)
    end.
Proof.
  unfold RpcChild.onStdoutData.
  change (buffer (set_buffer (buffer s +:+ a +:+ b)%stdpp s)) with (buffer s +:+ a +:+ b)%stdpp.
  change (buffer (set_buffer (buffer s +:+ a)%stdpp s)) with (buffer s +:+ a)%stdpp.
  rewrite <- append_assoc.
  pose proof (drain_app (S (String.length (buffer s +:+ a)%stdpp))
    (S (String.length ((buffer s +:+ a) +:+ b)%stdpp)) (S (String.length ((buffer s +:+ a) +:+ b)%stdpp))
    (set_buffer (buffer s +:+ a)%stdpp s) b) as H.
  cbn [buffer set_buffer] in H. rewrite set_buffer_twice in H. rewrite H by lia.
  pose proof (drain_le (S (String.length (buffer s +:+ a)%stdpp)) (set_buffer (buffer s +:+ a)%stdpp s)) as Hle.
  destruct (drain _ (set_buffer (buffer s +:+ a)%stdpp s)) as [[u|e] s1]; [|done].
  simpl in Hle. apply drain_fuel; simpl; rewrite ?length_append in *; lia.
Qed.

(** The beginning of a line only waits in the buffer. *)
Lemma onStdoutData_partial a p s :
  cut_line p = None ->
  onStdoutData (a +:+ p)%stdpp s =
    ((onStdoutData a s).1, set_buffer (buffer (onStdoutData a s).2 +:+ p)%stdpp (onStdoutData a s).2).
Proof.
  intros Hp. rewrite onStdoutData_app. destruct (onStdoutData a s) as [[[]|e] s1] eqn:Ha; [|done].
  apply drain_ends in Ha; [|simpl; lia]. unfold RpcChild.onStdoutData. cbn [buffer set_buffer RpcChild.drain].
  by rewrite (cut_line_none _ _ Ha Hp).
Qed.

(** What the code does between two reads leaves the line buffer alone. *)
Definition not_a_read (op : Op) : Prop := match op with Stdout _ => False | _ => True end.

Lemma rejectAllPending_set_buffer e x s :
  rejectAllPending e (set_buffer x s) = set_buffer x (rejectAllPending e s).
Proof.
  unfold rejectAllPending. change (pendingResponses (set_buffer x s)) with (pendingResponses s).
  assert (forall (l : list (string * PendingResponse)) s,
    fold_left (fun s kp => settle (pr_promise kp.2) (Throw e) s) l (set_buffer x s) =
    set_buffer x (fold_left (fun s kp => settle (pr_promise kp.2) (Throw e) s) l s)) as ->; [|done].
  clear. induction l as [|kp l IH]; intros s; [done|]. cbn [fold_left].
  by rewrite settle_set_buffer, IH.
Qed.

Lemma close_set_buffer b x s : close b (set_buffer x s) = set_buffer x (close b s).
Proof.
  unfold close. change (closed (set_buffer x s)) with (closed s).
  change (child (set_buffer x s)) with (child s). destruct (closed s); [done|].
  destruct (child s); [|done]. cbn [negb].
  change (set_closed true (closing (set_buffer x s)) (stdin_ended (set_buffer x s)) (set_buffer x s))
    with (set_buffer x (set_closed true (closing s) (stdin_ended s) s)).
  by rewrite rejectAllPending_set_buffer.
Qed.

Lemma buffer_free_send c ps : buffer_free (send c ps).
Proof.
  intros x s. unfold send. change (child (set_buffer x s)) with (child s).
  change (closed (set_buffer x s)) with (closed s). destruct (child s); [|done].
  destruct (closed s); [done|]. cbn [negb].
  assert (command_id (("type", VString c) :: ps) (set_buffer x s) =
    ((command_id (("type", VString c) :: ps) s).1, set_buffer x (command_id (("type", VString c) :: ps) s).2))
    as -> by (unfold command_id; by destruct (prop "id" (("type", VString c) :: ps))).
  destruct (command_id _ s) as [id s1]. cbn [fst snd].
  change (pendingResponses (set_buffer x s1)) with (pendingResponses s1).
  destruct (jhas id (pendingResponses s1)); [done|].
  set (s2 := set_responses _ _ s1).
  change (set_responses _ (promises (set_buffer x s1) ++ [None]) (set_buffer x s1)) with (set_buffer x s2).
  rewrite buffer_free_writeRaw. destruct (writeRaw _ s2) as [[u|e] s3]; [done|]. cbn [fst snd].
  f_equal. apply (settle_set_buffer _ _ x (set_responses _ _ s3)).
Qed.

Lemma buffer_free_exec registry op :
  not_a_read op -> buffer_free (exec parse_json decode_utf8 registry error_listener ui_handler op).
Proof.
  destruct op as [p|r| |d|c ps|f|id|p|e|detail|b|]; cbn [exec not_a_read]; intros Hop; [..|].
  - intros x s. unfold start. simpl. by destruct (child s), (closed s).
  - apply buffer_free_modify. intros x s. unfold registered. simpl.
    destruct (start_phase s); try done. destruct r; [done|]. by destruct (registering s).
  - apply buffer_free_modify. intros x s. unfold ready_timeout. simpl. by destruct (awaiting_ready s).
  - done.
  - apply buffer_free_bind; [apply buffer_free_send|auto with omp].
  - apply buffer_free_writeRaw.
  - apply buffer_free_modify. intros x s. unfold response_timeout. simpl.
    destruct (jget id (pendingResponses s)); [|done].
    by rewrite <- close_set_buffer, <- settle_set_buffer.
  - intros x s. unfold cbind, gets. simpl. destruct (promises s !! p) as [[[f|e]|]|]; try done.
    unfold negotiated. by destruct (truthy (prop "success" f)).
  - apply buffer_free_bind; [apply buffer_free_error|]. intros _. apply buffer_free_modify.
    apply rejectAllPending_set_buffer.
  - apply buffer_free_modify. intros x s. unfold on_exit, reject_ready. simpl.
    set (s1 := push EmExit _).
    destruct (awaiting_ready s), (registering s) eqn:Hr, (closed s) eqn:Hc; simpl; rewrite ?Hr, ?Hc; simpl;
      rewrite ?Hc; try done; rewrite <- rejectAllPending_set_buffer; done.
  - apply buffer_free_modify. intros x s. apply close_set_buffer.
  - apply buffer_free_modify. intros x s. unfold close_timeout. simpl. by destruct (closing s).
Qed.

(** Nothing the code does between the reads sees the buffer. *)
Lemma run_set_buffer registry ops x s :
  Forall not_a_read ops ->
  let step := RpcChild.step parse_json decode_utf8 registry error_listener ui_handler in
  run step (set_buffer x s) ops = set_buffer x (run step s ops) /\
  buffer (run step s ops) = buffer s.
Proof.
  intros Hops step. revert s. induction Hops as [|op ops Hop Hops IH]; intros s; [done|].
  rewrite !run_cons. pose proof (buffer_free_exec registry op Hop) as Hfree.
  assert (step (set_buffer x s) op = set_buffer x (step s op)) as ->
    by (unfold step, RpcChild.step; by rewrite Hfree).
  destruct (IH (step s op)) as [-> ->]. split; [done|]. by apply buffer_free_kept.
Qed.

(** C27: Where the pipe cuts a line does not matter.  When the end [p] of a read
    is the beginning of a line, the child object does the same as if [p] had come
    with the next read, whatever else it does between the two -- commands,
    timers, settled promises, the exit, [close]: the same frames are processed,
    the same bytes are written, the same state is left, also when a listener
    throws out of a read.  And with nothing in between two reads are one read of
    their concatenation.  (How many whole lines a read carries can matter to what
    runs in between: see [chunk_with_response_refused].) *)
Theorem stdout_split_invariant registry a p b ops s :
  cut_line p = None -> Forall not_a_read ops ->
  let step := RpcChild.step parse_json decode_utf8 registry error_listener ui_handler in
  run step s (Stdout (a +:+ p)%stdpp :: ops ++ [Stdout b]) =
    run step s (Stdout a :: ops ++ [Stdout (p +:+ b)%stdpp]) /\
  onStdoutData (a +:+ b)%stdpp s =
    match onStdoutData a s with
    | (Ok _, s1) => onStdoutData b s1
    | (Throw e, s1) => (Throw e, set_buffer (buffer s1 +:+ b)%stdpp s1)
    end.
Proof.
  intros Hp Hops step. split; [|apply onStdoutData_app].
  assert (forall d s, step s (Stdout d) = (onStdoutData d s).2) as Hread by done.
  rewrite !run_cons, !run_app, !Hread, (onStdoutData_partial a p s Hp). cbn [snd].
  destruct (run_set_buffer registry ops (buffer (onStdoutData a s).2 +:+ p)%stdpp (onStdoutData a s).2 Hops)
    as [Hrun Hbuf].
  fold step in Hrun, Hbuf. rewrite Hrun. cbn [run fold_left]. rewrite !Hread.
  assert (forall d x s, onStdoutData d (set_buffer x s) =
    drain (S (String.length (x +:+ d)%stdpp)) (set_buffer (x +:+ d)%stdpp s)) as -> by done.
  set (s1 := (onStdoutData a s).2) in *. set (s2 := run step s1 ops) in *.
  assert (onStdoutData (p +:+ b)%stdpp s2 =
    drain (S (String.length (buffer s2 +:+ p +:+ b)%stdpp)) (set_buffer (buffer s2 +:+ p +:+ b)%stdpp s2))
    as -> by done.
  by rewrite Hbuf, append_assoc.
Qed.
End framing.

(** ** Commands and their responses *)

(** A settlement of the command [id]: a response carries that id. *)
Definition answers (id : string) (r : result string Frame) : Prop :=
  match r with
  | Ok f => is_string "response" (prop "type" f) = true /\ prop "id" f = VString id
  | Throw _ => True
  end.

(** From [s] to [s'] commands are only removed, and a promise settles only when
    its command is, with a response to it or an error. *)
Record settles (s s' : RpcChild) : Prop := {
  st_pending : forall id e, jget id (pendingResponses s') = Some e ->
                 jget id (pendingResponses s) = Some e;
  st_promise : forall p, promises s' !! p = promises s !! p \/
    exists id e r, jget id (pendingResponses s) = Some e /\ pr_promise e = p /\
      promises s !! p = Some None /\ promises s' !! p = Some (Some r) /\ answers id r /\
      jget id (pendingResponses s') = None
}.

(** The table of pending commands and the promises agree. *)
Record commands_ok (s : RpcChild) : Prop := {
  co_keys : NoDup (jkeys (pendingResponses s));
  co_pending : forall id e, jget id (pendingResponses s) = Some e ->
                 promises s !! pr_promise e = Some None;
  co_distinct : forall id id' e e', jget id (pendingResponses s) = Some e ->
    jget id' (pendingResponses s) = Some e' -> pr_promise e = pr_promise e' -> id = id';
  co_unsettled : forall p, promises s !! p = Some None ->
    exists id e, jget id (pendingResponses s) = Some e /\ pr_promise e = p;
  co_closed : closed s = true \/ child s = false -> pendingResponses s = []
}.

(** What [commands_ok] and [settles] look at. *)
Definition commands_view (s : RpcChild) :=
  (pendingResponses s, promises s, closed s, child s).

Lemma settles_refl s : settles s s.
Proof. split; [done|]. by left. Qed.

Lemma settles_view s s' : commands_view s = commands_view s' -> settles s s'.
Proof. intros [= H1 H2 _ _]. split; [by rewrite H1|]. rewrite H2. by left. Qed.

Lemma commands_ok_view s s' : commands_view s = commands_view s' -> commands_ok s -> commands_ok s'.
Proof. intros [= H1 H2 H3 H4] []. split; rewrite <- ?H1, <- ?H2, <- ?H3, <- ?H4; done. Qed.

Lemma settles_trans s1 s2 s3 : settles s1 s2 -> settles s2 s3 -> settles s1 s3.
Proof.
  intros [P1 Q1] [P2 Q2]. split; [auto|]. intros p.
  destruct (Q2 p) as [Heq|(id & e & r & Hg & Hp & Hn & Hs & Ha & Hd)].
  - rewrite Heq. destruct (Q1 p) as [?|(id & e & r & ? & ? & ? & ? & ? & Hd)]; [by left|right].
    exists id, e, r. split_and!; try done. apply eq_None_not_Some. intros [e' He']. apply P2 in He'. congruence.
  - destruct (Q1 p) as [Heq|(id' & e' & r' & ? & ? & ? & Hs' & _)]; [|congruence].
    right. exists id, e, r. rewrite <- Heq. split_and!; auto.
Qed.

Lemma settle_pending p r s : pendingResponses (settle p r s) = pendingResponses s.
Proof. unfold settle. by destruct (promises s !! p) as [[]|]. Qed.

Lemma settle_promise p r s : promises s !! p = Some None ->
  promises (settle p r s) = <[p := Some r]> (promises s).
Proof. unfold settle. by intros ->. Qed.

Lemma settle_closed p r s : closed (settle p r s) = closed s /\ child (settle p r s) = child s.
Proof. unfold settle. by destruct (promises s !! p) as [[]|]. Qed.

(** The one way a command leaves the table: with its promise settled. *)
Definition settle_command (id : string) (e : PendingResponse) (r : result string Frame) (s : RpcChild)
    : RpcChild :=
  settle (pr_promise e) r (set_responses (jdelete id (pendingResponses s)) (promises s) s).

Lemma settle_command_ok id e r s :
  commands_ok s -> jget id (pendingResponses s) = Some e -> answers id r ->
  commands_ok (settle_command id e r s) /\ settles s (settle_command id e r s).
Proof.
  intros [Hk Hp Hd Hu Hc] Hget Ha. pose proof (Hp _ _ Hget) as Hnone.
  assert (pendingResponses (settle_command id e r s) = jdelete id (pendingResponses s)) as Hpend
    by (unfold settle_command; by rewrite settle_pending).
  assert (promises (settle_command id e r s) = <[pr_promise e := Some r]> (promises s)) as Hprom
    by (unfold settle_command; by rewrite settle_promise).
  destruct (settle_closed (pr_promise e) r
    (set_responses (jdelete id (pendingResponses s)) (promises s) s)) as [Hcl Hch].
  fold (settle_command id e r s) in Hcl, Hch. simpl in Hcl, Hch.
  assert (forall id' e', jget id' (jdelete id (pendingResponses s)) = Some e' ->
    id' <> id /\ jget id' (pendingResponses s) = Some e') as Hsub.
  { intros id' e'. rewrite jget_delete. by case_decide. }
  split; split; rewrite ?Hpend, ?Hprom, ?Hcl, ?Hch.
  - by apply NoDup_jdelete.
  - intros id' e' [Hne Hget']%Hsub. rewrite list_lookup_insert_ne; [by apply (Hp id')|].
    intros Heq. apply Hne. symmetry. by apply (Hd id id' e e').
  - intros i i' x x' [_ ?]%Hsub [_ ?]%Hsub. eauto.
  - intros p Hpn. destruct (decide (p = pr_promise e)) as [->|Hne].
    + rewrite list_lookup_insert_eq in Hpn by (by eapply lookup_lt_Some). done.
    + rewrite list_lookup_insert_ne in Hpn by done. destruct (Hu p Hpn) as (id' & e' & Hget' & Hpe).
      exists id', e'. split; [|done]. rewrite jget_delete, decide_False; [done|]. intros ->. congruence.
  - intros Hor. by rewrite (Hc Hor).
  - intros id' e' [_ ?]%Hsub. done.
  - intros p. destruct (decide (p = pr_promise e)) as [->|Hne].
    + right. exists id, e, r. rewrite list_lookup_insert_eq by (by eapply lookup_lt_Some).
      split_and!; try done. apply jget_delete_eq.
    + left. by apply list_lookup_insert_ne.
Qed.

(** [rejectAllPending] settles every command of the table, one by one. *)
Lemma reject_loop_ok e l s :
  commands_ok s -> pendingResponses s = l ->
  let s' := set_responses [] (promises (fold_left (fun s kp => settle (pr_promise kp.2) (Throw e) s) l s))
              (fold_left (fun s kp => settle (pr_promise kp.2) (Throw e) s) l s) in
  commands_ok s' /\ settles s s' /\ pendingResponses s' = [].
Proof.
  intros Hok Hl. cbn zeta.
  assert (forall l s t, pendingResponses t = l -> commands_ok t ->
    promises s = promises t -> closed s = closed t -> child s = child t ->
    let f := fold_left (fun s kp => settle (pr_promise kp.2) (Throw e) s) l s in
    let s' := set_responses [] (promises f) f in
    commands_ok s' /\ settles t s' /\ pendingResponses s' = []) as H; [|by apply (H l s s)].
  clear. induction l as [|[id x] l IH]; intros s t Hl Hok Hp Hc Hch.
  - assert (commands_view t = commands_view (set_responses [] (promises s) s)) as Hv
      by (unfold commands_view; simpl; by rewrite Hl, Hp, Hc, Hch).
    split_and!; [by eapply commands_ok_view|by apply settles_view|done].
  - cbn [fold_left]. simpl snd.
    assert (jget id (pendingResponses t) = Some x) as Hget by (rewrite Hl; simpl; by rewrite decide_True).
    destruct (settle_command_ok id x (Throw e) t Hok Hget I) as [Hok' Hs'].
    pose proof (co_pending _ Hok _ _ Hget) as Hnone.
    destruct (IH (settle (pr_promise x) (Throw e) s) (settle_command id x (Throw e) t)) as (H1 & H2 & H3).
    + unfold settle_command. rewrite settle_pending. simpl. rewrite Hl. simpl.
      rewrite bool_decide_eq_true_2 by done. simpl. apply jdelete_absent, jget_None.
      pose proof (co_keys _ Hok) as Hnd. rewrite Hl in Hnd. by inv Hnd.
    + done.
    + unfold settle_command. rewrite !settle_promise; simpl; by rewrite ?Hp.
    + unfold settle_command. rewrite !(proj1 (settle_closed _ _ _)). done.
    + unfold settle_command. rewrite !(proj2 (settle_closed _ _ _)). done.
    + split_and!; [done|by eapply settles_trans|done].
Qed.

Lemma reject_all_ok e s :
  commands_ok s ->
  commands_ok (rejectAllPending e s) /\ settles s (rejectAllPending e s) /\
  pendingResponses (rejectAllPending e s) = [].
Proof. intros Hok. by apply (reject_loop_ok e (pendingResponses s) s Hok). Qed.

(** *** Every operation but [send] only settles *)

Definition good {A} (m : M A) : Prop :=
  forall s, commands_ok s -> commands_ok (m s).2 /\ settles s (m s).2.

Lemma good_ret {A} (a : A) : good (cret a).
Proof. intros s Hs. split; [done|apply settles_refl]. Qed.

Lemma good_throw {A} e : good (cthrow e : M A).
Proof. intros s Hs. split; [done|apply settles_refl]. Qed.

Lemma good_gets {A} (f : RpcChild -> A) : good (gets f).
Proof. intros s Hs. split; [done|apply settles_refl]. Qed.

Lemma good_bind {A B} (m : M A) (k : A -> M B) : good m -> (forall a, good (k a)) -> good (cbind m k).
Proof.
  intros Hm Hk s Hs. unfold cbind. destruct (Hm s Hs) as [H1 H2].
  destruct (m s) as [[a|e] s']; simpl in *; [|done].
  destruct (Hk a s' H1) as [H3 H4]. split; [done|by eapply settles_trans].
Qed.

Lemma good_view {A} (m : M A) : (forall s, commands_view s = commands_view (m s).2) -> good m.
Proof. intros Hm s Hs. split; [eapply commands_ok_view; [apply Hm|done]|by apply settles_view]. Qed.

#[export] Hint Resolve @good_ret @good_throw @good_gets @good_bind : omp.

Lemma settle_set_closed p r c cl en s :
  settle p r (set_closed c cl en s) = set_closed c cl en (settle p r s).
Proof. unfold settle. simpl. by destruct (promises s !! p) as [[]|]. Qed.

Lemma reject_set_closed e c cl en s :
  rejectAllPending e (set_closed c cl en s) = set_closed c cl en (rejectAllPending e s).
Proof.
  unfold rejectAllPending. change (pendingResponses (set_closed c cl en s)) with (pendingResponses s).
  generalize (pendingResponses s). intros l. revert s.
  induction l as [|kp l IH]; intros s; [done|]. cbn [fold_left]. rewrite settle_set_closed. apply IH.
Qed.

(** Closing with an empty table. *)
Lemma commands_ok_closed c cl en s :
  pendingResponses s = [] -> commands_ok s -> commands_ok (set_closed c cl en s).
Proof. intros Hp [H1 H2 H3 H4 H5]. by split. Qed.

Lemma settles_closed c cl en s : settles s (set_closed c cl en s).
Proof. split; [done|by left]. Qed.

Lemma reject_and_close e c cl en cl' en' s :
  commands_ok s ->
  let s' := set_closed c cl' en' (rejectAllPending e (set_closed c cl en s)) in
  commands_ok s' /\ settles s s' /\ pendingResponses s' = [].
Proof.
  intros Hs. cbn zeta. rewrite reject_set_closed.
  change (set_closed c cl' en' (set_closed c cl en (rejectAllPending e s)))
    with (set_closed c cl' en' (rejectAllPending e s)).
  destruct (reject_all_ok e s Hs) as (H1 & H2 & H3). split_and!; [by apply commands_ok_closed| |done].
  eapply settles_trans; [exact H2|]. split; [done|by left].
Qed.

Lemma close_good b s : commands_ok s -> commands_ok (close b s) /\ settles s (close b s).
Proof.
  intros Hs. unfold close. destruct (closed s) eqn:Hc; [split; [done|apply settles_refl]|].
  destruct (child s) eqn:Hch; simpl.
  - by destruct (reject_and_close "RpcChild closed" true (closing s) (stdin_ended s) (negb b) true s Hs)
      as (? & ? & _).
  - split; [|apply settles_closed]. apply commands_ok_closed; [apply (co_closed _ Hs); by right|done].
Qed.

Lemma response_timeout_good id s :
  commands_ok s -> commands_ok (response_timeout id s) /\ settles s (response_timeout id s).
Proof.
  intros Hs. unfold response_timeout. destruct (jget id (pendingResponses s)) as [e|] eqn:Hget.
  - destruct (settle_command_ok id e (Throw ("omp rpc command " +:+ quoted (pr_command e) +:+
      " timed out waiting for acknowledgement")%stdpp) s Hs Hget I) as [H1 H2].
    destruct (close_good false _ H1) as [H3 H4]. split; [exact H3|by eapply settles_trans].
  - split; [done|apply settles_refl].
Qed.

Section commands.
Context (parse_json : string -> option value) (decode_utf8 : list Z -> option string).
Context (registry_configured error_listener : bool) (ui_handler : option (Frame -> option Frame)).

Abbreviation exec := (exec parse_json decode_utf8 registry_configured error_listener ui_handler).
Abbreviation step := (step parse_json decode_utf8 registry_configured error_listener ui_handler).

Lemma good_error msg : good (emit_error error_listener msg).
Proof.
  apply good_view. intros s. unfold emit_error, reject_ready.
  destruct (awaiting_ready s); simpl; [done|]. by destruct error_listener.
Qed.

Lemma good_modify_view f : (forall s, commands_view s = commands_view (f s)) -> good (modify f).
Proof. intros Hf. by apply good_view. Qed.

Lemma good_chunk_error msg : good (chunk_error error_listener msg).
Proof. apply good_bind; [apply good_error|auto with omp]. Qed.

Lemma good_abort id msg : good (chunk_abort error_listener id msg).
Proof.
  apply good_bind; [apply good_error|]. intros _.
  apply good_bind; [by apply good_modify_view|auto with omp].
Qed.

#[local] Hint Resolve good_error good_chunk_error good_abort : omp.

Lemma good_writeRaw frame : good (writeRaw frame).
Proof. apply good_view. intros s. unfold writeRaw. by destruct (child s), (closed s). Qed.

Lemma good_resolve f : is_string "response" (prop "type" f) = true -> good (modify (resolve_response f)).
Proof.
  intros Hty s Hs. unfold modify, resolve_response. simpl.
  destruct (prop "id" f) as [| | | |id| |] eqn:Hid;
    try (split; [by eapply commands_ok_view; [|exact Hs]|by apply settles_view]).
  destruct (jget id (pendingResponses s)) as [e|] eqn:Hget.
  - apply (settle_command_ok id e (Ok f) s Hs Hget). by split.
  - split; [by eapply commands_ok_view; [|exact Hs]|by apply settles_view].
Qed.

Lemma good_processFrame f : good (processFrame ui_handler f).
Proof.
  unfold processFrame. case_match; [by apply good_modify_view|].
  destruct (is_string "response" (prop "type" f)) eqn:Hty; [by apply good_resolve|].
  case_match; [|by apply good_modify_view].
  unfold handleExtensionUiRequest. apply good_bind; [by apply good_modify_view|]. intros _.
  repeat case_match; auto using good_writeRaw with omp.
Qed.

Lemma good_accumulate m p d : good (accumulate parse_json decode_utf8 error_listener m p d).
Proof.
  unfold accumulate. destruct (chunk_bytes d) as [bytes|e]; [|auto with omp].
  case_match.
  - apply good_bind; [by apply good_modify_view|auto with omp].
  - apply good_bind; [by apply good_modify_view|]. intros _.
    case_match; [auto with omp|]. case_match; [auto with omp|].
    apply good_bind; [by apply good_modify_view|]. intros _.
    destruct (decode_frame _ _ _); auto with omp.
Qed.

Lemma good_processChunk c : good (processChunk parse_json decode_utf8 error_listener c).
Proof.
  unfold processChunk. apply good_bind; [auto with omp|]. intros s.
  case_match; [auto with omp|]. destruct (chunk_meta c s) as [m|e]; [|auto with omp].
  destruct (jget (chunkId m) (pendingChunks s)) as [p|]; (case_match; [auto with omp|]);
    [apply good_accumulate|].
  apply good_bind; [by apply good_modify_view|]. intros _. apply good_accumulate.
Qed.

Lemma good_processLine l :
  good (processLine parse_json decode_utf8 error_listener ui_handler l).
Proof.
  unfold processLine. destruct (parse_json l) as [v|]; [|by apply good_modify_view].
  unfold process_value. destruct (as_object v) as [f|]; [|auto with omp].
  case_match; [|apply good_processFrame]. apply good_bind; [apply good_processChunk|].
  intros [f'|]; [apply good_processFrame|auto with omp].
Qed.

Lemma good_drain n : good (drain parse_json decode_utf8 error_listener ui_handler n).
Proof.
  induction n as [|n IH]; intros s Hs; cbn [drain]; [split; [done|apply settles_refl]|].
  destruct (cut_line (buffer s)) as [[l rest]|]; [|split; [done|apply settles_refl]].
  assert (commands_ok (set_buffer rest s)) as Hs' by (by eapply commands_ok_view; [|exact Hs]).
  assert (settles s (set_buffer rest s)) as Hset by by apply settles_view.
  case_match.
  - destruct (IH _ Hs') as [H1 H2]. split; [done|by eapply settles_trans].
  - destruct (good_bind _ (fun _ => drain parse_json decode_utf8 error_listener ui_handler n)
      (good_processLine (trim l)) (fun _ => IH) _ Hs') as [H1 H2].
    split; [exact H1|by eapply settles_trans].
Qed.

Lemma on_exit_good detail s : commands_ok s -> commands_ok (on_exit detail s) /\ settles s (on_exit detail s).
Proof.
  intros Hs. unfold on_exit.
  set (s1 := push EmExit _).
  set (s2 := if registering s1 then _ else _).
  assert (commands_view s = commands_view s2) as Hv.
  { unfold s2, s1, reject_ready. destruct (awaiting_ready s); simpl; by destruct (registering s). }
  assert (commands_ok s2) as H2 by by eapply commands_ok_view.
  assert (settles s s2) as Hs2 by by apply settles_view.
  destruct (closed s2); [done|].
  rewrite reject_set_closed. destruct (reject_all_ok (exit_text detail) s2 H2) as (H3 & H4 & H5).
  split; [by apply commands_ok_closed|]. eapply settles_trans; [exact Hs2|].
  eapply settles_trans; [exact H4|]. apply settles_closed.
Qed.

Definition is_send (op : Op) : bool := match op with Send _ _ => true | _ => false end.

Lemma exec_good op : is_send op = false -> good (exec op).
Proof.
  destruct op as [p|r| |d|c ps|f|id|p|e|detail|b|]; intros Hop; try done; cbn [RpcChild.exec].
  - intros s Hs. unfold start. destruct (child s) eqn:Hch; [split; [done|apply settles_refl]|].
    destruct (closed s) eqn:Hc; [split; [done|apply settles_refl]|]. cbn [snd].
    pose proof (co_closed _ Hs (or_intror Hch)) as Hnil. destruct Hs as [H1 H2 H3 H4 H5].
    split; split; simpl; try done; by left.
  - apply good_modify_view. intros s. unfold registered. repeat case_match; done.
  - apply good_modify_view. intros s. unfold ready_timeout. by case_match.
  - intros s Hs. unfold onStdoutData.
    destruct (good_drain (S (String.length (buffer s +:+ d)%stdpp)) (set_buffer (buffer s +:+ d)%stdpp s))
      as [H1 H2]; [by eapply commands_ok_view; [|exact Hs]|]. split; [exact H1|].
    eapply settles_trans; [|exact H2]. by apply settles_view.
  - apply good_writeRaw.
  - intros s Hs. by apply response_timeout_good.
  - apply good_bind; [auto with omp|]. intros s. destruct (promises s !! p) as [[[res|e]|]|]; cbn [negotiated]; auto with omp.
    case_match; [by apply good_modify_view|auto with omp].
  - unfold on_child_error. apply good_bind; [auto with omp|]. intros _ s Hs.
    by destruct (reject_all_ok e s Hs) as (? & ? & _).
  - intros s Hs. by apply on_exit_good.
  - intros s Hs. by apply close_good.
  - apply good_modify_view. intros s. unfold close_timeout. by case_match.
Qed.

(** [send] adds one promise; a command it leaves pending is under a fresh id. *)
Lemma send_ok c ps s :
  commands_ok s ->
  commands_ok (send c ps s).2 /\ exists o, promises (send c ps s).2 = promises s ++ [o].
Proof.
  intros Hs. unfold send.
  assert (forall e s, commands_ok s -> commands_ok (rejected e s).2 /\
    exists o, promises (rejected e s).2 = promises s ++ [o]) as Hrej.
  { clear. intros e s [H1 H2 H3 H4 H5]. split; [|by eexists]. split; simpl; try done.
    - intros id x Hx. apply lookup_app_l_Some. by apply (H2 id).
    - intros p [Hp|[_ Hp]]%lookup_app_Some; [by apply H4|].
      apply list_lookup_singleton_Some in Hp as [_ [=]]. }
  destruct (child s) eqn:Hch; simpl; [|by apply Hrej]. destruct (closed s) eqn:Hc; [by apply Hrej|].
  assert (commands_view s = commands_view (command_id (("type", VString c) :: ps) s).2) as Hv
    by (unfold command_id; by case_match).
  destruct (command_id (("type", VString c) :: ps) s) as [id s1]. simpl in Hv. pose proof (commands_ok_view _ _ Hv Hs) as H1.
  injection Hv as Hpe Hpr Hc1 Hch1. rewrite Hpr.
  destruct (jhas id (pendingResponses s1)) eqn:Hj; [by apply Hrej|].
  assert (jget id (pendingResponses s1) = None) as Hfresh by (unfold jhas in Hj; by case_match).
  set (p := length (promises s1)).
  unfold writeRaw. cbn [child closed set_responses]. rewrite <- Hch1, <- Hc1, Hch, Hc. cbn [negb snd].
  split; [|by eexists]. destruct H1 as [K1 K2 K3 K4 K5]. split; simpl.
  - by apply NoDup_jset.
  - intros id' e. rewrite jget_set. case_decide; [intros [= <-]; by apply list_lookup_middle|].
    intros Hg. apply lookup_app_l_Some. by apply (K2 id').
  - intros i i' e e'. rewrite !jget_set. repeat case_decide; subst; try done.
    + intros [= <-] Hg Heq. apply K2 in Hg. simpl in Heq. rewrite <- Heq in Hg.
      apply lookup_lt_Some in Hg. unfold p in Hg. lia.
    + intros Hg [= <-] Heq. apply K2 in Hg. simpl in Heq. rewrite Heq in Hg.
      apply lookup_lt_Some in Hg. unfold p in Hg. lia.
    + apply K3.
  - intros q [Hq|[Hge Hq]]%lookup_app_Some.
    + destruct (K4 q Hq) as (i & e & Hg & He). exists i, e. split; [|done].
      rewrite jget_set_ne; [done|]. intros ->. congruence.
    + apply list_lookup_singleton_Some in Hq as [Hq _]. exists id, (mkPendingResponse p c).
      split; [apply jget_set_eq|]. simpl. unfold p. lia.
  - rewrite <- Hc1, <- Hch1, Hc, Hch. by intros [|].
Qed.

Lemma new_commands_ok : commands_ok new_RpcChild.
Proof. split; simpl; try done. constructor. Qed.

Lemma step_commands_ok s op : commands_ok s -> commands_ok (step s op).
Proof.
  intros Hs. unfold RpcChild.step. destruct (is_send op) eqn:Hop; [|by apply exec_good].
  destruct op as [| | | |c ps| | | | | | |]; try done. cbn [RpcChild.exec]. unfold cbind.
  destruct (send_ok c ps s Hs) as [H1 _]. by destruct (send c ps s) as [[p|e] s'].
Qed.

(** What happens to a promise in one step. *)
Lemma step_promise s op p o :
  commands_ok s -> promises s !! p = Some o ->
  promises (step s op) !! p = Some o \/
  o = None /\ exists id e r, jget id (pendingResponses s) = Some e /\ pr_promise e = p /\
    promises (step s op) !! p = Some (Some r) /\ answers id r.
Proof.
  intros Hs Hp. unfold RpcChild.step. destruct (is_send op) eqn:Hop.
  - left. destruct op as [| | | |c ps| | | | | | |]; try done. cbn [RpcChild.exec]. unfold cbind.
    destruct (send_ok c ps s Hs) as [_ [x Hx]]. destruct (send c ps s) as [[q|e] s']; simpl in *;
      rewrite Hx; by apply lookup_app_l_Some.
  - destruct (exec_good op Hop s Hs) as [_ [_ Hst]].
    destruct (Hst p) as [Heq|(id & e & r & Hg & Hpe & Hn & Hr & Ha & _)]; [left; congruence|].
    right. split; [congruence|]. exists id, e, r. done.
Qed.

(** Every command settles exactly once, with its own response.  In every
    reachable state of a child: the promises not settled are those of the
    commands in the table; once the child is closed, by whatever cause, none is
    left; in one step a promise that is not settled stays so or settles, and
    when it settles with a response, the response carries the id its command is
    pending under; and a settled promise never changes again. *)
Theorem send_settles_once ops op more :
  let s := run step new_RpcChild ops in
  (forall p, promises s !! p = Some None <->
     exists id e, jget id (pendingResponses s) = Some e /\ pr_promise e = p) /\
  (closed s = true -> forall p, promises s !! p <> Some None) /\
  (forall p (f : Frame), promises s !! p = Some None -> promises (step s op) !! p = Some (Some (Ok f)) ->
     exists id e, jget id (pendingResponses s) = Some e /\ pr_promise e = p /\
       is_string "response" (prop "type" f) = true /\ prop "id" f = VString id) /\
  (forall p r, promises s !! p = Some (Some r) -> promises (run step s more) !! p = Some (Some r)).
Proof.
  intros s.
  assert (commands_ok s) as Hs
    by (apply (run_invariant _ commands_ok); [intros; by apply step_commands_ok|apply new_commands_ok]).
  split_and!.
  - intros p. split; [by apply co_unsettled|]. intros (id & e & Hg & <-). by apply (co_pending _ Hs id).
  - intros Hc p Hp. destruct (co_unsettled _ Hs p Hp) as (id & e & Hg & _).
    rewrite (co_closed _ Hs) in Hg; [done|by left].
  - intros p f Hn Hf. destruct (step_promise s op p None Hs Hn) as [Heq|(_ & id & e & r & Hg & He & Hr & Ha)].
    + by rewrite Hf in Heq.
    + rewrite Hf in Hr. simplify_eq. exists id, e. destruct Ha. done.
  - clearbody s. revert s Hs. induction more as [|o more IH]; intros s Hs p r Hp; [done|].
    rewrite run_cons. apply IH; [by apply step_commands_ok|].
    destruct (step_promise s o p (Some r) Hs Hp) as [?|[? _]]; done.
Qed.
End commands.

(** ** Chunked frames *)

(** The server's side: the [i]-th of [n] chunks of a frame of [len] bytes. *)
Definition chunk_frame (id : string) (n len i : Z) (piece : list Z) : Frame :=
  [("type", VString "rpc_chunk"); ("chunkId", VString id); ("index", VNumber (num_of_Z i));
   ("count", VNumber (num_of_Z n)); ("byteLength", VNumber (num_of_Z len));
   ("data", VString (b64_encode piece))].

Fixpoint chunk_frames (id : string) (n len i : Z) (pieces : list (list Z)) : list Frame :=
  match pieces with
  | [] => []
  | piece :: pieces => chunk_frame id n len i piece :: chunk_frames id n len (i + 1) pieces
  end.

Lemma safe_integer_Z z : Z.abs z <= max_safe_integer -> safe_integer (VNumber (num_of_Z z)) = Some z.
Proof.
  intros Hz. unfold safe_integer, num_is_safe_integer. rewrite num_is_integer_Z, num_floor_Z.
  by rewrite (proj2 (Z.leb_le _ _) Hz).
Qed.

Lemma jset_last {V} k (v w : V) m : jget k m = None -> jset k v (m ++ [(k, w)]) = m ++ [(k, v)].
Proof.
  induction m as [|[k' x] m IH]; simpl; [by rewrite decide_True|].
  case_decide; [done|]. intros Hm. by rewrite IH.
Qed.

Lemma jget_last {V} k (w : V) m : jget k m = None -> jget k (m ++ [(k, w)]) = Some w.
Proof.
  induction m as [|[k' x] m IH]; simpl; [by rewrite decide_True|]. by case_decide.
Qed.

Lemma jdelete_last {V} k (w : V) m : jget k m = None -> jdelete k (m ++ [(k, w)]) = m.
Proof.
  intros Hm. unfold jdelete. rewrite List.filter_app. simpl. rewrite bool_decide_eq_true_2 by done. simpl.
  rewrite app_nil_r. by apply jdelete_absent.
Qed.

Lemma num_ceil_div_Z R d : 0 < d -> num_ceil_div (num_of_Z R) d = num_of_Z (- ((- R) / d)).
Proof.
  intros Hd. unfold num_ceil_div, num_of_Z. do 2 f_equal. unfold Qceiling, Qfloor, Qopp, Qdiv, Qmult, Qinv.
  destruct d as [|d|d]; try lia. simpl. by rewrite Z.mul_1_r.
Qed.

Section chunked.
Context (parse_json : string -> option value) (decode_utf8 : list Z -> option string).
Context (error_listener : bool) (ui_handler : option (Frame -> option Frame)).

Abbreviation processChunk := (processChunk parse_json decode_utf8 error_listener).
Abbreviation process_value := (process_value parse_json decode_utf8 error_listener ui_handler).

(** Processing parsed lines one after another. *)
Fixpoint process_all (vs : list value) : M unit :=
  match vs with
  | [] => cret tt
  | v :: vs => process_value v ;? process_all vs
  end.

Section sequence.
Context (s : RpcChild) (id : string) (maxFrame maxReassembled n len : Z).
Context (Hversion : 2 <= protocolVersion s).
Context (Hid : is_empty id = false /\ (String.length id <= 128)%nat).
Context (Hfresh : jget id (pendingChunks s) = None).
Context (HF : ready_limit "maxFrameBytes" DEFAULT_MAX_FRAME_BYTES s = num_of_Z maxFrame).
Context (HR : ready_limit "maxReassembledFrameBytes" DEFAULT_MAX_REASSEMBLED_BYTES s =
              num_of_Z maxReassembled).
Context (Hn : 2 <= n <= max_safe_integer /\ n <= - ((- maxReassembled) / CHUNK_PAYLOAD_BYTES)).
Context (Hlen : 0 <= len <= max_safe_integer /\ maxFrame <= len <= maxReassembled).

(** The child after the chunks [d] of the sequence. *)
Definition after_chunks (d : list (list Z)) : RpcChild :=
  set_chunks (pendingChunks s ++
    [(id, mkPendingChunks n len (Z.of_nat (length d)) d (Z.of_nat (length (concat d))))]) s.

Lemma chunk_meta_frame i piece pend :
  0 <= i < n -> chunk_meta (chunk_frame id n len i piece) (set_chunks pend s) = Ok (mkChunkMeta id i n len).
Proof using Hid HF HR Hn Hlen.
  intros Hi. unfold chunk_meta.
  change (prop "chunkId" (chunk_frame id n len i piece)) with (VString id).
  change (prop "index" (chunk_frame id n len i piece)) with (VNumber (num_of_Z i)).
  change (prop "count" (chunk_frame id n len i piece)) with (VNumber (num_of_Z n)).
  change (prop "byteLength" (chunk_frame id n len i piece)) with (VNumber (num_of_Z len)).
  destruct Hid as [-> Hl]. rewrite (proj2 (Nat.ltb_ge _ _) Hl).
  cbn [orb]. rewrite !safe_integer_Z by lia.
  change (ready_limit ?x ?y (set_chunks pend s)) with (ready_limit x y s).
  rewrite HF, HR, num_ceil_div_Z, !num_ltb_Z by done.
  rewrite (proj2 (Z.ltb_ge i 0)), (proj2 (Z.ltb_ge n 2)), (proj2 (Z.leb_gt n i)),
    (proj2 (Z.ltb_ge _ n)), (proj2 (Z.ltb_ge len 0)), (proj2 (Z.ltb_ge len maxFrame)),
    (proj2 (Z.ltb_ge maxReassembled len)) by lia. done.
Qed.

(** A payload the server may send. *)
Definition payload (piece : list Z) : Prop :=
  piece <> [] /\ Forall is_byte piece /\ Z.of_nat (length piece) <= CHUNK_PAYLOAD_BYTES.

Lemma chunk_bytes_payload piece : payload piece -> chunk_bytes (VString (b64_encode piece)) = Ok piece.
Proof.
  intros (Hne & Hb & Hl). unfold chunk_bytes.
  rewrite (proj2 (is_empty_false _)) by (by apply length_b64_encode_nonempty).
  rewrite b64_decode_encode, String.eqb_refl by done. cbn [negb].
  by rewrite (proj2 (Z.ltb_ge _ _) Hl).
Qed.

Context (pieces : list (list Z)) (text : string) (v : value) (frame : Frame).
Context (Hpieces : Forall payload pieces) (Hcount : Z.of_nat (length pieces) = n).
Context (Hbytes : Z.of_nat (length (concat pieces)) = len).
Context (Htext : decode_utf8 (concat pieces) = Some text) (Hjson : parse_json text = Some v).
Context (Hframe : as_object v = Some frame).

(** One more chunk of the sequence. *)
Lemma accumulate_piece d piece rest :
  pieces = d ++ piece :: rest ->
  accumulate parse_json decode_utf8 error_listener (mkChunkMeta id (Z.of_nat (length d)) n len)
    (mkPendingChunks n len (Z.of_nat (length d)) d (Z.of_nat (length (concat d))))
    (VString (b64_encode piece)) (after_chunks d) =
  match rest with
  | [] => (Ok (Some frame), s)
  | _ :: _ => (Ok None, after_chunks (d ++ [piece]))
  end.
Proof using Hfresh Hpieces Hcount Hbytes Htext Hjson Hframe.
  clear Hversion Hn Hlen Hid HR HF. intros Heq.
  assert (payload piece) as Hp by (rewrite Heq in Hpieces; apply Forall_app in Hpieces as [_ H]; by inv H).
  assert (concat pieces = concat (d ++ [piece]) ++ concat rest) as Hcat.
  { by rewrite Heq, cons_middle, app_assoc, concat_app. }
  assert (length (concat (d ++ [piece])) = length (concat d) + length piece)%nat as Hl
    by (rewrite concat_app, length_app; simpl; by rewrite app_nil_r).
  unfold accumulate. rewrite chunk_bytes_payload by done. cbn [pc_byteLength receivedBytes chunkId].
  assert (Z.of_nat (length (concat d)) + Z.of_nat (length piece) = Z.of_nat (length (concat (d ++ [piece]))))
    as -> by lia.
  assert (Z.of_nat (length (concat (d ++ [piece]))) <= len) as Hle
    by (rewrite <- Hbytes, Hcat, length_app; lia).
  rewrite (proj2 (Z.ltb_ge _ _) Hle). cbn [nextIndex pc_count chunks].
  assert (Z.of_nat (length d) + 1 = Z.of_nat (length (d ++ [piece]))) as ->
    by (rewrite length_app; simpl; lia).
  unfold cbind at 1. cbn [modify].
  assert (put_chunks id (mkPendingChunks n len (Z.of_nat (length (d ++ [piece]))) (d ++ [piece])
    (Z.of_nat (length (concat (d ++ [piece]))))) (after_chunks d) = after_chunks (d ++ [piece])) as ->.
  { unfold put_chunks, after_chunks. cbn [pendingChunks set_chunks]. by rewrite jset_last. }
  assert (Z.of_nat (length (d ++ [piece])) + Z.of_nat (length rest) = n) as Hleft
    by (rewrite <- Hcount, Heq, !length_app; simpl; lia).
  destruct rest as [|r rest]; simpl in Hleft.
  - rewrite (proj2 (Z.ltb_ge (Z.of_nat (length (d ++ [piece]))) n)) by lia.
    assert (Z.of_nat (length (concat (d ++ [piece]))) = len) as Hfull
      by (rewrite <- Hbytes, Hcat; simpl; by rewrite app_nil_r).
    rewrite Hfull, Z.eqb_refl. cbn [negb]. unfold cbind, modify.
    simpl in Hcat. rewrite app_nil_r in Hcat. unfold decode_frame. rewrite <- Hcat, Htext, Hjson, Hframe.
    unfold cret. f_equal. unfold drop_chunks, after_chunks. cbn [pendingChunks set_chunks].
    rewrite jdelete_last by done. by destruct s.
  - rewrite (proj2 (Z.ltb_lt (Z.of_nat (length (d ++ [piece]))) n)) by lia. done.
Qed.

Lemma processChunk_piece d piece rest :
  pieces = d ++ piece :: rest ->
  processChunk (chunk_frame id n len (Z.of_nat (length d)) piece)
    (match d with [] => s | _ => after_chunks d end) =
  match rest with
  | [] => (Ok (Some frame), s)
  | _ :: _ => (Ok None, after_chunks (d ++ [piece]))
  end.
Proof using All.
  intros Heq. rewrite <- (accumulate_piece d piece rest Heq).
  assert (0 <= Z.of_nat (length d) < n) as Hi.
  { rewrite <- Hcount, Heq, length_app. simpl. lia. }
  unfold RpcChild.processChunk, cbind, gets. destruct d as [|p0 d].
  - rewrite (proj2 (Z.ltb_ge _ _) Hversion).
    assert (set_chunks (pendingChunks s) s = s) as Hsame by by destruct s.
    pose proof (chunk_meta_frame (Z.of_nat 0) piece (pendingChunks s) Hi) as Hm. rewrite Hsame in Hm.
    cbn [length]. rewrite Hm. cbn [chunkId index count byteLength]. rewrite Hfresh. simpl negb. cbn iota.
    assert (put_chunks id (mkPendingChunks n len 0 [] 0) s = after_chunks []) as <-
      by (unfold put_chunks; by rewrite jset_absent).
    done.
  - change (protocolVersion (after_chunks (p0 :: d))) with (protocolVersion s).
    rewrite (proj2 (Z.ltb_ge _ _) Hversion). unfold after_chunks at 1 2.
    rewrite chunk_meta_frame by done. cbn [chunkId index count byteLength].
    cbn [pendingChunks set_chunks]. rewrite jget_last by done. cbn [pc_count pc_byteLength nextIndex].
    rewrite !Z.eqb_refl. done.
Qed.

(** C28: Reassembly is the inverse of the server's chunking.  Cut the UTF-8 bytes
    of a JSON object into at least two non-empty payloads within the limits
    announced, send them base64-encoded as consecutive chunks of a fresh chunk
    id: the child does with them exactly what it does with the frame itself, no
    error is raised, and no trace of the sequence stays behind, whatever other
    sequences are under way. *)
Theorem chunks_reassemble :
  process_all (VObject <$> chunk_frames id n len 0 pieces) s = processFrame ui_handler frame s.
Proof using All.
  assert (forall rest d, rest <> [] -> pieces = d ++ rest ->
    process_all (VObject <$> chunk_frames id n len (Z.of_nat (length d)) rest)
      (match d with [] => s | _ => after_chunks d end) = processFrame ui_handler frame s) as H.
  { induction rest as [|piece rest IH]; intros d Hne Heq; [done|].
    cbn [chunk_frames fmap list_fmap process_all]. unfold cbind at 1. unfold RpcChild.process_value.
    cbn [as_object]. change (is_string "rpc_chunk" (prop "type" (chunk_frame id n len _ piece))) with true.
    cbn iota. unfold cbind at 1. rewrite (processChunk_piece d piece rest Heq).
    destruct rest as [|r rest].
    - simpl. unfold cret. by destruct (processFrame ui_handler frame s) as [[[]|e] s'].
    - cbn [cret]. specialize (IH (d ++ [piece]) ltac:(done)). rewrite length_app in IH. simpl length in IH.
      replace (Z.of_nat (length d) + 1) with (Z.of_nat (length d + 1)) by lia.
      rewrite <- IH; [|by rewrite Heq, <- app_assoc]. by destruct d. }
  apply (H pieces []); [|done]. intros Hnil. rewrite Hnil in Hcount. simpl in Hcount. lia.
Qed.
End sequence.
End chunked.

(** ** The memory of an unfinished sequence *)

Definition buffered (p : PendingChunks) : Z := Z.of_nat (length (concat (chunks p))).

(** The reassembly limit that a ready frame announces, or its absence. *)
Definition announced_limit (f : option Frame) : number :=
  ready_limit "maxReassembledFrameBytes" DEFAULT_MAX_REASSEMBLED_BYTES (set_ready false None f new_RpcChild).

(** The length is not above that limit.  (One that is not a number bounds nothing,
    as JavaScript compares.) *)
Definition within (f : option Frame) (n : Z) : Prop := num_ltb (announced_limit f) (num_of_Z n) = false.

(** [K] says which ready frames have been in force. *)
Record sequence_ok (K : option Frame -> Prop) (p : PendingChunks) : Prop := {
  sq_count : 2 <= pc_count p;
  sq_index : nextIndex p = Z.of_nat (length (chunks p)) /\ nextIndex p <= pc_count p;
  sq_bytes : buffered p <= receivedBytes p /\ buffered p <= pc_byteLength p;
  sq_limit : exists f, K f /\ within f (pc_byteLength p);
  sq_payload : Forall (fun c => c <> [] /\ Z.of_nat (length c) <= CHUNK_PAYLOAD_BYTES) (chunks p)
}.

Lemma within_limit f n L :
  within f n -> num_leb (announced_limit f) (num_of_Z L) = true -> n <= L.
Proof.
  unfold within. generalize (announced_limit f). intros l. unfold num_ltb. destruct l as [|[]|q]; simpl; try done.
  intros Hlt HL%Qle_bool_iff.
  assert (inject_Z n <= q)%Q as Hn.
  { apply andb_false_iff in Hlt as [Hlt|Hlt%negb_false_iff]; [|by apply Qle_bool_iff].
    apply Qlt_le_weak, Qnot_le_lt. intros Hle%Qle_bool_iff. congruence. }
  rewrite Zle_Qle. by eapply Qle_trans.
Qed.

Section bounded.
Context (parse_json : string -> option value) (decode_utf8 : list Z -> option string).
Context (registry_configured error_listener : bool) (ui_handler : option (Frame -> option Frame)).
(** The ready frame in force at the start of the run. *)
Context (f0 : option Frame).

(** The ready frames that have been in force: that one, and those received since. *)
Definition in_force (s : RpcChild) (f : option Frame) : Prop :=
  f = f0 \/ exists g, f = Some g /\ EmReady g ∈ emitted s.

Definition chunks_ok (s : RpcChild) : Prop :=
  in_force s (ready s) /\
  forall id p, jget id (pendingChunks s) = Some p -> sequence_ok (in_force s) p.

Definition chunk_view (s : RpcChild) := (pendingChunks s, ready s, emitted s).

Lemma chunks_ok_view s s' : chunk_view s = chunk_view s' -> chunks_ok s -> chunks_ok s'.
Proof. unfold chunk_view, chunks_ok, in_force. intros [= H1 H2 H3]. by rewrite H1, H2, H3. Qed.

Lemma in_force_more s s' f : emitted s ⊆ emitted s' -> in_force s f -> in_force s' f.
Proof. intros He [?|(g & ? & Hg)]; [by left|right]. exists g. auto. Qed.

Lemma sequence_ok_more s s' p : emitted s ⊆ emitted s' -> sequence_ok (in_force s) p -> sequence_ok (in_force s') p.
Proof.
  intros He [H1 H2 H3 (f & Hf & Hw) H5]. split; try done. exists f. split; [by eapply in_force_more|done].
Qed.

Lemma chunks_ok_push e s : chunks_ok s -> chunks_ok (push e s).
Proof.
  assert (emitted s ⊆ emitted (push e s)) as He by (cbn; set_solver).
  intros [Hf Hs]. split; [by eapply in_force_more|]. intros id p Hp. eapply sequence_ok_more; [done|by eapply Hs].
Qed.

Lemma keeps_view {A} (m : M A) : (forall s, chunk_view s = chunk_view (m s).2) -> keeps chunks_ok m.
Proof. intros Hm s Hs. eapply chunks_ok_view; [apply Hm|done]. Qed.

Lemma keeps_modify_view f : (forall s, chunk_view s = chunk_view (f s)) -> keeps chunks_ok (modify f).
Proof. intros Hf. by apply keeps_view. Qed.

Lemma keeps_push e : keeps chunks_ok (modify (push e)).
Proof. intros s. apply chunks_ok_push. Qed.

Lemma keeps_rpc_gets {A} (f : RpcChild -> A) : keeps chunks_ok (gets f).
Proof. by intros s. Qed.

Lemma keeps_error msg : keeps chunks_ok (emit_error error_listener msg).
Proof.
  intros s Hs. unfold emit_error. destruct (awaiting_ready s || error_listener); [|done].
  apply chunks_ok_push. eapply chunks_ok_view; [|exact Hs]. unfold reject_ready. by destruct (awaiting_ready s).
Qed.

Lemma keeps_chunk_error msg : keeps chunks_ok (chunk_error error_listener msg).
Proof. apply keeps_bind; [apply keeps_error|auto with omp]. Qed.

Lemma keeps_drop id : keeps chunks_ok (modify (drop_chunks id)).
Proof.
  intros s [Hf Hs]. split; [done|]. simpl. intros id' p. rewrite jget_delete. case_decide; [done|]. apply Hs.
Qed.

Lemma keeps_abort id msg : keeps chunks_ok (chunk_abort error_listener id msg).
Proof.
  apply keeps_bind; [apply keeps_error|]. intros _. apply keeps_bind; [apply keeps_drop|auto with omp].
Qed.

Lemma chunks_ok_put id p s : sequence_ok (in_force s) p -> chunks_ok s -> chunks_ok (put_chunks id p s).
Proof.
  intros Hp [Hf Hs]. split; [done|]. simpl. intros id' p'. rewrite jget_set.
  case_decide; [by intros [= <-]|]. apply Hs.
Qed.

#[local] Hint Resolve keeps_error keeps_chunk_error keeps_abort keeps_drop keeps_rpc_gets : omp.

Lemma chunk_bytes_ok d bytes :
  chunk_bytes d = Ok bytes -> bytes <> [] /\ Z.of_nat (length bytes) <= CHUNK_PAYLOAD_BYTES.
Proof.
  unfold chunk_bytes. destruct d as [| | | |d| |]; try done.
  destruct (is_empty d) eqn:He; [done|]. destruct (b64_decode d) as [b|] eqn:Hd; [|done].
  destruct (String.eqb (b64_encode b) d) eqn:Hr; [|done]. simpl.
  destruct (Z.ltb_spec CHUNK_PAYLOAD_BYTES (Z.of_nat (length b))); [done|]. intros [= <-].
  split; [|done]. intros ->. apply String.eqb_eq in Hr. simpl in Hr. by subst d.
Qed.

Lemma keeps_accumulate m p d s :
  sequence_ok (in_force s) p -> nextIndex p < pc_count p -> chunks_ok s ->
  chunks_ok (accumulate parse_json decode_utf8 error_listener m p d s).2.
Proof.
  intros [H1 [H2 H3] [H4 H5] H6 H7] Hlt Hs. unfold accumulate.
  destruct (chunk_bytes d) as [bytes|e] eqn:Hb; [|by apply keeps_abort].
  apply chunk_bytes_ok in Hb as [Hne Hlen].
  destruct (Z.ltb_spec (pc_byteLength p) (receivedBytes p + Z.of_nat (length bytes))) as [Hover|Hfit].
  - unfold cbind at 1, modify at 1. apply keeps_abort, chunks_ok_put; [|done]. split; cbn; try done. unfold buffered in *. cbn. lia.
  - unfold cbind at 1, modify at 1.
    match goal with |- context [put_chunks ?id ?q s] => assert (chunks_ok (put_chunks id q s)) as Hs' end.
    { apply chunks_ok_put; [|done]. unfold buffered in *. split; unfold buffered; cbn.
      - done.
      - rewrite length_app. simpl. lia.
      - rewrite concat_app, length_app. simpl. rewrite app_nil_r. lia.
      - done.
      - apply Forall_app. split; [done|]. by constructor. }
    case_match; [exact Hs'|]. case_match; [by apply keeps_abort|].
    apply keeps_bind; [auto with omp| |exact Hs']. intros _. destruct (decode_frame _ _ _); auto with omp.
Qed.

Lemma chunk_meta_ok c s m :
  chunk_meta c s = Ok m ->
  2 <= count m /\ 0 <= index m < count m /\ 0 <= byteLength m /\ within (ready s) (byteLength m).
Proof.
  unfold chunk_meta. destruct (prop "chunkId" c) as [| | | |id| |]; try done.
  destruct (is_empty id || _); [done|].
  destruct (safe_integer (prop "index" c)) as [i|]; [|done]. destruct (Z.ltb_spec i 0); [done|].
  destruct (safe_integer (prop "count" c)) as [n|]; [|done]. destruct (Z.ltb_spec n 2); [done|].
  destruct (Z.leb_spec n i); [done|]. destruct (num_ltb (num_ceil_div _ _) _); [done|].
  destruct (safe_integer (prop "byteLength" c)) as [b|]; [|done]. destruct (Z.ltb_spec b 0); [done|].
  destruct (num_ltb (num_of_Z b) _); [done|].
  destruct (num_ltb (ready_limit "maxReassembledFrameBytes" _ s) (num_of_Z b)) eqn:Hr; [done|].
  intros [= <-]. cbn. split_and!; try lia. exact Hr.
Qed.

Lemma keeps_processChunk c : keeps chunks_ok (processChunk parse_json decode_utf8 error_listener c).
Proof.
  intros s Hs. unfold processChunk, cbind, gets. pose proof Hs as [Hf Hseq].
  destruct (protocolVersion s <? 2); [by apply keeps_chunk_error|].
  destruct (chunk_meta c s) as [m|e] eqn:Hm; [|by apply keeps_chunk_error].
  apply chunk_meta_ok in Hm as (Hc & Hi & Hb & Hw).
  destruct (jget (chunkId m) (pendingChunks s)) as [p|] eqn:Hg.
  - destruct (Z.eqb_spec (pc_count p) (count m)); simpl; [|by apply keeps_abort].
    destruct (Z.eqb_spec (pc_byteLength p) (byteLength m)); simpl; [|by apply keeps_abort].
    destruct (Z.eqb_spec (nextIndex p) (index m)); simpl; [|by apply keeps_abort].
    apply keeps_accumulate; [by eapply Hseq|lia|done].
  - destruct (index m =? 0); simpl; [|by apply keeps_chunk_error].
    assert (sequence_ok (in_force s) (mkPendingChunks (count m) (byteLength m) 0 [] 0)) as Hnew.
    { split; unfold buffered; cbn; try done; try lia. by exists (ready s). }
    apply keeps_accumulate; [done|cbn; lia|]. by apply chunks_ok_put.
Qed.

Lemma keeps_take_ready f : keeps chunks_ok (modify (take_ready f)).
Proof.
  intros s Hs. unfold modify, take_ready. cbn [snd]. set (s1 := set_ready _ _ _ s).
  assert (emitted s ⊆ emitted (push (EmReady f) s1)) as He by (cbn; set_solver).
  destruct Hs as [_ Hs]. split.
  - right. exists f. split; [done|]. cbn. set_solver.
  - intros id p Hp. eapply sequence_ok_more; [exact He|by eapply Hs].
Qed.

Lemma keeps_processFrame f : keeps chunks_ok (processFrame ui_handler f).
Proof.
  unfold processFrame. case_match; [apply keeps_take_ready|]. case_match; [|case_match].
  - intros s Hs. unfold modify, resolve_response. cbn [snd].
    destruct (prop "id" f); try by apply chunks_ok_push.
    destruct (jget s0 (pendingResponses s)) as [e|]; [|by apply chunks_ok_push].
    eapply chunks_ok_view; [|exact Hs].
    unfold settle. simpl. by destruct (promises s !! pr_promise e) as [[]|].
  - unfold handleExtensionUiRequest. apply keeps_bind; [apply keeps_push|]. intros _.
    assert (forall fr, keeps chunks_ok (sendRaw fr)) as Hraw.
    { intros fr. apply keeps_view. intros s. unfold sendRaw, writeRaw. by destruct (child s), (closed s). }
    repeat case_match; auto with omp.
  - apply keeps_push.
Qed.

Lemma keeps_processLine l :
  keeps chunks_ok (processLine parse_json decode_utf8 error_listener ui_handler l).
Proof.
  unfold processLine. destruct (parse_json l) as [v|]; [|apply keeps_push].
  unfold process_value. destruct (as_object v) as [f|]; [|auto with omp].
  case_match; [|apply keeps_processFrame].
  apply keeps_bind; [apply keeps_processChunk|]. intros [f'|]; [apply keeps_processFrame|auto with omp].
Qed.

Lemma keeps_drain n : keeps chunks_ok (drain parse_json decode_utf8 error_listener ui_handler n).
Proof.
  induction n as [|n IH]; intros s Hs; cbn [drain]; [done|].
  destruct (cut_line (buffer s)) as [[l rest]|]; [|done].
  assert (chunks_ok (set_buffer rest s)) as Hs' by (by eapply chunks_ok_view; [|exact Hs]).
  case_match; [by apply IH|]. by apply (keeps_bind _ _ _ (keeps_processLine (trim l)) (fun _ => IH)).
Qed.

Lemma settle_chunk_view p r s : chunk_view s = chunk_view (settle p r s).
Proof. unfold settle. by destruct (promises s !! p) as [[]|]. Qed.

Lemma reject_chunk_view e s : chunk_view s = chunk_view (rejectAllPending e s).
Proof.
  unfold rejectAllPending.
  assert (forall (l : list (string * PendingResponse)) s, chunk_view s =
    chunk_view (fold_left (fun s kp => settle (pr_promise kp.2) (Throw e) s) l s)) as H.
  { clear. induction l as [|kp l IH]; intros s; [done|]. cbn [fold_left].
    by rewrite <- IH, <- settle_chunk_view. }
  apply (H (pendingResponses s) s).
Qed.

Lemma close_chunk_view b s : chunk_view s = chunk_view (close b s).
Proof.
  unfold close. destruct (closed s); [done|]. destruct (child s); simpl; [|done].
  apply (reject_chunk_view _ (set_closed true (closing s) (stdin_ended s) s)).
Qed.

Lemma command_id_chunk_view f s : chunk_view s = chunk_view (command_id f s).2.
Proof. unfold command_id. by destruct (prop "id" f). Qed.

Lemma writeRaw_chunk_view f s : chunk_view s = chunk_view (writeRaw f s).2.
Proof. unfold writeRaw. by destruct (child s), (closed s). Qed.

Lemma send_chunk_view c ps s : chunk_view s = chunk_view (send c ps s).2.
Proof.
  unfold send, rejected. destruct (child s); [|done]. destruct (closed s); [done|]. cbn [negb].
  rewrite (command_id_chunk_view (("type", VString c) :: ps) s).
  destruct (command_id _ s) as [id s1]. cbn [snd]. destruct (jhas id _); [done|].
  set (s2 := set_responses _ _ s1). change (chunk_view s1) with (chunk_view s2).
  rewrite (writeRaw_chunk_view (with_id (("type", VString c) :: ps) id) s2).
  destruct (writeRaw _ s2) as [[u|e] s3]; [done|]. cbn [snd]. by rewrite <- settle_chunk_view.
Qed.

Lemma keeps_exec op :
  keeps chunks_ok (exec parse_json decode_utf8 registry_configured error_listener ui_handler op).
Proof.
  destruct op as [p|r| |d|c ps|f|id|p|e|detail|b|]; cbn [exec].
  - apply keeps_view. intros s. unfold start. by destruct (child s), (closed s).
  - apply keeps_modify_view. intros s. unfold registered. by repeat case_match.
  - apply keeps_modify_view. intros s. unfold ready_timeout. by case_match.
  - intros s Hs. apply keeps_drain. by eapply chunks_ok_view; [|exact Hs].
  - apply keeps_view. intros s. unfold cbind. rewrite (send_chunk_view c ps s).
    by destruct (send c ps s) as [[]].
  - apply keeps_view. intros s. apply writeRaw_chunk_view.
  - apply keeps_modify_view. intros s. unfold response_timeout.
    destruct (jget id (pendingResponses s)); [|done]. by rewrite <- close_chunk_view, <- settle_chunk_view.
  - apply keeps_bind; [auto with omp|]. intros s. destruct (promises s !! p) as [[[res|e]|]|];
      cbn [negotiated]; auto with omp. case_match; [by apply keeps_modify_view|auto with omp].
  - unfold on_child_error. apply keeps_bind; [auto with omp|]. intros _.
    apply keeps_modify_view. intros s. apply reject_chunk_view.
  - intros s Hs. unfold modify, on_exit, reject_ready. cbn [snd].
    set (s1 := push EmExit _). set (s2 := if registering s1 then _ else _).
    assert (chunks_ok s1) as Hs1.
    { apply chunks_ok_push. eapply chunks_ok_view; [|exact Hs]. by destruct (awaiting_ready s). }
    assert (chunks_ok s2) as Hs2.
    { eapply chunks_ok_view; [|exact Hs1]. unfold s2. by destruct (registering s1). }
    destruct (closed s2); [done|]. eapply chunks_ok_view; [|exact Hs2].
    apply (reject_chunk_view _ (set_closed true (closing s2) (stdin_ended s2) s2)).
  - apply keeps_modify_view. intros s. apply close_chunk_view.
  - apply keeps_modify_view. intros s. unfold close_timeout. by case_match.
Qed.

(** C29: Bounds of reassembly.  Whatever the child writes, valid or not, and
    whatever it announces, each unfinished sequence holds its chunks without a
    gap, no more of them than its count and none empty or over the transport
    limit, and its bytes never exceed the length it declared; and that length is
    within a reassembly limit that was in force: that of the ready frame at the
    start of the run (64 MiB if there was none) or of a ready frame received
    since.  So it is at most [L] when those limits are. *)
Theorem reassembly_bounded s0 ops id p :
  pendingChunks s0 = [] -> ready s0 = f0 ->
  let s := run (step parse_json decode_utf8 registry_configured error_listener ui_handler) s0 ops in
  jget id (pendingChunks s) = Some p ->
  Z.of_nat (length (chunks p)) = nextIndex p /\ nextIndex p <= pc_count p /\
  Z.of_nat (length (concat (chunks p))) <= pc_byteLength p /\
  Forall (fun c => c <> [] /\ Z.of_nat (length c) <= CHUNK_PAYLOAD_BYTES) (chunks p) /\
  (exists f, in_force s f /\ within f (pc_byteLength p)) /\
  (forall L, (forall f, in_force s f -> num_leb (announced_limit f) (num_of_Z L) = true) ->
     pc_byteLength p <= L).
Proof.
  intros Hempty Hf0 s Hg.
  assert (chunks_ok s) as [_ Hs].
  { apply (run_invariant _ chunks_ok); [intros s' op Hs'; by apply keeps_exec|].
    split; [by left|]. by rewrite Hempty. }
  destruct (Hs id p Hg) as [H1 [H2 H3] [_ H5] (f & Hf & Hw) H7]. split_and!; try done; [by exists f|].
  intros L HL. eapply within_limit; [exact Hw|by apply HL].
Qed.
End bounded.

(** ** Concrete runs *)

(** ASCII text, and the JSON documents of the examples. *)
Definition ascii_utf8 (bytes : list Z) : option string :=
  Some (String.string_of_list_ascii (map (fun b => Ascii.ascii_of_N (Z.to_N b)) bytes)).

Definition small_ready : Frame :=
  [("type", VString "ready"); ("maxFrameBytes", VNumber (num_of_Z 2));
   ("maxReassembledFrameBytes", VNumber (num_of_Z 600000))].

Definition sample_json (text : string) : option value :=
  jget text
    [("{}", VObject []); ("ready", VObject small_ready);
     ("ask", VObject [("type", VString "extension_ui_request"); ("id", VString "7");
                      ("method", VString "confirm")]);
     ("chunk", VObject (chunk_frame "c" 2 2 0 [123]));
     ("over", VObject (chunk_frame "c" 2 600001 0 [123]));
     ("response", VObject [("type", VString "response"); ("id", VString "1"); ("success", VBool true)])].

Definition line (text : string) : string := (text +:+ String newline EmptyString)%stdpp.

Definition ready_child : RpcChild :=
  set_version 2 (set_ready false (Some (Ok small_ready)) (Some small_ready) (spawn (Some 7) new_RpcChild)).

Lemma chunks_reassemble_witness :
  process_all sample_json ascii_utf8 true None (VObject <$> chunk_frames "c" 2 2 0 [[123]; [125]]) ready_child =
  processFrame None [] ready_child.
Proof.
  apply (chunks_reassemble sample_json ascii_utf8 true None ready_child "c" 2 600000 2 2)
    with (text := "{}") (v := VObject []);
    try reflexivity; try (split; vm_compute; repeat split; congruence); try (vm_compute; congruence).
  - split; [done|cbn; lia].
  - by repeat constructor.
Defined.

(** The child negotiates version 2, and the first chunk of two arrives. *)
Definition negotiation : list Op :=
  [Start (Some 7); Registered (Ok tt); Stdout (line "ready"); Send "negotiate_protocol" [];
   Stdout (line "response"); Negotiated 0].

Definition waiting_chunks : PendingChunks := mkPendingChunks 2 2 1 [[123]] 1.

Lemma reassembly_bounded_witness :
  let s := run (step sample_json ascii_utf8 true true None) new_RpcChild (negotiation ++ [Stdout (line "chunk")]) in
  jget "c" (pendingChunks s) = Some waiting_chunks /\
  (exists f, in_force None s f /\ within f (pc_byteLength waiting_chunks)) /\
  Z.of_nat (length (concat (chunks waiting_chunks))) <= pc_byteLength waiting_chunks.
Proof.
  intros s. assert (jget "c" (pendingChunks s) = Some waiting_chunks) as Hc by (vm_compute; reflexivity).
  split; [exact Hc|].
  destruct (reassembly_bounded sample_json ascii_utf8 true true None None new_RpcChild
    (negotiation ++ [Stdout (line "chunk")]) "c" waiting_chunks eq_refl eq_refl Hc) as (_ & _ & Hb & _ & Hf & _).
  split; [exact Hf|exact Hb].
Defined.

(** The same child from its negotiation on: what it announced is the bound. *)
Example announced_bound :
  let s0 := run (step sample_json ascii_utf8 true true None) new_RpcChild negotiation in
  pendingChunks s0 = [] /\ ready s0 = Some small_ready /\ announced_limit (ready s0) = num_of_Z 600000 /\
  last (emitted (step sample_json ascii_utf8 true true None s0 (Stdout (line "over")))) =
    Some (EmError "rpc_chunk byteLength exceeds maxReassembledFrameBytes").
Proof. by vm_compute. Qed.

(** A response cut in two, with a timer and an exit between the reads. *)
Lemma stdout_split_invariant_witness :
  let s := run (step sample_json ascii_utf8 true true None) new_RpcChild (take 4 negotiation) in
  run (step sample_json ascii_utf8 true true None) s
    (Stdout (line "{}" +:+ "resp")%stdpp :: [ResponseTimeout "9"; Send "abort" []] ++ [Stdout (line "onse")]) =
  run (step sample_json ascii_utf8 true true None) s
    (Stdout (line "{}") :: [ResponseTimeout "9"; Send "abort" []] ++ [Stdout ("resp" +:+ line "onse")%stdpp]).
Proof.
  intros s. apply (stdout_split_invariant sample_json ascii_utf8 true None true (line "{}") "resp" (line "onse")
    [ResponseTimeout "9"; Send "abort" []] s); [reflexivity|by repeat constructor].
Defined.

(** The response to the negotiation and a chunk in one read: the chunk is
    refused, since the version is set when the awaiting code goes on, after the
    read has been processed. *)
Example chunk_with_response_refused :
  let s := run (step sample_json ascii_utf8 true true None) new_RpcChild
    [Start (Some 7); Registered (Ok tt); Stdout (line "ready"); Send "negotiate_protocol" [];
     Stdout (line "response" +:+ line "chunk")%stdpp; Negotiated 0] in
  pendingChunks s = [] /\ protocolVersion s = 2 /\
  last (emitted s) = Some (EmError "rpc_chunk received before v2 negotiation").
Proof. vm_compute. auto. Qed.

(** A dialog request after [close()]: the reply throws out of the data handler. *)
Example dialog_after_close_throws :
  let s := run (step sample_json ascii_utf8 true true None) new_RpcChild
    [Start (Some 7); Registered (Ok tt); Stdout (line "ready"); Close false] in
  (exec sample_json ascii_utf8 true true None (Stdout (line "ask")) s).1 = Throw "RpcChild is closed".
Proof. vm_compute. reflexivity. Qed.
