(* ===== verification/RecordUpdate.v ===== *)
(** * Field updates of records

    [s <| f := v |>] is the record [s] with its field [f] set to [v], as the
    code's [this.f = v], and [s <| f ::= g |>] the one with [g] applied to it.
    A record takes part once its [Fields] instance lists its projections. *)

From S2P Require Import Prelude.
From stdpp Require Import options.

(** A record rebuilt from its projections. *)
Class Fields (R : Type) : Type := rebuild : R -> R.

Class Setter {R T : Type} (field : R -> T) : Type := set_field : (T -> T) -> R -> R.
Arguments set_field {R T} field {_} f r /.

Ltac setter R field :=
  let e := constr:(_ : Fields R) in
  let e := eval hnf in e in
  lazymatch eval pattern field in e with
  | ?update _ =>
      let u := eval cbv beta in (fun f => update (fun r => f (field r))) in
      exact u
  end.

#[export] Set Warnings "-postfix-notation-not-level-1".

#[export] Hint Extern 1 (@Setter ?R _ ?field) => setter R field : typeclass_instances.

Notation "r <| field ::= f |>" := (set_field field f r)
  (at level 12, f at level 99, left associativity) : omp_scope.
Notation "r <| field := v |>" := (set_field field (fun _ => v) r)
  (at level 12, v at level 99, left associativity) : omp_scope.
