(* ===== verification/Promises.v ===== *)
(** * Promises that settle once

    A table of promises is a list of options, [None] until settled.  The suspended
    continuations of a component hold the promises they will settle; [outstanding]
    says that each promise not settled is held once.  The pool and the supervisor
    keep their books this way. *)

From S2P Require Import Prelude.
From stdpp Require Import options.
#[local] Open Scope Z_scope.

(** A promise settles once. *)
Definition settle_first {A} (r : A) (o : option A) : option A :=
  match o with None => Some r | Some _ => o end.

(** ** Counting *)

Fixpoint count {A} (f : A -> bool) (l : list A) : Z :=
  match l with [] => 0 | x :: l => Z.b2z (f x) + count f l end.

Section counting.
Context {A : Type} (f : A -> bool).

Lemma count_app l1 l2 : count f (l1 ++ l2) = count f l1 + count f l2.
Proof. induction l1; simpl; lia. Qed.

#[export] Instance count_perm : Proper (Permutation ==> eq) (count f).
Proof. induction 1; simpl; lia. Qed.

Lemma count_nonneg l : 0 <= count f l.
Proof. induction l as [|x l]; simpl; [done|]. destruct (f x); simpl; lia. Qed.

Lemma count_alter (g : A -> A) l i x :
  l !! i = Some x -> count f (alter g i l) = count f l - Z.b2z (f x) + Z.b2z (f (g x)).
Proof.
  revert i. induction l as [|y l IH]; intros [|i] Hi; simplify_eq/=; [lia|]. rewrite (IH i) by done. lia.
Qed.
End counting.

Lemma count_le {A} (f g : A -> bool) l : (forall x, f x = true -> g x = true) -> count f l <= count g l.
Proof.
  intros Hfg. induction l as [|x l IH]; simpl; [done|]. specialize (Hfg x).
  destruct (f x), (g x); simpl; lia.
Qed.

(** ** Promises that are not settled *)

(** [places] are the promises of [l] not settled, each once. *)
Definition outstanding {A} (places : list nat) (l : list (option A)) : Prop :=
  NoDup places /\ forall p, p ∈ places <-> l !! p = Some None.

#[export] Instance outstanding_perm {A} : Proper (Permutation ==> eq ==> iff) (@outstanding A).
Proof.
  intros L L' HL l _ <-. unfold outstanding. rewrite HL.
  by split; (intros [? Hp]; split; [done|]; intros p; rewrite <- Hp, HL).
Qed.

Lemma outstanding_settle {A} p places (r : A) l :
  outstanding (p :: places) l -> outstanding places (alter (settle_first r) p l).
Proof.
  intros [[Hp Hnd]%NoDup_cons Hin]. split; [done|]. intros q. rewrite list_lookup_alter.
  case_decide as Heq.
  - subst p. rewrite (proj1 (Hin q)) by (by left). by split.
  - rewrite <- Hin, elem_of_cons. naive_solver.
Qed.

Lemma outstanding_new {A} places (l : list (option A)) :
  outstanding places l -> outstanding (length l :: places) (l ++ [None]).
Proof.
  intros [Hnd Hin]. split.
  - apply NoDup_cons. split; [|done]. intros ?%Hin%lookup_lt_Some. lia.
  - intros q. rewrite elem_of_cons, Hin, lookup_snoc_Some. split.
    + intros [->|Hq]; [by right|]. left. split; [by eapply lookup_lt_Some|done].
    + intros [[_ ?]|[-> _]]; [by right|by left].
Qed.

Lemma outstanding_rejected {A} places (r : A) l :
  outstanding places l -> outstanding places (l ++ [Some r]).
Proof.
  intros [Hnd Hin]. split; [done|]. intros q. rewrite Hin, lookup_snoc_Some. split; [|by intros [[_ ?]|[_ ?]]].
  intros Hq. left. split; [by eapply lookup_lt_Some|done].
Qed.

Lemma settle_settled {A} p (r : A) (l : list (option A)) q x :
  l !! q = Some (Some x) -> alter (settle_first r) p l !! q = Some (Some x).
Proof. intros Hq. rewrite list_lookup_alter. case_decide; [subst; by rewrite Hq|done]. Qed.

Lemma settle_inv {A} p (r : A) (l : list (option A)) q x :
  alter (settle_first r) p l !! q = Some (Some x) -> l !! q = Some (Some x) \/ (q = p /\ x = r).
Proof.
  rewrite list_lookup_alter. case_decide; [|by left]. subst.
  destruct (l !! q) as [[y|]|]; simpl; intros; simplify_eq; [by left|by right].
Qed.

(** ** Permutations of what is held *)

Lemma perm_out {A} (a b c d : list A) : (a ++ b) ++ c ++ d ≡ₚ b ++ c ++ d ++ a.
Proof. rewrite <- app_assoc, (Permutation_app_comm a). by rewrite <- !app_assoc. Qed.

Lemma perm_front {A} (w w' h h' t : list A) : w' ++ h' ≡ₚ w ++ h -> h ++ w ++ t ≡ₚ h' ++ w' ++ t.
Proof.
  intros Hp. rewrite !app_assoc, (Permutation_app_comm h), (Permutation_app_comm h'). by rewrite Hp.
Qed.

Lemma filter_perm {A} (f : A -> bool) (l : list A) :
  List.filter (fun x => negb (f x)) l ++ List.filter f l ≡ₚ l.
Proof.
  induction l as [|x l IH]; [done|]. cbn. destruct (f x); cbn; [|by rewrite IH].
  by rewrite <- Permutation_middle, IH.
Qed.

