(* ===== verification/PoolManager.v ===== *)
(** * The pool of child processes (src/packages/core/src/pool-manager.ts)

    A pool holds at most [maxChildren] live children, one per conversation, and
    leases them.  Its methods are asynchronous: between two awaits they run
    without interruption, and at an await another method may run.  The model
    follows that shape.  A suspended continuation is a [Task] that holds what
    the code's closure holds; an operation is one reaction of the event loop: a
    call of a public method up to its first await, an external promise that
    settles (a factory, the registry, [child.close()]), a timer, or one task
    going on.  Tasks go on in any order, which allows more interleavings than
    the microtask queue does.

    Entries are shared mutable objects: they live in [heap], and the map, the
    leases and the tasks refer to them by number.  The registry is the state of
    SessionRegistry.v, and its synchronous methods are the definitions there.
    [lastUsedAt] is written and never read, and is left out, as are the texts
    and counts of the log events. *)

From S2P Require Import Prelude RecordUpdate Promises JsMap JsString SqlTable AdapterRegistry SessionRegistry.
From stdpp Require Import options.
#[local] Open Scope Z_scope.

(** ** Data *)

Inductive PoolError : Type :=
| PoolClosedError
| PoolGenericError (message : string)
| RegistryError (e : SessionError)
(** what the factory or [child.close()] threw *)
| ChildError (message : string).

Record PoolEntry := mkPoolEntry {
  child : nat;
  pe_adapterId : string;
  pe_conversationKey : string;
  ownerToken : string;
  inUse : bool;
  retiring : bool;
  idleTimer : option nat
}.

#[export] Instance pool_entry_fields : Fields PoolEntry := fun e =>
  mkPoolEntry (child e) (pe_adapterId e) (pe_conversationKey e) (ownerToken e) (inUse e) (retiring e)
    (idleTimer e).

(** A queued [acquire]; [w_promise] is the promise it returned. *)
Record Waiter := mkWaiter {
  w_adapterId : string;
  w_conversationKey : string;
  w_promise : nat
}.

(** A lease of the entry [lease_id] had when it was made. *)
Record Lease := mkLease { lease_entry : nat; lease_id : string; released : bool }.

(** [TeardownResult], with its error. *)
Inductive TeardownResult : Type :=
| child_closed
| close_failed (error : PoolError)
| release_failed (error : PoolError).

Inductive EvictOutcome : Type :=
| evicted
| evict_unavailable
| evict_close_failed (error : PoolError).

Inductive EvictForCapacityOutcome : Type :=
| capacity_freed
| all_in_use
| capacity_close_failed (error : PoolError).

(** How far [createEntry]'s promise is. *)
Inductive CreationPhase : Type :=
| CrFactory
| CrRegistry (child : nat)
| CrCleanup (child : nat) (error : PoolError)
| CrFinally (r : result PoolError nat)
| CrSettled (r : result PoolError nat).

Record PoolCreation := mkPoolCreation {
  pc_adapterId : string;
  pc_conversationKey : string;
  pc_parent : option string;
  pc_id : string;
  pc_phase : CreationPhase
}.

(** Who awaits [evictIdleForCapacity]. *)
Inductive CapacityCaller : Type :=
| CapAcquire (a k : string) (parent : option string) (id : string) (p : nat)
| CapDrain.

(** Who awaits [evictEntrySync]: the loop of [evictIdleForCapacity], with the
    candidates left and the last close error, or [retireChild]. *)
Inductive EvictCaller : Type :=
| ForCapacity (rest : list (string * nat)) (closeError : option PoolError) (caller : CapacityCaller)
| ForRetire (call : nat).

(** Who awaits [teardownEntry]. *)
Inductive TeardownCaller : Type :=
| ForEvictSync (caller : EvictCaller)
| ForEvictAsync
| ForCloseIdle (rest : list nat) (count : Z) (call : nat)
| ForClose.

Inductive Task : Type :=
(** [acquire] after [await inflight] *)
| AcquireInflight (a k id : string) (creation : nat) (p : nat)
(** [acquire] after [await this.evictIdleForCapacity()] *)
| AcquireEvicted (a k : string) (parent : option string) (id : string) (p : nat)
    (ev : EvictForCapacityOutcome)
(** [acquire] after [await this.createEntry(...)] *)
| AcquireCreated (a k id : string) (creation : nat) (p : nat)
(** [drainWaiters]: the continuations of an in-flight and of its own creation *)
| DrainInflight (w : Waiter) (id : string) (creation : nat)
| DrainCreated (w : Waiter) (id : string) (creation : nat)
(** [tryEvictForDrain] after its await, and the [finally] of its promise *)
| DrainEvicted (ev : EvictForCapacityOutcome)
| DrainFinally
(** [child.close()] is running; [operation] is the promise of the teardown *)
| Closing (id : string) (entry : nat) (operation : nat) (caller : TeardownCaller)
(** the awaiting code has its [TeardownResult] *)
| TornDown (id : string) (entry : nat) (operation : nat) (r : TeardownResult) (caller : TeardownCaller)
| EvictAsyncFinally (operation : nat) (error : option PoolError)
(** the code awaiting [evictEntrySync] has its outcome *)
| Evicted (id : string) (entry : nat) (outcome : EvictOutcome) (caller : EvictCaller)
(** [closeImpl] at its awaits *)
| CloseInflight (creations : list nat)
| CloseEvictions (snapshot : list nat) (errors : list PoolError)
| CloseTeardown (errors : list PoolError)
| CloseAwait (operations : list nat) (errors : list PoolError).

Inductive LogType : Type :=
| cap_reached | eviction | revival | wait_enqueued | wait_resolved | wait_cancelled | idle_sweep
| log_child_closed | ownership_release_failed | ownership_retained | create_failed.

(** What the pool does to the outside, in order. *)
Inductive PoolEvent : Type :=
| Log (type : LogType) (conversation : option (string * string))
| FactoryCalled (id : string)
| CloseCalled (child : nat)
| CloseDone (child : nat) (ok : bool)
| Exited (child : nat)
| Released (entry : nat) (ok : bool).

Record PoolManager := mkPoolManager {
  maxChildren : Z;
  heap : list PoolEntry;
  (** in the order of use *)
  entries : list (string * nat);
  pool_inflight : list (string * nat);
  pool_creations : list PoolCreation;
  waiters : list Waiter;
  closed : bool;
  pendingCreations : Z;
  closing : Z;
  (** teardown promises: [None] until settled, then the rejection if any *)
  operations : list (option (option PoolError));
  pendingEvictions : list nat;
  closePromise : option (option (result (list PoolError) unit));
  drainEviction : bool;
  timers : list (nat * string);
  nextTimer : nat;
  registry : SessionRegistry;
  (** the registry's clock *)
  clock : Z;
  (** the promises of [acquire], and of [retireChild] and [closeIdle] *)
  acquires : list (option (result PoolError nat));
  calls : list (option (result PoolError Z));
  leases : list Lease;
  tasks : list Task;
  trace : list PoolEvent
}.

#[export] Instance pool_fields : Fields PoolManager := fun s =>
  mkPoolManager (maxChildren s) (heap s) (entries s) (pool_inflight s) (pool_creations s) (waiters s)
    (closed s) (pendingCreations s) (closing s) (operations s) (pendingEvictions s) (closePromise s)
    (drainEviction s) (timers s) (nextTimer s) (registry s) (clock s) (acquires s) (calls s) (leases s)
    (tasks s) (trace s).

Definition initial_pool (maxChildren : Z) (registry : SessionRegistry) : PoolManager :=
  mkPoolManager maxChildren [] [] [] [] [] false 0 0 [] [] None false [] 0 registry 0 [] [] [] [] [].

(** [new PoolManager(options)] *)
Definition new_PoolManager (maxChildren idleTimeoutMs : Z) (registry : SessionRegistry) :
    result PoolError PoolManager :=
  if negb (Z.abs maxChildren <=? 2 ^ 53 - 1) || (maxChildren <? 1) then
    Throw (PoolGenericError "PoolManagerOptions.maxChildren must be a positive integer")
  else if negb (Z.abs idleTimeoutMs <=? 2 ^ 53 - 1) || (idleTimeoutMs <? 1) then
    Throw (PoolGenericError "PoolManagerOptions.idleTimeoutMs must be a positive integer")
  else Ok (initial_pool maxChildren registry).

(** ** Small steps *)

Definition conversationIdOf : string -> string -> string := conversationStorageKey.

Definition log (type : LogType) (a k : string) (s : PoolManager) : PoolManager :=
  s <| trace ::= fun t => t ++ [Log type (Some (a, k))] |>.

Definition log_pool (type : LogType) (s : PoolManager) : PoolManager :=
  s <| trace ::= fun t => t ++ [Log type None] |>.

Definition event (e : PoolEvent) (s : PoolManager) : PoolManager := s <| trace ::= fun t => t ++ [e] |>.

Definition add_task (t : Task) (s : PoolManager) : PoolManager := s <| tasks ::= fun l => l ++ [t] |>.

(** [entry.field = ...] *)
Definition update (e : nat) (f : PoolEntry -> PoolEntry) (s : PoolManager) : PoolManager :=
  s <| heap ::= alter f e |>.

Definition set_inUse (b : bool) (e : nat) : PoolManager -> PoolManager :=
  update e (fun entry => entry <| inUse := b |>).

Definition in_use (e : nat) (s : PoolManager) : bool :=
  match heap s !! e with Some entry => inUse entry | None => false end.

Definition conversation_text (a k : string) : string :=
  ("adapter=" +:+ quoted a +:+ " key=" +:+ quoted k)%stdpp.

Definition retiring_error (a k : string) : PoolError :=
  PoolGenericError ("child for " +:+ conversation_text a k +:+ " is retiring")%stdpp.

(** [this.entries.get(id)], with its object *)
Definition get_entry (id : string) (s : PoolManager) : option (nat * PoolEntry) :=
  match jget id (entries s) with
  | Some e => match heap s !! e with Some entry => Some (e, entry) | None => None end
  | None => None
  end.

(** [if (entry.idleTimer) { clearTimeout(entry.idleTimer); entry.idleTimer = null; }] *)
Definition clear_timer (e : nat) (s : PoolManager) : PoolManager :=
  match heap s !! e with
  | Some entry =>
      match idleTimer entry with
      | Some t =>
          update e (fun entry => entry <| idleTimer := None |>)
            (s <| timers ::= List.filter (fun h => negb (fst h =? t)%nat) |>)
      | None => s
      end
  | None => s
  end.

(** [touchLru(id)] *)
Definition touchLru (id : string) (s : PoolManager) : PoolManager :=
  match jget id (entries s) with
  | None => s
  | Some e => s <| entries ::= fun m => jset id e (jdelete id m) |>
  end.

(** [this.registry.touch(...)] *)
Definition registry_touch (a k : string) (s : PoolManager) : PoolManager :=
  s <| registry ::= fun r => with_db (touch (clock s) a k (sdb r)).2 r |>.

(** [occupiedSlots()] *)
Definition occupiedSlots (s : PoolManager) : Z :=
  Z.of_nat (length (entries s)) + pendingCreations s + closing s.

Definition settle_acquire (p : nat) (r : result PoolError nat) (s : PoolManager) : PoolManager :=
  s <| acquires ::= alter (settle_first r) p |>.

Definition reject (p : nat) (e : PoolError) : PoolManager -> PoolManager := settle_acquire p (Throw e).

Definition settle_call (q : nat) (r : result PoolError Z) (s : PoolManager) : PoolManager :=
  s <| calls ::= alter (settle_first r) q |>.

(** [resolve(this.makeLease(entry))] *)
Definition resolve_lease (p e : nat) (id : string) (s : PoolManager) : PoolManager :=
  let l := length (leases s) in
  settle_acquire p (Ok l) (s <| leases ::= fun ls => ls ++ [mkLease e id false] |>).

(** [entry.inUse = true; this.touchLru(id); this.registry.touch(...); makeLease] *)
Definition lease_entry_to (p e : nat) (id a k : string) (s : PoolManager) : PoolManager :=
  resolve_lease p e id (registry_touch a k (touchLru id (set_inUse true e s))).

(** [enqueueWaiter(adapterId, conversationKey)] for the promise [p] *)
Definition enqueueWaiter (a k : string) (p : nat) (s : PoolManager) : PoolManager :=
  log wait_enqueued a k (s <| waiters ::= fun ws => ws ++ [mkWaiter a k p] |>).

(** [rejectWaitersFor(id, error)], from the end of the queue *)
Definition rejectWaitersFor (id : string) (e : PoolError) (s : PoolManager) : PoolManager :=
  let mine w := String.eqb (conversationIdOf (w_adapterId w) (w_conversationKey w)) id in
  fold_left (fun s w => reject (w_promise w) e s) (rev (List.filter mine (waiters s)))
    (s <| waiters ::= List.filter (fun w => negb (mine w)) |>).

(** ** Teardown *)

(** [releaseOwnership(entry)] *)
Definition releaseOwnership (e : nat) (s : PoolManager) : option PoolError * PoolManager :=
  match heap s !! e with
  | None => (None, s)
  | Some entry =>
      match release (clock s) (pe_adapterId entry) (pe_conversationKey entry) (ownerToken entry)
              (sdb (registry s)) with
      | (r, db) =>
          (match r with Ok _ => None | Throw err => Some (RegistryError err) end,
           event (Released e (is_ok r)) (s <| registry ::= with_db db |>))
      end
  end.

(** [teardownEntry(entry)], up to the await of [child.close()] *)
Definition teardownEntry (id : string) (e : nat) (o : nat) (caller : TeardownCaller) (s : PoolManager) :
    PoolManager :=
  add_task (Closing id e o caller)
    match heap s !! e with
    | Some entry => event (CloseCalled (child entry)) s
    | None => s
    end.

(** The rest of [teardownEntry], when [child.close()] has settled. *)
Definition teardown_closed (e : nat) (r : result PoolError unit) (s : PoolManager) :
    TeardownResult * PoolManager :=
  match heap s !! e with
  | None => (child_closed, s)
  | Some entry =>
      let a := pe_adapterId entry in
      let k := pe_conversationKey entry in
      let s := event (CloseDone (child entry) (is_ok r)) s in
      match r with
      | Throw err => (close_failed err, log ownership_retained a k s)
      | Ok _ =>
          match releaseOwnership e s with
          | (Some err, s) => (release_failed err, log ownership_release_failed a k s)
          | (None, s) => (child_closed, log log_child_closed a k s)
          end
      end
  end.

Definition teardown_error (r : TeardownResult) : option PoolError :=
  match r with child_closed => None | close_failed e | release_failed e => Some e end.

(** A new teardown promise; [trackEviction] puts it into [pendingEvictions]. *)
Definition new_operation (tracked : bool) (s : PoolManager) : nat * PoolManager :=
  let o := length (operations s) in
  (o, s <| operations ::= fun l => l ++ [None] |>
        <| pendingEvictions ::= fun l => if tracked then l ++ [o] else l |>).

Definition settle_operation (o : nat) (err : option PoolError) (s : PoolManager) : PoolManager :=
  s <| operations ::= alter (settle_first err) o |>
    <| pendingEvictions ::= List.filter (fun o' => negb (o' =? o)%nat) |>.

(** The entry leaves the map, and its teardown starts. *)
Definition start_eviction (id : string) (e : nat) (caller : TeardownCaller) (s : PoolManager) :
    PoolManager :=
  let s := s <| entries ::= jdelete id |> <| closing ::= Z.add 1 |> in
  let '(o, s) := new_operation true s in
  teardownEntry id e o caller s.

Definition log_entry (type : LogType) (e : nat) (s : PoolManager) : PoolManager :=
  match heap s !! e with
  | Some entry => log type (pe_adapterId entry) (pe_conversationKey entry) s
  | None => s
  end.

(** [entry.inUse = false; entry.idleTimer = null; this.entries.set(id, entry)] *)
Definition restore_entry (id : string) (e : nat) (s : PoolManager) : PoolManager :=
  (update e (fun entry => entry <| inUse := false |> <| idleTimer := None |>) s)
    <| entries ::= jset id e |>.

(** [this.entries.get(id) !== entry || entry.inUse] *)
Definition not_evictable (id : string) (e : nat) (s : PoolManager) : bool :=
  negb (bool_decide (jget id (entries s) = Some e)) || in_use e s.

(** [evictEntrySync(id, entry, reason)]: its outcome, when it returns before its
    first await. *)
Definition evictEntrySync (id : string) (e : nat) (caller : EvictCaller) (s : PoolManager) :
    option EvictOutcome * PoolManager :=
  if not_evictable id e s then (Some evict_unavailable, s)
  else (None, start_eviction id e (ForEvictSync caller) (log_entry eviction e (clear_timer e s))).

(** The rest of [evictEntrySync]. *)
Definition evictEntrySync_done (id : string) (e : nat) (r : TeardownResult) (s : PoolManager) :
    EvictOutcome * PoolManager :=
  match r with
  | close_failed err => (evict_close_failed err, restore_entry id e s <| closing ::= Z.add (-1) |>)
  | release_failed _ => (evicted, log_entry ownership_release_failed e (s <| closing ::= Z.add (-1) |>))
  | child_closed => (evicted, s <| closing ::= Z.add (-1) |>)
  end.

(** [evictEntryAsync(id, entry, "idle")] *)
Definition evictEntryAsync (id : string) (e : nat) (s : PoolManager) : PoolManager :=
  if not_evictable id e s then s
  else
    let s := clear_timer e s in
    let s := s <| entries ::= jdelete id |> <| closing ::= Z.add 1 |> in
    let s := log_entry eviction e s in
    let '(o, s) := new_operation true s in
    teardownEntry id e o ForEvictAsync s.

(** ** Capacity *)

(** [evictIdleForCapacity] has its outcome, and its caller will go on. *)
Definition capacity_outcome (ev : EvictForCapacityOutcome) (caller : CapacityCaller) (s : PoolManager) :
    PoolManager :=
  match caller with
  | CapAcquire a k parent id p => add_task (AcquireEvicted a k parent id p ev) s
  | CapDrain => add_task (DrainEvicted ev) s
  end.

(** The loop over the idle candidates, up to the next await.  A candidate that
    passes the loop's test is evicted, since [evictEntrySync] tests the same. *)
Fixpoint evict_loop (idle : list (string * nat)) (closeError : option PoolError)
    (caller : CapacityCaller) (s : PoolManager) : PoolManager :=
  match idle with
  | [] =>
      match closeError with
      | Some err => capacity_outcome (capacity_close_failed err) caller (log_pool cap_reached s)
      | None =>
          if occupiedSlots s <? maxChildren s then capacity_outcome capacity_freed caller s
          else capacity_outcome all_in_use caller (log_pool cap_reached s)
      end
  | (id, e) :: rest =>
      if not_evictable id e s then evict_loop rest closeError caller s
      else
        match evictEntrySync id e (ForCapacity rest closeError caller) s with
        | (_, s) => s
        end
  end.

(** [evictIdleForCapacity()] *)
Definition evictIdleForCapacity (caller : CapacityCaller) (s : PoolManager) : PoolManager :=
  match List.filter (fun ie => negb (in_use ie.2 s)) (entries s) with
  | [] => capacity_outcome all_in_use caller (log_pool cap_reached s)
  | idle => evict_loop idle None caller s
  end.

(** ... after [await this.evictEntrySync(...)]. *)
Definition evict_resumed (outcome : EvictOutcome) (rest : list (string * nat))
    (closeError : option PoolError) (caller : CapacityCaller) (s : PoolManager) : PoolManager :=
  match outcome with
  | evicted => capacity_outcome capacity_freed caller s
  | evict_unavailable => evict_loop rest closeError caller s
  | evict_close_failed err => evict_loop rest (Some err) caller s
  end.

(** ** Creation *)

Definition set_creation (c : nat) (ph : CreationPhase) (s : PoolManager) : PoolManager :=
  s <| pool_creations ::= alter (fun cr => mkPoolCreation (pc_adapterId cr) (pc_conversationKey cr)
        (pc_parent cr) (pc_id cr) ph) c |>.

Definition creation_result (c : nat) (s : PoolManager) : option (result PoolError nat) :=
  match pool_creations s !! c with
  | Some cr => match pc_phase cr with CrSettled r => Some r | _ => None end
  | None => None
  end.

(** [createEntry(...)], up to the await of the factory; the promise's number *)
Definition createEntry (a k id : string) (parent : option string) (s : PoolManager) :
    nat * PoolManager :=
  match jget id (pool_inflight s) with
  | Some c => (c, s)
  | None =>
      let c := length (pool_creations s) in
      (c, event (FactoryCalled id)
        (s <| pendingCreations ::= Z.add 1 |>
           <| pool_creations ::= fun l => l ++ [mkPoolCreation a k parent id CrFactory] |>
           <| pool_inflight ::= jset id c |>))
  end.

(** The factory settles; [getOrCreate] is called. *)
Definition factory_done (c : nat) (r : result PoolError nat) (s : PoolManager) : PoolManager :=
  match pool_creations s !! c with
  | Some cr =>
      match pc_phase cr with
      | CrFactory =>
          match r with
          | Throw err =>
              set_creation c (CrFinally (Throw err))
                (log create_failed (pc_adapterId cr) (pc_conversationKey cr) s)
          | Ok ch =>
              match getOrCreate (pc_adapterId cr) (pc_conversationKey cr) (pc_parent cr) (registry s) with
              | (Ok _, reg) => set_creation c (CrRegistry ch) (s <| registry := reg |>)
              | (Throw err, reg) =>
                  set_creation c (CrCleanup ch (RegistryError err))
                    (event (CloseCalled ch) (s <| registry := reg |>))
              end
          end
      | _ => s
      end
  | None => s
  end.

(** [setOwner] on the registry of the pool. *)
Definition set_owner (a k : string) (current new : option string) (s : PoolManager) :
    result SessionError AcquireResult * PoolManager :=
  match setOwner (clock s) a k current new (sdb (registry s)) with
  | (r, db) => (r, s <| registry ::= with_db db |>)
  end.

(** [await this.closeChildOrThrow(...); throw err]: the close starts. *)
Definition cleanup (c ch : nat) (err : PoolError) (s : PoolManager) : PoolManager :=
  set_creation c (CrCleanup ch err) (event (CloseCalled ch) s).

(** The entry of a creation whose ownership is claimed. *)
Definition insert_entry (c ch : nat) (a k id token : string) (s : PoolManager) : PoolManager :=
  let e := length (heap s) in
  let s := log revival a k s in
  let s := s <| heap ::= fun h => h ++ [mkPoolEntry ch a k token false false None] |>
             <| entries ::= jset id e |> in
  set_creation c (CrFinally (Ok e)) s.

Definition owner_mismatch (e : SessionError) : bool :=
  match e with OwnerMismatchError _ _ _ => true | _ => false end.

(** After [OwnerMismatchError]: the transfer from a stale owner. *)
Definition transfer_owner (c ch : nat) (a k id token : string) (s : PoolManager) : PoolManager :=
  match session_get a k (sdb (registry s)) ≫= sr_currentOwner with
  | None => cleanup c ch (PoolGenericError ("registry row disappeared for " +:+ conversation_text a k)%stdpp) s
  | Some staleOwner =>
      match set_owner a k (Some staleOwner) (Some token) (log revival a k s) with
      | (Ok _, s) => insert_entry c ch a k id token s
      | (Throw err, s) =>
          if owner_mismatch err
          then cleanup c ch (PoolGenericError ("could not claim ownership for " +:+ conversation_text a k +:+
                  " (owner changed during transfer)")%stdpp) s
          else cleanup c ch (RegistryError err) s
      end
  end.

(** [getOrCreate]'s promise settles with [r]; [token] is the new owner token. *)
Definition registry_done (c : nat) (r : result SessionError SessionRecord) (token : string)
    (s : PoolManager) : PoolManager :=
  match pool_creations s !! c with
  | Some cr =>
      let a := pc_adapterId cr in
      let k := pc_conversationKey cr in
      match pc_phase cr with
      | CrRegistry ch =>
          match r with
          | Throw err => cleanup c ch (RegistryError err) s
          | Ok _ =>
              match set_owner a k None (Some token) s with
              | (Ok _, s) => insert_entry c ch a k (pc_id cr) token s
              | (Throw err, s) =>
                  if owner_mismatch err then transfer_owner c ch a k (pc_id cr) token s
                  else cleanup c ch (RegistryError err) s
              end
          end
      | _ => s
      end
  | None => s
  end.

(** The close of a child whose creation failed settles. *)
Definition cleanup_done (c : nat) (r : result PoolError unit) (s : PoolManager) : PoolManager :=
  match pool_creations s !! c with
  | Some cr =>
      match pc_phase cr with
      | CrCleanup ch err =>
          set_creation c (CrFinally (Throw match r with Ok _ => err | Throw closeErr => closeErr end))
            (log create_failed (pc_adapterId cr) (pc_conversationKey cr)
              (event (CloseDone ch (is_ok r)) s))
      | _ => s
      end
  | None => s
  end.

(** [.finally(() => { this.inflight.delete(id); this.pendingCreations--; })] *)
Definition creation_finally (c : nat) (s : PoolManager) : PoolManager :=
  match pool_creations s !! c with
  | Some cr =>
      match pc_phase cr with
      | CrFinally r =>
          set_creation c (CrSettled r)
            (s <| pool_inflight ::= jdelete (pc_id cr) |> <| pendingCreations ::= Z.add (-1) |>)
      | _ => s
      end
  | None => s
  end.

(** ** The wait queue *)

Definition waiter_id (w : Waiter) : string := conversationIdOf (w_adapterId w) (w_conversationKey w).

Definition log_waiter (type : LogType) (w : Waiter) : PoolManager -> PoolManager :=
  log type (w_adapterId w) (w_conversationKey w).

Definition lease_waiter (w : Waiter) (e : nat) (id : string) (s : PoolManager) : PoolManager :=
  log_waiter wait_resolved w
    (lease_entry_to (w_promise w) e id (w_adapterId w) (w_conversationKey w) s).

(** [tryEvictForDrain()], up to its first await. *)
Definition start_drain_eviction (s : PoolManager) : PoolManager :=
  if drainEviction s then s else evictIdleForCapacity CapDrain s <| drainEviction := true |>.

(** One round of the [while] loop, with the waiter at the head: go round again? *)
Definition drain_round (w : Waiter) (rest : list Waiter) (s : PoolManager) : bool * PoolManager :=
  let id := waiter_id w in
  let shifted := s <| waiters := rest |> in
  match get_entry id s with
  | Some (e, entry) =>
      if retiring entry then
        (true, reject (w_promise w) (retiring_error (w_adapterId w) (w_conversationKey w)) shifted)
      else if inUse entry then (false, s)
      else (true, lease_waiter w e id (clear_timer e shifted))
  | None =>
      match jget id (pool_inflight s) with
      | Some c => (false, add_task (DrainInflight w id c) shifted)
      | None =>
          if maxChildren s <=? occupiedSlots s then
            (false, if forallb (fun ie => in_use ie.2 s) (entries s) then s else start_drain_eviction s)
          else
            let '(c, s) := createEntry (w_adapterId w) (w_conversationKey w) id None shifted in
            (false, add_task (DrainCreated w id c) s)
      end
  end.

(** Every round that goes on shifts the queue, so its length is fuel enough. *)
Fixpoint drain_loop (fuel : nat) (s : PoolManager) : PoolManager :=
  match fuel, waiters s with
  | S fuel, w :: rest =>
      match drain_round w rest s with
      | (true, s) => drain_loop fuel s
      | (false, s) => s
      end
  | _, _ => s
  end.

(** [drainWaiters()] *)
Definition drainWaiters (s : PoolManager) : PoolManager := drain_loop (length (waiters s)) s.

(** [tryEvictForDrain()] after its await: a close failure rejects every waiter. *)
Definition drain_evicted (ev : EvictForCapacityOutcome) (s : PoolManager) : PoolManager :=
  match ev with
  | capacity_close_failed err =>
      fold_left (fun s w => log_waiter wait_cancelled w (reject (w_promise w) err s)) (waiters s)
        (s <| waiters := [] |>)
  | _ => s
  end.

(** [.finally(() => { this.drainEviction = null; this.drainWaiters(); })] *)
Definition drain_finally (s : PoolManager) : PoolManager := drainWaiters (s <| drainEviction := false |>).

(** ** Leases *)

(** [acquire], from the check after the eviction to the await of [createEntry]. *)
Definition acquire_create (a k id : string) (parent : option string) (p : nat) (s : PoolManager) :
    PoolManager :=
  if closed s then reject p PoolClosedError s
  else
    let '(c, s) := createEntry a k id parent s in
    add_task (AcquireCreated a k id c p) s.

(** [acquire(adapterId, conversationKey, parentConversationKey)], up to its first
    await; [p] is its promise. *)
Definition acquire_body (a k : string) (parent : option string) (p : nat) (s : PoolManager) :
    PoolManager :=
  if is_empty a then reject p (PoolGenericError "adapterId is required") s
  else if is_empty k then reject p (PoolGenericError "conversationKey is required") s
  else if closed s then reject p PoolClosedError s
  else
    let id := conversationIdOf a k in
    match get_entry id s with
    | Some (e, entry) =>
        if retiring entry then reject p (retiring_error a k) s
        else if inUse entry then enqueueWaiter a k p s
        else
          resolve_lease p e id (registry_touch a k (set_inUse true e (touchLru id (clear_timer e s))))
    | None =>
        match jget id (pool_inflight s) with
        | Some c => add_task (AcquireInflight a k id c p) s
        | None =>
            if maxChildren s <=? occupiedSlots s
            then evictIdleForCapacity (CapAcquire a k parent id p) s
            else acquire_create a k id parent p s
        end
    end.

Definition acquire (a k : string) (parent : option string) (s : PoolManager) : PoolManager :=
  acquire_body a k parent (length (acquires s)) (s <| acquires ::= fun l => l ++ [None] |>).

(** [armIdleTimer(entry)] *)
Definition armIdleTimer (e : nat) (s : PoolManager) : PoolManager :=
  match heap s !! e with
  | None => s
  | Some entry =>
      let s := clear_timer e s in
      let t := nextTimer s in
      update e (fun entry => entry <| idleTimer := Some t |>)
        (s <| timers ::= fun l => l ++ [(t, conversationIdOf (pe_adapterId entry) (pe_conversationKey entry))] |>
           <| nextTimer ::= S |>)
  end.

(** The idle timer's callback. *)
Definition idle_timeout (t : nat) (s : PoolManager) : PoolManager :=
  match List.find (fun h => (fst h =? t)%nat) (timers s) with
  | None => s
  | Some (_, id) =>
      let s := s <| timers ::= List.filter (fun h => negb (fst h =? t)%nat) |> in
      match jget id (entries s) with
      | Some e => if in_use e s then s else log_entry idle_sweep e (evictEntryAsync id e s)
      | None => s
      end
  end.

(** [releaseEntry(id)] *)
Definition releaseEntry (id : string) (s : PoolManager) : PoolManager :=
  if closed s then s
  else
    match get_entry id s with
    | None => s
    | Some (e, entry) =>
        if retiring entry then s
        else
          drainWaiters (armIdleTimer e
            (registry_touch (pe_adapterId entry) (pe_conversationKey entry)
              (touchLru id (set_inUse false e s))))
    end.

(** [lease.release()] *)
Definition release_lease (l : nat) (s : PoolManager) : PoolManager :=
  match leases s !! l with
  | Some lease =>
      if released lease then s
      else releaseEntry (lease_id lease)
             (s <| leases ::= alter (fun x => mkLease (lease_entry x) (lease_id x) true) l |>)
  | None => s
  end.

(** [forgetExitedChild(adapterId, conversationKey, child)] *)
Definition forgetExitedChild (a k : string) (ch : nat) (s : PoolManager) : PoolManager :=
  let id := conversationIdOf a k in
  match get_entry id s with
  | None => s
  | Some (e, entry) =>
      if negb (child entry =? ch)%nat then s
      else
        let s := clear_timer e s <| entries ::= jdelete id |> in
        match releaseOwnership e (event (Exited ch) s) with
        | (Some _, s) => drainWaiters (log ownership_release_failed a k s)
        | (None, s) => drainWaiters (log log_child_closed a k s)
        end
  end.

(** [retireChild(adapterId, conversationKey, child)], up to its await; [q] is its
    promise. *)
Definition retire_body (a k : string) (ch q : nat) (s : PoolManager) : PoolManager :=
  let id := conversationIdOf a k in
  match get_entry id s with
  | None => settle_call q (Ok 0) s
  | Some (e, entry) =>
      if negb (child entry =? ch)%nat || retiring entry then settle_call q (Ok 0) s
      else
        match evictEntrySync id e (ForRetire q)
                (update e (fun entry => entry <| retiring := true |> <| inUse := false |>) s) with
        | (Some outcome, s) => add_task (Evicted id e outcome (ForRetire q)) s
        | (None, s) => s
        end
  end.

Definition retireChild (a k : string) (ch : nat) (s : PoolManager) : PoolManager :=
  retire_body a k ch (length (calls s)) (s <| calls ::= fun l => l ++ [None] |>).

(** [retireConversation(adapterId, conversationKey)] *)
Definition retireConversation (a k : string) (s : PoolManager) : PoolManager :=
  match get_entry (conversationIdOf a k) s with
  | None => s <| calls ::= fun l => l ++ [Some (Ok 0)] |>
  | Some (_, entry) => retireChild a k (child entry) s
  end.

(** [retireChild] after its await. *)
Definition retire_resumed (id : string) (e : nat) (outcome : EvictOutcome) (q : nat) (s : PoolManager) :
    PoolManager :=
  match outcome with
  | evict_close_failed err =>
      settle_call q (Throw err) (rejectWaitersFor id err (set_inUse true e s))
  | _ => settle_call q (Ok 0) (drainWaiters s)
  end.

(** ** Closing *)

Definition cancel_waiter (s : PoolManager) (w : Waiter) : PoolManager :=
  log_waiter wait_cancelled w (reject (w_promise w) PoolClosedError s).

(** [close()], up to the first await of [closeImpl] *)
Definition close (s : PoolManager) : PoolManager :=
  match closePromise s with
  | Some _ => s
  | None =>
      let s := s <| closed := true |> <| closePromise := Some None |> in
      let s := fold_left cancel_waiter (waiters s) (s <| waiters := [] |>) in
      let s := fold_left (fun s ie => clear_timer ie.2 s) (entries s) s in
      add_task (CloseInflight (pool_inflight s).*2) s
  end.

(** One round of [waitForPendingEvictions]. *)
Definition await_evictions (errors : list PoolError) (s : PoolManager) : PoolManager :=
  match pendingEvictions s with
  | [] => add_task (CloseTeardown errors) s
  | snapshot => add_task (CloseEvictions snapshot errors) s
  end.

(** After [await Promise.allSettled(inflightPromises)]. *)
Definition close_inflight_done (s : PoolManager) : PoolManager :=
  await_evictions [] (s <| pool_inflight := [] |> <| pendingCreations := 0 |>).

(** The errors of settled teardown promises. *)
Definition rejections (os : list nat) (s : PoolManager) : list PoolError :=
  omap (fun o => mjoin (mjoin (operations s !! o))) os.

Definition start_close_teardown (acc : list nat * PoolManager) (ie : string * nat) :
    list nat * PoolManager :=
  let '(os, s) := acc in
  let '(o, s) := new_operation false s in
  (os ++ [o], teardownEntry ie.1 ie.2 o ForClose s).

(** [closeImpl] after the evictions: every entry is torn down. *)
Definition close_teardown (errors : list PoolError) (s : PoolManager) : PoolManager :=
  let '(os, s) := fold_left start_close_teardown (entries s) ([], s) in
  add_task (CloseAwait os errors) (s <| entries := [] |>).

Definition close_finish (errors : list PoolError) (s : PoolManager) : PoolManager :=
  s <| closePromise := Some (Some match errors with [] => Ok tt | _ => Throw errors end) |>.

(** The loop of [closeIdle], up to its next await. *)
Fixpoint closeIdle_loop (toClose : list nat) (count : Z) (q : nat) (s : PoolManager) : PoolManager :=
  match toClose with
  | [] => settle_call q (Ok count) (drainWaiters s)
  | e :: rest =>
      match heap s !! e with
      | None => closeIdle_loop rest count q s
      | Some entry =>
          let id := conversationIdOf (pe_adapterId entry) (pe_conversationKey entry) in
          if not_evictable id e s then closeIdle_loop rest count q s
          else start_eviction id e (ForCloseIdle rest count q) s
      end
  end.

(** [closeIdle()], up to its first await *)
Definition closeIdle (s : PoolManager) : PoolManager :=
  let q := length (calls s) in
  let toClose := List.filter (fun e => negb (in_use e s)) (entries s).*2 in
  let s := fold_left (fun s e => clear_timer e s) toClose (s <| calls ::= fun l => l ++ [None] |>) in
  closeIdle_loop toClose 0 q s.

(** ** The event loop *)

(** Is the promise a task awaits settled?  The close of a child is an event of
    its own. *)
Definition enabled (t : Task) (s : PoolManager) : bool :=
  match t with
  | AcquireInflight _ _ _ c _ | AcquireCreated _ _ _ c _ | DrainInflight _ _ c | DrainCreated _ _ c =>
      bool_decide (is_Some (creation_result c s))
  | CloseInflight cs => forallb (fun c => bool_decide (is_Some (creation_result c s))) cs
  | CloseEvictions os _ | CloseAwait os _ =>
      forallb (fun o => bool_decide (is_Some (mjoin (operations s !! o)))) os
  | Closing _ _ _ _ => false
  | _ => true
  end.

(** A settled creation reaches an [acquire] that joined it, a waiter that joined
    it, and the [acquire] or the waiter that started it. *)
Definition acquire_inflight (a k id : string) (p : nat) (r : result PoolError nat) (s : PoolManager) :
    PoolManager :=
  match r with
  | Throw err => reject p err s
  | Ok e =>
      if closed s then reject p PoolClosedError s
      else if in_use e s then enqueueWaiter a k p s
      else lease_entry_to p e id a k s
  end.

Definition acquire_created (a k id : string) (p : nat) (r : result PoolError nat) (s : PoolManager) :
    PoolManager :=
  match r with
  | Throw err => reject p err s
  | Ok e =>
      if closed s then reject p PoolClosedError s
      else lease_entry_to p e id a k s
  end.

Definition drain_inflight (w : Waiter) (id : string) (r : result PoolError nat) (s : PoolManager) :
    PoolManager :=
  match r with
  | Throw err => drainWaiters (reject (w_promise w) err s)
  | Ok e =>
      if closed s then reject (w_promise w) PoolClosedError s
      else if in_use e s then drainWaiters (s <| waiters ::= cons w |>)
      else drainWaiters (lease_waiter w e id s)
  end.

Definition drain_created (w : Waiter) (id : string) (r : result PoolError nat) (s : PoolManager) :
    PoolManager :=
  match r with
  | Throw err => drainWaiters (reject (w_promise w) err s)
  | Ok e =>
      if closed s then reject (w_promise w) PoolClosedError s
      else drainWaiters (lease_waiter w e id s)
  end.

(** [acquire] after the eviction; the pool's capacity is not looked at again. *)
Definition acquire_evicted (a k id : string) (parent : option string) (p : nat)
    (ev : EvictForCapacityOutcome) (s : PoolManager) : PoolManager :=
  match ev with
  | capacity_freed => acquire_create a k id parent p s
  | all_in_use => enqueueWaiter a k p s
  | capacity_close_failed err => reject p err s
  end.

(** The code awaiting a teardown goes on. *)
Definition torn_down (id : string) (e o : nat) (r : TeardownResult) (caller : TeardownCaller)
    (s : PoolManager) : PoolManager :=
  match caller with
  | ForEvictSync caller =>
      let '(outcome, s) := evictEntrySync_done id e r s in add_task (Evicted id e outcome caller) s
  | ForEvictAsync =>
      add_task (EvictAsyncFinally o (teardown_error r))
        match r with close_failed _ => restore_entry id e s | _ => s end
  | ForCloseIdle rest count q =>
      let s := s <| closing ::= Z.add (-1) |> in
      match r with
      | close_failed _ => closeIdle_loop rest count q (restore_entry id e s)
      | _ => closeIdle_loop rest (count + 1) q s
      end
  | ForClose => s
  end.

Definition with_result (c : nat) (s : PoolManager) (k : result PoolError nat -> PoolManager -> PoolManager) :
    PoolManager :=
  match creation_result c s with Some r => k r s | None => s end.

Definition run_task (t : Task) (s : PoolManager) : PoolManager :=
  match t with
  | AcquireInflight a k id c p => with_result c s (acquire_inflight a k id p)
  | AcquireEvicted a k parent id p ev => acquire_evicted a k id parent p ev s
  | AcquireCreated a k id c p => with_result c s (acquire_created a k id p)
  | DrainInflight w id c => with_result c s (drain_inflight w id)
  | DrainCreated w id c => with_result c s (drain_created w id)
  | DrainEvicted ev => add_task DrainFinally (drain_evicted ev s)
  | DrainFinally => drain_finally s
  | Closing _ _ _ _ => s
  | TornDown id e o r caller => torn_down id e o r caller s
  | EvictAsyncFinally o err => settle_operation o err (drainWaiters (s <| closing ::= Z.add (-1) |>))
  | Evicted id e outcome (ForCapacity rest closeError caller) =>
      evict_resumed outcome rest closeError caller s
  | Evicted id e outcome (ForRetire q) => retire_resumed id e outcome q s
  | CloseInflight _ => close_inflight_done s
  | CloseEvictions os errors => await_evictions (errors ++ rejections os s) s
  | CloseTeardown errors => close_teardown errors s
  | CloseAwait os errors => close_finish (errors ++ rejections os s) s
  end.

(** [child.close()] of a teardown settles. *)
Definition child_close_done (id : string) (e o : nat) (caller : TeardownCaller)
    (r : result PoolError unit) (s : PoolManager) : PoolManager :=
  let '(result, s) := teardown_closed e r s in
  match caller with
  | ForEvictAsync => add_task (TornDown id e o result caller) s
  | ForClose => settle_operation o (teardown_error result) s
  | _ => add_task (TornDown id e o result caller) (settle_operation o None s)
  end.

Inductive Op : Type :=
| Acquire (a k : string) (parent : option string)
| ReleaseLease (l : nat)
| ForgetExitedChild (a k : string) (ch : nat)
| RetireChild (a k : string) (ch : nat)
| RetireConversation (a k : string)
| Close
| CloseIdle
| FactoryDone (c : nat) (r : result PoolError nat)
| RegistryDone (c : nat) (r : result SessionError SessionRecord) (token : string)
| CleanupDone (c : nat) (r : result PoolError unit)
| CreationFinally (c : nat)
| ChildCloseDone (task : nat) (r : result PoolError unit)
| Resume (task : nat)
| IdleTimeout (t : nat)
| RegistryStep (op : session_op)
| Tick (now : Z).

Definition drop_task (i : nat) (s : PoolManager) : PoolManager := s <| tasks ::= base.delete i |>.

Definition step (s : PoolManager) (op : Op) : PoolManager :=
  match op with
  | Acquire a k parent => acquire a k parent s
  | ReleaseLease l => release_lease l s
  | ForgetExitedChild a k ch => forgetExitedChild a k ch s
  | RetireChild a k ch => retireChild a k ch s
  | RetireConversation a k => retireConversation a k s
  | Close => close s
  | CloseIdle => closeIdle s
  | FactoryDone c r => factory_done c r s
  | RegistryDone c r token => registry_done c r token s
  | CleanupDone c r => cleanup_done c r s
  | CreationFinally c => creation_finally c s
  | ChildCloseDone i r =>
      match tasks s !! i with
      | Some (Closing id e o caller) => child_close_done id e o caller r (drop_task i s)
      | _ => s
      end
  | Resume i =>
      match tasks s !! i with
      | Some t => if enabled t s then run_task t (drop_task i s) else s
      | None => s
      end
  | IdleTimeout t => idle_timeout t s
  | RegistryStep op => s <| registry ::= fun r => session_step r op |>
  | Tick now => s <| clock := now |>
  end.

(** [stats()] *)
Record PoolStats := mkPoolStats {
  st_size : Z; st_activeLeases : Z; st_idle : Z; st_waiters : Z; st_closing : Z; st_maxChildren : Z
}.

Definition stats (s : PoolManager) : PoolStats :=
  let size := Z.of_nat (length (entries s)) in
  let active := Z.of_nat (length (List.filter (fun ie => in_use ie.2 s) (entries s))) in
  mkPoolStats size active (size - active) (Z.of_nat (length (waiters s))) (closing s) (maxChildren s).
