(* ===== verification/PoolBooks.v ===== *)
(** * The books of the pool (src/packages/core/src/pool-manager.ts)

    Every method and continuation of PoolManager.v keeps one invariant, [ok]: the
    unanswered [acquire]s are each in one place, the counters of the pool match
    its map, its creations and its suspended teardowns, and ownership is released
    only after the end of the child.  The theorems are read off it; concrete runs
    show where the pool does less than it promises. *)

From S2P Require Import Prelude RecordUpdate Promises JsMap JsString SqlTable AdapterRegistry SessionRegistry.
From S2P Require Import PoolManager.
From stdpp Require Import options.
#[local] Open Scope Z_scope.

(** Invariants of a pool with the cap [cap], from a state on in which the
    [acquire]s had settled as in [old]. *)
Section books.
Context (old : list (option (result PoolError nat))) (cap : Z).

(** The leases handed out are different objects, and what was settled stays. *)
Record granted_ok (l : list (option (result PoolError nat))) (n : nat) : Prop := {
  gr_bound : forall p x, l !! p = Some (Some (Ok x)) -> (x < n)%nat;
  gr_distinct : forall p p' x, l !! p = Some (Some (Ok x)) -> l !! p' = Some (Some (Ok x)) -> p = p';
  gr_settled : forall p r, old !! p = Some (Some r) -> l !! p = Some (Some r)
}.

Lemma granted_throw p e l n : granted_ok l n -> granted_ok (alter (settle_first (Throw e)) p l) n.
Proof.
  intros [H1 H2 H3]. split.
  - intros q x [Hx|[_ ?]]%settle_inv; [eauto|done].
  - intros q q' x [Hx|[_ ?]]%settle_inv [Hx'|[_ ?]]%settle_inv; try done. eauto.
  - intros q r Hq. apply settle_settled. auto.
Qed.

Lemma granted_lease p l n : granted_ok l n -> granted_ok (alter (settle_first (Ok n)) p l) (S n).
Proof.
  intros [H1 H2 H3]. split.
  - intros q x [Hx%H1|[_ [= ->]]]%settle_inv; lia.
  - intros q q' x [Hx|[-> [= ->]]]%settle_inv [Hx'|[-> Hn]]%settle_inv; try done; [by eapply H2| |].
    + injection Hn as ->. apply H1 in Hx. lia.
    + apply H1 in Hx'. lia.
  - intros q r Hq. apply settle_settled. auto.
Qed.

Lemma granted_new l n : granted_ok l n -> granted_ok (l ++ [None]) n.
Proof.
  intros [H1 H2 H3]. split.
  - intros p x [[_ Hx]|[_ ?]]%lookup_snoc_Some; [eauto|done].
  - intros p p' x [[_ Hx]|[_ ?]]%lookup_snoc_Some [[_ Hx']|[_ ?]]%lookup_snoc_Some; try done. eauto.
  - intros p r Hp. by apply lookup_app_l_Some, H3.
Qed.

(** ** The books of the pool *)

Definition capacity_acquires (caller : CapacityCaller) : list nat :=
  match caller with CapAcquire _ _ _ _ p => [p] | CapDrain => [] end.

Definition evict_acquires (caller : EvictCaller) : list nat :=
  match caller with ForCapacity _ _ caller => capacity_acquires caller | ForRetire _ => [] end.

Definition teardown_acquires (caller : TeardownCaller) : list nat :=
  match caller with ForEvictSync caller => evict_acquires caller | _ => [] end.

(** The [acquire]s a suspended continuation will answer. *)
Definition task_acquires (t : Task) : list nat :=
  match t with
  | AcquireInflight _ _ _ _ p | AcquireEvicted _ _ _ _ p _ | AcquireCreated _ _ _ _ p => [p]
  | DrainInflight w _ _ | DrainCreated w _ _ => [w_promise w]
  | Closing _ _ _ caller | TornDown _ _ _ _ caller => teardown_acquires caller
  | Evicted _ _ _ caller => evict_acquires caller
  | _ => []
  end.

(** Where the unanswered [acquire]s are: in the queue, or in a continuation. *)
Definition places (s : PoolManager) : list nat :=
  (w_promise <$> waiters s) ++ (tasks s ≫= task_acquires).

Definition unsettled (cr : PoolCreation) : bool :=
  match pc_phase cr with CrSettled _ => false | _ => true end.

(** A creation that has, or will have, a child without an entry. *)
Definition working (cr : PoolCreation) : bool :=
  match pc_phase cr with CrFactory | CrRegistry _ | CrCleanup _ _ => true | _ => false end.

(** A teardown that holds its child's slot. *)
Definition tearing (t : Task) : bool :=
  match t with Closing _ _ _ _ | TornDown _ _ _ _ _ => true | _ => false end.

Definition async_end (t : Task) : bool :=
  match t with EvictAsyncFinally _ _ => true | _ => false end.

(** The tasks of [closeImpl]. *)
Definition of_close (t : Task) : bool :=
  match t with
  | CloseInflight _ | CloseEvictions _ _ | CloseTeardown _ | CloseAwait _ _
  | Closing _ _ _ ForClose | TornDown _ _ _ _ ForClose => true
  | _ => false
  end.

(** The slots taken: by an entry, a creation that has or will have a child, a
    child being closed.  PoolChildren.v counts children. *)
Definition live (s : PoolManager) : Z :=
  Z.of_nat (length (entries s)) + count working (pool_creations s) + count tearing (tasks s).

(** With [held] unanswered acquires, and [h] slots counted as closing, in the
    hands of the running code; [extra] is how far the pool may be over its cap. *)
Record slots_ok (h extra : Z) (s : PoolManager) : Prop := {
  sl_keys : NoDup (jkeys (entries s));
  sl_creations : pendingCreations s = count unsettled (pool_creations s);
  sl_closing : closing s = count tearing (tasks s) + count async_end (tasks s) + h;
  sl_cap : maxChildren s = cap;
  sl_live : live s <= cap + extra;
  sl_open : count of_close (tasks s) = 0
}.

(** Every release of an ownership follows the end of the child. *)
Definition released_ok (children : list nat) (t : list PoolEvent) : Prop :=
  forall n e ok, t !! n = Some (Released e ok) ->
    exists m ch, (m < n)%nat /\ children !! e = Some ch /\
      (t !! m = Some (CloseDone ch true) \/ t !! m = Some (Exited ch)).

Record ok (held : list nat) (h extra : Z) (s : PoolManager) : Prop := {
  ok_acquires : outstanding (held ++ places s) (acquires s);
  ok_granted : granted_ok (acquires s) (length (leases s));
  ok_slots : closed s = true \/ slots_ok h extra s;
  ok_released : released_ok (child <$> heap s) (trace s)
}.

(** A step that leaves the books as they are: it may only reorder the map, change
    flags and timers of entries, and do other things than release. *)
Record quiet (s s' : PoolManager) : Prop := {
  q_book : (waiters s', tasks s', acquires s', length (leases s'), pool_creations s',
            pendingCreations s', closing s', maxChildren s', closed s') =
           (waiters s, tasks s, acquires s, length (leases s), pool_creations s,
            pendingCreations s, closing s, maxChildren s, closed s);
  q_entries : NoDup (jkeys (entries s)) ->
    NoDup (jkeys (entries s')) /\ length (entries s') = length (entries s);
  q_heap : child <$> heap s' = child <$> heap s;
  q_trace : exists t, trace s' = trace s ++ t /\ forall e b, Released e b ∉ t
}.

#[export] Instance quiet_preorder : PreOrder quiet.
Proof.
  split.
  - intros s. split; [done|done|done|]. exists []. rewrite app_nil_r. split; [done|]. intros e b ?%elem_of_nil. done.
  - intros s1 s2 s3 [B1 E1 H1 (t1 & T1 & R1)] [B2 E2 H2 (t2 & T2 & R2)].
    split; [by rewrite B2| |by rewrite H2|].
    { intros Hnd. destruct (E1 Hnd) as [Hnd1 Hl1]. destruct (E2 Hnd1) as [Hnd2 Hl2]. split; [done|congruence]. }
    exists (t1 ++ t2). split; [by rewrite T2, T1, app_assoc|]. intros e b [?|?]%elem_of_app; naive_solver.
Qed.

Lemma quiet_trans s1 s2 s3 : quiet s1 s2 -> quiet s2 s3 -> quiet s1 s3.
Proof. apply transitivity. Qed.

Lemma released_ok_ext children t t' :
  released_ok children t -> (forall e b, Released e b ∉ t') -> released_ok children (t ++ t').
Proof.
  intros Hr Ht n e b [Hn|[Hle Hn]]%lookup_app_Some.
  - destruct (Hr n e b Hn) as (m & ch & Hm & Hch & Hev). exists m, ch. split_and!; [done|done|].
    by destruct Hev; [left|right]; apply lookup_app_l_Some.
  - apply list_elem_of_lookup_2 in Hn. by apply Ht in Hn.
Qed.

Lemma quiet_ok held h x s s' : quiet s s' -> ok held h x s -> ok held h x s'.
Proof.
  intros [[= Hw Ht Ha Hl Hc Hp Hcl Hm Hcd] He Hh (t & Htr & Hrel)] [H1 H2 H3 H4]. split.
  - unfold places. by rewrite Hw, Ht, Ha.
  - by rewrite Ha, Hl.
  - rewrite Hcd. destruct H3 as [|[S1 S2 S3 S0 S4 S5]]; [by left|right]. unfold live in S4.
    destruct (He S1) as [Hk Hlen]. split; unfold live; rewrite ?Ht, ?Hc, ?Hp, ?Hcl, ?Hm, ?Hlen; auto.
  - rewrite Hh, Htr. by apply released_ok_ext.
Qed.

(** *** Quiet steps *)

Lemma quiet_trace f s : (exists t, f (trace s) = trace s ++ t /\ forall e b, Released e b ∉ t) ->
  quiet s (s <| trace ::= f |>).
Proof. by split. Qed.

Lemma quiet_event ev s : (forall e b, ev <> Released e b) -> quiet s (event ev s).
Proof.
  intros H. apply (quiet_trace (fun t => t ++ [ev])). exists [ev]. split; [done|].
  intros e b ?%list_elem_of_singleton. by eapply H.
Qed.

Lemma quiet_log type a k s : quiet s (log type a k s).
Proof. by apply (quiet_event (Log type (Some (a, k)))). Qed.

Lemma quiet_log_pool type s : quiet s (log_pool type s).
Proof. by apply (quiet_event (Log type None)). Qed.

Lemma quiet_log_entry type e s : quiet s (log_entry type e s).
Proof. unfold log_entry. destruct (heap s !! e); [apply quiet_log|done]. Qed.

(** An update of fields the books do not mention. *)
Lemma quiet_fields s s' :
  (waiters s', tasks s', acquires s', length (leases s'), pool_creations s',
    pendingCreations s', closing s', maxChildren s', closed s', entries s', child <$> heap s', trace s') =
  (waiters s, tasks s, acquires s, length (leases s), pool_creations s,
    pendingCreations s, closing s, maxChildren s, closed s, entries s, child <$> heap s, trace s) ->
  quiet s s'.
Proof.
  intros [= ? ? ? ? ? ? ? ? ? He Hh Ht]. split; [congruence|by rewrite He|done|].
  exists []. rewrite app_nil_r. split; [done|]. intros e b ?%elem_of_nil. done.
Qed.

Lemma child_alter e f (h : list PoolEntry) : (forall entry, child (f entry) = child entry) ->
  child <$> alter f e h = child <$> h.
Proof.
  intros Hf. apply list_eq. intros i. rewrite !list_lookup_fmap, list_lookup_alter.
  case_decide; [subst|done]. destruct (h !! i); simpl; [by rewrite Hf|done].
Qed.

Lemma quiet_update e f s : (forall entry, child (f entry) = child entry) -> quiet s (update e f s).
Proof. intros Hf. apply quiet_fields. simpl. by rewrite child_alter. Qed.

Lemma quiet_set_inUse b e s : quiet s (set_inUse b e s).
Proof. by apply quiet_update. Qed.

Lemma quiet_clear_timer e s : quiet s (clear_timer e s).
Proof.
  unfold clear_timer. destruct (heap s !! e) as [entry|]; [|done]. destruct (idleTimer entry) as [t|]; [|done].
  apply quiet_fields. simpl. by rewrite child_alter.
Qed.

Lemma quiet_touchLru id s : quiet s (touchLru id s).
Proof.
  unfold touchLru. destruct (jget id (entries s)) as [e|] eqn:Hg; [|done].
  split; [done| |done|].
  - simpl. intros Hnd. split; [apply NoDup_jset, NoDup_jdelete, Hnd|].
    rewrite length_jset_absent by apply jget_delete_eq.
    apply length_jdelete_present; [done|by rewrite Hg].
  - exists []. rewrite app_nil_r. split; [done|]. intros x b ?%elem_of_nil. done.
Qed.

Lemma quiet_registry f s : quiet s (s <| registry ::= f |>).
Proof. by apply quiet_fields. Qed.

Lemma quiet_registry_touch a k s : quiet s (registry_touch a k s).
Proof. apply quiet_registry. Qed.

Lemma quiet_settle_call q r s : quiet s (settle_call q r s).
Proof. by apply quiet_fields. Qed.

Lemma quiet_settle_operation o err s : quiet s (settle_operation o err s).
Proof. by apply quiet_fields. Qed.

Lemma quiet_new_operation b s : quiet s (new_operation b s).2.
Proof. by apply quiet_fields. Qed.

Lemma quiet_set_owner a k c n s : quiet s (set_owner a k c n s).2.
Proof. unfold set_owner. destruct (setOwner _ _ _ _ _ _) as [r db]. by apply quiet_fields. Qed.

Lemma quiet_armIdleTimer e s : quiet s (armIdleTimer e s).
Proof.
  unfold armIdleTimer. destruct (heap s !! e) as [entry|]; [|done].
  etrans; [apply quiet_clear_timer|]. apply quiet_fields. simpl. by rewrite child_alter.
Qed.

Lemma quiet_drainEviction b s : quiet s (s <| drainEviction := b |>).
Proof. by apply quiet_fields. Qed.

Lemma quiet_calls f s : quiet s (s <| calls ::= f |>).
Proof. by apply quiet_fields. Qed.

Lemma quiet_inflight f s : quiet s (s <| pool_inflight ::= f |>).
Proof. by apply quiet_fields. Qed.

Lemma quiet_timers f s : quiet s (s <| timers ::= f |>).
Proof. by apply quiet_fields. Qed.

Lemma quiet_closePromise r s : quiet s (s <| closePromise := r |>).
Proof. by apply quiet_fields. Qed.

Create HintDb pool discriminated.
#[local] Hint Resolve quiet_log quiet_log_pool quiet_log_entry quiet_set_inUse quiet_clear_timer
  quiet_touchLru quiet_registry quiet_registry_touch quiet_settle_call quiet_settle_operation
  quiet_new_operation quiet_drainEviction quiet_calls quiet_inflight quiet_timers quiet_closePromise
  quiet_set_owner quiet_armIdleTimer : pool.

(** Peels one quiet step off the state of the goal. *)
Ltac quietly := eapply quiet_ok; [solve [eauto with pool]|].

(** *** Steps that change the books *)

(** What the slots depend on. *)
Lemma slots_same h x s s' :
  (entries s', pool_creations s', pendingCreations s', closing s', tasks s', maxChildren s', closed s') =
  (entries s, pool_creations s, pendingCreations s, closing s, tasks s, maxChildren s, closed s) ->
  closed s = true \/ slots_ok h x s -> closed s' = true \/ slots_ok h x s'.
Proof.
  intros [= He Hc Hp Hcl Ht Hm Hcd] [|[S1 S2 S3 S0 S4 S5]]; [left; congruence|right].
  unfold live in S4. split; unfold live; rewrite ?He, ?Hc, ?Hp, ?Hcl, ?Ht, ?Hm; done.
Qed.

Ltac same_slots := eapply slots_same; [|eassumption]; done.

Lemma ok_weaken held h x x' s : x <= x' -> ok held h x s -> ok held h x' s.
Proof.
  intros Hx [H1 H2 H3 H4]. split; [done|done| |done]. destruct H3 as [|[S1 S2 S3 S0 S4 S5]]; [by left|right].
  split; try done. lia.
Qed.

Lemma ok_perm held held' h x s : held ≡ₚ held' -> ok held h x s -> ok held' h x s.
Proof. intros Hp [H1 H2 H3 H4]. split; try done. by rewrite <- Hp. Qed.

(** What a task holds while it is suspended. *)
Definition slot (t : Task) : Z := Z.b2z (tearing t).
Definition closing_slot (t : Task) : Z := Z.b2z (tearing t) + Z.b2z (async_end t).

Lemma ok_add_task t held h x s :
  of_close t = false \/ closed s = true ->
  ok (task_acquires t ++ held) (h + closing_slot t) (x - slot t) s -> ok held h x (add_task t s).
Proof.
  intros Hclose [H1 H2 H3 H4]. unfold closing_slot, slot in *. split; try done.
  - unfold places in *. cbn. rewrite bind_app. cbn. rewrite app_nil_r.
    by rewrite <- perm_out.
  - destruct H3 as [|[S1 S2 S3 S0 S4 S5]]; [by left|]. destruct Hclose as [Hc|]; [right|by left].
    split; cbn; rewrite ?count_app; cbn; rewrite ?Hc; try done; try (simpl; lia).
    unfold live in *. cbn. rewrite count_app. cbn. lia.
Qed.

Lemma ok_drop_task i t held h x s :
  tasks s !! i = Some t -> ok held h x s ->
  (of_close t = false \/ closed s = true) /\
  ok (task_acquires t ++ held) (h + closing_slot t) (x - slot t) (drop_task i s).
Proof.
  intros Hi [H1 H2 H3 H4]. pose proof (delete_Permutation _ _ _ Hi) as Hp. unfold closing_slot, slot. split.
  - destruct H3 as [|[S1 S2 S3 S0 S4 S5]]; [by right|left]. rewrite Hp in S5. cbn in S5.
    pose proof (count_nonneg of_close (base.delete i (tasks s))). destruct (of_close t); [simpl in S5; lia|done].
  - split; try done.
    + unfold places in *. cbn. rewrite Hp in H1. cbn in H1.
      by rewrite perm_out, <- (Permutation_app_comm (task_acquires t)).
    + destruct H3 as [|[S1 S2 S3 S0 S4 S5]]; [by left|right]. unfold live in S4.
      rewrite Hp in S3, S4, S5. cbn in S3, S4, S5.
      split; cbn; try done; try lia; [unfold live; cbn; lia|].
      pose proof (count_nonneg of_close (base.delete i (tasks s))). destruct (of_close t); simpl in S5; lia.
Qed.

Lemma ok_reject p e held h x s : ok (p :: held) h x s -> ok held h x (reject p e s).
Proof.
  intros [H1 H2 H3 H4].
  split; [by apply outstanding_settle|by apply granted_throw|same_slots|done].
Qed.

Lemma ok_resolve_lease p e id held h x s : ok (p :: held) h x s -> ok held h x (resolve_lease p e id s).
Proof.
  intros [H1 H2 H3 H4]. split; [by apply outstanding_settle| |same_slots|done].
  cbn. rewrite length_app. cbn. rewrite Nat.add_1_r. by apply granted_lease.
Qed.

Lemma ok_new_acquire held h x s :
  ok held h x s -> ok (length (acquires s) :: held) h x (s <| acquires ::= fun l => l ++ [None] |>).
Proof.
  intros [H1 H2 H3 H4].
  split; [by apply outstanding_new|by apply granted_new|same_slots|done].
Qed.

Lemma ok_waiters f held held' h x s :
  (w_promise <$> f (waiters s)) ++ held' ≡ₚ (w_promise <$> waiters s) ++ held ->
  ok held h x s -> ok held' h x (s <| waiters ::= f |>).
Proof.
  intros Hp [H1 H2 H3 H4]. split; [|done|same_slots|done].
  unfold places in *. cbn. by rewrite <- (perm_front _ _ _ _ _ Hp).
Qed.

Lemma ok_enqueueWaiter a k p held h x s : ok (p :: held) h x s -> ok held h x (enqueueWaiter a k p s).
Proof.
  intros Hs. unfold enqueueWaiter. quietly. eapply ok_waiters; [|exact Hs].
  rewrite fmap_app. cbn. by rewrite <- app_assoc.
Qed.

Lemma ok_shift w rest held h x s :
  waiters s = w :: rest -> ok held h x s -> ok (w_promise w :: held) h x (s <| waiters := rest |>).
Proof. intros Hw. apply ok_waiters. rewrite Hw. cbn. by rewrite <- Permutation_middle. Qed.

Lemma ok_clear_waiters held h x s :
  ok held h x s -> ok ((w_promise <$> waiters s) ++ held) h x (s <| waiters := [] |>).
Proof. by apply ok_waiters. Qed.

(** *** The map and the counters *)

Lemma ok_delete id e held h x s :
  jget id (entries s) = Some e -> ok held h x s -> ok held h (x - 1) (s <| entries ::= jdelete id |>).
Proof.
  intros Hg [H1 H2 H3 H4]. split; try done. destruct H3 as [|[S1 S2 S3 S0 S4 S5]]; [by left|right].
  split; try done; [by apply NoDup_jdelete|]. unfold live in *. cbn.
  pose proof (length_jdelete_present id (entries s) S1 ltac:(by rewrite Hg)). lia.
Qed.

Lemma ok_set id e held h x s : ok held h x s -> ok held h (x + 1) (s <| entries ::= jset id e |>).
Proof.
  intros [H1 H2 H3 H4]. split; try done. destruct H3 as [|[S1 S2 S3 S0 S4 S5]]; [by left|right].
  split; try done; [by apply NoDup_jset|]. unfold live in *. cbn.
  destruct (jget id (entries s)) eqn:Hg.
  - rewrite length_jset_present by done. lia.
  - rewrite length_jset_absent by done. lia.
Qed.

Lemma ok_closing d held h x s : ok held h x s -> ok held (h + d) x (s <| closing ::= Z.add d |>).
Proof.
  intros [H1 H2 H3 H4]. split; try done. destruct H3 as [|[S1 S2 S3 S0 S4 S5]]; [by left|right].
  split; try done. cbn. lia.
Qed.

(** *** Creations *)

Definition at_phase (ph : CreationPhase) (cr : PoolCreation) : PoolCreation :=
  mkPoolCreation (pc_adapterId cr) (pc_conversationKey cr) (pc_parent cr) (pc_id cr) ph.

(** A creation moves on without settling. *)
Lemma ok_set_creation c cr ph held h x s :
  pool_creations s !! c = Some cr -> unsettled (at_phase ph cr) = unsettled cr ->
  ok held h x s ->
  ok held h (x + Z.b2z (working (at_phase ph cr)) - Z.b2z (working cr)) (set_creation c ph s).
Proof.
  intros Hc Hu [H1 H2 H3 H4]. split; try done. destruct H3 as [|[S1 S2 S3 S0 S4 S5]]; [by left|right].
  unfold live in S4. split; try done; unfold live; cbn; erewrite count_alter by done;
    fold (at_phase ph cr); rewrite ?Hu; lia.
Qed.

Lemma ok_createEntry a k id parent held h x s :
  closed s = true \/ live s + 1 <= maxChildren s + x -> ok held h x s -> ok held h x (createEntry a k id parent s).2.
Proof.
  intros Hroom [H1 H2 H3 H4]. unfold createEntry. destruct (jget id (pool_inflight s)); [done|].
  eapply quiet_ok; [by apply quiet_event|]. split; try done.
  destruct H3 as [|[S1 S2 S3 S0 S4 S5]]; [by left|]. destruct Hroom as [|Hroom]; [by left|right].
  unfold live in *. split; try done; unfold live; cbn; rewrite count_app; cbn; lia.
Qed.

Lemma live_le h x s : slots_ok h x s -> live s + h <= occupiedSlots s.
Proof.
  intros [S1 S2 S3 S0 S4 S5]. unfold live, occupiedSlots. rewrite S2, S3.
  assert (count working (pool_creations s) <= count unsettled (pool_creations s)).
  { apply count_le. intros cr. unfold working, unsettled. by destruct (pc_phase cr). }
  pose proof (count_nonneg async_end (tasks s)). lia.
Qed.

(** A guard on the capacity makes room for a creation. *)
Lemma room held h x s :
  ok held h x s -> (maxChildren s <=? occupiedSlots s) = false -> 0 <= h -> 0 <= x ->
  closed s = true \/ live s + 1 <= maxChildren s + x.
Proof.
  intros [_ _ H3 _] Hlt%Z.leb_gt Hh Hx. destruct H3 as [|S]; [by left|right].
  pose proof (live_le _ _ _ S). lia.
Qed.

(** *** Ownership *)

(** The end of the child of entry [e] is on record. *)
Definition ended (e : nat) (s : PoolManager) : Prop :=
  forall entry, heap s !! e = Some entry ->
    exists m, trace s !! m = Some (CloseDone (child entry) true) \/ trace s !! m = Some (Exited (child entry)).

Lemma ok_releaseOwnership e held h x s :
  ended e s -> ok held h x s -> ok held h x (releaseOwnership e s).2.
Proof.
  intros He Hs. unfold releaseOwnership. destruct (heap s !! e) as [entry|] eqn:Hh; [|done].
  destruct (release _ _ _ _ _) as [r db]. cbn.
  set (s' := s <| registry ::= with_db db |>).
  assert (ok held h x s') as [H1 H2 H3 H4] by (eapply quiet_ok; [apply quiet_registry|done]).
  split; [done|done|same_slots|]. cbn. intros n e' b [Hn|[Hle Hn]]%lookup_app_Some.
  - destruct (H4 n e' b Hn) as (m & ch & Hm & Hch & Hev). exists m, ch. split_and!; [done|done|].
    by destruct Hev; [left|right]; apply lookup_app_l_Some.
  - apply list_lookup_singleton_Some in Hn as [? [= <- <-]].
    destruct (He entry Hh) as [m Hm].
    exists m, (child entry). rewrite list_lookup_fmap, Hh. split_and!; [|done|].
    + assert (m < length (trace s))%nat by (destruct Hm as [Hm|Hm]; by eapply lookup_lt_Some). simpl in *. lia.
    + by destruct Hm; [left|right]; apply lookup_app_l_Some.
Qed.

Lemma ok_heap entry held h x s : ok held h x s -> ok held h x (s <| heap ::= fun l => l ++ [entry] |>).
Proof.
  intros [H1 H2 H3 H4]. split; [done|done|same_slots|]. cbn. rewrite fmap_app. intros n e b Hn.
  destruct (H4 n e b Hn) as (m & ch & Hm & Hch & Hev). exists m, ch. split_and!; [done| |done].
  by apply lookup_app_l_Some.
Qed.

(** *** Compound steps *)

Definition closes_pool (caller : TeardownCaller) : bool :=
  match caller with ForClose => true | _ => false end.

Lemma ok_teardownEntry id e o caller held h x s :
  closes_pool caller = false ->
  ok (teardown_acquires caller ++ held) (h + 1) (x - 1) s -> ok held h x (teardownEntry id e o caller s).
Proof.
  intros Hc Hs. unfold teardownEntry. apply ok_add_task; [left; by destruct caller|].
  destruct (heap s !! e); [|done]. eapply quiet_ok; [by apply quiet_event|done].
Qed.

Lemma ok_start_eviction id e caller held h x s :
  jget id (entries s) = Some e -> closes_pool caller = false ->
  ok (teardown_acquires caller ++ held) h x s -> ok held h x (start_eviction id e caller s).
Proof.
  intros Hg Hc Hs. unfold start_eviction. apply ok_teardownEntry; [done|].
  eapply quiet_ok; [apply (quiet_new_operation true)|]. apply ok_closing. by eapply ok_delete.
Qed.

Lemma not_evictable_false id e s : not_evictable id e s = false -> jget id (entries s) = Some e.
Proof. unfold not_evictable. intros H. by bools. Qed.

Lemma clear_timer_entries e s : entries (clear_timer e s) = entries s.
Proof. unfold clear_timer. by repeat case_match. Qed.

Lemma log_entry_entries type e s : entries (log_entry type e s) = entries s.
Proof. unfold log_entry. by destruct (heap s !! e). Qed.

Lemma ok_evictEntrySync id e caller held h x s :
  ok (evict_acquires caller ++ held) h x s ->
  match evictEntrySync id e caller s with
  | (None, s') => ok held h x s'
  | (Some _, s') => s' = s
  end.
Proof.
  intros Hs. unfold evictEntrySync. destruct (not_evictable id e s) eqn:He; [done|].
  apply not_evictable_false in He. apply ok_start_eviction; [|done|].
  - by rewrite log_entry_entries, clear_timer_entries.
  - quietly. by quietly.
Qed.

Lemma ok_capacity_outcome ev caller held h x s :
  ok (capacity_acquires caller ++ held) h x s -> ok held h x (capacity_outcome ev caller s).
Proof.
  intros Hs. destruct caller; (apply ok_add_task; [by left|]); unfold closing_slot, slot; cbn;
    by rewrite Z.add_0_r, Z.sub_0_r.
Qed.

Lemma ok_evict_loop idle err caller held h x s :
  ok (capacity_acquires caller ++ held) h x s -> ok held h x (evict_loop idle err caller s).
Proof.
  intros Hs. revert err. induction idle as [|[id e] idle IH]; intros err; cbn.
  - destruct err; [|case_match]; apply ok_capacity_outcome; try done; by quietly.
  - destruct (not_evictable id e s) eqn:He; [apply IH|].
    pose proof (ok_evictEntrySync id e (ForCapacity idle err caller) held h x s Hs) as Hok.
    unfold evictEntrySync in *. by rewrite He in *.
Qed.

Lemma ok_evictIdleForCapacity caller held h x s :
  ok (capacity_acquires caller ++ held) h x s -> ok held h x (evictIdleForCapacity caller s).
Proof.
  intros Hs. unfold evictIdleForCapacity. case_match; [|by apply ok_evict_loop].
  apply ok_capacity_outcome. by quietly.
Qed.

Lemma ok_evict_resumed outcome rest err caller held h x s :
  ok (capacity_acquires caller ++ held) h x s -> ok held h x (evict_resumed outcome rest err caller s).
Proof. intros Hs. destruct outcome; [by apply ok_capacity_outcome|by apply ok_evict_loop..]. Qed.

Lemma ok_lease_entry_to p e id a k held h x s :
  ok (p :: held) h x s -> ok held h x (lease_entry_to p e id a k s).
Proof. intros Hs. apply ok_resolve_lease. do 3 quietly. done. Qed.

Lemma ok_lease_waiter w e id held h x s :
  ok (w_promise w :: held) h x s -> ok held h x (lease_waiter w e id s).
Proof. intros Hs. unfold lease_waiter, log_waiter. quietly. by apply ok_lease_entry_to. Qed.

(** A task that holds no slot. *)
Lemma ok_add_plain t held h x s :
  tearing t = false -> async_end t = false -> of_close t = false ->
  ok (task_acquires t ++ held) h x s -> ok held h x (add_task t s).
Proof.
  intros H1 H2 H3 Hs. apply ok_add_task; [by left|]. unfold closing_slot, slot. rewrite H1, H2. simpl.
  by rewrite Z.add_0_r, Z.sub_0_r.
Qed.

Lemma ok_start_drain_eviction held h x s : ok held h x s -> ok held h x (start_drain_eviction s).
Proof.
  intros Hs. unfold start_drain_eviction. case_match; [done|].
  quietly. by apply ok_evictIdleForCapacity.
Qed.

Lemma occupied_shift ws s : occupiedSlots (s <| waiters := ws |>) = occupiedSlots s.
Proof. done. Qed.

Lemma ok_drain_round w rest held h x s :
  waiters s = w :: rest -> 0 <= h -> 0 <= x -> ok held h x s -> ok held h x (drain_round w rest s).2.
Proof.
  intros Hw Hh Hx Hs. pose proof (ok_shift w rest _ _ _ _ Hw Hs) as Hsh. unfold drain_round.
  destruct (get_entry _ _) as [[e entry]|].
  - destruct (retiring entry); [by apply ok_reject|]. destruct (inUse entry); [done|].
    apply ok_lease_waiter. by quietly.
  - destruct (jget _ (pool_inflight s)) as [c|]; [by apply ok_add_plain|].
    destruct (maxChildren s <=? occupiedSlots s) eqn:Hocc.
    + cbn. case_match; [done|by apply ok_start_drain_eviction].
    + set (s1 := s <| waiters := rest |>) in *.
      pose proof (ok_createEntry (w_adapterId w) (w_conversationKey w) (waiter_id w) None _ _ _ s1
        (room _ _ _ s1 Hsh Hocc Hh Hx) Hsh) as Hc.
      destruct (createEntry _ _ _ _ s1) as [c s']. by apply ok_add_plain.
Qed.

Lemma ok_drain_loop n held h x s :
  0 <= h -> 0 <= x -> ok held h x s -> ok held h x (drain_loop n s).
Proof.
  intros Hh Hx. revert s. induction n as [|n IH]; intros s Hs; [done|]. cbn.
  destruct (waiters s) as [|w rest] eqn:Hw; [done|].
  pose proof (ok_drain_round w rest held h x s Hw Hh Hx Hs) as Hr.
  destruct (drain_round w rest s) as [[] s']; [by apply IH|done].
Qed.

Lemma ok_drainWaiters held h x s : 0 <= h -> 0 <= x -> ok held h x s -> ok held h x (drainWaiters s).
Proof. apply ok_drain_loop. Qed.

(** Rejecting a list of waiters. *)
Lemma ok_reject_all (f : PoolManager -> Waiter -> PoolManager) ws held h x s :
  (forall w held s, ok (w_promise w :: held) h x s -> ok held h x (f s w)) ->
  ok ((w_promise <$> ws) ++ held) h x s -> ok held h x (fold_left f ws s).
Proof.
  intros Hf. revert s. induction ws as [|w ws IH]; intros s Hs; [done|]. cbn. apply IH, Hf, Hs.
Qed.

Lemma ok_rejectWaitersFor id e held h x s : ok held h x s -> ok held h x (rejectWaitersFor id e s).
Proof.
  intros Hs. unfold rejectWaitersFor. apply ok_reject_all.
  - intros w held' s'. apply ok_reject.
  - eapply ok_waiters; [|exact Hs]. rewrite app_assoc, <- fmap_app.
    apply Permutation_app; [|done]. apply Permutation_map.
    by rewrite <- Permutation_rev, filter_perm.
Qed.

Lemma ok_drain_evicted ev held h x s : ok held h x s -> ok held h x (drain_evicted ev s).
Proof.
  intros Hs. destruct ev; try done. apply ok_reject_all.
  - intros w held' s' Hs'. unfold log_waiter. quietly. by apply ok_reject.
  - by apply ok_clear_waiters.
Qed.

(** *** Creations, to their end *)

Lemma quiet_creations s s' : quiet s s' -> pool_creations s' = pool_creations s.
Proof. intros [Hb _ _ _]. by injection Hb. Qed.

(** A creation at work moves to another working phase, or to its end. *)
Lemma ok_move_creation c cr ph held h x s :
  pool_creations s !! c = Some cr -> working cr = true -> unsettled (at_phase ph cr) = true ->
  ok held h x s -> ok held h x (set_creation c ph s).
Proof.
  intros Hc Hw Hu Hs.
  apply (ok_weaken _ _ (x + Z.b2z (working (at_phase ph cr)) - Z.b2z (working cr))).
  - rewrite Hw. destruct (working (at_phase ph cr)); simpl; lia.
  - apply ok_set_creation; [done| |done]. rewrite Hu. revert Hw. unfold working, unsettled. by destruct (pc_phase cr).
Qed.

Lemma ok_cleanup c cr ch err held h x s :
  pool_creations s !! c = Some cr -> working cr = true -> ok held h x s -> ok held h x (cleanup c ch err s).
Proof.
  intros Hc Hw Hs. unfold cleanup. eapply ok_move_creation; [exact Hc|done|done|].
  eapply quiet_ok; [by apply quiet_event|done].
Qed.

Lemma ok_insert_entry c cr ch a k id token held h x s :
  pool_creations s !! c = Some cr -> working cr = true ->
  ok held h x s -> ok held h x (insert_entry c ch a k id token s).
Proof.
  intros Hc Hw Hs. unfold insert_entry.
  set (e := length _). replace x with (x + 1 + 0 - Z.b2z (working cr)) by (rewrite Hw; simpl; lia).
  apply (ok_set_creation c cr (CrFinally (Ok e))); [done| |].
  - revert Hw. unfold working, unsettled. by destruct (pc_phase cr).
  - apply (ok_set id), ok_heap. by quietly.
Qed.

Lemma ok_transfer_owner c cr ch a k id token held h x s :
  pool_creations s !! c = Some cr -> working cr = true ->
  ok held h x s -> ok held h x (transfer_owner c ch a k id token s).
Proof.
  intros Hc Hw Hs. unfold transfer_owner. destruct (_ ≫= _) as [stale|]; [|by eapply ok_cleanup].
  pose proof (quiet_trans _ _ _ (quiet_log revival a k s)
    (quiet_set_owner a k (Some stale) (Some token) (log revival a k s))) as Hq.
  destruct (set_owner _ _ _ _ _) as [r s']. cbn in Hq.
  rewrite <- (quiet_creations _ _ Hq) in Hc. pose proof (quiet_ok _ _ _ _ _ Hq Hs).
  destruct r; [by eapply ok_insert_entry|]. destruct (owner_mismatch _); by eapply ok_cleanup.
Qed.

Lemma ok_registry_done c r token held h x s : ok held h x s -> ok held h x (registry_done c r token s).
Proof.
  intros Hs. unfold registry_done. destruct (pool_creations s !! c) as [cr|] eqn:Hc; [|done].
  destruct (pc_phase cr) as [|ch| | |] eqn:Hp; try done.
  assert (working cr = true) as Hw by (unfold working; by rewrite Hp).
  destruct r; [|by eapply ok_cleanup].
  pose proof (quiet_set_owner (pc_adapterId cr) (pc_conversationKey cr) None (Some token) s) as Hq.
  destruct (set_owner _ _ _ _ _) as [r s']. cbn in Hq.
  rewrite <- (quiet_creations _ _ Hq) in Hc. pose proof (quiet_ok _ _ _ _ _ Hq Hs).
  destruct r; [by eapply ok_insert_entry|].
  destruct (owner_mismatch _); [by eapply ok_transfer_owner|by eapply ok_cleanup].
Qed.

Lemma ok_factory_done c r held h x s : ok held h x s -> ok held h x (factory_done c r s).
Proof.
  intros Hs. unfold factory_done. destruct (pool_creations s !! c) as [cr|] eqn:Hc; [|done].
  destruct (pc_phase cr) eqn:Hp; try done.
  assert (working cr = true) as Hw by (unfold working; by rewrite Hp).
  destruct r as [ch|err].
  - destruct (getOrCreate _ _ _ _) as [[acq|err] reg].
    + eapply ok_move_creation; [exact Hc|done|done|]. by quietly.
    + eapply ok_move_creation; [exact Hc|done|done|].
      eapply quiet_ok; [by apply quiet_event|]. by quietly.
  - eapply ok_move_creation; [exact Hc|done|done|]. by quietly.
Qed.

Lemma ok_cleanup_done c r held h x s : ok held h x s -> ok held h x (cleanup_done c r s).
Proof.
  intros Hs. unfold cleanup_done. destruct (pool_creations s !! c) as [cr|] eqn:Hc; [|done].
  destruct (pc_phase cr) eqn:Hp; try done.
  assert (working cr = true) as Hw by (unfold working; by rewrite Hp).
  eapply ok_move_creation; [exact Hc|done|done|]. quietly. by eapply quiet_ok; [apply quiet_event|].
Qed.

Lemma ok_creation_finally c held h x s : ok held h x s -> ok held h x (creation_finally c s).
Proof.
  intros Hs. unfold creation_finally. destruct (pool_creations s !! c) as [cr|] eqn:Hc; [|done].
  destruct (pc_phase cr) as [| | |r|] eqn:Hp; try done.
  assert (ok held h x (s <| pool_inflight ::= jdelete (pc_id cr) |>)) as [H1 H2 H3 H4] by by quietly.
  split; [done|done| |done]. destruct H3 as [|[S1 S2 S3 S0 S4 S5]]; [by left|right].
  assert (unsettled cr = true /\ working cr = false) as [Hu Hw] by (unfold unsettled, working; by rewrite Hp).
  unfold live in S4. cbn in S2, S3, S4.
  split; try done; unfold live; cbn; erewrite count_alter by done; rewrite ?Hu, ?Hw; cbn; lia.
Qed.

(** *** Acquiring and releasing *)

Lemma ok_acquire_create a k id parent p held h x s :
  closed s = true \/ live s + 1 <= maxChildren s + x ->
  ok (p :: held) h x s -> ok held h x (acquire_create a k id parent p s).
Proof.
  intros Hroom Hs. unfold acquire_create. destruct (closed s) eqn:Hc; [by apply ok_reject|].
  pose proof (ok_createEntry a k id parent _ _ _ s ltac:(by rewrite Hc) Hs) as Hce.
  destruct (createEntry _ _ _ _ _) as [c s']. by apply ok_add_plain.
Qed.

Lemma ok_acquire a k parent held h x s :
  0 <= h -> 0 <= x -> ok held h x s -> ok held h x (acquire a k parent s).
Proof.
  intros Hh Hx Hs. unfold acquire. apply ok_new_acquire in Hs.
  set (p := length (acquires s)) in *. set (s1 := s <| acquires ::= _ |>) in *.
  unfold acquire_body. destruct (is_empty a); [by apply ok_reject|].
  destruct (is_empty k); [by apply ok_reject|]. destruct (closed s1) eqn:Hcl; [by apply ok_reject|].
  destruct (get_entry _ s1) as [[e entry]|].
  - destruct (retiring entry); [by apply ok_reject|]. destruct (inUse entry); [by apply ok_enqueueWaiter|].
    apply ok_resolve_lease. do 4 quietly. done.
  - destruct (jget _ (pool_inflight s1)); [by apply ok_add_plain|].
    destruct (maxChildren s1 <=? occupiedSlots s1) eqn:Hocc; [by apply ok_evictIdleForCapacity|].
    apply ok_acquire_create; [by eapply room|done].
Qed.

Lemma ok_evictEntryAsync id e held h x s : ok held h x s -> ok held h x (evictEntryAsync id e s).
Proof.
  intros Hs. unfold evictEntryAsync. destruct (not_evictable id e s) eqn:He; [done|].
  apply not_evictable_false in He. apply ok_teardownEntry; [done|].
  eapply quiet_ok; [apply (quiet_new_operation true)|]. quietly. apply ok_closing.
  eapply ok_delete; [by rewrite clear_timer_entries|]. by quietly.
Qed.

Lemma ok_idle_timeout t held h x s : ok held h x s -> ok held h x (idle_timeout t s).
Proof.
  intros Hs. unfold idle_timeout. destruct (List.find _ _) as [[t' id]|]; [|done].
  set (s1 := s <| timers ::= _ |>). assert (ok held h x s1) by (unfold s1; by quietly).
  destruct (jget id (entries s1)) as [e|]; [|done]. destruct (in_use e s1); [done|].
  quietly. by apply ok_evictEntryAsync.
Qed.

Lemma ok_releaseEntry id held h x s :
  0 <= h -> 0 <= x -> ok held h x s -> ok held h x (releaseEntry id s).
Proof.
  intros Hh Hx Hs. unfold releaseEntry. destruct (closed s); [done|].
  destruct (get_entry id s) as [[e entry]|]; [|done]. destruct (retiring entry); [done|].
  apply ok_drainWaiters; [done|done|]. do 4 quietly. done.
Qed.

Lemma ok_release_lease l held h x s :
  0 <= h -> 0 <= x -> ok held h x s -> ok held h x (release_lease l s).
Proof.
  intros Hh Hx Hs. unfold release_lease. destruct (leases s !! l) as [lease|]; [|done].
  destruct (released lease); [done|]. apply ok_releaseEntry; [done|done|].
  eapply quiet_ok; [|exact Hs]. apply quiet_fields. cbn. by rewrite length_alter.
Qed.

(** *** Teardown *)

Lemma ended_log type a k e s : ended e s -> ended e (log type a k s).
Proof.
  intros He entry Hh. destruct (He entry Hh) as [m Hm]. exists m.
  by destruct Hm; [left|right]; apply lookup_app_l_Some.
Qed.

Lemma ended_event e ev s :
  (forall entry, heap s !! e = Some entry -> ev = CloseDone (child entry) true \/ ev = Exited (child entry)) ->
  ended e (event ev s).
Proof.
  intros Hev entry Hh. exists (length (trace s)). cbn in Hh.
  destruct (Hev entry Hh) as [-> | ->]; [left|right]; cbn; by rewrite lookup_app_r, Nat.sub_diag by lia.
Qed.

Lemma ok_teardown_closed e r held h x s : ok held h x s -> ok held h x (teardown_closed e r s).2.
Proof.
  intros Hs. unfold teardown_closed. destruct (heap s !! e) as [entry|] eqn:Hh; [|done].
  set (s1 := event (CloseDone (child entry) (is_ok r)) s).
  assert (ok held h x s1) as Hs1 by (by eapply quiet_ok; [apply quiet_event|]).
  destruct r as [u|err]; [|cbn; by quietly].
  assert (ended e s1) as He.
  { apply ended_event. intros entry' Hh'. left. cbn in Hh'. by simplify_eq. }
  pose proof (ok_releaseOwnership e held h x s1 He Hs1) as Hr.
  destruct (releaseOwnership e s1) as [[err|] s2]; cbn; by quietly.
Qed.

Lemma ok_forgetExitedChild a k ch held h x s :
  0 <= h -> 0 <= x -> ok held h x s -> ok held h x (forgetExitedChild a k ch s).
Proof.
  intros Hh Hx Hs. unfold forgetExitedChild.
  destruct (get_entry _ s) as [[e entry]|] eqn:Hg; [|done].
  unfold get_entry in Hg. destruct (jget _ (entries s)) as [e'|] eqn:Hj; [|done].
  destruct (heap s !! e') as [entry'|] eqn:Hhe; [|done]. simplify_eq.
  destruct (Nat.eqb_spec (child entry) ch) as [Hch|]; [|done]. cbn [negb].
  set (s1 := clear_timer e s <| entries ::= _ |>).
  assert (child <$> heap s1 = child <$> heap s) as Hheap by apply (quiet_clear_timer e s).
  assert (ok held h x s1) as Hs1.
  { eapply ok_weaken; [|eapply ok_delete; [by rewrite clear_timer_entries|by quietly]]. lia. }
  assert (ok held h x (event (Exited ch) s1)) as Hs2 by (by eapply quiet_ok; [apply quiet_event|]).
  assert (ended e (event (Exited ch) s1)) as He.
  { apply ended_event. intros entry' Hh'. right. f_equal.
    apply (f_equal (fun l => l !! e)) in Hheap. rewrite !list_lookup_fmap, Hh', Hhe in Hheap.
    simpl in Hheap. congruence. }
  pose proof (ok_releaseOwnership e held h x _ He Hs2) as Hr.
  destruct (releaseOwnership e _) as [[err|] s2]; (apply ok_drainWaiters; [done|done|by quietly]).
Qed.

Lemma ok_restore_entry id e held h x s : ok held h x s -> ok held h (x + 1) (restore_entry id e s).
Proof. intros Hs. unfold restore_entry. apply ok_set. eapply quiet_ok; [by apply quiet_update|done]. Qed.

Lemma ok_evictEntrySync_done id e r held h x s :
  ok held (h + 1) (x - 1) s -> ok held h x (evictEntrySync_done id e r s).2.
Proof.
  intros Hs. assert (forall y s', ok held (h + 1) y s' -> ok held h y (s' <| closing ::= Z.add (-1) |>)) as Hc.
  { intros y s' Hs'. replace h with (h + 1 + -1) by lia. by apply ok_closing. }
  unfold evictEntrySync_done. destruct r; cbn [snd].
  - eapply ok_weaken; [|by apply Hc]. lia.
  - apply Hc. replace x with (x - 1 + 1) by lia. by apply ok_restore_entry.
  - quietly. eapply ok_weaken; [|by apply Hc]. lia.
Qed.

Lemma ok_retire_body a k ch q held h x s : ok held h x s -> ok held h x (retire_body a k ch q s).
Proof.
  intros Hs. unfold retire_body. destruct (get_entry _ s) as [[e entry]|]; [|by quietly].
  destruct (_ || _); [by quietly|].
  set (s1 := update e _ s). assert (ok held h x s1) as Hs1 by (by eapply quiet_ok; [apply quiet_update|]).
  pose proof (ok_evictEntrySync (conversationIdOf a k) e (ForRetire q) held h x s1 Hs1) as He.
  destruct (evictEntrySync _ e _ s1) as [[o|] s2]; [|done]. subst s2. by apply ok_add_plain.
Qed.

Lemma ok_retireChild a k ch held h x s : ok held h x s -> ok held h x (retireChild a k ch s).
Proof. intros Hs. apply ok_retire_body. by quietly. Qed.

Lemma ok_retire_resumed id e outcome q held h x s :
  0 <= h -> 0 <= x -> ok held h x s -> ok held h x (retire_resumed id e outcome q s).
Proof.
  intros Hh Hx Hs. destruct outcome; cbn [retire_resumed]; quietly; try by apply ok_drainWaiters.
  apply ok_rejectWaitersFor. by quietly.
Qed.

Lemma ok_closeIdle_loop toClose n q held h x s :
  0 <= h -> 0 <= x -> ok held h x s -> ok held h x (closeIdle_loop toClose n q s).
Proof.
  intros Hh Hx Hs. induction toClose as [|e rest IH]; cbn [closeIdle_loop].
  - quietly. by apply ok_drainWaiters.
  - destruct (heap s !! e) as [entry|]; [|done]. destruct (not_evictable _ e s) eqn:He; [done|].
    apply not_evictable_false in He. by apply ok_start_eviction.
Qed.

Lemma quiet_clear_timers {A} (f : A -> nat) l s : quiet s (fold_left (fun s y => clear_timer (f y) s) l s).
Proof.
  revert s. induction l as [|y l IH]; intros s; [done|]. cbn. etrans; [apply quiet_clear_timer|apply IH].
Qed.

Lemma ok_closeIdle held h x s : 0 <= h -> 0 <= x -> ok held h x s -> ok held h x (closeIdle s).
Proof.
  intros Hh Hx Hs. unfold closeIdle. apply ok_closeIdle_loop; [done|done|].
  eapply quiet_ok; [apply (quiet_clear_timers (fun e => e))|]. by quietly.
Qed.

(** *** Closing the pool: its slots no longer matter *)

Lemma ok_closed held h x h' x' s : closed s = true -> ok held h x s -> ok held h' x' s.
Proof. intros Hc [H1 H2 H3 H4]. split; [done|done|by left|done]. Qed.

Lemma ok_add_closed t held h x s :
  closed s = true -> ok (task_acquires t ++ held) h x s -> ok held h x (add_task t s).
Proof. intros Hc Hs. apply ok_add_task; [by right|]. by eapply ok_closed. Qed.

Lemma closed_fold {A} (f : PoolManager -> A -> PoolManager) l s :
  (forall s y, closed (f s y) = closed s) -> closed (fold_left f l s) = closed s.
Proof. intros Hf. revert s. induction l as [|y l IH]; intros s; [done|]. cbn. by rewrite IH. Qed.

Lemma quiet_closed s s' : quiet s s' -> closed s' = closed s.
Proof. intros [Hb _ _ _]. by injection Hb. Qed.

Lemma ok_set_closed held h x s : ok held h x s -> ok held h x (s <| closed := true |>).
Proof. intros [H1 H2 H3 H4]. split; [done|done|by left|done]. Qed.

Lemma ok_close held h x s : ok held h x s -> ok held h x (close s).
Proof.
  intros Hs. unfold close. destruct (closePromise s); [done|].
  set (s1 := s <| closed := true |> <| closePromise := Some None |>).
  set (s2 := fold_left cancel_waiter _ _).
  assert (ok held h x s2) as Hs2.
  { apply ok_reject_all.
    - intros w held' s' Hs'. unfold cancel_waiter, log_waiter. quietly. by apply ok_reject.
    - apply (ok_clear_waiters held h x s1). unfold s1. quietly. by apply ok_set_closed. }
  apply ok_add_closed; [|by eapply quiet_ok; [apply (quiet_clear_timers snd)|]].
  rewrite (quiet_closed _ _ (quiet_clear_timers snd _ _)). unfold s2. by rewrite closed_fold.
Qed.

Lemma ok_await_evictions errors held h x s :
  closed s = true -> ok held h x s -> ok held h x (await_evictions errors s).
Proof. intros Hc Hs. unfold await_evictions. case_match; by apply ok_add_closed. Qed.

Lemma ok_close_inflight_done held h x s :
  closed s = true -> ok held h x s -> ok held h x (close_inflight_done s).
Proof.
  intros Hc Hs. apply ok_await_evictions; [done|].
  assert (ok held h x (s <| pool_inflight := [] |>)) as [H1 H2 H3 H4] by by quietly.
  split; [done|done|by left|done].
Qed.

Lemma ok_close_teardown errors held h x s :
  closed s = true -> ok held h x s -> ok held h x (close_teardown errors s).
Proof.
  intros Hc Hs. unfold close_teardown.
  assert (forall l os s, closed s = true -> ok held h x s ->
    closed (fold_left start_close_teardown l (os, s)).2 = true /\
    ok held h x (fold_left start_close_teardown l (os, s)).2) as Hfold.
  { clear. induction l as [|ie l IH]; intros os s Hc Hs; [done|]. cbn [fold_left start_close_teardown].
    apply IH; [by cbn; destruct (heap s !! ie.2)|].
    apply ok_add_closed; [by cbn; destruct (heap s !! ie.2)|].
    assert (ok held h x (new_operation false s).2) by (by eapply quiet_ok; [apply (quiet_new_operation false)|]).
    cbn [new_operation snd] in *.
    destruct (heap _ !! ie.2); [by eapply quiet_ok; [apply quiet_event|]|done]. }
  destruct (Hfold (entries s) [] s Hc Hs) as [Hc' Hs'].
  destruct (fold_left start_close_teardown (entries s) ([], s)) as [os s'].
  apply ok_add_closed; [done|]. destruct Hs' as [H1 H2 H3 H4]. split; [done|done|by left|done].
Qed.

(** *** Continuations *)

Lemma ok_acquire_inflight a k id p r held h x s :
  ok (p :: held) h x s -> ok held h x (acquire_inflight a k id p r s).
Proof.
  intros Hs. destruct r as [e|err]; cbn [acquire_inflight]; [|by apply ok_reject].
  destruct (closed s); [by apply ok_reject|].
  destruct (in_use e s); [by apply ok_enqueueWaiter|by apply ok_lease_entry_to].
Qed.

Lemma ok_acquire_created a k id p r held h x s :
  ok (p :: held) h x s -> ok held h x (acquire_created a k id p r s).
Proof.
  intros Hs. destruct r as [e|err]; cbn [acquire_created]; [|by apply ok_reject].
  destruct (closed s); [by apply ok_reject|by apply ok_lease_entry_to].
Qed.

Lemma ok_drain_inflight w id r held h x s :
  0 <= h -> 0 <= x -> ok (w_promise w :: held) h x s -> ok held h x (drain_inflight w id r s).
Proof.
  intros Hh Hx Hs. destruct r as [e|err]; cbn [drain_inflight].
  - destruct (closed s); [by apply ok_reject|].
    destruct (in_use e s); (apply ok_drainWaiters; [done|done|]); [|by apply ok_lease_waiter].
    eapply ok_waiters; [|exact Hs]. cbn. by rewrite <- Permutation_middle.
  - apply ok_drainWaiters; [done|done|]. by apply ok_reject.
Qed.

Lemma ok_drain_created w id r held h x s :
  0 <= h -> 0 <= x -> ok (w_promise w :: held) h x s -> ok held h x (drain_created w id r s).
Proof.
  intros Hh Hx Hs. destruct r as [e|err]; cbn [drain_created].
  - destruct (closed s); [by apply ok_reject|].
    apply ok_drainWaiters; [done|done|by apply ok_lease_waiter].
  - apply ok_drainWaiters; [done|done|]. by apply ok_reject.
Qed.

Lemma ok_torn_down id e o r caller held x s :
  0 <= x -> of_close (TornDown id e o r caller) = false \/ closed s = true ->
  ok (teardown_acquires caller ++ held) 1 (x - 1) s -> ok held 0 x (torn_down id e o r caller s).
Proof.
  intros Hx Hcl Hs. destruct caller as [caller| |rest n q|]; cbn [torn_down].
  - pose proof (ok_evictEntrySync_done id e r _ 0 x s Hs) as Hd.
    destruct (evictEntrySync_done id e r s) as [outcome s']. by apply ok_add_plain.
  - apply ok_add_task; [by left|]. unfold closing_slot, slot. cbn [task_acquires tearing async_end Z.b2z].
    replace (x - 0) with (x - 1 + 1) by lia. destruct r; [|by apply ok_restore_entry|];
      (eapply ok_weaken; [|exact Hs]; lia).
  - set (s1 := s <| closing ::= _ |>). assert (ok held 0 (x - 1) s1) as Hs1.
    { change 0 with (1 + -1) at 1. by apply ok_closing. }
    apply (ok_restore_entry id e) in Hs1 as Hs2. replace (x - 1 + 1) with x in Hs2 by lia.
    apply (ok_weaken _ _ _ x) in Hs1; [|lia]. destruct r; by apply ok_closeIdle_loop.
  - destruct Hcl as [?|Hc]; [done|]. by eapply ok_closed.
Qed.

(** A step that starts a child in a full pool: [acquire] goes on after an
    eviction whose slot is no longer there. *)
Definition overshoots (s : PoolManager) (op : Op) : bool :=
  match op with
  | Resume i =>
      match tasks s !! i with
      | Some (AcquireEvicted _ _ _ _ _ capacity_freed) => maxChildren s <=? occupiedSlots s
      | _ => false
      end
  | _ => false
  end.

(** ... and how often that happened in a run. *)
Fixpoint overshoot (s : PoolManager) (ops : list Op) : Z :=
  match ops with
  | [] => 0
  | op :: ops => Z.b2z (overshoots s op) + overshoot (step s op) ops
  end.

Lemma ok_with_result c s k held x :
  is_Some (creation_result c s) -> (forall r, ok held 0 x (k r s)) -> ok held 0 x (with_result c s k).
Proof. intros [r Hr] Hk. unfold with_result. by rewrite Hr. Qed.

Lemma ok_acquire_evicted a k parent id p ev held x s :
  0 <= x -> ok (p :: held) 0 x s ->
  ok held 0 (x + Z.b2z match ev with capacity_freed => maxChildren s <=? occupiedSlots s | _ => false end)
    (acquire_evicted a k id parent p ev s).
Proof.
  intros Hx Hs. destruct ev; cbn [acquire_evicted Z.b2z]; rewrite ?Z.add_0_r.
  - destruct (maxChildren s <=? occupiedSlots s) eqn:Hocc; cbn [Z.b2z].
    + apply ok_acquire_create; [|by eapply ok_weaken; [|exact Hs]; lia].
      destruct Hs as [_ _ [|[_ _ _ S0 S4 _]] _]; [by left|right]. lia.
    + rewrite Z.add_0_r. apply ok_acquire_create; [by eapply room|done].
  - by apply ok_enqueueWaiter.
  - by apply ok_reject.
Qed.

Lemma ok_resume t i x s :
  tasks s !! i = Some t -> enabled t s = true -> 0 <= x -> ok [] 0 x s ->
  ok [] 0 (x + Z.b2z (overshoots s (Resume i))) (run_task t (drop_task i s)).
Proof.
  intros Hi Hen Hx Hs. destruct (ok_drop_task i t _ _ _ _ Hi Hs) as [Hcl Hd].
  cbn [overshoots]. rewrite Hi. unfold closing_slot, slot in Hd. destruct t; cbn in Hd, Hen;
    rewrite ?app_nil_r, ?Z.sub_0_r in Hd; try done.
  all: try (rewrite Z.add_0_r; cbn [run_task]).
  - apply bool_decide_eq_true in Hen. apply ok_with_result; [done|]. intros r. by apply ok_acquire_inflight.
  - pose proof (ok_acquire_evicted a k parent id p ev [] x (drop_task i s) Hx Hd) as He. by destruct ev.
  - apply bool_decide_eq_true in Hen. apply ok_with_result; [done|]. intros r. by apply ok_acquire_created.
  - apply bool_decide_eq_true in Hen. apply ok_with_result; [done|]. intros r. by apply ok_drain_inflight.
  - apply bool_decide_eq_true in Hen. apply ok_with_result; [done|]. intros r. by apply ok_drain_created.
  - apply ok_add_plain; [done..|]. by apply ok_drain_evicted.
  - apply ok_drainWaiters; [done|done|]. by quietly.
  - apply ok_torn_down; [done|done|]. by rewrite app_nil_r.
  - quietly. apply ok_drainWaiters; [done|done|]. change 0 with (1 + -1) at 1. by apply ok_closing.
  - destruct caller; cbn [evict_acquires] in Hd.
    + apply ok_evict_resumed. by rewrite app_nil_r.
    + by apply ok_retire_resumed.
  - destruct Hcl as [|Hc]; [done|]. by apply ok_close_inflight_done.
  - destruct Hcl as [|Hc]; [done|]. by apply ok_await_evictions.
  - destruct Hcl as [|Hc]; [done|]. by apply ok_close_teardown.
  - by quietly.
Qed.

Lemma ok_child_close_done i id e o caller r x s :
  tasks s !! i = Some (Closing id e o caller) -> ok [] 0 x s ->
  ok [] 0 x (child_close_done id e o caller r (drop_task i s)).
Proof.
  intros Hi Hs. destruct (ok_drop_task i _ _ _ _ _ Hi Hs) as [Hcl Hd]. unfold child_close_done.
  pose proof (ok_teardown_closed e r _ _ _ _ Hd) as Ht.
  assert (closed (teardown_closed e r (drop_task i s)).2 = closed s) as Hc.
  { unfold teardown_closed. destruct (heap _ !! e) as [entry|]; [|done]. destruct r; [|done].
    unfold releaseOwnership. destruct (heap _ !! e); [|done]. destruct (release _ _ _ _ _) as [[] db]; done. }
  destruct (teardown_closed e r (drop_task i s)) as [result s']. cbn [snd] in *.
  destruct caller.
  - apply ok_add_task; [by left|]. by quietly.
  - by apply ok_add_task; [by left|].
  - apply ok_add_task; [by left|]. by quietly.
  - quietly. destruct Hcl as [|Hc']; [done|]. eapply ok_closed; [congruence|done].
Qed.

Lemma ok_step op x s :
  0 <= x -> ok [] 0 x s -> ok [] 0 (x + Z.b2z (overshoots s op)) (step s op).
Proof.
  intros Hx Hs. destruct op; cbn [step]; try (cbn [overshoots Z.b2z]; rewrite Z.add_0_r).
  - by apply ok_acquire.
  - by apply ok_release_lease.
  - by apply ok_forgetExitedChild.
  - by apply ok_retireChild.
  - unfold retireConversation. destruct (get_entry _ s) as [[e entry]|]; [by apply ok_retireChild|by quietly].
  - by apply ok_close.
  - by apply ok_closeIdle.
  - by apply ok_factory_done.
  - by apply ok_registry_done.
  - by apply ok_cleanup_done.
  - by apply ok_creation_finally.
  - destruct (tasks s !! task) as [[]|] eqn:Hi; try done. by eapply ok_child_close_done.
  - destruct (tasks s !! task) as [t|] eqn:Hi.
    + destruct (enabled t s) eqn:Hen; [by apply ok_resume|].
      eapply ok_weaken; [|exact Hs]. destruct (overshoots _ _); simpl; lia.
    + eapply ok_weaken; [|exact Hs]. destruct (overshoots _ _); simpl; lia.
  - by apply ok_idle_timeout.
  - by quietly.
  - eapply quiet_ok; [|exact Hs]. by apply quiet_fields.
Qed.

Lemma ok_run ops x s : 0 <= x -> ok [] 0 x s -> ok [] 0 (x + overshoot s ops) (run step s ops).
Proof.
  revert x s. induction ops as [|op ops IH]; intros x s Hx Hs; cbn [overshoot].
  - by rewrite Z.add_0_r.
  - rewrite run_cons, Z.add_assoc. apply IH; [destruct (overshoots s op); simpl; lia|by apply ok_step].
Qed.

Lemma ok_initial x reg :
  (forall p r, old !! p <> Some (Some r)) -> 0 <= cap + x -> ok [] 0 x (initial_pool cap reg).
Proof.
  intros Hold Hx. split.
  - split; [constructor|]. intros p. cbn. rewrite elem_of_nil, lookup_nil. by split.
  - split; [done|done|]. intros p r Hp. by apply Hold in Hp.
  - right. split; cbn; try done; constructor.
  - by intros n e b Hn.
Qed.
End books.

(** A reachable pool keeps its books, from then on too. *)
Lemma ok_reachable cap reg ops : exists x, 0 <= x /\ ok [] cap [] 0 x (run step (initial_pool cap reg) ops).
Proof.
  assert (0 <= Z.abs cap + overshoot (initial_pool cap reg) ops) as Hx.
  { assert (forall s, 0 <= overshoot s ops); [|specialize (H (initial_pool cap reg)); lia].
    induction ops as [|op ops IH]; intros s; [done|]. cbn. specialize (IH (step s op)).
    destruct (overshoots s op); simpl; lia. }
  eexists. split; [exact Hx|]. apply ok_run; [lia|]. apply ok_initial; [by intros p r|lia].
Qed.

Lemma ok_since old cap held h x s :
  ok old cap held h x s -> ok (acquires s) cap held h x s.
Proof.
  intros [H1 [G1 G2 G3] [Hc|[S1 S2 S3 S0 S4 S5]] H4]; (split; [done|by split| |done]); [by left|by right; split].
Qed.

(** C30: No request for a lease is lost or answered twice.  Whatever the order in
    which promises settle, callers call and timers fire, every [acquire] that has
    not settled is in one place, once: in the wait queue, or held by one
    suspended continuation; every lease goes to one [acquire]; and what an
    [acquire] has settled with never changes. *)
Theorem acquires_conserved maxChildren reg ops more :
  let s := run step (initial_pool maxChildren reg) ops in
  NoDup (places s) /\
  (forall p, acquires s !! p = Some None <-> p ∈ places s) /\
  (forall p p' l, acquires s !! p = Some (Some (Ok l)) -> acquires s !! p' = Some (Some (Ok l)) -> p = p') /\
  (forall p r, acquires s !! p = Some (Some r) -> acquires (run step s more) !! p = Some (Some r)).
Proof.
  intros s. destruct (ok_reachable maxChildren reg ops) as (x & Hx & Hs). fold s in Hs.
  apply ok_since in Hs as Hs'. destruct Hs as [[Hnd Hin] [_ Hdist _] _ _].
  split_and!; [done|intros p; by rewrite (Hin p)|done|].
  apply (ok_run _ _ more x s Hx) in Hs' as [_ [_ _ Hold] _ _]. done.
Qed.

Lemma new_pool_initial maxChildren idleTimeoutMs reg s0 :
  new_PoolManager maxChildren idleTimeoutMs reg = Ok s0 ->
  1 <= maxChildren /\ s0 = initial_pool maxChildren reg.
Proof.
  unfold new_PoolManager. destruct (Z.ltb_spec maxChildren 1); [by rewrite orb_true_r|].
  intros Hnew. split; [lia|]. by repeat case_match; simplify_eq.
Qed.

(** Until the pool is closed, the slots of the entries, of the creations and of the
    teardowns under way are covered by those the pool counts, and are at most
    [maxChildren], plus one for each overshoot. *)
Lemma slots_bounded maxChildren idleTimeoutMs reg s0 ops :
  new_PoolManager maxChildren idleTimeoutMs reg = Ok s0 ->
  let s := run step s0 ops in
  closed s = false -> live s <= occupiedSlots s /\ live s <= maxChildren + overshoot s0 ops.
Proof.
  intros [Hmax ->]%new_pool_initial s Hopen.
  assert (ok [] maxChildren [] 0 (0 + overshoot (initial_pool maxChildren reg) ops) s) as [_ _ Hslots _].
  { apply ok_run; [done|]. apply ok_initial; [by intros p r|lia]. }
  destruct Hslots as [Hc|Hslots]; [congruence|].
  pose proof (live_le _ _ _ _ Hslots). destruct Hslots. lia.
Qed.

(** Close before release.  The ownership of a conversation is given up only
    after the child of the entry that holds it has exited: after its close
    succeeded, or its exit was reported.  A child whose close failed keeps it. *)
Theorem released_after_exit maxChildren reg ops n e b :
  let s := run step (initial_pool maxChildren reg) ops in
  trace s !! n = Some (Released e b) ->
  exists i entry, (i < n)%nat /\ heap s !! e = Some entry /\
    (trace s !! i = Some (CloseDone (child entry) true) \/ trace s !! i = Some (Exited (child entry))).
Proof.
  intros s Hn. destruct (ok_reachable maxChildren reg ops) as (x & _ & [_ _ _ Hrel]).
  destruct (Hrel n e b Hn) as (i & ch & Hi & Hch & Hev). fold s in Hch, Hev.
  rewrite list_lookup_fmap in Hch. destruct (heap s !! e) as [entry|]; [|done]. simplify_eq/=.
  by exists i, entry.
Qed.

(** ** Concrete runs *)

Definition row (k : string) : (string * string) * SessionRecord :=
  (("a", k), mkSession "a" k ("/sessions/" +:+ k)%stdpp 0 0 None).

Definition three_rows : SessionRegistry :=
  mkSessionRegistry (list_to_map [row "x"; row "y"; row "z"]) [] ∅ 0.

Definition pool (n : Z) : PoolManager := initial_pool n three_rows.

(** The creation [c] succeeds with the child [ch], up to its promise. *)
Definition created (c ch : nat) : list Op :=
  [FactoryDone c (Ok ch); RegistryDone c (Ok (row "x").2) (if decide (c = 0)%nat then "t0" else "t1");
   CreationFinally c].

(** [acquire] of a new conversation, answered with a child. *)
Definition leased (k : string) (c ch : nat) : list Op := Acquire "a" k None :: created c ch ++ [Resume 0].

(** A creation by [acquire] fails while another conversation waits for its slot:
    the queue is not drained, and nothing is left to wake the waiter. *)
Example failed_creation_strands_waiter :
  let s := run step (pool 1)
    [Acquire "a" "x" None; Acquire "a" "y" None; Resume 1;
     FactoryDone 0 (Throw (ChildError "spawn")); CreationFinally 0; Resume 0] in
  acquires s = [Some (Throw (ChildError "spawn")); None] /\
  waiters s = [mkWaiter "a" "y" 1] /\ tasks s = [] /\ entries s = [] /\ timers s = [].
Proof. vm_compute. auto. Qed.

(** Two concurrent [acquire]s of a new conversation: the one that joined the
    creation goes on first, since its await is one promise shorter, and takes the
    idle entry; the one that started the creation then takes it without looking. *)
Example joined_creation_leased_twice :
  let s := run step (pool 2)
    ([Acquire "a" "x" None; Acquire "a" "x" None] ++ created 0 10 ++ [Resume 1; Resume 0]) in
  acquires s = [Some (Ok 1%nat); Some (Ok 0%nat)] /\
  (lease_entry <$> leases s) = [0%nat; 0%nat] /\ (released <$> leases s) = [false; false].
Proof. vm_compute. auto. Qed.

(** An [acquire] that finds every child in use, and a [close] in the same turn:
    the waiter is queued after the queue was rejected, and never settles. *)
Example acquire_then_close_strands_waiter :
  let s := run step (pool 1)
    (leased "x" 0 10 ++ [Acquire "a" "y" None; Close; Resume 0; Resume 0; Resume 0;
                         ChildCloseDone 0 (Ok tt); Resume 0]) in
  closePromise s = Some (Some (Ok tt)) /\ acquires s = [Some (Ok 0%nat); None] /\
  waiters s = [mkWaiter "a" "y" 1] /\ tasks s = [] /\ entries s = [].
Proof. vm_compute. auto. Qed.

(** The eviction of the one idle child ends, and before the [acquire] that asked
    for it goes on another one takes the slot: two children live in a pool of one. *)
Example evicted_slot_taken :
  let s := run step (pool 1)
    (leased "x" 0 10 ++ [ReleaseLease 0; Acquire "a" "y" None; ChildCloseDone 0 (Ok tt);
       Resume 0; Resume 0; Acquire "a" "z" None; Resume 0]) in
  pc_id <$> drop 1 (pool_creations s) = ["1:az"; "1:ay"] /\ pendingCreations s = 2 /\ maxChildren s = 1.
Proof. vm_compute. auto. Qed.

(** While an idle child closes its conversation gets a new one; when the close
    fails the old entry takes the new one's place in the map, and closing the
    pool never closes the new child. *)
Example failed_close_replaces_entry :
  let s := run step (pool 2)
    (leased "x" 0 10 ++ [ReleaseLease 0; IdleTimeout 0; Acquire "a" "x" None] ++
     created 1 11 ++ [Resume 1; ChildCloseDone 0 (Throw (ChildError "kill")); Resume 0; Resume 0;
     Close; Resume 0; Resume 0; ChildCloseDone 0 (Ok tt); Resume 0]) in
  acquires s = [Some (Ok 0%nat); Some (Ok 1%nat)] /\ (child <$> heap s) = [10%nat; 11%nat] /\
  is_Some (closePromise s ≫= id) /\ CloseCalled 11 ∉ trace s.
Proof. vm_compute. split_and!; try done; [by eexists|set_solver]. Qed.

(** The bound is reached: two live children in a pool of one, after one such step. *)
Definition slot_taken : list Op :=
  leased "x" 0 10 ++ [ReleaseLease 0; Acquire "a" "y" None; ChildCloseDone 0 (Ok tt);
    Resume 0; Resume 0; Acquire "a" "z" None; Resume 0].

(** An idle child is swept. *)
Definition swept : list Op :=
  leased "x" 0 10 ++ [ReleaseLease 0; IdleTimeout 0; ChildCloseDone 0 (Ok tt)].

Lemma released_after_exit_witness :
  exists i entry, (i < 6)%nat /\ heap (run step (pool 1) swept) !! 0%nat = Some entry /\
    (trace (run step (pool 1) swept) !! i = Some (CloseDone (child entry) true) \/
     trace (run step (pool 1) swept) !! i = Some (Exited (child entry))).
Proof. apply (released_after_exit 1 three_rows swept 6 0 true). vm_compute. reflexivity. Defined.
