(* ===== verification/PoolChildren.v ===== *)
(** * The children of the pool (src/packages/core/src/pool-manager.ts)

    The cap of the pool bounds its slots: its entries, creations and teardowns.
    This file counts children instead.  An entry of the heap has a child that has
    not ended until its ownership is released, since [releaseOwnership] follows the
    child's end (PoolBooks.v); [tracked] entries are those the pool still has in
    its map or is closing.  Every step keeps them tracked, except the two that put
    an entry in the map where another one is. *)

From S2P Require Import Prelude RecordUpdate Promises JsMap JsString SqlTable AdapterRegistry SessionRegistry.
From S2P Require Import PoolManager PoolBooks.
From stdpp Require Import options.
#[local] Open Scope Z_scope.

(** The entry whose child is being closed, or whose close failed. *)
Definition closing_entry (t : Task) : option nat :=
  match t with
  | Closing _ e _ _ | TornDown _ e _ (close_failed _) _ => Some e
  | _ => None
  end.

(** The pool knows of the entry, or has seen its child end. *)
Inductive tracked (s : PoolManager) (e : nat) : Prop :=
| tracked_mapped id (H : jget id (entries s) = Some e)
| tracked_closing t (Ht : t ∈ tasks s) (H : closing_entry t = Some e)
| tracked_released b (H : Released e b ∈ trace s).

(** A step that loses track of no child and creates none. *)
Record keeps (s s' : PoolManager) : Prop := {
  k_closed : PoolManager.closed s = true -> PoolManager.closed s' = true;
  k_heap : length (heap s') = length (heap s);
  k_tracked : forall e, tracked s e -> tracked s' e
}.

#[export] Instance keeps_preorder : PreOrder keeps.
Proof.
  split; [done|]. intros s1 s2 s3 [C1 H1 T1] [C2 H2 T2]. split; [auto|congruence|auto].
Qed.

Lemma keeps_same s s' :
  (PoolManager.closed s', length (heap s'), entries s') = (PoolManager.closed s, length (heap s), entries s) ->
  tasks s ⊆ tasks s' -> trace s ⊆ trace s' -> keeps s s'.
Proof.
  intros [= Hc Hh He] Ht Hr. split; [by rewrite Hc|done|]. intros e [id H|t Hin H|b H].
  - apply (tracked_mapped _ _ id). by rewrite He.
  - apply (tracked_closing _ _ t); auto.
  - apply (tracked_released _ _ b). auto.
Qed.

Lemma keeps_fold {A} (f : PoolManager -> A -> PoolManager) l s :
  (forall s x, keeps s (f s x)) -> keeps s (fold_left f l s).
Proof.
  intros Hf. revert s. induction l as [|x l IH]; intros s; [done|]. cbn. etrans; [apply Hf|apply IH].
Qed.

Create HintDb kept discriminated.

(** A field the relation does not look at, a new event, a new task. *)
Ltac same :=
  apply keeps_same; cbn; rewrite ?length_alter; first [done|set_solver].

(** Peels the outermost operation off the state of the goal. *)
Ltac keep := etrans; [|solve [eauto with kept]]; try done.

Lemma keeps_event ev s : keeps s (event ev s).
Proof. same. Qed.

Lemma keeps_log type a k s : keeps s (log type a k s).
Proof. same. Qed.

Lemma keeps_log_pool type s : keeps s (log_pool type s).
Proof. same. Qed.

Lemma keeps_log_entry type e s : keeps s (log_entry type e s).
Proof. unfold log_entry. case_match; [apply keeps_log|done]. Qed.

Lemma keeps_add_task t s : keeps s (add_task t s).
Proof. same. Qed.

Lemma keeps_update e f s : keeps s (update e f s).
Proof. same. Qed.

Lemma keeps_set_inUse b e s : keeps s (set_inUse b e s).
Proof. same. Qed.

Lemma keeps_clear_timer e s : keeps s (clear_timer e s).
Proof. unfold clear_timer. repeat case_match; same. Qed.

Lemma keeps_touchLru id s : keeps s (touchLru id s).
Proof.
  unfold touchLru. destruct (jget id (entries s)) as [e|] eqn:Hg; [|done]. split; [done|done|].
  intros x [id' H|t Hin H|b H]; [|by apply (tracked_closing _ _ t)|by apply (tracked_released _ _ b)].
  apply (tracked_mapped _ _ id'). cbn. rewrite jget_set, jget_delete. case_decide; congruence.
Qed.

Lemma keeps_registry_touch a k s : keeps s (registry_touch a k s).
Proof. same. Qed.

Lemma keeps_settle_acquire p r s : keeps s (settle_acquire p r s).
Proof. same. Qed.

Lemma keeps_reject p e s : keeps s (reject p e s).
Proof. same. Qed.

Lemma keeps_settle_call q r s : keeps s (settle_call q r s).
Proof. same. Qed.

Lemma keeps_resolve_lease p e id s : keeps s (resolve_lease p e id s).
Proof. same. Qed.

Lemma keeps_new_operation b s : keeps s (new_operation b s).2.
Proof. same. Qed.

Lemma keeps_settle_operation o err s : keeps s (settle_operation o err s).
Proof. same. Qed.

Lemma keeps_set_creation c ph s : keeps s (set_creation c ph s).
Proof. same. Qed.

Lemma keeps_enqueueWaiter a k p s : keeps s (enqueueWaiter a k p s).
Proof. same. Qed.

#[local] Hint Resolve keeps_event keeps_log keeps_log_pool keeps_log_entry keeps_add_task keeps_update
  keeps_set_inUse keeps_clear_timer keeps_touchLru keeps_registry_touch keeps_settle_acquire keeps_reject
  keeps_settle_call keeps_resolve_lease keeps_new_operation keeps_settle_operation keeps_set_creation
  keeps_enqueueWaiter : kept.

Lemma keeps_lease_entry_to p e id a k s : keeps s (lease_entry_to p e id a k s).
Proof. unfold lease_entry_to. do 4 keep. Qed.

Lemma keeps_lease_waiter w e id s : keeps s (lease_waiter w e id s).
Proof. unfold lease_waiter, log_waiter. etrans; [apply keeps_lease_entry_to|apply keeps_log]. Qed.

Lemma keeps_rejectWaitersFor id e s : keeps s (rejectWaitersFor id e s).
Proof. unfold rejectWaitersFor. etrans; [|apply keeps_fold; intros; apply keeps_reject]. same. Qed.

Lemma keeps_releaseOwnership e s : keeps s (releaseOwnership e s).2.
Proof.
  unfold releaseOwnership. destruct (heap s !! e) as [entry|]; [|done].
  destruct (release _ _ _ _ _) as [r db]. same.
Qed.

#[local] Hint Resolve keeps_lease_entry_to keeps_lease_waiter keeps_rejectWaitersFor
  keeps_releaseOwnership : kept.

(** *** Teardown *)

(** The entry of [id] leaves the map while its teardown starts. *)
Lemma keeps_start id e o caller s s1 :
  jget id (entries s) = Some e -> entries s1 = jdelete id (entries s) ->
  PoolManager.closed s1 = PoolManager.closed s -> length (heap s1) = length (heap s) ->
  tasks s ⊆ tasks s1 -> trace s ⊆ trace s1 -> keeps s (teardownEntry id e o caller s1).
Proof.
  intros Hg He Hc Hh Ht Hr. unfold teardownEntry.
  set (s2 := match heap s1 !! e with Some entry => event (CloseCalled (child entry)) s1 | None => s1 end).
  assert (keeps s1 s2) as [K1 K2 K3] by (unfold s2; case_match; [apply keeps_event|done]).
  split; [intros; apply K1; congruence|cbn; congruence|]. intros x Hx. destruct (decide (x = e)) as [->|Hne].
  - apply (tracked_closing _ _ (Closing id e o caller)); [cbn; set_solver|done].
  - apply keeps_add_task, K3. destruct Hx as [id' H|t Hin H|b H].
    + apply (tracked_mapped _ _ id'). rewrite He, jget_delete_ne; [done|]. congruence.
    + apply (tracked_closing _ _ t); auto.
    + apply (tracked_released _ _ b). auto.
Qed.

Lemma keeps_start_eviction id e caller s :
  jget id (entries s) = Some e -> keeps s (start_eviction id e caller s).
Proof. intros Hg. unfold start_eviction. cbn. by apply keeps_start. Qed.

Lemma keeps_evictEntrySync id e caller s : keeps s (evictEntrySync id e caller s).2.
Proof.
  unfold evictEntrySync. destruct (not_evictable id e s) eqn:He; [done|]. cbn [snd].
  apply not_evictable_false in He.
  etrans; [|apply keeps_start_eviction; by rewrite log_entry_entries, clear_timer_entries].
  etrans; [apply keeps_clear_timer|apply keeps_log_entry].
Qed.

Lemma keeps_evictEntryAsync id e s : keeps s (evictEntryAsync id e s).
Proof.
  unfold evictEntryAsync. destruct (not_evictable id e s) eqn:He; [done|].
  apply not_evictable_false in He. etrans; [apply (keeps_clear_timer e)|]. cbn.
  set (s1 := clear_timer e s). set (s2 := s1 <| entries ::= jdelete id |> <| closing ::= Z.add 1 |>).
  assert (jget id (entries s1) = Some e) as Hg by (unfold s1; by rewrite clear_timer_entries).
  apply keeps_start; [done|by cbn; rewrite log_entry_entries|..];
    cbn; unfold log_entry; case_match; try done; cbn; set_solver.
Qed.

#[local] Hint Resolve keeps_evictEntrySync keeps_evictEntryAsync : kept.

Lemma keeps_capacity_outcome ev caller s : keeps s (capacity_outcome ev caller s).
Proof. destruct caller; apply keeps_add_task. Qed.

Lemma keeps_evict_loop idle err caller s : keeps s (evict_loop idle err caller s).
Proof.
  revert err. induction idle as [|[id e] idle IH]; intros err; cbn [evict_loop].
  - repeat case_match; try apply keeps_capacity_outcome;
      (etrans; [apply keeps_log_pool|apply keeps_capacity_outcome]).
  - case_match; [apply IH|]. pose proof (keeps_evictEntrySync id e (ForCapacity idle err caller) s) as H1.
    by destruct (evictEntrySync _ _ _ _).
Qed.

Lemma keeps_evictIdleForCapacity caller s : keeps s (evictIdleForCapacity caller s).
Proof.
  unfold evictIdleForCapacity. case_match; [|apply keeps_evict_loop].
  etrans; [apply keeps_log_pool|apply keeps_capacity_outcome].
Qed.

Lemma keeps_evict_resumed outcome rest err caller s : keeps s (evict_resumed outcome rest err caller s).
Proof. destruct outcome; [apply keeps_capacity_outcome|apply keeps_evict_loop..]. Qed.

(** *** Creations and the wait queue *)

Lemma keeps_createEntry a k id parent s : keeps s (createEntry a k id parent s).2.
Proof. unfold createEntry. case_match; [done|]. same. Qed.

Lemma keeps_cleanup c ch err s : keeps s (cleanup c ch err s).
Proof. unfold cleanup. etrans; [apply keeps_event|apply keeps_set_creation]. Qed.

Lemma keeps_factory_done c r s : keeps s (factory_done c r s).
Proof.
  unfold factory_done. case_match; [|done]. case_match; try done.
  case_match; [destruct (getOrCreate _ _ _ _) as [[acq|err] reg]|]; same.
Qed.

Lemma keeps_cleanup_done c r s : keeps s (cleanup_done c r s).
Proof. unfold cleanup_done. case_match; [|done]. case_match; try done. same. Qed.

Lemma keeps_creation_finally c s : keeps s (creation_finally c s).
Proof. unfold creation_finally. case_match; [|done]. case_match; try done. same. Qed.

Lemma keeps_start_drain_eviction s : keeps s (start_drain_eviction s).
Proof.
  unfold start_drain_eviction. case_match; [done|].
  etrans; [apply keeps_evictIdleForCapacity|]. same.
Qed.

Lemma keeps_drain_round w rest s : keeps s (drain_round w rest s).2.
Proof.
  unfold drain_round. assert (keeps s (s <| waiters := rest |>)) as Hs by same.
  destruct (get_entry _ _) as [[e entry]|].
  - case_match; [by etrans; [exact Hs|apply keeps_reject]|]. case_match; [done|]. cbn [snd].
    etrans; [exact Hs|]. etrans; [apply keeps_clear_timer|apply keeps_lease_waiter].
  - case_match; [by etrans; [exact Hs|apply keeps_add_task]|].
    case_match; [cbn [snd]; case_match; [done|apply keeps_start_drain_eviction]|].
    pose proof (keeps_createEntry (w_adapterId w) (w_conversationKey w) (waiter_id w) None
      (s <| waiters := rest |>)) as Hc.
    destruct (createEntry _ _ _ _ _) as [c s']. cbn [snd] in *.
    etrans; [exact Hs|]. etrans; [exact Hc|apply keeps_add_task].
Qed.

Lemma keeps_drainWaiters s : keeps s (drainWaiters s).
Proof.
  unfold drainWaiters. generalize (length (waiters s)). intros n. revert s.
  induction n as [|n IH]; intros s; [done|]. cbn [drain_loop]. destruct (waiters s) as [|w rest]; [done|].
  pose proof (keeps_drain_round w rest s) as Hr.
  destruct (drain_round w rest s) as [[] s']; [etrans; [exact Hr|apply IH]|exact Hr].
Qed.

Lemma keeps_drain_evicted ev s : keeps s (drain_evicted ev s).
Proof.
  unfold drain_evicted. case_match; [done..|]. etrans; [|apply keeps_fold].
  - same.
  - intros s' w. unfold log_waiter. etrans; [apply keeps_reject|apply keeps_log].
Qed.

Lemma keeps_acquire_create a k id parent p s : keeps s (acquire_create a k id parent p s).
Proof.
  unfold acquire_create. case_match; [apply keeps_reject|].
  pose proof (keeps_createEntry a k id parent s) as Hc. destruct (createEntry _ _ _ _ _) as [c s'].
  etrans; [exact Hc|apply keeps_add_task].
Qed.

#[local] Hint Resolve keeps_capacity_outcome keeps_evict_loop keeps_evictIdleForCapacity
  keeps_evict_resumed keeps_drainWaiters keeps_acquire_create : kept.

Lemma keeps_acquire a k parent s : keeps s (acquire a k parent s).
Proof.
  unfold acquire. transitivity (s <| acquires ::= fun l => l ++ [None] |>); [same|].
  unfold acquire_body. repeat case_match; eauto with kept.
  do 4 keep. apply keeps_clear_timer.
Qed.

Lemma keeps_armIdleTimer e s : keeps s (armIdleTimer e s).
Proof.
  unfold armIdleTimer. case_match; [|done]. etrans; [apply (keeps_clear_timer e)|]. same.
Qed.

Lemma keeps_release_lease l s : keeps s (release_lease l s).
Proof.
  unfold release_lease. case_match; [|done]. case_match; [done|].
  etrans; [|unfold releaseEntry]; [|case_match; [done|]; destruct (get_entry _ _) as [[e entry]|]; [|done];
    case_match; [done|]; etrans; [|apply keeps_drainWaiters]; etrans; [|apply keeps_armIdleTimer];
    do 2 keep; apply keeps_set_inUse].
  same.
Qed.

Lemma keeps_forgetExitedChild a k ch s : keeps s (forgetExitedChild a k ch s).
Proof.
  unfold forgetExitedChild. destruct (get_entry _ s) as [[e entry]|] eqn:Hg; [|done]. case_match; [done|].
  set (s1 := event (Exited ch) _).
  assert (keeps s (releaseOwnership e s1).2) as Hk.
  { unfold get_entry in Hg. destruct (jget _ (entries s)) as [e'|] eqn:Hm; [|done].
    destruct (heap s !! e') as [entry'|] eqn:Hh; [|done]. injection Hg as -> ->.
    pose proof (keeps_clear_timer e s) as [C1 C2 C3].
    assert (length (heap s1) = length (heap s)) as Hlen by done.
    destruct (heap s1 !! e) as [entry1|] eqn:Hh1.
    2: { apply lookup_ge_None in Hh1. apply lookup_lt_Some in Hh. lia. }
    unfold releaseOwnership. rewrite Hh1. destruct (release _ _ _ _ _) as [r db]. cbn [snd].
    split; [exact C1|exact C2|]. intros x Hx. destruct (decide (x = e)) as [->|Hne].
    - apply (tracked_released _ _ (is_ok r)). cbn. set_solver.
    - apply C3 in Hx as [id' H1|t Hin H1|b H1].
      + apply (tracked_mapped _ _ id'). cbn. rewrite jget_delete_ne; [done|].
        rewrite clear_timer_entries in H1. congruence.
      + by apply (tracked_closing _ _ t).
      + apply (tracked_released _ _ b). cbn. set_solver. }
  destruct (releaseOwnership e s1) as [[err|] s2]; cbn [snd] in Hk; etrans; try exact Hk;
    (etrans; [apply keeps_log|apply keeps_drainWaiters]).
Qed.

Lemma keeps_retireChild a k ch s : keeps s (retireChild a k ch s).
Proof.
  unfold retireChild. transitivity (s <| calls ::= fun l => l ++ [None] |>); [same|].
  unfold retire_body. destruct (get_entry _ _) as [[e entry]|]; [|apply keeps_settle_call].
  case_match; [apply keeps_settle_call|]. set (s1 := update e _ _).
  pose proof (keeps_evictEntrySync (conversationIdOf a k) e (ForRetire (length (calls s))) s1) as He.
  destruct (evictEntrySync _ _ _ s1) as [[outcome|] s2]; cbn [snd] in He;
    (etrans; [apply keeps_update|]); [|exact He]. etrans; [exact He|apply keeps_add_task].
Qed.

Lemma keeps_idle_timeout t s : keeps s (idle_timeout t s).
Proof.
  unfold idle_timeout. destruct (List.find _ (timers s)) as [[t' id]|]; [|done].
  etrans; [|case_match; [case_match; [done|etrans; [apply keeps_evictEntryAsync|apply keeps_log_entry]]|done]].
  same.
Qed.

Lemma keeps_closeIdle_loop l count q s : keeps s (closeIdle_loop l count q s).
Proof.
  induction l as [|e l IH]; cbn [closeIdle_loop].
  - etrans; [apply keeps_drainWaiters|apply keeps_settle_call].
  - case_match; [|done]. case_match eqn:He; [done|]. apply keeps_start_eviction. by apply not_evictable_false.
Qed.

Lemma keeps_closeIdle s : keeps s (closeIdle s).
Proof.
  unfold closeIdle. etrans; [|apply keeps_closeIdle_loop]. etrans; [|apply keeps_fold; auto with kept]. same.
Qed.

Lemma keeps_close s : keeps s (close s).
Proof.
  unfold close. case_match; [done|]. etrans; [|apply keeps_add_task].
  etrans; [|apply keeps_fold; auto with kept]. etrans; [|apply keeps_fold].
  - split; [done|done|]. intros e [id He|t Ht He|b He];
      [by eapply tracked_mapped|by eapply tracked_closing|by eapply tracked_released].
  - intros s' w. unfold cancel_waiter, log_waiter. etrans; [apply keeps_reject|apply keeps_log].
Qed.

#[local] Hint Resolve keeps_acquire keeps_release_lease keeps_forgetExitedChild keeps_retireChild
  keeps_idle_timeout keeps_closeIdle_loop keeps_closeIdle keeps_close keeps_factory_done keeps_cleanup_done
  keeps_creation_finally keeps_drain_evicted : kept.

(** ** Entries lost *)

(** The entry that [entries.set(id, e)] takes out of the map. *)
Definition replaced (id : string) (e : nat) (s : PoolManager) : list nat :=
  match jget id (entries s) with Some e' => if decide (e' = e) then [] else [e'] | None => [] end.

(** The entries an operation overwrites in the map: a failed close puts its entry
    back over the one made meanwhile, or a creation puts its entry over one that
    a failed close put back. *)
Definition overwrites (s : PoolManager) (op : Op) : list nat :=
  match op with
  | Resume i =>
      match tasks s !! i with
      | Some (TornDown _ _ _ _ ForClose) => []
      | Some (TornDown id e _ (close_failed _) _) => replaced id e s
      | _ => []
      end
  | RegistryDone c _ _ =>
      match pool_creations s !! c with
      | Some cr =>
          if (length (heap s) <? length (heap (step s op)))%nat
          then replaced (pc_id cr) (length (heap s)) s else []
      | None => []
      end
  | _ => []
  end.

Fixpoint overwritten (s : PoolManager) (ops : list Op) : list nat :=
  match ops with
  | [] => []
  | op :: ops => overwrites s op ++ overwritten (step s op) ops
  end.

(** Until the pool is closed it tracks every entry but the [lost] ones. *)
Definition covered (lost : list nat) (s : PoolManager) : Prop :=
  PoolManager.closed s = true \/ forall e, (e < length (heap s))%nat -> tracked s e \/ e ∈ lost.

Lemma keeps_covered lost s s' : keeps s s' -> covered lost s -> covered lost s'.
Proof.
  intros [K1 K2 K3] [Hc|H]; [left; auto|right]. intros e. rewrite K2. intros [?|?]%H; auto.
Qed.

Lemma covered_more lost lost' s : covered lost s -> covered (lost ++ lost') s.
Proof. intros [Hc|H]; [by left|right]. intros e [?|?]%H; [by left|right]. apply elem_of_app. by left. Qed.

(** An entry put in the map. *)
Lemma covered_set id e lost s s' :
  PoolManager.closed s' = PoolManager.closed s -> entries s' = jset id e (entries s) ->
  tasks s ⊆ tasks s' -> trace s ⊆ trace s' ->
  (forall x, (x < length (heap s'))%nat -> (x < length (heap s))%nat \/ x = e) ->
  covered (e :: lost) s -> covered (lost ++ replaced id e s) s'.
Proof.
  intros Hc He Ht Hr Hh [Hcl|H]; [left; congruence|right]. intros x Hx.
  assert (tracked s' e) as Hnew by (apply (tracked_mapped _ _ id); rewrite He; apply jget_set_eq).
  destruct (decide (x = e)) as [->|Hne]; [by left|].
  destruct (Hh x Hx) as [Hold|]; [|done]. rewrite elem_of_app.
  destruct (H x Hold) as [[id' Hm|t Hin Ht'|b Hb]|[?|?]%elem_of_cons]; try done; [|left..|by right; left].
  - destruct (decide (id' = id)) as [->|].
    + right. right. unfold replaced. rewrite Hm, decide_False by done. by left.
    + left. apply (tracked_mapped _ _ id'). by rewrite He, jget_set_ne.
  - apply (tracked_closing _ _ t); auto.
  - apply (tracked_released _ _ b). auto.
Qed.

(** A task taken to run: the entry it closes is in its hands. *)
Lemma covered_drop i t lost s :
  tasks s !! i = Some t -> covered lost s ->
  covered (match closing_entry t with Some e => e :: lost | None => lost end) (drop_task i s).
Proof.
  intros Hi [Hc|H]; [by left|right]. intros x [[id Hm|t' Hin Ht|b Hb]|?]%H.
  - left. by apply (tracked_mapped _ _ id).
  - pose proof (delete_Permutation _ _ _ Hi) as Hp. rewrite Hp in Hin.
    apply elem_of_cons in Hin as [->|Hin]; [right; rewrite Ht; by left|].
    left. by apply (tracked_closing _ _ t').
  - left. by apply (tracked_released _ _ b).
  - right. destruct (closing_entry t); [by right|done].
Qed.

(** *** The creation of an entry *)

Lemma covered_insert_entry c ch a k id token lost s :
  covered lost s -> covered (lost ++ replaced id (length (heap s)) s) (insert_entry c ch a k id token s).
Proof.
  intros Hs. eapply keeps_covered; [apply keeps_set_creation|].
  apply (covered_set id (length (heap s)) lost (log revival a k s)); [done|done|set_solver|cbn; set_solver| |].
  - intros x. cbn. rewrite length_app. cbn. lia.
  - eapply keeps_covered; [apply keeps_log|]. destruct Hs as [|H]; [by left|right].
    intros e [?|?]%H; [by left|right]. by right.
Qed.

(** [registry_done] makes an entry, or nothing of its kind. *)
Lemma registry_done_cases c r token s :
  keeps s (registry_done c r token s) \/
  exists cr ch a k s', pool_creations s !! c = Some cr /\ keeps s s' /\ entries s' = entries s /\
    heap s' = heap s /\ registry_done c r token s = insert_entry c ch a k (pc_id cr) token s'.
Proof.
  unfold registry_done, transfer_owner, set_owner. destruct (pool_creations s !! c) as [cr|]; [|by left].
  destruct (pc_phase cr) as [|ch| | |]; try (by left). destruct r as [rec|err]; [|left; apply keeps_cleanup].
  destruct (setOwner _ _ _ None _ _) as [[acq|err] db].
  { right. exists cr, ch, (pc_adapterId cr), (pc_conversationKey cr), (s <| registry ::= with_db db |>).
    split_and!; [done|same|done..]. }
  set (s1 := s <| registry ::= with_db db |>). assert (keeps s s1) as H1 by same.
  destruct (owner_mismatch err); [|left; etrans; [exact H1|apply keeps_cleanup]].
  destruct (_ ≫= sr_currentOwner) as [stale|]; [|left; etrans; [exact H1|apply keeps_cleanup]].
  set (s2 := log revival _ _ s1). assert (keeps s s2) as H2 by (etrans; [exact H1|apply keeps_log]).
  destruct (setOwner _ _ _ (Some stale) _ _) as [[acq|err'] db'].
  - right. exists cr, ch, (pc_adapterId cr), (pc_conversationKey cr), (s2 <| registry ::= with_db db' |>).
    split_and!; [done| |done..]. etrans; [exact H2|]. same.
  - left. etrans; [exact H2|]. etrans; [|case_match; apply keeps_cleanup]. same.
Qed.

Lemma covered_registry_done c r token lost s :
  covered lost s ->
  covered (lost ++ overwrites s (RegistryDone c r token)) (registry_done c r token s).
Proof.
  intros Hs. destruct (registry_done_cases c r token s) as [Hk|(cr & ch & a & k & s' & Hc & Hk & He & Hh & Heq)].
  - apply covered_more. by eapply keeps_covered.
  - cbn [overwrites step]. rewrite Hc, Heq.
    assert (length (heap (insert_entry c ch a k (pc_id cr) token s')) = S (length (heap s))) as ->.
    { cbn. rewrite length_app, Hh. cbn. lia. }
    rewrite (proj2 (Nat.ltb_lt _ _)) by lia.
    assert (replaced (pc_id cr) (length (heap s)) s = replaced (pc_id cr) (length (heap s')) s') as ->
      by (unfold replaced; by rewrite He, Hh).
    apply covered_insert_entry. by eapply keeps_covered.
Qed.

(** *** The end of a teardown *)

(** The entry in the hands of the code is tracked again, or its child has ended. *)
Lemma covered_back e lost s s' :
  keeps s s' -> PoolManager.closed s' = true \/ ((e < length (heap s))%nat -> tracked s' e) ->
  covered (e :: lost) s -> covered lost s'.
Proof.
  intros [K1 K2 K3] [Hc|He]; [by left|]. intros [Hc|H]; [left; auto|right].
  intros x. rewrite K2. intros Hx. destruct (H x Hx) as [?|[->|?]%elem_of_cons]; auto.
Qed.

Lemma covered_restore id e lost s :
  covered (e :: lost) s -> covered (lost ++ replaced id e s) (restore_entry id e s).
Proof.
  apply covered_set; try done. intros x. cbn. rewrite length_alter. by left.
Qed.

Lemma teardown_closed_spec e r s :
  let '(result, s') := teardown_closed e r s in
  keeps s s' /\
  ((e < length (heap s))%nat -> (exists err, result = close_failed err) \/ exists b, Released e b ∈ trace s').
Proof.
  unfold teardown_closed. destruct (heap s !! e) as [entry|] eqn:Hh.
  2: { split; [done|]. apply lookup_ge_None in Hh. lia. }
  destruct r as [u|err].
  - set (s1 := event (CloseDone _ _) s). unfold releaseOwnership. change (heap s1) with (heap s). rewrite Hh.
    destruct (release _ _ _ _ _) as [[rec|err] db]; (split; [same|]); intros _; right;
      [exists true|exists false]; cbn; set_solver.
  - split; [etrans; [apply keeps_event|apply keeps_log]|]. intros _. left. by exists err.
Qed.

Lemma covered_child_close_done id e o caller r lost s :
  (caller = ForClose -> PoolManager.closed s = true) ->
  covered (e :: lost) s -> covered lost (child_close_done id e o caller r s).
Proof.
  intros Hclose Hs. unfold child_close_done. pose proof (teardown_closed_spec e r s) as Ht.
  destruct (teardown_closed e r s) as [result s'] eqn:Heq. destruct Ht as [Hk He].
  assert (forall o' err, keeps s (settle_operation o' err s')) as Hset
    by (intros; etrans; [exact Hk|apply keeps_settle_operation]).
  assert (forall s2, keeps s (add_task (TornDown id e o result caller) s2) -> trace s' ⊆ trace s2 ->
    covered lost (add_task (TornDown id e o result caller) s2)) as Hadd.
  { intros s2 H2 Htr. eapply covered_back; [exact H2| |exact Hs]. right. intros Hlt.
    destruct (He Hlt) as [[err ->]|[b Hb]].
    - apply (tracked_closing _ _ (TornDown id e o (close_failed err) caller)); [cbn; set_solver|done].
    - apply (tracked_released _ _ b). auto. }
  destruct caller.
  - apply Hadd; [|done]. etrans; [apply Hset|apply keeps_add_task].
  - apply Hadd; [|done]. etrans; [exact Hk|apply keeps_add_task].
  - apply Hadd; [|done]. etrans; [apply Hset|apply keeps_add_task].
  - left. apply (k_closed _ _ (Hset o (teardown_error result))), Hclose, eq_refl.
Qed.

Lemma covered_torn_down id e o r caller lost s :
  (caller = ForClose -> PoolManager.closed s = true) ->
  covered (match closing_entry (TornDown id e o r caller) with Some e => e :: lost | None => lost end) s ->
  covered (lost ++ match r, caller with
                   | close_failed _, ForClose => []
                   | close_failed _, _ => replaced id e s
                   | _, _ => []
                   end) (torn_down id e o r caller s).
Proof.
  intros Hclose Hs. destruct caller as [caller| |rest n q|]; cbn [torn_down].
  - destruct r as [|err|err]; cbn [evictEntrySync_done closing_entry] in *.
    + rewrite app_nil_r. eapply keeps_covered; [|exact Hs]. etrans; [|apply keeps_add_task]. same.
    + eapply keeps_covered; [|by apply covered_restore]. etrans; [|apply keeps_add_task]. same.
    + rewrite app_nil_r. eapply keeps_covered; [|exact Hs].
      etrans; [|apply keeps_add_task]. etrans; [|apply keeps_log_entry]. same.
  - destruct r as [|err|err]; cbn [closing_entry] in *; rewrite ?app_nil_r.
    + eapply keeps_covered; [apply keeps_add_task|exact Hs].
    + eapply keeps_covered; [apply keeps_add_task|by apply covered_restore].
    + eapply keeps_covered; [apply keeps_add_task|exact Hs].
  - destruct r as [|err|err]; cbn [closing_entry] in *; rewrite ?app_nil_r;
      (eapply keeps_covered; [apply keeps_closeIdle_loop|]).
    + eapply keeps_covered; [|exact Hs]. same.
    + assert (keeps s (s <| closing ::= Z.add (-1) |>)) as Hk by same.
      change (replaced id e s) with (replaced id e (s <| closing ::= Z.add (-1) |>)).
      apply covered_restore. by eapply keeps_covered.
    + eapply keeps_covered; [|exact Hs]. same.
  - left. auto.
Qed.

(** *** Tasks and operations *)

Lemma closed_close_teardown errors s :
  PoolManager.closed (close_teardown errors s) = PoolManager.closed s.
Proof.
  unfold close_teardown.
  assert (forall l acc, PoolManager.closed (fold_left start_close_teardown l acc).2 = PoolManager.closed acc.2) as H.
  { induction l as [|ie l IH]; intros [os s0]; [done|]. cbn [fold_left]. rewrite IH.
    cbn. unfold teardownEntry. by case_match. }
  specialize (H (entries s) ([], s)). destruct (fold_left _ _ _) as [os s']. exact H.
Qed.

(** A task that holds no child, run. *)
Lemma keeps_run_task t s :
  closing_entry t = None -> (of_close t = true -> PoolManager.closed s = true) ->
  match t with TornDown _ _ _ _ _ => False | _ => True end ->
  keeps s (run_task t s) \/ PoolManager.closed (run_task t s) = true.
Proof.
  intros Hn Hclose Ht. destruct t; try done; cbn [run_task].
  - left. unfold with_result, acquire_inflight. repeat case_match; eauto with kept; done.
  - left. unfold acquire_evicted. case_match; eauto with kept.
  - left. unfold with_result, acquire_created. repeat case_match; eauto with kept; done.
  - left. unfold with_result, drain_inflight. repeat case_match; try done; eauto with kept;
      try (etrans; [|apply keeps_drainWaiters]; first [apply keeps_reject|apply keeps_lease_waiter|same]).
  - left. unfold with_result, drain_created. repeat case_match; try done; eauto with kept;
      (etrans; [|apply keeps_drainWaiters]; first [apply keeps_reject|apply keeps_lease_waiter]).
  - left. etrans; [apply keeps_drain_evicted|apply keeps_add_task].
  - left. unfold drain_finally. etrans; [|apply keeps_drainWaiters]. same.
  - left. etrans; [|apply keeps_settle_operation]. etrans; [|apply keeps_drainWaiters]. same.
  - left. destruct caller; [apply keeps_evict_resumed|]. unfold retire_resumed.
    case_match; etrans; [|apply keeps_settle_call| |apply keeps_settle_call| |apply keeps_settle_call];
      try apply keeps_drainWaiters. etrans; [apply keeps_set_inUse|apply keeps_rejectWaitersFor].
  - right. unfold close_inflight_done, await_evictions. case_match; by apply Hclose.
  - right. unfold await_evictions. case_match; by apply Hclose.
  - right. rewrite closed_close_teardown. by apply Hclose.
  - right. by apply Hclose.
Qed.

(** The continuations of [close] run in a closed pool. *)
Definition close_only (s : PoolManager) : Prop :=
  PoolManager.closed s = true \/ forall t, t ∈ tasks s -> of_close t = false.

Lemma covered_resume i t lost s :
  tasks s !! i = Some t -> enabled t s = true -> close_only s -> covered lost s ->
  covered (lost ++ overwrites s (Resume i)) (run_task t (drop_task i s)).
Proof.
  intros Hi Hen Hclose Hs. pose proof (covered_drop i t lost s Hi Hs) as Hd.
  assert (of_close t = true -> PoolManager.closed (drop_task i s) = true) as Hc.
  { intros Ht. destruct Hclose as [|Hno]; [done|]. by rewrite (Hno t) in Ht by (by eapply list_elem_of_lookup_2). }
  destruct t as [| | | | | | | |id e o r caller| | | | | |]; try done.
  8: { assert (caller = ForClose -> PoolManager.closed (drop_task i s) = true) as Hfc
         by (intros ->; by apply Hc).
       pose proof (covered_torn_down id e o r caller lost (drop_task i s) Hfc Hd) as Ht.
       cbn [overwrites]. rewrite Hi. by destruct r, caller. }
  all: cbn [overwrites]; rewrite Hi, app_nil_r.
  all: match goal with |- covered _ (run_task ?t _) =>
         destruct (keeps_run_task t (drop_task i s) eq_refl Hc I) as [Hk|Hcl] end;
       [by eapply keeps_covered|by left].
Qed.

Lemma covered_step op lost s :
  close_only s -> covered lost s -> covered (lost ++ overwrites s op) (step s op).
Proof.
  intros Hclose Hs.
  assert (forall s', keeps s s' -> overwrites s op = [] -> covered (lost ++ overwrites s op) s') as Hkeep.
  { intros s' Hk ->. rewrite app_nil_r. by eapply keeps_covered. }
  destruct op as [a k parent|l|a k ch|a k ch|a k| | |c r|c r token|c r|c|i r|i|t|rop|now]; cbn [step];
    try (by apply Hkeep; [eauto with kept|]).
  - apply Hkeep; [|done]. unfold retireConversation. destruct (get_entry _ s) as [[e entry]|];
      [apply keeps_retireChild|same].
  - by apply covered_registry_done.
  - cbn [overwrites]. rewrite app_nil_r.
    destruct (tasks s !! i) as [t|] eqn:Hi; [|done]. destruct t; try done.
    pose proof (covered_drop i _ lost s Hi Hs) as Hd. apply covered_child_close_done; [|exact Hd].
    intros ->. destruct Hclose as [|Hno]; [done|]. apply list_elem_of_lookup_2 in Hi. by apply Hno in Hi.
  - destruct (tasks s !! i) as [t|] eqn:Hi; [|by apply covered_more].
    destruct (enabled t s) eqn:Hen; [by apply covered_resume|by apply covered_more].
  - apply Hkeep; [|done]. same.
  - apply Hkeep; [|done]. same.
Qed.

(** ** The children that run *)

(** Has the ownership of the entry been released? *)
Definition is_released (s : PoolManager) (e : nat) : bool :=
  existsb (fun ev => match ev with Released e' _ => (e' =? e)%nat | _ => false end) (trace s).

(** The children that run, or may: those of the entries made and not released,
    wherever the pool has them, and those of the creations under way. *)
Definition running (s : PoolManager) : Z :=
  count (fun e => negb (is_released s e)) (seq 0 (length (heap s))) + count working (pool_creations s).

Lemma count_filter {A} (f : A -> bool) l : count f l = Z.of_nat (length (List.filter f l)).
Proof. induction l as [|x l IH]; cbn; [done|]. rewrite IH. destruct (f x); cbn; lia. Qed.

Lemma closing_entries l : Z.of_nat (length (omap closing_entry l)) <= count tearing l.
Proof.
  induction l as [|t l IH]; [done|]. cbn. destruct t as [| | | | | | | |? ? ? []| | | | | |]; cbn; lia.
Qed.

Lemma covered_running lost s :
  PoolManager.closed s = false -> covered lost s -> running s <= live s + Z.of_nat (length lost).
Proof.
  intros Hopen [Hc|H]; [congruence|]. unfold running, live. rewrite count_filter.
  set (l := List.filter _ _).
  assert (length l <= length ((entries s).*2 ++ omap closing_entry (tasks s) ++ lost))%nat as Hlen.
  { apply submseteq_length, NoDup_submseteq; [apply NoDup_ListNoDup, List.NoDup_filter, seq_NoDup|].
    intros e He. apply list_elem_of_In, filter_In in He as [He%list_elem_of_In%elem_of_seq Hr].
    apply negb_true_iff in Hr. rewrite !elem_of_app. destruct (H e) as [[id Hm|t Ht Hct|b Hb]|]; [lia|..].
    - left. apply jget_elem_of in Hm. apply list_elem_of_fmap. by exists (id, e).
    - right. left. apply list_elem_of_omap. eauto.
    - unfold is_released in Hr. apply not_true_iff_false in Hr. destruct Hr. apply existsb_exists.
      exists (Released e b). split; [by apply list_elem_of_In|]. apply Nat.eqb_refl.
    - by right; right. }
  rewrite !length_app, length_fmap in Hlen. pose proof (closing_entries (tasks s)). lia.
Qed.

Lemma ok_close_only old cap x s : ok old cap [] 0 x s -> close_only s.
Proof.
  intros [_ _ [Hc|[_ _ _ _ _ Hopen]] _]; [by left|right]. intros t Ht.
  apply list_elem_of_split in Ht as (l1 & l2 & Heq). rewrite Heq, count_app in Hopen. cbn in Hopen.
  pose proof (count_nonneg of_close l1). pose proof (count_nonneg of_close l2).
  destruct (of_close t); [simpl in Hopen; lia|done].
Qed.

Lemma covered_run old cap ops x lost s :
  0 <= x -> ok old cap [] 0 x s -> covered lost s ->
  covered (lost ++ overwritten s ops) (run step s ops).
Proof.
  revert x lost s. induction ops as [|op ops IH]; intros x lost s Hx Hok Hs; cbn [overwritten].
  - by rewrite app_nil_r.
  - rewrite run_cons, app_assoc. apply (IH (x + Z.b2z (overshoots s op))).
    + destruct (overshoots s op); simpl; lia.
    + by apply ok_step.
    + apply covered_step; [by eapply ok_close_only|done].
Qed.

(** C31: Capacity.  Until the pool is closed, the slots of its entries, creations
    and teardowns are at most [maxChildren], plus one for each time an [acquire]
    that had evicted a child went on when the slot had been taken meanwhile.  The
    children that run -- those whose ownership is not released, which are all but
    those whose end is on record, and those being created -- are at most that,
    plus one for each entry overwritten in the map: an entry put back by a failed
    close over the conversation's new one, or the other way round.  Those are the
    two ways past the cap, apart from a child whose creation failed and whose
    close failed too, which the pool forgets ([failed_cleanup_forgets_child]). *)
Theorem live_children_bounded maxChildren idleTimeoutMs reg s0 ops :
  new_PoolManager maxChildren idleTimeoutMs reg = Ok s0 ->
  let s := run step s0 ops in
  PoolManager.closed s = false ->
  live s <= occupiedSlots s /\ live s <= maxChildren + overshoot s0 ops /\
  running s <= maxChildren + overshoot s0 ops + Z.of_nat (length (overwritten s0 ops)) /\
  (forall e, is_released s e = true -> exists entry, heap s !! e = Some entry /\
     (CloseDone (child entry) true ∈ trace s \/ Exited (child entry) ∈ trace s)).
Proof.
  intros Hnew s Hopen. destruct (slots_bounded _ _ _ _ ops Hnew Hopen) as [H1 H2].
  fold s in H1, H2. apply new_pool_initial in Hnew as [Hmax ->].
  assert (covered ([] ++ overwritten (initial_pool maxChildren reg) ops) s) as Hs.
  { apply (covered_run [] maxChildren ops 0); [done|apply ok_initial; [by intros p r|lia]|].
    right. intros e He. cbn in He. lia. }
  pose proof (covered_running _ _ Hopen Hs). cbn [app] in *.
  split_and!; [done..|lia|]. intros e He. apply existsb_exists in He as (ev & Hev & Hb).
  destruct ev as [| | | | |e' b]; try done. apply Nat.eqb_eq in Hb as ->.
  apply list_elem_of_In, list_elem_of_lookup in Hev as [n Hn].
  destruct (ok_reachable maxChildren reg ops) as (x & _ & [_ _ _ Hrel]).
  destruct (Hrel n e b Hn) as (i & ch & _ & Hch & Hend). fold s in Hch, Hend.
  rewrite list_lookup_fmap in Hch. destruct (heap s !! e) as [entry|]; [|done]. simplify_eq/=.
  exists entry. split; [done|]. by destruct Hend; [left|right]; eapply list_elem_of_lookup_2.
Qed.

(** ** Concrete runs *)

(** An idle child's close fails after its conversation got a new child: the old
    entry replaces the new one, a third child fits, and three run in a pool of two. *)
Definition entry_overwritten : list Op :=
  leased "x" 0 10 ++ [ReleaseLease 0; IdleTimeout 0; Acquire "a" "x" None] ++
  created 1 11 ++ [Resume 1; ChildCloseDone 0 (Throw (ChildError "kill")); Resume 0; Resume 0;
    Acquire "a" "y" None; FactoryDone 2 (Ok 12%nat); RegistryDone 2 (Ok (row "y").2) "t2"].

Lemma live_children_bounded_witness :
  running (run step (pool 2) entry_overwritten) = 3 /\
  overwritten (pool 2) entry_overwritten = [1%nat] /\ overshoot (pool 2) entry_overwritten = 0 /\
  running (run step (pool 2) entry_overwritten) <= 2 + overshoot (pool 2) entry_overwritten +
    Z.of_nat (length (overwritten (pool 2) entry_overwritten)).
Proof.
  split; [vm_compute; reflexivity|]. split; [vm_compute; reflexivity|]. split; [vm_compute; reflexivity|].
  apply (live_children_bounded 2 1000 three_rows (pool 2) entry_overwritten); vm_compute; reflexivity.
Defined.

(** The other way past the cap: two children in a pool of one. *)
Example evicted_slot_taken_twice :
  live (run step (pool 1) slot_taken) = 2 /\ overshoot (pool 1) slot_taken = 1.
Proof. vm_compute. auto. Qed.

(** A creation fails after the factory made its child, and so does the child's
    close: nothing of the pool mentions the child any more. *)
Example failed_cleanup_forgets_child :
  let s := run step (pool 1)
    [Acquire "a" "x" None; FactoryDone 0 (Ok 10%nat);
     RegistryDone 0 (Throw (SessionGenericError "new_session failed")) "t0";
     CleanupDone 0 (Throw (ChildError "kill")); CreationFinally 0; Resume 0] in
  trace s = [FactoryCalled "1:ax"; CloseCalled 10; CloseDone 10 false; Log create_failed (Some ("a", "x"))] /\
  heap s = [] /\ tasks s = [] /\ occupiedSlots s = 0.
Proof. vm_compute. auto. Qed.
