(* ===== verification/Supervisor.v ===== *)
(** * The core supervisor (src/packages/core/src/supervisor.ts)

    The composition: what happens to an inbound message between the HTTP layer
    and the child, and to the child's frames until the emitter has them.  The
    idempotency store, the ingest buffer and the session registry are the
    definitions of their files.  The pool and the emitters are seen through the
    calls the supervisor makes, recorded in [effects], and through the promises
    those calls return, which settle as operations.

    As in PoolManager.v an asynchronous method is cut at its awaits: a [Task] is
    a suspended continuation, and tasks go on in any order.  [messageIds] of a
    correlation is only ever added to, and is left out, as are the log lines. *)

From S2P Require Import Prelude RecordUpdate Promises JsMap JsString JsValue SqlTable Contracts Canonical.
From S2P Require Import IdempotencyStore IngestBuffer Frames Base64 AdapterRegistry SessionRegistry.
From stdpp Require Import options.
#[local] Open Scope Z_scope.

(** ** Data *)

(** A lease of the pool: its number, and its child. *)
Record Lease := mkLease { lease_no : nat; lease_child : nat }.

Record ActiveCorrelation := mkCorrelation {
  correlationId : string;
  co_adapterId : string;
  co_conversationKey : string;
  emitter : nat;
  lease : option Lease;
  pendingFollowUps : Z;
  terminalEmitted : bool
}.

#[export] Instance correlation_fields : Fields ActiveCorrelation := fun c =>
  mkCorrelation (correlationId c) (co_adapterId c) (co_conversationKey c) (emitter c) (lease c)
    (pendingFollowUps c) (terminalEmitted c).

Inductive InboundResult : Type :=
| accepted (correlationId : string)
| duplicate (correlationId : string).

Inductive SupervisorError : Type :=
| SupervisorClosed
| InboundConflictError (adapterId messageId : string)
| StoreFailure (e : StoreError)
(** a promise of the pool, a child or an emitter was rejected *)
| ExternalError (message : string)
(** [corr.lease!.child] of a correlation without a lease *)
| NullDereference.

(** What is sent to a child for a message: a prompt, with its images, or the
    ambient command, whose argument is the base64url JSON of the content and the
    flag. *)
Inductive Sent : Type :=
| SentPrompt (text : string) (images : list (string * string)) (steer : bool)
| SentAmbient (content : string) (triggerTurn : bool).

Inductive EmitterCall : Type :=
| CallIngest (frame : Frame)
| CallPresence (p : Presence)
| CallProviderError (code message : string) (retryable : bool)
| CallCancelled
| CallDirectReply (text : string)
| CallRedeliver (event : option OutboundEvent)
| CallResume
| CallFlush
| CallClose.

(** The calls of the supervisor, in order. *)
Inductive Effect : Type :=
| NewEmitter (emitter : nat)
| ToEmitter (emitter : nat) (call : EmitterCall)
| Acquire (adapterId conversationKey : string) (parent : option string)
| ReleaseLease (lease : nat)
(** the prompt of a message, by its adapter and message id *)
| ToChild (child : nat) (key : string * string) (sent : Sent)
| AbortChild (child : nat)
| RetireChild (adapterId conversationKey : string) (child : nat)
| RetireConversation (adapterId conversationKey : string)
| ForgetExited (adapterId conversationKey : string) (child : nat)
| ClosePool.

(** A call of [processInbound]. *)
Record Run := mkRun {
  run_adapterId : string;
  run_message : InboundMessage;
  run_result : option (result SupervisorError InboundResult)
}.

Definition run_key (r : Run) : string := compositeKey (run_adapterId r) (conversationKey (run_message r)).

(** Who awaits [activate]: a run, or the loop of [flushSettled]. *)
Inductive ActivationCaller : Type :=
| ByRun (run : nat)
| ByFlush (rest : list SettledActivation).

(** Who awaits [interruptTurn]: a run, or a session reset. *)
Inductive InterruptCaller : Type :=
| ForRun (run : nat)
| ForReset (caller : ActivationCaller) (adapterId : string) (message : InboundMessage) (correlation : string).

Inductive Task : Type :=
(** [processInbound]: the chain of the conversation, and its [finally] *)
| WaitChain (run : nat) (previous : option nat)
| ChainFinally (run : nat)
| WaitRecovery (run : nat) (recovery : nat)
(** [interruptTurn] awaits the abort; the code awaiting [interruptTurn] *)
| Interrupting (corr : nat) (caller : InterruptCaller)
| Interrupted (caller : InterruptCaller)
(** [redeliverSaved] awaits the emitter *)
| Redelivering (run corr : nat) (correlation : string)
| RedeliverFlush (run corr : nat) (correlation : string)
(** [appendPassiveMessage] *)
| AppendAcquire (run : nat) (adapterId : string) (message : InboundMessage) (correlation : string)
| AppendPrompt (run : nat) (adapterId : string) (message : InboundMessage) (correlation : string)
    (held : option Lease)
(** [activate] *)
| ActivateAcquire (caller : ActivationCaller) (adapterId : string) (message : InboundMessage)
    (correlation : string) (mode : ActivationMode)
| ActivateImages (caller : ActivationCaller) (adapterId : string) (message : InboundMessage)
    (correlation : string) (mode : ActivationMode) (corr child : nat)
| ActivatePrompt (caller : ActivationCaller) (adapterId : string) (message : InboundMessage)
    (correlation : string) (mode : ActivationMode) (corr child : nat)
| ResetRetire (caller : ActivationCaller) (adapterId : string) (message : InboundMessage)
    (correlation : string)
(** [cleanupCorrelation]: the emitter is closed once it is flushed *)
| FlushClose (emitter : nat)
(** [recoverPending], one correlation: its turn, and the emitter's promise *)
| WaitRecoveryTurn (recovery : nat) (previous : option nat)
| Recovering (recovery : nat) (emitter : nat)
| RecoveryFlush (recovery : nat) (emitter : nat)
(** [closeImpl]: the pool, the chains, the recoveries, the emitters *)
| ClosingPool
| CloseChains (runs : list nat)
| CloseRecoveries (recoveries : list nat)
| CloseEmitters.

(** One correlation of [recoverPending]. *)
Record Recovery := mkRecovery {
  rc_adapterId : string;
  rc_conversationKey : string;
  rc_correlationId : string;
  (** read when [recoverPending] was called *)
  rc_terminal : option OutboundEvent;
  rc_settled : bool
}.

(** The part of an emitter its hooks close over. *)
Record EmitterScope := mkScope { em_adapterId : string; em_correlationId : string }.

Record Supervisor := mkSupervisor {
  store : Store;
  states : States;
  sessions : SessionRegistry;
  clock : Z;
  corrs : list ActiveCorrelation;
  sv_active : list (string * nat);
  inboundChains : list (string * nat);
  recoveryChains : list (string * nat);
  runs : list Run;
  recoveries : list Recovery;
  emitters : list EmitterScope;
  (** the children wired, with the conversation their handlers close over *)
  wiredChildren : list (nat * (string * string));
  sv_closed : bool;
  stores_closed : bool;
  nextUuid : nat;
  tasks : list Task;
  effects : list Effect
}.

#[export] Instance supervisor_fields : Fields Supervisor := fun s =>
  mkSupervisor (store s) (states s) (sessions s) (clock s) (corrs s) (sv_active s) (inboundChains s)
    (recoveryChains s) (runs s) (recoveries s) (emitters s) (wiredChildren s) (sv_closed s)
    (stores_closed s) (nextUuid s) (tasks s) (effects s).

(** A process that starts on a store and a registry. *)
Definition boot (db : Store) (registry : SessionRegistry) : Supervisor :=
  mkSupervisor db [] registry 0 [] [] [] [] [] [] [] [] false false 0 [] [].

(** ** Small steps *)

Definition effect (e : Effect) (s : Supervisor) : Supervisor := s <| effects ::= fun l => l ++ [e] |>.

Definition add_task (t : Task) (s : Supervisor) : Supervisor := s <| tasks ::= fun l => l ++ [t] |>.

Definition update_corr (c : nat) (f : ActiveCorrelation -> ActiveCorrelation) (s : Supervisor) : Supervisor :=
  s <| corrs ::= alter f c |>.

(** A call on the emitter of a correlation. *)
Definition emit (c : nat) (call : EmitterCall) (s : Supervisor) : Supervisor :=
  match corrs s !! c with Some corr => effect (ToEmitter (emitter corr) call) s | None => s end.

(** [this.active.get(convKey)], with its object *)
Definition get_active (key : string) (s : Supervisor) : option (nat * ActiveCorrelation) :=
  match jget key (sv_active s) with
  | Some c => match corrs s !! c with Some corr => Some (c, corr) | None => None end
  | None => None
  end.

(** [createEmitter(...)] *)
Definition createEmitter (a corr : string) (s : Supervisor) : nat * Supervisor :=
  let e := length (emitters s) in
  (e, effect (NewEmitter e) (s <| emitters ::= fun l => l ++ [mkScope a corr] |>)).

(** A new correlation, [this.active.set(convKey, corr)] *)
Definition new_corr (a k corr : string) (l : option Lease) (emitted : bool) (s : Supervisor) :
    nat * Supervisor :=
  let '(e, s) := createEmitter a corr s in
  let c := length (corrs s) in
  (c, s <| corrs ::= fun cs => cs ++ [mkCorrelation corr a k e l 0 emitted] |>
        <| sv_active ::= jset (compositeKey a k) c |>).

(** [wireChild(child, adapterId, conversationKey)] *)
Definition wireChild (ch : nat) (a k : string) (s : Supervisor) : Supervisor :=
  match List.find (fun w => (fst w =? ch)%nat) (wiredChildren s) with
  | Some _ => s
  | None => s <| wiredChildren ::= fun l => l ++ [(ch, (a, k))] |>
  end.

(** A run settles; its [finally] follows. *)
Definition settle_run (r : nat) (res : result SupervisorError InboundResult) (s : Supervisor) : Supervisor :=
  add_task (ChainFinally r)
    (s <| runs ::= alter (fun run => mkRun (run_adapterId run) (run_message run)
            (settle_first res (run_result run))) r |>).

(** [assertRpcSuccess]: the outcome of a prompt. *)
Definition rpc_outcome (r : result string bool) : result SupervisorError unit :=
  match r with
  | Ok true => Ok tt
  | Ok false => Throw (ExternalError "was rejected by the agent process")
  | Throw e => Throw (ExternalError e)
  end.

(** [cleanupCorrelation(convKey, corr)] *)
Definition cleanupCorrelation (key : string) (c : nat) (s : Supervisor) : Supervisor :=
  match corrs s !! c with
  | None => s
  | Some corr =>
      let s := if decide (jget key (sv_active s) = Some c) then s <| sv_active ::= jdelete key |> else s in
      let s := match lease corr with
               | Some l => update_corr c (fun x => x <| lease := None |>) (effect (ReleaseLease (lease_no l)) s)
               | None => s
               end in
      add_task (FlushClose (emitter corr)) (emit c CallFlush s)
  end.

(** [failCorrelation(convKey)] *)
Definition failCorrelation (key : string) (s : Supervisor) : Supervisor :=
  match get_active key s with
  | None => s
  | Some (c, corr) =>
      if terminalEmitted corr then s
      else
        let s := update_corr c (fun x => x <| terminalEmitted := true |>) s in
        let s := emit c (CallPresence offline) s in
        let s := emit c (CallProviderError "agent_unavailable"
                   "Agent process stopped before completing the turn" true) s in
        cleanupCorrelation key c s
  end.

(** The record a message is rendered as. *)
Definition message_record (a : string) (m : InboundMessage) (now : Z) : BufferedRecord :=
  mkRecord a (conversationKey m) (messageId m) (speaker m) (msg_text m) (Contracts.attachments m)
    (addressed m) now.

Definition message_key (a : string) (m : InboundMessage) : string * string := (a, messageId m).

(** [runAmbientCommand(child, adapterId, message, triggerTurn)], up to its await *)
Definition runAmbientCommand (ch : nat) (a : string) (m : InboundMessage) (trigger : bool) (s : Supervisor) :
    Supervisor :=
  effect (ToChild ch (message_key a m) (SentAmbient (renderRecord (message_record a m (clock s))) trigger)) s.

(** [SESSION_RESET_COMMANDS[...] === true] *)
Definition is_reset (m : InboundMessage) : bool :=
  let command := to_lower (trim (msg_text m)) in
  String.eqb command "/new" || String.eqb command "/reset".

Section supervisor.
Context (sha256_json : value -> string) (uuid : nat -> string) (engagementWindowMs quietPeriodMs : Z).
(** node's [path], and [config.agentRootDir] *)
Context (isAbsolute : string -> bool) (path_join : list string -> string) (agentRootDir : option string).

(** A method of the store, on the store of the supervisor. *)
Definition on_store {A} (m : comp Store StoreError A) (s : Supervisor) : result StoreError A * Supervisor :=
  let '(r, db) := m (store s) in (r, s <| store := db |>).

Definition record_interaction (a k : string) (s : Supervisor) : Supervisor :=
  s <| states ::= fun st => (recordInteraction engagementWindowMs (clock s) a k st).2 |>.

(** [terminalizeAcceptedInbound(adapterId, message, correlationId)] *)
Definition terminalizeAcceptedInbound (a : string) (m : InboundMessage) (corrId : string) (s : Supervisor) :
    Supervisor :=
  match getEntry a (messageId m) (store s) ≫= ie_response with
  | Some _ => s
  | None =>
      let key := compositeKey a (conversationKey m) in
      let '(c, emitted, s) :=
        match get_active key s with
        | Some (c, corr) => (c, terminalEmitted corr, s)
        | None => let '(c, s) := new_corr a (conversationKey m) corrId None false s in (c, false, s)
        end in
      if emitted then s
      else
        let s := update_corr c (fun x => x <| terminalEmitted := true |>) s in
        let s := emit c (CallProviderError "agent_unavailable"
                   "Agent process could not accept the message" true) s in
        cleanupCorrelation key c s
  end.

(** [activate] returned or threw. *)
Definition activate_settled_run (r : nat) (a : string) (m : InboundMessage) (corrId : string)
    (res : result SupervisorError unit) (s : Supervisor) : Supervisor :=
  settle_run r (Ok (accepted corrId))
    match res with Ok _ => s | Throw _ => terminalizeAcceptedInbound a m corrId s end.

(** [markIngestComplete(adapterId, messageId)] *)
Definition mark_ingested (a : string) (m : InboundMessage) (s : Supervisor) : result StoreError unit * Supervisor :=
  on_store (markIngestComplete (clock s) a (messageId m)) s.

(** [loadImages(attachments)]; [read] is what [readFile] gives, [None] an error. *)
Definition loadImages (read : string -> option (list Z)) (atts : list WorkspaceAttachment) :
    list (string * string) :=
  omap (fun att =>
    match att_mediaType att with
    | Some mimeType =>
        if String.prefix "image/" mimeType then
          let absolute :=
            match agentRootDir with
            | Some root => if isAbsolute (att_path att) then att_path att
                           else path_join [root; "workspace"; att_path att]%string
            | None => att_path att
            end in
          match read absolute with Some bytes => Some (b64_encode bytes, mimeType) | None => None end
        else None
    | None => None
    end) atts.

(** [interruptTurn(corr)], up to its await *)
Definition interruptTurn (c : nat) (caller : InterruptCaller) (s : Supervisor) : Supervisor :=
  match corrs s !! c with
  | None => add_task (Interrupted caller) s
  | Some corr =>
      let key := compositeKey (co_adapterId corr) (co_conversationKey corr) in
      let s := update_corr c (fun x => x <| terminalEmitted := true |>) (emit c CallCancelled s) in
      match lease corr with
      | Some l => add_task (Interrupting c caller) (effect (AbortChild (lease_child l)) s)
      | None => add_task (Interrupted caller) (cleanupCorrelation key c s)
      end
  end.

(** ... after the abort, whatever its outcome. *)
Definition abort_done (c : nat) (caller : InterruptCaller) (s : Supervisor) : Supervisor :=
  add_task (Interrupted caller)
    match corrs s !! c with
    | Some corr => cleanupCorrelation (compositeKey (co_adapterId corr) (co_conversationKey corr)) c s
    | None => s
    end.

(** *** Activation *)

(** [activate] with a correlation, up to its next await: the child is the one of
    its lease. *)
Definition activate_with (c : nat) (caller : ActivationCaller) (a : string) (m : InboundMessage)
    (corrId : string) (mode : ActivationMode) (s : Supervisor) : option SupervisorError * Supervisor :=
  let s := record_interaction a (conversationKey m) s in
  match corrs s !! c ≫= lease with
  | None => (Some NullDereference, s)
  | Some l =>
      let ch := lease_child l in
      match mode with
      | mode_prompt | mode_steer => (None, add_task (ActivateImages caller a m corrId mode c ch) s)
      | mode_followUp =>
          let s := update_corr c (fun x => x <| pendingFollowUps ::= Z.add 1 |>) s in
          (None, add_task (ActivatePrompt caller a m corrId mode c ch) (runAmbientCommand ch a m true s))
      end
  end.

(** [activate(...)], up to its first await; an error it throws before. *)
Definition activate_start (caller : ActivationCaller) (a : string) (m : InboundMessage) (corrId : string)
    (mode : ActivationMode) (s : Supervisor) : option SupervisorError * Supervisor :=
  let key := compositeKey a (conversationKey m) in
  if is_reset m then
    match get_active key s with
    | Some (c, _) => (None, interruptTurn c (ForReset caller a m corrId) s)
    | None =>
        (None, add_task (ResetRetire caller a m corrId) (effect (RetireConversation a (conversationKey m)) s))
    end
  else
    match get_active key s with
    | Some (c, _) => activate_with c caller a m corrId mode s
    | None =>
        (None, add_task (ActivateAcquire caller a m corrId mode)
                 (effect (Acquire a (conversationKey m) (parentConversationKey m)) s))
    end.

(** The message [flushSettled] makes of a settled backlog. *)
Definition settled_message (settled : SettledActivation) : option InboundMessage :=
  match last (settled_records settled) with
  | Some lastRecord =>
      Some (mkMessage (rec_messageId lastRecord) (settled_conversationKey settled) None
              (rec_speaker lastRecord) (settled_prompt settled) [] false)
  | None => None
  end.

(** [this.idempotency.beginInbound(adapterId, message, correlationId)] *)
Definition begin_inbound (a : string) (m : InboundMessage) (corrId : option string) (s : Supervisor) :
    result StoreError BeginInboundResult * Supervisor :=
  on_store (beginInbound sha256_json id (uuid (nextUuid s)) (clock s) a m corrId) (s <| nextUuid ::= S |>).

(** The loop of [flushSettled], up to its next await. *)
Fixpoint flush_loop (due : list SettledActivation) (s : Supervisor) : Supervisor :=
  match due with
  | [] => s
  | settled :: rest =>
      match settled_message settled with
      | None => flush_loop rest s
      | Some m =>
          let a := settled_adapterId settled in
          match begin_inbound a m None s with
          | (Throw _, s) => flush_loop rest s
          | (Ok begun, s) =>
              match activate_start (ByFlush rest) a m (result_correlation begun) mode_prompt s with
              | (None, s) => s
              | (Some _, s) => flush_loop rest s
              end
          end
      end
  end.

(** [flushSettled()] *)
Definition flushSettled (s : Supervisor) : Supervisor :=
  if sv_closed s then s
  else
    let '(due, st) := sweepSettled engagementWindowMs quietPeriodMs (clock s) (states s) in
    flush_loop due (s <| states := st |>).

(** [activate] is over: the run ends, or the flush goes on. *)
Definition activate_done (caller : ActivationCaller) (a : string) (m : InboundMessage) (corrId : string)
    (res : result SupervisorError unit) (s : Supervisor) : Supervisor :=
  match caller with
  | ByRun r => activate_settled_run r a m corrId res s
  | ByFlush rest => flush_loop rest s
  end.

Definition activate (caller : ActivationCaller) (a : string) (m : InboundMessage) (corrId : string)
    (mode : ActivationMode) (s : Supervisor) : Supervisor :=
  match activate_start caller a m corrId mode s with
  | (None, s) => s
  | (Some e, s) => activate_done caller a m corrId (Throw e) s
  end.

(** ... after [await this.pool.acquire(...)] *)
Definition activate_acquired (caller : ActivationCaller) (a : string) (m : InboundMessage)
    (corrId : string) (mode : ActivationMode) (r : result string Lease) (s : Supervisor) : Supervisor :=
  match r with
  | Throw e => activate_done caller a m corrId (Throw (ExternalError e)) s
  | Ok l =>
      let '(c, s) := new_corr a (conversationKey m) corrId (Some l) false s in
      let s := wireChild (lease_child l) a (conversationKey m) s in
      match activate_with c caller a m corrId mode s with
      | (None, s) => s
      | (Some e, s) => activate_done caller a m corrId (Throw e) s
      end
  end.

Definition is_steer (mode : ActivationMode) : bool :=
  match mode with mode_steer => true | _ => false end.

(** ... after [await this.loadImages(...)]: the prompt is sent. *)
Definition activate_images (caller : ActivationCaller) (a : string) (m : InboundMessage)
    (corrId : string) (mode : ActivationMode) (c ch : nat) (read : string -> option (list Z))
    (s : Supervisor) : Supervisor :=
  add_task (ActivatePrompt caller a m corrId mode c ch)
    (effect (ToChild ch (message_key a m)
       (SentPrompt (renderRecord (message_record a m (clock s)))
          (loadImages read (Contracts.attachments m)) (is_steer mode))) s).

(** ... after the prompt. *)
Definition activate_prompted (caller : ActivationCaller) (a : string) (m : InboundMessage)
    (corrId : string) (mode : ActivationMode) (c ch : nat) (r : result string bool) (s : Supervisor) :
    Supervisor :=
  match rpc_outcome r with
  | Throw e =>
      let s := match mode with
               | mode_followUp =>
                   update_corr c (fun x => if 0 <? pendingFollowUps x
                                           then x <| pendingFollowUps ::= Z.add (-1) |> else x) s
               | _ => s
               end in
      activate_done caller a m corrId (Throw e) (effect (RetireChild a (conversationKey m) ch) s)
  | Ok _ =>
      match getEntry a (messageId m) (store s) with
      | Some entry =>
          if decide (ie_ingestState entry = ingest_pending) then
            match mark_ingested a m s with
            | (Ok _, s) => activate_done caller a m corrId (Ok tt) s
            | (Throw e, s) => activate_done caller a m corrId (Throw (StoreFailure e)) s
            end
          else activate_done caller a m corrId (Ok tt) s
      | None => activate_done caller a m corrId (Ok tt) s
      end
  end.

(** [handleSessionReset], after [await this.pool.retireConversation(...)] *)
Definition reset_retired (caller : ActivationCaller) (a : string) (m : InboundMessage) (corrId : string)
    (r : result string unit) (s : Supervisor) : Supervisor :=
  match r with
  | Throw e => activate_done caller a m corrId (Throw (ExternalError e)) s
  | Ok _ =>
      let k := conversationKey m in
      let '(existed, reg) := forget a k (sessions s) in
      let s := record_interaction a k (s <| sessions := reg |>) in
      let '(c, s) := new_corr a k corrId None false s in
      let s := emit c (CallDirectReply
                 (if existed then "Started a new session. Earlier messages are no longer in context."
                  else "Already on a new session.")) s in
      let s := update_corr c (fun x => x <| terminalEmitted := true |>) s in
      activate_done caller a m corrId (Ok tt) (cleanupCorrelation (compositeKey a k) c s)
  end.

(** *** Passive messages *)

(** [appendPassiveMessage(adapterId, message, false)], up to its await *)
Definition appendPassiveMessage (r : nat) (a : string) (m : InboundMessage) (corrId : string)
    (s : Supervisor) : Supervisor :=
  match get_active (compositeKey a (conversationKey m)) s with
  | Some (_, mkCorrelation _ _ _ _ (Some l) _ _) =>
      add_task (AppendPrompt r a m corrId None) (runAmbientCommand (lease_child l) a m false s)
  | _ =>
      add_task (AppendAcquire r a m corrId) (effect (Acquire a (conversationKey m) (parentConversationKey m)) s)
  end.

(** [appendPassiveMessage] threw, in [processInboundSerial]. *)
Definition append_failed (r : nat) (a : string) (m : InboundMessage) (corrId : string) (s : Supervisor) :
    Supervisor :=
  settle_run r (Ok (accepted corrId)) (terminalizeAcceptedInbound a m corrId s).

Definition append_acquired (r : nat) (a : string) (m : InboundMessage) (corrId : string)
    (res : result string Lease) (s : Supervisor) : Supervisor :=
  match res with
  | Throw _ => append_failed r a m corrId s
  | Ok l => add_task (AppendPrompt r a m corrId (Some l)) (runAmbientCommand (lease_child l) a m false s)
  end.

Definition append_prompted (r : nat) (a : string) (m : InboundMessage) (corrId : string)
    (held : option Lease) (res : result string bool) (s : Supervisor) : Supervisor :=
  let outcome := rpc_outcome res in
  let s := match held with
           | Some l =>
               effect (ReleaseLease (lease_no l))
                 (if is_ok outcome then s
                  else effect (RetireChild a (conversationKey m) (lease_child l)) s)
           | None => s
           end in
  match outcome with
  | Throw _ => append_failed r a m corrId s
  | Ok _ =>
      match mark_ingested a m s with
      | (Ok _, s) => settle_run r (Ok (accepted corrId)) s
      | (Throw e, s) => settle_run r (Throw (StoreFailure e)) s
      end
  end.

(** *** Redelivery *)

(** [redeliverSaved(adapterId, message, beginResult)], up to its await *)
Definition redeliverSaved (r : nat) (a : string) (m : InboundMessage) (corrId : string)
    (response : option OutboundEvent) (s : Supervisor) : Supervisor :=
  let '(c, s) :=
    match get_active (compositeKey a (conversationKey m)) s with
    | Some (c, _) => (c, s)
    | None => new_corr a (conversationKey m) corrId None true s
    end in
  add_task (Redelivering r c corrId) (emit c (CallRedeliver response) s).

(** ... after [await corr.emitter.redeliverDurable(...)] *)
Definition redelivered (r c : nat) (corrId : string) (res : result string unit) (s : Supervisor) :
    Supervisor :=
  match res with
  | Throw e => settle_run r (Throw (ExternalError e)) s
  | Ok _ => add_task (RedeliverFlush r c corrId) (emit c CallFlush s)
  end.

(** ... after [await corr.emitter.flush()] *)
Definition redeliver_flushed (r c : nat) (corrId : string) (res : result string unit) (s : Supervisor) :
    Supervisor :=
  match res with
  | Throw e => settle_run r (Throw (ExternalError e)) s
  | Ok _ =>
      settle_run r (Ok (duplicate corrId))
        match corrs s !! c with
        | Some corr =>
            match lease corr with
            | Some _ => s
            | None =>
                let key := compositeKey (co_adapterId corr) (co_conversationKey corr) in
                let s := emit c CallClose s in
                if decide (jget key (sv_active s) = Some c) then s <| sv_active ::= jdelete key |> else s
            end
        | None => s
        end
  end.

(** *** One inbound message *)

(** [this.isStreaming(...)] *)
Definition isStreaming (a k : string) (s : Supervisor) : bool :=
  match get_active (compositeKey a k) s with
  | Some (_, corr) => match lease corr with Some _ => true | None => false end
  | None => false
  end.

(** From the ingest buffer on. *)
Definition ingest_created (r : nat) (a : string) (m : InboundMessage) (corrId : string) (s : Supervisor) :
    Supervisor :=
  let streaming := isStreaming a (conversationKey m) s in
  match ingest engagementWindowMs quietPeriodMs (clock s) a m streaming (states s) with
  | (buffered _ _, st) => appendPassiveMessage r a m corrId (s <| states := st |>)
  | (IngestBuffer.activate mode _ _, st) => activate (ByRun r) a m corrId mode (s <| states := st |>)
  end.

(** [processInboundSerial] from the read of the active correlation on. *)
Definition serial_begin (r : nat) (a : string) (m : InboundMessage) (s : Supervisor) : Supervisor :=
  let activeCorrelation := get_active (compositeKey a (conversationKey m)) s in
  match begin_inbound a m (correlationId <$> (snd <$> activeCorrelation)) s with
  | (Throw (IdempotencyConflictError _ _ _ _), s) =>
      settle_run r (Throw (InboundConflictError a (messageId m))) s
  | (Throw e, s) => settle_run r (Throw (StoreFailure e)) s
  | (Ok begun, s) =>
      match begun with
      | already_sent c => settle_run r (Ok (duplicate c)) s
      | response_saved c response => redeliverSaved r a m c response s
      | delivery_failed_result c response _ => redeliverSaved r a m c response s
      | pending c =>
          settle_run r (Ok (duplicate c))
            match activeCorrelation, getEntry a (messageId m) (store s) with
            | None, Some entry =>
                if decide (ie_ingestState entry = ingest_pending)
                then terminalizeAcceptedInbound a m c s else s
            | _, _ => s
            end
      | created c => ingest_created r a m c s
      end
  end.

(** [processInboundSerial] after the recovery of its conversation. *)
Definition serial_start (r : nat) (a : string) (m : InboundMessage) (s : Supervisor) : Supervisor :=
  match get_active (compositeKey a (conversationKey m)) s with
  | Some (c, corr) =>
      if addressed m && negb (terminalEmitted corr) then interruptTurn c (ForRun r) s
      else serial_begin r a m s
  | None => serial_begin r a m s
  end.

(** [processInboundSerial] *)
Definition processInboundSerial (r : nat) (a : string) (m : InboundMessage) (s : Supervisor) : Supervisor :=
  match jget (compositeKey a (conversationKey m)) (recoveryChains s) with
  | Some rec => add_task (WaitRecovery r rec) s
  | None => serial_start r a m s
  end.

(** [processInbound(adapterId, message)], up to its first await *)
Definition processInbound (a : string) (m : InboundMessage) (s : Supervisor) : Supervisor :=
  let r := length (runs s) in
  let key := compositeKey a (conversationKey m) in
  if sv_closed s then s <| runs ::= fun l => l ++ [mkRun a m (Some (Throw SupervisorClosed))] |>
  else
    let previous := jget key (inboundChains s) in
    add_task (WaitChain r previous)
      (s <| runs ::= fun l => l ++ [mkRun a m None] |> <| inboundChains ::= jset key r |>).

(** [interruptTurn] returned. *)
Definition interrupted (caller : InterruptCaller) (s : Supervisor) : Supervisor :=
  match caller with
  | ForRun r =>
      match runs s !! r with
      | Some run => serial_begin r (run_adapterId run) (run_message run) s
      | None => s
      end
  | ForReset caller a m corrId =>
      add_task (ResetRetire caller a m corrId) (effect (RetireConversation a (conversationKey m)) s)
  end.

(** The [finally] of [processInbound]. *)
Definition chain_finally (r : nat) (s : Supervisor) : Supervisor :=
  match runs s !! r with
  | Some run =>
      if decide (jget (run_key run) (inboundChains s) = Some r)
      then s <| inboundChains ::= jdelete (run_key run) |> else s
  | None => s
  end.

(** *** Child events *)

(** [handleAgentEnd(convKey, corr)] *)
Definition handleAgentEnd (key : string) (c : nat) (s : Supervisor) : Supervisor :=
  match corrs s !! c with
  | Some corr =>
      if terminalEmitted corr then s
      else cleanupCorrelation key c (update_corr c (fun x => x <| terminalEmitted := true |>) s)
  | None => s
  end.

(** [handleChildEvent(convKey, frame)] *)
Definition handleChildEvent (key : string) (frame : Frame) (s : Supervisor) : Supervisor :=
  let type := prop "type" frame in
  match get_active key s with
  | None => s
  | Some (c, corr) =>
      let touch := record_interaction (co_adapterId corr) (co_conversationKey corr) in
      if is_string "agent_end" type && (0 <? pendingFollowUps corr) then
        update_corr c (fun x => x <| pendingFollowUps ::= Z.add (-1) |>) s
      else if is_string "turn_start" type then
        touch (emit c (CallPresence Contracts.active) (emit c (CallIngest frame) s))
      else if is_string "agent_end" type then
        handleAgentEnd key c (emit c (CallIngest frame) (emit c (CallPresence idle) s))
      else if is_string "message_update" type then touch (emit c (CallIngest frame) s)
      else emit c (CallIngest frame) s
  end.

(** The handlers of [wireChild]. *)
Definition wired (ch : nat) (s : Supervisor) : option (string * string) :=
  snd <$> List.find (fun w => (fst w =? ch)%nat) (wiredChildren s).

Definition child_event (ch : nat) (frame : Frame) (s : Supervisor) : Supervisor :=
  match wired ch s with Some (a, k) => handleChildEvent (compositeKey a k) frame s | None => s end.

Definition child_error (ch : nat) (s : Supervisor) : Supervisor :=
  match wired ch s with
  | Some (a, k) => failCorrelation (compositeKey a k) (effect (RetireChild a k ch) s)
  | None => s
  end.

Definition child_exit (ch : nat) (s : Supervisor) : Supervisor :=
  match wired ch s with
  | Some (a, k) =>
      failCorrelation (compositeKey a k) (if sv_closed s then s else effect (ForgetExited a k ch) s)
  | None => s
  end.

(** *** The hooks of an emitter *)

Inductive Hook : Type :=
| onDurablePrepared
| onDurableDelivered
| onDurableFailed (error : string).

Definition run_hook (e : nat) (hook : Hook) (event : OutboundEvent) (s : Supervisor) :
    result StoreError unit * Supervisor :=
  match emitters s !! e with
  | None => (Ok tt, s)
  | Some (mkScope a corrId) =>
      if negb (String.eqb (event_type event) "turn.reply" || String.eqb (event_type event) "turn.error")
      then (Ok tt, s)
      else
        on_store
          match hook with
          | onDurablePrepared => saveResponseForCorrelation (clock s) a corrId event
          | onDurableDelivered => markCorrelationSent (clock s) a corrId (ev_eventId event)
          | onDurableFailed error => markCorrelationFailed (clock s) a corrId (ev_eventId event) (Some error)
          end s
  end.

(** *** Recovery after a restart *)

(** A correlation of the recoverable map, keyed by adapter and correlation. *)
Definition add_recoverable (k : string * string) (conversation : string)
    (l : list ((string * string) * string)) : list ((string * string) * string) :=
  if existsb (fun kv => bool_decide (kv.1 = k)) l
  then map (fun kv => if bool_decide (kv.1 = k) then (k, conversation) else kv) l
  else l ++ [(k, conversation)].

(** The pending correlations of the outbox, then the saved responses. *)
Definition recoverable (outbox : list ((string * string) * string)) (db : Store) :
    list ((string * string) * string) :=
  fold_left (fun l e => add_recoverable (ie_adapterId e, ie_correlationId e) (ie_conversationKey e) l)
    (listSavedResponses db)
    (fold_left (fun l kv => add_recoverable kv.1 kv.2 l) outbox []).

(** The response of the first row that is saved and has one. *)
Definition saved_terminal (entries : list IdempotencyEntry) : option OutboundEvent :=
  match List.find (fun e => is_delivery delivery_saved e && bool_decide (is_Some (ie_response e))) entries with
  | Some e => ie_response e
  | None => None
  end.

(** One correlation is queued behind its conversation's recovery chain. *)
Definition start_recovery (s : Supervisor) (item : (string * string) * string) : Supervisor :=
  let '((a, corrId), k) := item in
  match getEntriesByCorrelation a corrId (store s) with
  | [] => s
  | entries =>
      let key := compositeKey a k in
      let rec := length (recoveries s) in
      add_task (WaitRecoveryTurn rec (jget key (recoveryChains s)))
        (s <| recoveries ::= fun l => l ++ [mkRecovery a k corrId (saved_terminal entries) false] |>
           <| recoveryChains ::= jset key rec |>)
  end.

(** [recoverPending()], up to its await; [outbox] is what
    [listPendingOutboundCorrelations] read. *)
Definition recoverPending (outbox : list ((string * string) * string)) (s : Supervisor) : Supervisor :=
  fold_left start_recovery (recoverable outbox (store s)) s.

(** The turn of a correlation: its emitter replays. *)
Definition recovery_turn (rec : nat) (s : Supervisor) : Supervisor :=
  match recoveries s !! rec with
  | None => s
  | Some item =>
      let '(e, s) := createEmitter (rc_adapterId item) (rc_correlationId item) s in
      add_task (Recovering rec e)
        (effect (ToEmitter e match rc_terminal item with
                             | Some terminal => CallRedeliver (Some terminal)
                             | None => CallResume
                             end) s)
  end.

(** The emitter is closed, and the chain of the conversation forgets the
    recovery if it is its last. *)
Definition recovery_end (rec e : nat) (s : Supervisor) : Supervisor :=
  match recoveries s !! rec with
  | None => s
  | Some item =>
      let key := compositeKey (rc_adapterId item) (rc_conversationKey item) in
      let s := effect (ToEmitter e CallClose) s in
      let s := s <| recoveries ::= alter (fun x => mkRecovery (rc_adapterId x) (rc_conversationKey x)
                      (rc_correlationId x) (rc_terminal x) true) rec |> in
      if decide (jget key (recoveryChains s) = Some rec) then s <| recoveryChains ::= jdelete key |> else s
  end.

Definition recovered (rec e : nat) (r : result string unit) (s : Supervisor) : Supervisor :=
  match r with
  | Ok _ => add_task (RecoveryFlush rec e) (effect (ToEmitter e CallFlush) s)
  | Throw _ => recovery_end rec e s
  end.

(** *** Shutdown *)

(** [close()], up to the await of the pool *)
Definition close (s : Supervisor) : Supervisor :=
  if sv_closed s then s else add_task ClosingPool (effect ClosePool (s <| sv_closed := true |>)).

Definition close_flush (s : Supervisor) : Supervisor :=
  add_task CloseEmitters (fold_left (fun s kc => emit kc.2 CallFlush s) (sv_active s) s).

Definition close_end (s : Supervisor) : Supervisor :=
  (fold_left (fun s kc => emit kc.2 CallClose s) (sv_active s) s)
    <| sv_active := [] |> <| stores_closed := true |>.

(** [dismissEngagement(adapterId, conversationKey)] *)
Definition dismissEngagement (a k : string) (s : Supervisor) : bool * Supervisor :=
  let '(r, st) := dismiss (clock s) a k (states s) in (r, s <| states := st |>).

(** ** The event loop *)

Definition run_settled (s : Supervisor) (r : nat) : bool :=
  match runs s !! r with Some run => bool_decide (is_Some (run_result run)) | None => true end.

Definition recovery_settled (s : Supervisor) (rec : nat) : bool :=
  match recoveries s !! rec with Some item => rc_settled item | None => true end.

(** May a task that awaits nothing outside go on? *)
Definition enabled (t : Task) (s : Supervisor) : bool :=
  match t with
  | WaitChain _ previous => forallb (run_settled s) (option_list previous)
  | WaitRecovery _ rec => recovery_settled s rec
  | WaitRecoveryTurn _ previous => forallb (recovery_settled s) (option_list previous)
  | CloseChains rs => forallb (run_settled s) rs
  | CloseRecoveries recs => forallb (recovery_settled s) recs
  | ChainFinally _ | Interrupted _ | FlushClose _ | CloseEmitters => true
  | _ => false
  end.

Definition run_task (t : Task) (s : Supervisor) : Supervisor :=
  match t with
  | WaitChain r _ =>
      match runs s !! r with
      | Some run => processInboundSerial r (run_adapterId run) (run_message run) s
      | None => s
      end
  | ChainFinally r => chain_finally r s
  | WaitRecovery r _ =>
      match runs s !! r with
      | Some run => serial_start r (run_adapterId run) (run_message run) s
      | None => s
      end
  | Interrupted caller => interrupted caller s
  | FlushClose e => effect (ToEmitter e CallClose) s
  | WaitRecoveryTurn rec _ => recovery_turn rec s
  | CloseChains _ => add_task (CloseRecoveries (recoveryChains s).*2) s
  | CloseRecoveries _ => close_flush s
  | CloseEmitters => close_end s
  | _ => s
  end.

(** A promise of the pool, a child, an emitter or the file system settles. *)
Inductive Outcome : Type :=
| Leased (r : result string Lease)
| Prompted (r : result string bool)
| Files (read : string -> option (list Z))
| Settled (r : result string unit).

Definition finish_task (t : Task) (o : Outcome) (s : Supervisor) : Supervisor :=
  match t, o with
  | Interrupting c caller, Settled _ => abort_done c caller s
  | Redelivering r c corrId, Settled res => redelivered r c corrId res s
  | RedeliverFlush r c corrId, Settled res => redeliver_flushed r c corrId res s
  | AppendAcquire r a m corrId, Leased res => append_acquired r a m corrId res s
  | AppendPrompt r a m corrId held, Prompted res => append_prompted r a m corrId held res s
  | ActivateAcquire caller a m corrId mode, Leased res => activate_acquired caller a m corrId mode res s
  | ActivateImages caller a m corrId mode c ch, Files read => activate_images caller a m corrId mode c ch read s
  | ActivatePrompt caller a m corrId mode c ch, Prompted res =>
      activate_prompted caller a m corrId mode c ch res s
  | ResetRetire caller a m corrId, Settled res => reset_retired caller a m corrId res s
  | Recovering rec e, Settled res => recovered rec e res s
  | RecoveryFlush rec e, Settled _ => recovery_end rec e s
  | ClosingPool, Settled _ => add_task (CloseChains (inboundChains s).*2) s
  | _, _ => add_task t s
  end.

Inductive Op : Type :=
| ProcessInbound (adapterId : string) (message : InboundMessage)
| Resume (task : nat)
| Finish (task : nat) (o : Outcome)
| SpawnChild (ch : nat) (adapterId conversationKey : string)
| ChildEvent (ch : nat) (frame : Frame)
| ChildErrored (ch : nat)
| ChildExited (ch : nat)
| RunHook (emitter : nat) (hook : Hook) (event : OutboundEvent)
| FlushSettled
| DismissEngagement (adapterId conversationKey : string)
| RecoverPending (outbox : list ((string * string) * string))
| Close
| Tick (now : Z)
(** the process dies, and the next one boots on the same store and registry *)
| Crash.

Definition drop_task (i : nat) (s : Supervisor) : Supervisor := s <| tasks ::= base.delete i |>.

Definition step (s : Supervisor) (op : Op) : Supervisor :=
  match op with
  | ProcessInbound a m => processInbound a m s
  | Resume i =>
      match tasks s !! i with
      | Some t => if enabled t s then run_task t (drop_task i s) else s
      | None => s
      end
  | Finish i o =>
      match tasks s !! i with Some t => finish_task t o (drop_task i s) | None => s end
  | SpawnChild ch a k => wireChild ch a k s
  | ChildEvent ch frame => child_event ch frame s
  | ChildErrored ch => child_error ch s
  | ChildExited ch => child_exit ch s
  | RunHook e hook event => (run_hook e hook event s).2
  | FlushSettled => flushSettled s
  | DismissEngagement a k => (dismissEngagement a k s).2
  | RecoverPending outbox => recoverPending outbox s
  | Close => close s
  | Tick now => s <| clock := now |>
  | Crash => boot (store s) (sessions s) <| effects := effects s |> <| clock := clock s |>
               <| nextUuid := nextUuid s |>
  end.
End supervisor.

(** ** The child of an agent *)

Record ChildSpawnPlan := mkPlan { plan_cwd : string; plan_model : option string; plan_args : list string }.

(** [resolveChildSpawnPlan(config, registration)] *)
Definition resolveChildSpawnPlan (path_join : list string -> string)
    (agentRootDir agentId ompModel : option string) (ompArgs : list string)
    (registration : option AdapterRegistration) : result string ChildSpawnPlan :=
  match registration with
  | None => Throw "cannot spawn a child without an adapter registration"
  | Some reg =>
      let bound := ("adapter " +:+ quoted (reg_adapterId reg) +:+ " is bound to agent ")%stdpp in
      match reg_agentId reg with
      | VString agent =>
          match agentRootDir, agentId with
          | None, _ => Throw (bound +:+ quoted agent +:+ " but OMP_AGENT_ROOT is not set")%stdpp
          | Some _, None => Throw (bound +:+ quoted agent +:+ " but OMP_AGENT_ID is not set")%stdpp
          | Some root, Some id =>
              if String.eqb agent id
              then Ok (mkPlan (path_join [root; "workspace"]%string) ompModel ompArgs)
              else Throw (bound +:+ quoted agent +:+ " but OMP_AGENT_ID is " +:+ quoted id)%stdpp
          end
      | _ => Throw ("adapter " +:+ quoted (reg_adapterId reg) +:+ " is not bound to OMP_AGENT_ID")%stdpp
      end
  end.
