(* ===== verification/SupervisorBooks.v ===== *)
(** * What the supervisor keeps (src/packages/core/src/supervisor.ts)

    One invariant, [ok], kept by every step of Supervisor.v: each run that has not
    settled is held by one continuation; the chain of a conversation orders its
    runs; a message is in the hands of at most one continuation that will show it
    to a child, and once shown never again; every held message has its row in the
    idempotency store.  The theorems are read off it. *)

From S2P Require Import Prelude RecordUpdate Promises JsMap JsString JsValue SqlTable Contracts Canonical.
From S2P Require Import IdempotencyStore IngestBuffer Frames Base64 AdapterRegistry SessionRegistry.
From S2P Require Import Supervisor.
From stdpp Require Import options.
#[local] Open Scope Z_scope.

(** ** The text of a message is part of its digest *)

Lemma elem_of_canonical kv ps1 ps2 :
  canonicalize (VObject ps1) = canonicalize (VObject ps2) -> assignable kv = true ->
  kv ∈ List.map (on_value canonicalize) ps1 -> kv ∈ List.map (on_value canonicalize) ps2.
Proof.
  cbn [canonicalize]. rewrite !map_on_value. intros [= Heq] Hkv Hin.
  assert (kv ∈ List.filter assignable (List.map (on_value canonicalize) ps1)) as H.
  { apply list_elem_of_In, filter_In. split; [by apply list_elem_of_In|done]. }
  rewrite <- (merge_sort_Permutation key_le), Heq, (merge_sort_Permutation key_le) in H.
  apply list_elem_of_In, filter_In in H as [H _]. by apply list_elem_of_In.
Qed.

Lemma canonical_text m1 m2 :
  canonicalize (message_value m1) = canonicalize (message_value m2) -> msg_text m1 = msg_text m2.
Proof.
  intros Heq. apply (elem_of_canonical ("text"%string, VString (msg_text m1))) in Heq; [|done|].
  - unfold message_value in Heq. rewrite !List.map_app in Heq. cbn in Heq.
    rewrite !elem_of_cons, elem_of_app in Heq. destruct Heq as [|[|[Hp|Heq]]]; try done.
    + unfold opt_prop in Hp. destruct (parentConversationKey m2); cbn in Hp;
        [rewrite list_elem_of_singleton in Hp|rewrite elem_of_nil in Hp]; done.
    + rewrite !elem_of_cons, elem_of_nil in Heq. destruct Heq as [H|[H|[H|[H|[]]]]];
        by (injection H as H || discriminate H).
  - unfold message_value. rewrite !List.map_app. cbn. rewrite !elem_of_cons, elem_of_app. cbn.
    rewrite !elem_of_cons. auto 10.
Qed.

Lemma length_join sep x l : x ∈ l -> (String.length x <= String.length (join sep l))%nat.
Proof.
  induction l as [|y [|z l] IH]; [by intros ?%elem_of_nil|by intros ->%list_elem_of_singleton|].
  change (join sep (y :: z :: l)) with (y +:+ sep +:+ join sep (z :: l))%stdpp.
  rewrite !length_append. intros [->|Hx%IH]%elem_of_cons; lia.
Qed.

(** A prompt is longer than the text of any message it renders. *)
Lemma length_renderPrompt rec records :
  rec ∈ records -> (String.length (rec_text rec) < String.length (renderPrompt records))%nat.
Proof.
  intros Hin. eapply Nat.lt_le_trans; [|apply length_join, list_elem_of_fmap; by exists rec].
  unfold renderRecord. set (name := (displayName _ +:+ _)%stdpp).
  assert (0 < String.length name)%nat by (unfold name; rewrite !length_append; cbn; lia).
  clearbody name. destruct (is_empty (rec_text rec)) eqn:He.
  - apply is_empty_spec in He. rewrite He. eapply Nat.lt_le_trans; [|apply length_join; by left]. done.
  - set (rest := map renderAttachment _).
    change (join newline (name :: [rec_text rec] ++ rest))
      with (name +:+ newline +:+ join newline (rec_text rec :: rest))%stdpp.
    pose proof (length_join newline (rec_text rec) (rec_text rec :: rest) ltac:(by left)).
    rewrite !length_append. lia.
Qed.

(** ** The store only grows *)

Section rows.
Context (sha256_json : value -> string) (uuid : nat -> string) (engagementWindowMs quietPeriodMs : Z).

(** Rows stay, with what identifies them. *)
Definition extends (db db' : Store) : Prop :=
  store_inv db' /\
  forall k r, db !! k = Some r -> exists r', db' !! k = Some r' /\ identity r' = identity r.

Lemma extends_refl db : store_inv db -> extends db db.
Proof. intros H. split; [done|]. intros k r Hr. by exists r. Qed.

Lemma extends_trans db1 db2 db3 : extends db1 db2 -> extends db2 db3 -> extends db1 db3.
Proof.
  intros [_ H1] [Hinv H2]. split; [done|]. intros k r Hr.
  destruct (H1 k r Hr) as (r1 & Hr1 & Hi1). destruct (H2 k r1 Hr1) as (r2 & Hr2 & Hi2).
  exists r2. split; [done|congruence].
Qed.

Lemma extends_step op db :
  (forall a m, op <> OpDiscard a m) -> store_inv db -> extends db (store_step sha256_json db op).
Proof.
  intros Hop Hinv. split; [by apply store_step_inv|]. intros k r Hr.
  apply step_row_identity; [intros a m ->; by destruct (Hop a m)|done|done].
Qed.

(** ** Held backlogs *)

(** A record of a backlog: its message was accepted, with a row of its digest. *)
Definition held_record (db : Store) (key : string) (rec : BufferedRecord) : Prop :=
  compositeKey (rec_adapterId rec) (rec_conversationKey rec) = key /\
  rec_adapterId rec <> "" /\ rec_messageId rec <> "" /\
  exists m row, db !! (rec_adapterId rec, rec_messageId rec) = Some row /\
    ie_payloadHash row = canonicalPayloadHash sha256_json m /\ msg_text m = rec_text rec.

Definition buffer_ok (db : Store) (st : States) : Prop :=
  Forall (fun kv => Forall (held_record db kv.1) (backlog kv.2)) st.

Lemma held_record_extends db db' key rec : extends db db' -> held_record db key rec -> held_record db' key rec.
Proof.
  intros [_ He] (Hk & Ha & Hm & m & row & Hrow & Hh & Ht). split_and!; try done.
  destruct (He _ _ Hrow) as (row' & Hrow' & [= _ Hh' _]). exists m, row'. split_and!; [done|congruence|done].
Qed.

Lemma buffer_extends db db' st : extends db db' -> buffer_ok db st -> buffer_ok db' st.
Proof.
  intros He Hb. eapply Forall_impl; [exact Hb|]. intros kv Hk. eapply Forall_impl; [exact Hk|].
  intros rec. by apply held_record_extends.
Qed.

Lemma buffer_get db st key state :
  buffer_ok db st -> jget key st = Some state -> Forall (held_record db key) (backlog state).
Proof. intros Hb Hg%jget_elem_of. unfold buffer_ok in Hb. rewrite Forall_forall in Hb. by apply (Hb _ Hg). Qed.

Lemma buffer_set db st key state :
  buffer_ok db st -> Forall (held_record db key) (backlog state) -> buffer_ok db (jset key state st).
Proof.
  intros Hb Hs. induction st as [|[k' s'] st IH]; cbn; [by repeat constructor|].
  apply Forall_cons in Hb as [Hk Hb]. case_decide; subst; (constructor; [done|]); [done|by apply IH].
Qed.

Lemma buffer_interaction db now a k st :
  buffer_ok db st -> buffer_ok db (recordInteraction engagementWindowMs now a k st).2.
Proof.
  intros Hb. unfold recordInteraction. destruct (jget _ st) as [state|] eqn:Hg; [|done].
  destruct (negb _); [done|]. apply buffer_set; [done|]. exact (buffer_get db st _ state Hb Hg).
Qed.

Lemma buffer_dismiss db now a k st : buffer_ok db st -> buffer_ok db (dismiss now a k st).2.
Proof.
  intros Hb. unfold dismiss. destruct (jget _ st) as [state|] eqn:Hg; [|done].
  destruct (windowDeadline state); [|done]. apply buffer_set; [done|]. exact (buffer_get db st _ state Hb Hg).
Qed.

Lemma buffer_stateFor db st key : buffer_ok db st -> Forall (held_record db key) (backlog (stateFor key st)).
Proof.
  intros Hb. unfold stateFor. destruct (jget key st) as [state|] eqn:Hg; [|constructor].
  exact (buffer_get db st _ state Hb Hg).
Qed.

(** A message accepted with its row is held with it. *)
Definition accepted_row (db : Store) (a : string) (m : InboundMessage) : Prop :=
  a <> "" /\ messageId m <> "" /\
  exists row, db !! message_key a m = Some row /\ ie_payloadHash row = canonicalPayloadHash sha256_json m.

Lemma buffer_ingest db now a m streaming st :
  accepted_row db a m -> buffer_ok db st ->
  buffer_ok db (ingest engagementWindowMs quietPeriodMs now a m streaming st).2.
Proof.
  intros (Ha & Hm & row & Hrow & Hh) Hb.
  pose proof (buffer_stateFor db st (compositeKey a (conversationKey m)) Hb) as Hs.
  assert (held_record db (compositeKey a (conversationKey m)) (toRecord a m now)) as Hnew
    by (split_and!; try done; by exists m, row).
  assert (Forall (held_record db (compositeKey a (conversationKey m)))
            (backlog (stateFor (compositeKey a (conversationKey m)) st) ++ [toRecord a m now])) as Happ
    by (apply Forall_app; by split; [|constructor]).
  unfold ingest. destruct (addressed m); [by apply buffer_set|].
  destruct (isActive _ now); [|by apply buffer_set].
  destruct (_ && _); by apply buffer_set.
Qed.

(** A settled backlog, as [flushSettled] takes it. *)
Definition settled_ok (db : Store) (due : SettledActivation) : Prop :=
  exists key, Forall (held_record db key) (settled_records due) /\
    key = compositeKey (settled_adapterId due) (settled_conversationKey due) /\
    settled_prompt due = renderPrompt (settled_records due).

Lemma sweep_ok db now st :
  buffer_ok db st ->
  Forall (settled_ok db) (sweepSettled engagementWindowMs quietPeriodMs now st).1 /\
  buffer_ok db (sweepSettled engagementWindowMs quietPeriodMs now st).2.
Proof.
  intros Hb. unfold sweepSettled. destruct (quietPeriodMs <=? 0); [by split|].
  induction Hb as [|[key state] st Hs Hb [IH1 IH2]]; [split; constructor|]. cbn in Hs. cbn [sweep_loop].
  destruct (sweep_loop _ _ now st) as [due st']. cbn in IH1, IH2.
  destruct (backlog state) as [|first l] eqn:Hl; [split; [done|]; constructor; [cbn; by rewrite Hl|done]|].
  destruct (is_due _ now state); split; try done; (constructor; [|done]).
  - exists key. cbn. split_and!; [done| |done]. by apply Forall_cons in Hs as [[Hk _] _].
  - cbn. constructor.
  - cbn. by rewrite Hl.
Qed.

(** Different texts have different digests. *)
Definition digests_tell_texts : Prop :=
  forall m1 m2, canonicalPayloadHash sha256_json m1 = canonicalPayloadHash sha256_json m2 ->
    msg_text m1 = msg_text m2.

(** A hash without collisions is enough. *)
Lemma collision_free_digests : Inj eq eq sha256_json -> digests_tell_texts.
Proof. intros Hinj m1 m2 H%Hinj. by apply canonical_text. Qed.

(** *** [flushSettled] begins no message *)

(** The message of a settled backlog has the id of its last record and a longer
    text, so [beginInbound] finds a row of another digest. *)
Lemma begin_settled s due m :
  digests_tell_texts -> settled_ok (store s) due -> settled_message due = Some m ->
  exists e, begin_inbound sha256_json uuid (settled_adapterId due) m None s =
    (Throw e, s <| nextUuid ::= S |>).
Proof.
  intros Htell (key & Hheld & Hkey & Hprompt). unfold settled_message.
  destruct (last (settled_records due)) as [rec|] eqn:Hlast; [|done]. intros [= <-].
  apply last_Some_elem_of in Hlast as Hin. rewrite Forall_forall in Hheld.
  destruct (Hheld rec Hin) as (Hk & Ha & Hm & m0 & row & Hrow & Hh & Ht). subst key.
  apply (inj2 conversationStorageKey) in Hk as [Hk _]. rewrite Hk in Ha, Hrow.
  unfold begin_inbound, on_store. erewrite begin_existing by done.
  destruct (String.eqb_spec (ie_payloadHash row) (canonicalPayloadHash sha256_json
    (mkMessage (rec_messageId rec) (settled_conversationKey due) None (rec_speaker rec)
       (settled_prompt due) [] false))) as [Heq|]; [|by eexists].
  rewrite Hh in Heq. apply Htell in Heq. cbn in Heq. apply length_renderPrompt in Hin.
  rewrite <- Ht, Heq, Hprompt in Hin. lia.
Qed.

Lemma flush_loop_idle due s :
  digests_tell_texts -> Forall (settled_ok (store s)) due ->
  exists n, flush_loop sha256_json uuid engagementWindowMs due s = s <| nextUuid := n |>.
Proof.
  intros Htell Hdue. revert s Hdue. induction due as [|due rest IH]; intros s Hdue.
  - exists (nextUuid s). by destruct s.
  - apply Forall_cons in Hdue as [Hd Hdue]. cbn [flush_loop].
    destruct (settled_message due) as [m|] eqn:Hm; [|by apply IH].
    destruct (begin_settled s due m Htell Hd Hm) as [e ->].
    specialize (IH (s <| nextUuid ::= S |>)). destruct (IH Hdue) as [n Hn]. exists n. exact Hn.
Qed.

End rows.

(** ** The books *)

Definition activation_runs (caller : ActivationCaller) : list nat :=
  match caller with ByRun r => [r] | ByFlush _ => [] end.

Definition interrupt_runs (caller : InterruptCaller) : list nat :=
  match caller with ForRun r => [r] | ForReset caller _ _ _ => activation_runs caller end.

(** The run a suspended continuation will settle. *)
Definition task_runs (t : Task) : list nat :=
  match t with
  | WaitChain r _ | WaitRecovery r _ | Redelivering r _ _ | RedeliverFlush r _ _
  | AppendAcquire r _ _ _ | AppendPrompt r _ _ _ _ => [r]
  | Interrupting _ caller | Interrupted caller => interrupt_runs caller
  | ActivateAcquire caller _ _ _ _ | ActivateImages caller _ _ _ _ _ _
  | ActivatePrompt caller _ _ _ _ _ _ | ResetRetire caller _ _ _ => activation_runs caller
  | _ => []
  end.

(** The message a suspended continuation may show to a child. *)
Definition task_keys (t : Task) : list (string * string) :=
  match t with
  | AppendAcquire _ a m _ | ActivateAcquire _ a m _ _ | ActivateImages _ a m _ _ _ _ => [message_key a m]
  | _ => []
  end.

(** No part of a run. *)
Definition idle (t : Task) : bool :=
  match t with
  | FlushClose _ | WaitRecoveryTurn _ _ | Recovering _ _ | RecoveryFlush _ _
  | ClosingPool | CloseChains _ | CloseRecoveries _ | CloseEmitters => true
  | _ => false
  end.

(** Tasks of the chain of a conversation. *)
Definition of_chain (t : Task) : bool :=
  match t with WaitChain _ _ | ChainFinally _ => true | _ => false end.

Definition by_run (caller : ActivationCaller) : bool :=
  match caller with ByRun _ => true | ByFlush _ => false end.

(** Not part of a settled flush. *)
Definition by_runs (t : Task) : bool :=
  match t with
  | Interrupting _ (ForReset caller _ _ _) | Interrupted (ForReset caller _ _ _)
  | ActivateAcquire caller _ _ _ _ | ActivateImages caller _ _ _ _ _ _
  | ActivatePrompt caller _ _ _ _ _ _ | ResetRetire caller _ _ _ => by_run caller
  | _ => true
  end.

(** The messages shown to a child, in order. *)
Definition prompted (es : list Effect) : list (string * string) :=
  omap (fun e => match e with ToChild _ key _ => Some key | _ => None end) es.

(** A run of the conversation [k] that has not settled. *)
Definition unsettled (s : Supervisor) (k : string) (r : nat) : Prop :=
  exists run, runs s !! r = Some run /\ run_result run = None /\ run_key run = k.

(** With the runs [held] in the hands of the running code: *)
Record serial (held : list nat) (s : Supervisor) : Prop := {
  se_runs : outstanding (held ++ (tasks s ≫= task_runs)) (run_result <$> runs s);
  se_finally : forall r, ChainFinally r ∈ tasks s ->
    (r < length (runs s))%nat /\ forall k, ~ unsettled s k r;
  (** the chain of a conversation has its last run *)
  se_last : forall k r, unsettled s k r ->
    exists p, jget k (inboundChains s) = Some p /\ unsettled s k p /\ (r <= p)%nat;
  (** a run awaits the one before *)
  se_wait : forall k r prev r', WaitChain r prev ∈ tasks s -> unsettled s k r ->
    (r' < r)%nat -> unsettled s k r' -> exists p, prev = Some p /\ unsettled s k p /\ (r' <= p)%nat;
  (** a run that waits no more is the first *)
  se_started : forall k r r', unsettled s k r -> (forall prev, WaitChain r prev ∉ tasks s) ->
    (r' < r)%nat -> ~ unsettled s k r'
}.

(** *** The chains *)

Lemma serial_same held held' s s' :
  runs s' = runs s -> inboundChains s' = inboundChains s ->
  (forall t, of_chain t = true -> t ∈ tasks s' <-> t ∈ tasks s) ->
  held' ++ (tasks s' ≫= task_runs) ≡ₚ held ++ (tasks s ≫= task_runs) ->
  serial held s -> serial held' s'.
Proof.
  intros Hr Hc Ht Hp [H1 H2 H3 H4 H5].
  assert (forall k r, unsettled s' k r <-> unsettled s k r) as Hu by (intros; unfold unsettled; by rewrite Hr).
  split.
  - by rewrite Hp, Hr.
  - intros r Hin%Ht; [|done]. rewrite Hr. destruct (H2 r Hin). split; [done|]. intros k. by rewrite Hu.
  - intros k r Hk%Hu. rewrite Hc. setoid_rewrite Hu. by apply H3.
  - intros k r prev r' Hin%Ht Hk%Hu Hlt Hk'%Hu; [|done]. setoid_rewrite Hu. by eapply H4.
  - intros k r r' Hk%Hu Hw Hlt. rewrite Hu. eapply H5; [done| |done]. intros prev. rewrite <- Ht; [apply Hw|done].
Qed.

Lemma unsettled_settle r res s k q :
  unsettled (settle_run r res s) k q <-> unsettled s k q /\ q <> r.
Proof.
  unfold unsettled, settle_run. cbn [runs add_task set_field].
  destruct (decide (q = r)) as [->|Hne]; [|rewrite list_lookup_alter_ne by done; naive_solver].
  rewrite list_lookup_alter_eq. split; [|by intros (_ & ?)]. intros (run & Hrun & Hres & _).
  destruct (runs s !! r) as [run0|]; simplify_eq/=. by destruct (run_result run0).
Qed.

Lemma unsettled_key s k k' r : unsettled s k r -> unsettled s k' r -> k = k'.
Proof. intros (run & ? & _ & <-) (run' & ? & _ & <-). congruence. Qed.

(** A run in the hands of the running code has not settled, and waits no more. *)
Lemma serial_held r held s :
  serial (r :: held) s -> exists k, unsettled s k r /\ forall prev, WaitChain r prev ∉ tasks s.
Proof.
  intros [[Hnd Hin] _ _ _ _]. specialize (Hin r) as [Hin _]. rewrite list_lookup_fmap in Hin.
  specialize (Hin ltac:(by left)). destruct (runs s !! r) as [run|] eqn:Hr; [|done].
  exists (run_key run). split; [exists run; split_and!; [done| |done]; cbn in Hin; congruence|].
  intros prev Hw. apply NoDup_cons in Hnd as [Hnot _]. apply Hnot, elem_of_app. right.
  apply list_elem_of_bind. exists (WaitChain r prev). split; [by left|done].
Qed.

(** Once the first run of a conversation settles, those that wait for it may go. *)
Lemma serial_first r held s k p q :
  serial (r :: held) s -> unsettled s k p -> unsettled s k q -> (q <= p)%nat -> q <> r -> p <> r.
Proof.
  intros Hs Hp Hq Hle Hne ->. destruct (serial_held r held s Hs) as (k' & Hr & Hw).
  rewrite (unsettled_key s k k' r Hp Hr) in Hq.
  by apply (se_started _ _ Hs k' r q Hr Hw); [lia|].
Qed.

Lemma tasks_settle r res s : tasks (settle_run r res s) = tasks s ++ [ChainFinally r].
Proof. done. Qed.

Lemma serial_settle r res held s : serial (r :: held) s -> serial held (settle_run r res s).
Proof.
  intros Hs. pose proof (fun k p q => serial_first r held s k p q Hs) as Hfirst.
  destruct (serial_held r held s Hs) as (k0 & (run & Hrun & _) & Hnw). destruct Hs as [H1 H2 H3 H4 H5].
  split.
  - rewrite tasks_settle, bind_app. cbn. rewrite app_nil_r.
    erewrite list_fmap_alter with (h := settle_first res) by (apply Forall_forall; done).
    by apply outstanding_settle.
  - intros q Hq. rewrite tasks_settle, elem_of_app, list_elem_of_singleton in Hq.
    setoid_rewrite unsettled_settle. cbn [runs settle_run add_task set_field]. rewrite length_alter.
    destruct Hq as [Hq|[= ->]]; [destruct (H2 q Hq); split; [done|naive_solver]|].
    split; [by eapply lookup_lt_Some|naive_solver].
  - intros k q [Hq Hne]%unsettled_settle. setoid_rewrite unsettled_settle.
    destruct (H3 k q Hq) as (p & Hp & Hpu & Hle). exists p. split_and!; eauto.
  - intros k q prev q' Hin [Hq Hne]%unsettled_settle Hlt [Hq' Hne']%unsettled_settle.
    rewrite tasks_settle in Hin. apply elem_of_app in Hin as [Hin|?%list_elem_of_singleton]; [|done].
    destruct (H4 k q prev q' Hin Hq Hlt Hq') as (p & -> & Hp & Hle).
    setoid_rewrite unsettled_settle. exists p. split_and!; eauto.
  - intros k q q' [Hq Hne]%unsettled_settle Hw Hlt [Hq' Hne']%unsettled_settle.
    apply (H5 k q q' Hq); [|done|done].
    intros prev Hin. apply (Hw prev). rewrite tasks_settle. apply elem_of_app. by left.
Qed.

Definition push_run (run : Run) (s : Supervisor) : Supervisor := s <| runs ::= fun l => l ++ [run] |>.

Lemma unsettled_lt s k r : unsettled s k r -> (r < length (runs s))%nat.
Proof. intros (run & Hr & _). by eapply lookup_lt_Some. Qed.

Lemma unsettled_push run s k q :
  unsettled (push_run run s) k q <->
  unsettled s k q \/ (q = length (runs s) /\ run_result run = None /\ k = run_key run).
Proof.
  unfold unsettled. cbn [runs push_run set_field]. setoid_rewrite lookup_snoc_Some. split.
  - intros (x & [[_ Hq]|[-> <-]] & Hres & <-); [left; eauto|by right].
  - intros [(x & Hq & ?)|(-> & ? & ->)]; [|by exists run; auto].
    exists x. split; [left; split; [by eapply lookup_lt_Some|done]|done].
Qed.

(** No task waits for a run that does not exist yet. *)
Lemma serial_bound held s prev : serial held s -> WaitChain (length (runs s)) prev ∉ tasks s.
Proof.
  intros [[_ Hin] _ _ _ _] Hw. specialize (Hin (length (runs s))) as [Hin _].
  rewrite list_lookup_fmap, lookup_ge_None_2 in Hin by done. 
  cut (@None (option (result SupervisorError InboundResult)) = Some None); [done|].
  apply Hin, elem_of_app. right. apply list_elem_of_bind. exists (WaitChain (length (runs s)) prev).
  split; [by left|done].
Qed.

(** A new run is queued behind the last of its conversation. *)
Lemma serial_queue a m held s :
  let r := length (runs s) in
  let k := compositeKey a (conversationKey m) in
  serial held s ->
  serial held (add_task (WaitChain r (jget k (inboundChains s)))
    (s <| runs ::= fun l => l ++ [mkRun a m None] |> <| inboundChains ::= jset k r |>)).
Proof.
  intros r k Hs. set (s' := add_task _ _). pose proof (unsettled_lt s) as Hlt.
  assert (forall k' q, unsettled s' k' q <-> unsettled s k' q \/ (q = r /\ k' = k)) as Hu.
  { intros k' q. etrans; [apply (unsettled_push (mkRun a m None) s k' q)|]. cbn. naive_solver. }
  pose proof (fun prev => serial_bound held s prev Hs) as Hbound.
  assert (tasks s' = tasks s ++ [WaitChain r (jget k (inboundChains s))]) as Ht by done.
  destruct Hs as [H1 H2 H3 H4 H5].
  split.
  - rewrite Ht, bind_app. cbn. rewrite fmap_app, app_assoc, (Permutation_app_comm _ [r]).
    pose proof (outstanding_new _ _ H1) as Hn. by rewrite length_fmap in Hn.
  - intros q Hq. rewrite Ht, elem_of_app, list_elem_of_singleton in Hq. destruct Hq as [Hq|]; [|done].
    destruct (H2 q Hq) as [Hlen Hno]. split; [cbn; rewrite length_app; lia|].
    intros k'. rewrite Hu. intros [?|[-> _]]; [naive_solver|]. unfold r in Hlen. lia.
  - intros k' q Hq. change (inboundChains s') with (jset k r (inboundChains s)). setoid_rewrite Hu.
    rewrite jget_set. case_decide as Hk; [exists r|].
    + split_and!; [done|by right|]. apply Hu in Hq as [Hq%Hlt|[-> _]]; unfold r; lia.
    + apply Hu in Hq as [Hq|[_ ?]]; [|done]. destruct (H3 k' q Hq) as (p & ? & ? & ?). exists p. auto.
  - intros k' q prev q' Hin Hq Hlt' Hq'. rewrite Ht, elem_of_app, list_elem_of_singleton in Hin.
    setoid_rewrite Hu. apply Hu in Hq' as [Hq'|[-> ->]].
    2: { exfalso. apply Hu in Hq as [Hq%Hlt|[-> _]]; unfold r in *; lia. }
    destruct Hin as [Hin|[= -> ->]].
    + apply Hu in Hq as [Hq|[-> ->]]; [|by apply Hbound in Hin].
      destruct (H4 k' q prev q' Hin Hq Hlt' Hq') as (p & ? & ? & ?). exists p. auto.
    + apply Hu in Hq as [Hq%Hlt|[_ ->]]; [unfold r in Hq; lia|].
      destruct (H3 k q' Hq') as (p & ? & ? & ?). exists p. auto.
  - intros k' q q' Hq Hw Hlt' Hq'. apply Hu in Hq as [Hq|[-> ->]].
    + apply Hu in Hq' as [Hq'|[-> _]]; [|apply Hlt in Hq; unfold r in *; lia]. apply (H5 k' q q' Hq); [|done|done].
      intros prev Hin. apply (Hw prev). rewrite Ht. apply elem_of_app. by left.
    + apply (Hw (jget k (inboundChains s))). rewrite Ht. apply elem_of_app. right. by left.
Qed.

(** A call on a closed supervisor is rejected at once. *)
Lemma serial_rejected run e held s :
  run_result run = Some (Throw e) -> serial held s -> serial held (push_run run s).
Proof.
  intros Hres Hs. pose proof (unsettled_push run s) as Hu.
  assert (forall k q, unsettled (push_run run s) k q <-> unsettled s k q) as Hu'
    by (intros k q; rewrite Hu; naive_solver congruence).
  destruct Hs as [H1 H2 H3 H4 H5]. split.
  - cbn. rewrite fmap_app. cbn. rewrite Hres. by apply outstanding_rejected.
  - intros r Hr. destruct (H2 r Hr) as [Hlt Hno]. split; [cbn; rewrite length_app; lia|].
    intros k. rewrite Hu'. apply Hno.
  - intros k r Hr%Hu'. setoid_rewrite Hu'. by apply H3.
  - intros k r prev r' Hin Hr%Hu' Hlt Hr'%Hu'. setoid_rewrite Hu'. by eapply H4.
  - intros k r r' Hr%Hu' Hw Hlt. rewrite Hu'. by eapply H5.
Qed.

Lemma run_settled_unsettled s k r : run_settled s r = true -> ~ unsettled s k r.
Proof.
  unfold run_settled. intros Hs (run & Hr & Hres & _). rewrite Hr, Hres in Hs. by bools.
Qed.

(** A task taken off the list is in the hands of the running code. *)
Lemma serial_drop i t held s :
  tasks s !! i = Some t -> enabled t s = true \/ of_chain t = false ->
  serial held s -> serial (task_runs t ++ held) (drop_task i s).
Proof.
  intros Hi Hen [H1 H2 H3 H4 H5]. pose proof (delete_Permutation _ _ _ Hi) as Hp.
  set (rest := base.delete i (tasks s)) in *.
  assert (forall x, x ∈ rest -> x ∈ tasks s) as Hsub by (intros x; rewrite Hp; by right).
  assert (forall x, x ∈ tasks s -> x = t \/ x ∈ rest) as Hor by (intros x; by rewrite Hp, elem_of_cons).
  split; cbn [tasks runs inboundChains drop_task set_field]; fold rest; try done.
  - rewrite Hp in H1. cbn in H1. by rewrite (Permutation_app_comm _ held), <- app_assoc.
  - intros r Hr%Hsub. by apply H2.
  - intros k r prev r' Hr%Hsub. by eapply H4.
  - intros k r r' Hr Hw Hlt Hr'.
    destruct t; try by (apply (H5 k r r'); [done| |done|done]; intros prev [?|Hin]%Hor; [done|by apply (Hw prev)]).
    destruct Hen as [Hen|]; [|done].
    destruct (decide (r = run)) as [->|Hne].
    + assert (WaitChain run previous ∈ tasks s) as Hin by (rewrite Hp; by left).
      destruct (H4 k run previous r' Hin Hr Hlt Hr') as (p & -> & Hp' & _).
      cbn in Hen. rewrite andb_true_r in Hen. by apply (run_settled_unsettled s k p).
    + apply (H5 k r r'); [done| |done|done]. intros prev [[= -> _]|Hin]%Hor; [done|by apply (Hw prev)].
Qed.

(** A run forgets the chain of its conversation only when it is its last. *)
Lemma serial_finally r i held s :
  tasks s !! i = Some (ChainFinally r) -> serial held s -> serial held (chain_finally r (drop_task i s)).
Proof.
  intros Hi Hs. apply list_elem_of_lookup_2 in Hi as Hin. destruct (se_finally _ _ Hs r Hin) as [_ Hno].
  apply (serial_drop i _ held s Hi) in Hs; [|by left]. cbn in Hs.
  unfold chain_finally. destruct (runs _ !! r) as [run|]; [|done]. case_decide as Hlast; [|done].
  destruct Hs as [H1 H2 H3 H4 H5]. split; try done.
  intros k q Hq. destruct (H3 k q Hq) as (p & Hp & Hpu & Hle). exists p. split_and!; try done.
  cbn [inboundChains set_field]. rewrite jget_delete_ne; [done|]. intros ->.
  rewrite Hlast in Hp. injection Hp as <-. by apply (Hno (run_key run)).
Qed.

(** *** The messages *)

Section books.
Context (sha256_json : value -> string) (uuid : nat -> string) (engagementWindowMs quietPeriodMs : Z).
Context (isAbsolute : string -> bool) (path_join : list string -> string) (agentRootDir : option string).

(** With the messages [held] in the hands of the running code: *)
Record keyed (held : list (string * string)) (s : Supervisor) : Prop := {
  ke_once : NoDup (held ++ (tasks s ≫= task_keys) ++ prompted (effects s));
  ke_rows : forall k, k ∈ held ++ (tasks s ≫= task_keys) ++ prompted (effects s) -> is_Some (store s !! k);
  ke_store : store_inv (store s);
  ke_buffer : buffer_ok sha256_json (store s) (states s);
  ke_callers : Forall (fun t => by_runs t = true) (tasks s)
}.

Definition books (runs_held : list nat) (keys_held : list (string * string)) (s : Supervisor) : Prop :=
  serial runs_held s /\ (digests_tell_texts sha256_json -> keyed keys_held s).


(** *** Steps that leave the books as they are *)

(** What a step that is no part of a run may do. *)
Record quiet (s s' : Supervisor) : Prop := {
  q_runs : runs s' = runs s;
  q_chains : inboundChains s' = inboundChains s;
  q_tasks : exists ts, tasks s' = tasks s ++ ts /\ Forall (fun t => idle t = true) ts;
  q_prompted : prompted (effects s') = prompted (effects s);
  q_store : store_inv (store s) -> extends (store s) (store s');
  q_buffer : forall db, buffer_ok sha256_json db (states s) -> buffer_ok sha256_json db (states s')
}.

Lemma quiet_other s s' :
  runs s' = runs s -> inboundChains s' = inboundChains s -> tasks s' = tasks s -> effects s' = effects s ->
  store s' = store s -> states s' = states s -> quiet s s'.
Proof.
  intros Hr Hc Ht He Hd Hs. split; rewrite ?Ht, ?He, ?Hd, ?Hs; try done.
  - exists []. by rewrite app_nil_r.
  - apply extends_refl.
Qed.

#[export] Instance quiet_preorder : PreOrder quiet.
Proof.
  split; [intros s; by apply quiet_other|].
  intros s1 s2 s3 [R1 C1 (t1 & T1 & I1) P1 D1 B1] [R2 C2 (t2 & T2 & I2) P2 D2 B2]. split; try congruence.
  - exists (t1 ++ t2). rewrite T2, T1, app_assoc. split; [done|]. by apply Forall_app.
  - intros H. eapply extends_trans; [by apply D1|]. apply D2. by apply D1.
  - auto.
Qed.

Definition harmless (e : Effect) : bool := match e with ToChild _ _ _ => false | _ => true end.

Lemma quiet_effect e s0 s : harmless e = true -> quiet s0 s -> quiet s0 (effect e s).
Proof.
  intros He H. etrans; [exact H|]. split; try done.
  - exists []. by rewrite app_nil_r.
  - cbn. unfold prompted. rewrite omap_app. destruct e; cbn; try done; by rewrite app_nil_r.
  - apply extends_refl.
Qed.

Lemma quiet_task t s0 s : idle t = true -> quiet s0 s -> quiet s0 (add_task t s).
Proof.
  intros Ht H. etrans; [exact H|]. split; try done.
  - exists [t]. split; [done|]. by constructor.
  - apply extends_refl.
Qed.

Lemma quiet_corr c f s0 s : quiet s0 s -> quiet s0 (update_corr c f s).
Proof. intros H. etrans; [exact H|]. by apply quiet_other. Qed.

Lemma quiet_active f s0 s : quiet s0 s -> quiet s0 (s <| sv_active ::= f |>).
Proof. intros H. etrans; [exact H|]. by apply quiet_other. Qed.

Lemma quiet_emit c call s0 s : quiet s0 s -> quiet s0 (emit c call s).
Proof. intros H. unfold emit. destruct (corrs s !! c); [by apply quiet_effect|done]. Qed.

Lemma quiet_createEmitter a corr s e s' : createEmitter a corr s = (e, s') -> quiet s s'.
Proof. intros [= _ <-]. apply quiet_effect; [done|]. by apply quiet_other. Qed.

Lemma quiet_new_corr a k corr l b s c s' : new_corr a k corr l b s = (c, s') -> quiet s s'.
Proof.
  unfold new_corr. destruct (createEmitter a corr s) as [e s1] eqn:He. intros [= _ <-].
  etrans; [by eapply quiet_createEmitter|]. by apply quiet_other.
Qed.

Lemma quiet_wire ch a k s0 s : quiet s0 s -> quiet s0 (wireChild ch a k s).
Proof.
  intros H. unfold wireChild. destruct (List.find _ _); [done|]. etrans; [exact H|]. by apply quiet_other.
Qed.

Lemma quiet_interaction a k s0 s : quiet s0 s -> quiet s0 (record_interaction engagementWindowMs a k s).
Proof.
  intros H. etrans; [exact H|]. split; try done.
  - exists []. by rewrite app_nil_r.
  - apply extends_refl.
  - intros db. apply buffer_interaction.
Qed.

(** Peels the quiet steps off the state of the goal. *)
Ltac quietly :=
  repeat first
    [ reflexivity | assumption
    | apply quiet_effect; [done|] | apply quiet_task; [done|] | apply quiet_corr | apply quiet_active
    | apply quiet_emit | apply quiet_wire | apply quiet_interaction ].

Lemma quiet_cleanup key c s0 s : quiet s0 s -> quiet s0 (cleanupCorrelation key c s).
Proof.
  intros H. unfold cleanupCorrelation. destruct (corrs s !! c) as [corr|]; [|done].
  quietly. destruct (lease corr); quietly; case_decide; quietly.
Qed.

Lemma quiet_fail key s0 s : quiet s0 s -> quiet s0 (failCorrelation key s).
Proof.
  intros H. unfold failCorrelation. destruct (get_active key s) as [[c corr]|]; [|done].
  destruct (terminalEmitted corr); [done|]. apply quiet_cleanup. quietly.
Qed.

Lemma quiet_terminalize a m corrId s0 s : quiet s0 s -> quiet s0 (terminalizeAcceptedInbound a m corrId s).
Proof.
  intros H. unfold terminalizeAcceptedInbound. destruct (_ ≫= ie_response); [done|].
  destruct (get_active _ s) as [[c corr]|].
  - destruct (terminalEmitted corr); [done|]. apply quiet_cleanup. quietly.
  - destruct (new_corr _ _ _ _ _ s) as [c s1] eqn:Hn. apply quiet_new_corr in Hn. cbn.
    apply quiet_cleanup. quietly. by etrans.
Qed.

(** A method of the store that keeps its rows. *)
Lemma quiet_store {A} (m : comp Store StoreError A) s r s' :
  (store_inv (store s) -> extends (store s) (m (store s)).2) -> on_store m s = (r, s') -> quiet s s'.
Proof.
  intros Hm. unfold on_store. destruct (m (store s)) as [r0 db] eqn:He. intros [= _ <-]. split; try done.
  exists []. by rewrite app_nil_r.
Qed.

Lemma quiet_mark_ingested a m s r s' : mark_ingested a m s = (r, s') -> quiet s s'.
Proof.
  apply quiet_store. intros Hs. by apply (extends_step sha256_json (OpIngestComplete (clock s) a (messageId m))).
Qed.

Lemma quiet_hook e hook event s : quiet s (run_hook e hook event s).2.
Proof.
  unfold run_hook. destruct (emitters s !! e) as [[a corrId]|]; [|done]. destruct (negb _); [done|].
  destruct (on_store _ s) as [r s'] eqn:Ho. revert Ho. apply quiet_store. intros Hs. destruct hook.
  - by apply (extends_step sha256_json (OpSaveCorrelation (clock s) a corrId event)).
  - by apply (extends_step sha256_json (OpCorrelationSent (clock s) a corrId (ev_eventId event))).
  - by apply (extends_step sha256_json (OpCorrelationFailed (clock s) a corrId (ev_eventId event) (Some error))).
Qed.

Lemma quiet_child_event ch frame s : quiet s (child_event engagementWindowMs ch frame s).
Proof.
  unfold child_event. destruct (wired ch s) as [[a k]|]; [|done]. unfold handleChildEvent.
  destruct (get_active _ s) as [[c corr]|]; [|done].
  destruct (_ && _); [quietly|]. destruct (is_string "turn_start" _); [quietly|].
  destruct (is_string "agent_end" _).
  - unfold handleAgentEnd. destruct (corrs _ !! c) as [corr'|]; [|quietly].
    destruct (terminalEmitted corr'); [quietly|]. apply quiet_cleanup. quietly.
  - destruct (is_string "message_update" _); quietly.
Qed.

Lemma quiet_child_error ch s : quiet s (child_error ch s).
Proof. unfold child_error. destruct (wired ch s) as [[a k]|]; [|done]. apply quiet_fail. quietly. Qed.

Lemma quiet_child_exit ch s : quiet s (child_exit ch s).
Proof.
  unfold child_exit. destruct (wired ch s) as [[a k]|]; [|done]. apply quiet_fail. destruct (sv_closed s); quietly.
Qed.

Lemma quiet_fold {A} (f : Supervisor -> A -> Supervisor) l s0 s :
  (forall s x, quiet s (f s x)) -> quiet s0 s -> quiet s0 (fold_left f l s).
Proof. intros Hf. revert s. induction l as [|x l IH]; intros s Hs; [done|]. apply IH. by etrans. Qed.

Lemma quiet_recover outbox s : quiet s (recoverPending outbox s).
Proof.
  apply quiet_fold; [|done]. intros s' [[a corrId] k]. cbn. destruct (getEntriesByCorrelation _ _ _); [done|].
  apply quiet_task; [done|]. by apply quiet_other.
Qed.

Lemma quiet_recovery_turn rec s : quiet s (recovery_turn rec s).
Proof.
  unfold recovery_turn. destruct (recoveries s !! rec) as [item|]; [|done].
  destruct (createEmitter _ _ s) as [e s1] eqn:He. apply quiet_createEmitter in He. quietly.
Qed.

Lemma quiet_recovery_end rec e s : quiet s (recovery_end rec e s).
Proof.
  unfold recovery_end. destruct (recoveries s !! rec) as [item|]; [|done].
  etrans; [apply quiet_effect; [|reflexivity]; by instantiate (1 := ToEmitter e CallClose)|].
  case_decide; by apply quiet_other.
Qed.

Lemma quiet_recovered rec e r s : quiet s (recovered rec e r s).
Proof. unfold recovered. destruct r; [quietly|apply quiet_recovery_end]. Qed.

Lemma quiet_close_flush s : quiet s (close_flush s).
Proof. apply quiet_task; [done|]. apply quiet_fold; [intros; quietly|done]. Qed.

Lemma quiet_close_end s : quiet s (close_end s).
Proof.
  unfold close_end. set (s1 := fold_left _ _ s). transitivity s1; [|by apply quiet_other]. apply quiet_fold; [intros; quietly|done].
Qed.

Lemma quiet_close s : quiet s (close s).
Proof.
  unfold close. destruct (sv_closed s); [done|]. apply quiet_task; [done|]. apply quiet_effect; [done|].
  by apply quiet_other.
Qed.

(** *** Steps of a run *)

Lemma bind_idle {B} (f : Task -> list B) ts :
  (forall t, idle t = true -> f t = []) -> Forall (fun t => idle t = true) ts -> ts ≫= f = [].
Proof. intros Hf. induction 1 as [|t ts Ht _ IH]; [done|]. cbn. by rewrite Hf, IH. Qed.

Lemma serial_quiet held s s' : quiet s s' -> serial held s -> serial held s'.
Proof.
  intros [Hr Hc (ts & Ht & Hi) _ _ _]. apply serial_same; [done|done| |].
  - intros t Hch. rewrite Ht, elem_of_app. split; [|by left]. intros [|Hin]; [done|].
    rewrite Forall_forall in Hi. apply Hi in Hin. by destruct t.
  - rewrite Ht, bind_app, (bind_idle _ ts), app_nil_r; [done| |done]. by intros [].
Qed.

Lemma keyed_quiet held s s' : quiet s s' -> keyed held s -> keyed held s'.
Proof.
  intros [_ _ (ts & Ht & Hi) He Hd Hb] [H1 H2 H3 H4 H5].
  assert (tasks s' ≫= task_keys = tasks s ≫= task_keys) as Hk.
  { rewrite Ht, bind_app, (bind_idle _ ts), app_nil_r; [done| |done]. by intros []. }
  destruct (Hd H3) as [Hinv Hext]. split; [by rewrite Hk, He| |done| |].
  - intros k. rewrite Hk, He. intros [r Hr]%H2. destruct (Hext k r Hr) as (r' & -> & _). done.
  - apply Hb. by eapply buffer_extends.
  - rewrite Ht. apply Forall_app. split; [done|]. eapply Forall_impl; [exact Hi|]. by intros [].
Qed.

Lemma books_quiet hr hk s s' : quiet s s' -> books hr hk s -> books hr hk s'.
Proof. intros Hq [Hs Hk]. split; [by eapply serial_quiet|]. intros Ht. eapply keyed_quiet; [exact Hq|by apply Hk]. Qed.

(** The run and the message move from the running code to a continuation, ... *)
Lemma books_add t hr hk s :
  of_chain t = false -> (digests_tell_texts sha256_json -> by_runs t = true) ->
  books (task_runs t ++ hr) (task_keys t ++ hk) s -> books hr hk (add_task t s).
Proof.
  intros Hc Hb [Hs Hk]. split.
  - revert Hs. apply serial_same; [done|done| |].
    + intros t' Ht'. cbn. rewrite elem_of_app, list_elem_of_singleton.
      split; [intros [?| ->]; [done|congruence]|by left].
    + cbn. rewrite bind_app. cbn. rewrite app_nil_r, (Permutation_app_comm (task_runs t)), <- app_assoc.
      f_equiv. by rewrite Permutation_app_comm.
  - intros Ht. destruct (Hk Ht) as [H1 H2 H3 H4 H5].
    assert (hk ++ (tasks (add_task t s) ≫= task_keys) ++ prompted (effects s) ≡ₚ
            (task_keys t ++ hk) ++ (tasks s ≫= task_keys) ++ prompted (effects s)) as Hp.
    { cbn. rewrite bind_app. cbn. rewrite app_nil_r, !app_assoc. f_equiv.
      rewrite (Permutation_app_comm _ (task_keys t)). by rewrite !app_assoc. }
    split; try done.
    + change (effects (add_task t s)) with (effects s). by rewrite Hp.
    + change (effects (add_task t s)) with (effects s). intros k. rewrite Hp. apply H2.
    + cbn. apply Forall_app. split; [done|]. constructor; [by apply Hb|constructor].
Qed.

(** ... and back. *)
Lemma books_drop i t s :
  tasks s !! i = Some t -> enabled t s = true \/ of_chain t = false -> books [] [] s ->
  books (task_runs t) (task_keys t) (drop_task i s) /\ (digests_tell_texts sha256_json -> by_runs t = true).
Proof.
  intros Hi Hen [Hs Hk]. pose proof (delete_Permutation _ _ _ Hi) as Hp. split; [split|].
  - rewrite <- (app_nil_r (task_runs t)). by apply serial_drop.
  - intros Ht. destruct (Hk Ht) as [H1 H2 H3 H4 H5]. rewrite Hp in H1, H5. cbn in H1.
    setoid_rewrite Hp in H2. cbn in H2. rewrite <- app_assoc in H1. setoid_rewrite <- app_assoc in H2.
    apply Forall_cons in H5 as [_ H5]. by split.
  - intros Ht. destruct (Hk Ht) as [_ _ _ _ H5]. rewrite Hp in H5. by apply Forall_cons in H5 as [? _].
Qed.

Lemma books_settle r res hr hk s : books (r :: hr) hk s -> books hr hk (settle_run r res s).
Proof.
  intros [Hs Hk]. split; [by apply serial_settle|]. intros Ht. destruct (Hk Ht) as [H1 H2 H3 H4 H5].
  assert (tasks (settle_run r res s) ≫= task_keys = tasks s ≫= task_keys) as Hb
    by (rewrite tasks_settle, bind_app; cbn; by rewrite app_nil_r).
  split; try done.
  - by rewrite Hb.
  - intros k. rewrite Hb. apply H2.
  - rewrite tasks_settle. apply Forall_app. by repeat constructor.
Qed.

(** A message is shown to a child, or given up. *)
Lemma books_send ch key sent hr hk s : books hr (key :: hk) s -> books hr hk (effect (ToChild ch key sent) s).
Proof.
  intros [Hs Hk]. split; [by eapply serial_same; [..|exact Hs]|]. intros Ht. destruct (Hk Ht) as [H1 H2 H3 H4 H5].
  assert (hk ++ (tasks s ≫= task_keys) ++ prompted (effects s ++ [ToChild ch key sent]) ≡ₚ
          (key :: hk) ++ (tasks s ≫= task_keys) ++ prompted (effects s)) as Hp.
  { unfold prompted. rewrite omap_app, !app_assoc. cbn. by rewrite <- Permutation_cons_append. }
  split; try done.
  - cbn. by rewrite Hp.
  - cbn. intros k. rewrite Hp. apply H2.
Qed.

Lemma books_forget key hr hk s : books hr (key :: hk) s -> books hr hk s.
Proof.
  intros [Hs Hk]. split; [done|]. intros Ht. destruct (Hk Ht) as [H1 H2 H3 H4 H5]. split; try done.
  - by apply NoDup_cons in H1 as [_ ?].
  - intros k Hin. apply H2. by right.
Qed.

Lemma books_suspend t s :
  of_chain t = false -> (digests_tell_texts sha256_json -> by_runs t = true) ->
  books (task_runs t) (task_keys t) s -> books [] [] (add_task t s).
Proof. intros Hc Hb Hs. apply books_add; [done|done|]. by rewrite !app_nil_r. Qed.

(** [beginInbound] of a new message puts it in the hands of the running code. *)
Lemma books_begin a m c s r s' hr hk :
  begin_inbound sha256_json uuid a m c s = (r, s') -> books hr hk s -> books hr hk s'.
Proof.
  intros Hb. apply books_quiet. set (s0 := s <| nextUuid ::= S |>). transitivity s0; [by apply quiet_other|].
  revert Hb. apply quiet_store. intros Hs.
  by apply (extends_step sha256_json (OpBegin (uuid (nextUuid s)) (clock s0) a m c)).
Qed.

Lemma books_created a m c s corrId s' hr hk :
  begin_inbound sha256_json uuid a m c s = (Ok (created corrId), s') -> books hr hk s ->
  books hr (message_key a m :: hk) s' /\ accepted_row sha256_json (store s') a m.
Proof.
  intros Hb Hs. pose proof (books_begin a m c s _ s' hr hk Hb Hs) as [Hser Hk]. destruct Hs as [_ Hk0].
  unfold begin_inbound, on_store in Hb. set (s0 := s <| nextUuid ::= S |>) in *.
  destruct (decide (a = "")) as [->|Ha]; [done|].
  destruct (decide (messageId m = "")) as [Hm|Hm].
  { unfold beginInbound in Hb. rewrite Hm in Hb. by destruct (is_empty a). }
  destruct (decide (c = Some "")) as [->|Hc].
  { unfold beginInbound in Hb. by destruct (is_empty a), (is_empty (messageId m)). }
  destruct (store s !! (a, messageId m)) as [row|] eqn:Hrow.
  { erewrite begin_existing in Hb by done. destruct (String.eqb _ _); [|done]. injection Hb as Hb _.
    unfold classifyExisting in Hb. by destruct (ie_deliveryState row), (ie_response row). }
  rewrite begin_absent in Hb by done. injection Hb as _ <-. split; [split; [done|]|].
  - intros Ht. destruct (Hk Ht) as [H1 H2 H3 H4 H5]. split; try done.
    + apply NoDup_cons. split; [|done]. intros Hin. destruct (ke_rows _ _ (Hk0 Ht) _ Hin) as [r Hr].
      unfold message_key in Hr. congruence.
    + intros k [->|Hin]%elem_of_cons; [|by apply H2]. cbn. rewrite lookup_insert_eq. done.
  - split_and!; [done|done|]. cbn. rewrite lookup_insert_eq. by eexists.
Qed.

(** *** Activation *)

Definition caller_ok (caller : ActivationCaller) : Prop :=
  digests_tell_texts sha256_json -> by_run caller = true.

(** What an activation leaves: it is suspended, or it threw. *)
Definition activation_books (caller : ActivationCaller) (res : option SupervisorError * Supervisor) : Prop :=
  match res.1 with
  | None => books [] [] res.2
  | Some _ => books (activation_runs caller) [] res.2
  end.

Lemma interrupt_books c caller s :
  (digests_tell_texts sha256_json -> by_runs (Interrupted caller) = true) ->
  books (interrupt_runs caller) [] s -> books [] [] (interruptTurn c caller s).
Proof.
  intros Hb Hs. unfold interruptTurn. destruct (corrs s !! c) as [corr|]; [|by apply books_suspend].
  destruct (lease corr); (apply books_suspend; [done|by destruct caller|]); (eapply books_quiet; [|exact Hs]).
  - quietly.
  - apply quiet_cleanup. quietly.
Qed.

Lemma activate_with_books c caller a m corrId mode s :
  caller_ok caller -> books (activation_runs caller) [message_key a m] s ->
  activation_books caller (activate_with engagementWindowMs c caller a m corrId mode s).
Proof.
  intros Hc Hs. unfold activate_with.
  assert (books (activation_runs caller) [message_key a m] (record_interaction engagementWindowMs a (conversationKey m) s))
    as Hs1 by (eapply books_quiet; [|exact Hs]; quietly).
  destruct (corrs _ !! c ≫= lease) as [l|]; [|by apply books_forget in Hs1].
  destruct mode; try by apply books_suspend.
  apply books_suspend; [done|done|]. apply books_send. eapply books_quiet; [|exact Hs1]. quietly.
Qed.

Lemma activate_start_books caller a m corrId mode s :
  caller_ok caller -> books (activation_runs caller) [message_key a m] s ->
  activation_books caller (activate_start engagementWindowMs caller a m corrId mode s).
Proof.
  intros Hc Hs. unfold activate_start. apply books_forget in Hs as Hs0. destruct (is_reset m).
  - destruct (get_active _ s) as [[c corr]|]; [by apply interrupt_books|].
    apply books_suspend; [done|done|]. eapply books_quiet; [|exact Hs0]. quietly.
  - destruct (get_active _ s) as [[c corr]|]; [by apply activate_with_books|].
    apply books_suspend; [done|done|]. eapply books_quiet; [|exact Hs]. quietly.
Qed.

Lemma flush_loop_books due s :
  (digests_tell_texts sha256_json -> Forall (settled_ok sha256_json (store s)) due) ->
  books [] [] s -> books [] [] (flush_loop sha256_json uuid engagementWindowMs due s).
Proof.
  revert s. induction due as [|due rest IH]; intros s Hdue Hs; [done|]. cbn [flush_loop].
  destruct (settled_message due) as [m|] eqn:Hm; [|apply IH; [|done]; intros Ht; by apply Forall_cons in Hdue as [_ ?]].
  destruct (begin_inbound _ _ _ m None s) as [r s1] eqn:Hb.
  pose proof (books_begin _ _ _ _ _ _ _ _ Hb Hs) as Hs1.
  assert (digests_tell_texts sha256_json -> (exists e, r = Throw e) /\ Forall (settled_ok sha256_json (store s1)) rest) as Hthrow.
  { intros Ht. apply Hdue in Ht as Hd. apply Forall_cons in Hd as [Hd Hrest].
    destruct (begin_settled sha256_json uuid s due m Ht Hd Hm) as [e He].
    rewrite He in Hb. injection Hb as <- <-. split; [by exists e|done]. }
  destruct r as [begun|e]; [|apply IH; [intros Ht; by apply Hthrow|done]].
  assert (digests_tell_texts sha256_json -> False) as Hno by (intros Ht; by destruct (Hthrow Ht) as [[e ?] _]).
  assert (activation_books (ByFlush rest)
    (activate_start engagementWindowMs (ByFlush rest) (settled_adapterId due) m (result_correlation begun) mode_prompt s1)) as Ha.
  { apply activate_start_books; [by intros ?%Hno|]. destruct Hs1 as [Hser _]. split; [done|by intros ?%Hno]. }
  destruct (activate_start _ _ _ _ _ _ s1) as [[e|] s2]; [|exact Ha]. apply IH; [by intros ?%Hno|exact Ha].
Qed.

(** A flush of settled backlogs is no part of a run when digests tell texts. *)
Lemma activate_done_books caller a m corrId res s :
  caller_ok caller -> books (activation_runs caller) [] s ->
  books [] [] (activate_done sha256_json uuid engagementWindowMs caller a m corrId res s).
Proof.
  intros Hc Hs. destruct caller as [r|rest]; cbn.
  - apply books_settle. destruct res; [done|]. eapply books_quiet; [|exact Hs]. by apply quiet_terminalize.
  - apply flush_loop_books; [|done]. by intros ?%Hc.
Qed.

Lemma activate_books caller a m corrId mode s :
  caller_ok caller -> books (activation_runs caller) [message_key a m] s ->
  books [] [] (activate sha256_json uuid engagementWindowMs caller a m corrId mode s).
Proof.
  intros Hc Hs. unfold activate. pose proof (activate_start_books caller a m corrId mode s Hc Hs) as Ha.
  destruct (activate_start _ _ _ _ _ _ s) as [[e|] s1]; [|exact Ha]. by apply activate_done_books.
Qed.

Lemma activate_acquired_books caller a m corrId mode r s :
  caller_ok caller -> books (activation_runs caller) [message_key a m] s ->
  books [] [] (activate_acquired sha256_json uuid engagementWindowMs caller a m corrId mode r s).
Proof.
  intros Hc Hs. unfold activate_acquired.
  destruct r as [l|e]; [|by apply activate_done_books; [|eapply books_forget]].
  destruct (new_corr _ _ _ _ _ s) as [c s1] eqn:Hn. apply quiet_new_corr in Hn.
  assert (books (activation_runs caller) [message_key a m] (wireChild (lease_child l) a (conversationKey m) s1)) as Hs2
    by (eapply books_quiet; [|exact Hs]; by apply quiet_wire).
  pose proof (activate_with_books c caller a m corrId mode _ Hc Hs2) as Ha.
  destruct (activate_with _ _ _ _ _ _ _ _) as [[e|] s3]; [|exact Ha]. by apply activate_done_books.
Qed.

Lemma activate_images_books caller a m corrId mode c ch read s :
  caller_ok caller -> books (activation_runs caller) [message_key a m] s ->
  books [] [] (activate_images isAbsolute path_join agentRootDir caller a m corrId mode c ch read s).
Proof. intros Hc Hs. apply books_suspend; [done|done|]. by apply books_send. Qed.

Lemma activate_prompted_books caller a m corrId mode c ch r s :
  caller_ok caller -> books (activation_runs caller) [] s ->
  books [] [] (activate_prompted sha256_json uuid engagementWindowMs caller a m corrId mode c ch r s).
Proof.
  intros Hc Hs. unfold activate_prompted. destruct (rpc_outcome r).
  - destruct (getEntry _ _ _) as [entry|]; [|by apply activate_done_books].
    case_decide; [|by apply activate_done_books].
    destruct (mark_ingested a m s) as [res s1] eqn:Hm. apply quiet_mark_ingested in Hm.
    destruct res; (apply activate_done_books; [done|by eapply books_quiet]).
  - apply activate_done_books; [done|]. eapply books_quiet; [|exact Hs]. quietly. destruct mode; quietly.
Qed.

Lemma reset_retired_books caller a m corrId r s :
  caller_ok caller -> books (activation_runs caller) [] s ->
  books [] [] (reset_retired sha256_json uuid engagementWindowMs caller a m corrId r s).
Proof.
  intros Hc Hs. unfold reset_retired. destruct r; [|by apply activate_done_books].
  destruct (forget _ _ _) as [existed reg].
  destruct (new_corr _ _ _ _ _ _) as [c s1] eqn:Hn. apply quiet_new_corr in Hn.
  apply activate_done_books; [done|]. eapply books_quiet; [|exact Hs]. apply quiet_cleanup. quietly.
  etrans; [|exact Hn]. quietly. by apply quiet_other.
Qed.

(** *** Passive messages and redelivery *)

Lemma append_passive_books r a m corrId s :
  books [r] [message_key a m] s -> books [] [] (appendPassiveMessage r a m corrId s).
Proof.
  intros Hs. unfold appendPassiveMessage.
  destruct (get_active _ s) as [[c [? ? ? ? [l|] ? ?]]|];
    (apply books_suspend; [done|done|]); [by apply books_send| |];
    (eapply books_quiet; [|exact Hs]; quietly).
Qed.

Lemma append_failed_books r a m corrId s : books [r] [] s -> books [] [] (append_failed r a m corrId s).
Proof. intros Hs. apply books_settle. eapply books_quiet; [|exact Hs]. by apply quiet_terminalize. Qed.

Lemma append_acquired_books r a m corrId res s :
  books [r] [message_key a m] s -> books [] [] (append_acquired r a m corrId res s).
Proof.
  intros Hs. destruct res; cbn; [|by apply append_failed_books; eapply books_forget].
  apply books_suspend; [done|done|]. by apply books_send.
Qed.

Lemma append_prompted_books r a m corrId held res s :
  books [r] [] s -> books [] [] (append_prompted r a m corrId held res s).
Proof.
  intros Hs. unfold append_prompted.
  match goal with |- context [append_failed _ _ _ _ ?s'] =>
    assert (books [r] [] s') as Hs'; [|revert Hs'; generalize s'; intros s1 Hs1] end.
  { eapply books_quiet; [|exact Hs]. destruct held; [|done]. destruct (is_ok _); quietly. }
  destruct (rpc_outcome res); [|by apply append_failed_books].
  destruct (mark_ingested a m s1) as [x s2] eqn:Hm. apply quiet_mark_ingested in Hm.
  destruct x; apply books_settle; by eapply books_quiet.
Qed.

Lemma redeliver_books r a m corrId response s : books [r] [] s -> books [] [] (redeliverSaved r a m corrId response s).
Proof.
  intros Hs. unfold redeliverSaved. destruct (get_active _ s) as [[c corr]|].
  - apply books_suspend; [done|done|]. eapply books_quiet; [|exact Hs]. quietly.
  - destruct (new_corr _ _ _ _ _ s) as [c s1] eqn:Hn. apply quiet_new_corr in Hn.
    apply books_suspend; [done|done|]. eapply books_quiet; [|exact Hs]. quietly.
Qed.

Lemma redelivered_books r c corrId res s : books [r] [] s -> books [] [] (redelivered r c corrId res s).
Proof.
  intros Hs. destruct res; cbn; [|by apply books_settle].
  apply books_suspend; [done|done|]. eapply books_quiet; [|exact Hs]. quietly.
Qed.

Lemma redeliver_flushed_books r c corrId res s : books [r] [] s -> books [] [] (redeliver_flushed r c corrId res s).
Proof.
  intros Hs. destruct res; cbn; [|by apply books_settle]. apply books_settle.
  destruct (corrs s !! c) as [corr|]; [|done]. destruct (lease corr); [done|].
  eapply books_quiet; [|exact Hs]. case_decide; quietly.
Qed.

(** *** One inbound message *)

Lemma ingest_created_books r a m corrId s :
  accepted_row sha256_json (store s) a m -> books [r] [message_key a m] s ->
  books [] [] (ingest_created sha256_json uuid engagementWindowMs quietPeriodMs r a m corrId s).
Proof.
  intros Hrow Hs. unfold ingest_created. set (streaming := isStreaming _ _ s).
  destruct (ingest _ _ _ a m streaming (states s)) as [decision st] eqn:Hi.
  assert (books [r] [message_key a m] (s <| states := st |>)) as Hs1.
  { destruct Hs as [Hser Hk]. split; [by eapply serial_same; [..|exact Hser]|]. intros Ht.
    destruct (Hk Ht) as [H1 H2 H3 H4 H5]. split; try done. cbn.
    pose proof (buffer_ingest sha256_json engagementWindowMs quietPeriodMs (store s) (clock s) a m streaming
                  (states s) Hrow H4) as Hb. by rewrite Hi in Hb. }
  destruct decision; [by apply append_passive_books|by apply activate_books].
Qed.

Lemma serial_begin_books r a m s :
  books [r] [] s -> books [] [] (serial_begin sha256_json uuid engagementWindowMs quietPeriodMs r a m s).
Proof.
  intros Hs. unfold serial_begin. destruct (begin_inbound _ _ _ _ _ s) as [res s1] eqn:Hb.
  pose proof (books_begin _ _ _ _ _ _ _ _ Hb Hs) as Hs1.
  destruct res as [begun|[]]; try by apply books_settle.
  destruct begun; try by apply redeliver_books.
  - destruct (books_created _ _ _ _ _ _ _ _ Hb Hs). by apply ingest_created_books.
  - apply books_settle. destruct (get_active _ s); [done|]. destruct (getEntry _ _ _); [|done].
    case_decide; [|done]. eapply books_quiet; [|exact Hs1]. by apply quiet_terminalize.
  - by apply books_settle.
Qed.

Lemma serial_start_books r a m s :
  books [r] [] s -> books [] [] (serial_start sha256_json uuid engagementWindowMs quietPeriodMs r a m s).
Proof.
  intros Hs. unfold serial_start. destruct (get_active _ s) as [[c corr]|]; [|by apply serial_begin_books].
  destruct (_ && _); [by apply interrupt_books|by apply serial_begin_books].
Qed.

Lemma process_serial_books r a m s :
  books [r] [] s -> books [] [] (processInboundSerial sha256_json uuid engagementWindowMs quietPeriodMs r a m s).
Proof.
  intros Hs. unfold processInboundSerial. destruct (jget _ _); [by apply books_suspend|by apply serial_start_books].
Qed.

Lemma process_inbound_books a m s : books [] [] s -> books [] [] (processInbound a m s).
Proof.
  intros [Hs Hk]. unfold processInbound. destruct (sv_closed s).
  - split; [by eapply (serial_rejected (mkRun a m (Some (Throw SupervisorClosed))))|].
    intros Ht. destruct (Hk Ht). by split.
  - split; [by apply serial_queue|]. intros Ht. destruct (Hk Ht) as [H1 H2 H3 H4 H5]. split; try done; cbn.
    + by rewrite bind_app, app_nil_r.
    + rewrite bind_app, app_nil_r. apply H2.
    + apply Forall_app. by repeat constructor.
Qed.

Lemma interrupted_books caller s :
  (digests_tell_texts sha256_json -> by_runs (Interrupted caller) = true) ->
  books (interrupt_runs caller) [] s ->
  books [] [] (interrupted sha256_json uuid engagementWindowMs quietPeriodMs caller s).
Proof.
  intros Hb Hs. destruct caller as [r|caller a m corrId]; cbn.
  - destruct (runs s !! r) as [run|] eqn:Hr; [by apply serial_begin_books|].
    destruct Hs as [Hs _]. destruct (serial_held r [] s Hs) as (k & (run & Hrun & _) & _). congruence.
  - apply books_suspend; [done|done|]. eapply books_quiet; [|exact Hs]. quietly.
Qed.

Lemma flush_settled_books s :
  books [] [] s -> books [] [] (flushSettled sha256_json uuid engagementWindowMs quietPeriodMs s).
Proof.
  intros [Hs Hk]. unfold flushSettled. destruct (sv_closed s); [done|].
  destruct (sweepSettled _ _ _ _) as [due st] eqn:Hsw. pose proof (sweep_ok sha256_json engagementWindowMs quietPeriodMs) as Hok.
  apply flush_loop_books.
  - intros Ht. destruct (Hk Ht) as [_ _ _ Hb _]. apply (Hok _ (clock s)) in Hb as [Hd _]. by rewrite Hsw in Hd.
  - split; [by eapply serial_same; [..|exact Hs]|]. intros Ht. destruct (Hk Ht) as [H1 H2 H3 H4 H5].
    split; try done. apply (Hok _ (clock s)) in H4 as [_ H4]. by rewrite Hsw in H4.
Qed.

(** *** Every step *)

Lemma run_task_books i t s :
  tasks s !! i = Some t -> enabled t s = true -> books [] [] s ->
  books [] [] (run_task sha256_json uuid engagementWindowMs quietPeriodMs t (drop_task i s)).
Proof.
  intros Hi Hen Hs. destruct (books_drop i t s Hi (or_introl Hen) Hs) as [Hd Hb].
  destruct t; try done; cbn [run_task task_runs task_keys] in *;
    try (by eapply books_quiet; [|exact Hd]; quietly).
  - destruct (runs _ !! run) as [x|] eqn:Hr; [by apply process_serial_books|].
    destruct Hd as [Hd _]. destruct (serial_held _ _ _ Hd) as (k & (x & Hx & _) & _). congruence.
  - destruct Hs as [Hser Hk]. split; [by apply serial_finally|]. intros Ht.
    destruct Hd as [_ Hd]. destruct (Hd Ht) as [H1 H2 H3 H4 H5]. unfold chain_finally.
    destruct (runs _ !! run); [case_decide|]; by split.
  - destruct (runs _ !! run) as [x|] eqn:Hr; [by apply serial_start_books|].
    destruct Hd as [Hd _]. destruct (serial_held _ _ _ Hd) as (k & (x & Hx & _) & _). congruence.
  - by apply interrupted_books.
  - eapply books_quiet; [apply quiet_recovery_turn|exact Hd].
  - eapply books_quiet; [apply quiet_close_flush|exact Hd].
  - eapply books_quiet; [apply quiet_close_end|exact Hd].
Qed.

Lemma abort_books c caller s :
  (digests_tell_texts sha256_json -> by_runs (Interrupted caller) = true) ->
  books (interrupt_runs caller) [] s -> books [] [] (abort_done c caller s).
Proof.
  intros Hb Hs. apply books_suspend; [done|done|]. eapply books_quiet; [|exact Hs].
  destruct (corrs s !! c); [by apply quiet_cleanup|done].
Qed.

(** An answer a task does not await leaves it. *)
Lemma books_requeue i t s :
  tasks s !! i = Some t -> books [] [] s -> books [] [] (add_task t (drop_task i s)).
Proof.
  intros Hi [Hs Hk]. pose proof (delete_Permutation _ _ _ Hi) as Hp.
  assert (tasks (add_task t (drop_task i s)) ≡ₚ tasks s) as Ht by (rewrite Hp; symmetry; apply Permutation_cons_append).
  split.
  - revert Hs. apply serial_same; [done|done| |].
    + intros t' _. by rewrite Ht.
    + by rewrite Ht.
  - intros Htell. destruct (Hk Htell) as [H1 H2 H3 H4 H5].
    split; try done; change (effects (add_task t (drop_task i s))) with (effects s).
    + by rewrite Ht.
    + intros k. rewrite Ht. apply H2.
    + by rewrite Ht.
Qed.

Lemma finish_task_books i t o s :
  tasks s !! i = Some t -> books [] [] s ->
  books [] [] (finish_task sha256_json uuid engagementWindowMs isAbsolute path_join agentRootDir
                 t o (drop_task i s)).
Proof.
  intros Hi Hs. destruct (of_chain t) eqn:Hc; [destruct t; try done; by apply books_requeue|].
  destruct (books_drop i t s Hi (or_intror Hc) Hs) as [Hd Hb].
  destruct t, o; try (by apply books_requeue); cbn [finish_task task_runs task_keys] in *.
  - by apply abort_books.
  - by apply redelivered_books.
  - by apply redeliver_flushed_books.
  - by apply append_acquired_books.
  - by apply append_prompted_books.
  - by apply activate_acquired_books.
  - by apply activate_images_books.
  - by apply activate_prompted_books.
  - by apply reset_retired_books.
  - eapply books_quiet; [apply quiet_recovered|exact Hd].
  - eapply books_quiet; [apply quiet_recovery_end|exact Hd].
  - eapply books_quiet; [|exact Hd]. quietly.
Qed.

Lemma books_boot registry : books [] [] (boot ∅ registry).
Proof.
  assert (forall k r, ~ unsettled (boot ∅ registry) k r) as Hno by (intros k r (run & Hr & _); done).
  split; [split|intros _; split]; try done; try (by constructor); try (by intros; exfalso; eapply Hno).
  - split; [constructor|]. intros p. split; [by intros ?%elem_of_nil|done].
  - by intros r ?%elem_of_nil.
  - by intros k ?%elem_of_nil.
Qed.

Lemma books_crash s : books [] [] s ->
  books [] [] (boot (store s) (sessions s) <| effects := effects s |> <| clock := clock s |>
                 <| nextUuid := nextUuid s |>).
Proof.
  intros [_ Hk]. destruct (books_boot (sessions s)) as [[H1 H2 H3 H4 H5] _]. split; [by split|].
  intros Ht. destruct (Hk Ht) as [K1 K2 K3 K4 K5]. split; try done; cbn in *.
  - by apply NoDup_app in K1 as (_ & _ & ?).
  - intros k Hin. apply K2, elem_of_app. by right.
  - constructor.
Qed.

Definition supervisor_step : Supervisor -> Op -> Supervisor :=
  step sha256_json uuid engagementWindowMs quietPeriodMs isAbsolute path_join agentRootDir.

Lemma step_books s op : books [] [] s -> books [] [] (supervisor_step s op).
Proof.
  intros Hs. destruct op; cbn [supervisor_step step].
  - by apply process_inbound_books.
  - destruct (tasks s !! task) as [t|] eqn:Hi; [|done]. destruct (enabled t s) eqn:Hen; [|done]. by apply run_task_books.
  - destruct (tasks s !! task) as [t|] eqn:Hi; [|done]. by apply finish_task_books.
  - eapply books_quiet; [|exact Hs]. by apply quiet_wire.
  - eapply books_quiet; [apply quiet_child_event|exact Hs].
  - eapply books_quiet; [apply quiet_child_error|exact Hs].
  - eapply books_quiet; [apply quiet_child_exit|exact Hs].
  - eapply books_quiet; [apply quiet_hook|exact Hs].
  - by apply flush_settled_books.
  - eapply books_quiet; [|exact Hs]. unfold dismissEngagement.
    destruct (dismiss _ _ _ _) as [r st] eqn:Hd. cbn. split; try done.
    + exists []. by rewrite app_nil_r.
    + apply extends_refl.
    + intros db Hb. apply (buffer_dismiss sha256_json db (clock s) adapterId conversationKey) in Hb. by rewrite Hd in Hb.
  - eapply books_quiet; [apply quiet_recover|exact Hs].
  - eapply books_quiet; [apply quiet_close|exact Hs].
  - eapply books_quiet; [|exact Hs]. by apply quiet_other.
  - by apply books_crash.
Qed.

(** A state of a supervisor that started on empty stores. *)
Definition reached (registry : SessionRegistry) (ops : list Op) : Supervisor :=
  run supervisor_step (boot ∅ registry) ops.

Lemma books_reached registry ops : books [] [] (reached registry ops).
Proof. apply (run_invariant _ (books [] [])); [apply step_books|apply books_boot]. Qed.

(** ** Theorems *)

(** C32: One conversation's messages are processed one at a time and in their
    order.  In every state the supervisor reaches, through any interleaving of its
    continuations with restarts, each call of [processInbound] that has not settled
    is in the hands of exactly one continuation, so none is lost or answered twice;
    and a call that waits no more for its turn has every earlier call of its
    conversation settled. *)
Theorem inbound_serialized (registry : SessionRegistry) (ops : list Op) :
  let s := reached registry ops in
  outstanding (tasks s ≫= task_runs) (run_result <$> runs s) /\
  (forall k r r', unsettled s k r -> (forall prev, WaitChain r prev ∉ tasks s) ->
     (r' < r)%nat -> ~ unsettled s k r').
Proof. intros s. destruct (books_reached registry ops) as [[H1 _ _ _ H5] _]. by split. Qed.

(** C33: No message is shown to a child twice: over any run of the supervisor, its
    crashes and restarts on the same stores included, the messages prompted,
    steered, followed up or appended to a session are all different, provided
    messages of equal digests have equal texts (no hash collision). *)
Theorem child_sees_message_once (registry : SessionRegistry) (ops : list Op) :
  digests_tell_texts sha256_json -> NoDup (prompted (effects (reached registry ops))).
Proof.
  intros Ht. destruct (books_reached registry ops) as [_ Hk]. destruct (Hk Ht) as [H1 _ _ _ _].
  by apply NoDup_app in H1 as (_ & _ & (_ & _ & ?)%NoDup_app).
Qed.

(** C34: The settled flush starts no turn.  [sweepSettled] takes the settled
    backlogs out of the buffer, and then [beginInbound] rejects each of them as a
    conflict, since it is given the id of the last held message with the text of
    the whole backlog: no child is prompted, no continuation starts, the store
    stays as it is, and the backlogs are gone. *)
Theorem settled_flush_conflicts (registry : SessionRegistry) (ops : list Op) :
  digests_tell_texts sha256_json ->
  let s := reached registry ops in
  sv_closed s = false -> 0 < quietPeriodMs ->
  exists st n, supervisor_step s FlushSettled = s <| states := st |> <| nextUuid := n |> /\
    forall key, backlog (stateFor key st) =
      if is_due quietPeriodMs (clock s) (stateFor key (states s)) then []
      else backlog (stateFor key (states s)).
Proof.
  intros Ht s Hopen Hq. destruct (books_reached registry ops) as [_ Hk]. fold s in Hk.
  destruct (Hk Ht) as [_ _ _ Hb _].
  unfold supervisor_step. cbn [step]. unfold flushSettled. rewrite Hopen.
  pose proof (sweep_ok sha256_json engagementWindowMs quietPeriodMs (store s) (clock s) (states s) Hb) as [Hd _].
  destruct (sweepSettled _ _ _ _) as [due st] eqn:Hsw. cbn in Hd. set (s1 := s <| states := st |>).
  destruct (flush_loop_idle sha256_json uuid engagementWindowMs due s1 Ht Hd) as [n Hn].
  exists st, n. split; [exact Hn|]. intros key. unfold sweepSettled in Hsw.
  destruct (Z.leb_spec quietPeriodMs 0); [lia|].
  pose proof (sweep_loop_states engagementWindowMs quietPeriodMs (clock s) (states s)) as Hst.
  rewrite Hsw in Hst. cbn in Hst. rewrite Hst, stateFor_swept. unfold swept. by destruct (is_due _ _ _).
Qed.
End books.

(** ** Concrete runs *)

(** A digest that is the text of a message. *)
Definition demo_digest (v : value) : string :=
  match v with
  | VObject props =>
      match List.find (fun kv => String.eqb (fst kv) "text") props with
      | Some (_, VString text) => text
      | _ => EmptyString
      end
  | _ => EmptyString
  end.

Lemma demo_digest_text m : canonicalPayloadHash demo_digest m = msg_text m.
Proof. by destruct m as [? ? [] ? ? ? ?]. Qed.

Lemma demo_digests : digests_tell_texts demo_digest.
Proof. intros m1 m2. by rewrite !demo_digest_text. Qed.

(** One adapter, a room: one accepted message is held, then one is answered. *)
Definition demo_supervisor : list Op -> Supervisor :=
  reached demo_digest (fun n => String (Ascii.ascii_of_nat (97 + n)) EmptyString) 1000 50 (fun _ => false)
    (fun parts => join "/" parts) None (mkSessionRegistry ∅ [] ∅ 0).

Definition arrives (id : string) (direct : bool) : list Op := [ProcessInbound "a" (demo_arrival id direct); Resume 0].

(** A first message, whose child is leased and prompted: the turn is in flight. *)
Definition in_flight : list Op :=
  arrives "m1" true ++ [Finish 0 (Leased (Ok (mkLease 0 10))); Finish 0 (Files (fun _ => None));
    Finish 0 (Prompted (Ok true)); Resume 0].

(** Then an ambient message within the quiet period is held, and settles. *)
Definition settled : list Op :=
  in_flight ++ [Tick 10] ++ arrives "m2" false ++ [Finish 0 (Prompted (Ok true)); Resume 0; Tick 100].

Lemma child_sees_message_once_witness :
  prompted (effects (demo_supervisor settled)) = [("a", "m1"); ("a", "m2")] /\
  NoDup (prompted (effects (demo_supervisor settled))).
Proof.
  split; [vm_compute; reflexivity|].
  apply (child_sees_message_once demo_digest (fun n => String (Ascii.ascii_of_nat (97 + n)) EmptyString) 1000 50
    (fun _ => false) (fun parts => join "/" parts) None (mkSessionRegistry ∅ [] ∅ 0) settled demo_digests).
Defined.

(** The held message was due, and no turn starts over it. *)
Lemma settled_flush_conflicts_witness :
  let s := demo_supervisor settled in
  let key := compositeKey "a" "room" in
  is_due 50 (clock s) (stateFor key (states s)) = true /\
  exists st n, supervisor_step demo_digest (fun n => String (Ascii.ascii_of_nat (97 + n)) EmptyString) 1000 50
      (fun _ => false) (fun parts => join "/" parts) None s FlushSettled =
      s <| states := st |> <| nextUuid := n |> /\
    forall key, backlog (stateFor key st) =
      if is_due 50 (clock s) (stateFor key (states s)) then [] else backlog (stateFor key (states s)).
Proof.
  split; [vm_compute; reflexivity|].
  apply (settled_flush_conflicts demo_digest (fun n => String (Ascii.ascii_of_nat (97 + n)) EmptyString) 1000 50
    (fun _ => false) (fun parts => join "/" parts) None (mkSessionRegistry ∅ [] ∅ 0) settled demo_digests);
    vm_compute; reflexivity.
Defined.

(** A duplicate of the message a turn is answering aborts that turn: the turn is
    interrupted before [beginInbound] finds that the message is known. *)
Example duplicate_aborts_its_turn :
  let s := demo_supervisor (in_flight ++ arrives "m1" true ++ [Finish 0 (Settled (Ok tt)); Resume 1]) in
  run_result <$> runs s = [Some (Ok (accepted "a")); Some (Ok (duplicate "a"))] /\
  AbortChild 10 ∈ effects s /\ get_active (compositeKey "a" "room") s = None /\
  prompted (effects s) = [("a", "m1")].
Proof. vm_compute. split_and!; try done. repeat (left || right). Qed.

