(* ===== verification/HttpWire.v ===== *)
(** * The HTTP adapter's wire format (packages/http-adapter/src/server.ts)

    The functions that read requests, routes, headers, bodies, signatures and the
    environment.  They keep no state; HttpAdapter.v is the adapter itself. *)

From S2P Require Import Prelude JsMap JsString JsValue Contracts AdapterRegistry.
From Stdlib Require Import Ascii.
From stdpp Require Import options.
#[local] Open Scope Z_scope.

(** ** Data *)

Definition DEFAULT_MAX_BODY_BYTES : Z := 1024 * 1024.
Definition DEFAULT_TURN_TIMEOUT_MS : Z := 15 * 60 * 1000.
Definition ADAPTER_API_VERSION : string := "v1".
Definition OUTBOUND_EVENT_MEDIA_TYPE : string := "application/vnd.omp-bundler.outbound.v1+json".

Record HttpAgentRegistration := mkAgent {
  ha_agentId : string;
  ha_adapterId : string;
  ha_sharedSecret : string
}.

(** [HttpAdapterConfig] *)
Record HttpAdapterConfig := mkHttpConfig {
  host : string;
  port : Z;
  coreUrl : string;
  maxBodyBytes : Z;
  turnTimeoutMs : Z;
  apiToken : option string;
  agents : list HttpAgentRegistration
}.

(** A header as node gives it. *)
Inductive HeaderValue : Type :=
| no_header
| one_header (s : string)
| many_headers (l : list string).

(** What the adapter reads of a request: method, [new URL(...).pathname] ([None]
    when it throws), the headers, and the chunks of the body. *)
Record HttpRequest := mkRequest {
  rq_method : string;
  rq_pathname : option string;
  rq_authorization : HeaderValue;
  rq_contentType : HeaderValue;
  rq_accept : HeaderValue;
  rq_signature : HeaderValue;
  rq_eventType : HeaderValue;
  rq_body : list (list N)
}.

(** A parsed event of the core: the fields the adapter reads, and the object. *)
Record CoreEvent := mkCoreEvent {
  ce_type : string;
  ce_eventId : string;
  ce_conversationKey : string;
  ce_correlationId : string;
  ce_sequence : Z;
  ce_value : list (string * value)
}.

(** ** Headers and bodies *)

Definition headerValue (h : HeaderValue) : option string :=
  match h with
  | no_header => None
  | one_header s => Some s
  | many_headers l => hd_error l
  end.

(** [value?.split(";", 1)[0].trim().toLowerCase() === "application/json"] *)
Definition isJsonContentType (v : option string) : bool :=
  match v with
  | Some s => String.eqb (to_lower (trim (List.hd EmptyString (split_on ";" s)))) "application/json"
  | None => false
  end.

(** One entry of an Accept header. *)
Definition accepts_entry (entry : string) : bool :=
  match map trim (split_on ";" entry) with
  | [] => false
  | mediaType :: parameters =>
      if negb (String.eqb (to_lower mediaType) "text/event-stream") then false
      else
        match List.find (fun p => starts_with "q=" (to_lower p)) parameters with
        | None => true
        | Some quality =>
            let parsed := string_to_number (drop_str 2 quality) in
            num_is_finite parsed && num_ltb num_zero parsed
        end
  end.

Definition acceptsEventStream (v : option string) : bool :=
  match v with Some s => existsb accepts_entry (split_on "," s) | None => false end.

(** [readBody(req, maxBytes)] *)
Fixpoint read_chunks (maxBytes : Z) (chunks : list (list N)) (total : Z) (acc : list N) : option (list N) :=
  match chunks with
  | [] => Some acc
  | chunk :: rest =>
      let total := total + Z.of_nat (length chunk) in
      if maxBytes <? total then None else read_chunks maxBytes rest total (acc ++ chunk)
  end.

Definition readBody (maxBytes : Z) (chunks : list (list N)) : option (list N) := read_chunks maxBytes chunks 0 [].

(** [path.split("/").filter(Boolean)] *)
Definition path_parts (path : string) : list string :=
  List.filter (fun s => negb (is_empty s)) (split_on "/" path).

Section wire.
(** [decodeURIComponent], [None] when it throws; [JSON.parse] of the UTF-8 text of
    a body; HMAC-SHA256 of a body under a secret *)
Context (decodeURIComponent : string -> option string) (parse_body : list N -> option value)
  (hmac_sha256 : string -> list N -> list N).

(** [matchMessageRoute(path)] *)
Definition matchMessageRoute (path : string) : option (string * string) :=
  match path_parts path with
  | [p0; p1; p2; p3; p4; p5] =>
      if String.eqb p0 "v1" && String.eqb p1 "agents" && String.eqb p3 "conversations" && String.eqb p5 "messages"
      then match decodeURIComponent p2, decodeURIComponent p4 with
           | Some agentId, Some key => Some (agentId, key)
           | _, _ => None
           end
      else None
  | _ => None
  end.

(** [matchCallbackRoute(path)] *)
Definition matchCallbackRoute (path : string) : option string :=
  match path_parts path with
  | [p0; p1; p2] => if String.eqb p0 "core" && String.eqb p1 "events" then decodeURIComponent p2 else None
  | _ => None
  end.

(** [parsePublicMessage(rawBody)] *)
Definition parsePublicMessage (rawBody : list N) : option string :=
  match parse_body rawBody ≫= as_record with
  | Some body =>
      match prop "message" body with
      | VString message =>
          if negb (length body =? 1)%nat || is_empty (trim message) then None else Some message
      | _ => None
      end
  | None => None
  end.

(** [isTerminalEvent(event)] *)
Definition isTerminalEvent (e : CoreEvent) : bool :=
  String.eqb (ce_type e) "turn.reply" || String.eqb (ce_type e) "turn.error" ||
  String.eqb (ce_type e) "turn.cancelled".

Definition is_str (v : value) : bool := match v with VString _ => true | _ => false end.
Definition is_bool (v : value) : bool := match v with VBool _ => true | _ => false end.
Definition is_array (v : value) : bool := match v with VArray _ => true | _ => false end.
Definition is_nonempty (v : value) : bool := bool_decide (is_Some (nonempty_string v)).

(** [Number.isInteger(v) && v >= 1] *)
Definition is_positive_integer (v : value) : bool :=
  match v with VNumber n => num_is_integer n && num_leb (num_of_Z 1) n | _ => false end.

(** [["active", "idle", "offline"].includes(String(v))]: an array of one value
    prints as that value. *)
Fixpoint is_presence (v : value) : bool :=
  match v with
  | VString s => String.eqb s "active" || String.eqb s "idle" || String.eqb s "offline"
  | VArray [w] => is_presence w
  | _ => false
  end.

(** The [switch] of [parseOutboundEvent]: the fields of each type. *)
Definition event_fields_ok (type : string) (event : list (string * value)) : bool :=
  if String.eqb type "turn.started" then true
  else if String.eqb type "turn.progress" then is_str (prop "message" event)
  else if String.eqb type "turn.delta" then is_nonempty (prop "text" event)
  else if String.eqb type "turn.reply" then
    is_str (prop "text" event) && is_array (prop "attachments" event) &&
    bool_decide (is_Some (as_record (prop "usage" event)))
  else if String.eqb type "presence.changed" then is_presence (prop "presence" event)
  else if String.eqb type "turn.error" then
    is_str (prop "code" event) && is_str (prop "message" event) && is_bool (prop "retryable" event)
  else String.eqb type "turn.cancelled".

(** [parseOutboundEvent(rawBody)] *)
Definition parseOutboundEvent (rawBody : list N) : option CoreEvent :=
  match parse_body rawBody ≫= as_record with
  | Some event =>
      match prop "version" event, prop "type" event, nonempty_string (prop "eventId" event),
            nonempty_string (prop "conversationKey" event), nonempty_string (prop "correlationId" event),
            prop "sequence" event with
      | VString version, VString type, Some eventId, Some key, Some corr, VNumber n =>
          if String.eqb version ADAPTER_API_VERSION && is_positive_integer (VNumber n) &&
             is_str (prop "occurredAt" event) && event_fields_ok type event
          then Some (mkCoreEvent type eventId key corr (num_floor n) event)
          else None
      | _, _, _, _, _, _ => None
      end
  | None => None
  end.

(** ** Secrets *)

(** [Buffer.from(s, "hex")] of an even number of hex digits *)
Fixpoint hex_bytes (s : string) : option (list N) :=
  match s with
  | EmptyString => Some []
  | String a (String b rest) =>
      match radix_digit a, radix_digit b, hex_bytes rest with
      | Some x, Some y, Some bytes => Some (Z.to_N (16 * x + y) :: bytes)
      | _, _, _ => None
      end
  | String _ EmptyString => None
  end.

(** [/^sha256=([0-9a-f]{64})$/i], and its digits as bytes *)
Definition signature_bytes (signature : string) : option (list N) :=
  if String.eqb (to_lower (take_str 7 signature)) SIGNATURE_PREFIX &&
     (String.length (drop_str 7 signature) =? 64)%nat
  then hex_bytes (drop_str 7 signature) else None.

(** [verifySignature(signature, body, secret)] *)
Definition verifySignature (signature : string) (body : list N) (secret : string) : bool :=
  match signature_bytes signature with
  | None => false
  | Some actual =>
      let expected := hmac_sha256 secret body in
      (length actual =? length expected)%nat && bool_decide (actual = expected)
  end.

(** [secretEquals(candidate, expected)] *)
Definition secret_equals (candidate expected : string) : bool :=
  (length (utf8 candidate) =? length (utf8 expected))%nat && bool_decide (utf8 candidate = utf8 expected).

(** [authenticatePublic(req)] *)
Definition authenticatePublic (config : HttpAdapterConfig) (req : HttpRequest) : bool :=
  match apiToken config with
  | None | Some EmptyString => true
  | Some token =>
      match headerValue (rq_authorization req) with
      | Some authorization => starts_with "Bearer " authorization && secret_equals (drop_str 7 authorization) token
      | None => false
      end
  end.

(** ** The environment *)

(** [JSON.parse] with its error, and [new URL(s)]: its protocol, its pathname and
    itself as a string *)
Context (parse_json : string -> result string value) (parse_url : string -> option (string * string * string)).

(** [positiveInteger(name, value, fallback)] *)
Definition positiveInteger (name : string) (v : option string) (fallback : Z) : result string Z :=
  match v with
  | None => Ok fallback
  | Some s =>
      if is_empty (trim s) then Ok fallback
      else
        let parsed := string_to_number s in
        if num_is_safe_integer parsed && num_ltb num_zero parsed then Ok (num_floor parsed)
        else Throw (name +:+ " must be a positive integer")%stdpp
  end.

Definition is_http (protocol : string) : bool := String.eqb protocol "http:" || String.eqb protocol "https:".

(** [absoluteHttpUrl(name, value)] *)
Definition absoluteHttpUrl (name v : string) : result string string :=
  match parse_url v with
  | Some (protocol, _, text) =>
      if is_http protocol then Ok text else Throw (name +:+ " must be an absolute http(s) URL")%stdpp
  | None => Throw (name +:+ " must be an absolute http(s) URL")%stdpp
  end.

(** [s.replace(/\/$/, "")] *)
Definition strip_slash (s : string) : string :=
  if ends_with "/" s then take_str (String.length s - 1) s else s.

(** [value || fallback] of an optional trimmed string *)
Definition trimmed_or (v : option string) (fallback : string) : string :=
  match v with Some s => if is_empty (trim s) then fallback else trim s | None => fallback end.

(** The loop over the required fields of a registration. *)
Fixpoint required_fields (entry : list (string * value)) (fields : list string) : result string unit :=
  match fields with
  | [] => Ok tt
  | field :: fields =>
      match prop field entry with
      | VString s =>
          if is_empty (trim s) then Throw ("OMP_ADAPTERS[0]." +:+ field +:+ " must be a non-empty string")%stdpp
          else required_fields entry fields
      | _ => Throw ("OMP_ADAPTERS[0]." +:+ field +:+ " must be a non-empty string")%stdpp
      end
  end.

Definition string_prop (field : string) (entry : list (string * value)) : string :=
  default EmptyString (as_string (prop field entry)).

(** The checks of the callback URL. *)
Definition check_callback (callbackUrl agentId : string) : result string unit :=
  match parse_url callbackUrl with
  | None => Throw "OMP_ADAPTERS[0].callbackUrl must be an absolute HTTP(S) URL"
  | Some (protocol, pathname, _) =>
      if negb (is_http protocol) then Throw "OMP_ADAPTERS[0].callbackUrl must be an absolute HTTP(S) URL"
      else
        match matchCallbackRoute pathname with
        | None => Throw "OMP_ADAPTERS[0].callbackUrl must target /core/events/<agent-id>"
        | Some callbackAgentId =>
            if String.eqb callbackAgentId agentId then Ok tt
            else Throw ("HTTP callback agent " +:+ quoted callbackAgentId +:+
                        " does not match registration agentId " +:+ quoted agentId)%stdpp
        end
  end.

(** [parseHttpRegistrations(raw, configuredAgentId)] *)
Definition parseHttpRegistrations (raw configuredAgentId : option string) :
    result string (list HttpAgentRegistration) :=
  let text := default EmptyString raw in
  if is_empty (trim text) then Throw "OMP_ADAPTERS is required"
  else
    let agentId := trim (default EmptyString configuredAgentId) in
    if is_empty agentId then Throw "OMP_AGENT_ID is required"
    else
      match parse_json text with
      | Throw e => Throw ("OMP_ADAPTERS is not valid JSON: " +:+ e)%stdpp
      | Ok (VArray [v]) =>
          match as_record v with
          | None => Throw "OMP_ADAPTERS[0] must be an object"
          | Some entry =>
              _ <-! required_fields entry ["adapterId"; "agentId"; "sharedSecret"; "callbackUrl"];
              if negb (String.eqb (string_prop "agentId" entry) agentId) then
                Throw ("OMP_ADAPTERS[0].agentId " +:+ quoted (string_prop "agentId" entry) +:+
                       " does not match OMP_AGENT_ID " +:+ quoted agentId)%stdpp
              else
                _ <-! check_callback (string_prop "callbackUrl" entry) agentId;
                Ok [mkAgent agentId (string_prop "adapterId" entry) (string_prop "sharedSecret" entry)]
          end
      | Ok (VArray _) => Throw "OMP_ADAPTERS must contain exactly one adapter registration"
      | Ok _ => Throw "OMP_ADAPTERS must be an array"
      end.

(** [loadHttpAdapterConfig(env)] *)
Definition loadHttpAdapterConfig (env : string -> option string) : result string HttpAdapterConfig :=
  port <-! positiveInteger "OMP_HTTP_PORT" (env "OMP_HTTP_PORT") 8765;
  coreUrl <-! absoluteHttpUrl "OMP_HTTP_CORE_URL" (trimmed_or (env "OMP_HTTP_CORE_URL") "http://127.0.0.1:8787");
  maxBodyBytes <-! positiveInteger "OMP_HTTP_MAX_BODY_BYTES" (env "OMP_HTTP_MAX_BODY_BYTES") DEFAULT_MAX_BODY_BYTES;
  turnTimeoutMs <-! positiveInteger "OMP_HTTP_TURN_TIMEOUT_MS" (env "OMP_HTTP_TURN_TIMEOUT_MS") DEFAULT_TURN_TIMEOUT_MS;
  agents <-! parseHttpRegistrations (env "OMP_ADAPTERS") (env "OMP_AGENT_ID");
  Ok (mkHttpConfig (trimmed_or (env "OMP_HTTP_HOST") "0.0.0.0") port (strip_slash coreUrl) maxBodyBytes
        turnTimeoutMs
        (match env "OMP_HTTP_API_TOKEN" with Some EmptyString => None | o => o end) agents).
End wire.

(** ** Signatures of the core *)

(** [digest("hex")] of a byte, and of bytes *)
Definition hex_digit (n : N) : ascii := ascii_of_N (if (n <? 10)%N then 48 + n else 87 + n)%N.

Fixpoint hex_print (l : list N) : string :=
  match l with
  | [] => EmptyString
  | b :: l => String (hex_digit (b / 16)%N) (String (hex_digit (b mod 16)%N) (hex_print l))
  end.

Lemma hex_digit_read n : (n < 16)%N -> radix_digit (hex_digit n) = Some (Z.of_N n).
Proof.
  intros Hn. assert (n ∈ List.map N.of_nat (seq 0 16)) as Hin.
  { apply list_elem_of_fmap. exists (N.to_nat n). split; [lia|]. apply elem_of_seq. lia. }
  revert Hin. clear. revert n. apply Forall_forall. vm_compute. by repeat constructor.
Qed.

Lemma hex_bytes_print l : Forall (fun b => b < 256)%N l -> hex_bytes (hex_print l) = Some l.
Proof.
  induction 1 as [|b l Hb Hl IH]; [done|]. cbn [hex_print hex_bytes].
  rewrite !hex_digit_read, IH by (try apply N.Div0.div_lt_upper_bound; try apply N.mod_lt; lia).
  do 2 f_equal. pose proof (N.div_mod b 16). lia.
Qed.

Lemma length_hex_print l : String.length (hex_print l) = (2 * length l)%nat.
Proof. induction l as [|b l IH]; [done|]. cbn. rewrite IH. lia. Qed.

(** The bytes of a signature the core prints. *)
Lemma signature_bytes_print l :
  length l = 32%nat -> Forall (fun b => b < 256)%N l ->
  signature_bytes (SIGNATURE_PREFIX +:+ hex_print l)%stdpp = Some l.
Proof.
  intros Hlen Hl. unfold signature_bytes.
  change (drop_str 7 (SIGNATURE_PREFIX +:+ hex_print l)%stdpp) with (hex_print l).
  change (take_str 7 (SIGNATURE_PREFIX +:+ hex_print l)%stdpp) with SIGNATURE_PREFIX.
  rewrite length_hex_print, Hlen. change (to_lower SIGNATURE_PREFIX) with SIGNATURE_PREFIX.
  rewrite String.eqb_refl. cbn [andb Nat.mul Nat.eqb]. by apply hex_bytes_print.
Qed.

(** What the core signs the adapter that has the secret accepts, and it accepts
    that signature on another body only when the two have one HMAC: HMAC-SHA256 is a
    parameter, of which only the 32 bytes of a digest and their [digest("hex")] are
    assumed. *)
Theorem signature_verifies (hmac_sha256 : string -> list N -> list N) (hmac_sha256_hex : string -> list N -> string)
    (Hhex : forall key body, hmac_sha256_hex key body = hex_print (hmac_sha256 key body))
    (Hlen : forall key body, length (hmac_sha256 key body) = 32%nat)
    (Hbyte : forall key body, Forall (fun b => b < 256)%N (hmac_sha256 key body))
    adapterId entry byId body signature :
  jget adapterId byId = Some entry ->
  signOutbound hmac_sha256_hex adapterId body byId = Ok signature ->
  verifySignature hmac_sha256 signature (utf8 body) (reg_sharedSecret entry) = true /\
  forall received, verifySignature hmac_sha256 signature received (reg_sharedSecret entry) = true <->
    hmac_sha256 (reg_sharedSecret entry) received = hmac_sha256 (reg_sharedSecret entry) (utf8 body).
Proof.
  intros Hreg. unfold signOutbound, require_adapter. rewrite Hreg. cbn. intros [= <-].
  assert (forall received, verifySignature hmac_sha256 (SIGNATURE_PREFIX +:+ hmac_sha256_hex (reg_sharedSecret entry) (utf8 body))%stdpp
      received (reg_sharedSecret entry) = true <->
    hmac_sha256 (reg_sharedSecret entry) received = hmac_sha256 (reg_sharedSecret entry) (utf8 body)) as Hiff.
  { intros received. unfold verifySignature. rewrite Hhex, signature_bytes_print by done.
    rewrite !Hlen, Nat.eqb_refl. cbn [andb]. rewrite bool_decide_eq_true. done. }
  split; [by apply Hiff|exact Hiff].
Qed.

(** With a checksum in place of the HMAC. *)
Definition sample_hmac (key : string) (body : list N) : list N :=
  replicate 31 0%N ++ [(fold_left N.add (utf8 key ++ body) 0 mod 256)%N].

Lemma signature_verifies_witness :
  let registry := [("http", mkRegistration "http" "http://127.0.0.1/core/events/dev" "secret" VNull)] in
  let signature := (SIGNATURE_PREFIX +:+ hex_print (sample_hmac "secret" (utf8 "{}")))%stdpp in
  verifySignature sample_hmac signature (utf8 "{}") "secret" = true /\
  (forall received, verifySignature sample_hmac signature received "secret" = true <->
    sample_hmac "secret" received = sample_hmac "secret" (utf8 "{}")).
Proof.
  apply (signature_verifies sample_hmac (fun key body => hex_print (sample_hmac key body))) with
    (adapterId := "http") (entry := mkRegistration "http" "http://127.0.0.1/core/events/dev" "secret" VNull)
    (byId := [("http", mkRegistration "http" "http://127.0.0.1/core/events/dev" "secret" VNull)]) (body := "{}").
  - done.
  - intros key body. unfold sample_hmac. by rewrite length_app, length_replicate.
  - intros key body. apply Forall_app. split; [by apply Forall_replicate|]. constructor; [|constructor]. by apply N.mod_lt.
  - reflexivity.
  - reflexivity.
Defined.
