(* ===== verification/HttpAdapter.v ===== *)
(** * The HTTP adapter (packages/http-adapter/src/server.ts)

    One class, [HttpAgentAdapter]: a client posts a message, the adapter posts it
    to core, and answers with the terminal event core calls back with, or streams
    the events as they come.

    Objects that are shared and mutated are entries of tables: responses, SSE
    streams, trackers, active turns, timers.  [handleMessage] is cut at its two
    awaits, [postToCore] and the completion of the turn; a [Task] is its suspended
    rest.  Bodies are read before a request is handled: until then a handler only
    looks at the request and at the constant configuration. *)

From S2P Require Import Prelude RecordUpdate Promises JsMap JsString JsValue Contracts Canonical.
From S2P Require Import AdapterRegistry HttpWire.
From stdpp Require Import pretty gmap.
From stdpp Require Import options.
#[local] Open Scope Z_scope.

(** ** Data *)

Definition MAX_CONVERSATION_KEY_LENGTH : Z := 512.
Definition RECENT_EVENT_LIMIT : Z := 1000.
Definition EARLY_EVENT_LIMIT : Z := 256.
Definition EARLY_EVENT_BYTES : Z := 256 * 1024.

Inductive AdapterError : Type :=
| PublicError (status : Z) (message : string)
| OtherError (message : string).

Record SseFrame := mkSse { sse_event : string; sse_data : value; sse_id : option Z }.

(** What a response has sent. *)
Inductive Output : Type :=
| JsonReply (status : Z) (body : value)
| SseHead
| SseWrite (frame : SseFrame)
| SseEnd (frame : SseFrame).

(** What [res.write] does: it has room, its buffer is full, or it throws. *)
Inductive Pipe : Type := pipe_open | pipe_full | pipe_broken.

Record Response := mkResponse {
  headersSent : bool;
  writableEnded : bool;
  destroyed : bool;
  pipe : Pipe;
  output : list Output
}.

Record SseResponse := mkStream {
  sse_res : nat;
  sse_tracker : nat;
  sse_turn : nat;
  sse_closed : bool;
  (** [res.once("close", this.handleClose)] *)
  sse_listening : bool
}.

(** An active turn, with the promise [beginTurn] returned. *)
Record ActiveTurn := mkTurn {
  at_conversationKey : string;
  at_timer : nat;
  lastSequence : Z;
  at_stream : option nat;
  completion : option (result AdapterError CoreEvent)
}.

Record TurnTracker := mkTracker {
  tk_correlationId : string;
  tk_conversationKey : string;
  buffered : list CoreEvent;
  bufferedBytes : Z;
  terminal : option CoreEvent;
  expiryTimer : option nat;
  tk_active : option nat
}.

Inductive TimerAction : Type := TurnTimeout (tracker : nat) | EarlyExpiry (tracker : nat).

Record Timer := mkTimer { tm_due : Z; tm_action : TimerAction; tm_live : bool }.

(** The rest of [handleMessage]. *)
Record Handler := mkHandler {
  hd_res : nat;
  hd_agentId : string;
  hd_conversationKey : string;
  hd_stream : bool;
  hd_startedAt : Z
}.

Inductive Task : Type :=
| AwaitCore (h : Handler)
| AwaitTurn (h : Handler) (correlationId : string) (turn : nat).

(** The request of [postToCore]. *)
Record CorePost := mkPost { post_adapterId : string; post_secret : string; post_body : InboundMessage }.

Inductive CoreOutcome : Type :=
| FetchFailed (message : string)
| BodyFailed (message : string)
| CoreReplied (status : Z) (raw : string).

Record HttpAgentAdapter := mkAdapter {
  responses : list Response;
  streams : list SseResponse;
  turns : list ActiveTurn;
  tracker_heap : list TurnTracker;
  timers : list Timer;
  inFlightConversations : gset (string * string);
  trackers : list (string * nat);
  recentEventIds : gset string;
  recentEventOrder : list string;
  closing : bool;
  listening : bool;
  clock : Z;
  posts : list CorePost;
  tasks : list Task
}.

#[export] Instance response_fields : Fields Response := fun r =>
  mkResponse (headersSent r) (writableEnded r) (destroyed r) (pipe r) (output r).
#[export] Instance stream_fields : Fields SseResponse := fun x =>
  mkStream (sse_res x) (sse_tracker x) (sse_turn x) (sse_closed x) (sse_listening x).
#[export] Instance turn_fields : Fields ActiveTurn := fun t =>
  mkTurn (at_conversationKey t) (at_timer t) (lastSequence t) (at_stream t) (completion t).
#[export] Instance tracker_fields : Fields TurnTracker := fun t =>
  mkTracker (tk_correlationId t) (tk_conversationKey t) (buffered t) (bufferedBytes t) (terminal t)
    (expiryTimer t) (tk_active t).
#[export] Instance adapter_fields : Fields HttpAgentAdapter := fun s =>
  mkAdapter (responses s) (streams s) (turns s) (tracker_heap s) (timers s) (inFlightConversations s)
    (trackers s) (recentEventIds s) (recentEventOrder s) (closing s) (listening s) (clock s) (posts s) (tasks s).

(** ** Small steps *)

Definition add_task (t : Task) (s : HttpAgentAdapter) : HttpAgentAdapter := s <| tasks ::= fun l => l ++ [t] |>.

Definition update_response (r : nat) (f : Response -> Response) (s : HttpAgentAdapter) : HttpAgentAdapter :=
  s <| responses ::= alter f r |>.
Definition update_turn (a : nat) (f : ActiveTurn -> ActiveTurn) (s : HttpAgentAdapter) : HttpAgentAdapter :=
  s <| turns ::= alter f a |>.
Definition update_tracker (t : nat) (f : TurnTracker -> TurnTracker) (s : HttpAgentAdapter) : HttpAgentAdapter :=
  s <| tracker_heap ::= alter f t |>.
Definition update_stream (x : nat) (f : SseResponse -> SseResponse) (s : HttpAgentAdapter) : HttpAgentAdapter :=
  s <| streams ::= alter f x |>.

Definition emit (o : Output) (r : Response) : Response := r <| output ::= fun l => l ++ [o] |>.

(** [sendJson(res, status, body)] *)
Definition sendJson (r : nat) (status : Z) (body : list (string * value)) (s : HttpAgentAdapter) : HttpAgentAdapter :=
  update_response r (fun x =>
    if headersSent x || writableEnded x || destroyed x then x
    else emit (JsonReply status (VObject body)) (x <| headersSent := true |> <| writableEnded := true |>)) s.

Definition send_error (r : nat) (status : Z) (message : string) (s : HttpAgentAdapter) : HttpAgentAdapter :=
  sendJson r status [("error", VString message)] s.

(** Node's [setTimeout]: a delay below 1 or above [TIMEOUT_MAX] becomes 1. *)
Definition TIMEOUT_MAX : Z := 2 ^ 31 - 1.

Definition timer_delay (ms : Z) : Z := if (1 <=? ms) && (ms <=? TIMEOUT_MAX) then ms else 1.

Definition setTimeout (ms : Z) (action : TimerAction) (s : HttpAgentAdapter) : nat * HttpAgentAdapter :=
  (length (timers s), s <| timers ::= fun l => l ++ [mkTimer (clock s + timer_delay ms) action true] |>).

Definition kill_timer (t : Timer) : Timer := mkTimer (tm_due t) (tm_action t) false.

Definition clearTimeout (id : option nat) (s : HttpAgentAdapter) : HttpAgentAdapter :=
  match id with Some i => s <| timers ::= alter kill_timer i |> | None => s end.

(** *** Server-sent events *)

(** The [onDetach] of a stream: its turn forgets it. *)
Definition on_detach (x : nat) (st : SseResponse) (s : HttpAgentAdapter) : HttpAgentAdapter :=
  match tracker_heap s !! sse_tracker st, turns s !! sse_turn st with
  | Some tracker, Some turn =>
      if decide (tk_active tracker = Some (sse_turn st) /\ at_stream turn = Some x)
      then update_turn (sse_turn st) (fun a => a <| at_stream := None |>) s else s
  | _, _ => s
  end.

(** [detach(destroy)] *)
Definition detach (x : nat) (destroy : bool) (s : HttpAgentAdapter) : HttpAgentAdapter :=
  match streams s !! x with
  | None => s
  | Some st =>
      if sse_closed st then s
      else
        let s := update_stream x (fun y => y <| sse_closed := true |> <| sse_listening := false |>) s in
        let s := if destroy then update_response (sse_res st) (fun r => r <| destroyed := true |>) s else s in
        on_detach x st s
  end.

(** [push(frame)] *)
Definition push (x : nat) (frame : SseFrame) (s : HttpAgentAdapter) : HttpAgentAdapter :=
  match streams s !! x with
  | None => s
  | Some st =>
      if sse_closed st then s
      else
        match pipe <$> responses s !! sse_res st with
        | Some pipe_open => update_response (sse_res st) (emit (SseWrite frame)) s
        | Some pipe_full => detach x true (update_response (sse_res st) (emit (SseWrite frame)) s)
        | _ => detach x true s
        end
  end.

(** [finish(frame)] *)
Definition finish (x : nat) (frame : SseFrame) (s : HttpAgentAdapter) : HttpAgentAdapter :=
  match streams s !! x with
  | None => s
  | Some st =>
      if sse_closed st then s
      else
        let s := update_stream x (fun y => y <| sse_closed := true |> <| sse_listening := false |>) s in
        let s := update_response (sse_res st) (fun r =>
                   match pipe r with
                   | pipe_broken => r <| destroyed := true |>
                   | _ => emit (SseEnd frame) (r <| writableEnded := true |>)
                   end) s in
        on_detach x st s
  end.

(** [start(correlationId)] *)
Definition start (x : nat) (correlationId : string) (s : HttpAgentAdapter) : HttpAgentAdapter :=
  match streams s !! x with
  | None => s
  | Some st =>
      if default true (destroyed <$> responses s !! sse_res st) then detach x false s
      else
        let s := update_response (sse_res st) (fun r => emit SseHead (r <| headersSent := true |>)) s in
        let s := update_stream x (fun y => y <| sse_listening := true |>) s in
        push x (mkSse "accepted" (VObject [("correlationId", VString correlationId)]) None) s
  end.

(** The response was closed by the client. *)
Definition client_gone (r : nat) (s : HttpAgentAdapter) : HttpAgentAdapter :=
  let s := update_response r (fun x => x <| destroyed := true |>) s in
  fold_left (fun s x =>
    match streams s !! x with
    | Some st => if decide (sse_res st = r) then if sse_listening st then detach x false s else s else s
    | None => s
    end) (seq 0 (length (streams s))) s.

(** *** Turns *)

Definition event_frame (name : string) (e : CoreEvent) : SseFrame :=
  mkSse name (VObject (ce_value e)) (Some (ce_sequence e)).

Definition error_message (e : AdapterError) : string :=
  match e with PublicError _ m => m | OtherError m => m end.

(** What [completeTurn] and [failTurn] do first: the tracker is over. *)
Definition end_tracker (t : nat) (turn : ActiveTurn) (s : HttpAgentAdapter) : HttpAgentAdapter :=
  match tracker_heap s !! t with
  | None => s
  | Some tracker =>
      let s := clearTimeout (expiryTimer tracker) (clearTimeout (Some (at_timer turn)) s) in
      let s := update_tracker t (fun x =>
                 x <| tk_active := None |> <| buffered := [] |> <| bufferedBytes := 0 |> <| terminal := None |>) s in
      if decide (jget (tk_correlationId tracker) (trackers s) = Some t)
      then s <| trackers ::= jdelete (tk_correlationId tracker) |> else s
  end.

Definition settle_turn (a : nat) (r : result AdapterError CoreEvent) (s : HttpAgentAdapter) : HttpAgentAdapter :=
  update_turn a (fun x => x <| completion ::= settle_first r |>) s.

(** [active.stream = undefined], then its end *)
Definition drop_stream (a : nat) (turn : ActiveTurn) (f : nat -> HttpAgentAdapter -> HttpAgentAdapter)
    (s : HttpAgentAdapter) : HttpAgentAdapter :=
  let s := update_turn a (fun x => x <| at_stream := None |>) s in
  match at_stream turn with Some x => f x s | None => s end.

Definition active_turn (t : nat) (s : HttpAgentAdapter) : option (nat * ActiveTurn) :=
  match tracker_heap s !! t ≫= tk_active with
  | Some a => match turns s !! a with Some turn => Some (a, turn) | None => None end
  | None => None
  end.

(** [completeTurn(tracker, event)] *)
Definition completeTurn (t : nat) (e : CoreEvent) (s : HttpAgentAdapter) : HttpAgentAdapter :=
  match active_turn t s with
  | None => s
  | Some (a, turn) =>
      let name := if String.eqb (ce_type e) "turn.reply" then "completed"
                  else if String.eqb (ce_type e) "turn.cancelled" then "cancelled" else "error" in
      settle_turn a (Ok e)
        (drop_stream a turn (fun x => finish x (event_frame name e)) (end_tracker t turn s))
  end.

(** [failTurn(tracker, error, destroyStream)] *)
Definition failTurn (t : nat) (e : AdapterError) (destroyStream : bool) (s : HttpAgentAdapter) : HttpAgentAdapter :=
  match active_turn t s with
  | None => s
  | Some (a, turn) =>
      settle_turn a (Throw e)
        (drop_stream a turn (fun x =>
             if destroyStream then detach x true
             else finish x (mkSse "error" (VObject [("error", VString (error_message e))]) None))
           (end_tracker t turn s))
  end.

(** [deliverEvent(tracker, event)] *)
Definition deliverEvent (t : nat) (e : CoreEvent) (s : HttpAgentAdapter) : HttpAgentAdapter :=
  match active_turn t s with
  | None => s
  | Some (a, turn) =>
      if negb (String.eqb (ce_conversationKey e) (at_conversationKey turn)) then
        failTurn t (PublicError 502 "core returned a mismatched conversation") false s
      else if ce_sequence e <=? lastSequence turn then
        if isTerminalEvent e then completeTurn t e s else s
      else
        let s := update_turn a (fun x => x <| lastSequence := ce_sequence e |>) s in
        let pushed name := match at_stream turn with Some x => push x (event_frame name e) s | None => s end in
        if String.eqb (ce_type e) "turn.delta" then pushed "delta"
        else if String.eqb (ce_type e) "turn.progress" then pushed "progress"
        else if isTerminalEvent e then completeTurn t e s
        else s
  end.

(** [replay.sort((left, right) => left.sequence - right.sequence)], which is stable *)
Fixpoint insert_by_sequence (e : CoreEvent) (l : list CoreEvent) : list CoreEvent :=
  match l with
  | [] => [e]
  | x :: l' => if ce_sequence x <=? ce_sequence e then x :: insert_by_sequence e l' else e :: l
  end.

Definition sort_by_sequence (l : list CoreEvent) : list CoreEvent :=
  fold_left (fun acc e => insert_by_sequence e acc) l [].

Section adapter.
Context (config : HttpAdapterConfig) (decodeURIComponent : string -> option string)
  (parse_body : list N -> option value) (parse_json : string -> option value)
  (hmac_sha256 : string -> list N -> list N) (randomUUID : nat -> string).

(** [new HttpAgentAdapter(config)] throws on a repeated agent. *)
Definition new_HttpAgentAdapter : result string HttpAgentAdapter :=
  if decide (NoDup (ha_agentId <$> agents config))
  then Ok (mkAdapter [] [] [] [] [] ∅ [] ∅ [] false true 0 [] [])
  else Throw "duplicate HTTP agent registration".

Definition find_agent (agentId : string) : option HttpAgentRegistration :=
  List.find (fun r => String.eqb (ha_agentId r) agentId) (agents config).

(** *** Beginning a turn *)

(** The tracker of a correlation, found or made. *)
Definition tracker_for (correlationId key : string) (s : HttpAgentAdapter) : nat * HttpAgentAdapter :=
  match jget correlationId (trackers s) with
  | Some t => (t, s)
  | None =>
      let t := length (tracker_heap s) in
      (t, s <| tracker_heap ::= fun l => l ++ [mkTracker correlationId key [] 0 None None None] |>
            <| trackers ::= jset correlationId t |>)
  end.

Definition take_replay (t : nat) (s : HttpAgentAdapter) : list CoreEvent :=
  match tracker_heap s !! t with
  | Some tracker => sort_by_sequence (buffered tracker ++ option_list (terminal tracker))
  | None => []
  end.

(** The loop over the replay: it stops when the turn is over. *)
Definition replay_events (t : nat) (events : list CoreEvent) (s : HttpAgentAdapter) : HttpAgentAdapter :=
  fold_left (fun s e => match tracker_heap s !! t ≫= tk_active with
                        | Some _ => deliverEvent t e s
                        | None => s
                        end) events s.

(** The stream of a turn is opened. *)
Definition open_stream (t a r : nat) (correlationId : string) (s : HttpAgentAdapter) : HttpAgentAdapter :=
  let x := length (streams s) in
  let s := s <| streams ::= fun l => l ++ [mkStream r t a false false] |> in
  start x correlationId (update_turn a (fun y => y <| at_stream := Some x |>) s).

(** [beginTurn(correlationId, conversationKey, timeoutMs, streamRequested, res)];
    the promise it returns is the one of the turn. *)
Definition beginTurn (correlationId key : string) (timeoutMs : Z) (stream : bool) (r : nat) (s : HttpAgentAdapter) :
    result AdapterError nat * HttpAgentAdapter :=
  let '(t, s) := tracker_for correlationId key s in
  match tracker_heap s !! t ≫= tk_active with
  | Some _ => (Throw (PublicError 502 "core reused an active correlation"), s)
  | None =>
      let s := clearTimeout (tracker_heap s !! t ≫= expiryTimer) s in
      let s := update_tracker t (fun x => x <| expiryTimer := None |>) s in
      let a := length (turns s) in
      let '(timer, s) := setTimeout timeoutMs (TurnTimeout t) s in
      let s := s <| turns ::= fun l => l ++ [mkTurn key timer 0 None None] |> in
      let s := update_tracker t (fun x => x <| tk_active := Some a |>) s in
      let s := if stream && negb (default true (destroyed <$> responses s !! r))
               then open_stream t a r correlationId s else s in
      let events := take_replay t s in
      let s := update_tracker t (fun x => x <| buffered := [] |> <| bufferedBytes := 0 |> <| terminal := None |>) s in
      (Ok a, replay_events t events s)
  end.

(** *** A message *)

(** The end of [handleMessage]: its [finally]. *)
Definition handler_finally (h : Handler) (s : HttpAgentAdapter) : HttpAgentAdapter :=
  s <| inFlightConversations ::= fun c => c ∖ {[(hd_agentId h, hd_conversationKey h)]} |>.

(** ... and its [catch]. *)
Definition handler_error (h : Handler) (e : AdapterError) (s : HttpAgentAdapter) : HttpAgentAdapter :=
  handler_finally h
    match responses s !! hd_res h with
    | Some r =>
        if destroyed r || headersSent r then s
        else send_error (hd_res h) (match e with PublicError status _ => status | OtherError _ => 502 end)
               (error_message e) s
    | None => s
    end.

(** [postToCore], once the fetch is answered *)
Definition core_result (o : CoreOutcome) : result AdapterError string :=
  match o with
  | FetchFailed m => Throw (PublicError 502 ("core request failed: " +:+ m)%stdpp)
  | BodyFailed m => Throw (OtherError m)
  | CoreReplied status raw =>
      let correlation := match parse_json raw ≫= as_object with
                         | Some accepted => nonempty_string (prop "correlationId" accepted)
                         | None => None
                         end in
      match correlation with
      | Some c =>
          if (status =? 200) || (status =? 202) then Ok c
          else Throw (PublicError 502 ("core returned HTTP " +:+ pretty status +:+
                 (if is_empty raw then "" else ": " +:+ take_str 500 raw))%stdpp)
      | None => Throw (PublicError 502 ("core returned HTTP " +:+ pretty status +:+
                 (if is_empty raw then "" else ": " +:+ take_str 500 raw))%stdpp)
      end
  end.

Definition core_answered (h : Handler) (o : CoreOutcome) (s : HttpAgentAdapter) : HttpAgentAdapter :=
  match core_result o with
  | Throw e => handler_error h e s
  | Ok correlationId =>
      if closing s then handler_error h (PublicError 503 "HTTP adapter is shutting down") s
      else
        let remainingMs := Z.max 1 (turnTimeoutMs config - (clock s - hd_startedAt h)) in
        match beginTurn correlationId (hd_conversationKey h) remainingMs (hd_stream h) (hd_res h) s with
        | (Ok a, s) => add_task (AwaitTurn h correlationId a) s
        | (Throw e, s) => handler_error h e s
        end
  end.

(** The fields every answer of a turn has. *)
Definition turn_fields_json (h : Handler) (correlationId : string) : list (string * value) :=
  [("agentId", VString (hd_agentId h)); ("conversationKey", VString (hd_conversationKey h));
   ("correlationId", VString correlationId)].

Definition turn_answered (h : Handler) (correlationId : string) (r : result AdapterError CoreEvent)
    (s : HttpAgentAdapter) : HttpAgentAdapter :=
  match r with
  | Throw e => handler_error h e s
  | Ok terminal =>
      handler_finally h
        (if hd_stream h then s
         else if String.eqb (ce_type terminal) "turn.error" then
           sendJson (hd_res h) 502 (turn_fields_json h correlationId ++
             [("error", VObject [("code", prop "code" (ce_value terminal));
                                 ("message", prop "message" (ce_value terminal));
                                 ("retryable", prop "retryable" (ce_value terminal))])]) s
         else if String.eqb (ce_type terminal) "turn.cancelled" then
           sendJson (hd_res h) 409 (turn_fields_json h correlationId ++ [("cancelled", VBool true)]) s
         else
           sendJson (hd_res h) 200 (turn_fields_json h correlationId ++
             [("text", prop "text" (ce_value terminal)); ("attachments", prop "attachments" (ce_value terminal));
              ("usage", prop "usage" (ce_value terminal))]) s)
  end.

(** The message [postToCore] posts. *)
Definition public_message (uuid key message : string) : InboundMessage :=
  mkMessage uuid key None (mkSpeaker "http" "HTTP client") message [] true.

(** [handleMessage(route, req, res)], up to its first await *)
Definition handleMessage (agentId key : string) (req : HttpRequest) (r : nat) (s : HttpAgentAdapter) : HttpAgentAdapter :=
  if negb (authenticatePublic config req) then send_error r 401 "invalid bearer token" s
  else
    match find_agent agentId with
    | None => send_error r 404 "unknown agent" s
    | Some registration =>
        let n := Z.of_nat (String.length key) in
        if (n =? 0) || (MAX_CONVERSATION_KEY_LENGTH <? n) then
          send_error r 400 "conversationKey must contain 1-512 characters" s
        else if negb (isJsonContentType (headerValue (rq_contentType req))) then
          send_error r 415 "content-type must be application/json" s
        else
          match readBody (maxBodyBytes config) (rq_body req) with
          | None => send_error r 413 "request body too large" s
          | Some rawBody =>
              match parsePublicMessage parse_body rawBody with
              | None => send_error r 400 "body must be a message" s
              | Some message =>
                  if decide ((agentId, key) ∈ inFlightConversations s) then
                    send_error r 409 "conversation already has an in-flight turn" s
                  else
                    let post := mkPost (ha_adapterId registration) (ha_sharedSecret registration)
                                  (public_message (randomUUID (length (posts s))) key message) in
                    add_task (AwaitCore (mkHandler r agentId key
                                           (acceptsEventStream (headerValue (rq_accept req))) (clock s)))
                      (s <| inFlightConversations ::= fun c => {[(agentId, key)]} ∪ c |>
                         <| posts ::= fun l => l ++ [post] |>)
              end
          end
    end.

(** *** An event of core *)

(** [rememberEvent(eventId)] *)
Definition rememberEvent (id : string) (s : HttpAgentAdapter) : HttpAgentAdapter :=
  let order := recentEventOrder s ++ [id] in
  let ids := {[id]} ∪ recentEventIds s in
  match order with
  | oldest :: rest =>
      if RECENT_EVENT_LIMIT <? Z.of_nat (length order)
      then s <| recentEventIds := ids ∖ {[oldest]} |> <| recentEventOrder := rest |>
      else s <| recentEventIds := ids |> <| recentEventOrder := order |>
  | [] => s
  end.

(** [createEarlyTracker(event)] *)
Definition createEarlyTracker (e : CoreEvent) (s : HttpAgentAdapter) : nat * HttpAgentAdapter :=
  let t := length (tracker_heap s) in
  let '(timer, s) := setTimeout (turnTimeoutMs config) (EarlyExpiry t) s in
  (t, s <| tracker_heap ::= fun l =>
             l ++ [mkTracker (ce_correlationId e) (ce_conversationKey e) [] 0 None (Some timer) None] |>
        <| trackers ::= jset (ce_correlationId e) t |>).

Definition is_turn_event (e : CoreEvent) : bool :=
  String.eqb (ce_type e) "turn.delta" || String.eqb (ce_type e) "turn.progress" || isTerminalEvent e.

(** The event waits in a tracker without a turn. *)
Definition buffer_event (t : nat) (e : CoreEvent) (bytes : Z) (s : HttpAgentAdapter) : HttpAgentAdapter :=
  update_tracker t (fun early =>
    if isTerminalEvent e then
      match terminal early with
      | Some known => if ce_sequence e <? ce_sequence known then early <| terminal := Some e |> else early
      | None => early <| terminal := Some e |>
      end
    else if (EARLY_EVENT_LIMIT <=? Z.of_nat (length (buffered early))) ||
            (EARLY_EVENT_BYTES <? bufferedBytes early + bytes) then early
    else early <| buffered ::= fun l => l ++ [e] |> <| bufferedBytes ::= Z.add bytes |>) s.

(** [acceptEvent(event, bytes)] *)
Definition acceptEvent (e : CoreEvent) (bytes : Z) (s : HttpAgentAdapter) : HttpAgentAdapter :=
  let tracker := jget (ce_correlationId e) (trackers s) in
  match tracker ≫= fun t => tracker_heap s !! t ≫= tk_active with
  | Some _ => match tracker with Some t => deliverEvent t e s | None => s end
  | None =>
      if negb (is_turn_event e) then s
      else
        let '(t, s) := match tracker with Some t => (t, s) | None => createEarlyTracker e s end in
        buffer_event t e bytes s
  end.

(** [handleCoreEvent(agentId, req, res)] *)
Definition handleCoreEvent (agentId : string) (req : HttpRequest) (r : nat) (s : HttpAgentAdapter) : HttpAgentAdapter :=
  match find_agent agentId with
  | None => send_error r 404 "unknown agent" s
  | Some registration =>
      match readBody (maxBodyBytes config) (rq_body req) with
      | None => send_error r 413 "request body too large" s
      | Some rawBody =>
          let verified := match headerValue (rq_signature req) with
                          | Some signature => negb (is_empty signature) &&
                              verifySignature hmac_sha256 signature rawBody (ha_sharedSecret registration)
                          | None => false
                          end in
          if negb verified then send_error r 401 "invalid signature" s
          else if negb (bool_decide (headerValue (rq_contentType req) = Some OUTBOUND_EVENT_MEDIA_TYPE)) then
            send_error r 415 "unsupported content type" s
          else
            match parseOutboundEvent parse_body rawBody with
            | None => send_error r 400 "malformed outbound event" s
            | Some e =>
                if negb (bool_decide (headerValue (rq_eventType req) = Some (ce_type e))) then
                  send_error r 400 "malformed outbound event" s
                else if decide (ce_eventId e ∈ recentEventIds s) then
                  sendJson r 200 [("status", VString "duplicate")] s
                else
                  sendJson r 200 [("status", VString "ok")]
                    (rememberEvent (ce_eventId e) (acceptEvent e (Z.of_nat (length rawBody)) s))
            end
      end
  end.

(** [route(req, res)]; an error of [new URL] is answered by the server. *)
Definition route (req : HttpRequest) (r : nat) (s : HttpAgentAdapter) : HttpAgentAdapter :=
  match rq_pathname req with
  | None => send_error r 500 "internal server error" s
  | Some path =>
      let post := String.eqb (rq_method req) "POST" in
      if String.eqb (rq_method req) "GET" && String.eqb path "/health" then
        sendJson r 200 [("status", VString "ok"); ("service", VString "http-adapter");
          ("agents", VArray (List.map (fun kv => VString kv.1)
             (merge_sort key_le (List.map (fun x => (ha_agentId x, VNull)) (agents config)))))] s
      else
        match (if post then matchCallbackRoute decodeURIComponent path else None) with
        | Some agentId => handleCoreEvent agentId req r s
        | None =>
            match (if post then matchMessageRoute decodeURIComponent path else None) with
            | Some (agentId, key) => handleMessage agentId key req r s
            | None => send_error r 404 "not found" s
            end
        end
  end.

(** *** Shutdown and timers *)

(** [close()] *)
Definition close_tracker (s : HttpAgentAdapter) (kt : string * nat) : HttpAgentAdapter :=
  match tracker_heap s !! kt.2 with
  | Some tracker =>
      match tk_active tracker with
      | Some _ => failTurn kt.2 (PublicError 503 "HTTP adapter is shutting down") true s
      | None => clearTimeout (expiryTimer tracker) s
      end
  | None => s
  end.

Definition close (s : HttpAgentAdapter) : HttpAgentAdapter :=
  if closing s && negb (listening s) then s
  else
    let s := s <| closing := true |> in
    (fold_left close_tracker (trackers s) s)
      <| trackers := [] |> <| inFlightConversations := ∅ |> <| recentEventIds := ∅ |>
      <| recentEventOrder := [] |> <| listening := false |>.

(** A timer fires once it is due. *)
Definition run_timer (action : TimerAction) (s : HttpAgentAdapter) : HttpAgentAdapter :=
  match action with
  | TurnTimeout t => failTurn t (PublicError 504 "agent turn timed out") false s
  | EarlyExpiry t =>
      match tracker_heap s !! t with
      | Some tracker =>
          if decide (jget (tk_correlationId tracker) (trackers s) = Some t /\ tk_active tracker = None)
          then s <| trackers ::= jdelete (tk_correlationId tracker) |> else s
      | None => s
      end
  end.

(** ** The event loop *)

Inductive Op : Type :=
| Request (req : HttpRequest)
| CoreAnswers (task : nat) (o : CoreOutcome)
| Resume (task : nat)
| TimerFires (timer : nat)
| ClientGone (res : nat)
| PipeIs (res : nat) (p : Pipe)
| Tick (now : Z)
| Close.

Definition drop_task (i : nat) (s : HttpAgentAdapter) : HttpAgentAdapter := s <| tasks ::= base.delete i |>.

Definition step (s : HttpAgentAdapter) (op : Op) : HttpAgentAdapter :=
  match op with
  | Request req =>
      route req (length (responses s))
        (s <| responses ::= fun l => l ++ [mkResponse false false false pipe_open []] |>)
  | CoreAnswers i o =>
      match tasks s !! i with Some (AwaitCore h) => core_answered h o (drop_task i s) | _ => s end
  | Resume i =>
      match tasks s !! i with
      | Some (AwaitTurn h correlationId a) =>
          match turns s !! a ≫= completion with
          | Some r => turn_answered h correlationId r (drop_task i s)
          | None => s
          end
      | _ => s
      end
  | TimerFires i =>
      match timers s !! i with
      | Some timer =>
          if tm_live timer && (tm_due timer <=? clock s)
          then run_timer (tm_action timer) (clearTimeout (Some i) s) else s
      | None => s
      end
  | ClientGone r => client_gone r s
  | PipeIs r p => update_response r (fun x => x <| pipe := p |>) s
  | Tick now => s <| clock ::= Z.max now |>
  | Close => close s
  end.
End adapter.
