(* ===== verification/HttpAdapterBooks.v ===== *)
(** * What the HTTP adapter keeps (packages/http-adapter/src/server.ts)

    What the streams leave alone ([frame]), the bounds of the early buffers and of
    the remembered events ([bounded]), and the conversations in flight
    ([exclusive]), both kept by every step.  HttpTurns.v has the turns and their
    timers, HttpStreams.v what the responses have sent. *)

From S2P Require Import Prelude RecordUpdate Promises JsMap JsString JsValue Contracts Canonical.
From S2P Require Import AdapterRegistry HttpWire HttpAdapter.
From stdpp Require Import gmap.
From stdpp Require Import options.
#[local] Open Scope Z_scope.

(** Peels the innermost conditional of the goal. *)
Ltac split_cases := repeat (case_match; simplify_eq/=; try done).

(** ** Tables *)

Lemma Forall_alter_keep {A} (P : A -> Prop) (f : A -> A) i l :
  (forall x, P x -> P (f x)) -> Forall P l -> Forall P (alter f i l).
Proof.
  intros Hf. revert i. induction l as [|x l IH]; intros [|i] Hl; try done;
    apply Forall_cons in Hl as [Hx Hl]; constructor; auto.
Qed.

Lemma fmap_alter_id {A B} (g : A -> B) (f : A -> A) i (l : list A) :
  (forall x, g (f x) = g x) -> g <$> alter f i l = g <$> l.
Proof.
  intros Hf. revert i. induction l as [|x l IH]; intros [|i]; cbn; [done..|by rewrite Hf|].
  f_equal. apply IH.
Qed.

(** ** What the streams do not touch *)

(** A turn without its stream. *)
Definition turn_core (a : ActiveTurn) : string * nat * Z * option (result AdapterError CoreEvent) :=
  (at_conversationKey a, at_timer a, lastSequence a, completion a).

(** All but the responses, the streams, and which turn has which stream. *)
Definition frame (s : HttpAgentAdapter) :=
  (tracker_heap s, trackers s, timers s, recentEventIds s, recentEventOrder s, inFlightConversations s,
   (closing s, listening s, clock s, posts s, tasks s, turn_core <$> turns s)).

Lemma frame_response r f s : frame (update_response r f s) = frame s.
Proof. done. Qed.

Lemma frame_stream x f s : frame (update_stream x f s) = frame s.
Proof. done. Qed.

Lemma frame_turn a f s : (forall y, turn_core (f y) = turn_core y) -> frame (update_turn a f s) = frame s.
Proof. intros Hf. unfold frame, update_turn. cbn. by rewrite fmap_alter_id. Qed.

Lemma frame_sendJson r status body s : frame (sendJson r status body s) = frame s.
Proof. done. Qed.

Lemma frame_send_error r status message s : frame (send_error r status message s) = frame s.
Proof. done. Qed.

Lemma frame_on_detach x st s : frame (on_detach x st s) = frame s.
Proof.
  unfold on_detach. destruct (tracker_heap s !! _); [|done]. destruct (turns s !! _); [|done].
  case_decide; [by apply frame_turn|done].
Qed.

Lemma frame_detach x b s : frame (detach x b s) = frame s.
Proof.
  unfold detach. destruct (streams s !! x) as [st|]; [|done]. destruct (sse_closed st); [done|].
  rewrite frame_on_detach. by destruct b.
Qed.

Lemma frame_push x f s : frame (push x f s) = frame s.
Proof.
  unfold push. destruct (streams s !! x) as [st|]; [|done]. destruct (sse_closed st); [done|].
  destruct (pipe <$> _) as [[]|]; rewrite ?frame_detach; done.
Qed.

Lemma frame_finish x f s : frame (finish x f s) = frame s.
Proof.
  unfold finish. destruct (streams s !! x) as [st|]; [|done]. destruct (sse_closed st); [done|].
  by rewrite frame_on_detach.
Qed.

Lemma frame_start x c s : frame (start x c s) = frame s.
Proof.
  unfold start. destruct (streams s !! x) as [st|]; [|done].
  destruct (default true _); [apply frame_detach|]. by rewrite frame_push.
Qed.

Lemma frame_client_gone r s : frame (client_gone r s) = frame s.
Proof.
  unfold client_gone. set (s0 := update_response r _ s). change (frame s) with (frame s0).
  generalize (seq 0 (length (streams s0))). intros l. generalize s0. induction l as [|x l IH]; intros s1; [done|].
  cbn [fold_left]. rewrite IH. destruct (streams s1 !! x) as [st|]; [|done]. case_decide; [|done].
  destruct (sse_listening st); [apply frame_detach|done].
Qed.

Lemma frame_open_stream t a r c s : frame (open_stream t a r c s) = frame s.
Proof. unfold open_stream. rewrite frame_start. by rewrite frame_turn. Qed.

Lemma frame_drop_stream a turn f s :
  (forall x s, frame (f x s) = frame s) -> frame (drop_stream a turn f s) = frame s.
Proof.
  intros Hf. unfold drop_stream. destruct (at_stream turn); [rewrite Hf|]; by apply frame_turn.
Qed.

(** ** Bounds *)

Section remembered.
(** The event came in a request with this body. *)
Context (carried : CoreEvent -> list N -> Prop).

(** What a tracker buffers is within the limits: its counter is the size of the
    bodies the buffered events came in.  The terminal event it keeps besides came
    in a body, too. *)
Record tracker_ok (k : TurnTracker) : Prop := {
  tk_count : Z.of_nat (length (buffered k)) <= EARLY_EVENT_LIMIT;
  tk_bytes : exists bodies, Forall2 carried (buffered k) bodies /\
    bufferedBytes k = Z.of_nat (length (concat bodies)) /\ bufferedBytes k <= EARLY_EVENT_BYTES;
  tk_terminal : forall e, terminal k = Some e -> exists body, carried e body
}.

Record bounded (s : HttpAgentAdapter) : Prop := {
  bo_trackers : Forall tracker_ok (tracker_heap s);
  bo_recent : NoDup (recentEventOrder s);
  bo_limit : Z.of_nat (length (recentEventOrder s)) <= RECENT_EVENT_LIMIT;
  bo_ids : forall id, id ∈ recentEventIds s <-> id ∈ recentEventOrder s
}.

Lemma bounded_frame s s' : frame s' = frame s -> bounded s -> bounded s'.
Proof. intros [= Hh _ _ Hi Ho _ _ _ _ _ _] [H1 H2 H3 H4]. split; congruence || (rewrite ?Hh, ?Hi, ?Ho; done). Qed.

Lemma bounded_heap s s' :
  recentEventIds s' = recentEventIds s -> recentEventOrder s' = recentEventOrder s ->
  Forall tracker_ok (tracker_heap s') -> bounded s -> bounded s'.
Proof. intros Hi Ho Hf [H1 H2 H3 H4]. split; rewrite ?Hi, ?Ho; done. Qed.

Lemma bounded_update t f s :
  (forall k, tracker_ok k -> tracker_ok (f k)) -> bounded s -> bounded (update_tracker t f s).
Proof. intros Hf Hs. apply (bounded_heap s); try done. by apply Forall_alter_keep; [|apply Hs]. Qed.

Lemma tracker_ok_empty k : buffered k = [] -> bufferedBytes k = 0 -> terminal k = None -> tracker_ok k.
Proof.
  intros Hb Hn Ht. split; rewrite ?Hb, ?Hn, ?Ht.
  - unfold EARLY_EVENT_LIMIT. cbn. lia.
  - exists []. split; [constructor|]. unfold EARLY_EVENT_BYTES. cbn. lia.
  - done.
Qed.

Lemma tracker_ok_reset k : tracker_ok (k <| buffered := [] |> <| bufferedBytes := 0 |> <| terminal := None |>).
Proof. by apply tracker_ok_empty. Qed.

Lemma bounded_clear id s : bounded s -> bounded (clearTimeout id s).
Proof. intros Hs. destruct id; [|done]. by apply (bounded_heap s); [..|apply Hs|]. Qed.

Lemma bounded_trackers f s : bounded s -> bounded (s <| trackers ::= f |>).
Proof. intros [H1 H2 H3 H4]. by split. Qed.

Lemma bounded_end t turn s : bounded s -> bounded (end_tracker t turn s).
Proof.
  intros Hs. unfold end_tracker. destruct (tracker_heap s !! t) as [k|]; [|done].
  assert (bounded (update_tracker t (fun x => x <| tk_active := None |> <| buffered := [] |>
    <| bufferedBytes := 0 |> <| terminal := None |>)
    (clearTimeout (expiryTimer k) (clearTimeout (Some (at_timer turn)) s)))) as H.
  { apply bounded_update; [intros x _; apply tracker_ok_reset|]. by apply bounded_clear, bounded_clear. }
  case_decide; [by apply bounded_trackers|done].
Qed.

Lemma bounded_turn a f s : bounded s -> bounded (update_turn a f s).
Proof. intros Hs. by apply (bounded_heap s); [..|apply Hs|]. Qed.

Lemma bounded_drop a turn f s :
  (forall x s, frame (f x s) = frame s) -> bounded s -> bounded (drop_stream a turn f s).
Proof. intros Hf. apply bounded_frame. by apply frame_drop_stream. Qed.

Lemma bounded_complete t e s : bounded s -> bounded (completeTurn t e s).
Proof.
  intros Hs. unfold completeTurn. destruct (active_turn t s) as [[a turn]|]; [|done].
  apply bounded_turn, bounded_drop; [intros; apply frame_finish|]. by apply bounded_end.
Qed.

Lemma bounded_fail t e b s : bounded s -> bounded (failTurn t e b s).
Proof.
  intros Hs. unfold failTurn. destruct (active_turn t s) as [[a turn]|]; [|done].
  apply bounded_turn, bounded_drop; [intros; destruct b; [apply frame_detach|apply frame_finish]|].
  by apply bounded_end.
Qed.

Lemma bounded_deliver t e s : bounded s -> bounded (deliverEvent t e s).
Proof.
  intros Hs. unfold deliverEvent. destruct (active_turn t s) as [[a turn]|]; [|done].
  destruct (negb _); [by apply bounded_fail|]. destruct (ce_sequence e <=? _).
  { destruct (isTerminalEvent e); [by apply bounded_complete|done]. }
  set (s1 := update_turn a _ s). assert (bounded s1) as Hs1 by by apply bounded_turn.
  assert (forall name, bounded (match at_stream turn with Some x => push x (event_frame name e) s1 | None => s1 end)) as Hp.
  { intros name. destruct (at_stream turn); [|done]. eapply bounded_frame; [apply frame_push|done]. }
  destruct (String.eqb _ "turn.delta"); [apply Hp|]. destruct (String.eqb _ "turn.progress"); [apply Hp|].
  destruct (isTerminalEvent e); [by apply bounded_complete|done].
Qed.

Lemma bounded_replay t es s : bounded s -> bounded (replay_events t es s).
Proof.
  revert s. induction es as [|e es IH]; intros s Hs; [done|]. apply IH.
  destruct (tracker_heap s !! t ≫= tk_active); [by apply bounded_deliver|done].
Qed.

Lemma bounded_new_tracker k s : tracker_ok k -> bounded s ->
  bounded (s <| tracker_heap ::= fun l => l ++ [k] |>).
Proof.
  intros Hk Hs. apply (bounded_heap s); try done. apply Forall_app. split; [apply Hs|by constructor].
Qed.

Lemma tracker_ok_new c k e o : tracker_ok (mkTracker c k [] 0 None e o).
Proof. by apply tracker_ok_empty. Qed.

Lemma bounded_buffer t e body s :
  carried e body -> bounded s -> bounded (buffer_event t e (Z.of_nat (length body)) s).
Proof.
  intros He. apply bounded_update. intros k Hk. pose proof Hk as [Hc (bodies & Hall & Hbytes & Hb) Ht].
  assert (tracker_ok (k <| terminal := Some e |>)) as Hterm.
  { split; cbn; [done|by exists bodies|]. intros x [= <-]. by exists body. }
  destruct (isTerminalEvent e).
  - destruct (terminal k); [destruct (_ <? _)|]; done.
  - destruct (_ || _) eqn:Hfull; [done|]. bools. split; cbn; [rewrite length_app; cbn; lia| |done].
    exists (bodies ++ [body]). split; [by apply Forall2_app; [|constructor]|].
    rewrite concat_app, length_app. cbn. rewrite app_nil_r. lia.
Qed.

Lemma bounded_remember id s : id ∉ recentEventIds s -> bounded s -> bounded (rememberEvent id s).
Proof.
  intros Hid [H1 H2 H3 H4]. unfold rememberEvent.
  assert (NoDup (recentEventOrder s ++ [id])) as Hnd.
  { apply NoDup_app. split_and!; [done| |apply NoDup_singleton]. intros x Hx ->%list_elem_of_singleton. by rewrite H4 in Hid. }
  assert (forall x, x ∈ {[id]} ∪ recentEventIds s <-> x ∈ recentEventOrder s ++ [id]) as Hids.
  { intros x. rewrite elem_of_union, elem_of_singleton, H4, elem_of_app, list_elem_of_singleton. naive_solver. }
  assert (Z.of_nat (length (recentEventOrder s ++ [id])) <= RECENT_EVENT_LIMIT + 1) as Hlen
    by (rewrite length_app; cbn; lia).
  destruct (recentEventOrder s ++ [id]) as [|oldest rest] eqn:Ho; [by destruct (recentEventOrder s)|].
  destruct (Z.ltb_spec RECENT_EVENT_LIMIT (Z.of_nat (length (oldest :: rest)))).
  - apply NoDup_cons in Hnd as [Hold Hnd]. split; cbn in *; [done|done|lia|].
    intros x. rewrite elem_of_difference, elem_of_singleton, Hids, elem_of_cons. naive_solver.
  - by split; cbn in *.
Qed.

Lemma bounded_other s s' :
  tracker_heap s' = tracker_heap s -> recentEventIds s' = recentEventIds s ->
  recentEventOrder s' = recentEventOrder s -> bounded s -> bounded s'.
Proof. intros Hh Hi Ho [H1 H2 H3 H4]. split; rewrite ?Hh, ?Hi, ?Ho; done. Qed.
End remembered.

#[global] Arguments bounded_other {carried} s s'.

(** ** What a turn leaves alone *)

(** What only handlers and the shutdown change. *)
Definition ledger (s : HttpAgentAdapter) :=
  (recentEventIds s, recentEventOrder s, inFlightConversations s, tasks s,
   (closing s, listening s, clock s, posts s)).

Lemma ledger_ids s s' : ledger s' = ledger s -> recentEventIds s' = recentEventIds s.
Proof. by intros [= ?]. Qed.

Lemma ledger_tasks s s' : ledger s' = ledger s -> tasks s' = tasks s.
Proof. by intros [= _ _ _ ? _]. Qed.

Lemma ledger_frame s s' : frame s' = frame s -> ledger s' = ledger s.
Proof. unfold ledger. by intros [= _ _ _ -> -> -> -> -> -> -> -> _]. Qed.

Lemma ledger_drop a turn f s : (forall x s, frame (f x s) = frame s) -> ledger (drop_stream a turn f s) = ledger s.
Proof. intros Hf. by apply ledger_frame, frame_drop_stream. Qed.

Lemma ledger_clear id s : ledger (clearTimeout id s) = ledger s.
Proof. by destruct id. Qed.

Lemma ledger_end t turn s : ledger (end_tracker t turn s) = ledger s.
Proof.
  unfold end_tracker. destruct (tracker_heap s !! t) as [k|]; [|done].
  transitivity (ledger (clearTimeout (expiryTimer k) (clearTimeout (Some (at_timer turn)) s)));
    [by case_decide|by rewrite !ledger_clear].
Qed.

Lemma ledger_complete t e s : ledger (completeTurn t e s) = ledger s.
Proof.
  unfold completeTurn. destruct (active_turn t s) as [[a turn]|]; [|done].
  transitivity (ledger (end_tracker t turn s)); [|apply ledger_end].
  apply (ledger_drop a). intros. apply frame_finish.
Qed.

Lemma ledger_fail t e b s : ledger (failTurn t e b s) = ledger s.
Proof.
  unfold failTurn. destruct (active_turn t s) as [[a turn]|]; [|done].
  transitivity (ledger (end_tracker t turn s)); [|apply ledger_end].
  apply (ledger_drop a). intros. destruct b; [apply frame_detach|apply frame_finish].
Qed.

Lemma ledger_deliver t e s : ledger (deliverEvent t e s) = ledger s.
Proof.
  unfold deliverEvent. destruct (active_turn t s) as [[a turn]|]; [|done].
  destruct (negb _); [apply ledger_fail|]. destruct (ce_sequence e <=? _).
  { destruct (isTerminalEvent e); [apply ledger_complete|done]. }
  set (s1 := update_turn a _ s). change (ledger s) with (ledger s1).
  assert (forall name, ledger (match at_stream turn with Some x => push x (event_frame name e) s1 | None => s1 end) =
    ledger s1) as Hp.
  { intros name. destruct (at_stream turn); [|done]. apply ledger_frame, frame_push. }
  destruct (String.eqb _ "turn.delta"); [apply Hp|]. destruct (String.eqb _ "turn.progress"); [apply Hp|].
  destruct (isTerminalEvent e); [apply ledger_complete|done].
Qed.

Lemma ledger_replay t es s : ledger (replay_events t es s) = ledger s.
Proof.
  revert s. induction es as [|e es IH]; intros s; [done|]. unfold replay_events in *. cbn [fold_left].
  rewrite IH. destruct (tracker_heap s !! t ≫= tk_active); [apply ledger_deliver|done].
Qed.

Lemma ledger_update t f s : ledger (update_tracker t f s) = ledger s.
Proof. done. Qed.

Lemma ledger_tracker_for c key s : ledger (tracker_for c key s).2 = ledger s.
Proof. unfold tracker_for. by destruct (jget c (trackers s)). Qed.

Lemma ledger_begin c key ms stream r s : ledger (beginTurn c key ms stream r s).2 = ledger s.
Proof.
  unfold beginTurn. pose proof (ledger_tracker_for c key s) as Hs1.
  destruct (tracker_for c key s) as [t s1]. cbn [snd] in Hs1. rewrite <- Hs1.
  destruct (tracker_heap s1 !! t ≫= tk_active); [done|]. cbn [snd setTimeout].
  rewrite ledger_replay, ledger_update.
  match goal with |- ledger (if ?b then _ else ?s2) = _ => transitivity (ledger s2); [destruct b; [|done]|] end.
  - apply ledger_frame, frame_open_stream.
  - rewrite ledger_update. transitivity (ledger (clearTimeout (tracker_heap s1 !! t ≫= expiryTimer) s1));
      [done|apply ledger_clear].
Qed.

Lemma ledger_accept config e bytes s : ledger (acceptEvent config e bytes s) = ledger s.
Proof.
  unfold acceptEvent. destruct (_ ≫= _); [destruct (jget _ _); [apply ledger_deliver|done]|].
  destruct (negb _); [done|]. by destruct (jget _ _).
Qed.

Lemma bounded_close_tracker carried s kt : bounded carried s -> bounded carried (close_tracker s kt).
Proof.
  intros Hs. unfold close_tracker. destruct (tracker_heap s !! kt.2) as [k|]; [|done].
  destruct (tk_active k); [by apply bounded_fail|by apply bounded_clear].
Qed.

Lemma bounded_close carried s : bounded carried s -> bounded carried (close s).
Proof.
  intros Hs. unfold close. destruct (_ && _); [done|].
  set (s1 := s <| closing := true |>). assert (bounded carried s1) as Hs1 by by apply (bounded_other s).
  clearbody s1. assert (forall l s, bounded carried s -> bounded carried (fold_left close_tracker l s)) as Hfold.
  { intros l. induction l as [|kt l IH]; intros s2 Hs2; [done|]. apply IH. by apply bounded_close_tracker. }
  destruct (Hfold (trackers s1) s1 Hs1) as [H1 _ _ _].
  split; cbn; [done|constructor|unfold RECENT_EVENT_LIMIT; lia|set_solver].
Qed.

(** ** Conversations in flight *)

Definition task_handler (t : Task) : Handler := match t with AwaitCore h => h | AwaitTurn h _ _ => h end.
Definition conversation (h : Handler) : string * string := (hd_agentId h, hd_conversationKey h).

(** Until the shutdown, [inFlightConversations] holds [running] and those of the
    suspended handlers, each once. *)
Definition holds_conversations (running : list (string * string)) (s : HttpAgentAdapter) : Prop :=
  closing s = false ->
  NoDup (running ++ (conversation ∘ task_handler <$> tasks s)) /\
  forall c, c ∈ inFlightConversations s <-> c ∈ running ++ (conversation ∘ task_handler <$> tasks s).

Definition exclusive : HttpAgentAdapter -> Prop := holds_conversations [].

Lemma exclusive_ledger l s s' : ledger s' = ledger s -> holds_conversations l s -> holds_conversations l s'.
Proof. unfold holds_conversations. by intros [= _ _ -> -> -> _ _ _]. Qed.

Lemma exclusive_drop i t s :
  tasks s !! i = Some t -> exclusive s -> holds_conversations [conversation (task_handler t)] (drop_task i s).
Proof.
  intros Ht Hs Hc. destruct (Hs Hc) as [Hnd Hin]. cbn in *.
  rewrite (delete_Permutation _ _ _ Ht) in Hnd. split; [done|]. intros c.
  rewrite Hin. by rewrite (delete_Permutation _ _ _ Ht) at 1.
Qed.

Lemma exclusive_finally h s : holds_conversations [conversation h] s -> exclusive (handler_finally h s).
Proof.
  intros Hs Hc. destruct (Hs Hc) as [Hnd Hin]. cbn in *. apply NoDup_cons in Hnd as [Hn Hnd]. split; [done|].
  intros c. rewrite elem_of_difference, elem_of_singleton, Hin, elem_of_cons. unfold conversation in *. naive_solver.
Qed.

Lemma exclusive_add h t s :
  task_handler t = h -> holds_conversations [conversation h] s -> exclusive (add_task t s).
Proof.
  intros <- Hs Hc. destruct (Hs Hc) as [Hnd Hin]. cbn in *. rewrite fmap_app. cbn.
  rewrite <- Permutation_cons_append. split; [done|]. intros c. rewrite Hin.
  by rewrite <- Permutation_cons_append.
Qed.

Lemma ledger_send_error r status message s : ledger (send_error r status message s) = ledger s.
Proof. done. Qed.

Lemma exclusive_error h e s : holds_conversations [conversation h] s -> exclusive (handler_error h e s).
Proof.
  intros Hs. apply exclusive_finally. by repeat case_match.
Qed.

Lemma read_chunks_length max chunks total acc body :
  total = Z.of_nat (length acc) -> total <= max ->
  read_chunks max chunks total acc = Some body -> Z.of_nat (length body) <= max.
Proof.
  revert total acc. induction chunks as [|c chunks IH]; intros total acc Ht Hle; cbn [read_chunks].
  - intros [= <-]. lia.
  - destruct (Z.ltb_spec max (total + Z.of_nat (length c))); [done|]. apply IH; [|lia].
    rewrite length_app. lia.
Qed.

Lemma readBody_length max chunks body :
  readBody max chunks = Some body -> Z.of_nat (length body) <= Z.max 0 max.
Proof.
  unfold readBody. intros Hb. destruct chunks as [|c chunks]; [injection Hb as <-; cbn; lia|].
  destruct (Z.le_gt_cases 0 max); [apply read_chunks_length in Hb; cbn; lia|].
  cbn [read_chunks] in Hb. destruct (Z.ltb_spec max (0 + Z.of_nat (length c))); [done|lia].
Qed.

Section bounds.
Context (config : HttpAdapterConfig) (decodeURIComponent : string -> option string)
  (parse_body : list N -> option value) (parse_json : string -> option value)
  (hmac_sha256 : string -> list N -> list N) (randomUUID : nat -> string).

(** The request of an event: its body parses to it, and is within the limit. *)
Definition carried (e : CoreEvent) (body : list N) : Prop :=
  parseOutboundEvent parse_body body = Some e /\ Z.of_nat (length body) <= Z.max 0 (maxBodyBytes config).

Lemma bounded_tracker_for c key s : bounded carried s -> bounded carried (tracker_for c key s).2.
Proof.
  intros Hs. unfold tracker_for. destruct (jget c (trackers s)); [done|].
  apply bounded_trackers, bounded_new_tracker; [apply tracker_ok_new|done].
Qed.

Lemma bounded_begin c key ms stream r s : bounded carried s -> bounded carried (beginTurn c key ms stream r s).2.
Proof.
  intros Hs. unfold beginTurn. destruct (tracker_for c key s) as [t s1] eqn:Ht.
  pose proof (bounded_tracker_for c key s Hs) as Hs1. rewrite Ht in Hs1. cbn in Hs1.
  destruct (tracker_heap s1 !! t ≫= tk_active); [done|]. cbn.
  apply bounded_replay, bounded_update; [intros k _; apply tracker_ok_reset|].
  match goal with |- bounded carried (if ?b then open_stream _ _ _ _ ?s2 else _) => assert (bounded carried s2) as Hs2 end.
  { apply bounded_update; [by intros k [? ? ?]; split|]. eapply bounded_other; [..|apply bounded_update, bounded_clear, Hs1];
      first [done|by intros k [? ? ?]; split]. }
  destruct (_ && _); [|done]. eapply bounded_frame; [apply frame_open_stream|done].
Qed.

Lemma bounded_handler_error h e s : bounded carried s -> bounded carried (handler_error h e s).
Proof.
  intros Hs. unfold handler_error. destruct (responses s !! hd_res h); [destruct (_ || _)|]; by apply (bounded_other s).
Qed.

Lemma bounded_core_answered h o s : bounded carried s -> bounded carried (core_answered config parse_json h o s).
Proof.
  intros Hs. unfold core_answered. destruct (core_result parse_json o) as [c|e]; [|by apply bounded_handler_error].
  destruct (closing s); [by apply bounded_handler_error|].
  match goal with |- context [beginTurn c ?key ?ms ?st ?r s] => pose proof (bounded_begin c key ms st r s Hs) as Hb end.
  destruct (beginTurn _ _ _ _ _ s) as [[a|e] s1]; cbn in Hb; [by apply (bounded_other s1)|by apply bounded_handler_error].
Qed.

Lemma bounded_turn_answered h c r s : bounded carried s -> bounded carried (turn_answered h c r s).
Proof.
  intros Hs. destruct r as [e|e]; [|by apply bounded_handler_error]. cbn.
  destruct (hd_stream h); [by apply (bounded_other s)|]. repeat case_match; by apply (bounded_other s).
Qed.

Lemma bounded_handle_message agentId key req r s :
  bounded carried s -> bounded carried (handleMessage config parse_body randomUUID agentId key req r s).
Proof. intros Hs. unfold handleMessage. repeat case_match; by apply (bounded_other s). Qed.

Lemma bounded_early e s : bounded carried s -> bounded carried (createEarlyTracker config e s).2.
Proof.
  intros Hs. unfold createEarlyTracker, setTimeout. apply bounded_trackers, bounded_new_tracker; [apply tracker_ok_new|].
  by apply (bounded_other s).
Qed.

Lemma bounded_accept e body s :
  carried e body -> bounded carried s -> bounded carried (acceptEvent config e (Z.of_nat (length body)) s).
Proof.
  intros Hbody Hs. unfold acceptEvent. destruct (_ ≫= _).
  - destruct (jget _ _); [by apply bounded_deliver|done].
  - destruct (negb _); [done|]. destruct (jget _ _) as [t|]; [by apply bounded_buffer|].
    pose proof (bounded_early e s Hs) as Hc. destruct (createEarlyTracker config e s). by apply bounded_buffer.
Qed.

Lemma bounded_core_event agentId req r s :
  bounded carried s -> bounded carried (handleCoreEvent config parse_body hmac_sha256 agentId req r s).
Proof.
  intros Hs. unfold handleCoreEvent. repeat case_match; try done; try by apply (bounded_other s).
  eapply bounded_frame; [apply frame_sendJson|].
  apply bounded_remember; [|apply bounded_accept; [split; [done|by eapply readBody_length]|done]].
  rewrite (ledger_ids s); [done|apply ledger_accept].
Qed.

Lemma bounded_step s op :
  bounded carried s -> bounded carried (step config decodeURIComponent parse_body parse_json hmac_sha256 randomUUID s op).
Proof.
  intros Hs. destruct op as [req|i o|i|i|r|r p|now|]; cbn [step].
  - unfold route. repeat case_match; try (by apply (bounded_other s));
      [apply bounded_core_event|apply bounded_handle_message]; by apply (bounded_other s).
  - repeat case_match; try done. apply bounded_core_answered. by apply (bounded_other s).
  - repeat case_match; try done. apply bounded_turn_answered. by apply (bounded_other s).
  - destruct (timers s !! i) as [tm|]; [|done]. destruct (_ && _); [|done].
    assert (bounded carried (clearTimeout (Some i) s)) as H by by apply bounded_clear.
    destruct (tm_action tm); cbn [run_timer]; [by apply bounded_fail|].
    destruct (tracker_heap _ !! _); [|done]. case_decide; [by apply bounded_trackers|done].
  - eapply bounded_frame; [apply frame_client_gone|done].
  - by apply (bounded_other s).
  - by apply (bounded_other s).
  - by apply bounded_close.
Qed.

Lemma exclusive_core_answered h o s :
  holds_conversations [conversation h] s -> exclusive (core_answered config parse_json h o s).
Proof.
  intros Hs. unfold core_answered. destruct (core_result parse_json o) as [c|e]; [|by apply exclusive_error].
  destruct (closing s); [by apply exclusive_error|].
  match goal with |- context [beginTurn c ?key ?ms ?st ?r s] => pose proof (ledger_begin c key ms st r s) as Hb end.
  destruct (beginTurn _ _ _ _ _ s) as [[a|e] s1]; cbn in Hb;
    [apply (exclusive_add h); [done|]|apply exclusive_error]; by apply (exclusive_ledger _ s).
Qed.

Lemma exclusive_turn_answered h c r s :
  holds_conversations [conversation h] s -> exclusive (turn_answered h c r s).
Proof.
  intros Hs. destruct r as [e|e]; [|by apply exclusive_error]. apply exclusive_finally.
  repeat case_match; by apply (exclusive_ledger _ s).
Qed.

Lemma exclusive_handle_message agentId key req r s :
  exclusive s -> exclusive (handleMessage config parse_body randomUUID agentId key req r s).
Proof.
  intros Hs. unfold handleMessage. repeat case_match; try (by apply (exclusive_ledger _ s)).
  eapply exclusive_add; [done|]. intros Hc. destruct (Hs Hc) as [Hnd Hin]. cbn in *. split.
  - apply NoDup_cons. split; [|done]. by rewrite <- Hin.
  - intros c. rewrite elem_of_union, elem_of_singleton, Hin, elem_of_cons. done.
Qed.

Lemma exclusive_core_event agentId req r s :
  exclusive s -> exclusive (handleCoreEvent config parse_body hmac_sha256 agentId req r s).
Proof.
  intros Hs. unfold handleCoreEvent. repeat case_match; try (by apply (exclusive_ledger _ s)).
  match goal with |- exclusive (sendJson _ _ _ (rememberEvent ?id ?s1)) =>
    apply (exclusive_ledger _ (rememberEvent id s1)); [done|]; assert (exclusive s1) as H' end.
  { eapply exclusive_ledger; [apply ledger_accept|done]. }
  unfold rememberEvent. repeat case_match; done.
Qed.

Lemma exclusive_step s op :
  exclusive s -> exclusive (step config decodeURIComponent parse_body parse_json hmac_sha256 randomUUID s op).
Proof.
  intros Hs. destruct op as [req|i o|i|i|r|r p|now|]; cbn [step].
  - unfold route. repeat case_match; try done; [apply exclusive_core_event|apply exclusive_handle_message]; done.
  - destruct (tasks s !! i) as [[h|]|] eqn:Hi; try done. apply exclusive_core_answered.
    exact (exclusive_drop _ _ _ Hi Hs).
  - destruct (tasks s !! i) as [[|h c a]|] eqn:Hi; try done. destruct (_ ≫= _); [|done].
    apply exclusive_turn_answered. exact (exclusive_drop _ _ _ Hi Hs).
  - destruct (timers s !! i) as [tm|]; [|done]. destruct (_ && _); [|done].
    destruct (tm_action tm); cbn [run_timer].
    + apply (exclusive_ledger _ s); [|done]. rewrite ledger_fail. apply ledger_clear.
    + apply (exclusive_ledger _ s); [|done]. by repeat case_match.
  - apply (exclusive_ledger _ s); [|done]. apply ledger_frame, frame_client_gone.
  - done.
  - done.
  - unfold close. destruct (_ && _) eqn:Hcl; [done|]. unfold exclusive, holds_conversations. cbn.
    intros Hc. exfalso. enough (forall l s, closing s = true -> closing (fold_left close_tracker l s) = true) as H
      by (rewrite H in Hc; done).
    intros l. induction l as [|kt l IH]; intros s2 Hs2; [done|]. apply IH. unfold close_tracker.
    repeat case_match; try done; [|by destruct (expiryTimer _)].
    by pose proof (ledger_fail kt.2 (PublicError 503 "HTTP adapter is shutting down") true s2) as [= _ _ _ _ -> _ _ _].
Qed.

(** ** Reachable states *)

Inductive reachable : HttpAgentAdapter -> Prop :=
| reach_new s : new_HttpAgentAdapter config = Ok s -> reachable s
| reach_step s op : reachable s ->
    reachable (step config decodeURIComponent parse_body parse_json hmac_sha256 randomUUID s op).

Lemma new_adapter s : new_HttpAgentAdapter config = Ok s ->
  s = mkAdapter [] [] [] [] [] ∅ [] ∅ [] false true 0 [] [].
Proof. unfold new_HttpAgentAdapter. case_decide; congruence. Qed.

Lemma reachable_bounded s : reachable s -> bounded carried s.
Proof.
  induction 1 as [s Hs|]; [|by apply bounded_step]. apply new_adapter in Hs as ->.
  split; cbn; [done|constructor|unfold RECENT_EVENT_LIMIT; lia|set_solver].
Qed.
Lemma reachable_exclusive s : reachable s -> exclusive s.
Proof.
  induction 1 as [s Hs|]; [|by apply exclusive_step]. apply new_adapter in Hs as ->.
  intros _. split; cbn; [constructor|set_solver].
Qed.
(** C38: Whatever core sends, a tracker buffers at most 256 events for a turn that
    has not begun, and the bodies they came in are at most 256 KiB together; the
    one terminal event it keeps besides came in a body of at most [maxBodyBytes].
    At most the last 1,000 event ids are remembered, the set and the list of them
    the same. *)
Theorem buffers_bounded s : reachable s ->
  (forall t k, tracker_heap s !! t = Some k ->
    Z.of_nat (length (buffered k)) <= EARLY_EVENT_LIMIT /\
    (exists bodies, Forall2 carried (buffered k) bodies /\
       Z.of_nat (length (concat bodies)) <= EARLY_EVENT_BYTES) /\
    (forall e, terminal k = Some e -> exists body, carried e body)) /\
  Z.of_nat (length (recentEventOrder s)) <= RECENT_EVENT_LIMIT /\ NoDup (recentEventOrder s) /\
  forall id, id ∈ recentEventIds s <-> id ∈ recentEventOrder s.
Proof.
  intros [H1 H2 H3 H4]%reachable_bounded. split_and!; try done. intros t k Hk.
  eapply Forall_lookup_1 in H1 as [Hc (bodies & Hall & Hbytes & Hb) Ht]; [|exact Hk].
  rewrite Hbytes in Hb. eauto.
Qed.

(** C37: Until the shutdown, two suspended handlers are never of one conversation. *)
Theorem one_turn_per_conversation s i j t1 t2 :
  reachable s -> closing s = false ->
  tasks s !! i = Some t1 -> tasks s !! j = Some t2 ->
  conversation (task_handler t1) = conversation (task_handler t2) -> i = j.
Proof.
  intros Hs Hc Hi Hj Heq. destruct (reachable_exclusive s Hs Hc) as [Hnd _]. cbn in Hnd.
  eapply (NoDup_lookup _ i j (conversation (task_handler t1)) Hnd); rewrite list_lookup_fmap; [by rewrite Hi|].
  rewrite Hj. cbn. by rewrite <- Heq.
Qed.

End bounds.

(** A message in flight, and a second one of its conversation. *)
Module FlightSample.
Definition flight_config : HttpAdapterConfig :=
  mkHttpConfig "127.0.0.1" 8080 "http://core" 1024 5000 None [mkAgent "dev" "http-dev" "secret"].
Definition flight_request (key : string) : HttpRequest :=
  mkRequest "POST" (Some ("/v1/agents/dev/conversations/" ++ key ++ "/messages")%string)
    no_header (one_header "application/json") no_header no_header no_header [[]].
Definition flight_body (b : list N) : option value := Some (VObject [("message", VString "hi")]).
Definition flight_step := step flight_config Some flight_body (fun _ => None) (fun _ b => b) (fun _ => "u").
Definition flights (keys : list string) : HttpAgentAdapter :=
  fold_left flight_step (List.map (fun k => Request (flight_request k)) keys) (mkAdapter [] [] [] [] [] ∅ [] ∅ [] false true 0 [] []).
End FlightSample.

Lemma flights_reachable keys :
  reachable FlightSample.flight_config Some FlightSample.flight_body (fun _ => None) (fun _ b => b) (fun _ => "u") (FlightSample.flights keys).
Proof.
  assert (forall s, reachable FlightSample.flight_config Some FlightSample.flight_body (fun _ => None) (fun _ b => b) (fun _ => "u") s ->
    reachable FlightSample.flight_config Some FlightSample.flight_body (fun _ => None) (fun _ b => b) (fun _ => "u")
      (fold_left FlightSample.flight_step (List.map (fun k => Request (FlightSample.flight_request k)) keys) s)) as H.
  { induction keys as [|k keys IH]; intros s Hs; [done|]. cbn [List.map fold_left]. apply IH. by apply reach_step. }
  apply H, reach_new. by vm_compute.
Qed.

(** Two conversations run; the second message of the first is answered 409. *)
Example second_message_is_409 :
  length (tasks (FlightSample.flights ["a"; "b"; "a"])) = 2%nat /\
  output <$> responses (FlightSample.flights ["a"; "b"; "a"]) !! 2%nat =
    Some [JsonReply 409 (VObject [("error", VString "conversation already has an in-flight turn")])].
Proof. vm_compute. by split. Qed.

Lemma one_turn_per_conversation_witness :
  exists i t, tasks (FlightSample.flights ["a"; "b"; "a"]) !! i = Some t /\
    forall j t', tasks (FlightSample.flights ["a"; "b"; "a"]) !! j = Some t' ->
      conversation (task_handler t) = conversation (task_handler t') -> i = j.
Proof.
  exists 0%nat, (AwaitCore (mkHandler 0 "dev" "a" false 0)). split; [by vm_compute|].
  intros j t' Hj Heq.
  apply (one_turn_per_conversation FlightSample.flight_config Some FlightSample.flight_body (fun _ => None) (fun _ b => b) (fun _ => "u")
    (FlightSample.flights ["a"; "b"; "a"]) 0 j (AwaitCore (mkHandler 0 "dev" "a" false 0)) t').
  - apply flights_reachable.
  - by vm_compute.
  - by vm_compute.
  - exact Hj.
  - exact Heq.
Defined.

(** A turn whose events core sends in any order. *)
Module StreamSample.
Definition stream_config : HttpAdapterConfig :=
  mkHttpConfig "127.0.0.1" 8080 "http://core" 1024 5000 None [mkAgent "dev" "http-dev" "secret"].
Definition stream_request : HttpRequest :=
  mkRequest "POST" (Some "/v1/agents/dev/conversations/k/messages")
    no_header (one_header "application/json") (one_header "text/event-stream") no_header no_header [[]].
(** The body of an event is its sequence and its kind. *)
Definition stream_event_request (type : string) (n kind : N) : HttpRequest :=
  mkRequest "POST" (Some "/core/events/dev") no_header (one_header OUTBOUND_EVENT_MEDIA_TYPE) no_header
    (one_header (SIGNATURE_PREFIX +:+ hex_print (replicate 32 n))%stdpp) (one_header type) [[n; kind]].
Definition stream_event_value (type : string) (n : N) : value :=
  VObject [("version", VString "v1"); ("type", VString type); ("eventId", VString (String (Ascii.ascii_of_N (64 + n)) EmptyString));
    ("conversationKey", VString "k"); ("correlationId", VString "c1"); ("sequence", VNumber (num_of_Z (Z.of_N n)));
    ("occurredAt", VString "t"); ("text", VString "hi"); ("attachments", VArray []); ("usage", VObject [])].
Definition stream_body (b : list N) : option value :=
  match b with
  | [n; 0%N] => Some (stream_event_value "turn.delta" n)
  | [n; _] => Some (stream_event_value "turn.reply" n)
  | _ => Some (VObject [("message", VString "hi")])
  end.
Definition stream_hmac (key : string) (b : list N) : list N := replicate 32 (hd 0%N b).
Definition stream_json (raw : string) : option value := Some (VObject [("correlationId", VString raw)]).
Definition stream_step := step stream_config Some stream_body stream_json stream_hmac (fun _ => "u").
(** The first delta is early, the second is repeated. *)
Definition stream_ops : list Op :=
  [Request stream_request; Request (stream_event_request "turn.delta" 1 0); CoreAnswers 0 (CoreReplied 202 "c1");
   Request (stream_event_request "turn.delta" 2 0); Request (stream_event_request "turn.delta" 2 0);
   Request (stream_event_request "turn.reply" 3 1); Resume 0].
Definition stream_end : HttpAgentAdapter := fold_left stream_step stream_ops (mkAdapter [] [] [] [] [] ∅ [] ∅ [] false true 0 [] []).
End StreamSample.

(** Two deltas and the reply of a turn that has not begun. *)
Definition early_requests : list Op :=
  [Request (StreamSample.stream_event_request "turn.delta" 1 0);
   Request (StreamSample.stream_event_request "turn.delta" 2 0);
   Request (StreamSample.stream_event_request "turn.reply" 3 1)].

Definition early_state : HttpAgentAdapter :=
  fold_left StreamSample.stream_step early_requests (mkAdapter [] [] [] [] [] ∅ [] ∅ [] false true 0 [] []).

Lemma buffers_bounded_witness :
  exists k, tracker_heap early_state !! 0%nat = Some k /\
    (ce_sequence <$> buffered k) = [1; 2] /\ bufferedBytes k = 4 /\ (ce_sequence <$> terminal k) = Some 3 /\
    exists bodies, Forall2 (carried StreamSample.stream_config StreamSample.stream_body) (buffered k) bodies /\
      Z.of_nat (length (concat bodies)) <= EARLY_EVENT_BYTES.
Proof.
  destruct (tracker_heap early_state !! 0%nat) as [k|] eqn:Hk; [|by vm_compute in Hk].
  exists k. split; [done|]. split; [vm_compute in Hk; by injection Hk as <-|].
  split; [vm_compute in Hk; by injection Hk as <-|]. split; [vm_compute in Hk; by injection Hk as <-|].
  apply (proj1 (buffers_bounded StreamSample.stream_config Some StreamSample.stream_body StreamSample.stream_json
    StreamSample.stream_hmac (fun _ => "u") early_state
    ltac:(unfold early_state, early_requests; cbn [fold_left]; do 3 apply reach_step; apply reach_new; by vm_compute))
    0%nat k Hk).
Defined.
