(* ===== verification/HttpTurns.v ===== *)
(** * The turns of the HTTP adapter and their timers

    [tracked]: a turn that is not settled is the active one of one tracker, the one
    its correlation leads to, and that tracker's timeout is armed.  It is kept by
    every step, so that a client is answered even when core never calls back. *)

From S2P Require Import Prelude RecordUpdate Promises JsMap JsString JsValue Contracts Canonical.
From S2P Require Import AdapterRegistry HttpWire HttpAdapter HttpAdapterBooks.
From stdpp Require Import gmap.
From stdpp Require Import options.
#[local] Open Scope Z_scope.
#[local] Arguments jdelete : simpl never.
#[local] Arguments jset : simpl never.

(** ** The invariant *)

(** A turn, as its timer and its promise. *)
Definition turn_slot (a : ActiveTurn) : nat * option (result AdapterError CoreEvent) := (at_timer a, completion a).

Definition slots (s : HttpAgentAdapter) := turn_slot <$> turns s.

Definition timer_is (s : HttpAgentAdapter) (i : nat) (P : Timer -> Prop) : Prop :=
  exists tm, timers s !! i = Some tm /\ P tm.

(** The timeout of a turn of [t] is armed, and due within [limit]; the one of
    [fired] is firing. *)
Definition armed (limit : Z) (fired : option nat) (s : HttpAgentAdapter) (t : nat) (tm : Timer) : Prop :=
  tm_action tm = TurnTimeout t /\ (tm_live tm = true \/ fired = Some t) /\ tm_due tm <= clock s + limit.

Record tracked_but (limit : Z) (fired : option nat) (s : HttpAgentAdapter) : Prop := {
  tr_active : forall t k a, tracker_heap s !! t = Some k -> tk_active k = Some a ->
    jget (tk_correlationId k) (trackers s) = Some t /\
    exists i, slots s !! a = Some (i, None) /\ timer_is s i (armed limit fired s t);
  tr_open : forall a i, slots s !! a = Some (i, None) ->
    exists t k, tracker_heap s !! t = Some k /\ tk_active k = Some a;
  tr_map : forall c t, jget c (trackers s) = Some t ->
    exists k, tracker_heap s !! t = Some k /\ tk_correlationId k = c;
  tr_expiry : forall t k i, tracker_heap s !! t = Some k -> expiryTimer k = Some i ->
    timer_is s i (fun tm => tm_action tm = EarlyExpiry t)
}.

Definition tracked (limit : Z) : HttpAgentAdapter -> Prop := tracked_but limit None.

(** What [tracked_but] looks at. *)
Definition turn_view (s : HttpAgentAdapter) :=
  (tracker_heap s, trackers s, timers s, slots s, clock s).

Lemma tracked_view l f s s' : turn_view s' = turn_view s -> tracked_but l f s -> tracked_but l f s'.
Proof.
  intros [= Hh Ht Hm Hs Hc] [H1 H2 H3 H4].
  split; unfold armed, timer_is in *; rewrite ?Hh, ?Ht, ?Hm, ?Hs, ?Hc; done.
Qed.

Lemma slots_frame s s' : frame s' = frame s -> slots s' = slots s.
Proof.
  intros [= _ _ _ _ _ _ _ _ _ _ _ Hf]. unfold slots.
  assert (forall l, turn_slot <$> l = (fun p => (p.1.1.2, p.2)) <$> (turn_core <$> l)) as H
    by (intros l; rewrite <- list_fmap_compose; done).
  by rewrite !H, Hf.
Qed.

Lemma heap_frame s s' : frame s' = frame s -> tracker_heap s' = tracker_heap s.
Proof. by intros [= ->]. Qed.

Lemma view_frame s s' : frame s' = frame s -> turn_view s' = turn_view s.
Proof. intros Hf. pose proof (slots_frame _ _ Hf) as Hs. injection Hf. intros. unfold turn_view. congruence. Qed.

Lemma tracked_frame l f s s' : frame s' = frame s -> tracked_but l f s -> tracked_but l f s'.
Proof. intros Hf. by apply tracked_view, view_frame. Qed.

(** ** Timers *)

Lemma clear_lookup id s i tm :
  timers s !! i = Some tm ->
  exists tm', timers (clearTimeout id s) !! i = Some tm' /\ tm_action tm' = tm_action tm /\
              tm_due tm' = tm_due tm /\ (id <> Some i -> tm_live tm' = tm_live tm).
Proof.
  intros Htm. destruct id as [j|]; cbn; [|by eexists].
  destruct (decide (j = i)) as [->|Hne].
  - rewrite list_lookup_alter_eq, Htm. cbn. eexists. split_and!; [done..|]. by intros [].
  - rewrite list_lookup_alter_ne by done. by eexists.
Qed.

Lemma clear_view id s :
  tracker_heap (clearTimeout id s) = tracker_heap s /\ trackers (clearTimeout id s) = trackers s /\
  slots (clearTimeout id s) = slots s /\ clock (clearTimeout id s) = clock s.
Proof. by destruct id. Qed.

(** Clearing a timer leaves armed the turns it is not the timeout of. *)
Lemma tracked_clear l f f' id s :
  (forall t i, id = Some i -> timer_is s i (fun tm => tm_action tm = TurnTimeout t) ->
     (exists k a, tracker_heap s !! t = Some k /\ tk_active k = Some a) -> f' = Some t) ->
  (forall t, f = Some t -> f' = Some t \/ forall k, tracker_heap s !! t = Some k -> tk_active k = None) ->
  tracked_but l f s -> tracked_but l f' (clearTimeout id s).
Proof.
  intros Hid Hff [H1 H2 H3 H4]. destruct (clear_view id s) as (Hh & Ht & Hsl & Hc).
  split; unfold armed, timer_is in *; rewrite ?Hh, ?Ht, ?Hsl, ?Hc; try done.
  - intros t k a Hk Ha. destruct (H1 t k a Hk Ha) as (Hj & i & Hi & tm & Htm & Hact & Hlive & Hdue).
    split; [done|]. exists i. split; [done|].
    destruct (clear_lookup id s i tm Htm) as (tm' & Htm' & Hact' & Hdue' & Hlive').
    exists tm'. split; [done|]. rewrite Hact', Hdue'. split_and!; [done| |done].
    destruct (decide (id = Some i)) as [->|Hne].
    + right. apply (Hid t i); [done|by exists tm|by exists k, a].
    + rewrite Hlive' by done. destruct Hlive as [?|Hf]; [by left|right].
      destruct (Hff t Hf) as [?|Hn]; [done|]. by rewrite (Hn k Hk) in Ha.
  - intros t k i Hk He. destruct (H4 t k i Hk He) as (tm & Htm & Hact).
    destruct (clear_lookup id s i tm Htm) as (tm' & Htm' & Hact' & _). exists tm'. by rewrite Hact'.
Qed.

(** An expiry timer is no turn's. *)
Lemma tracked_clear_expiry l f s t k :
  tracker_heap s !! t = Some k -> tracked_but l f s -> tracked_but l f (clearTimeout (expiryTimer k) s).
Proof.
  intros Hk Hs. apply (tracked_clear l f); [|by left|done].
  intros t' i Hi (tm & Htm & Hact) _. destruct (tr_expiry _ _ _ Hs t k i Hk Hi) as (tm' & Htm' & Hact').
  congruence.
Qed.

(** ** A turn ends *)

(** What [completeTurn] and [failTurn] do to the turns. *)
Definition end_turn (t a : nat) (turn : ActiveTurn) (r : result AdapterError CoreEvent) (s : HttpAgentAdapter) :
    HttpAgentAdapter := settle_turn a r (end_tracker t turn s).

Lemma frame_settle a r s s' : frame s = frame s' -> frame (settle_turn a r s) = frame (settle_turn a r s').
Proof.
  intros [= Hh Ht Hm Hi Ho Hf Hc Hl Hk Hp Hta Hu]. unfold frame, settle_turn, update_turn. cbn.
  assert (forall l : list ActiveTurn, turn_core <$> alter (fun x => x <| completion ::= settle_first r |>) a l =
    alter (fun p => (p.1, settle_first r p.2)) a (turn_core <$> l)) as Hal.
  { intros l. apply list_eq. intros j. rewrite list_lookup_fmap. destruct (decide (a = j)) as [->|Hne].
    - rewrite !list_lookup_alter_eq, list_lookup_fmap. by destruct (l !! j).
    - by rewrite !list_lookup_alter_ne, list_lookup_fmap by done. }
  cbn in Hal. rewrite !Hal. congruence.
Qed.

Lemma frame_complete t a turn e s :
  active_turn t s = Some (a, turn) -> frame (completeTurn t e s) = frame (end_turn t a turn (Ok e) s).
Proof.
  intros Ha. unfold completeTurn. rewrite Ha. apply frame_settle, frame_drop_stream. intros. apply frame_finish.
Qed.

Lemma frame_fail t a turn e b s :
  active_turn t s = Some (a, turn) -> frame (failTurn t e b s) = frame (end_turn t a turn (Throw e) s).
Proof.
  intros Ha. unfold failTurn. rewrite Ha. apply frame_settle, frame_drop_stream.
  intros. destruct b; [apply frame_detach|apply frame_finish].
Qed.

Lemma active_turn_spec t s a turn :
  active_turn t s = Some (a, turn) <->
  exists k, tracker_heap s !! t = Some k /\ tk_active k = Some a /\ turns s !! a = Some turn.
Proof.
  unfold active_turn. destruct (tracker_heap s !! t) as [k|]; [|naive_solver]. cbn.
  destruct (tk_active k) as [a'|] eqn:Ha; [|naive_solver]. destruct (turns s !! a') eqn:Hu; naive_solver.
Qed.

Lemma slots_settle a r s j :
  slots (settle_turn a r s) !! j =
    (if decide (j = a) then (fun p => (p.1, settle_first r p.2)) <$> slots s !! j else slots s !! j).
Proof.
  unfold slots, settle_turn, update_turn. cbn. rewrite !list_lookup_fmap. case_decide as Hj; [subst|].
  - rewrite list_lookup_alter_eq. by destruct (turns s !! a).
  - by rewrite list_lookup_alter_ne.
Qed.

(** The tracker of an ended turn. *)
Definition ended (k : TurnTracker) : TurnTracker :=
  k <| tk_active := None |> <| buffered := [] |> <| bufferedBytes := 0 |> <| terminal := None |>.

Lemma lookup_alter_list {A} (f : A -> A) i j (l : list A) :
  alter f i l !! j = if decide (j = i) then f <$> l !! j else l !! j.
Proof. case_decide; [subst; apply list_lookup_alter_eq|by apply list_lookup_alter_ne]. Qed.

Lemma end_turn_view t a turn r s k :
  tracker_heap s !! t = Some k ->
  let s1 := clearTimeout (expiryTimer k) (clearTimeout (Some (at_timer turn)) s) in
  let s2 := end_turn t a turn r s in
  tracker_heap s2 = alter ended t (tracker_heap s) /\ timers s2 = timers s1 /\ clock s2 = clock s /\
  (forall c, jget c (trackers s2) =
    if decide (c = tk_correlationId k /\ jget c (trackers s) = Some t) then None else jget c (trackers s)) /\
  (forall j, slots s2 !! j =
    if decide (j = a) then (fun p => (p.1, settle_first r p.2)) <$> slots s !! j else slots s !! j).
Proof.
  intros Hk s1 s2. unfold s2, end_turn.
  assert (forall j, slots (settle_turn a r (end_tracker t turn s)) !! j =
    if decide (j = a) then (fun p => (p.1, settle_first r p.2)) <$> slots s !! j else slots s !! j) as Hs2.
  { intros j. rewrite slots_settle. replace (slots (end_tracker t turn s)) with (slots s); [done|].
    unfold end_tracker. rewrite Hk. destruct (expiryTimer k); by case_decide. }
  unfold s1, end_tracker in *. rewrite Hk in *. destruct (expiryTimer k); cbn in *.
  all: case_decide as Hd; cbn in *; split_and!; try done; intros c; rewrite ?jget_delete; repeat case_decide; naive_solver.
Qed.

(** Its trackers and their timers, once the timers of [t] are cleared. *)
Lemma tracked_end_timers l f t a turn s k :
  (forall t', f = Some t' -> t' = t) -> tracker_heap s !! t = Some k -> tk_active k = Some a ->
  slots s !! a = Some (at_timer turn, None) -> tracked_but l f s ->
  tracked_but l (Some t) (clearTimeout (expiryTimer k) (clearTimeout (Some (at_timer turn)) s)).
Proof.
  intros Hf Hk Ha Hslot Hs. apply (tracked_clear_expiry _ _ _ t).
  { by destruct (clear_view (Some (at_timer turn)) s) as (-> & _). }
  apply (tracked_clear l f); [|intros t' Ht'; left; f_equal; by rewrite (Hf t')|done].
  intros t' i' [= <-] (tm' & Htm' & Hact') _.
  destruct (tr_active _ _ _ Hs t k a Hk Ha) as (_ & i & Hi & tm & Htm & Hact & _). congruence.
Qed.

Lemma tracked_end l f t a turn r s :
  (forall t', f = Some t' -> t' = t) -> active_turn t s = Some (a, turn) ->
  tracked_but l f s -> tracked l (end_turn t a turn r s).
Proof.
  intros Hf (k & Hk & Ha & Hu)%active_turn_spec Hs.
  assert (slots s !! a = Some (at_timer turn, None)) as Hslot.
  { destruct (tr_active _ _ _ Hs t k a Hk Ha) as (_ & i & Hi & _).
    unfold slots in *. rewrite list_lookup_fmap, Hu in Hi |- *. injection Hi as _ Hcomp.
    cbn. unfold turn_slot. by rewrite Hcomp. }
  pose proof (tracked_end_timers l f t a turn s k Hf Hk Ha Hslot Hs) as [H1 H2 H3 H4].
  destruct (end_turn_view t a turn r s k Hk) as (Eh & Em & Ec & Ej & Es).
  destruct (clear_view (expiryTimer k) (clearTimeout (Some (at_timer turn)) s)) as (Ch & Ct & Cs & Cc).
  destruct (clear_view (Some (at_timer turn)) s) as (Ch' & Ct' & Cs' & Cc').
  rewrite Ch' in Ch; rewrite Ct' in Ct; rewrite Cs' in Cs; rewrite Cc' in Cc.
  unfold armed, timer_is in *. rewrite ?Ch, ?Ct, ?Cs, ?Cc in *.
  split; unfold armed, timer_is; setoid_rewrite Eh; rewrite ?Em, ?Ec; try setoid_rewrite Es; try setoid_rewrite Ej;
    setoid_rewrite lookup_alter_list.
  - intros t' k' a' Hk' Ha'. case_decide as Ht; [subst; rewrite Hk in Hk'; by simplify_eq/=|].
    destruct (H1 t' k' a' Hk' Ha') as (Hj & i & Hi & tm & Htm & Hact & Hlive & Hdue).
    assert (a' <> a) as Hne.
    { intros ->. destruct (H1 t k a Hk Ha) as (_ & i2 & Hi2 & tm2 & Htm2 & Hact2 & _). congruence. }
    split; [case_decide as Hc; [destruct Hc; congruence|done]|]. exists i. rewrite decide_False by done.
    split; [done|]. exists tm. split_and!; try done. left. destruct Hlive; congruence.
  - intros a' i'. case_decide as Hne; [subst; by rewrite Hslot|]. intros Hi'.
    destruct (H2 a' i' Hi') as (t' & k' & Hk' & Ha'). exists t', k'. rewrite decide_False; [done|]. intros ->. congruence.
  - intros c t'. case_decide; [done|]. intros Hc. destruct (H3 c t' Hc) as (k' & Hk' & Hcorr).
    rewrite Hk'. case_decide; subst; by eexists.
  - intros t' k' i'. case_decide; [subst; rewrite Hk; intros [= <-]; cbn|]; by apply H4.
Qed.

Lemma tracked_complete l t e s : tracked l s -> tracked l (completeTurn t e s).
Proof.
  intros Hs. destruct (active_turn t s) as [[a turn]|] eqn:Ha; [|unfold completeTurn; by rewrite Ha].
  eapply tracked_frame; [by apply frame_complete|]. by apply (tracked_end l None).
Qed.

Lemma tracked_idle l t s : tracked_but l (Some t) s -> active_turn t s = None -> tracked l s.
Proof.
  intros Hs Ha. split; try apply Hs. intros t' k a Hk Hact.
  destruct (tr_active _ _ _ Hs t' k a Hk Hact) as (Hj & i & Hi & tm & Htm & Htma & Hlive & Hdue).
  split; [done|]. exists i. split; [done|]. exists tm. split; [done|]. split_and!; [done| |done].
  destruct Hlive as [?|[= ->]]; [by left|]. exfalso. unfold active_turn in Ha. rewrite Hk in Ha. cbn in Ha.
  rewrite Hact in Ha. unfold slots in Hi. rewrite list_lookup_fmap in Hi. by destruct (turns s !! a).
Qed.

Lemma tracked_fail l f t e b s :
  (forall t', f = Some t' -> t' = t) -> tracked_but l f s -> tracked l (failTurn t e b s).
Proof.
  intros Hf Hs. destruct (active_turn t s) as [[a turn]|] eqn:Ha.
  - eapply tracked_frame; [by apply frame_fail|]. by apply (tracked_end l f).
  - unfold failTurn. rewrite Ha. destruct f as [t'|]; [|done]. rewrite (Hf t') in Hs by done. by apply (tracked_idle l t).
Qed.

Lemma tracked_deliver l t e s : tracked l s -> tracked l (deliverEvent t e s).
Proof.
  intros Hs. unfold deliverEvent. destruct (active_turn t s) as [[a turn]|]; [|done].
  destruct (negb _); [by apply (tracked_fail l None)|]. destruct (ce_sequence e <=? _).
  { destruct (isTerminalEvent e); [by apply tracked_complete|done]. }
  set (s1 := update_turn a _ s). assert (tracked l s1) as Hs1.
  { eapply tracked_view; [|done]. unfold turn_view, slots, s1, update_turn. cbn. by rewrite fmap_alter_id. }
  assert (forall name, tracked l (match at_stream turn with Some x => push x (event_frame name e) s1 | None => s1 end)) as Hp.
  { intros name. destruct (at_stream turn); [|done]. eapply tracked_frame; [apply frame_push|done]. }
  destruct (String.eqb _ "turn.delta"); [apply Hp|]. destruct (String.eqb _ "turn.progress"); [apply Hp|].
  destruct (isTerminalEvent e); [by apply tracked_complete|done].
Qed.

Lemma tracked_replay l t es s : tracked l s -> tracked l (replay_events t es s).
Proof.
  revert s. induction es as [|e es IH]; intros s Hs; [done|]. apply IH.
  destruct (tracker_heap s !! t ≫= tk_active); [by apply tracked_deliver|done].
Qed.

(** ** A turn begins *)

(** Changes of a tracker that [tracked] does not see. *)
Lemma tracked_tracker l f t g s :
  (forall k, tk_correlationId (g k) = tk_correlationId k /\ tk_active (g k) = tk_active k /\
             (expiryTimer (g k) = expiryTimer k \/ expiryTimer (g k) = None)) ->
  tracked_but l f s -> tracked_but l f (update_tracker t g s).
Proof.
  intros Hg [H1 H2 H3 H4]. split; unfold armed, timer_is in *; cbn [update_tracker set_field tracker_heap trackers timers slots clock];
    setoid_rewrite lookup_alter_list.
  - intros t' k' a Hk Ha. case_decide; [|by apply H1].
    destruct (tracker_heap s !! t') as [k|] eqn:Hk0; [|done]. injection Hk as <-.
    destruct (Hg k) as (Hc & Hact & _). rewrite Hact in Ha. rewrite Hc. by apply H1.
  - intros a i Hi. destruct (H2 a i Hi) as (t' & k & Hk & Ha). exists t'. rewrite Hk.
    case_decide; [|by exists k]. exists (g k). split; [done|]. by destruct (Hg k) as (_ & -> & _).
  - intros c t' Hc. destruct (H3 c t' Hc) as (k & Hk & Hcorr). rewrite Hk. case_decide; [|by exists k].
    exists (g k). split; [done|]. by destruct (Hg k) as (-> & _).
  - intros t' k' i Hk He. case_decide; [|by eapply H4]. destruct (tracker_heap s !! t') as [k|] eqn:Hk0; [|done].
    injection Hk as <-. destruct (Hg k) as (_ & _ & [Heq|Heq]); rewrite Heq in He; [by eapply H4|done].
Qed.

(** A new tracker, of a correlation that had none. *)
Lemma tracked_new l k s :
  jget (tk_correlationId k) (trackers s) = None -> tk_active k = None ->
  (forall i, expiryTimer k = Some i ->
     timer_is s i (fun tm => tm_action tm = EarlyExpiry (length (tracker_heap s)))) ->
  tracked l s ->
  tracked l (s <| tracker_heap ::= fun h => h ++ [k] |> <| trackers ::= jset (tk_correlationId k) (length (tracker_heap s)) |>).
Proof.
  intros Hc Ha He [H1 H2 H3 H4]. split; unfold armed, timer_is in *; cbn [set_field tracker_heap trackers timers slots clock].
  - intros t' k' a Hk Hact. apply lookup_app_Some in Hk as [Hk|[Hlt Hk]].
    + destruct (H1 t' k' a Hk Hact) as [Hj Hi]. split; [|done]. rewrite jget_set_ne; [done|]. congruence.
    + apply list_lookup_singleton_Some in Hk as [_ <-]. congruence.
  - intros a i Hi. destruct (H2 a i Hi) as (t' & k' & Hk & Hact). exists t', k'. split; [|done].
    by apply lookup_app_l_Some.
  - intros c t'. rewrite jget_set. case_decide as Hcc; [intros [= <-]|intros Hj].
    + exists k. split; [|done]. by apply list_lookup_middle.
    + destruct (H3 c t' Hj) as (k' & Hk & Hcorr). exists k'. split; [|done]. by apply lookup_app_l_Some.
  - intros t' k' i Hk Hexp. apply lookup_app_Some in Hk as [Hk|[Hlt Hk]]; [by eapply H4|].
    apply list_lookup_singleton_Some in Hk as [Heq <-]. destruct (He i Hexp) as (tm & Htm & Hact).
    exists tm. split; [done|]. rewrite Hact. f_equal. lia.
Qed.

(** An armed timer and a turn are added to an idle tracker. *)
Lemma tracked_activate l t k c ms key s :
  tracker_heap s !! t = Some k -> tk_active k = None -> tk_correlationId k = c -> jget c (trackers s) = Some t ->
  ms <= l -> 1 <= l -> tracked l s ->
  tracked l (update_tracker t (fun x => x <| tk_active := Some (length (turns s)) |>)
    ((setTimeout ms (TurnTimeout t) s).2 <| turns ::= fun u => u ++ [mkTurn key (length (timers s)) 0 None None] |>)).
Proof.
  intros Hk Hidle <- Hc Hms Hl [H1 H2 H3 H4].
  assert (forall i P, timer_is s i P -> exists tm, (timers s ++ [mkTimer (clock s + timer_delay ms) (TurnTimeout t) true]) !! i = Some tm /\ P tm) as Htm.
  { intros i P (tm & Htm & HP). exists tm. split; [by apply lookup_app_l_Some|done]. }
  assert (timer_delay ms <= l) as Hdelay.
  { unfold timer_delay. destruct (Z.leb_spec 1 ms), (Z.leb_spec ms TIMEOUT_MAX); cbn; lia. }
  unfold slots in *. split; unfold armed, slots; cbn [update_tracker setTimeout snd set_field tracker_heap trackers timers turns clock];
    setoid_rewrite lookup_alter_list; rewrite ?fmap_app.
  - intros t' k' a Hk' Ha. case_decide as Ht; [subst t'; rewrite Hk in Hk'; injection Hk' as <-|].
    + cbn in Ha |- *. injection Ha as <-. split; [done|]. exists (length (timers s)). split.
      { rewrite <- (length_fmap turn_slot). by apply list_lookup_middle. }
      eexists. split; [by apply list_lookup_middle|]. cbn. split_and!; [done|by left|lia].
    + destruct (H1 t' k' a Hk' Ha) as (Hj & i & Hi & Harm). split; [done|]. exists i.
      split; [by apply lookup_app_l_Some|by apply Htm].
  - intros a i Hi. apply lookup_app_Some in Hi as [Hi|[Hlt Hi]].
    + destruct (H2 a i Hi) as (t' & k' & Hk' & Ha). exists t', k'. rewrite decide_False; [done|]. intros ->. congruence.
    + rewrite length_fmap in Hi, Hlt. apply list_lookup_singleton_Some in Hi as [Heq _]. exists t.
      rewrite decide_True, Hk by done. eexists. split; [done|]. cbn. f_equal. lia.
  - intros c t' Hj. destruct (H3 c t' Hj) as (k' & Hk' & Hcorr). rewrite Hk'. case_decide; eauto.
  - intros t' k' i Hk' He. apply Htm. case_decide; [subst|by eapply H4]. rewrite Hk in Hk'. injection Hk' as <-.
    by eapply H4.
Qed.

Lemma tracked_tracker_for l c key s t s1 :
  tracked l s -> tracker_for c key s = (t, s1) ->
  tracked l s1 /\ jget c (trackers s1) = Some t /\
  exists k, tracker_heap s1 !! t = Some k /\ tk_correlationId k = c.
Proof.
  intros Hs. unfold tracker_for. destruct (jget c (trackers s)) as [t0|] eqn:Hj.
  - intros [= <- <-]. split; [done|]. split; [done|]. by apply (tr_map _ _ _ Hs).
  - intros Heq. injection Heq as <- Heq.
    pose proof (tracked_new l (mkTracker c key [] 0 None None None) s Hj eq_refl ltac:(done) Hs) as Hn.
    rewrite <- Heq. split; [exact Hn|]. cbn. split; [apply jget_set_eq|].
    eexists. split; [by apply list_lookup_middle|done].
Qed.

(** A change of a tracker keeps the others. *)
Lemma tracker_upd t g s k : tracker_heap s !! t = Some k -> tracker_heap (update_tracker t g s) !! t = Some (g k).
Proof. intros Hk. cbn. by rewrite list_lookup_alter_eq, Hk. Qed.

Lemma tracked_begin l c key ms stream r s :
  ms <= l -> 1 <= l -> tracked l s -> tracked l (beginTurn c key ms stream r s).2.
Proof.
  intros Hms Hl Hs. unfold beginTurn. destruct (tracker_for c key s) as [t s1] eqn:Ht.
  destruct (tracked_tracker_for l c key s t s1 Hs Ht) as (Hs1 & Hj & k & Hk & Hc).
  rewrite Hk. cbn [mbind option_bind]. destruct (tk_active k) as [a|] eqn:Ha; [done|].
  pose proof (tracked_clear_expiry l None s1 t k Hk Hs1) as Hs2.
  destruct (clear_view (expiryTimer k) s1) as (Ch & Ct & _ & _). set (s2 := clearTimeout _ s1) in *.
  rewrite <- Ch in Hk. rewrite <- Ct in Hj. clearbody s2.
  pose proof (tracked_tracker l None t (fun x => x <| expiryTimer := None |>) s2 ltac:(intros; split_and!; auto) Hs2) as Hs3.
  apply (tracker_upd t (fun x => x <| expiryTimer := None |>)) in Hk.
  change (trackers s2) with (trackers (update_tracker t (fun x => x <| expiryTimer := None |>) s2)) in Hj.
  set (s3 := update_tracker t _ s2) in *. clearbody s3.
  pose proof (tracked_activate l t _ c ms key s3 Hk Ha Hc Hj Hms Hl Hs3) as Hs4.
  cbn [setTimeout snd] in *. set (s4 := update_tracker t _ _) in *. clearbody s4.
  apply tracked_replay, tracked_tracker; [intros; split_and!; auto|]. destruct (_ && _); [|done].
  eapply tracked_frame; [apply frame_open_stream|done].
Qed.

(** ** What only grows *)

(** A response is answered, or its client is gone. *)
Definition answered (r : Response) : bool := headersSent r || writableEnded r || destroyed r.

Record response_le (x y : Response) : Prop := {
  rl_output : output x `prefix_of` output y;
  rl_answered : answered x = true -> answered y = true
}.

Record grows (s s' : HttpAgentAdapter) : Prop := {
  gr_responses : forall r x, responses s !! r = Some x -> exists y, responses s' !! r = Some y /\ response_le x y;
  gr_turns : (length (turns s) <= length (turns s'))%nat;
  gr_clock : clock s <= clock s'
}.

#[export] Instance response_le_preorder : PreOrder response_le.
Proof.
  split; [by intros x; split|]. intros x y z [Ho Ha] [Ho' Ha']. split; [by etrans|auto].
Qed.

#[export] Instance grows_preorder : PreOrder grows.
Proof.
  split.
  - intros s. split; [|done|done]. intros r x Hx. by exists x.
  - intros s1 s2 s3 [Hr Ht Hc] [Hr' Ht' Hc']. split; [|lia|lia]. intros r x Hx.
    destruct (Hr r x Hx) as (y & Hy & Hle). destruct (Hr' r y Hy) as (z & Hz & Hle'). exists z. split; [done|by etrans].
Qed.

(** The responses, the number of turns and the clock are the same. *)
Lemma grows_same s s' :
  responses s' = responses s -> length (turns s') = length (turns s) -> clock s' = clock s -> grows s s'.
Proof. intros Hr Ht Hc. split; rewrite ?Hr, ?Ht, ?Hc; [|lia|lia]. intros r x Hx. by exists x. Qed.

Lemma grows_response r f s : (forall x, response_le x (f x)) -> grows s (update_response r f s).
Proof.
  intros Hf. split; [|done|cbn; lia]. intros r' x Hx. cbn. rewrite lookup_alter_list, Hx.
  case_decide; eexists; (split; [done|]); [apply Hf|done].
Qed.

Lemma grows_turn a f s : grows s (update_turn a f s).
Proof. by apply grows_same; [|apply length_alter|]. Qed.

Lemma response_le_emit o x : response_le x (emit o x).
Proof. split; [by eexists|done]. Qed.

Lemma response_le_flags x y :
  output y = output x -> (answered x = true -> answered y = true) -> response_le x y.
Proof. intros Ho Ha. split; [by rewrite Ho|done]. Qed.

Lemma grows_json r status body s : grows s (sendJson r status body s).
Proof.
  apply grows_response. intros x. destruct (_ || _ || _) eqn:Hsent; [done|].
  transitivity (x <| headersSent := true |> <| writableEnded := true |>); [|apply response_le_emit].
  by apply response_le_flags.
Qed.

Lemma grows_detach x b s : grows s (detach x b s).
Proof.
  unfold detach. destruct (streams s !! x) as [st|]; [|done]. destruct (sse_closed st); [done|].
  set (s1 := update_stream x _ s). transitivity s1; [by apply grows_same|].
  set (s2 := if b then _ else s1). transitivity s2.
  { unfold s2. destruct b; [|done]. apply grows_response. intros y. apply response_le_flags; [done|].
    unfold answered. cbn. by rewrite !orb_true_r. }
  unfold on_detach. repeat case_match; try done. apply grows_turn.
Qed.

Lemma grows_on_detach x st s : grows s (on_detach x st s).
Proof. unfold on_detach. repeat case_match; try done. apply grows_turn. Qed.

Lemma grows_push x f s : grows s (push x f s).
Proof.
  unfold push. destruct (streams s !! x) as [st|]; [|done]. destruct (sse_closed st); [done|].
  destruct (pipe <$> _) as [[]|]; try apply grows_detach; [|etrans; [|apply grows_detach]];
    apply grows_response; intros y; apply response_le_emit.
Qed.

Lemma grows_finish x f s : grows s (finish x f s).
Proof.
  unfold finish. destruct (streams s !! x) as [st|]; [|done]. destruct (sse_closed st); [done|].
  set (s1 := update_stream x _ s). transitivity s1; [by apply grows_same|]. etrans; [|apply grows_on_detach].
  apply grows_response. intros y. destruct (pipe y).
  1,2: transitivity (y <| writableEnded := true |>); [|apply response_le_emit].
  all: apply response_le_flags; [done|]; unfold answered; cbn; by rewrite !orb_true_r.
Qed.

Lemma grows_start x c s : grows s (start x c s).
Proof.
  unfold start. destruct (streams s !! x) as [st|]; [|done]. destruct (default true _); [apply grows_detach|].
  etrans; [|apply grows_push]. set (s1 := update_response _ _ s). transitivity s1; [|by apply grows_same].
  apply grows_response. intros y. transitivity (y <| headersSent := true |>); [|apply response_le_emit].
  by apply response_le_flags.
Qed.

Lemma grows_gone r s : grows s (client_gone r s).
Proof.
  unfold client_gone. set (s0 := update_response r _ s). transitivity s0.
  { apply grows_response. intros x. apply response_le_flags; [done|]. unfold answered. cbn. by rewrite !orb_true_r. }
  generalize (seq 0 (length (streams s0))). intros l. generalize s0. induction l as [|x l IH]; intros s1; [done|].
  cbn [fold_left]. etrans; [|apply IH]. destruct (streams s1 !! x) as [st|]; [|done]. case_decide; [|done].
  destruct (sse_listening st); [apply grows_detach|done].
Qed.

Lemma grows_end t a turn r s f :
  (forall x s, grows s (f x s)) ->
  grows s (settle_turn a r (drop_stream a turn f (end_tracker t turn s))).
Proof.
  intros Hf. etrans; [|apply grows_turn]. transitivity (end_tracker t turn s).
  - apply grows_same; unfold end_tracker; destruct (tracker_heap s !! t) as [k|]; try done;
      destruct (expiryTimer k); by case_decide.
  - unfold drop_stream. etrans; [apply grows_turn|]. destruct (at_stream turn); [apply Hf|done].
Qed.

Lemma grows_complete t e s : grows s (completeTurn t e s).
Proof.
  unfold completeTurn. destruct (active_turn t s) as [[a turn]|]; [|done]. apply grows_end. intros. apply grows_finish.
Qed.

Lemma grows_fail t e b s : grows s (failTurn t e b s).
Proof.
  unfold failTurn. destruct (active_turn t s) as [[a turn]|]; [|done]. apply grows_end. intros.
  destruct b; [apply grows_detach|apply grows_finish].
Qed.

Lemma grows_deliver t e s : grows s (deliverEvent t e s).
Proof.
  unfold deliverEvent. destruct (active_turn t s) as [[a turn]|]; [|done]. destruct (negb _); [apply grows_fail|].
  destruct (ce_sequence e <=? _); [destruct (isTerminalEvent e); [apply grows_complete|done]|].
  set (s1 := update_turn a _ s). transitivity s1; [apply grows_turn|].
  destruct (String.eqb _ "turn.delta"); [|destruct (String.eqb _ "turn.progress")].
  1,2: destruct (at_stream turn); [apply grows_push|done].
  destruct (isTerminalEvent e); [apply grows_complete|done].
Qed.

Lemma grows_replay t es s : grows s (replay_events t es s).
Proof.
  revert s. induction es as [|e es IH]; intros s; [done|]. unfold replay_events in *. cbn [fold_left].
  etrans; [|apply IH]. destruct (tracker_heap s !! t ≫= tk_active); [apply grows_deliver|done].
Qed.

Lemma grows_open_stream t a r c s : grows s (open_stream t a r c s).
Proof.
  unfold open_stream. etrans; [|apply grows_start]. set (s1 := s <| streams ::= _ |>).
  transitivity s1; [by apply grows_same|apply grows_turn].
Qed.

Definition is_answered (s : HttpAgentAdapter) (r : nat) : Prop :=
  exists x, responses s !! r = Some x /\ answered x = true.

Lemma answered_grows s s' r : grows s s' -> is_answered s r -> is_answered s' r.
Proof.
  intros Hg (x & Hx & Ha). destruct (gr_responses _ _ Hg r x Hx) as (y & Hy & Hle). exists y.
  split; [done|]. by apply Hle.
Qed.

(** A stream starts with its head, unless its response is gone. *)
Lemma start_answers x c s st :
  streams s !! x = Some st -> is_Some (responses s !! sse_res st) -> is_answered (start x c s) (sse_res st).
Proof.
  intros Hst [y Hy]. unfold start. rewrite Hst, Hy. cbn [fmap option_fmap option_map default].
  destruct (destroyed y) eqn:Hd.
  - eapply answered_grows; [apply grows_detach|]. exists y. split; [done|]. unfold answered. by rewrite Hd, !orb_true_r.
  - eapply answered_grows; [apply grows_push|]. set (s1 := update_response _ _ s).
    assert (is_answered s1 (sse_res st)) as Ha; [|exact Ha]. cbn. eexists. cbn. rewrite list_lookup_alter_eq, Hy.
    cbn. by split.
Qed.

Lemma grows_begin c key ms stream r s : grows s (beginTurn c key ms stream r s).2.
Proof.
  unfold beginTurn. destruct (tracker_for c key s) as [t s1] eqn:Ht.
  assert (grows s s1) as Hg.
  { unfold tracker_for in Ht. destruct (jget c (trackers s)); [by injection Ht as _ <-|]. injection Ht as _ <-. by apply grows_same. }
  etrans; [exact Hg|]. clear Hg. destruct (tracker_heap s1 !! t ≫= tk_active); [done|]. cbn [snd setTimeout].
  etrans; [|apply grows_replay].
  match goal with |- grows _ (update_tracker _ _ (if ?b then _ else ?s2)) =>
    transitivity s2; [|set (s3 := if b then _ else s2); transitivity s3; [unfold s3; destruct b|]] end.
  - split; [|cbn; rewrite length_app|]; destruct (tracker_heap s1 !! t ≫= expiryTimer); cbn; try lia; intros r' x Hx; by exists x.
  - apply grows_open_stream.
  - done.
  - by apply grows_same.
Qed.

(** The turn that begins, and its response when it streams. *)
Lemma begin_ok c key ms stream r s a s' :
  beginTurn c key ms stream r s = (Ok a, s') ->
  (a < length (turns s'))%nat /\ (stream = true -> is_Some (responses s !! r) -> is_answered s' r).
Proof.
  unfold beginTurn. destruct (tracker_for c key s) as [t s1] eqn:Ht.
  assert (responses s1 = responses s) as Hr1.
  { unfold tracker_for in Ht. destruct (jget c (trackers s)); by injection Ht as _ <-. }
  destruct (tracker_heap s1 !! t ≫= tk_active); [done|]. cbn [setTimeout]. intros Heq.
  match type of Heq with (Ok ?n, replay_events t ?es (update_tracker t ?f (if _ then open_stream t ?n ?r c ?s2 else _))) = _ =>
    assert (responses s2 = responses s /\ (n < length (turns s2))%nat) as [Hr2 Hlt]; [|set (sa := s2) in *; clearbody sa]
  end.
  { rewrite <- Hr1. destruct (tracker_heap s1 !! t ≫= expiryTimer); cbn; rewrite length_app; cbn; split; lia || done. }
  match type of Heq with (Ok ?n, replay_events t ?es (update_tracker t ?f (if ?b then ?x else ?y))) = _ =>
    set (s3 := if b then x else y) in *;
    assert (grows sa s3 /\ (stream = true -> is_Some (responses s !! r) -> is_answered s3 r)) as [Hg Ha]
  end.
  - unfold s3. rewrite Hr2. destruct (stream && negb (default true (destroyed <$> responses s !! r))) eqn:Hb.
    + split; [apply grows_open_stream|]. intros _ Hsome. unfold open_stream.
      match goal with |- is_answered (start ?x c ?s4) _ =>
        refine (start_answers x c s4 (mkStream r t _ false false) _ _) end.
      * cbn. rewrite lookup_app_r by lia. by rewrite Nat.sub_diag.
      * by rewrite <- Hr2 in Hsome.
    + split; [done|]. intros -> [x Hx]. exists x. rewrite Hr2. split; [done|]. rewrite Hx in Hb. cbn in Hb.
      unfold answered. destruct (destroyed x); [by rewrite !orb_true_r|done].
  - injection Heq as <- Heq. rewrite <- Heq. clear Heq.
    match goal with |- context [replay_events t ?es ?s4] => pose proof (grows_replay t es s4) as Hg4;
      assert (grows s3 s4) as Hg3 by by apply grows_same end.
    split; [eapply Nat.lt_le_trans; [exact Hlt|]; etrans; [apply Hg|]; etrans; [apply Hg3|apply Hg4]|].
    intros H1 H2. eapply answered_grows; [exact Hg4|]. eapply answered_grows; [exact Hg3|]. by apply Ha.
Qed.

Section turns.
Context (config : HttpAdapterConfig) (decodeURIComponent : string -> option string)
  (parse_body : list N -> option value) (parse_json : string -> option value)
  (hmac_sha256 : string -> list N -> list N) (randomUUID : nat -> string).

(** How long a turn may take. *)
Definition turn_limit : Z := Z.max 1 (turnTimeoutMs config).

Lemma tracked_early e s :
  jget (ce_correlationId e) (trackers s) = None -> tracked turn_limit s ->
  tracked turn_limit (createEarlyTracker config e s).2.
Proof.
  intros Hj Hs. unfold createEarlyTracker. cbn [setTimeout snd].
  set (s1 := s <| timers ::= _ |>).
  assert (tracked turn_limit s1) as Hs1.
  { destruct Hs as [H1 H2 H3 H4]. split; try done; unfold timer_is, armed in *; cbn.
    - intros t k a Hk Ha. destruct (H1 t k a Hk Ha) as (Hc & i & Hi & tm & Htm & Harm). split; [done|].
      exists i. split; [done|]. exists tm. split; [by apply lookup_app_l_Some|done].
    - intros t k i Hk He. destruct (H4 t k i Hk He) as (tm & Htm & Hact). exists tm.
      split; [by apply lookup_app_l_Some|done]. }
  apply (tracked_new _ (mkTracker (ce_correlationId e) (ce_conversationKey e) [] 0 None (Some (length (timers s))) None) s1);
    [done|done| |done].
  cbn. intros i [= <-]. eexists. split; [by apply list_lookup_middle|done].
Qed.

Lemma tracked_accept e bytes s : tracked turn_limit s -> tracked turn_limit (acceptEvent config e bytes s).
Proof.
  intros Hs. unfold acceptEvent.
  destruct (jget (ce_correlationId e) (trackers s)) as [t|] eqn:Hj; cbn [mbind option_bind].
  - destruct (_ ≫= _); [by apply tracked_deliver|]. destruct (negb _); [done|].
    apply tracked_tracker; [|done]. intros k. repeat case_match; auto.
  - destruct (negb _); [done|]. pose proof (tracked_early e s Hj Hs) as Hs1.
    destruct (createEarlyTracker config e s) as [t s1]. apply tracked_tracker; [|done].
    intros k. repeat case_match; auto.
Qed.

Lemma tracked_json l r status body s : tracked l s -> tracked l (sendJson r status body s).
Proof. by apply tracked_view. Qed.

Lemma tracked_core_event agentId req r s :
  tracked turn_limit s -> tracked turn_limit (handleCoreEvent config parse_body hmac_sha256 agentId req r s).
Proof.
  intros Hs. unfold handleCoreEvent. repeat case_match; try by apply tracked_json.
  match goal with |- tracked _ (sendJson _ _ _ (rememberEvent ?id ?s1)) => apply (tracked_view _ _ s1) end.
  - unfold rememberEvent. by repeat case_match.
  - by apply tracked_accept.
Qed.

Lemma tracked_error h e l s : tracked l s -> tracked l (handler_error h e s).
Proof. apply tracked_view. unfold handler_error. by repeat case_match. Qed.

Lemma tracked_core_answered h o s :
  hd_startedAt h <= clock s -> tracked turn_limit s -> tracked turn_limit (core_answered config parse_json h o s).
Proof.
  intros Hat Hs. unfold core_answered. destruct (core_result parse_json o) as [c|e]; [|by apply tracked_error].
  destruct (closing s); [by apply tracked_error|].
  match goal with |- context [beginTurn c ?key ?ms ?st ?r s] =>
    pose proof (tracked_begin turn_limit c key ms st r s ltac:(unfold turn_limit; lia) ltac:(unfold turn_limit; lia) Hs) as Hb end.
  destruct (beginTurn _ _ _ _ _ s) as [[a|e] s1]; [by apply (tracked_view _ _ s1)|by apply tracked_error].
Qed.

Lemma tracked_turn_answered h c r s : tracked turn_limit s -> tracked turn_limit (turn_answered h c r s).
Proof.
  intros Hs. destruct r as [e|e]; [|by apply tracked_error]. apply (tracked_view _ _ s); [|done].
  unfold turn_answered. by repeat case_match.
Qed.

(** *** The shutdown *)

(** No turn of [t] runs. *)
Definition idle (s : HttpAgentAdapter) (t : nat) : Prop :=
  forall k, tracker_heap s !! t = Some k -> tk_active k = None.

Lemma close_tracker_idle s kt t : idle s t \/ kt.2 = t -> tracked turn_limit s -> idle (close_tracker s kt) t.
Proof.
  intros Ht Hs. unfold close_tracker. destruct (tracker_heap s !! kt.2) as [k|] eqn:Hk.
  - destruct (tk_active k) as [a|] eqn:Ha.
    + destruct (active_turn kt.2 s) as [[a' turn]|] eqn:Hact.
      * set (e := PublicError 503 _). unfold idle. rewrite (heap_frame _ _ (frame_fail kt.2 a' turn e true s Hact)).
        destruct (end_turn_view kt.2 a' turn (Throw e) s k Hk) as (Eh & _).
        rewrite Eh. setoid_rewrite lookup_alter_list. intros k'. case_decide as Hd.
        { subst. rewrite Hk. by intros [= <-]. }
        destruct Ht as [Hi|Hi]; [apply Hi|by destruct Hd].
      * exfalso. destruct (tr_active _ _ _ Hs kt.2 k a Hk Ha) as (_ & i & Hi & _).
        unfold active_turn in Hact. rewrite Hk in Hact. cbn in Hact. rewrite Ha in Hact.
        unfold slots in Hi. rewrite list_lookup_fmap in Hi. by destruct (turns s !! a).
    + unfold idle. destruct (clear_view (expiryTimer k) s) as (-> & _).
      destruct Ht as [Hi|<-]; [done|]. intros k'. rewrite Hk. by intros [= <-].
  - destruct Ht as [Hi|<-]; [done|]. intros k'. by rewrite Hk.
Qed.

Lemma tracked_close_tracker s kt : tracked turn_limit s -> tracked turn_limit (close_tracker s kt).
Proof.
  intros Hs. unfold close_tracker. destruct (tracker_heap s !! kt.2) as [k|] eqn:Hk; [|done].
  destruct (tk_active k); [by apply (tracked_fail _ None)|by apply (tracked_clear_expiry _ _ _ kt.2)].
Qed.

Lemma tracked_close_fold l s :
  tracked turn_limit s ->
  tracked turn_limit (fold_left close_tracker l s) /\
  forall t, idle s t \/ t ∈ l.*2 -> idle (fold_left close_tracker l s) t.
Proof.
  revert s. induction l as [|kt l IH]; intros s Hs; cbn.
  { split; [done|]. intros t [?|Hin]; [done|by apply not_elem_of_nil in Hin]. }
  destruct (IH (close_tracker s kt)) as [H1 H2]; [by apply tracked_close_tracker|]. split; [done|].
  intros t Ht. apply H2. rewrite elem_of_cons in Ht.
  destruct Ht as [?|[->|?]]; [left|left|by right]; apply close_tracker_idle; auto.
Qed.

Lemma tracked_close s : tracked turn_limit s -> tracked turn_limit (close s).
Proof.
  intros Hs. unfold close. destruct (_ && _); [done|]. set (s1 := s <| closing := true |>).
  assert (tracked turn_limit s1) as Hs1 by by apply (tracked_view _ _ s).
  destruct (tracked_close_fold (trackers s1) s1 Hs1) as [[H1 H2 H3 H4] Hidle].
  set (s2 := fold_left _ _ _) in *.
  assert (forall t k, tracker_heap s2 !! t = Some k -> tk_active k = None) as Hno.
  { intros t k Hk. destruct (tk_active k) as [a|] eqn:Ha; [|done]. exfalso.
    enough (idle s1 t \/ t ∈ (trackers s1).*2) as Hin by (rewrite (Hidle t Hin k Hk) in Ha; done).
    destruct (tracker_heap s1 !! t ≫= tk_active) as [a'|] eqn:Ha'.
    - right. apply bind_Some in Ha' as (k' & Hk' & Ha'). destruct (tr_active _ _ _ Hs1 t k' a' Hk' Ha') as (Hj & _).
      apply list_elem_of_fmap. exists (tk_correlationId k', t). split; [done|]. by apply jget_elem_of.
    - left. intros k' Hk'. by rewrite Hk' in Ha'. }
  split; unfold timer_is, armed in *; cbn; try done.
  intros t k a Hk Ha. by rewrite (Hno t k Hk) in Ha.
Qed.

Lemma tracked_timer s i tm :
  timers s !! i = Some tm -> tracked turn_limit s ->
  tracked turn_limit (run_timer (tm_action tm) (clearTimeout (Some i) s)).
Proof.
  intros Htm Hs. destruct (tm_action tm) as [t|t] eqn:Hact; cbn [run_timer].
  - apply (tracked_fail _ (Some t)); [congruence|]. apply (tracked_clear _ None); [|by left|done].
    intros t' i' [= <-] (tm' & Htm' & Hact') _. congruence.
  - assert (tracked turn_limit (clearTimeout (Some i) s)) as Hs1.
    { apply (tracked_clear _ None); [|by left|done]. intros t' i' [= <-] (tm' & Htm' & Hact') _. congruence. }
    set (s1 := clearTimeout _ s) in *. clearbody s1. destruct (tracker_heap s1 !! t) as [k|] eqn:Hk; [|done].
    case_decide as Hd; [|done]. destruct Hd as [Hj Hidle]. destruct Hs1 as [H1 H2 H3 H4].
    split; unfold armed, timer_is in *; cbn; try done.
    + intros t' k' a Hk' Ha. destruct (H1 t' k' a Hk' Ha) as (Hj' & Hi). split; [|done].
      rewrite jget_delete_ne; [done|]. congruence.
    + intros c t'. rewrite jget_delete. case_decide; [done|apply H3].
Qed.

Lemma tracked_step s op :
  (forall i h, tasks s !! i = Some (AwaitCore h) -> hd_startedAt h <= clock s) ->
  tracked turn_limit s ->
  tracked turn_limit (step config decodeURIComponent parse_body parse_json hmac_sha256 randomUUID s op).
Proof.
  intros Htasks Hs. assert (forall i, tracked turn_limit (drop_task i s)) as Hdrop by (intros i; by apply (tracked_view _ _ s)).
  destruct op as [req|i o|i|i|r|r p|now|]; cbn [step].
  - set (s1 := s <| responses ::= _ |>). assert (tracked turn_limit s1) as Hs1 by by apply (tracked_view _ _ s).
    clearbody s1. unfold route. repeat case_match; try (by apply (tracked_view _ _ s1)); [by apply tracked_core_event|].
    unfold handleMessage. repeat case_match; by apply (tracked_view _ _ s1).
  - destruct (tasks s !! i) as [[h|]|] eqn:Hi; try done. apply tracked_core_answered; [by eapply Htasks|done].
  - destruct (tasks s !! i) as [[|h c a]|] eqn:Hi; try done. destruct (_ ≫= _); [|done]. by apply tracked_turn_answered.
  - destruct (timers s !! i) as [tm|] eqn:Htm; [|done]. destruct (_ && _); [|done]. by apply tracked_timer.
  - eapply tracked_frame; [apply frame_client_gone|done].
  - by apply (tracked_view _ _ s).
  - destruct Hs as [H1 H2 H3 H4]. split; unfold armed, timer_is in *; cbn; try done.
    intros t k a Hk Ha. destruct (H1 t k a Hk Ha) as (Hj & i & Hi & tm & Htm & Hact & Hlive & Hdue).
    split; [done|]. exists i. split; [done|]. exists tm. split_and!; try done. lia.
  - by apply tracked_close.
Qed.
(** ** The suspended handlers *)

(** A suspended handler has a response, and its turn if it has begun; a stream has
    started by then. *)
Definition task_ok (s : HttpAgentAdapter) (t : Task) : Prop :=
  is_Some (responses s !! hd_res (task_handler t)) /\ hd_startedAt (task_handler t) <= clock s /\
  match t with
  | AwaitCore _ => True
  | AwaitTurn h _ a => (a < length (turns s))%nat /\ (hd_stream h = true -> is_answered s (hd_res h))
  end.

Definition tasks_ok (s : HttpAgentAdapter) : Prop := Forall (task_ok s) (tasks s).

Lemma task_grows s s' t : grows s s' -> task_ok s t -> task_ok s' t.
Proof.
  intros Hg ([x Hx] & Hat & Ht). destruct (gr_responses _ _ Hg _ x Hx) as (y & Hy & _).
  split; [by rewrite Hy|]. pose proof (gr_clock _ _ Hg). pose proof (gr_turns _ _ Hg). split; [lia|].
  destruct t as [h|h c a]; [done|]. destruct Ht as [Ha Hs]. split; [lia|]. intros Hst.
  eapply answered_grows; [done|by apply Hs].
Qed.

Lemma tasks_grow s s' : grows s s' -> tasks s' ⊆ tasks s -> tasks_ok s -> tasks_ok s'.
Proof.
  intros Hg Ht Hs. apply Forall_forall. intros t Hin. eapply task_grows; [exact Hg|].
  unfold tasks_ok in Hs. rewrite Forall_forall in Hs. apply Hs. by apply Ht.
Qed.

Lemma tasks_ledger s s' : grows s s' -> ledger s' = ledger s -> tasks_ok s -> tasks_ok s'.
Proof. intros Hg Hl. apply tasks_grow; [done|]. by injection Hl as _ _ _ -> _. Qed.

Lemma tasks_error h e s : tasks_ok s -> tasks_ok (handler_error h e s).
Proof.
  apply tasks_grow.
  - unfold handler_error. match goal with |- grows _ (handler_finally _ ?s1) => transitivity s1; [|by apply grows_same] end.
    repeat case_match; try done; apply grows_json.
  - unfold handler_error. by repeat case_match.
Qed.

Lemma tasks_add t s : task_ok s t -> tasks_ok s -> tasks_ok (add_task t s).
Proof.
  intros Ht Hs. assert (grows s (add_task t s)) as Hg by by apply grows_same.
  apply Forall_app. split; [|constructor; [|constructor]]; [|by eapply task_grows].
  eapply Forall_impl; [exact Hs|]. intros x. by apply task_grows.
Qed.

Lemma tasks_drop i s : tasks_ok s -> tasks_ok (drop_task i s).
Proof.
  intros Hs. apply tasks_grow with s; [by apply grows_same| |done]. apply list_subseteq_delete.
Qed.

Lemma tasks_core_answered h o s :
  task_ok s (AwaitCore h) -> tasks_ok s -> tasks_ok (core_answered config parse_json h o s).
Proof.
  intros Hh Hs. unfold core_answered. destruct (core_result parse_json o) as [c|e]; [|by apply tasks_error].
  destruct (closing s); [by apply tasks_error|].
  match goal with |- context [beginTurn c ?key ?ms ?st ?r s] =>
    pose proof (grows_begin c key ms st r s) as Hg; pose proof (ledger_begin c key ms st r s) as Hl;
    pose proof (begin_ok c key ms st r s) as Hok end.
  destruct (beginTurn _ _ _ _ _ s) as [[a|e] s1]; cbn in Hg, Hl.
  - destruct (Hok a s1 eq_refl) as [Ha Hst]. apply tasks_add; [|by apply (tasks_ledger s)].
    destruct (task_grows s s1 _ Hg Hh) as (H1 & H2 & _). split_and!; try done. intros Hstream. apply Hst; [done|].
    by destruct Hh.
  - apply tasks_error. by apply (tasks_ledger s).
Qed.

Lemma tasks_turn_answered h c r s : tasks_ok s -> tasks_ok (turn_answered h c r s).
Proof.
  intros Hs. destruct r as [e|e]; [|by apply tasks_error]. unfold turn_answered.
  match goal with |- tasks_ok (handler_finally _ ?s1) => apply (tasks_grow s); [transitivity s1; [|by apply grows_same]| |done] end.
  - repeat case_match; try done; apply grows_json.
  - by repeat case_match.
Qed.

Lemma grows_accept e bytes s : grows s (acceptEvent config e bytes s).
Proof.
  unfold acceptEvent. destruct (_ ≫= _); [destruct (jget _ _); [apply grows_deliver|done]|].
  destruct (negb _); [done|]. destruct (jget _ _); by apply grows_same.
Qed.

Lemma tasks_json r status body s : tasks_ok s -> tasks_ok (sendJson r status body s).
Proof. apply tasks_grow; [apply grows_json|done]. Qed.

Lemma tasks_core_event agentId req r s :
  tasks_ok s -> tasks_ok (handleCoreEvent config parse_body hmac_sha256 agentId req r s).
Proof.
  intros Hs. unfold handleCoreEvent. repeat case_match; try by apply tasks_json.
  apply tasks_json. eapply tasks_grow; [| |apply (tasks_ledger s)]; [..|apply grows_accept|apply ledger_accept|done].
  - apply grows_same; unfold rememberEvent; by repeat case_match.
  - unfold rememberEvent; by repeat case_match.
Qed.

Lemma tasks_handle_message agentId key req r s :
  is_Some (responses s !! r) -> tasks_ok s -> tasks_ok (handleMessage config parse_body randomUUID agentId key req r s).
Proof.
  intros Hr Hs. unfold handleMessage. repeat case_match; try by apply tasks_json.
  apply tasks_add; [split_and!; [done|cbn; lia|done]|]. apply (tasks_grow s); [by apply grows_same|done|done].
Qed.

Lemma grows_close_tracker s kt : grows s (close_tracker s kt).
Proof.
  unfold close_tracker. destruct (tracker_heap s !! kt.2) as [k|]; [|done].
  destruct (tk_active k); [apply grows_fail|]. destruct (expiryTimer k); by apply grows_same.
Qed.

Lemma close_fold l s :
  grows s (fold_left close_tracker l s) /\ tasks (fold_left close_tracker l s) = tasks s.
Proof.
  revert s. induction l as [|kt l IH]; intros s; [done|]. cbn. destruct (IH (close_tracker s kt)) as [Hg ->].
  split; [etrans; [apply grows_close_tracker|done]|]. unfold close_tracker.
  destruct (tracker_heap s !! kt.2) as [k|]; [|done]. destruct (tk_active k); [|by destruct (expiryTimer k)].
  by injection (ledger_fail kt.2 (PublicError 503 "HTTP adapter is shutting down") true s).
Qed.

Lemma tasks_step s op :
  tasks_ok s -> tasks_ok (step config decodeURIComponent parse_body parse_json hmac_sha256 randomUUID s op).
Proof.
  intros Hs. destruct op as [req|i o|i|i|r|r p|now|]; cbn [step].
  - set (s1 := s <| responses ::= _ |>).
    assert (is_Some (responses s1 !! length (responses s))) as Hr.
    { cbn. rewrite lookup_app_r by lia. by rewrite Nat.sub_diag. }
    assert (tasks_ok s1) as Hs1.
    { apply (tasks_grow s); [|done|done]. split; [|done|cbn; lia]. intros r x Hx. exists x. split; [|done].
      by apply lookup_app_l_Some. }
    unfold route. repeat case_match; first [by apply tasks_json|by apply tasks_core_event|by apply tasks_handle_message].
  - destruct (tasks s !! i) as [[h|]|] eqn:Hi; try done. apply tasks_core_answered; [|by apply tasks_drop].
    by apply (proj1 (Forall_lookup _ _) Hs i).
  - destruct (tasks s !! i) as [[|h c a]|] eqn:Hi; try done. destruct (_ ≫= _); [|done].
    by apply tasks_turn_answered, tasks_drop.
  - destruct (timers s !! i) as [tm|]; [|done]. destruct (_ && _); [|done].
    assert (tasks_ok (clearTimeout (Some i) s)) as Hs1 by by apply (tasks_grow s); [apply grows_same|..].
    destruct (tm_action tm) as [t|t]; cbn [run_timer].
    + eapply tasks_ledger; [apply grows_fail|apply ledger_fail|done].
    + destruct (tracker_heap _ !! t); [|done]. case_decide; [|done].
      by apply (tasks_grow (clearTimeout (Some i) s)); [apply grows_same|..].
  - eapply tasks_ledger; [apply grows_gone|apply ledger_frame, frame_client_gone|done].
  - apply (tasks_grow s); [|done..]. apply grows_response. intros x. by apply response_le_flags.
  - apply (tasks_grow s); [|done..]. split; [|done|cbn; lia]. intros r x Hx. by exists x.
  - unfold close. destruct (_ && _); [done|]. set (s1 := s <| closing := true |>).
    destruct (close_fold (trackers s1) s1) as [Hg Ht]. apply (tasks_grow s); [| |done].
    + etrans; [by apply (grows_same s s1)|]. etrans; [exact Hg|]. by apply grows_same.
    + change (tasks (fold_left close_tracker (trackers s1) s1) ⊆ tasks s). by rewrite Ht.
Qed.

Lemma reachable_turns s :
  reachable config decodeURIComponent parse_body parse_json hmac_sha256 randomUUID s ->
  tracked turn_limit s /\ tasks_ok s.
Proof.
  induction 1 as [s Hs|s op Hr [IHt IHk]].
  - apply new_adapter in Hs as ->. split; [split; cbn; naive_solver|constructor].
  - split; [|by apply tasks_step]. apply tracked_step; [|done]. intros i h Hi.
    pose proof (proj1 (Forall_lookup _ _) IHk i _ Hi) as (_ & Hat & _). done.
Qed.
(** ** A turn is answered *)

Lemma json_answers r status body s : is_Some (responses s !! r) -> is_answered (sendJson r status body s) r.
Proof.
  intros [x Hx]. cbn. eexists. cbn. rewrite list_lookup_alter_eq, Hx. cbn. split; [done|].
  destruct (headersSent x || writableEnded x || destroyed x) eqn:Ha; [exact Ha|done].
Qed.

Lemma error_answers h e s : is_Some (responses s !! hd_res h) -> is_answered (handler_error h e s) (hd_res h).
Proof.
  intros Hr. unfold handler_error. destruct (responses s !! hd_res h) as [x|] eqn:Hx; [|by destruct Hr].
  destruct (destroyed x || headersSent x) eqn:Hd.
  - exists x. split; [done|]. unfold answered. destruct (destroyed x), (headersSent x); cbn in *; by rewrite ?orb_true_r.
  - apply (json_answers _ _ _ s). by rewrite Hx.
Qed.

Lemma turn_answered_answers h c a r s :
  task_ok s (AwaitTurn h c a) -> is_answered (turn_answered h c r s) (hd_res h).
Proof.
  intros (Hr & _ & _ & Hst). destruct r as [e|e]; [|by apply error_answers]. unfold turn_answered.
  destruct (hd_stream h); [by apply Hst|]. repeat case_match; by apply json_answers.
Qed.

Lemma turn_answered_leaves h c r s :
  tasks (turn_answered h c r s) = tasks s /\ conversation h ∉ inFlightConversations (turn_answered h c r s).
Proof.
  assert (forall s, conversation h ∉ inFlightConversations (handler_finally h s)) as Hf.
  { intros s' Hin. apply elem_of_difference in Hin as [_ Hn]. by apply Hn, elem_of_singleton. }
  destruct r as [e|e]; unfold turn_answered, handler_error; (split; [by repeat case_match|apply Hf]).
Qed.

(** The timeout of an open turn settles it. *)
Lemma timeout_settles t a i tm s turn :
  timers s !! i = Some tm -> tm_action tm = TurnTimeout t ->
  active_turn t s = Some (a, turn) -> completion turn = None ->
  exists e, slots (run_timer (tm_action tm) (clearTimeout (Some i) s)) !! a = Some (at_timer turn, Some (Throw e)).
Proof.
  intros Htm -> Ha Hc. cbn [run_timer]. set (s1 := clearTimeout (Some i) s). set (e := PublicError 504 _). exists e.
  assert (active_turn t s1 = Some (a, turn)) as Ha1 by exact Ha.
  rewrite (slots_frame _ _ (frame_fail t a turn e false s1 Ha1)).
  apply active_turn_spec in Ha1 as (k & Hk & _ & Hu).
  destruct (end_turn_view t a turn (Throw e) s1 k Hk) as (_ & _ & _ & _ & ->). rewrite decide_True by done.
  unfold slots. rewrite list_lookup_fmap, Hu. cbn. by rewrite Hc.
Qed.

(** A turn that core never settles is settled by its timeout, within the limit. *)
Lemma turn_settles s a :
  tracked turn_limit s -> (a < length (turns s))%nat ->
  exists now i r, now <= clock s + turn_limit /\
    let s1 := step config decodeURIComponent parse_body parse_json hmac_sha256 randomUUID s (Tick now) in
    let s2 := step config decodeURIComponent parse_body parse_json hmac_sha256 randomUUID s1 (TimerFires i) in
    turns s2 !! a ≫= completion = Some r /\ tasks s2 = tasks s /\ grows s s2.
Proof.
  intros Hs [turn Hu]%lookup_lt_is_Some_2. assert (0 < turn_limit) as Hl by (unfold turn_limit; lia).
  destruct (completion turn) as [r|] eqn:Hc.
  - exists (clock s), (length (timers s)), r. split; [lia|]. cbn [step].
    change (timers (s <| clock ::= Z.max (clock s) |>)) with (timers s).
    rewrite (lookup_ge_None_2 (timers s) (length (timers s))) by done.
    change (turns (s <| clock ::= Z.max (clock s) |>)) with (turns s). rewrite Hu. split_and!; [done|done|]. split; [|done|cbn; lia]. intros r' x Hx. by exists x.
  - assert (slots s !! a = Some (at_timer turn, None)) as Hslot
      by (unfold slots; rewrite list_lookup_fmap, Hu; cbn; unfold turn_slot; by rewrite Hc).
    destruct (tr_open _ _ _ Hs a _ Hslot) as (t & k & Hk & Hact).
    destruct (tr_active _ _ _ Hs t k a Hk Hact) as (_ & i & Hi & tm & Htm & Htma & Hlive & Hdue).
    destruct Hlive as [Hlive|]; [|done].
    set (s1 := step config decodeURIComponent parse_body parse_json hmac_sha256 randomUUID s (Tick (tm_due tm))).
    assert (active_turn t s1 = Some (a, turn)) as Ha by (apply active_turn_spec; exists k; by split_and!).
    destruct (timeout_settles t a i tm s1 turn Htm Htma Ha Hc) as [e He].
    exists (tm_due tm), i, (Throw e). split; [done|]. cbv zeta. fold s1. cbn [step].
    change (timers s1 !! i) with (timers s !! i). rewrite Htm, Hlive. cbn [andb].
    replace (tm_due tm <=? clock s1) with true by (cbn; lia). split_and!.
    + unfold slots in He. rewrite list_lookup_fmap in He. set (s2 := run_timer _ _) in *. clearbody s2.
      destruct (turns s2 !! a) as [turn'|]; [|done]. by injection He.
    + rewrite Htma. cbn [run_timer].
      transitivity (tasks (clearTimeout (Some i) s1)); [|done]. apply ledger_tasks, ledger_fail.
    + rewrite Htma. cbn [run_timer]. etrans; [|apply grows_fail]. split; [|done|cbn; lia]. intros r' x Hx. by exists x.
Qed.
(** C36: Whether core calls back or not, a turn that began is answered within the
    turn timeout: once a timer of its state fires, at the latest at [turn_limit]
    from now, its handler goes on, its response is answered or its client gone, and
    its conversation is free again. *)
Theorem turn_is_answered s i h c a :
  reachable config decodeURIComponent parse_body parse_json hmac_sha256 randomUUID s ->
  tasks s !! i = Some (AwaitTurn h c a) ->
  exists now timer, now <= clock s + turn_limit /\
    let s' := fold_left (step config decodeURIComponent parse_body parse_json hmac_sha256 randomUUID)
                [Tick now; TimerFires timer; Resume i] s in
    is_answered s' (hd_res h) /\ tasks s' = base.delete i (tasks s) /\
    conversation h ∉ inFlightConversations s'.
Proof.
  intros Hr Hi. destruct (reachable_turns s Hr) as [Ht Hk].
  pose proof (proj1 (Forall_lookup _ _) Hk i _ Hi) as Hok.
  destruct Hok as (H1 & H2 & Hlt & H3). destruct (turn_settles s a Ht Hlt) as (now & timer & r & Hnow & Hset & Htasks & Hg).
  exists now, timer. split; [done|]. cbn [fold_left].
  set (s1 := step _ _ _ _ _ _ s (Tick now)) in *. set (s2 := step _ _ _ _ _ _ s1 (TimerFires timer)) in *.
  clearbody s2. clear s1. cbn [step]. rewrite Htasks, Hi, Hset.
  destruct (turn_answered_leaves h c r (drop_task i s2)) as [-> Hfree]. split_and!; [|cbn; by rewrite Htasks|done].
  apply (turn_answered_answers h c a). assert (grows s (drop_task i s2)) as Hg' by (etrans; [exact Hg|by apply grows_same]).
  eapply task_grows; [exact Hg'|]. by split_and!.
Qed.
End turns.

(** ** A message that core takes and never answers *)

Module TurnSample.
Definition sample_config : HttpAdapterConfig :=
  mkHttpConfig "127.0.0.1" 8080 "http://core" 1024 5000 None [mkAgent "dev" "http-dev" "secret"].
Definition sample_request (m path : string) : HttpRequest :=
  mkRequest m (Some path) no_header (one_header "application/json") no_header no_header no_header [[]].
Definition sample_body (b : list N) : option value := Some (VObject [("message", VString "hi")]).
Definition sample_json (raw : string) : option value := Some (VObject [("correlationId", VString raw)]).
Definition sample_uuid (n : nat) : string := "00000000-0000-4000-8000-000000000000".
Definition sample_step := step sample_config Some sample_body sample_json (fun _ b => b) sample_uuid.
Definition sample_start : HttpAgentAdapter := mkAdapter [] [] [] [] [] ∅ [] ∅ [] false true 0 [] [].
Definition sample_turn : HttpAgentAdapter :=
  fold_left sample_step [Request (sample_request "POST" "/v1/agents/dev/conversations/k/messages"); Tick 7; CoreAnswers 0 (CoreReplied 202 "c1")] sample_start.
Definition sample_handler : Handler := mkHandler 0 "dev" "k" false 0.
End TurnSample.

Lemma sample_reachable :
  reachable TurnSample.sample_config Some TurnSample.sample_body TurnSample.sample_json (fun _ b => b)
    TurnSample.sample_uuid TurnSample.sample_turn.
Proof.
  unfold TurnSample.sample_turn. cbn [fold_left]. do 3 apply reach_step. apply reach_new. by vm_compute.
Qed.

Lemma turn_is_answered_witness :
  exists now timer, now <= 5007 /\
    let s' := fold_left TurnSample.sample_step [Tick now; TimerFires timer; Resume 0] TurnSample.sample_turn in
    is_answered s' 0 /\ tasks s' = [] /\ ("dev", "k") ∉ inFlightConversations s'.
Proof.
  apply (turn_is_answered TurnSample.sample_config Some TurnSample.sample_body TurnSample.sample_json (fun _ b => b)
    TurnSample.sample_uuid TurnSample.sample_turn 0 TurnSample.sample_handler "c1" 0).
  - exact sample_reachable.
  - vm_compute. reflexivity.
Defined.

(** Its timeout answers it with 504. *)
Example silent_core_is_504 :
  output <$> responses (fold_left TurnSample.sample_step [Tick 5000; TimerFires 0; Resume 0] TurnSample.sample_turn) !! 0%nat =
  Some [JsonReply 504 (VObject [("error", VString "agent turn timed out")])].
Proof. vm_compute. reflexivity. Qed.

(** With a timeout of more than 2^31-1 ms, which [positiveInteger] takes, Node's
    timer fires after a millisecond. *)
Example long_timeout_is_504 :
  let config := mkHttpConfig "127.0.0.1" 8080 "http://core" 1024 3000000000 None [mkAgent "dev" "http-dev" "secret"] in
  let run := fold_left (step config Some TurnSample.sample_body TurnSample.sample_json (fun _ b => b) TurnSample.sample_uuid) in
  positiveInteger "OMP_HTTP_TURN_TIMEOUT_MS" (Some "3000000000") 900000 = Ok 3000000000 /\
  output <$> responses (run [Request (TurnSample.sample_request "POST" "/v1/agents/dev/conversations/k/messages");
    CoreAnswers 0 (CoreReplied 202 "c1"); Tick 1; TimerFires 0; Resume 0] TurnSample.sample_start) !! 0%nat =
  Some [JsonReply 504 (VObject [("error", VString "agent turn timed out")])].
Proof. vm_compute. by split. Qed.
