(* ===== verification/HttpStreams.v ===== *)
(** * What the HTTP adapter's responses have sent

    [well_formed]: a response has sent nothing, one JSON reply, or a stream: its head,
    [accepted], then deltas and progress of its turn in order of their sequence, then
    at most one last event.  [streamed] is kept by every step; [U] are the responses
    of the handlers that still wait for core, which have sent nothing. *)

From S2P Require Import Prelude RecordUpdate Promises JsMap JsString JsValue Contracts Canonical.
From S2P Require Import AdapterRegistry HttpWire HttpAdapter HttpAdapterBooks HttpTurns.
From stdpp Require Import gmap.
From stdpp Require Import options.
#[local] Open Scope Z_scope.

(** ** The grammar of a response *)

Definition accepted_frame (c : string) : SseFrame :=
  mkSse "accepted" (VObject [("correlationId", VString c)]) None.

(** An event goes on the stream under this name. *)
Definition progress_name (e : CoreEvent) (name : string) : Prop :=
  (ce_type e = "turn.delta" /\ name = "delta") \/ (ce_type e = "turn.progress" /\ name = "progress").

(** A stream of [c] in conversation [key] that is not ended; [n] is its last id. *)
Inductive streaming (c key : string) : Z -> list Output -> Prop :=
| stream_accepted : streaming c key 0 [SseHead; SseWrite (accepted_frame c)]
| stream_event n outs e name :
    streaming c key n outs -> n < ce_sequence e -> ce_correlationId e = c -> ce_conversationKey e = key ->
    progress_name e name -> streaming c key (ce_sequence e) (outs ++ [SseWrite (event_frame name e)]).

(** The last event of a stream: the terminal of its turn, or an error of the adapter. *)
Inductive last_frame (c key : string) : SseFrame -> Prop :=
| last_terminal e name :
    ce_correlationId e = c -> ce_conversationKey e = key -> last_frame c key (event_frame name e)
| last_error m : last_frame c key (mkSse "error" (VObject [("error", VString m)]) None).

Inductive well_formed : list Output -> Prop :=
| sent_nothing : well_formed []
| sent_reply status body : well_formed [JsonReply status body]
| sent_head : well_formed [SseHead]
| sent_stream c key n outs : streaming c key n outs -> well_formed outs
| sent_end c key n outs f : streaming c key n outs -> last_frame c key f -> well_formed (outs ++ [SseEnd f]).

(** ** The invariant *)

Definition turn_sse (a : ActiveTurn) : string * Z * option nat * nat :=
  (at_conversationKey a, lastSequence a, at_stream a, at_timer a).
Definition corrs (s : HttpAgentAdapter) : list string := tk_correlationId <$> tracker_heap s.
Definition actions (s : HttpAgentAdapter) : list TimerAction := tm_action <$> timers s.

(** A tracker buffers events of its correlation. *)
Definition buffer_ok (k : TurnTracker) : Prop :=
  Forall (fun e => ce_correlationId e = tk_correlationId k) (buffered k ++ option_list (terminal k)).
Definition buffers_ok (s : HttpAgentAdapter) : Prop := Forall buffer_ok (tracker_heap s).

Record streamed (U : list nat) (s : HttpAgentAdapter) : Prop := {
  st_shape : forall r y, responses s !! r = Some y ->
    well_formed (output y) /\ (headersSent y = false -> output y = []);
  st_open : forall x st, streams s !! x = Some st -> sse_closed st = false ->
    exists y c key last n, responses s !! sse_res st = Some y /\ headersSent y = true /\
      corrs s !! sse_tracker st = Some c /\
      (exists o i, turn_sse <$> turns s !! sse_turn st = Some (key, last, o, i)) /\
      streaming c key n (output y) /\ n <= last;
  st_distinct : forall x1 x2 st1 st2, streams s !! x1 = Some st1 -> streams s !! x2 = Some st2 ->
    sse_closed st1 = false -> sse_closed st2 = false -> sse_res st1 = sse_res st2 -> x1 = x2;
  st_attached : forall a turn x, turns s !! a = Some turn -> at_stream turn = Some x ->
    exists st, streams s !! x = Some st /\ sse_turn st = a /\
               actions s !! at_timer turn = Some (TurnTimeout (sse_tracker st));
  st_unsent : forall r, r ∈ U -> exists y, responses s !! r = Some y /\ headersSent y = false;
  st_buffers : buffers_ok s
}.

(** The rest of the state only matters as far as it grows. *)
Lemma streamed_ext U s s' l :
  responses s' = responses s -> streams s' = streams s ->
  turn_sse <$> turns s' = (turn_sse <$> turns s) ++ l -> Forall (fun v => v.1.2 = None) l ->
  corrs s `prefix_of` corrs s' -> actions s `prefix_of` actions s' -> buffers_ok s' -> streamed U s -> streamed U s'.
Proof.
  intros Hr Hst Ht Hl Hc Ha Hb [H1 H2 H3 H4 H5 H6].
  assert (forall a, turn_sse <$> turns s' !! a = ((turn_sse <$> turns s) ++ l) !! a) as Hta.
  { intros a. by rewrite <- list_lookup_fmap, Ht. }
  split; rewrite ?Hr, ?Hst; try done.
  - intros x st Hx Ho. destruct (H2 x st Hx Ho) as (y & c & key & last & n & Hy & Hh & Hcc & (o & i & Hturn) & Hs & Hn).
    exists y, c, key, last, n. split_and!; try done; [by eapply prefix_lookup_Some|]. exists o, i.
    rewrite Hta. apply lookup_app_l_Some. by rewrite list_lookup_fmap.
  - intros a turn x Hturn Hx. specialize (Hta a). rewrite Hturn in Hta. cbn in Hta. symmetry in Hta.
    apply lookup_app_Some in Hta as [Hold|[_ Hnew]].
    + rewrite list_lookup_fmap in Hold. destruct (turns s !! a) as [turn0|] eqn:Hturn0; [|done].
      injection Hold as Hkey Hlast Hstr Htimer. rewrite <- Hstr in Hx.
      destruct (H4 a turn0 x Hturn0 Hx) as (st & Hx' & Hsa & Hact). exists st. split_and!; try done.
      rewrite <- Htimer. by eapply prefix_lookup_Some.
    + rewrite Forall_lookup in Hl. specialize (Hl _ _ Hnew). cbn in Hl. congruence.
Qed.

Lemma streamed_weaken U U' s : U' ⊆ U -> streamed U s -> streamed U' s.
Proof. intros HU [H1 H2 H3 H4 H5 H6]. split; auto. Qed.

(** ** Small changes *)

Lemma streamed_flags U r f s :
  (forall y, output (f y) = output y /\ headersSent (f y) = headersSent y) ->
  streamed U s -> streamed U (update_response r f s).
Proof.
  intros Hf [H1 H2 H3 H4 H5 H6].
  assert (forall r' y, responses s !! r' = Some y -> exists y', responses (update_response r f s) !! r' = Some y' /\
    output y' = output y /\ headersSent y' = headersSent y) as Hold.
  { intros r' y Hy. cbn. rewrite lookup_alter_list, Hy. case_decide; [|by exists y]. exists (f y). by split; [|apply Hf]. }
  split; try done.
  - intros r' y' Hy'. destruct (responses s !! r') as [y|] eqn:Hy.
    + destruct (Hold r' y Hy) as (y2 & Hy2 & Ho & Hh). rewrite Hy' in Hy2. injection Hy2 as <-. rewrite Ho, Hh.
      by apply (H1 r').
    + cbn in Hy'. rewrite lookup_alter_list, Hy in Hy'. by case_decide.
  - intros x st Hx Hc. destruct (H2 x st Hx Hc) as (y & c & key & last & n & Hy & Hh & H).
    destruct (Hold _ y Hy) as (y' & Hy' & Ho & Hh'). exists y', c, key, last, n. by rewrite Ho, Hh'.
  - intros r' Hr'. destruct (H5 r' Hr') as (y & Hy & Hh). destruct (Hold r' y Hy) as (y' & Hy' & _ & Hh').
    exists y'. by rewrite Hh'.
Qed.

Lemma streamed_stream U x g s :
  (forall y, sse_res (g y) = sse_res y /\ sse_tracker (g y) = sse_tracker y /\ sse_turn (g y) = sse_turn y /\
             (sse_closed (g y) = false -> sse_closed y = false)) ->
  streamed U s -> streamed U (update_stream x g s).
Proof.
  intros Hg [H1 H2 H3 H4 H5 H6].
  assert (forall x' st', streams (update_stream x g s) !! x' = Some st' -> exists st, streams s !! x' = Some st /\
    sse_res st' = sse_res st /\ sse_tracker st' = sse_tracker st /\ sse_turn st' = sse_turn st /\
    (sse_closed st' = false -> sse_closed st = false)) as Hold.
  { intros x' st' Hx. cbn in Hx. rewrite lookup_alter_list in Hx. case_decide; [|by exists st'].
    destruct (streams s !! x') as [st|]; [|done]. injection Hx as <-. exists st. split; [done|]. apply Hg. }
  split; try done.
  - intros x' st' Hx Hc. destruct (Hold x' st' Hx) as (st & Hst & -> & -> & -> & Hcl). by apply (H2 x' st); [|apply Hcl].
  - intros x1 x2 st1 st2 Hx1 Hx2 Hc1 Hc2. destruct (Hold x1 st1 Hx1) as (s1 & Hs1 & -> & _ & _ & Hcl1).
    destruct (Hold x2 st2 Hx2) as (s2 & Hs2 & -> & _ & _ & Hcl2). apply (H3 x1 x2 s1 s2); auto.
  - intros a turn x' Ha Hs. destruct (H4 a turn x' Ha Hs) as (st & Hst & Hta & Hact). cbn.
    rewrite lookup_alter_list, Hst. case_decide; [|by exists st]. exists (g st). split; [done|].
    by destruct (Hg st) as (_ & -> & -> & _).
Qed.

(** A turn forgets its stream, or moves on. *)
Lemma streamed_turn U a g s :
  (forall y, at_conversationKey (g y) = at_conversationKey y /\ at_timer (g y) = at_timer y /\
             (at_stream (g y) = at_stream y \/ at_stream (g y) = None)) ->
  (forall y, turns s !! a = Some y -> lastSequence y <= lastSequence (g y)) ->
  streamed U s -> streamed U (update_turn a g s).
Proof.
  intros Hg Hl [H1 H2 H3 H4 H5 H6]. split; try done.
  - intros x st Hx Hc. destruct (H2 x st Hx Hc) as (y & c & key & last & n & Hy & Hh & Hcc & (o & i & Ht) & Hs & Hn).
    cbn. rewrite lookup_alter_list. destruct (turns s !! sse_turn st) as [turn|] eqn:Hturn; [|done].
    injection Ht as <- <- _ _. case_decide as Hd.
    + exists y, c, (at_conversationKey turn), (lastSequence (g turn)), n. split_and!; try done.
      * exists (at_stream (g turn)), (at_timer (g turn)). cbn. unfold turn_sse. by destruct (Hg turn) as (-> & _).
      * etrans; [exact Hn|]. apply Hl. by rewrite <- Hd.
    + exists y, c, (at_conversationKey turn), (lastSequence turn), n. split_and!; try done. by exists (at_stream turn), (at_timer turn).
  - intros a' turn x Ha Hx. cbn in Ha. rewrite lookup_alter_list in Ha. case_decide; [|by eapply H4].
    destruct (turns s !! a') as [turn0|] eqn:Hturn0; [|done]. injection Ha as <-.
    destruct (Hg turn0) as (_ & Htimer & [Hs|Hs]); rewrite Hs in Hx; [|done].
    change (actions (update_turn a g s)) with (actions s). rewrite Htimer. by apply (H4 a' turn0).
Qed.

Lemma streamed_on_detach U x st s : streamed U s -> streamed U (on_detach x st s).
Proof.
  intros Hs. unfold on_detach. destruct (tracker_heap s !! _); [|done]. destruct (turns s !! _); [|done].
  case_decide; [|done]. apply streamed_turn; [by auto|done|done].
Qed.

Lemma streamed_detach U x b s : streamed U s -> streamed U (detach x b s).
Proof.
  intros Hs. unfold detach. destruct (streams s !! x) as [st|]; [|done]. destruct (sse_closed st); [done|].
  apply streamed_on_detach. destruct b; [apply streamed_flags; [done|]|]; by apply streamed_stream.
Qed.

Lemma streamed_gone U r s : streamed U s -> streamed U (client_gone r s).
Proof.
  intros Hs. unfold client_gone. set (s0 := update_response r _ s).
  assert (streamed U s0) as Hs0 by by apply streamed_flags.
  generalize (seq 0 (length (streams s0))). intros l. revert Hs0. generalize s0.
  induction l as [|x l IH]; intros s1 Hs1; [done|]. cbn [fold_left]. apply IH.
  destruct (streams s1 !! x) as [st|]; [|done]. case_decide; [|done].
  destruct (sse_listening st); [by apply streamed_detach|done].
Qed.

(** A response that has sent nothing gets a reply. *)
Lemma streamed_json U r status body s : r ∉ U -> streamed U s -> streamed U (sendJson r status body s).
Proof.
  intros HU [H1 H2 H3 H4 H5 H6].
  assert (forall r' y, responses s !! r' = Some y -> headersSent y = true \/ r' ∈ U ->
    responses (sendJson r status body s) !! r' = Some y) as Hold.
  { intros r' y Hy Hd. cbn. rewrite lookup_alter_list, Hy. case_decide; [subst|done].
    destruct Hd as [Hd|]; [|done]. cbn. by rewrite Hd. }
  split; try done.
  - intros r' y' Hy'. cbn in Hy'. rewrite lookup_alter_list in Hy'. case_decide; [|by apply (H1 r')].
    destruct (responses s !! r') as [y|] eqn:Hy; [|done]. injection Hy' as <-. destruct (H1 r' y Hy) as [Hw Hh].
    destruct (headersSent y || writableEnded y || destroyed y) eqn:Hsent; [by split|].
    bools. cbn. rewrite Hh by done. split; [constructor|done].
  - intros x st Hx Hc. destruct (H2 x st Hx Hc) as (y & c & key & last & n & Hy & Hh & H).
    exists y, c, key, last, n. split; [by apply Hold; [|left]|done].
  - intros r' Hr'. destruct (H5 r' Hr') as (y & Hy & Hh). exists y. split; [by apply Hold; [|right]|done].
Qed.

(** ** Events *)

Lemma open_of U x st s y turn c :
  streamed U s -> streams s !! x = Some st -> sse_closed st = false -> responses s !! sse_res st = Some y ->
  turns s !! sse_turn st = Some turn -> corrs s !! sse_tracker st = Some c ->
  headersSent y = true /\ exists n, streaming c (at_conversationKey turn) n (output y) /\ n <= lastSequence turn.
Proof.
  intros Hs Hx Ho Hy Hturn Hc. destruct (st_open _ _ Hs x st Hx Ho) as (y' & c' & key & last & n & Hy' & Hh & Hc' & (o & i & Ht) & Hst & Hn).
  rewrite Hy in Hy'. rewrite Hc in Hc'. rewrite Hturn in Ht. simplify_eq/=. injection Ht as <- <- _ _. split; [done|by exists n].
Qed.

Lemma streamed_event U x st turn e name s :
  streams s !! x = Some st -> sse_closed st = false -> turns s !! sse_turn st = Some turn ->
  lastSequence turn < ce_sequence e -> corrs s !! sse_tracker st = Some (ce_correlationId e) ->
  ce_conversationKey e = at_conversationKey turn -> progress_name e name -> streamed U s ->
  streamed U (update_response (sse_res st) (emit (SseWrite (event_frame name e)))
    (update_turn (sse_turn st) (fun a => a <| lastSequence := ce_sequence e |>) s)).
Proof.
  intros Hx Ho Hturn Hlt Hc Hkey Hname Hs.
  assert (streamed U (update_turn (sse_turn st) (fun a => a <| lastSequence := ce_sequence e |>) s)) as Hs1.
  { apply streamed_turn; [by auto| |done]. intros y Hy. cbn. simplify_eq. lia. }
  destruct (st_open _ _ Hs x st Hx Ho) as (y & _ & _ & _ & _ & Hy & _).
  destruct (open_of U x st s y turn _ Hs Hx Ho Hy Hturn Hc) as (Hh & n & Hst & Hn).
  assert (streaming (ce_correlationId e) (at_conversationKey turn) (ce_sequence e)
    (output y ++ [SseWrite (event_frame name e)])) as Hst' by (by apply (stream_event _ _ n); [|lia|..]).
  set (s1 := update_turn _ _ s) in *.
  assert (responses s1 !! sse_res st = Some y) as Hy1 by exact Hy.
  split; try apply Hs1.
  - intros r y' Hy'. cbn in Hy'. rewrite lookup_alter_list in Hy'. case_decide; [|by apply (st_shape _ _ Hs r)].
    subst. rewrite Hy in Hy'. injection Hy' as <-. cbn. split; [by eapply sent_stream|congruence].
  - intros x' st' Hx' Hc'. destruct (decide (sse_res st' = sse_res st)) as [Heq|Hne].
    + assert (x' = x) as -> by by apply (st_distinct _ _ Hs x' x st' st).
      change (streams s !! x = Some st') in Hx'. rewrite Hx in Hx'. injection Hx' as <-.
      exists (emit (SseWrite (event_frame name e)) y), (ce_correlationId e), (at_conversationKey turn), (ce_sequence e), (ce_sequence e).
      split_and!; try done.
      * cbn. by rewrite list_lookup_alter_eq, Hy.
      * exists (at_stream turn), (at_timer turn). cbn. by rewrite list_lookup_alter_eq, Hturn.
    + destruct (st_open _ _ Hs1 x' st' Hx' Hc') as (y' & c' & key & last & n' & Hy' & H).
      exists y', c', key, last, n'. split; [|exact H]. cbn. by rewrite lookup_alter_list, decide_False.
  - intros r Hr. destruct (st_unsent _ _ Hs r Hr) as (y' & Hy' & Hh'). exists y'. split; [|done]. cbn.
    rewrite lookup_alter_list, decide_False; [done|]. intros ->. congruence.
Qed.

(** [push] of an event that its turn has moved on to. *)
Lemma streamed_push U x st turn e name s :
  streams s !! x = Some st -> turns s !! sse_turn st = Some turn ->
  lastSequence turn < ce_sequence e -> corrs s !! sse_tracker st = Some (ce_correlationId e) ->
  ce_conversationKey e = at_conversationKey turn -> progress_name e name -> streamed U s ->
  streamed U (push x (event_frame name e) (update_turn (sse_turn st) (fun a => a <| lastSequence := ce_sequence e |>) s)).
Proof.
  intros Hx Hturn Hlt Hc Hkey Hname Hs.
  assert (streamed U (update_turn (sse_turn st) (fun a => a <| lastSequence := ce_sequence e |>) s)) as Hs1.
  { apply streamed_turn; [by auto| |done]. intros y Hy. cbn. simplify_eq. lia. }
  set (s1 := update_turn _ _ s) in *. unfold push. change (streams s1 !! x) with (streams s !! x). rewrite Hx.
  destruct (sse_closed st) eqn:Ho; [done|].
  assert (streamed U (update_response (sse_res st) (emit (SseWrite (event_frame name e))) s1)) as Hs2
    by by apply (streamed_event U x st turn).
  destruct (pipe <$> _) as [[]|]; [done|by apply streamed_detach..].
Qed.

(** [finish] *)
Lemma streamed_finish U x f s :
  (forall st c turn, streams s !! x = Some st -> corrs s !! sse_tracker st = Some c ->
     turns s !! sse_turn st = Some turn -> last_frame c (at_conversationKey turn) f) ->
  streamed U s -> streamed U (finish x f s).
Proof.
  intros Hf Hs. unfold finish. destruct (streams s !! x) as [st|] eqn:Hx; [|done].
  destruct (sse_closed st) eqn:Ho; [done|]. apply streamed_on_detach.
  destruct (st_open _ _ Hs x st Hx Ho) as (y & c & key & last & n & Hy & Hh & Hc & (o & i & Ht) & Hst & _).
  destruct (turns s !! sse_turn st) as [turn|] eqn:Hturn; [|done]. injection Ht as <- _ _ _.
  specialize (Hf st c turn eq_refl Hc Hturn).
  assert (streamed U (update_stream x (fun y => y <| sse_closed := true |> <| sse_listening := false |>) s)) as Hs1
    by by apply streamed_stream.
  set (s1 := update_stream x _ s) in *. set (g := fun r : Response => match pipe r with pipe_broken => _ | _ => _ end).
  assert (well_formed (output (g y)) /\ headersSent (g y) = true) as [Hw Hhg].
  { unfold g. destruct (pipe y); cbn; (split; [|done]); [by eapply sent_end..|by eapply sent_stream]. }
  split; try apply Hs1.
  - intros r y' Hy'. cbn in Hy'. rewrite lookup_alter_list in Hy'. case_decide; [|by apply (st_shape _ _ Hs r)].
    subst. rewrite Hy in Hy'. injection Hy' as <-. split; [done|congruence].
  - intros x' st' Hx' Hc'. destruct (st_open _ _ Hs1 x' st' Hx' Hc') as (y' & c' & key & last' & n' & Hy' & H).
    exists y', c', key, last', n'. split; [|exact H]. cbn. rewrite lookup_alter_list, decide_False; [done|].
    intros Heq. cbn in Hx'. rewrite lookup_alter_list in Hx'. case_decide as Hxx.
    + subst. rewrite Hx in Hx'. by injection Hx' as <-.
    + by apply Hxx, (st_distinct _ _ Hs x' x st' st).
  - intros r Hr. destruct (st_unsent _ _ Hs r Hr) as (y' & Hy' & Hh'). exists y'. split; [|done]. cbn.
    rewrite lookup_alter_list, decide_False; [done|]. intros ->. congruence.
Qed.

(** ** A stream starts *)

(** A response that has sent nothing becomes the one of a new stream. *)
Lemma streamed_fresh U r g st c key last o i s :
  r ∉ U -> sse_res st = r -> corrs s !! sse_tracker st = Some c ->
  turn_sse <$> turns s !! sse_turn st = Some (key, last, o, i) -> 0 <= last ->
  (forall y, headersSent (g y) = true /\ (output y = [] -> well_formed (output (g y)) /\
     (sse_closed st = false -> streaming c key 0 (output (g y))))) ->
  streamed (r :: U) s ->
  streamed U (update_response r g (s <| streams ::= fun l => l ++ [st] |>)).
Proof.
  intros HU Hres Hc Ht Hlast Hg [H1 H2 H3 H4 H5 H6].
  destruct (H5 r) as (y & Hy & Hhy); [set_solver|]. pose proof (proj2 (H1 r y Hy) Hhy) as Hout.
  destruct (Hg y) as [Hgh Hgo]. destruct (Hgo Hout) as [Hgw Hgs].
  assert (forall x st', streams s !! x = Some st' -> sse_closed st' = false -> sse_res st' <> r) as Hno.
  { intros x st' Hx Ho Heq. destruct (H2 x st' Hx Ho) as (y' & _ & _ & _ & _ & Hy' & Hh & _). congruence. }
  split.
  - intros r' y' Hy'. cbn in Hy'. rewrite lookup_alter_list in Hy'. case_decide; [|by apply (H1 r')].
    subst. rewrite Hy in Hy'. injection Hy' as <-. split; [done|congruence].
  - intros x st' Hx Ho. cbn in Hx. apply lookup_app_Some in Hx as [Hx|[_ Hx]].
    + destruct (H2 x st' Hx Ho) as (y' & c' & key' & last' & n' & Hy' & H). exists y', c', key', last', n'.
      split; [|exact H]. cbn. rewrite lookup_alter_list, decide_False; [done|]. by eapply Hno.
    + apply list_lookup_singleton_Some in Hx as [_ <-]. exists (g y), c, key, last, 0.
      split_and!; [|done|done|by exists o, i|by apply Hgs|done]. cbn. by rewrite Hres, list_lookup_alter_eq, Hy.
  - intros x1 x2 st1 st2 Hx1 Hx2 Ho1 Ho2 Heq. cbn in Hx1, Hx2.
    apply lookup_app_Some in Hx1 as [Hx1|[Hl1 Hx1]]; apply lookup_app_Some in Hx2 as [Hx2|[Hl2 Hx2]].
    + by apply (H3 x1 x2 st1 st2).
    + apply list_lookup_singleton_Some in Hx2 as [_ <-]. exfalso. apply (Hno x1 st1); congruence.
    + apply list_lookup_singleton_Some in Hx1 as [_ <-]. exfalso. apply (Hno x2 st2); congruence.
    + apply list_lookup_singleton_Some in Hx1 as [Hx1 _]. apply list_lookup_singleton_Some in Hx2 as [Hx2 _]. lia.
  - intros a turn x Ha Hx. destruct (H4 a turn x Ha Hx) as (st' & Hst' & H). exists st'. split; [|done]. cbn.
    by apply lookup_app_l_Some.
  - intros r' Hr'. destruct (H5 r') as (y' & Hy' & Hh'); [set_solver|]. exists y'. split; [|done]. cbn.
    rewrite lookup_alter_list, decide_False; [done|]. by intros ->.
  - exact H6.
Qed.

Lemma streamed_attach U a x st turn s :
  streams s !! x = Some st -> sse_turn st = a -> turns s !! a = Some turn ->
  actions s !! at_timer turn = Some (TurnTimeout (sse_tracker st)) ->
  streamed U s -> streamed U (update_turn a (fun y => y <| at_stream := Some x |>) s).
Proof.
  intros Hx Hst Hturn Hact [H1 H2 H3 H4 H5 H6]. split; try done.
  - intros x' st' Hx' Ho. destruct (H2 x' st' Hx' Ho) as (y & c & key & last & n & Hy & Hh & Hc & (o & i & Ht) & Hstr & Hle).
    exists y, c, key, last, n. split_and!; try done. cbn. rewrite lookup_alter_list. case_decide; [|by exists o, i].
    destruct (turns s !! sse_turn st') as [turn'|]; [|done]. injection Ht as <- <- _ <-. by exists (Some x), (at_timer turn').
  - intros a' turn' x' Ha Hx'. cbn in Ha. rewrite lookup_alter_list in Ha. case_decide; [|by eapply H4].
    subst. rewrite Hturn in Ha. injection Ha as <-. cbn in Hx'. injection Hx' as <-. by exists st.
Qed.

Lemma alter_last {A} (f : A -> A) l z : alter f (length l) (l ++ [z]) = l ++ [f z].
Proof. induction l as [|x l IH]; [done|]. cbn. f_equal. exact IH. Qed.

(** What [start] has done to the tables before its detach, if any. *)
Lemma start_tables r a x f g h k st s :
  x = length (streams s) ->
  update_response r f (update_stream x h (update_response r g (update_turn a k (s <| streams ::= fun l => l ++ [st] |>)))) =
  update_turn a k (update_response r (f ∘ g) (s <| streams ::= fun l => l ++ [h st] |>)).
Proof.
  intros ->. unfold update_response, update_stream, update_turn. cbn.
  by rewrite alter_last, list_alter_alter_eq.
Qed.

Lemma streamed_open_stream U t a r c turn s :
  r ∉ U -> turns s !! a = Some turn -> 0 <= lastSequence turn -> actions s !! at_timer turn = Some (TurnTimeout t) ->
  corrs s !! t = Some c -> destroyed <$> responses s !! r = Some false ->
  streamed (r :: U) s -> streamed U (open_stream t a r c s).
Proof.
  intros HU Hturn Hlast Hact Hc Hlive Hs. unfold open_stream.
  assert (forall st g, sse_res st = r -> sse_tracker st = t -> sse_turn st = a ->
    (forall y, headersSent (g y) = true /\ (output y = [] -> well_formed (output (g y)) /\
       (sse_closed st = false -> streaming c (at_conversationKey turn) 0 (output (g y))))) ->
    streamed U (update_turn a (fun y => y <| at_stream := Some (length (streams s)) |>)
      (update_response r g (s <| streams ::= fun l => l ++ [st] |>)))) as Hnew.
  { intros st g Hr Ht Ha Hg. apply (streamed_attach _ _ _ st turn); try done.
    - cbn. by apply list_lookup_middle.
    - by rewrite Ht.
    - apply (streamed_fresh U r g st c (at_conversationKey turn) (lastSequence turn) (at_stream turn) (at_timer turn)); try done.
      + by rewrite Ht.
      + by rewrite Ha, Hturn. }
  destruct (responses s !! r) as [y|] eqn:Hy; [|done]. cbn in Hlive.
  set (k := fun b : ActiveTurn => _). set (st0 := mkStream r t a false false).
  set (s0 := update_turn a k _). unfold start.
  assert (streams s0 !! length (streams s) = Some st0) as Hx by (by apply list_lookup_middle).
  rewrite Hx. change (sse_res st0) with r. change (responses s0) with (responses s). rewrite Hy. cbn [fmap option_fmap option_map default].
  injection Hlive as ->. set (head := fun b : Response => emit SseHead _). set (listen := fun b : SseResponse => _).
  set (s1 := update_stream _ _ _). unfold push.
  assert (streams s1 !! length (streams s) = Some (listen st0)) as Hx1.
  { cbn. rewrite list_lookup_alter_eq. by rewrite list_lookup_middle. }
  assert (responses s1 !! r = Some (head y)) as Hy1 by (cbn; by rewrite list_lookup_alter_eq, Hy).
  rewrite Hx1. change (sse_res (listen st0)) with r. change (sse_closed (listen st0)) with false. cbv iota.
  rewrite Hy1. cbn [fmap option_fmap option_map pipe head emit set_field].
  assert (streamed U (update_response r (emit (SseWrite (accepted_frame c))) s1)) as Hopen.
  { unfold s1, s0. rewrite start_tables by done. apply Hnew; try done. intros b. split; [done|]. cbn. intros ->. cbn.
    assert (streaming c (at_conversationKey turn) 0 [SseHead; SseWrite (accepted_frame c)]) as Hst by constructor.
    split; [by eapply sent_stream|done]. }
  destruct (pipe y); [exact Hopen|by apply streamed_detach|].
  unfold detach. rewrite Hx1. change (sse_closed (listen st0)) with false. cbv iota. change (sse_res (listen st0)) with r.
  apply streamed_on_detach. set (shut := fun b : SseResponse => b <| sse_closed := true |> <| sse_listening := false |>).
  replace (update_stream (length (streams s)) shut s1)
    with (update_stream (length (streams s)) (shut ∘ listen) (update_response r head s0))
    by (unfold s1, update_stream; cbn; by rewrite list_alter_alter_eq).
  unfold s0. rewrite start_tables by done. apply Hnew; try done. intros b. split; [done|]. cbn. intros ->. cbn.
  split; [constructor|done].
Qed.

(** ** Turns *)

Lemma buffer_reset k : buffer_ok (k <| buffered := [] |> <| bufferedBytes := 0 |> <| terminal := None |>).
Proof. constructor. Qed.

(** A tracker changes, not its correlation. *)
Lemma streamed_tracker U t g s :
  (forall k, tk_correlationId (g k) = tk_correlationId k) ->
  (forall k, tracker_heap s !! t = Some k -> buffer_ok k -> buffer_ok (g k)) ->
  streamed U s -> streamed U (update_tracker t g s).
Proof.
  intros Hg Hb Hs. apply (streamed_ext U s _ []); try done.
  - by rewrite app_nil_r.
  - unfold corrs. cbn. by rewrite fmap_alter_id.
  - pose proof (st_buffers _ _ Hs) as H6. unfold buffers_ok in *. rewrite Forall_lookup in *.
    intros i k. cbn. rewrite lookup_alter_list. case_decide; [subst|apply H6].
    destruct (tracker_heap s !! t) as [k0|] eqn:Hk; [|done]. intros [= <-]. by apply Hb, (H6 t).
Qed.

Lemma actions_clear id s : actions (clearTimeout id s) = actions s.
Proof. destruct id; [|done]. unfold actions. cbn. by rewrite fmap_alter_id. Qed.

Lemma streamed_clear U id s : streamed U s -> streamed U (clearTimeout id s).
Proof.
  intros Hs. apply (streamed_ext U s _ []); try (by destruct id); [|by rewrite actions_clear|].
  - rewrite app_nil_r. by destruct id.
  - destruct id; apply (st_buffers _ _ Hs).
Qed.

Lemma streamed_trackers U f s : streamed U s -> streamed U (s <| trackers ::= f |>).
Proof. intros [H1 H2 H3 H4 H5 H6]. by split. Qed.

Lemma streamed_end_tracker U t turn s : streamed U s -> streamed U (end_tracker t turn s).
Proof.
  intros Hs. unfold end_tracker. destruct (tracker_heap s !! t) as [k|]; [|done].
  match goal with |- streamed U (if _ then ?s1 <| trackers ::= _ |> else _) => assert (streamed U s1) as Hs1 end.
  { apply streamed_tracker; [done|intros; apply buffer_reset|]. by do 2 apply streamed_clear. }
  case_decide; [by apply streamed_trackers|done].
Qed.

Lemma streamed_settle U a r s : streamed U s -> streamed U (settle_turn a r s).
Proof. apply streamed_turn; [by auto|done]. Qed.

(** Its turn, and the correlation of its tracker, stay the same when a tracker ends. *)
Lemma end_tracker_same t turn s :
  streams (end_tracker t turn s) = streams s /\ turns (end_tracker t turn s) = turns s /\
  corrs (end_tracker t turn s) = corrs s.
Proof.
  unfold end_tracker, corrs. destruct (tracker_heap s !! t) as [k|]; [|done].
  destruct (expiryTimer k); case_decide; cbn; by rewrite fmap_alter_id.
Qed.

(** The stream of the active turn of [t] belongs to [t]. *)
Lemma stream_of_turn U l f t a turn x s :
  tracked_but l f s -> streamed U s -> active_turn t s = Some (a, turn) -> at_stream turn = Some x ->
  exists st, streams s !! x = Some st /\ sse_turn st = a /\ sse_tracker st = t.
Proof.
  intros Ht Hs (k & Hk & Ha & Hu)%active_turn_spec Hx.
  destruct (st_attached _ _ Hs a turn x Hu Hx) as (st & Hst & Hta & Hact). exists st. split_and!; [done|done|].
  destruct (tr_active _ _ _ Ht t k a Hk Ha) as (_ & i & Hi & tm & Htm & Htma & _).
  unfold slots in Hi. rewrite list_lookup_fmap, Hu in Hi. injection Hi as Hi _. cbn in Hi. subst i.
  unfold actions in Hact. rewrite list_lookup_fmap, Htm in Hact. cbn in Hact. congruence.
Qed.

(** The end of a turn: its tracker, its stream, its promise. *)
Lemma streamed_end U l fired t a turn r f s :
  tracked_but l fired s -> active_turn t s = Some (a, turn) ->
  (forall x st s', at_stream turn = Some x -> streams s !! x = Some st -> sse_turn st = a -> sse_tracker st = t ->
     streams s' = streams s -> corrs s' = corrs s -> at_conversationKey <$> turns s' = at_conversationKey <$> turns s ->
     streamed U s' -> streamed U (f x s')) ->
  streamed U s -> streamed U (settle_turn a r (drop_stream a turn f (end_tracker t turn s))).
Proof.
  intros Ht Ha Hf Hs. apply streamed_settle. unfold drop_stream.
  destruct (end_tracker_same t turn s) as (E1 & E2 & E3).
  match goal with |- streamed U (match _ with Some x => f x ?s1 | None => _ end) => assert (streamed U s1) as Hs1 end.
  { apply streamed_turn; [by auto|done|]. by apply streamed_end_tracker. }
  destruct (at_stream turn) as [x|] eqn:Hx; [|done].
  destruct (stream_of_turn U l fired t a turn x s Ht Hs Ha Hx) as (st & Hst & Hta & Htt).
  apply (Hf x st); try done. cbn. rewrite E2. by rewrite fmap_alter_id.
Qed.

Lemma streamed_fail U l f t e b s : tracked_but l f s -> streamed U s -> streamed U (failTurn t e b s).
Proof.
  intros Ht Hs. unfold failTurn. destruct (active_turn t s) as [[a turn]|] eqn:Ha; [|done].
  apply (streamed_end U l f); try done. intros x st s' _ _ _ _ _ _ _ Hs'.
  destruct b; [by apply streamed_detach|]. apply streamed_finish; [|done]. intros. constructor.
Qed.

(** A terminal event of the tracker's correlation. *)
Lemma streamed_complete U l t e s :
  corrs s !! t = Some (ce_correlationId e) ->
  (forall a turn, active_turn t s = Some (a, turn) -> ce_conversationKey e = at_conversationKey turn) ->
  tracked l s -> streamed U s -> streamed U (completeTurn t e s).
Proof.
  intros Hc Hkey Ht Hs. unfold completeTurn. destruct (active_turn t s) as [[a turn]|] eqn:Ha; [|done].
  specialize (Hkey a turn eq_refl). apply active_turn_spec in Ha as Hspec. destruct Hspec as (k & Hk & _ & Hu).
  apply (streamed_end U l None); try done. intros x st s' Hx Hst Hta Htt E1 E3 E2 Hs'.
  apply streamed_finish; [|done]. intros st' c turn' Hst' Hc' Hturn'. rewrite E1, Hst in Hst'. injection Hst' as <-.
  rewrite E3, Htt, Hc in Hc'. injection Hc' as <-. constructor; [done|]. rewrite Hkey.
  apply (f_equal (fun l => l !! a)) in E2. rewrite !list_lookup_fmap in E2. rewrite Hta in Hturn'.
  rewrite Hturn', Hu in E2. by injection E2.
Qed.

Lemma streamed_deliver U l t e s :
  corrs s !! t = Some (ce_correlationId e) -> tracked l s -> streamed U s -> streamed U (deliverEvent t e s).
Proof.
  intros Hc Ht Hs. unfold deliverEvent. destruct (active_turn t s) as [[a turn]|] eqn:Ha; [|done].
  destruct (String.eqb_spec (ce_conversationKey e) (at_conversationKey turn)) as [Hkey|]; cbn [negb];
    [|by eapply streamed_fail].
  destruct (Z.leb_spec (ce_sequence e) (lastSequence turn)) as [Hle|Hlt].
  { destruct (isTerminalEvent e); [|done]. apply (streamed_complete U l); try done. intros a' turn'. rewrite Ha. by intros [= <- <-]. }
  apply active_turn_spec in Ha as Hspec. destruct Hspec as (k & Hk & Hact & Hu).
  set (s1 := update_turn a _ s).
  assert (streamed U s1) as Hs1.
  { apply streamed_turn; [by auto| |done]. intros y Hy. cbn. simplify_eq. lia. }
  assert (forall name, progress_name e name ->
    streamed U (match at_stream turn with Some x => push x (event_frame name e) s1 | None => s1 end)) as Hp.
  { intros name Hname. destruct (at_stream turn) as [x|] eqn:Hx; [|done].
    destruct (stream_of_turn U l None t a turn x s Ht Hs Ha Hx) as (st & Hst & Hta & Htt). unfold s1. rewrite <- Hta.
    apply (streamed_push U x st turn); try done; [by rewrite Hta|by rewrite Htt]. }
  destruct (String.eqb_spec (ce_type e) "turn.delta"); [apply Hp; by left|].
  destruct (String.eqb_spec (ce_type e) "turn.progress"); [apply Hp; by right|].
  destruct (isTerminalEvent e); [|done]. apply (streamed_complete U l); try done.
  - intros a' turn' (k' & Hk' & Hact' & Hu')%active_turn_spec. change (tracker_heap s1) with (tracker_heap s) in Hk'.
    cbn in Hu'. rewrite lookup_alter_list in Hu'. assert (a' = a) as -> by congruence.
    rewrite decide_True, Hu in Hu' by done. by injection Hu' as <-.
  - eapply tracked_view; [|exact Ht]. unfold turn_view, slots, s1, update_turn. cbn. by rewrite fmap_alter_id.
Qed.

Lemma corrs_frame s s' : frame s' = frame s -> corrs s' = corrs s.
Proof. unfold corrs. by intros [= -> _]. Qed.

Lemma corrs_end t turn a r s : corrs (end_turn t a turn r s) = corrs s.
Proof. change (corrs (end_tracker t turn s) = corrs s). by destruct (end_tracker_same t turn s) as (_ & _ & ?). Qed.

Lemma corrs_complete t e s : corrs (completeTurn t e s) = corrs s.
Proof.
  destruct (active_turn t s) as [[a turn]|] eqn:Ha; [|unfold completeTurn; by rewrite Ha].
  by rewrite (corrs_frame _ _ (frame_complete t a turn e s Ha)), corrs_end.
Qed.

Lemma corrs_fail t e b s : corrs (failTurn t e b s) = corrs s.
Proof.
  destruct (active_turn t s) as [[a turn]|] eqn:Ha; [|unfold failTurn; by rewrite Ha].
  by rewrite (corrs_frame _ _ (frame_fail t a turn e b s Ha)), corrs_end.
Qed.

Lemma corrs_deliver t e s : corrs (deliverEvent t e s) = corrs s.
Proof.
  unfold deliverEvent. destruct (active_turn t s) as [[a turn]|]; [|done]. destruct (negb _); [apply corrs_fail|].
  destruct (ce_sequence e <=? _); [destruct (isTerminalEvent e); [apply corrs_complete|done]|].
  set (s1 := update_turn a _ s). change (corrs s) with (corrs s1).
  destruct (String.eqb _ "turn.delta"); [|destruct (String.eqb _ "turn.progress")].
  1,2: destruct (at_stream turn); [apply corrs_frame, frame_push|done].
  destruct (isTerminalEvent e); [apply corrs_complete|done].
Qed.

Lemma streamed_replay U l t c es s :
  Forall (fun e => ce_correlationId e = c) es -> corrs s !! t = Some c -> tracked l s -> streamed U s ->
  streamed U (replay_events t es s).
Proof.
  intros Hes. revert s. induction Hes as [|e es He Hes IH]; intros s Hc Ht Hs; [done|].
  unfold replay_events in *. cbn [fold_left]. apply IH; destruct (tracker_heap s !! t ≫= tk_active); try done.
  - by rewrite corrs_deliver.
  - by apply tracked_deliver.
  - eapply streamed_deliver; [by rewrite He|done|done].
Qed.

Lemma sort_forall (P : CoreEvent -> Prop) l : Forall P l -> Forall P (sort_by_sequence l).
Proof.
  intros Hl. unfold sort_by_sequence. assert (Forall P []) as Hacc by constructor. revert Hacc. generalize (@nil CoreEvent).
  induction Hl as [|e l He Hl IH]; intros acc Hacc; [done|]. cbn. apply IH. clear -He Hacc.
  induction Hacc as [|x acc Hx Hacc IH]; cbn; [by constructor|]. destruct (_ <=? _); by constructor; [|auto].
Qed.

(** *** A turn begins *)

Lemma streamed_new U k h s :
  buffer_ok k -> streamed U s -> streamed U (s <| tracker_heap ::= fun l => l ++ [k] |> <| trackers ::= h |>).
Proof.
  intros Hk Hs. apply streamed_trackers. apply (streamed_ext U s _ []); try done; [by rewrite app_nil_r|..].
  - unfold corrs. cbn. rewrite fmap_app. by eexists.
  - apply Forall_app. split; [apply (st_buffers _ _ Hs)|by constructor].
Qed.

Lemma streamed_timer U ms act s : streamed U s -> streamed U (setTimeout ms act s).2.
Proof.
  intros Hs. apply (streamed_ext U s _ []); try done; [by rewrite app_nil_r| |apply (st_buffers _ _ Hs)].
  unfold actions. cbn. rewrite fmap_app. by eexists.
Qed.

(** What [beginTurn] has made of [s1] when it opens the stream. *)
Lemma streamed_activate U t ms key s :
  streamed U s ->
  streamed U (update_tracker t (fun x => x <| tk_active := Some (length (turns s)) |>)
    ((setTimeout ms (TurnTimeout t) s).2 <| turns ::= fun u => u ++ [mkTurn key (length (timers s)) 0 None None] |>)).
Proof.
  intros Hs. apply streamed_tracker; [done|done|]. pose proof (streamed_timer U ms (TurnTimeout t) s Hs) as Hs1.
  set (s1 := (setTimeout ms (TurnTimeout t) s).2) in *.
  apply (streamed_ext U s1 _ [turn_sse (mkTurn key (length (timers s)) 0 None None)]); try done; [|by constructor|apply (st_buffers _ _ Hs1)].
  cbn. by rewrite fmap_app.
Qed.

(** The replay of what the tracker buffered. *)
Lemma streamed_take_replay U l t c s :
  corrs s !! t = Some c -> tracked l s -> streamed U s ->
  streamed U (replay_events t (take_replay t s)
    (update_tracker t (fun x => x <| buffered := [] |> <| bufferedBytes := 0 |> <| terminal := None |>) s)).
Proof.
  intros Hc Ht Hs. apply (streamed_replay U l t c).
  - unfold take_replay. destruct (tracker_heap s !! t) as [k|] eqn:Hk; [|constructor]. apply sort_forall.
    pose proof (proj1 (Forall_lookup _ _) (st_buffers _ _ Hs) t k Hk) as Hb. unfold buffer_ok in Hb.
    unfold corrs in Hc. rewrite list_lookup_fmap, Hk in Hc. injection Hc as <-. exact Hb.
  - unfold corrs in *. cbn. by rewrite fmap_alter_id.
  - apply tracked_tracker; [by auto|done].
  - apply streamed_tracker; [done|intros; apply buffer_reset|done].
Qed.

Lemma streamed_begin U l c key ms (stream : bool) r s :
  ms <= l -> 1 <= l -> r ∉ U -> tracked l s -> streamed (r :: U) s ->
  streamed U (beginTurn c key ms stream r s).2.
Proof.
  intros Hms Hl HU Ht Hs. unfold beginTurn. destruct (tracker_for c key s) as [t s1] eqn:Htf.
  destruct (tracked_tracker_for l c key s t s1 Ht Htf) as (Ht1 & Hj & k & Hk & Hc).
  assert (streamed (r :: U) s1) as Hs1.
  { unfold tracker_for in Htf. destruct (jget c (trackers s)); injection Htf as _ <-; [done|]. by apply streamed_new; [constructor|]. }
  rewrite Hk. cbn [mbind option_bind]. destruct (tk_active k) as [a|] eqn:Ha; [apply (streamed_weaken (r :: U)); [set_solver|done]|].
  pose proof (tracked_clear_expiry l None s1 t k Hk Ht1) as Ht2.
  pose proof (streamed_clear (r :: U) (expiryTimer k) s1 Hs1) as Hs2.
  destruct (clear_view (expiryTimer k) s1) as (Ch & Ct & _ & _). set (s2 := clearTimeout _ s1) in *.
  rewrite <- Ch in Hk. rewrite <- Ct in Hj. clearbody s2.
  pose proof (tracked_tracker l None t (fun x => x <| expiryTimer := None |>) s2 ltac:(intros; split_and!; auto) Ht2) as Ht3.
  pose proof (streamed_tracker (r :: U) t (fun x => x <| expiryTimer := None |>) s2 ltac:(done) ltac:(done) Hs2) as Hs3.
  apply (tracker_upd t (fun x => x <| expiryTimer := None |>)) in Hk.
  change (trackers s2) with (trackers (update_tracker t (fun x => x <| expiryTimer := None |>) s2)) in Hj.
  set (s3 := update_tracker t _ s2) in *. clearbody s3.
  pose proof (tracked_activate l t _ c ms key s3 Hk Ha Hc Hj Hms Hl Ht3) as Ht4.
  pose proof (streamed_activate (r :: U) t ms key s3 Hs3) as Hs4.
  assert ((turns s3 ++ [mkTurn key (length (timers s3)) 0 None None]) !! length (turns s3) =
    Some (mkTurn key (length (timers s3)) 0 None None)) as Hturn by by apply list_lookup_middle.
  assert (((timers s3 ++ [mkTimer (clock s3 + timer_delay ms) (TurnTimeout t) true]) !! length (timers s3)) =
    Some (mkTimer (clock s3 + timer_delay ms) (TurnTimeout t) true)) as Htimer by by apply list_lookup_middle.
  cbn [setTimeout snd] in *. set (s4 := update_tracker t _ _) in *.
  assert (corrs s4 !! t = Some c) as Hc4.
  { unfold corrs. rewrite list_lookup_fmap. cbn. rewrite list_lookup_alter_eq, Hk. cbn. by rewrite <- Hc. }
  assert (actions s4 !! length (timers s3) = Some (TurnTimeout t)) as Hact4.
  { unfold actions. rewrite list_lookup_fmap. cbn. by rewrite Htimer. }
  change (turns s4 !! length (turns s3) = Some (mkTurn key (length (timers s3)) 0 None None)) in Hturn.
  clearbody s4. 
  match goal with |- context [if ?b then open_stream ?t ?a ?r ?c ?x else ?x] =>
    set (s5 := if b then open_stream t a r c x else x) end.
  assert (tracked l s5 /\ corrs s5 = corrs s4 /\ streamed U s5) as (Ht5 & Hc5 & Hs5).
  { unfold s5. destruct stream; [|split_and!; [done|done|apply (streamed_weaken (r :: U)); [set_solver|done]]].
    destruct (default true (destroyed <$> responses s4 !! r)) eqn:Hd; cbn [andb negb].
    { split_and!; [done|done|apply (streamed_weaken (r :: U)); [set_solver|done]]. }
    split_and!; [eapply tracked_frame; [apply frame_open_stream|done]|apply corrs_frame, frame_open_stream|].
    eapply streamed_open_stream; try done. by destruct (responses s4 !! r) as [y|]; [destruct y as [? ? []]|]. }
  apply (streamed_take_replay U l t c); [by rewrite Hc5|done|done].
Qed.

(** ** Every step *)

Definition core_response (t : Task) : option nat := match t with AwaitCore h => Some (hd_res h) | AwaitTurn _ _ _ => None end.
Definition core_responses (l : list Task) : list nat := omap core_response l.
Definition task_response (t : Task) : nat := hd_res (task_handler t).

Lemma core_responses_sub l r : r ∈ core_responses l -> r ∈ task_response <$> l.
Proof.
  intros (t & Ht & Hr)%list_elem_of_omap. apply list_elem_of_fmap. exists t. split; [|done].
  destruct t; [by injection Hr as <-|done].
Qed.

(** The responses of the suspended handlers are their own. *)
Record streams_ok (s : HttpAgentAdapter) : Prop := {
  so_streamed : streamed (core_responses (tasks s)) s;
  so_own : NoDup (task_response <$> tasks s)
}.

Lemma streamed_ledger U s s' :
  responses s' = responses s -> streams s' = streams s -> turns s' = turns s -> timers s' = timers s ->
  tracker_heap s' = tracker_heap s -> streamed U s -> streamed U s'.
Proof.
  intros Hr Hs Ht Hm Hh [H1 H2 H3 H4 H5 H6].
  split; unfold corrs, actions, buffers_ok in *; rewrite ?Hr, ?Hs, ?Ht, ?Hm, ?Hh; done.
Qed.

Lemma ok_add t s :
  streamed (option_list (core_response t) ++ core_responses (tasks s)) s -> NoDup (task_response t :: (task_response <$> tasks s)) ->
  streams_ok (add_task t s).
Proof.
  intros Hs Hnd. split.
  - apply (streamed_ledger _ s); [done..|]. apply (streamed_weaken _ _ _) with (2 := Hs). cbn. unfold core_responses. rewrite omap_app.
    intros x. rewrite !elem_of_app. destruct t; cbn; set_solver.
  - change (tasks (add_task t s)) with (tasks s ++ [t]). rewrite fmap_app.
    change (task_response <$> [t]) with [task_response t]. by rewrite <- Permutation_cons_append.
Qed.

Lemma ok_drop i t s :
  tasks s !! i = Some t -> streams_ok s ->
  streamed (option_list (core_response t) ++ core_responses (tasks (drop_task i s))) (drop_task i s) /\
  NoDup (task_response t :: (task_response <$> tasks (drop_task i s))).
Proof.
  intros Hi [Hs Hnd]. split.
  - apply (streamed_ledger _ s); [done..|]. apply (streamed_weaken (core_responses (tasks s))); [|done].
    intros x. rewrite elem_of_app. unfold core_responses. rewrite !list_elem_of_omap. intros [Hx|(t' & Ht' & Hx)].
    + exists t. split; [by eapply list_elem_of_lookup_2|]. by destruct t; cbn in *; [apply list_elem_of_singleton in Hx as ->|apply not_elem_of_nil in Hx].
    + exists t'. split; [exact (list_subseteq_delete i (tasks s) t' Ht')|done].
  - by rewrite (delete_Permutation _ _ _ Hi) in Hnd.
Qed.

(** A handler ends, with a reply to its own response or none. *)
Lemma ok_finally h s s' :
  (s' = s \/ exists status body, s' = sendJson (hd_res h) status body s) ->
  NoDup (hd_res h :: (task_response <$> tasks s)) -> streamed (core_responses (tasks s)) s ->
  streams_ok (handler_finally h s').
Proof.
  intros Hs' [Hn Hnd]%NoDup_cons Hs.
  assert (streamed (core_responses (tasks s)) s' /\ tasks s' = tasks s) as [Hs1 Ht].
  { destruct Hs' as [->|(status & body & ->)]; [done|]. split; [|done]. apply streamed_json; [|done].
    intros Hr. by apply Hn, core_responses_sub. }
  split; [apply (streamed_ledger _ s'); try done; cbn; by rewrite Ht|cbn; by rewrite Ht].
Qed.

Lemma ok_error h e s :
  NoDup (hd_res h :: (task_response <$> tasks s)) -> streamed (core_responses (tasks s)) s -> streams_ok (handler_error h e s).
Proof. apply ok_finally. repeat case_match; try (by left); right; by do 2 eexists. Qed.

Section streams.
Context (config : HttpAdapterConfig) (decodeURIComponent : string -> option string)
  (parse_body : list N -> option value) (parse_json : string -> option value)
  (hmac_sha256 : string -> list N -> list N) (randomUUID : nat -> string).

Lemma ok_core_answered h o s :
  tracked (turn_limit config) s -> hd_startedAt h <= clock s ->
  NoDup (hd_res h :: (task_response <$> tasks s)) -> streamed (hd_res h :: core_responses (tasks s)) s ->
  streams_ok (core_answered config parse_json h o s).
Proof.
  intros Ht Hat Hnd Hs. assert (streamed (core_responses (tasks s)) s) as Hs0.
  { apply (streamed_weaken (hd_res h :: core_responses (tasks s))); [intros x Hx; by right|done]. }
  unfold core_answered. destruct (core_result parse_json o) as [c|e]; [|by apply ok_error].
  destruct (closing s); [by apply ok_error|]. apply NoDup_cons in Hnd as Hnd'. destruct Hnd' as [Hn _].
  match goal with |- context [beginTurn c ?key ?ms ?st ?r s] =>
    pose proof (streamed_begin (core_responses (tasks s)) (turn_limit config) c key ms st r s ltac:(unfold turn_limit; lia)
      ltac:(unfold turn_limit; lia) (fun H => Hn (core_responses_sub _ _ H)) Ht Hs) as Hb;
    pose proof (ledger_tasks _ _ (ledger_begin c key ms st r s)) as Hl end.
  destruct (beginTurn _ _ _ _ _ s) as [[a|e] s1]; cbn in Hb, Hl; rewrite <- Hl in *; [by apply ok_add|by apply ok_error].
Qed.

Lemma ok_turn_answered h c r s :
  NoDup (hd_res h :: (task_response <$> tasks s)) -> streamed (core_responses (tasks s)) s ->
  streams_ok (turn_answered h c r s).
Proof.
  destruct r as [e|e]; [|by apply ok_error]. apply ok_finally.
  repeat case_match; try (by left); right; by do 2 eexists.
Qed.

Lemma streamed_accept U e bytes s :
  tracked (turn_limit config) s -> streamed U s -> streamed U (acceptEvent config e bytes s).
Proof.
  intros Ht Hs.
  assert (forall t k s, tracker_heap s !! t = Some k -> tk_correlationId k = ce_correlationId e -> streamed U s ->
    streamed U (buffer_event t e bytes s)) as Hbuf.
  { intros t k s' Hk Hc Hs'. apply streamed_tracker; [intros k'; by repeat case_match| |done].
    intros k' Hk' Hb. assert (k' = k) as -> by congruence.
    assert (Forall (fun x => ce_correlationId x = tk_correlationId k) [e]) as He by by constructor.
    apply Forall_app in Hb as Hb'. destruct Hb' as [Hb1 Hb2]. destruct (isTerminalEvent e).
    - destruct (terminal k); [destruct (_ <? _); [|exact Hb]|]; by apply Forall_app.
    - destruct (_ || _); [exact Hb|]. apply Forall_app. split; [by apply Forall_app|exact Hb2]. }
  unfold acceptEvent. destruct (jget (ce_correlationId e) (trackers s)) as [t|] eqn:Hj; cbn [mbind option_bind].
  - destruct (tr_map _ _ _ Ht _ t Hj) as (k & Hk & Hc). destruct (_ ≫= _).
    + eapply streamed_deliver; [|exact Ht|done]. unfold corrs. rewrite list_lookup_fmap, Hk. cbn. by rewrite Hc.
    + destruct (negb _); [done|]. by eapply Hbuf.
  - destruct (negb _); [done|]. unfold createEarlyTracker.
    pose proof (streamed_timer U (turnTimeoutMs config) (EarlyExpiry (length (tracker_heap s))) s Hs) as Hs1.
    cbn [setTimeout snd] in *.
    eapply Hbuf; [by apply list_lookup_middle|done|]. apply streamed_new; [constructor|exact Hs1].
Qed.

Lemma ok_view s s' :
  responses s' = responses s -> streams s' = streams s -> turns s' = turns s -> timers s' = timers s ->
  tracker_heap s' = tracker_heap s -> tasks s' = tasks s -> streams_ok s -> streams_ok s'.
Proof. intros Hr Hs Ht Hm Hh Hk [H1 H2]. split; rewrite Hk; [by apply (streamed_ledger _ s)|done]. Qed.

Lemma ok_ledger s s' :
  ledger s' = ledger s -> (forall U, streamed U s -> streamed U s') -> streams_ok s -> streams_ok s'.
Proof. intros Hl Hs [H1 H2]. split; rewrite (ledger_tasks _ _ Hl); [by apply Hs|done]. Qed.

Lemma ok_json r status body s :
  r ∉ (task_response <$> tasks s) -> streams_ok s -> streams_ok (sendJson r status body s).
Proof.
  intros Hr [Hs Hnd]. split; [|done]. apply streamed_json; [|done]. intros Hin. by apply Hr, core_responses_sub.
Qed.

(** The response of a new request is nobody's. *)
Lemma new_response s :
  tasks_ok s -> streams_ok s ->
  let s1 := s <| responses ::= fun l => l ++ [mkResponse false false false pipe_open []] |> in
  streams_ok s1 /\ (length (responses s) ∉ (task_response <$> tasks s1)) /\
  responses s1 !! length (responses s) = Some (mkResponse false false false pipe_open []).
Proof.
  intros Hk [[H1 H2 H3 H4 H5 H6] Hnd] s1.
  assert (forall r y, responses s !! r = Some y -> responses s1 !! r = Some y) as Hold by (intros; by apply lookup_app_l_Some).
  split_and!.
  - split; [|done]. split; try done.
    + intros r y Hy. cbn in Hy. apply lookup_app_Some in Hy as [Hy|[_ Hy]]; [by apply (H1 r)|].
      apply list_lookup_singleton_Some in Hy as [_ <-]. split; [constructor|done].
    + intros x st Hx Ho. destruct (H2 x st Hx Ho) as (y & c & key & last & n & Hy & H). exists y, c, key, last, n.
      split; [by apply Hold|done].
    + intros r Hr. destruct (H5 r Hr) as (y & Hy & Hh). exists y. split; [by apply Hold|done].
  - intros (t & Ht & Hin)%list_elem_of_fmap. unfold tasks_ok in Hk. rewrite Forall_forall in Hk.
    destruct (Hk t Hin) as ([y Hy] & _). apply lookup_lt_Some in Hy. unfold task_response in Ht. lia.
  - by apply list_lookup_middle.
Qed.

Lemma streamed_remember U id s : streamed U s -> streamed U (rememberEvent id s).
Proof. intros Hs. unfold rememberEvent. repeat case_match; try done; by apply (streamed_ledger _ s). Qed.

Lemma ok_core_event agentId req r s :
  r ∉ (task_response <$> tasks s) -> tracked (turn_limit config) s -> streams_ok s ->
  streams_ok (handleCoreEvent config parse_body hmac_sha256 agentId req r s).
Proof.
  intros Hr Ht Hs. unfold handleCoreEvent. repeat case_match; try by apply ok_json.
  match goal with |- streams_ok (sendJson _ _ _ (rememberEvent ?id ?s1)) =>
    assert (tasks (rememberEvent id s1) = tasks s) as Hts;
    [transitivity (tasks s1); [unfold rememberEvent; by repeat case_match|apply ledger_tasks, ledger_accept]|] end.
  apply ok_json; [by rewrite Hts|]. destruct Hs as [Hs Hnd].
  split; rewrite Hts; [|done]. by apply streamed_remember, streamed_accept.
Qed.

Lemma ok_handle_message agentId key req r s :
  r ∉ (task_response <$> tasks s) -> responses s !! r = Some (mkResponse false false false pipe_open []) -> streams_ok s ->
  streams_ok (handleMessage config parse_body randomUUID agentId key req r s).
Proof.
  intros Hr Hnew Hs. unfold handleMessage. repeat case_match; try by apply ok_json.
  destruct Hs as [[Q1 Q2 Q3 Q4 Q5 Q6] Hnd]. apply ok_add.
  - split; try done. cbn. intros r' [->|Hr']%elem_of_cons; [by eexists|by apply Q5].
  - apply NoDup_cons. split; [done|exact Hnd].
Qed.

Lemma ok_close_tracker U s kt : tracked (turn_limit config) s -> streamed U s -> streamed U (close_tracker s kt).
Proof.
  intros Ht Hs. unfold close_tracker. destruct (tracker_heap s !! kt.2) as [k|]; [|done].
  destruct (tk_active k); [by eapply streamed_fail|by apply streamed_clear].
Qed.

Lemma streamed_close_fold U l s :
  tracked (turn_limit config) s -> streamed U s -> streamed U (fold_left close_tracker l s).
Proof.
  revert s. induction l as [|kt l IH]; intros s Ht Hs; [done|]. cbn. apply IH.
  - by apply tracked_close_tracker.
  - by apply ok_close_tracker.
Qed.

Lemma ok_timer i s tm :
  timers s !! i = Some tm -> tracked (turn_limit config) s -> streams_ok s ->
  streams_ok (run_timer (tm_action tm) (clearTimeout (Some i) s)).
Proof.
  intros Htm Ht Hs. destruct (tm_action tm) as [t|t] eqn:Hact; cbn [run_timer].
  - apply (ok_ledger s); [by rewrite ledger_fail, ledger_clear| |done]. intros U Hu.
    apply (streamed_clear U (Some i)) in Hu. apply (streamed_fail U (turn_limit config) (Some t)); [|done].
    apply (tracked_clear _ None); [|by left|done]. intros t' i' [= <-] (tm' & Htm' & Hact') _. congruence.
  - apply (ok_ledger s); [by repeat case_match| |done]. intros U Hu. apply (streamed_clear U (Some i)) in Hu.
    destruct (tracker_heap _ !! t); [|done]. case_decide; [by apply streamed_trackers|done].
Qed.

Lemma streams_ok_step s op :
  tracked (turn_limit config) s -> tasks_ok s -> streams_ok s ->
  streams_ok (step config decodeURIComponent parse_body parse_json hmac_sha256 randomUUID s op).
Proof.
  intros Ht Hk Hs. destruct op as [req|i o|i|i|r|r p|now|]; cbn [step].
  - destruct (new_response s Hk Hs) as (Hs1 & Hr & Hnew). set (s1 := s <| responses ::= _ |>) in *.
    assert (tracked (turn_limit config) s1) as Ht1 by by apply (tracked_view _ _ s). clearbody s1.
    unfold route. repeat case_match; first [by apply ok_json|by apply ok_core_event|by apply ok_handle_message].
  - destruct (tasks s !! i) as [[h|]|] eqn:Hi; try done. destruct (ok_drop i _ s Hi Hs) as [Hs' Hnd].
    apply ok_core_answered; [by apply (tracked_view _ _ s)| |done|done].
    by destruct (proj1 (Forall_lookup _ _) Hk i _ Hi) as (_ & Hat & _).
  - destruct (tasks s !! i) as [[|h c a]|] eqn:Hi; try done. destruct (_ ≫= _); [|done].
    destruct (ok_drop i _ s Hi Hs) as [Hs' Hnd]. by apply ok_turn_answered.
  - destruct (timers s !! i) as [tm|] eqn:Htm; [|done]. destruct (_ && _); [|done]. by apply ok_timer.
  - apply (ok_ledger s); [apply ledger_frame, frame_client_gone| |done]. intros U. apply streamed_gone.
  - apply (ok_ledger s); [done| |done]. intros U. by apply streamed_flags.
  - by apply (ok_view s).
  - unfold close. destruct (_ && _); [done|]. set (s1 := s <| closing := true |>).
    destruct (close_fold (trackers s1) s1) as [_ Hts]. destruct Hs as [Hs Hnd].
    assert (streamed (core_responses (tasks s)) (fold_left close_tracker (trackers s1) s1)) as Hs2.
    { apply streamed_close_fold; [by apply (tracked_view _ _ s)|by apply (streamed_ledger _ s)]. }
    apply (ok_view (fold_left close_tracker (trackers s1) s1)); [done..|]. by split; rewrite Hts.
Qed.

Lemma reachable_streams s :
  reachable config decodeURIComponent parse_body parse_json hmac_sha256 randomUUID s -> streams_ok s.
Proof.
  induction 1 as [s Hs|s op Hr IH].
  - apply new_adapter in Hs as ->. split; [|constructor]. split; cbn; try done; [|constructor].
    intros r Hr. by apply not_elem_of_nil in Hr.
  - destruct (reachable_turns _ _ _ _ _ _ _ Hr). by apply streams_ok_step.
Qed.

(** C35: Whatever clients and core send, in any order, a response has sent nothing, one
    JSON reply, or a stream: its head, [accepted], then the deltas and the progress of
    one turn (one correlation, one conversation) in increasing order of their ids, and
    at most one last event, after which nothing is written. *)
Theorem response_well_formed s r x :
  reachable config decodeURIComponent parse_body parse_json hmac_sha256 randomUUID s ->
  responses s !! r = Some x -> well_formed (output x).
Proof. intros Hs Hx. by apply (st_shape _ _ (so_streamed _ (reachable_streams s Hs)) r x Hx). Qed.
End streams.

(** ** A stream *)

Example stream_output :
  (fun x => List.map (fun o => match o with SseWrite f | SseEnd f => (sse_event f, sse_id f) | SseHead => ("head", None) | JsonReply _ _ => ("json", None) end)
     (output x)) <$> responses StreamSample.stream_end !! 0%nat =
  Some [("head", None); ("accepted", None); ("delta", Some 1); ("delta", Some 2); ("completed", Some 3)].
Proof. vm_compute. reflexivity. Qed.

Lemma response_well_formed_witness :
  exists x, responses StreamSample.stream_end !! 0%nat = Some x /\ length (output x) = 5%nat /\ well_formed (output x).
Proof.
  destruct (responses StreamSample.stream_end !! 0%nat) as [x|] eqn:Hx; [|by vm_compute in Hx].
  exists x. split_and!; [done|vm_compute in Hx; by injection Hx as <-|].
  apply (response_well_formed StreamSample.stream_config Some StreamSample.stream_body StreamSample.stream_json
    StreamSample.stream_hmac (fun _ => "u") StreamSample.stream_end 0); [|exact Hx].
  unfold StreamSample.stream_end, StreamSample.stream_ops. cbn [fold_left]. do 7 apply reach_step. apply reach_new. by vm_compute.
Defined.
