(* ===== verification/JsonSchema.v ===== *)
(** * JSON schemas

    The keywords of JSON Schema (2020-12) that packages/contracts/schemas uses, and
    when a value is valid against a schema: a keyword says nothing of the values it
    is not about. *)

From S2P Require Import Prelude JsString JsValue.
From stdpp Require Import options.
#[local] Open Scope Z_scope.

Inductive json_type : Type := t_object | t_array | t_string | t_boolean.

Inductive schema : Type := Keywords (keywords : list keyword)
with keyword : Type :=
| k_type (t : json_type)
| k_const (s : string)
| k_minLength (n : Z)
| k_minItems (n : Z)
| k_required (names : list string)
(** [properties], with [additionalProperties: false] when [closed] *)
| k_properties (closed : bool) (props : list (string * schema))
| k_items (item : schema)
| k_allOf (parts : list schema)
| k_if (condition consequence : schema).

Definition has_type (t : json_type) (v : value) : bool :=
  match t, v with
  | t_object, VObject _ | t_array, VArray _ | t_string, VString _ | t_boolean, VBool _ => true
  | _, _ => false
  end.

Fixpoint validates (s : schema) (v : value) : bool :=
  match s with Keywords ks => forallb (fun k => valid_keyword k v) ks end
with valid_keyword (k : keyword) (v : value) : bool :=
  match k with
  | k_type t => has_type t v
  | k_const s => match v with VString s' => String.eqb s s' | _ => false end
  | k_minLength n => match v with VString s => n <=? Z.of_nat (String.length s) | _ => true end
  | k_minItems n => match v with VArray l => n <=? Z.of_nat (length l) | _ => true end
  | k_required names => match v with VObject ps => forallb (fun n => has_prop n ps) names | _ => true end
  | k_properties closed props =>
      match v with
      | VObject ps =>
          forallb (fun '(n, s) => negb (has_prop n ps) || validates s (prop n ps)) props &&
          (negb closed || forallb (fun kv => existsb (String.eqb kv.1) (List.map fst props)) ps)
      | _ => true
      end
  | k_items item => match v with VArray l => forallb (validates item) l | _ => true end
  | k_allOf parts => forallb (fun s => validates s v) parts
  | k_if condition consequence => negb (validates condition v) || validates consequence v
  end.

(** What [JSON.parse] gives: no [undefined] in it. *)
Fixpoint is_json (v : value) : bool :=
  match v with
  | VUndefined => false
  | VArray l => forallb is_json l
  | VObject ps => forallb (fun '(_, w) => is_json w) ps
  | _ => true
  end.

Lemma prop_json k ps : is_json (VObject ps) = true -> has_prop k ps = negb (is_undefined (prop k ps)).
Proof.
  cbn. unfold has_prop. induction ps as [|[k' v] ps IH]; [done|]. cbn [forallb existsb prop fst]. intros [Hv Hps]%andb_true_iff.
  destruct (String.eqb_spec k k') as [->|Hne].
  - rewrite decide_True by done. by destruct v.
  - rewrite decide_False by done. by apply IH.
Qed.
