(* ===== verification/SupervisorRuns.v ===== *)
(** * The messages the supervisor was given

    [requests]: the adapter and the message of every call of [processInbound], in
    order.  Only that call adds to it; only a restart empties it. *)

From S2P Require Import Prelude RecordUpdate Promises JsMap JsString JsValue SqlTable Contracts Canonical.
From S2P Require Import IdempotencyStore IngestBuffer Frames SessionRegistry Supervisor SupervisorBooks.
From stdpp Require Import options.
#[local] Open Scope Z_scope.

Definition run_request (r : Run) : string * InboundMessage := (run_adapterId r, run_message r).
Definition requests (s : Supervisor) : list (string * InboundMessage) := run_request <$> runs s.

(** What a quiet step leaves; the hash is of no matter. *)
Lemma requests_quiet (hash : value -> string) s s' : quiet hash s s' -> requests s' = requests s.
Proof. intros [Hr _ _ _ _ _]. unfold requests. by rewrite Hr. Qed.

Definition no_hash (v : value) : string := EmptyString.

Lemma requests_settle r res s : requests (settle_run r res s) = requests s.
Proof.
  unfold requests, settle_run. cbn. apply list_eq. intros i. rewrite !list_lookup_fmap.
  destruct (decide (i = r)) as [->|Hne]; [rewrite list_lookup_alter_eq|by rewrite list_lookup_alter_ne].
  by destruct (runs s !! r).
Qed.

Lemma requests_store {A} (m : comp Store StoreError A) s : requests (on_store m s).2 = requests s.
Proof. unfold on_store. by destruct (m (store s)). Qed.

Lemma requests_emit c call s : requests (emit c call s) = requests s.
Proof. unfold emit. by destruct (corrs s !! c). Qed.

Lemma requests_cleanup key c s : requests (cleanupCorrelation key c s) = requests s.
Proof. by apply (requests_quiet no_hash), quiet_cleanup. Qed.

Lemma requests_terminalize a m corrId s : requests (terminalizeAcceptedInbound a m corrId s) = requests s.
Proof. by apply (requests_quiet no_hash), quiet_terminalize. Qed.

Lemma requests_corr a k corr l b s : requests (new_corr a k corr l b s).2 = requests s.
Proof.
  destruct (new_corr a k corr l b s) as [c s'] eqn:Hn. apply (quiet_new_corr no_hash) in Hn.
  by apply (requests_quiet no_hash) in Hn.
Qed.

Lemma requests_interrupt c caller s : requests (interruptTurn c caller s) = requests s.
Proof.
  unfold interruptTurn. destruct (corrs s !! c) as [corr|]; [|done].
  destruct (lease corr); [apply (requests_emit c)|]. etrans; [apply requests_cleanup|apply (requests_emit c)].
Qed.

Lemma requests_abort c caller s : requests (abort_done c caller s) = requests s.
Proof. unfold abort_done. destruct (corrs s !! c); [apply requests_cleanup|done]. Qed.

Lemma requests_append r a m corrId s : requests (appendPassiveMessage r a m corrId s) = requests s.
Proof. unfold appendPassiveMessage. by repeat case_match. Qed.

Lemma requests_append_failed r a m corrId s : requests (append_failed r a m corrId s) = requests s.
Proof. unfold append_failed. by rewrite requests_settle, requests_terminalize. Qed.

Lemma requests_mark a m s : requests (mark_ingested a m s).2 = requests s.
Proof. apply requests_store. Qed.

Lemma requests_append_acquired r a m corrId res s : requests (append_acquired r a m corrId res s) = requests s.
Proof. unfold append_acquired. destruct res; [done|apply requests_append_failed]. Qed.

Lemma requests_append_prompted r a m corrId held res s :
  requests (append_prompted r a m corrId held res s) = requests s.
Proof.
  unfold append_prompted. cbv zeta. set (s1 := match held with Some _ => _ | None => s end).
  assert (requests s1 = requests s) as <- by (unfold s1; destruct held; [by destruct (is_ok _)|done]).
  destruct (rpc_outcome res); [|apply requests_append_failed].
  pose proof (requests_mark a m s1) as Hm. destruct (mark_ingested a m s1) as [[] s2]; by rewrite requests_settle.
Qed.

Lemma requests_redeliver r a m corrId response s : requests (redeliverSaved r a m corrId response s) = requests s.
Proof.
  unfold redeliverSaved. destruct (get_active _ s) as [[c corr]|]; [apply (requests_emit c)|].
  pose proof (requests_corr a (conversationKey m) corrId None true s) as Hn.
  destruct (new_corr _ _ _ _ _ s) as [c s1]. cbn [snd] in Hn. rewrite <- Hn. apply (requests_emit c).
Qed.

Lemma requests_redelivered r c corrId res s : requests (redelivered r c corrId res s) = requests s.
Proof. unfold redelivered. destruct res; [apply (requests_emit c)|apply requests_settle]. Qed.

Lemma requests_flushed r c corrId res s : requests (redeliver_flushed r c corrId res s) = requests s.
Proof.
  unfold redeliver_flushed. destruct res; rewrite requests_settle; [|done].
  repeat case_match; try done; apply (requests_emit c).
Qed.

Lemma requests_finally r s : requests (chain_finally r s) = requests s.
Proof. unfold chain_finally. by repeat case_match. Qed.

Lemma requests_inbound a m s : requests (processInbound a m s) = requests s ++ [(a, m)].
Proof. unfold processInbound, requests. destruct (sv_closed s); cbn; by rewrite fmap_app. Qed.

Lemma requests_close s : requests (close s) = requests s.
Proof. apply (requests_quiet no_hash), quiet_close. Qed.

Section runs.
Context (sha256_json : value -> string) (uuid : nat -> string) (engagementWindowMs quietPeriodMs : Z).
Context (isAbsolute : string -> bool) (path_join : list string -> string) (agentRootDir : option string).

Lemma requests_with c caller a m corrId mode s :
  requests (activate_with engagementWindowMs c caller a m corrId mode s).2 = requests s.
Proof. unfold activate_with. by repeat case_match. Qed.

Lemma requests_start caller a m corrId mode s :
  requests (activate_start engagementWindowMs caller a m corrId mode s).2 = requests s.
Proof.
  unfold activate_start. destruct (is_reset m), (get_active _ s) as [[c corr]|]; cbn [snd];
    [apply requests_interrupt|done|apply requests_with|done].
Qed.

Lemma requests_begin a m corrId s : requests (begin_inbound sha256_json uuid a m corrId s).2 = requests s.
Proof. unfold begin_inbound. by rewrite requests_store. Qed.

Lemma requests_loop due s : requests (flush_loop sha256_json uuid engagementWindowMs due s) = requests s.
Proof.
  revert s. induction due as [|settled rest IH]; intros s; [done|]. cbn [flush_loop].
  destruct (settled_message settled) as [m|]; [|apply IH].
  pose proof (requests_begin (settled_adapterId settled) m None s) as Hb.
  destruct (begin_inbound _ _ _ _ _ s) as [[begun|e] s1]; cbn [snd] in Hb; [|by rewrite IH].
  match goal with |- context [activate_start _ ?c ?a ?m ?k ?mode s1] => pose proof (requests_start c a m k mode s1) as Ha end.
  destruct (activate_start _ _ _ _ _ _ s1) as [[e|] s2]; cbn [snd] in Ha; [by rewrite IH, Ha|by rewrite Ha].
Qed.

Lemma requests_flush s : requests (flushSettled sha256_json uuid engagementWindowMs quietPeriodMs s) = requests s.
Proof.
  unfold flushSettled. destruct (sv_closed s); [done|]. destruct (sweepSettled _ _ _ _) as [due st].
  by rewrite requests_loop.
Qed.

Lemma requests_done caller a m corrId res s :
  requests (activate_done sha256_json uuid engagementWindowMs caller a m corrId res s) = requests s.
Proof.
  destruct caller as [r|rest]; cbn [activate_done]; [|apply requests_loop]. unfold activate_settled_run. rewrite requests_settle.
  destruct res; [done|apply requests_terminalize].
Qed.

Lemma requests_activate caller a m corrId mode s :
  requests (activate sha256_json uuid engagementWindowMs caller a m corrId mode s) = requests s.
Proof.
  unfold activate. pose proof (requests_start caller a m corrId mode s) as Ha.
  destruct (activate_start _ _ _ _ _ _ s) as [[e|] s1]; cbn [snd] in Ha; [by rewrite requests_done|done].
Qed.

Lemma requests_acquired caller a m corrId mode r s :
  requests (activate_acquired sha256_json uuid engagementWindowMs caller a m corrId mode r s) = requests s.
Proof.
  unfold activate_acquired. destruct r as [l|e]; [|apply requests_done].
  pose proof (requests_corr a (conversationKey m) corrId (Some l) false s) as Hn.
  destruct (new_corr _ _ _ _ _ s) as [c s1]. cbn [snd] in Hn.
  assert (requests (wireChild (lease_child l) a (conversationKey m) s1) = requests s1) as Hw
    by (by apply (requests_quiet no_hash), quiet_wire).
  match goal with |- context [activate_with _ ?c ?k ?a ?m ?i ?mode ?s2] => pose proof (requests_with c k a m i mode s2) as Ha end.
  destruct (activate_with _ _ _ _ _ _ _ _) as [[e|] s2]; cbn [snd] in Ha; [rewrite requests_done|]; congruence.
Qed.

Lemma requests_prompted caller a m corrId mode c ch r s :
  requests (activate_prompted sha256_json uuid engagementWindowMs caller a m corrId mode c ch r s) = requests s.
Proof.
  unfold activate_prompted. destruct (rpc_outcome r); [|rewrite requests_done; by destruct mode].
  destruct (getEntry _ _ _); [|by rewrite requests_done]. case_decide; [|by rewrite requests_done].
  pose proof (requests_mark a m s) as Hm. destruct (mark_ingested a m s) as [[] s1]; by rewrite requests_done.
Qed.

Lemma requests_reset caller a m corrId r s :
  requests (reset_retired sha256_json uuid engagementWindowMs caller a m corrId r s) = requests s.
Proof.
  unfold reset_retired. destruct r as [|e]; [|apply requests_done]. destruct (forget _ _ _) as [existed reg].
  set (s1 := record_interaction _ _ _ _). change (requests s) with (requests s1).
  pose proof (requests_corr a (conversationKey m) corrId None false s1) as Hn.
  destruct (new_corr _ _ _ _ _ s1) as [c s2]. cbn [snd] in Hn. rewrite requests_done, requests_cleanup.
  rewrite <- Hn. apply (requests_emit c).
Qed.

Lemma requests_ingest r a m corrId s :
  requests (ingest_created sha256_json uuid engagementWindowMs quietPeriodMs r a m corrId s) = requests s.
Proof.
  unfold ingest_created. destruct (ingest _ _ _ _ _ _ _) as [[] st]; [by rewrite requests_append|by rewrite requests_activate].
Qed.

Lemma requests_serial_begin r a m s :
  requests (serial_begin sha256_json uuid engagementWindowMs quietPeriodMs r a m s) = requests s.
Proof.
  unfold serial_begin. match goal with |- context [begin_inbound _ _ a m ?c s] => pose proof (requests_begin a m c s) as Hb end.
  destruct (begin_inbound _ _ _ _ _ s) as [[begun|e] s1]; cbn [snd] in Hb; rewrite <- Hb.
  - destruct begun; rewrite ?requests_settle, ?requests_redeliver, ?requests_ingest; try done.
    repeat case_match; try done; apply requests_terminalize.
  - destruct e; by rewrite requests_settle.
Qed.

Lemma requests_serial_start r a m s :
  requests (serial_start sha256_json uuid engagementWindowMs quietPeriodMs r a m s) = requests s.
Proof.
  unfold serial_start. destruct (get_active _ s) as [[c corr]|]; [|apply requests_serial_begin].
  destruct (_ && _); [apply requests_interrupt|apply requests_serial_begin].
Qed.

Lemma requests_serial r a m s :
  requests (processInboundSerial sha256_json uuid engagementWindowMs quietPeriodMs r a m s) = requests s.
Proof. unfold processInboundSerial. destruct (jget _ _); [done|apply requests_serial_start]. Qed.

Lemma requests_run_task t s :
  requests (run_task sha256_json uuid engagementWindowMs quietPeriodMs t s) = requests s.
Proof.
  destruct t; cbn [run_task]; try done.
  - destruct (runs s !! run); [apply requests_serial|done].
  - apply requests_finally.
  - destruct (runs s !! run); [apply requests_serial_start|done].
  - destruct caller; cbn; [destruct (runs s !! run); [apply requests_serial_begin|done]|done].
  - apply (requests_quiet no_hash), quiet_recovery_turn.
  - apply (requests_quiet no_hash), quiet_close_flush.
  - apply (requests_quiet no_hash), quiet_close_end.
Qed.

Lemma requests_finish_task t o s :
  requests (finish_task sha256_json uuid engagementWindowMs isAbsolute path_join agentRootDir t o s) = requests s.
Proof.
  destruct t, o; cbn [finish_task]; try done;
    first [apply requests_abort|apply requests_redelivered|apply requests_flushed|apply requests_append_acquired
          |apply requests_append_prompted|apply requests_acquired|apply requests_prompted|apply requests_reset
          |apply (requests_quiet no_hash), quiet_recovered|apply (requests_quiet no_hash), quiet_recovery_end].
Qed.

(** Only [processInbound] adds a request, and only a restart forgets them. *)
Lemma requests_step s op :
  requests (step sha256_json uuid engagementWindowMs quietPeriodMs isAbsolute path_join agentRootDir s op) =
  match op with
  | ProcessInbound a m => requests s ++ [(a, m)]
  | Crash => []
  | _ => requests s
  end.
Proof.
  destruct op; cbn [step]; try done.
  - apply requests_inbound.
  - destruct (tasks s !! task) as [t|]; [|done]. destruct (enabled t s); [|done]. by rewrite requests_run_task.
  - destruct (tasks s !! task) as [t|]; [|done]. by rewrite requests_finish_task.
  - by apply (requests_quiet no_hash), quiet_wire.
  - apply (requests_quiet no_hash), quiet_child_event.
  - apply (requests_quiet no_hash), quiet_child_error.
  - apply (requests_quiet no_hash), quiet_child_exit.
  - apply (requests_quiet no_hash), quiet_hook.
  - apply requests_flush.
  - unfold dismissEngagement. by destruct (dismiss _ _ _ _).
  - apply (requests_quiet no_hash), quiet_recover.
  - apply requests_close.
Qed.
End runs.
