(* ===== verification/CoreServer.v ===== *)
(** * The HTTP service of the core (packages/core/src/server.ts)

    Routes, authentication, validation, and the replies, around the supervisor of
    Supervisor.v: a request ends in a reply at once, or waits for the run of
    [processInbound] it started.  Bodies are read before a request is handled. *)

From S2P Require Import Prelude RecordUpdate JsMap JsString JsValue JsonSchema SqlTable Contracts Canonical.
From S2P Require Import AdapterRegistry IdempotencyStore IngestBuffer Frames SessionRegistry Supervisor.
From Stdlib Require Import Ascii.
From stdpp Require Import options.
#[local] Open Scope Z_scope.

(** ** Requests *)

Definition MAX_BODY_BYTES : Z := 1024 * 1024.
Definition INBOUND_MESSAGE_MEDIA_TYPE : string := "application/vnd.omp-bundler.inbound-message.v1+json".

(** What the service reads of a request; [cr_pathname] is [new URL(...).pathname],
    [None] when the constructor throws. *)
Record CoreRequest := mkCoreRequest {
  cr_method : string;
  cr_pathname : option string;
  cr_secret : option string;
  cr_contentType : option string;
  cr_body : list (list N)
}.

(** [readBoundedBody(req)] *)
Fixpoint read_bounded (chunks : list (list N)) (total : Z) (acc : list N) : option (list N) :=
  match chunks with
  | [] => Some acc
  | chunk :: rest =>
      let total := total + Z.of_nat (length chunk) in
      if MAX_BODY_BYTES <? total then None else read_bounded rest total (acc ++ chunk)
  end.

Definition readBoundedBody (chunks : list (list N)) : option (list N) := read_bounded chunks 0 [].

(** [path.split("/").filter((s) => s.length > 0)] *)
Definition segments (path : string) : list string := List.filter (fun s => negb (is_empty s)) (split_on "/" path).

(** ** Validation *)

(** [hasOnlyProperties(value, allowed)] *)
Definition hasOnlyProperties (obj : list (string * value)) (allowed : list string) : bool :=
  forallb (fun kv => existsb (String.eqb kv.1) allowed) obj.

(** [v === undefined || typeof v === "string"] *)
Definition optional_string (v : value) : bool := match v with VUndefined | VString _ => true | _ => false end.

Definition validate_speaker (v : value) : option Speaker :=
  match as_record v with
  | Some sp =>
      if hasOnlyProperties sp ["id"; "displayName"] then
        match nonempty_string (prop "id" sp), nonempty_string (prop "displayName" sp) with
        | Some id, Some name => Some (mkSpeaker id name)
        | _, _ => None
        end
      else None
  | None => None
  end.

(** The body of the loop over the attachments. *)
Definition validate_attachment (v : value) : option WorkspaceAttachment :=
  match as_record v with
  | Some att =>
      if hasOnlyProperties att ["path"; "name"; "mediaType"] then
        match nonempty_string (prop "path" att) with
        | Some path =>
            if optional_string (prop "name" att) && optional_string (prop "mediaType" att)
            then Some (mkAttachment path (as_string (prop "name" att)) (as_string (prop "mediaType" att)))
            else None
        | None => None
        end
      else None
  | None => None
  end.

Fixpoint validate_attachments (l : list value) : option (list WorkspaceAttachment) :=
  match l with
  | [] => Some []
  | v :: l =>
      match validate_attachment v with
      | Some att => match validate_attachments l with Some atts => Some (att :: atts) | None => None end
      | None => None
      end
  end.

(** [parentConversationKey] is absent or a non-empty string. *)
Definition optional_key (v : value) : bool :=
  is_undefined v || bool_decide (is_Some (nonempty_string v)).

(** [validateInboundMessage(parsed)] *)
Definition validateInboundMessage (parsed : value) : option InboundMessage :=
  match as_record parsed with
  | None => None
  | Some obj =>
      if negb (hasOnlyProperties obj ["messageId"; "conversationKey"; "parentConversationKey"; "speaker"; "text";
                                      "attachments"; "addressed"]) then None
      else if negb (optional_key (prop "parentConversationKey" obj)) then None
      else
        match nonempty_string (prop "messageId" obj), nonempty_string (prop "conversationKey" obj),
              validate_speaker (prop "speaker" obj), prop "text" obj, prop "attachments" obj with
        | Some id, Some key, Some speaker, VString text, VArray items =>
            if is_empty text && (length items =? 0)%nat then None
            else
              match validate_attachments items, prop "addressed" obj with
              | Some atts, VBool addressed =>
                  Some (mkMessage id key (as_string (prop "parentConversationKey" obj)) speaker text atts addressed)
              | _, _ => None
              end
        | _, _, _, _, _ => None
        end
  end.

(** schemas/inbound-v1.json *)
Definition nonempty_schema : schema := Keywords [k_type t_string; k_minLength 1].

Definition speaker_v1 : schema :=
  Keywords [k_type t_object; k_required ["id"; "displayName"];
    k_properties true [("id", nonempty_schema); ("displayName", nonempty_schema)]].

Definition attachment_v1 : schema :=
  Keywords [k_type t_object; k_required ["path"];
    k_properties true [("path", nonempty_schema); ("name", Keywords [k_type t_string]); ("mediaType", Keywords [k_type t_string])]].

Definition message_properties : list (string * schema) :=
  [("messageId", nonempty_schema); ("conversationKey", nonempty_schema); ("speaker", speaker_v1);
   ("text", Keywords [k_type t_string]); ("attachments", Keywords [k_type t_array; k_items attachment_v1]);
   ("addressed", Keywords [k_type t_boolean])].

Definition message_keywords (props : list (string * schema)) : list keyword :=
  [k_type t_object; k_required ["messageId"; "conversationKey"; "speaker"; "text"; "attachments"; "addressed"];
   k_properties true props;
   k_allOf [Keywords [k_if (Keywords [k_properties false [("text", Keywords [k_const EmptyString])]; k_required ["text"]])
                         (Keywords [k_properties false [("attachments", Keywords [k_type t_array; k_minItems 1])];
                                  k_required ["attachments"]])]]].

Definition inbound_v1 : schema := Keywords (message_keywords message_properties).

(** ** The service *)

(** A reply: its status and its JSON. *)
Definition Reply : Type := Z * value.

Record CoreServer := mkServer {
  core : Supervisor;
  replies : list (option Reply);
  (** handlers that await [processInbound]: the request, the run *)
  waiting : list (nat * nat);
  errors : nat;
  server_listening : bool;
  closeCalled : bool
}.

#[export] Instance server_fields : Fields CoreServer := fun s =>
  mkServer (core s) (replies s) (waiting s) (errors s) (server_listening s) (closeCalled s).

Definition error_body (message : string) : value := VObject [("error", VString message)].

(** [sendJson(res, status, body)] *)
Definition sendJson (r : nat) (status : Z) (body : value) (s : CoreServer) : CoreServer :=
  s <| replies ::= alter (fun _ => Some (status, body)) r |>.

Section server.
(** [decodeURIComponent], [None] when it throws; [JSON.parse] of a body's UTF-8
    text; the error ids *)
Context (decodeURIComponent : string -> option string) (parse_body : list N -> option value) (errorId : nat -> string).
Context (byId : Registry).
(** the parameters of the supervisor *)
Context (sha256_json : value -> string) (uuid : nat -> string) (engagementWindowMs quietPeriodMs : Z).
Context (isAbsolute : string -> bool) (path_join : list string -> string) (agentRootDir : option string).

(** [handleInternalError(res, err)] *)
Definition handleInternalError (r : nat) (s : CoreServer) : CoreServer :=
  sendJson r 500 (VObject [("error", VString "internal error"); ("errorId", VString (errorId (errors s)))])
    (s <| errors ::= S |>).

(** [handleInboundError(res, err)] *)
Definition handleInboundError (r : nat) (e : SupervisorError) (s : CoreServer) : CoreServer :=
  match e with
  | InboundConflictError a id =>
      sendJson r 409 (error_body ("idempotency conflict for adapter=" +:+ quoted a +:+ " message=" +:+ quoted id)%stdpp) s
  | _ => handleInternalError r s
  end.

(** [matchRoute(path, template)]: the segments a [:name] of the template matches;
    [Throw] when [decodeURIComponent] does. *)
Fixpoint match_segments (tmpl parts : list string) (acc : list (string * string)) :
    result unit (option (list (string * string))) :=
  match tmpl, parts with
  | [], [] => Ok (Some acc)
  | t :: tmpl, p :: parts =>
      if starts_with ":" t then
        match decodeURIComponent p with
        | Some d => match_segments tmpl parts (acc ++ [(drop_str 1 t, d)])
        | None => Throw tt
        end
      else if String.eqb t p then match_segments tmpl parts acc else Ok None
  | _, _ => Ok None
  end.

Definition matchRoute (path template : string) : result unit (option string) :=
  let parts := segments path in
  let tmpl := segments template in
  if negb (length parts =? length tmpl)%nat then Ok None
  else
    match match_segments tmpl parts [] with
    | Ok (Some found) => Ok (jget "adapterId" found)
    | Ok None => Ok None
    | Throw e => Throw e
    end.

(** [matchEngagementRoute(path)] *)
Definition matchEngagementRoute (path : string) : result unit (option (string * string)) :=
  match segments path with
  | [p0; p1; p2; p3; p4; p5] =>
      if negb (String.eqb p0 "v1" && String.eqb p1 "adapters" && String.eqb p3 "conversations" &&
               String.eqb p5 "engagement") then Ok None
      else
        match decodeURIComponent p2, decodeURIComponent p4 with
        | Some adapterId, Some key => Ok (Some (adapterId, key))
        | _, _ => Throw tt
        end
  | _ => Ok None
  end.

(** The check of the shared secret: the adapter is known and the secret is its. *)
Inductive Access : Type := unknown_adapter | bad_secret | granted | access_error.

Definition authenticate (adapterId : string) (secret : option string) : Access :=
  if negb (has adapterId byId) then unknown_adapter
  else
    match secret with
    | None => bad_secret
    | Some s =>
        if is_empty s then bad_secret
        else
          match authenticateInbound adapterId s byId with
          | Ok true => granted
          | Ok false => bad_secret
          | Throw _ => access_error
          end
    end.

(** [handleInboundMessage(supervisor, adapterId, req, res)], up to the await of
    [processInbound] *)
Definition handleInboundMessage (adapterId : string) (req : CoreRequest) (r : nat) (s : CoreServer) : CoreServer :=
  match authenticate adapterId (cr_secret req) with
  | unknown_adapter => sendJson r 404 (error_body "unknown adapter") s
  | bad_secret => sendJson r 401 (error_body "invalid shared secret") s
  | access_error => handleInternalError r s
  | granted =>
      if negb (bool_decide (cr_contentType req = Some INBOUND_MESSAGE_MEDIA_TYPE)) then
        sendJson r 400 (error_body ("unsupported content type; expected " +:+ INBOUND_MESSAGE_MEDIA_TYPE)%stdpp) s
      else
        match readBoundedBody (cr_body req) with
        | None => sendJson r 400 (error_body "request body too large") s
        | Some [] => sendJson r 400 (error_body "empty request body") s
        | Some rawBody =>
            match parse_body rawBody with
            | None => sendJson r 400 (error_body "invalid JSON") s
            | Some parsed =>
                match validateInboundMessage parsed with
                | None => sendJson r 400 (error_body "malformed inbound message") s
                | Some message =>
                    s <| core ::= processInbound adapterId message |>
                      <| waiting ::= fun w => w ++ [(r, length (runs (core s)))] |>
                end
            end
        end
  end.

(** ... and its end. *)
Definition inbound_settled (r : nat) (result : result SupervisorError InboundResult) (s : CoreServer) : CoreServer :=
  match result with
  | Ok (accepted c) => sendJson r 202 (VObject [("status", VString "accepted"); ("correlationId", VString c)]) s
  | Ok (duplicate c) => sendJson r 200 (VObject [("status", VString "duplicate"); ("correlationId", VString c)]) s
  | Throw e => handleInboundError r e s
  end.

(** [handleDismissEngagement(supervisor, adapterId, conversationKey, req, res)] *)
Definition handleDismissEngagement (adapterId key : string) (req : CoreRequest) (r : nat) (s : CoreServer) : CoreServer :=
  match authenticate adapterId (cr_secret req) with
  | unknown_adapter => sendJson r 404 (error_body "unknown adapter") s
  | bad_secret => sendJson r 401 (error_body "invalid shared secret") s
  | access_error => handleInternalError r s
  | granted =>
      let '(dismissed, sup) := dismissEngagement adapterId key (core s) in
      sendJson r 200 (VObject [("dismissed", VBool dismissed)]) (s <| core := sup |>)
  end.

(** [route(supervisor, req, res)], in [createServer]'s [try] *)
Definition route (req : CoreRequest) (r : nat) (s : CoreServer) : CoreServer :=
  match cr_pathname req with
  | None => handleInternalError r s
  | Some path =>
      let meth m := String.eqb (cr_method req) m in
      if meth "GET" && String.eqb path "/health" then sendJson r 200 (VObject [("status", VString "ok")]) s
      else if meth "GET" && String.eqb path "/ready" then sendJson r 200 (VObject [("status", VString "ready")]) s
      else
        match matchRoute path "/v1/adapters/:adapterId/messages" with
        | Throw _ => handleInternalError r s
        | Ok messageMatch =>
            match (if meth "POST" then messageMatch else None) with
            | Some adapterId => handleInboundMessage adapterId req r s
            | None =>
                match matchEngagementRoute path with
                | Throw _ => handleInternalError r s
                | Ok dismissMatch =>
                    match (if meth "DELETE" then dismissMatch else None) with
                    | Some (adapterId, key) => handleDismissEngagement adapterId key req r s
                    | None => sendJson r 404 (error_body "not found") s
                    end
                end
            end
        end
  end.

(** ** Boot and shutdown *)

(** [lstat]: [None] when there is no such entry, else whether it is a directory and
    whether it is a symbolic link *)
Context (lstat : string -> option (bool * bool)).

Definition usable_dir (path : string) : bool :=
  match lstat path with Some (is_dir, is_link) => is_dir && negb is_link | None => false end.

(** [validateAgentBindings(config)] *)
Fixpoint bindings_match (bound : list (string * string)) (agentId : string) : result string unit :=
  match bound with
  | [] => Ok tt
  | (adapterId, agent) :: bound =>
      if String.eqb agent agentId then bindings_match bound agentId
      else Throw ("adapter " +:+ quoted adapterId +:+ " is bound to agent " +:+ quoted agent +:+
                  " but OMP_AGENT_ID is " +:+ quoted agentId)%stdpp
  end.

Fixpoint children_usable (root : string) (names : list string) : result string unit :=
  match names with
  | [] => Ok tt
  | name :: names =>
      let path := path_join [root; name] in
      if usable_dir path then children_usable root names
      else Throw ("OMP_AGENT_ROOT " +:+ quoted root +:+ " has no usable " +:+ name +:+ " directory at " +:+ quoted path)%stdpp
  end.

Definition bound_adapters (adapters : list (string * option string)) : list (string * string) :=
  omap (fun a => match a.2 with Some agent => Some (a.1, agent) | None => None end) adapters.

Definition validateAgentBindings (adapters : list (string * option string)) (agentId : option string) : result string unit :=
  let bound := bound_adapters adapters in
  match bound with
  | [] => Ok tt
  | _ =>
      match agentId with
      | None => Throw "OMP_AGENT_ID is not set; required by adapters bound to an agentId"
      | Some id =>
          _ <-! bindings_match bound id;
          match agentRootDir with
          | Some root =>
              if usable_dir root then children_usable root [".omp"; "workspace"]
              else Throw ("OMP_AGENT_ROOT " +:+ quoted root +:+ " is not a directory; required by adapters bound to an agentId")%stdpp
          | None =>
              Throw ("OMP_AGENT_ROOT " +:+ quoted "<unset>" +:+ " is not a directory; required by adapters bound to an agentId")%stdpp
          end
      end
  end.

(** [bootCoreServer(config)], up to the await of [recoverPending] *)
Definition bootCoreServer (adapters : list (string * option string)) (agentId : option string)
    (db : Store) (registry : SessionRegistry) (outbox : list ((string * string) * string)) : result string CoreServer :=
  _ <-! validateAgentBindings adapters agentId;
  Ok (mkServer (recoverPending outbox (boot db registry)) [] [] 0 false false).

(** [close()] of the server: no new connection, and the supervisor closes. *)
Definition close (s : CoreServer) : CoreServer :=
  if closeCalled s then s
  else s <| closeCalled := true |> <| server_listening := false |> <| core ::= Supervisor.close |>.

(** The promise it returns: the reasons of what was rejected. *)
Definition close_result (serverClosed supervisorClosed : result string unit) : result (list string) unit :=
  match option_list (match serverClosed with Throw e => Some e | Ok _ => None end) ++
        option_list (match supervisorClosed with Throw e => Some e | Ok _ => None end) with
  | [] => Ok tt
  | reasons => Throw reasons
  end.

(** ** The event loop *)

Inductive ServerOp : Type :=
(** [recoverPending] is settled: the server listens *)
| Listen
| Request (req : CoreRequest)
(** a handler goes on after [processInbound] *)
| Answer (i : nat)
(** any other step of the supervisor *)
| Core (op : Supervisor.Op)
| CloseServer.

(** The steps of the supervisor the service does not take itself. *)
Definition is_internal (op : Supervisor.Op) : bool :=
  match op with ProcessInbound _ _ | DismissEngagement _ _ | RecoverPending _ | Supervisor.Close | Crash => false | _ => true end.

Definition server_step (s : CoreServer) (op : ServerOp) : CoreServer :=
  match op with
  | Listen =>
      if forallb rc_settled (recoveries (core s)) && negb (closeCalled s)
      then s <| server_listening := true |> else s
  | Request req =>
      if server_listening s then route req (length (replies s)) (s <| replies ::= fun l => l ++ [None] |>) else s
  | Answer i =>
      match waiting s !! i with
      | Some (r, run) =>
          match runs (core s) !! run with
          | Some (mkRun _ _ (Some res)) => inbound_settled r res (s <| waiting ::= base.delete i |>)
          | _ => s
          end
      | None => s
      end
  | Core op =>
      if is_internal op then
        s <| core ::= fun c => step sha256_json uuid engagementWindowMs quietPeriodMs isAbsolute path_join agentRootDir c op |>
      else s
  | CloseServer => close s
  end.
End server.
