(* ===== verification/CoreService.v ===== *)
(** * What the core's HTTP service lets through

    Its validation against the JSON schema of the contract, and the round trip of a
    message; and that every message the supervisor was given came in a request that
    presented the adapter's secret. *)

From S2P Require Import Prelude RecordUpdate JsMap JsString JsValue JsonSchema SqlTable Contracts Canonical.
From S2P Require Import AdapterRegistry IdempotencyStore IngestBuffer Frames SessionRegistry Supervisor SupervisorBooks.
From S2P Require Import SupervisorRuns CoreServer.
From Stdlib Require Import Ascii.
From stdpp Require Import options.
#[local] Open Scope Z_scope.

#[local] Arguments attachment_v1 : simpl never.
#[local] Arguments speaker_v1 : simpl never.
#[local] Arguments nonempty_schema : simpl never.

(** ** Validation is the schema *)

Definition some {A} (o : option A) : bool := match o with Some _ => true | None => false end.

Lemma some_spec {A} (o : option A) : some o = true <-> is_Some o.
Proof. destruct o; cbn; [split; eauto|split; [done|intros [? ?]; done]]. Qed.

(** The keywords of the contract: those of [inbound_v1], and its one property more. *)
Definition parent_properties : list (string * schema) :=
  [("messageId", nonempty_schema); ("conversationKey", nonempty_schema); ("parentConversationKey", nonempty_schema);
   ("speaker", speaker_v1); ("text", Keywords [k_type t_string]); ("attachments", Keywords [k_type t_array; k_items attachment_v1]);
   ("addressed", Keywords [k_type t_boolean])].

Definition inbound_with_parent : schema := Keywords (message_keywords parent_properties).

Lemma nonempty_valid v : validates nonempty_schema v = some (nonempty_string v).
Proof.
  destruct v as [| | | |s| |]; try done. destruct s as [|c s]; [done|]. unfold nonempty_schema.
  cbn [validates valid_keyword forallb has_type nonempty_string is_empty some String.length andb]. rewrite andb_true_r. apply Z.leb_le. lia.
Qed.

Lemma closed_valid names ps :
  forallb (fun kv : string * value => existsb (String.eqb kv.1) names) ps = hasOnlyProperties ps names.
Proof. done. Qed.

Lemma string_valid v : has_type t_string v = some (as_string v).
Proof. by destruct v. Qed.

(** A property is valid when it is absent, or defined and valid. *)
Lemma prop_valid k ps s :
  is_json (VObject ps) = true ->
  negb (has_prop k ps) || validates s (prop k ps) = is_undefined (prop k ps) || validates s (prop k ps).
Proof. intros Hj. rewrite (prop_json k ps Hj). by rewrite negb_involutive. Qed.

Lemma speaker_valid v : is_json v = true -> validates speaker_v1 v = some (validate_speaker v).
Proof.
  destruct v as [| | | | | |ps]; try done. intros Hj. unfold validate_speaker. cbn [as_record].
  unfold speaker_v1. cbn [validates valid_keyword forallb has_type List.map fst negb orb].
  rewrite !closed_valid, !(prop_json _ _ Hj), !negb_involutive, !nonempty_valid.
  destruct (hasOnlyProperties ps _); [|by rewrite !andb_false_r].
  destruct (prop "id" ps) as [| | | |s1| |]; try done; destruct (prop "displayName" ps) as [| | | |s2| |]; cbn; try done.
  all: try (by destruct (is_empty s1)). destruct (is_empty s1), (is_empty s2); done.
Qed.

Lemma attachment_valid v : is_json v = true -> validates attachment_v1 v = some (validate_attachment v).
Proof.
  destruct v as [| | | | | |ps]; try done. intros Hj. unfold validate_attachment. cbn [as_record].
  unfold attachment_v1. cbn [validates valid_keyword forallb has_type List.map fst negb orb].
  rewrite !closed_valid, !(prop_json _ _ Hj), !negb_involutive, !nonempty_valid.
  destruct (hasOnlyProperties ps _); [|by rewrite !andb_false_r].
  destruct (prop "path" ps) as [| | | |s1| |]; try done. cbn [nonempty_string is_undefined negb andb orb].
  destruct (is_empty s1); [done|]. cbn [some andb]. 
  destruct (prop "name" ps), (prop "mediaType" ps); done.
Qed.

Lemma attachments_valid l :
  forallb is_json l = true -> forallb (validates attachment_v1) l = some (validate_attachments l).
Proof.
  induction l as [|v l IH]; [done|]. cbn [forallb]. intros [Hv Hl]%andb_true_iff. cbn [validate_attachments].
  rewrite attachment_valid, IH by done. destruct (validate_attachment v); [|done]. by destruct (validate_attachments l).
Qed.

Lemma json_prop k ps : is_json (VObject ps) = true -> is_json (prop k ps) = negb (is_undefined (prop k ps)).
Proof.
  intros Hj. destruct (is_undefined (prop k ps)) eqn:Hu; [by destruct (prop k ps)|]. cbn in Hj.
  induction ps as [|[k' v] ps IH]; [done|]. cbn in *. apply andb_true_iff in Hj as [Hv Hps].
  case_decide; [by rewrite Hv|]. by apply IH.
Qed.

Lemma message_valid v :
  is_json v = true -> validates inbound_with_parent v = some (validateInboundMessage v).
Proof.
  destruct v as [| | | | | |ps]; try done. intros Hj. unfold validateInboundMessage. cbn [as_record].
  unfold inbound_with_parent, message_keywords, parent_properties.
  cbn [validates valid_keyword forallb has_type List.map fst negb orb].
  rewrite !closed_valid, !(prop_json _ _ Hj), !negb_involutive, !nonempty_valid.
  assert (is_undefined (prop "speaker" ps) || validates speaker_v1 (prop "speaker" ps) =
          is_undefined (prop "speaker" ps) || some (validate_speaker (prop "speaker" ps))) as Hsp.
  { pose proof (json_prop "speaker" ps Hj) as H. destruct (is_undefined (prop "speaker" ps)); [done|]. by rewrite speaker_valid. }
  assert (forall l, prop "attachments" ps = VArray l -> forallb (validates attachment_v1) l = some (validate_attachments l)) as Hatt.
  { intros l Hl. apply attachments_valid. pose proof (json_prop "attachments" ps Hj) as H. rewrite Hl in H. exact H. }
  fold nonempty_schema speaker_v1 attachment_v1. rewrite Hsp. clear Hsp Hj.
  destruct (hasOnlyProperties ps _); [|by rewrite !andb_false_r]. cbn [negb].
  generalize dependent (prop "attachments" ps).
  generalize (prop "messageId" ps) (prop "conversationKey" ps) (prop "parentConversationKey" ps) (prop "speaker" ps)
    (prop "text" ps) (prop "addressed" ps).
  intros vid vkey vparent vspeaker vtext vaddressed vatts Hatt.
  assert (optional_key vparent = is_undefined vparent || some (nonempty_string vparent)) as ->.
  { unfold optional_key. destruct (is_undefined vparent); [done|]. cbn. apply eq_true_iff_eq.
    by rewrite bool_decide_eq_true, some_spec. }
  destruct (is_undefined vparent || some (nonempty_string vparent)); [|by rewrite !andb_false_r]. cbn [negb].
  destruct (nonempty_string vid) as [id|] eqn:Hid; [|cbn [some]; destruct vid; cbn in *; by rewrite ?andb_false_r].
  replace (is_undefined vid) with false by (by destruct vid).
  destruct (nonempty_string vkey) as [key|] eqn:Hkey; [|cbn [some]; destruct vkey; cbn in *; by rewrite ?andb_false_r].
  replace (is_undefined vkey) with false by (by destruct vkey).
  destruct (validate_speaker vspeaker) as [sp|] eqn:Hspk; [|cbn [some]; destruct (is_undefined vspeaker); cbn in *; by rewrite ?andb_false_r].
  replace (is_undefined vspeaker) with false by (by destruct vspeaker).
  destruct vtext as [| | | |text| |]; cbn; rewrite ?andb_false_r; try done.
  destruct vatts as [| | | | |items|]; cbn; rewrite ?andb_false_r; try done.
  rewrite (Hatt items eq_refl), !andb_true_r. clear Hatt.
  destruct vaddressed as [| |b| | | |]; cbn; rewrite ?andb_false_r; try (by repeat case_match).
  destruct (validate_attachments items) as [atts|] eqn:Hatts; cbn; [|by destruct (_ && _)].
  destruct text; [|done]. cbn. destruct items; cbn; [done|]. apply Z.leb_le. lia.
Qed.

(** Without [parentConversationKey] the extra property says nothing. *)
Lemma no_parent_valid ps :
  has_prop "parentConversationKey" ps = false ->
  validates inbound_with_parent (VObject ps) = validates inbound_v1 (VObject ps).
Proof.
  intros Hp. unfold inbound_with_parent, inbound_v1, message_keywords, parent_properties, message_properties.
  cbn [validates valid_keyword forallb has_type List.map fst negb orb]. rewrite Hp. cbn [negb orb andb].
  rewrite !closed_valid.
  assert (hasOnlyProperties ps ["messageId"; "conversationKey"; "parentConversationKey"; "speaker"; "text"; "attachments"; "addressed"] =
          hasOnlyProperties ps ["messageId"; "conversationKey"; "speaker"; "text"; "attachments"; "addressed"]) as ->; [|done].
  unfold hasOnlyProperties. induction ps as [|[k v] ps IH]; [done|]. unfold has_prop in *. cbn [existsb fst] in Hp.
  apply orb_false_iff in Hp as [Hk Hps]. cbn [forallb]. rewrite IH by done. f_equal.
  cbn [fst existsb]. rewrite String.eqb_sym in Hk. by rewrite Hk.
Qed.

(** C40: What the core takes is what the contract's schema says: over every JSON value,
    [validateInboundMessage] accepts exactly the values valid against inbound-v1.json
    with one property more, a non-empty [parentConversationKey]; on values without
    that property it is the schema as published. *)
Theorem validate_is_schema (v : value) :
  is_json v = true ->
  (is_Some (validateInboundMessage v) <-> validates inbound_with_parent v = true) /\
  (forall ps, v = VObject ps -> has_prop "parentConversationKey" ps = false ->
     (is_Some (validateInboundMessage v) <-> validates inbound_v1 v = true)).
Proof.
  intros Hj. pose proof (message_valid v Hj) as Hv. split; [by rewrite Hv, some_spec|].
  intros ps -> Hp. by rewrite <- (no_parent_valid ps Hp), Hv, some_spec.
Qed.

Definition sample_message : InboundMessage :=
  mkMessage "m1" "room" None (mkSpeaker "u1" "Ada") "hello" [mkAttachment "a.png" None (Some "image/png")] true.

Lemma validate_is_schema_witness :
  is_json (message_value sample_message) = true /\
  (is_Some (validateInboundMessage (message_value sample_message)) <->
   validates inbound_v1 (message_value sample_message) = true).
Proof.
  split; [reflexivity|]. destruct (validate_is_schema (message_value sample_message) eq_refl) as [_ H].
  by apply (H _ eq_refl).
Defined.

(** The schema rejects what [InboundMessage] and the core both allow. *)
Example thread_message_is_no_schema :
  let v := message_value (mkMessage "m1" "room/t" (Some "room") (mkSpeaker "u1" "Ada") "hello" [] true) in
  is_Some (validateInboundMessage v) /\ validates inbound_v1 v = false.
Proof. split; [vm_compute; by eexists|reflexivity]. Qed.

(** ** The round trip of a message *)

(** The strings the contract wants non-empty are. *)
Definition well_formed_message (m : InboundMessage) : bool :=
  negb (is_empty (messageId m)) && negb (is_empty (conversationKey m)) &&
  negb (bool_decide (parentConversationKey m = Some EmptyString)) &&
  negb (is_empty (speaker_id (speaker m))) && negb (is_empty (displayName (speaker m))) &&
  forallb (fun a => negb (is_empty (att_path a))) (Contracts.attachments m) &&
  negb (is_empty (msg_text m) && (length (Contracts.attachments m) =? 0)%nat).

Lemma attachment_back a :
  validate_attachment (attachment_value a) = if is_empty (att_path a) then None else Some a.
Proof. destruct a as [path [name|] [media|]]; cbv -[is_empty]; by destruct (is_empty path). Qed.

Lemma attachments_back l :
  validate_attachments (List.map attachment_value l) =
    if forallb (fun a => negb (is_empty (att_path a))) l then Some l else None.
Proof.
  induction l as [|a l IH]; [done|]. cbn [List.map validate_attachments forallb]. rewrite attachment_back, IH.
  destruct (is_empty (att_path a)); [done|]. cbn [negb andb]. by destruct (forallb _ l).
Qed.

(** What an adapter sends the core reads back: the value of an [InboundMessage] is
    accepted exactly when the strings the contract wants non-empty are, and is then
    read as that message, whichever of its optional fields it has. *)
Theorem message_round_trip (m : InboundMessage) :
  validateInboundMessage (message_value m) = if well_formed_message m then Some m else None.
Proof.
  destruct m as [id key parent [sid sname] text atts addr]. unfold validateInboundMessage, well_formed_message.
  unfold message_value.
  cbn [as_record messageId conversationKey parentConversationKey speaker speaker_id displayName msg_text Contracts.attachments addressed].
  set (obj := [("messageId", _); _] ++ _).
  assert (hasOnlyProperties obj ["messageId"; "conversationKey"; "parentConversationKey"; "speaker"; "text";
                                 "attachments"; "addressed"] = true) as -> by by destruct parent.
  cbn [negb].
  assert (prop "messageId" obj = VString id /\ prop "conversationKey" obj = VString key /\
    prop "parentConversationKey" obj = match parent with Some p => VString p | None => VUndefined end /\
    prop "speaker" obj = speaker_value (mkSpeaker sid sname) /\ prop "text" obj = VString text /\
    prop "attachments" obj = VArray (List.map attachment_value atts) /\ prop "addressed" obj = VBool addr)
    as (-> & -> & -> & -> & -> & -> & ->) by by destruct parent.
  assert (validate_speaker (speaker_value (mkSpeaker sid sname)) =
    if is_empty sid then None else if is_empty sname then None else Some (mkSpeaker sid sname)) as ->.
  { cbv -[is_empty]. destruct (is_empty sid); [done|]. by destruct (is_empty sname). }
  cbn [nonempty_string]. rewrite length_map, attachments_back.
  assert (optional_key (match parent with Some p => VString p | None => VUndefined end) = negb (bool_decide (parent = Some EmptyString))) as ->.
  { destruct parent as [[|c p]|]; [done| |done]. cbn. by rewrite bool_decide_eq_false_2. }
  assert (as_string (match parent with Some p => VString p | None => VUndefined end) = parent) as -> by by destruct parent.
  destruct (bool_decide _); cbn [negb]; [by rewrite !andb_false_r|].
  destruct (is_empty id), (is_empty key), (is_empty sid), (is_empty sname); cbn; rewrite ?andb_false_r; try done.
  destruct (is_empty text && _); cbn; [by rewrite andb_false_r|]. by destruct (forallb _ atts).
Qed.

(** ** Only authenticated messages reach the supervisor *)

Section service.
Context (decodeURIComponent : string -> option string) (parse_body : list N -> option value) (errorId : nat -> string).
Context (byId : Registry).
Context (sha256_json : value -> string) (uuid : nat -> string) (engagementWindowMs quietPeriodMs : Z).
Context (isAbsolute : string -> bool) (path_join : list string -> string) (agentRootDir : option string).

#[local] Abbreviation serve := (server_step decodeURIComponent parse_body errorId byId sha256_json uuid engagementWindowMs
  quietPeriodMs isAbsolute path_join agentRootDir).

(** The message of a request that may post it: the route names the adapter, the
    secret is the adapter's, and the body, of at most 1 MiB, is a message. *)
Record posts (req : CoreRequest) (adapterId : string) (message : InboundMessage) : Prop := {
  po_method : cr_method req = "POST";
  po_route : exists path, cr_pathname req = Some path /\
    matchRoute decodeURIComponent path "/v1/adapters/:adapterId/messages" = Ok (Some adapterId);
  po_secret : exists entry, jget adapterId byId = Some entry /\ cr_secret req = Some (reg_sharedSecret entry) /\
    reg_sharedSecret entry <> EmptyString;
  po_type : cr_contentType req = Some INBOUND_MESSAGE_MEDIA_TYPE;
  po_body : Z.of_nat (length (concat (cr_body req))) <= MAX_BODY_BYTES /\
    (parse_body (concat (cr_body req)) ≫= validateInboundMessage) = Some message
}.

Lemma authenticate_granted a secret :
  authenticate byId a secret = granted ->
  exists entry, jget a byId = Some entry /\ secret = Some (reg_sharedSecret entry) /\ reg_sharedSecret entry <> EmptyString.
Proof.
  unfold authenticate, has, jhas, authenticateInbound, require_adapter.
  destruct (jget a byId) as [entry|]; [|done]. cbn [negb]. destruct secret as [s|]; [|done].
  destruct (is_empty s) eqn:He; [done|]. cbn. rewrite secretEquals_spec.
  case_bool_decide as Hs; [|done]. intros _. exists entry. subst. split_and!; [done|done|]. intros Hn. by rewrite Hn in He.
Qed.

Lemma read_bounded_spec chunks total acc body :
  read_bounded chunks total acc = Some body -> total = Z.of_nat (length acc) -> total <= MAX_BODY_BYTES ->
  body = acc ++ concat chunks /\ Z.of_nat (length body) <= MAX_BODY_BYTES.
Proof.
  revert total acc. induction chunks as [|c chunks IH]; intros total acc; cbn.
  - intros [= <-] -> Hle. by rewrite app_nil_r.
  - destruct (Z.ltb_spec MAX_BODY_BYTES (total + Z.of_nat (length c))) as [|Hle]; [done|]. intros Hr -> _.
    destruct (IH _ _ Hr) as [-> Hlen]; [rewrite length_app; lia|done|]. by rewrite <- app_assoc in *.
Qed.

Lemma requests_json r status body s : requests (core (sendJson r status body s)) = requests (core s).
Proof. done. Qed.

Lemma requests_internal r s : requests (core (handleInternalError errorId r s)) = requests (core s).
Proof. done. Qed.

(** A request leaves the supervisor's messages as they are, or posts one. *)
Lemma route_requests req r s :
  requests (core (route decodeURIComponent parse_body errorId byId req r s)) = requests (core s) \/
  exists a m, requests (core (route decodeURIComponent parse_body errorId byId req r s)) = requests (core s) ++ [(a, m)] /\
    posts req a m.
Proof.
  unfold route. destruct (cr_pathname req) as [path|] eqn:Hpath; [|by left]. cbv zeta.
  destruct (_ && _); [by left|]. destruct (_ && _); [by left|].
  destruct (matchRoute _ path "/v1/adapters/:adapterId/messages") as [found|] eqn:Hroute; [|by left].
  destruct (String.eqb_spec (cr_method req) "POST") as [Hpost|].
  2: { repeat case_match; try (by left). left. unfold handleDismissEngagement.
       destruct (authenticate _ _ _); try done. unfold dismissEngagement. by destruct (dismiss _ _ _ _). }
  destruct found as [a|].
  2: { repeat case_match; try (by left). left. unfold handleDismissEngagement.
       destruct (authenticate _ _ _); try done. unfold dismissEngagement. by destruct (dismiss _ _ _ _). }
  unfold handleInboundMessage. destruct (authenticate byId a (cr_secret req)) eqn:Hauth; try (by left).
  destruct (bool_decide (cr_contentType req = Some INBOUND_MESSAGE_MEDIA_TYPE)) eqn:Htype; [|by left]. cbn [negb].
  destruct (readBoundedBody (cr_body req)) as [body|] eqn:Hbody; [|by left].
  destruct body as [|b rest] eqn:Hb; [by left|]. rewrite <- Hb in *. clear Hb.
  destruct (parse_body body) as [parsed|] eqn:Hparsed; [|by left].
  destruct (validateInboundMessage parsed) as [m|] eqn:Hm; [|by left].
  right. exists a, m. split.
  { apply requests_inbound. }
  destruct (read_bounded_spec _ _ _ _ Hbody) as [-> Hlen]; [done|done|]. cbn [app] in *.
  split; [done|by exists path|by apply authenticate_granted|by apply bool_decide_eq_true in Htype|].
  by rewrite Hparsed.
Qed.

Lemma serve_requests s op :
  requests (core (serve s op)) = requests (core s) \/
  exists req a m, op = Request req /\ requests (core (serve s op)) = requests (core s) ++ [(a, m)] /\ posts req a m.
Proof.
  destruct op as [|req|i|op|]; cbn [server_step].
  - left. by destruct (_ && _).
  - destruct (server_listening s); [|by left].
    match goal with |- context [route _ _ _ _ req ?r ?s1] => destruct (route_requests req r s1) as [H|(a & m & H & Hp)] end.
    + left. exact H.
    + right. by exists req, a, m.
  - left. repeat case_match; try done; unfold inbound_settled, handleInboundError; by repeat case_match.
  - left. destruct (is_internal op) eqn:Hop; [|done]. cbn [core set_field]. rewrite requests_step. by destruct op.
  - left. unfold close. destruct (closeCalled s); [done|]. apply requests_close.
Qed.

(** C39: Whatever requests come and however the rest interleaves, every message the
    supervisor was given was posted, with its adapter in the route, the adapter's
    registered non-empty secret, the v1 media type and a body of at most 1 MiB that
    is that message; and the supervisor gets them in the order they came, each
    request at most once. *)
Theorem messages_are_authenticated adapters agentId db registry outbox lstat s ops :
  bootCoreServer path_join agentRootDir lstat adapters agentId db registry outbox = Ok s ->
  exists posted, requests (core (fold_left serve ops s)) = List.map snd posted /\
    Forall (fun p => posts p.1 p.2.1 p.2.2) posted /\
    List.map (fun p => Request p.1) posted `sublist_of` ops.
Proof.
  intros Hboot.
  assert (requests (core s) = []) as H0.
  { unfold bootCoreServer in Hboot. destruct (validateAgentBindings _ _ _ _ _); [|done]. injection Hboot as <-.
    cbn [core]. by rewrite (requests_quiet no_hash _ _ (quiet_recover _ _ _)). }
  clear Hboot. induction ops as [|op ops IH] using rev_ind.
  { exists []. split_and!; [done|constructor|constructor]. }
  rewrite fold_left_app. cbn [fold_left]. destruct IH as (posted & Hreq & Hp & Hsub).
  destruct (serve_requests (fold_left serve ops s) op) as [H|(req & a & m & -> & H & Hm)].
  - exists posted. rewrite H. split_and!; [done|done|]. by apply sublist_inserts_r.
  - exists (posted ++ [(req, (a, m))]). rewrite H, Hreq, !List.map_app. split_and!; [done| |].
    + apply Forall_app. split; [done|]. by constructor.
    + by apply sublist_app.
Qed.
End service.

(** ** A room *)

Module ServiceSample.
Definition registry : Registry := [("http", mkRegistration "http" "http://127.0.0.1/core" "secret" VNull)].
Definition request (secret path : string) : CoreRequest :=
  mkCoreRequest "POST" (Some path) (Some secret) (Some INBOUND_MESSAGE_MEDIA_TYPE) [[1%N]].
Definition parse (b : list N) : option value := Some (message_value sample_message).
(** Only a percent sign is an escape here, a malformed one. *)
Definition decode (s : string) : option string := if all_chars (fun c => negb (Ascii.eqb c "%")) s then Some s else None.
Definition start (sessions : SessionRegistry) : result string CoreServer :=
  bootCoreServer (fun _ => EmptyString) None (fun _ => None) [] None ∅ sessions [].
Definition step := server_step decode parse (fun _ => "e1") registry (fun _ => EmptyString) (fun _ => "u") 0 0
  (fun _ => false) (fun _ => EmptyString) None.
Definition ops : list ServerOp :=
  [Listen; Request (request "wrong" "/v1/adapters/http/messages"); Request (request "secret" "/v1/adapters/http/messages")].
Definition serve_all (sessions : SessionRegistry) (l : list ServerOp) : result string CoreServer :=
  match start sessions with Ok s => Ok (fold_left step l s) | Throw e => Throw e end.
End ServiceSample.

Definition no_sessions : SessionRegistry := mkSessionRegistry ∅ [] ∅ 0.

Lemma messages_are_authenticated_witness :
  exists s, ServiceSample.start no_sessions = Ok s /\
    requests (core (fold_left ServiceSample.step ServiceSample.ops s)) = [("http", sample_message)] /\
    exists posted, requests (core (fold_left ServiceSample.step ServiceSample.ops s)) = List.map snd posted /\
      Forall (fun p => posts ServiceSample.decode ServiceSample.parse ServiceSample.registry p.1 p.2.1 p.2.2) posted /\
      List.map (fun p => Request p.1) posted `sublist_of` ServiceSample.ops.
Proof.
  destruct (ServiceSample.start no_sessions) as [s|e] eqn:Hs; [|discriminate Hs].
  exists s. split; [reflexivity|]. split; [injection Hs as <-; vm_compute; reflexivity|].
  apply (messages_are_authenticated ServiceSample.decode ServiceSample.parse (fun _ => "e1") ServiceSample.registry
    (fun _ => EmptyString) (fun _ => "u") 0 0 (fun _ => false) (fun _ => EmptyString) None [] None ∅ no_sessions []
    (fun _ => None) s ServiceSample.ops).
  exact Hs.
Defined.

(** A path with a malformed escape, whatever its method, is an internal error. *)
Example malformed_escape_is_500 :
  match ServiceSample.serve_all no_sessions [Listen; Request (mkCoreRequest "GET" (Some "/v1/adapters/%/messages") None None [])] with
  | Ok s => replies s
  | Throw _ => []
  end = [Some (500, VObject [("error", VString "internal error"); ("errorId", VString "e1")])].
Proof. vm_compute. reflexivity. Qed.
