(* ===== verification/Effects.v ===== *)
(** * Asynchronous programs

    An async method that talks to the outside is a tree of its calls: each
    [Await] is an [await] of a [Call], and goes on with the answer.  What runs
    in between is one [comp]utation over the data the method shares with no one
    else.  A tree can be scheduled against other trees one answer at a time,
    and [wp] reads a specification off it. *)

From S2P Require Import Prelude.
From stdpp Require Import options.

Section prog.
Context {Call : Type} {Reply : Call -> Type}.

Inductive prog (A : Type) : Type :=
| Done (a : A)
| Await (c : Call) (k : Reply c -> prog A).
Arguments Done {A} a.
Arguments Await {A} c k.

Fixpoint pbind {A B} (p : prog A) (f : A -> prog B) : prog B :=
  match p with
  | Done a => f a
  | Await c k => Await c (fun r => pbind (k r) f)
  end.

(** ** Methods that mutate [S] and may throw *)

Definition async (S E A : Type) : Type := S -> prog (result E A * S).

Section async.
Context {S E : Type}.

Definition aret {A} (a : A) : async S E A := fun s => Done (Ok a, s).
Definition athrow {A} (e : E) : async S E A := fun s => Done (Throw e, s).
Definition abind {A B} (m : async S E A) (f : A -> async S E B) : async S E B := fun s =>
  pbind (m s) (fun '(r, s) => match r with Ok a => f a s | Throw e => Done (Throw e, s) end).
Definition await (c : Call) : async S E (Reply c) := fun s => Await c (fun r => Done (Ok r, s)).
Definition asget : async S E S := fun s => Done (Ok s, s).
Definition amodify (f : S -> S) : async S E unit := fun s => Done (Ok tt, f s).
Definition lift {A} (r : result E A) : async S E A := fun s => Done (r, s).

(** [try { m } catch (error) { h }] *)
Definition acatch {A} (m : async S E A) (h : E -> async S E A) : async S E A := fun s =>
  pbind (m s) (fun '(r, s) => match r with Ok a => Done (Ok a, s) | Throw e => h e s end).

(** [try { m } finally { f }]: an exception of [f] replaces the outcome. *)
Definition afinally {A} (m : async S E A) (f : async S E unit) : async S E A := fun s =>
  pbind (m s) (fun '(r, s) =>
    pbind (f s) (fun '(r', s) => match r' with Ok _ => Done (r, s) | Throw e => Done (Throw e, s) end)).

(** [for (const x of l) { f(x) }] *)
Fixpoint aeach {X} (f : X -> async S E unit) (l : list X) : async S E unit :=
  match l with
  | [] => aret tt
  | x :: l => abind (f x) (fun _ => aeach f l)
  end.
End async.

(** ** Runs

    [p] calls and is answered as [tr] says, and returns [a]. *)
Fixpoint runs {A} (p : prog A) (tr : list {c : Call & Reply c}) (a : A) : Prop :=
  match p with
  | Done a' => tr = [] /\ a' = a
  | Await c k => exists r tr', tr = existT c r :: tr' /\ runs (k r) tr' a
  end.

(** The run in which each call has the answer [env] gives it. *)
Fixpoint drive {A} (env : forall c, Reply c) (p : prog A) : list {c : Call & Reply c} * A :=
  match p with
  | Done a => ([], a)
  | Await c k => let d := drive env (k (env c)) in (existT c (env c) :: d.1, d.2)
  end.

Lemma runs_drive {A} (env : forall c, Reply c) (p : prog A) : runs p (drive env p).1 (drive env p).2.
Proof. induction p as [a|c k IH]; simpl; [done|]. eexists _, _. split; [done | apply IH]. Qed.

(** ** Specifications

    A ghost state follows the calls: each call must be [allowed] in it and the
    answer takes it on. *)
Class Protocol (G : Type) := {
  allowed : G -> Call -> Prop;
  answered : G -> forall c, Reply c -> G -> Prop;
}.

Section wp.
Context {G : Type} `{!Protocol G}.

(** Every call of [p] is allowed, whatever is answered, and the results have [Q]. *)
Fixpoint wp {A} (g : G) (p : prog A) (Q : G -> A -> Prop) : Prop :=
  match p with
  | Done a => Q g a
  | Await c k => allowed g c /\ forall r g', answered g c r g' -> wp g' (k r) Q
  end.

Lemma wp_mono {A} (p : prog A) g (Q Q' : G -> A -> Prop) :
  (forall g a, Q g a -> Q' g a) -> wp g p Q -> wp g p Q'.
Proof.
  intros HQ. revert g. induction p as [a|c k IH]; simpl; intros g; [auto|].
  intros [Ha Hk]. split; [done|]. intros r g' Hr. eapply IH, Hk, Hr.
Qed.

Lemma wp_pbind {A B} (p : prog A) (f : A -> prog B) g Q :
  wp g p (fun g a => wp g (f a) Q) -> wp g (pbind p f) Q.
Proof.
  revert g. induction p as [a|c k IH]; simpl; intros g; [done|].
  intros [Ha Hk]. split; [done|]. intros r g' Hr. eapply IH, Hk, Hr.
Qed.

(** The specification of a method that starts in [s]: [Q] of the ghost state,
    the outcome and the data it leaves. *)
Definition awp {S E A} (g : G) (m : async S E A) (s : S) (Q : G -> result E A -> S -> Prop) : Prop :=
  wp g (m s) (fun g rs => Q g rs.1 rs.2).

Lemma awp_mono {S E A} g (m : async S E A) s (Q Q' : G -> result E A -> S -> Prop) :
  awp g m s Q -> (forall g r s, Q g r s -> Q' g r s) -> awp g m s Q'.
Proof. intros Hm HQ. eapply wp_mono; [|exact Hm]. simpl. auto. Qed.

Lemma awp_bind {S E A B} g (m : async S E A) (f : A -> async S E B) s Q :
  awp g m s (fun g r s => match r with Ok a => awp g (f a) s Q | Throw e => Q g (Throw e) s end) ->
  awp g (abind m f) s Q.
Proof.
  intros Hm. apply wp_pbind. eapply wp_mono; [|exact Hm]. intros g' [[a|e] s']; simpl; auto.
Qed.

Lemma awp_asget {S E B} g (f : S -> async S E B) s (Q : G -> result E B -> S -> Prop) :
  awp g (f s) s Q -> awp g (abind asget f) s Q.
Proof. done. Qed.

Lemma awp_catch {S E A} g (m : async S E A) (h : E -> async S E A) s Q :
  awp g m s (fun g r s => match r with Ok a => Q g (Ok a) s | Throw e => awp g (h e) s Q end) ->
  awp g (acatch m h) s Q.
Proof.
  intros Hm. apply wp_pbind. eapply wp_mono; [|exact Hm]. intros g' [[a|e] s']; simpl; auto.
Qed.

Lemma awp_finally {S E A} g (m : async S E A) (f : async S E unit) s Q :
  awp g m s (fun g r s => awp g f s (fun g r' s =>
    match r' with Ok _ => Q g r s | Throw e => Q g (Throw e) s end)) ->
  awp g (afinally m f) s Q.
Proof.
  intros Hm. apply wp_pbind. eapply wp_mono; [|exact Hm]. intros g' [r s'] Hf. apply wp_pbind.
  eapply wp_mono; [|exact Hf]. intros g2 [[[]|e] s2]; simpl; auto.
Qed.

Lemma awp_await {S E} g (c : Call) (s : S) (Q : G -> result E (Reply c) -> S -> Prop) :
  allowed g c -> (forall r g', answered g c r g' -> Q g' (Ok r) s) -> awp g (await c) s Q.
Proof. intros Ha HQ. unfold awp, await. simpl. split; [exact Ha|]. intros r g' Hr. by apply HQ. Qed.

(** A loop keeps [I]; a throw leaves it with [T]. *)
Lemma awp_each {S E X} (f : X -> async S E unit) (I : G -> S -> Prop) (T : G -> E -> S -> Prop) l g s :
  (forall x g s, x ∈ l -> I g s ->
     awp g (f x) s (fun g r s => match r with Ok _ => I g s | Throw e => T g e s end)) ->
  I g s -> awp g (aeach f l) s (fun g r s => match r with Ok _ => I g s | Throw e => T g e s end).
Proof.
  revert g s. induction l as [|x l IH]; simpl; intros g s Hf Hi; [done|]. apply awp_bind.
  eapply awp_mono; [apply Hf; [by left | done]|]. intros g' [[]|e] s' Hs'; [|done].
  apply IH; [|done]. intros y g2 s2 Hy. apply Hf. by right.
Qed.

(** What [wp] says holds of every run, when every call has an answer. *)
Lemma wp_runs {A} (p : prog A) g (Q : G -> A -> Prop) tr a :
  (forall g c r, exists g', answered g c r g') -> wp g p Q -> runs p tr a -> exists g', Q g' a.
Proof.
  intros Htot. revert g tr. induction p as [a'|c k IH]; simpl; intros g tr.
  - intros HQ [_ ->]. by exists g.
  - intros [_ Hk] (r & tr' & _ & Hr). destruct (Htot g c r) as [g' Hg']. by eapply IH; [apply Hk|].
Qed.
End wp.

(** ** Histories

    The protocol that allows every call and remembers the answers. *)
#[local] Instance history : Protocol (list {c : Call & Reply c}) := {
  allowed _ _ := True;
  answered g c r g' := g' = g ++ [existT c r];
}.

Lemma wp_history {A} (p : prog A) g Q tr a : wp g p Q -> runs p tr a -> Q (g ++ tr) a.
Proof.
  revert g tr. induction p as [a'|c k IH]; simpl; intros g tr.
  - intros HQ [-> ->]. by rewrite app_nil_r.
  - intros [_ Hk] (r & tr' & -> & Hr). rewrite cons_middle, app_assoc. eapply IH; [|done]. by apply Hk.
Qed.

Lemma wp_extends {A} (p : prog A) g (I : list {c : Call & Reply c} -> Prop) :
  (forall g x, I g -> I (g ++ [x])) -> I g -> wp g p (fun g _ => I g).
Proof.
  intros HI. revert g. induction p as [a|c k IH]; simpl; intros g Hg; [done|]. split; [done|].
  intros r g' ->. by apply IH, HI.
Qed.
End prog.

Arguments prog {Call} Reply A.
Arguments Done {Call Reply A} a.
Arguments Await {Call Reply A} c k.
Arguments async {Call} Reply S E A.
Arguments Protocol {Call} Reply G.

Notation "x <-@ m ; k" := (abind m (fun x => k))
  (at level 100, m at next level, right associativity) : omp_scope.
Notation "m ;@ k" := (abind m (fun _ => k)) (at level 100, right associativity) : omp_scope.
