(* ===== verification/DeliveryStore.v ===== *)
(** * The Pumble adapter's delivery store

    packages/pumble-adapter/src/delivery-store.ts: which outbound events are
    rendered and which effects of an event are confirmed, in memory and in a
    JSON file that a temporary file replaces.  An [Io] says how the file system
    answers.  The file holds the value its text parses to; Object.entries lists
    the ids in the order they were written (event ids are UUIDs, no array
    indices). *)

From S2P Require Import Prelude RecordUpdate JsMap JsValue Canonical.
From stdpp Require Import options.

(** ** Data *)

Record DeliveryStoreData := mkData {
  completed : list string;
  checkpoints : jsmap (list string);
}.

(** The text of the file: [JSON.stringify] of a value, or no JSON. *)
Inductive FileText : Type := JsonText (v : value) | NotJson.

Record DeliveryStore := mkStore {
  memory : option DeliveryStoreData;   (** [None]: not [loaded] *)
  disk : option FileText;              (** [None]: no file *)
}.
#[export] Instance DeliveryStoreData_fields : Fields DeliveryStoreData :=
  fun r => mkData (completed r) (checkpoints r).
#[export] Instance DeliveryStore_fields : Fields DeliveryStore :=
  fun r => mkStore (memory r) (disk r).

(** How [write] ends: done, failed before the rename, or failed after it. *)
Inductive WriteOutcome : Type := write_done | write_failed | write_unsynced.

(** The answers of the file system to one operation. *)
Record Io := mkIo { readable : bool; written : WriteOutcome }.

Definition empty_data : DeliveryStoreData := mkData [] [].

Definition stored_value (d : DeliveryStoreData) : value :=
  VObject
    (("completedEventIds", VArray (VString <$> completed d)) ::
     match checkpoints d with
     | [] => []
     | cps => [("eventCheckpoints", VObject ((fun kv => (kv.1, VArray (VString <$> kv.2))) <$> cps))]
     end).

(** ** Reading the file *)

Fixpoint nonempty_strings (l : list value) : option (list string) :=
  match l with
  | [] => Some []
  | v :: l =>
      match nonempty_string v, nonempty_strings l with
      | Some x, Some xs => Some (x :: xs)
      | _, _ => None
      end
  end.

(** An array of distinct non-empty strings. *)
Definition distinct_strings (v : value) : option (list string) :=
  match v with
  | VArray l =>
      match nonempty_strings l with
      | Some xs => if bool_decide (NoDup xs) then Some xs else None
      | None => None
      end
  | _ => None
  end.

Fixpoint checkpoint_entries (l : list (string * value)) : option (jsmap (list string)) :=
  match l with
  | [] => Some []
  | (eventId, values) :: l =>
      if is_empty eventId then None
      else
        match distinct_strings values, checkpoint_entries l with
        | Some xs, Some rest => Some ((eventId, xs) :: rest)
        | _, _ => None
        end
  end.

(** [isDeliveryStoreData(parsed)] and the sets made of an accepted value *)
Definition parse_data (v : value) : option DeliveryStoreData :=
  match as_record v with
  | None => None
  | Some record =>
      match distinct_strings (prop "completedEventIds" record) with
      | None => None
      | Some ids =>
          match prop "eventCheckpoints" record with
          | VUndefined => Some (mkData ids [])
          | VObject entries =>
              match checkpoint_entries entries with Some m => Some (mkData ids m) | None => None end
          | _ => None
          end
      end
  end.

(** ** Operations *)

Section store.
Variable filePath : string.
#[local] Abbreviation M := (comp DeliveryStore string).

Definition load (io : Io) : M unit := fun s =>
  match memory s with
  | Some _ => (Ok tt, s)
  | None =>
      match disk s with
      | None => (Ok tt, s <| memory := Some empty_data |>)
      | Some text =>
          if readable io then
            match text with
            | NotJson => (Throw "not valid JSON", s)
            | JsonText v =>
                match parse_data v with
                | Some d => (Ok tt, s <| memory := Some d |>)
                | None => (Throw (String.append "invalid delivery store at " filePath), s)
                end
            end
          else (Throw "the file cannot be read", s)
      end
  end.

Definition data (s : DeliveryStore) : DeliveryStoreData := default empty_data (memory s).

Definition write (io : Io) : M unit := fun s =>
  let replaced := s <| disk := Some (JsonText (stored_value (data s))) |> in
  match written io with
  | write_done => (Ok tt, replaced)
  | write_failed => (Throw "the file cannot be written", s)
  | write_unsynced => (Throw "the directory cannot be synced", replaced)
  end.

(** The in-memory sets change before the file is written. *)
Definition change (f : DeliveryStoreData -> DeliveryStoreData) (io : Io) : M unit := fun s =>
  write io (s <| memory := Some (f (data s)) |>).

Definition hasCompleted (eventId : string) (io : Io) : M bool :=
  load io;? fun s => (Ok (bool_decide (eventId ∈ completed (data s))), s).

Definition checkpoints_of (eventId : string) (d : DeliveryStoreData) : list string :=
  default [] (jget eventId (checkpoints d)).

Definition checkpointsFor (eventId : string) (io : Io) : M (list string) :=
  load io;? fun s => (Ok (checkpoints_of eventId (data s)), s).

Definition add_checkpoint (eventId checkpoint : string) (d : DeliveryStoreData) : DeliveryStoreData :=
  d <| checkpoints ::= jset eventId (checkpoints_of eventId d ++ [checkpoint]) |>.

Definition markCheckpoint (eventId checkpoint : string) (io : Io) : M unit :=
  load io;? fun s =>
    if bool_decide (eventId ∈ completed (data s)) then (Ok tt, s)
    else if bool_decide (checkpoint ∈ checkpoints_of eventId (data s)) then (Ok tt, s)
    else change (add_checkpoint eventId checkpoint) io s.

Definition complete (eventId : string) (d : DeliveryStoreData) : DeliveryStoreData :=
  mkData (completed d ++ [eventId]) (jdelete eventId (checkpoints d)).

Definition markCompleted (eventId : string) (io : Io) : M unit :=
  load io;? fun s =>
    if bool_decide (eventId ∈ completed (data s)) then (Ok tt, s)
    else change (complete eventId) io s.
End store.

(** The process stops: the file stays. *)
Definition restart (s : DeliveryStore) : DeliveryStore := s <| memory := None |>.

Inductive StoreOp : Type :=
| HasCompleted (eventId : string) (io : Io)
| CheckpointsFor (eventId : string) (io : Io)
| MarkCheckpoint (eventId checkpoint : string) (io : Io)
| MarkCompleted (eventId : string) (io : Io)
| StoreRestart.

Definition store_step (filePath : string) (s : DeliveryStore) (op : StoreOp) : DeliveryStore :=
  match op with
  | HasCompleted e io => (hasCompleted filePath e io s).2
  | CheckpointsFor e io => (checkpointsFor filePath e io s).2
  | MarkCheckpoint e k io => (markCheckpoint filePath e k io s).2
  | MarkCompleted e io => (markCompleted filePath e io s).2
  | StoreRestart => restart s
  end.

(** ** The file round-trips *)

Definition distinct_nonempty (l : list string) : Prop := NoDup l /\ "" ∉ l.

Record data_wf (d : DeliveryStoreData) : Prop := {
  wf_completed : distinct_nonempty (completed d);
  wf_keys : distinct_nonempty (jkeys (checkpoints d));
  wf_values : Forall (fun kv => distinct_nonempty kv.2) (checkpoints d);
}.

Lemma nonempty_strings_stored l : "" ∉ l -> nonempty_strings (VString <$> l) = Some l.
Proof.
  induction l as [|x l IH]; [done|]. intros [Hx Hl]%not_elem_of_cons.
  rewrite fmap_cons. cbn [nonempty_strings]. rewrite IH by done. by destruct x.
Qed.

Lemma nonempty_strings_nonempty l xs : nonempty_strings l = Some xs -> "" ∉ xs.
Proof.
  revert xs. induction l as [|v l IH]; simpl; intros xs Hxs; simplify_eq; [apply not_elem_of_nil|].
  destruct (nonempty_string v) as [x|] eqn:Hv; [|done]. case_all.
  apply not_elem_of_cons. split; [|by eapply IH]. intros <-. destruct v as [| | | |[|]| |]; done.
Qed.

Lemma distinct_strings_stored l :
  distinct_nonempty l -> distinct_strings (VArray (VString <$> l)) = Some l.
Proof.
  intros [Hnd Hne]. unfold distinct_strings. rewrite nonempty_strings_stored by done.
  by rewrite bool_decide_eq_true_2.
Qed.

Lemma distinct_strings_wf v xs : distinct_strings v = Some xs -> distinct_nonempty xs.
Proof.
  unfold distinct_strings. intros. case_all. bools. split; [done|].
  by eapply nonempty_strings_nonempty.
Qed.

Lemma checkpoint_entries_stored m :
  "" ∉ jkeys m -> Forall (fun kv => distinct_nonempty kv.2) m ->
  checkpoint_entries ((fun kv => (kv.1, VArray (VString <$> kv.2))) <$> m) = Some m.
Proof.
  induction m as [|[k xs] m IH]; [done|].
  intros [Hk Hm]%not_elem_of_cons [Hxs Hf]%Forall_cons. rewrite fmap_cons. cbn [checkpoint_entries fst snd].
  rewrite distinct_strings_stored, IH by done. by destruct k.
Qed.

Lemma checkpoint_entries_wf l m :
  checkpoint_entries l = Some m ->
  jkeys m = (l.*1) /\ ("" ∉ jkeys m) /\ Forall (fun kv => distinct_nonempty kv.2) m.
Proof.
  revert m. induction l as [|[k v] l IH]; simpl; intros m Hm; simplify_eq.
  { split_and!; [done | apply not_elem_of_nil | constructor]. }
  case_all.
  destruct (IH _ eq_refl) as (He & Hn & Hf).
  split_and!.
  - by rewrite He.
  - apply not_elem_of_cons. split; [by intros <- | done].
  - constructor; [by eapply distinct_strings_wf | done].
Qed.

(** What [write] stores, [load] reads back. *)
Lemma parse_stored d : data_wf d -> parse_data (stored_value d) = Some d.
Proof.
  intros [Hc [_ Hk] Hv]. destruct d as [ids m]. unfold parse_data, stored_value. cbn [as_record completed checkpoints] in *.
  change (prop "completedEventIds" _) with (VArray (VString <$> ids)).
  rewrite distinct_strings_stored by done. destruct m as [|kv m]; [done|].
  change (prop "eventCheckpoints" _) with
    (VObject ((fun kv => (kv.1, VArray (VString <$> kv.2))) <$> kv :: m)).
  cbn beta iota. by rewrite checkpoint_entries_stored.
Qed.

Lemma prop_object_elem k ps qs : prop k ps = VObject qs -> (k, VObject qs) ∈ ps.
Proof. induction ps as [|[k' v] ps IH]; simpl; [done|]. case_decide; intros; simplify_eq; [by left | right; auto]. Qed.

(** What is read back from a JSON object is well formed. *)
Lemma parse_data_wf v d : unique_keys v -> parse_data v = Some d -> data_wf d.
Proof.
  intros Hu. unfold parse_data. destruct (as_record v) as [record|] eqn:Hr; [|done].
  destruct v; simplify_eq/=. apply unique_object_inv in Hu as [_ Hu].
  destruct (distinct_strings _) as [ids|] eqn:Hids; [|done]. apply distinct_strings_wf in Hids.
  destruct (prop "eventCheckpoints" record) eqn:Hp; intros Hd; simplify_eq; [constructor; simpl; try done|].
  { split; [constructor | apply not_elem_of_nil]. }
  destruct (checkpoint_entries props) as [m|] eqn:Hm; simplify_eq.
  apply checkpoint_entries_wf in Hm as (Hk & Hn & Hf). constructor; simpl; [done | | done].
  split; [|done]. rewrite Hk. apply prop_object_elem in Hp.
  eapply Forall_forall in Hu; [|exact Hp]. by apply unique_object_inv in Hu as [Hu _].
Qed.

(** ** Nothing recorded is forgotten *)

(** Everything recorded in [d] is recorded in [d'], or its event is completed there. *)
Definition data_le (d d' : DeliveryStoreData) : Prop :=
  completed d ⊆ completed d' /\
  forall e k, k ∈ checkpoints_of e d -> k ∈ checkpoints_of e d' \/ e ∈ completed d'.

#[export] Instance data_le_preorder : PreOrder data_le.
Proof.
  split.
  - intros d. split; [done | by left].
  - intros d1 d2 d3 [H1 H1'] [H2 H2']. split; [by etrans|].
    intros e k [Hk|He]%H1'; [by apply H2' | right; by apply H2].
Qed.

Lemma checkpoints_of_add e e' k d :
  checkpoints_of e (add_checkpoint e' k d) =
  if decide (e = e') then checkpoints_of e d ++ [k] else checkpoints_of e d.
Proof.
  unfold checkpoints_of at 1. simpl. rewrite jget_set. unfold checkpoints_of.
  case_decide; subst; done.
Qed.

Lemma data_le_add e k d : data_le d (add_checkpoint e k d).
Proof.
  split; [done|]. intros e' k' Hk. left. rewrite checkpoints_of_add.
  case_decide; [apply elem_of_app; by left | done].
Qed.

Lemma data_le_complete e d : data_le d (complete e d).
Proof.
  split; simpl; [intros x Hx; apply elem_of_app; by left|].
  intros e' k Hk. destruct (decide (e' = e)) as [->|Hne].
  - right. apply elem_of_app. right. by apply list_elem_of_singleton.
  - left. unfold checkpoints_of in *. simpl. by rewrite jget_delete_ne.
Qed.

Lemma distinct_snoc l x : distinct_nonempty l -> x ∉ l -> x <> "" -> distinct_nonempty (l ++ [x]).
Proof.
  intros [Hnd Hne] Hx Hx'. split.
  - apply NoDup_app. split_and!; [done | | apply NoDup_singleton]. by intros y Hy ->%list_elem_of_singleton.
  - intros [Hl|Hl]%elem_of_app; [done|]. by apply list_elem_of_singleton in Hl.
Qed.

Lemma checkpoints_of_wf e d : data_wf d -> distinct_nonempty (checkpoints_of e d).
Proof.
  intros [_ _ Hv]. unfold checkpoints_of. destruct (jget e (checkpoints d)) eqn:Hg; simpl.
  - by eapply Forall_forall in Hv; [|by apply jget_elem_of].
  - split; [constructor | apply not_elem_of_nil].
Qed.

Lemma complete_wf e d : e <> "" -> e ∉ completed d -> data_wf d -> data_wf (complete e d).
Proof.
  intros He Hin [Hc [Hnd Hk] Hv]. constructor; simpl; [by apply distinct_snoc | |].
  - split; [by apply NoDup_jdelete|]. intros Hx. apply Hk. unfold jkeys in *.
    by eapply elem_of_sublist; [|apply jdelete_sublist].
  - unfold jdelete. apply Forall_forall. intros kv Hkv.
    rewrite Forall_forall in Hv. apply Hv. rewrite list_elem_of_In in Hkv |- *. by apply filter_In in Hkv as [].
Qed.

Lemma add_checkpoint_wf e k d :
  e <> "" -> k <> "" -> k ∉ checkpoints_of e d -> data_wf d -> data_wf (add_checkpoint e k d).
Proof.
  intros He Hk Hin Hd. pose proof (checkpoints_of_wf e d Hd) as Hw. destruct Hd as [Hc [Hnd Hk'] Hv].
  constructor; simpl; [done | split; [by apply NoDup_jset|] |].
  - intros Hx%elem_of_jkeys. rewrite jget_set, decide_False in Hx by done. by apply elem_of_jkeys in Hx.
  - apply Forall_forall. intros [e' l] Hl. apply elem_of_jget in Hl; [|by apply NoDup_jset].
    rewrite jget_set in Hl. case_decide; simplify_eq; [by apply distinct_snoc|].
    apply jget_elem_of in Hl. by eapply Forall_forall in Hv; [|exact Hl].
Qed.

(** What the file records; no file records nothing. *)
Definition disk_data (s : DeliveryStore) : option DeliveryStoreData :=
  match disk s with
  | None => Some empty_data
  | Some (JsonText v) => parse_data v
  | Some NotJson => None
  end.

(** Well-formed data, and nothing on disk that is not in memory. *)
Record store_ok (s : DeliveryStore) : Prop := {
  ok_disk : forall d, disk_data s = Some d -> data_wf d;
  ok_memory : forall d, memory s = Some d -> data_wf d /\ exists d0, disk_data s = Some d0 /\ data_le d0 d;
}.

Definition op_ids (op : StoreOp) : Prop :=
  match op with
  | MarkCheckpoint e k _ => e <> "" /\ k <> ""
  | MarkCompleted e _ => e <> ""
  | _ => True
  end.

(** What an operation does to the data: the file read stays readable and keeps
    what it records. *)
Record store_evolves (s s' : DeliveryStore) : Prop := {
  evolves_ok : store_ok s -> store_ok s';
  evolves_disk : store_ok s -> forall d, disk_data s = Some d -> exists d', disk_data s' = Some d' /\ data_le d d';
}.

#[export] Instance store_evolves_preorder : PreOrder store_evolves.
Proof.
  split.
  - intros s. split; [done|]. intros _ d Hd. by exists d.
  - intros s1 s2 s3 [Ho1 Hd1] [Ho2 Hd2]. split; [by eauto|]. intros Hok d Hd.
    destruct (Hd1 Hok d Hd) as (d' & Hd' & Hle). destruct (Hd2 (Ho1 Hok) d' Hd') as (d2 & Hd2' & Hle').
    exists d2. split; [done | by etrans].
Qed.

Lemma empty_data_wf : data_wf empty_data.
Proof. split; [split; [constructor | apply not_elem_of_nil] .. | constructor]. Qed.

(** [load] leaves the file alone; what it loads is the file. *)
Lemma load_spec path io s :
  let s' := (load path io s).2 in
  disk s' = disk s /\
  (memory s' = memory s \/ memory s = None /\ memory s' = disk_data s) /\
  ((load path io s).1 = Ok tt -> is_Some (memory s')).
Proof.
  unfold load, disk_data. destruct s as [[d|] [[v|]|]]; simpl;
    try destruct (readable io); simpl; try destruct (parse_data v); simpl;
    (split; [done | split; [auto | try done; by eexists]]).
Qed.

Lemma load_evolves path io s : store_evolves s (load path io s).2.
Proof.
  destruct (load_spec path io s) as (Hd & Hm & _).
  assert (disk_data (load path io s).2 = disk_data s) as Hdd by (unfold disk_data; by rewrite Hd).
  split; [|intros _ d Hs; rewrite Hdd; by exists d]. intros [Ho Hmem]. split; rewrite Hdd; [done|].
  intros d Hs. destruct Hm as [Hm|[_ Hm]]; rewrite Hm in Hs; [by apply Hmem|].
  split; [by apply Ho | by exists d].
Qed.

Lemma load_ok path io s s' : load path io s = (Ok tt, s') -> is_Some (memory s').
Proof. intros Hl. destruct (load_spec path io s) as (_ & _ & Hs). rewrite Hl in Hs. by apply Hs. Qed.

(** A change of the sets, written or not. *)
Lemma change_evolves (f : DeliveryStoreData -> DeliveryStoreData) io s :
  is_Some (memory s) -> data_le (data s) (f (data s)) ->
  (store_ok s -> data_wf (data s) -> data_wf (f (data s))) -> store_evolves s (change f io s).2.
Proof.
  intros [d Hm] Hle Hwf. unfold change, write, data in *. rewrite Hm in *. simpl in *.
  assert (store_ok s -> data_wf (f d)) as Hf.
  { intros Hok. apply Hwf; [done|]. by apply ok_memory in Hm as [? _]. }
  assert (store_ok s -> forall d', disk_data s = Some d' -> data_le d' (f d)) as Hdisk.
  { intros Hok d' Hd'. destruct (ok_memory s Hok d Hm) as (_ & d0 & Hd0 & Hle0).
    simplify_eq. by etrans. }
  assert (store_evolves s (mkStore (Some (f d)) (Some (JsonText (stored_value (f d)))))) as Hnew.
  { split.
    - intros Hok. specialize (Hf Hok). split; unfold disk_data; simpl; rewrite parse_stored by done;
        intros; simplify_eq; [done|]. split; [done | by exists (f d)].
    - intros Hok d' Hd'. exists (f d). unfold disk_data. simpl. rewrite parse_stored by auto. by auto. }
  destruct (written io); simpl; [done | | done]. split.
  - intros Hok. split; [apply Hok|]. intros d' ?. simplify_eq/=. split; [auto|].
    destruct (ok_memory s Hok d Hm) as (_ & d0 & Hd0 & _). exists d0. split; [done | by auto].
  - intros Hok d' Hd'. exists d'. done.
Qed.

Lemma hasCompleted_evolves path e io s : store_evolves s (hasCompleted path e io s).2.
Proof.
  unfold hasCompleted, cbind. pose proof (load_evolves path io s).
  by destruct (load path io s) as [[[]|] s1].
Qed.

Lemma checkpointsFor_evolves path e io s : store_evolves s (checkpointsFor path e io s).2.
Proof.
  unfold checkpointsFor, cbind. pose proof (load_evolves path io s).
  by destruct (load path io s) as [[[]|] s1].
Qed.

Lemma markCheckpoint_evolves path e k io s :
  e <> "" -> k <> "" -> store_evolves s (markCheckpoint path e k io s).2.
Proof.
  intros He Hk. unfold markCheckpoint, cbind. pose proof (load_evolves path io s) as Hl.
  destruct (load path io s) as [[[]|] s1] eqn:Hload; [|done]. case_bool_decide; [done|].
  case_bool_decide; [done|]. etrans; [exact Hl|].
  apply change_evolves; [by eapply load_ok | apply data_le_add | by intros _; apply add_checkpoint_wf].
Qed.

Lemma markCompleted_evolves path e io s : e <> "" -> store_evolves s (markCompleted path e io s).2.
Proof.
  intros He. unfold markCompleted, cbind. pose proof (load_evolves path io s) as Hl.
  destruct (load path io s) as [[[]|] s1] eqn:Hload; [|done]. case_bool_decide; [done|].
  etrans; [exact Hl|].
  apply change_evolves; [by eapply load_ok | apply data_le_complete | by intros _; apply complete_wf].
Qed.

Lemma restart_evolves s : store_evolves s (restart s).
Proof. split; [|intros _ d Hd; by exists d]. intros [Ho _]. by split. Qed.

Lemma store_step_evolves path s op : op_ids op -> store_evolves s (store_step path s op).
Proof.
  destruct op; simpl; intros.
  - apply hasCompleted_evolves.
  - apply checkpointsFor_evolves.
  - apply markCheckpoint_evolves; tauto.
  - by apply markCompleted_evolves.
  - apply restart_evolves.
Qed.

Lemma store_run_evolves path ops s : Forall op_ids ops -> store_evolves s (run (store_step path) s ops).
Proof.
  revert s. induction ops as [|op ops IH]; intros s Hops; [done|]. apply Forall_cons in Hops as [Hop Hops].
  rewrite run_cons. etrans; [by apply store_step_evolves | by apply IH].
Qed.

(** A file of the adapter: none, or one a JSON parser made an object of. *)
Definition boots (d : option FileText) : Prop := forall v, d = Some (JsonText v) -> unique_keys v.

Lemma boots_ok d : boots d -> store_ok (mkStore None d).
Proof.
  intros Hb. split; [|done]. unfold disk_data. simpl. intros x Hx. destruct d as [[v|]|]; simplify_eq.
  - eapply parse_data_wf; [by apply Hb | done].
  - apply empty_data_wf.
Qed.

(** A file that could be read is read, with all it records. *)
Lemma load_reads path io s d :
  store_ok s -> disk_data s = Some d -> readable io = true ->
  exists s', load path io s = (Ok tt, s') /\ data_le d (data s').
Proof.
  intros Hok Hd Hio. unfold load, data. destruct (memory s) as [d'|] eqn:Hm.
  { exists s. split; [done|]. destruct (ok_memory s Hok d' Hm) as (_ & d0 & Hd0 & Hle). rewrite Hm. by simplify_eq. }
  unfold disk_data in Hd. destruct (disk s) as [[v|]|]; simplify_eq; [|by eexists].
  rewrite Hio, Hd. by eexists.
Qed.

Lemma hasCompleted_reads path io s d e :
  store_ok s -> disk_data s = Some d -> readable io = true -> e ∈ completed d ->
  (hasCompleted path e io s).1 = Ok true.
Proof.
  intros Hok Hd Hio He. destruct (load_reads path io s d Hok Hd Hio) as (s' & Hl & Hle).
  unfold hasCompleted, cbind. rewrite Hl. simpl. f_equal. apply bool_decide_eq_true. by apply Hle.
Qed.

Lemma checkpoint_reads path io s d e k :
  store_ok s -> disk_data s = Some d -> readable io = true -> k ∈ checkpoints_of e d ->
  (hasCompleted path e io s).1 = Ok true \/
  exists ks, (checkpointsFor path e io s).1 = Ok ks /\ k ∈ ks.
Proof.
  intros Hok Hd Hio Hk. destruct (load_reads path io s d Hok Hd Hio) as (s' & Hl & Hle).
  unfold hasCompleted, checkpointsFor, cbind. rewrite Hl. simpl.
  destruct (proj2 Hle e k Hk) as [Hk'|He].
  - right. by eexists.
  - left. f_equal. by apply bool_decide_eq_true.
Qed.

(** A change that resolves is on disk. *)
Lemma change_done f io s s' : change f io s = (Ok tt, s') -> disk s' = Some (JsonText (stored_value (f (data s)))).
Proof. unfold change, write. destruct (written io); intros; by simplify_eq/=. Qed.

Lemma run_keeps path ops s d :
  store_ok s -> disk_data s = Some d -> Forall op_ids ops ->
  store_ok (run (store_step path) s ops) /\
  exists d', disk_data (run (store_step path) s ops) = Some d' /\ data_le d d'.
Proof. intros Hok Hd Hops. destruct (store_run_evolves path ops s Hops) as [H1 H2]. eauto. Qed.

Lemma not_completed path e io s :
  (hasCompleted path e io s).1 = Ok false ->
  exists s1, load path io s = (Ok tt, s1) /\ e ∉ completed (data s1).
Proof.
  unfold hasCompleted, cbind. destruct (load path io s) as [[[]|] s1]; simpl; [|done].
  intros ?. simplify_eq. exists s1. split; [done|]. by bools.
Qed.

Lemma load_same path io io' s s1 s2 :
  load path io s = (Ok tt, s1) -> load path io' s = (Ok tt, s2) -> s1 = s2.
Proof.
  unfold load. destruct s as [[d|] [[v|]|]]; simpl; try destruct (readable io); try destruct (readable io');
    try destruct (parse_data v); intros; by simplify_eq.
Qed.

(** Both recordings end in [change]; what it leaves on disk is there for good. *)
Lemma change_is_durable (path : string) (f : DeliveryStoreData -> DeliveryStoreData) io io1 s s1 s' later :
  store_ok s -> load path io s = (Ok tt, s1) -> change f io1 s1 = (Ok tt, s') ->
  data_le (data s1) (f (data s1)) -> (data_wf (data s1) -> data_wf (f (data s1))) -> Forall op_ids later ->
  store_ok (run (store_step path) s' later) /\
  exists d', disk_data (run (store_step path) s' later) = Some d' /\ data_le (f (data s1)) d'.
Proof.
  intros Hok Hl Hc Hle Hwf Hlater. destruct (load_ok _ _ _ _ Hl) as [d Hm].
  assert (store_ok s1) as Hok1.
  { pose proof (load_evolves path io s) as [Ho _]. rewrite Hl in Ho. by apply Ho. }
  assert (data_wf (data s1)) as Hd by (unfold data; rewrite Hm; by apply ok_memory in Hm as [? _]).
  apply run_keeps; [| unfold disk_data; rewrite (change_done _ _ _ _ Hc); by apply parse_stored, Hwf | done].
  replace s' with (change f io1 s1).2 by (by rewrite Hc). by apply change_evolves.
Qed.

(** The event is known to be completed to the process that runs. *)
Definition known_completed (e : string) (s : DeliveryStore) : Prop := exists d, memory s = Some d /\ e ∈ completed d.

Lemma known_reported path e io s : known_completed e s -> (hasCompleted path e io s).1 = Ok true.
Proof.
  intros (d & Hm & He). unfold hasCompleted, cbind, load, data. rewrite Hm. simpl. rewrite Hm. simpl. f_equal.
  by apply bool_decide_eq_true.
Qed.

Lemma known_step path e op s : op <> StoreRestart -> known_completed e s -> known_completed e (store_step path s op).
Proof.
  intros Hop Hs. pose proof Hs as (d & Hm & He).
  destruct op as [e' io|e' io|e' k io|e' io|]; try done; simpl;
    unfold hasCompleted, checkpointsFor, markCheckpoint, markCompleted, cbind, load; rewrite Hm; try done.
  - destruct (bool_decide _); [done|]. destruct (bool_decide _); [done|].
    unfold change, write, data. rewrite Hm. destruct (written io); by eexists.
  - destruct (bool_decide _); [done|]. unfold change, write, data. rewrite Hm.
    destruct (written io); eexists; (split; [done|]); simpl; apply elem_of_app; by left.
Qed.

Lemma known_run path e ops s : Forall (fun op => op <> StoreRestart) ops -> known_completed e s ->
  known_completed e (run (store_step path) s ops).
Proof. apply run_invariant_if. intros s' op. apply known_step. Qed.

Lemma completed_known path e io s s' : markCompleted path e io s = (Ok tt, s') -> known_completed e s'.
Proof.
  unfold markCompleted, cbind. destruct (load path io s) as [[[]|] s1] eqn:Hl; [|done].
  destruct (load_ok _ _ _ _ Hl) as [d Hm]. unfold data. rewrite Hm. simpl.
  destruct (bool_decide (e ∈ completed d)) eqn:He; [intros [= <-]; bools; by exists d|].
  unfold change, write, data. rewrite Hm. destruct (written io); [|done..]. intros [= <-].
  eexists. split; [done|]. simpl. apply elem_of_app. right. by apply list_elem_of_singleton.
Qed.

(** C9: Until the process stops, an event for which [markCompleted] resolved is reported completed.  When the
    call that resolved was the first to record it, that is, the event was not reported completed before (nor
    the checkpoint), the record is also on disk: it is reported by every later call that can read the file,
    whatever writes fail and whenever the process restarts in between; a checkpoint, unless its event is
    completed.  Events and keys are non-empty, as the parser requires of what it reads back; the file is
    absent at first or any text, whose objects have each key once, as a JSON parser gives them ([boots]).  A
    call that finds its record in memory after a failed write resolves without writing
    ([failed_completion_is_reported]). *)
Theorem recorded_is_durable (path : string) (file : option FileText) (ops later : list StoreOp)
    (e k : string) (io io1 io2 : Io) (s s' : DeliveryStore) :
  boots file -> Forall op_ids ops -> Forall op_ids later -> e <> "" -> k <> "" ->
  s = run (store_step path) (mkStore None file) ops ->
  readable io2 = true ->
  (markCompleted path e io1 s = (Ok tt, s') -> Forall (fun op => op <> StoreRestart) later ->
   (hasCompleted path e io2 (run (store_step path) s' later)).1 = Ok true) /\
  ((hasCompleted path e io s).1 = Ok false ->
   (markCompleted path e io1 s = (Ok tt, s') ->
    (hasCompleted path e io2 (run (store_step path) s' later)).1 = Ok true) /\
   (forall ks, (checkpointsFor path e io1 s).1 = Ok ks -> k ∉ ks ->
    markCheckpoint path e k io1 s = (Ok tt, s') ->
    (hasCompleted path e io2 (run (store_step path) s' later)).1 = Ok true \/
    exists ks', (checkpointsFor path e io2 (run (store_step path) s' later)).1 = Ok ks' /\ k ∈ ks')).
Proof.
  intros Hb Hops Hlater He Hk -> Hio.
  set (s := run (store_step path) (mkStore None file) ops) in *.
  assert (store_ok s) as Hok by (by apply store_run_evolves; [|apply boots_ok]).
  split; [|intros Hno; destruct (not_completed _ _ _ _ Hno) as (s1 & Hl & Hnew); split].
  - intros Hm Hstays. apply known_reported. apply known_run; [done|]. by eapply completed_known.
  - unfold markCompleted at 1, cbind. destruct (load path io1 s) as [[[]|] s2] eqn:Hl2; [|done].
    rewrite <- (load_same _ _ _ _ _ _ Hl Hl2), bool_decide_eq_false_2 by done. intros Hc.
    destruct (change_is_durable path (complete e) io io1 s s1 s' later) as (Hok' & d' & Hd' & Hle);
      [done .. | apply data_le_complete | by apply complete_wf | done |].
    eapply hasCompleted_reads; [done .. |]. apply Hle. simpl. apply elem_of_app. right.
    by apply list_elem_of_singleton.
  - intros ks Hks Hin. unfold checkpointsFor at 1 in Hks. unfold markCheckpoint, cbind in *.
    destruct (load path io1 s) as [[[]|] s2] eqn:Hl2; [|done].
    rewrite <- (load_same _ _ _ _ _ _ Hl Hl2) in *. simpl in Hks. simplify_eq.
    rewrite !bool_decide_eq_false_2 by done. intros Hc.
    destruct (change_is_durable path (add_checkpoint e k) io io1 s s1 s' later) as (Hok' & d' & Hd' & Hle);
      [done .. | apply data_le_add | by apply add_checkpoint_wf | done |].
    assert (k ∈ checkpoints_of e (add_checkpoint e k (data s1))) as Hin'.
    { rewrite checkpoints_of_add, decide_True by done. apply elem_of_app. right. by apply list_elem_of_singleton. }
    destruct (proj2 Hle e k Hin') as [Hk'|He'].
    + by eapply checkpoint_reads.
    + left. by eapply hasCompleted_reads.
Qed.

Definition io_ok : Io := mkIo true write_done.
Definition io_down : Io := mkIo true write_failed.

Lemma recorded_is_durable_witness :
  let s := run (store_step "f") (mkStore None None) [MarkCheckpoint "e" "text" io_down; StoreRestart] in
  let s' := (markCheckpoint "f" "e" "text" io_ok s).2 in
  (hasCompleted "f" "e" io_ok (run (store_step "f") s' [MarkCompleted "e2" io_down; StoreRestart])).1 = Ok true \/
  exists ks, (checkpointsFor "f" "e" io_ok (run (store_step "f") s' [MarkCompleted "e2" io_down; StoreRestart])).1
             = Ok ks /\ "text" ∈ ks.
Proof.
  intros s s'.
  destruct (recorded_is_durable "f" None [MarkCheckpoint "e" "text" io_down; StoreRestart]
              [MarkCompleted "e2" io_down; StoreRestart] "e" "text" io_ok io_ok io_ok s s') as [_ H];
    [done | repeat constructor; done | repeat constructor; done | done | done | done | done |].
  apply (proj2 (H eq_refl) []); [vm_compute; reflexivity | apply not_elem_of_nil | vm_compute; reflexivity].
Defined.

(** A completion whose write failed is reported until the process stops, and the write is not repeated. *)
Lemma failed_completion_is_reported path e io1 io2 s s1 :
  load path io1 s = (Ok tt, s1) -> e ∉ completed (data s1) -> written io1 = write_failed ->
  let s' := (markCompleted path e io1 s).2 in
  (hasCompleted path e io2 s').1 = Ok true /\ markCompleted path e io2 s' = (Ok tt, s') /\ disk s' = disk s.
Proof.
  intros Hl He Hio. unfold markCompleted at 1, cbind. rewrite Hl, bool_decide_eq_false_2 by done.
  unfold change, write. rewrite Hio. simpl.
  assert (e ∈ completed (data s1) ++ [e]) as Hin by (apply elem_of_app; right; by apply list_elem_of_singleton).
  unfold hasCompleted, markCompleted, cbind, load, data. simpl. rewrite !bool_decide_eq_true_2 by done.
  split_and!; [done .. |]. pose proof (load_spec path io1 s) as (Hd & _). by rewrite Hl in Hd.
Qed.
