(* ===== verification/PumbleRenderer.v ===== *)
(** * The Pumble renderer

    packages/pumble-adapter/src/pumble-renderer.ts: the outbound events of a
    turn become messages and reactions in Pumble.  A method is a program over
    its correlation's state, awaiting Pumble, the checkpoint store, the target
    resolver and the attachment sender; their answers are the environment's.
    Log lines are left out. *)

From S2P Require Import Prelude RecordUpdate JsString Numerals JsValue Contracts Effects.
From stdpp Require Import pretty.
From stdpp Require Import options.

Definition SEEN_REACTION : string := ":eyes:".
Definition THINKING_REACTION : string := ":brain:".
Definition REPLYING_REACTION : string := ":speech_balloon:".
Definition STATUS_REACTIONS : list string := [SEEN_REACTION; THINKING_REACTION; REPLYING_REACTION].

Definition TERMINAL_EVENT_TYPES : list string := ["turn.reply"; "turn.error"; "turn.cancelled"].
Definition isTerminalEvent (event : OutboundEvent) : bool := bool_decide (event_type event ∈ TERMINAL_EVENT_TYPES).

Definition INTERIM_EDIT_INTERVAL_MS : Z := 900.

Record ResolvedTarget := mkResolved {
  appKey : string;
  botToken : string;
  channelId : string;
  triggerMessageId : string;
  threadRootId : option string;
  direct : bool;                (** [direct === true] *)
}.

Record Settings := mkSettings { streamInDirectMessages : bool; streamInChannels : bool }.

(** Which optional dependencies the renderer was built with. *)
Record PumbleRendererOptions := mkRendererOptions {
  has_attachmentSender : bool;
  has_checkpointStore : bool;
  has_settings : bool;
}.

(** ** Calls *)

(** The statement a message is sent or edited for; no part of the call. *)
Inductive Purpose : Type := interim | final_text | notice (checkpoint : string).

Inductive RenderCall : Type :=
| get_checkpoints (eventId : string)
| put_checkpoint (eventId checkpoint : string)
| resolver (conversationKey correlationId : string)
| sendMessage (target : ResolvedTarget) (text : string) (why : Purpose)
| editMessage (target : ResolvedTarget) (messageId text : string) (why : Purpose)
| deleteMessage (target : ResolvedTarget) (messageId : string)
| addReaction (target : ResolvedTarget) (emoji : string)
| removeReaction (target : ResolvedTarget) (emoji : string)
| sendAttachment (target : ResolvedTarget) (index : nat) (attachment : WorkspaceAttachment)
| settings_get
| date_now.

(** A call resolves with a value or rejects with a message. *)
Definition RenderReply (c : RenderCall) : Type :=
  match c with
  | get_checkpoints _ => result string (list string)
  | resolver _ _ => result string (option ResolvedTarget)
  | sendMessage _ _ _ => result string (list (string * value))
  | settings_get => Settings
  | date_now => Z
  | _ => result string unit
  end.

(** ** State *)

Record CorrelationState := mkCorrelation {
  seen : list string;
  startedReaction : bool;
  activeReactions : list string;
  attemptedReactions : list string;
  interimMessageId : option string;
  interimText : string;
  lastInterimEditAt : Z;
  finalTextPosted : bool;
  sentAttachmentIndexes : list nat;
  terminal : bool;
}.

(** The state of the correlation and the checkpoints of the event. *)
Record Rendering := mkRendering { rd_state : CorrelationState; rd_checkpoints : list string }.

#[export] Instance CorrelationState_fields : Fields CorrelationState := fun r =>
  mkCorrelation (seen r) (startedReaction r) (activeReactions r) (attemptedReactions r) (interimMessageId r)
    (interimText r) (lastInterimEditAt r) (finalTextPosted r) (sentAttachmentIndexes r) (terminal r).
#[export] Instance Rendering_fields : Fields Rendering := fun r => mkRendering (rd_state r) (rd_checkpoints r).

(** [stateFor] of a correlation not seen before. *)
Definition fresh_state : CorrelationState := mkCorrelation [] false [] [] None "" 0 false [] false.

#[local] Abbreviation M := (async RenderReply Rendering string).

(** [Set.add] and [Set.delete] *)
Definition set_add {A} `{EqDecision A} (x : A) (l : list A) : list A :=
  if bool_decide (x ∈ l) then l else l ++ [x].
Definition set_delete (x : string) (l : list string) : list string :=
  List.filter (fun y => negb (bool_decide (y = x))) l.

Definition mutate (f : CorrelationState -> CorrelationState) : M unit := amodify (fun r => r <| rd_state ::= f |>).

(** [await] of a call that may reject *)
Definition call {A} (c : RenderCall) (to : RenderReply c -> result string A) : M A :=
  r <-@ await c; lift (to r).

(** The id Pumble gave a sent message, at the top level or under [message]. *)
Definition first_id (obj : list (string * value)) : option string :=
  match nonempty_string (prop "id" obj) with
  | Some id => Some id
  | None => nonempty_string (prop "messageId" obj)
  end.

Definition messageIdOf (response : list (string * value)) : option string :=
  match first_id response with
  | Some id => Some id
  | None => match as_record (prop "message" response) with Some nested => first_id nested | None => None end
  end.

Definition describeCorrelation (e : OutboundEvent) : string :=
  ("conversationKey=" +:+ ev_conversationKey e +:+ " correlationId=" +:+ ev_correlationId e +:+
   " sequence=" +:+ pretty (ev_sequence e))%stdpp.

Section renderer.
Variable options : PumbleRendererOptions.

(** ** Targets *)

Definition resolve (e : OutboundEvent) : M (option ResolvedTarget) :=
  r <-@ await (resolver (ev_conversationKey e) (ev_correlationId e));
  aret (match r with Ok target => target | Throw _ => None end).

Definition resolveRequired (e : OutboundEvent) : M ResolvedTarget :=
  target <-@ call (resolver (ev_conversationKey e) (ev_correlationId e)) id;
  match target with
  | Some target => aret target
  | None => athrow ("no target resolved for terminal event (" +:+ describeCorrelation e +:+ ")")%stdpp
  end.

(** ** Effects *)

Definition markCheckpoint (eventId checkpoint : string) : M unit :=
  s <-@ asget;
  if bool_decide (checkpoint ∈ rd_checkpoints s) then aret tt
  else
    (if has_checkpointStore options then call (put_checkpoint eventId checkpoint) id else aret tt);@
    amodify (fun r => r <| rd_checkpoints ::= set_add checkpoint |>).

(** A call whose rejection is logged: whether it resolved. *)
Definition safe {A} (c : RenderCall) (to : RenderReply c -> result string A) : M bool :=
  r <-@ await c; aret (is_ok (to r)).

Definition safeAddReaction (target : ResolvedTarget) (emoji : string) : M bool := safe (addReaction target emoji) id.
Definition safeRemoveReaction (target : ResolvedTarget) (emoji : string) : M bool :=
  safe (removeReaction target emoji) id.
Definition safeSendNotice (target : ResolvedTarget) (text checkpoint : string) : M bool :=
  safe (sendMessage target text (notice checkpoint)) id.

Definition add_key (emoji : string) : string := ("reaction:add:" +:+ emoji)%stdpp.
Definition remove_key (emoji : string) : string := ("reaction:remove:" +:+ emoji)%stdpp.

Definition addStatusReaction (target : ResolvedTarget) (eventId emoji : string) : M unit :=
  s <-@ asget;
  if bool_decide (emoji ∈ attemptedReactions (rd_state s)) then aret tt
  else
    mutate (fun st => st <| attemptedReactions ::= set_add emoji |>);@
    if bool_decide (add_key emoji ∈ rd_checkpoints s) then mutate (fun st => st <| activeReactions ::= set_add emoji |>)
    else
      added <-@ safeAddReaction target emoji;
      if (added : bool) then
        mutate (fun st => st <| activeReactions ::= set_add emoji |>);@
        markCheckpoint eventId (add_key emoji)
      else aret tt.

Definition removeStatusReaction (target : ResolvedTarget) (eventId emoji : string) : M unit :=
  s <-@ asget;
  (if bool_decide (remove_key emoji ∈ rd_checkpoints s) then aret tt
   else
     removed <-@ safeRemoveReaction target emoji;
     if (removed : bool) then markCheckpoint eventId (remove_key emoji) else aret tt);@
  mutate (fun st => st <| activeReactions ::= set_delete emoji |>).

Definition clearStatusReactions (target : ResolvedTarget) (eventId : string) : M unit :=
  aeach (removeStatusReaction target eventId) STATUS_REACTIONS.

Definition clearTerminalStatus (e : OutboundEvent) : M unit :=
  acatch (target <-@ resolveRequired e; clearStatusReactions target (ev_eventId e)) (fun _ => aret tt).

Definition streamingEnabled (target : ResolvedTarget) : M bool :=
  if has_settings options then
    settings <-@ await settings_get;
    aret (if direct target then streamInDirectMessages settings else streamInChannels settings)
  else aret false.

(** ** Handlers *)

Definition onStarted (e : OutboundEvent) : M unit :=
  target <-@ resolve e;
  match target with
  | None => aret tt
  | Some target =>
      mutate (fun st => st <| startedReaction := true |>);@
      aeach (addStatusReaction target (ev_eventId e)) [SEEN_REACTION; THINKING_REACTION]
  end.

(** The first delta: the model writes. *)
Definition mark_replying (e : OutboundEvent) : M unit :=
  s <-@ asget;
  if bool_decide (REPLYING_REACTION ∈ attemptedReactions (rd_state s)) then aret tt
  else
    target <-@ resolve e;
    match target with
    | None => aret tt
    | Some target =>
        removeStatusReaction target (ev_eventId e) THINKING_REACTION;@
        addStatusReaction target (ev_eventId e) REPLYING_REACTION
    end.

Definition post_interim (target : ResolvedTarget) (now : Z) : M unit :=
  s <-@ asget;
  let body := interimText (rd_state s) in
  match interimMessageId (rd_state s) with
  | None =>
      r <-@ await (sendMessage target body interim);
      match r : result string (list (string * value)) with
      | Ok response =>
          match messageIdOf response with
          | Some id => mutate (fun st => st <| interimMessageId := Some id |>)
          | None => aret tt
          end;@
          mutate (fun st => st <| lastInterimEditAt := now |>)
      | Throw _ => aret tt
      end
  | Some id =>
      edited <-@ safe (editMessage target id body interim) Datatypes.id;
      if (edited : bool) then mutate (fun st => st <| lastInterimEditAt := now |>) else aret tt
  end.

Definition onDelta (e : OutboundEvent) (text : string) : M unit :=
  mutate (fun st => st <| interimText ::= fun t => (t +:+ text)%stdpp |>);@
  mark_replying e;@
  now <-@ await date_now;
  s <-@ asget;
  if (match interimMessageId (rd_state s) with Some _ => true | None => false end) &&
     (now - lastInterimEditAt (rd_state s) <? INTERIM_EDIT_INTERVAL_MS)%Z then aret tt
  else
    target <-@ resolve e;
    match target with
    | None => aret tt
    | Some target =>
        enabled <-@ streamingEnabled target;
        if (enabled : bool) then post_interim target now else aret tt
    end.

Definition onProgress : M unit := aret tt.

(** The final text takes the interim message's place, or is a new message. *)
Definition deliverFinalText (target : ResolvedTarget) (text : string) : M unit :=
  s <-@ asget;
  edited <-@ match interimMessageId (rd_state s) with
             | Some id => safe (editMessage target id text final_text) Datatypes.id
             | None => aret false
             end;
  if (edited : bool) then aret tt
  else call (sendMessage target text final_text) (fun r => _ <-! r; Ok tt).

(** The interim message is removed, whether Pumble answers or not. *)
Definition drop_interim (target : ResolvedTarget) : M unit :=
  s <-@ asget;
  match interimMessageId (rd_state s) with
  | Some id =>
      safe (deleteMessage target id) Datatypes.id;@
      mutate (fun st => st <| interimMessageId := None |>)
  | None => aret tt
  end.

Definition attachment_key (index : nat) : string := ("attachment:" +:+ pretty index)%stdpp.
Definition failed_key (index : nat) : string := ("notice:attachment:" +:+ pretty index +:+ ":failed")%stdpp.
Definition unconfigured_key : string := "notice:attachments-unconfigured".

(** A visible notice, at most once. *)
Definition notify (target : ResolvedTarget) (eventId checkpoint text : string) : M unit :=
  s <-@ asget;
  if bool_decide (checkpoint ∈ rd_checkpoints s) then aret tt
  else
    sent <-@ safeSendNotice target text checkpoint;
    if (sent : bool) then markCheckpoint eventId checkpoint else aret tt.

Definition attachment_label (a : WorkspaceAttachment) : string :=
  match att_name a with Some n => if is_empty n then att_path a else n | None => att_path a end.

Definition quote : string := String (Ascii.ascii_of_nat 34) "".

Definition failure_text (a : WorkspaceAttachment) : string :=
  ("Failed to deliver attachment " +:+ quote +:+ attachment_label a +:+ quote +:+ ".")%stdpp.

Definition deliver_attachment (target : ResolvedTarget) (eventId : string) (ia : nat * WorkspaceAttachment) : M unit :=
  let '(index, attachment) := ia in
  s <-@ asget;
  if bool_decide (attachment_key index ∈ rd_checkpoints s) then
    mutate (fun st => st <| sentAttachmentIndexes ::= set_add index |>)
  else if bool_decide (index ∈ sentAttachmentIndexes (rd_state s)) then
    markCheckpoint eventId (attachment_key index)
  else
    acatch (call (sendAttachment target index attachment) id) (fun error =>
      notify target eventId (failed_key index) (failure_text attachment);@
      athrow error);@
    mutate (fun st => st <| sentAttachmentIndexes ::= set_add index |>);@
    markCheckpoint eventId (attachment_key index).

Definition deliverAttachments (target : ResolvedTarget) (eventId : string) (attachments : list WorkspaceAttachment) :
    M unit :=
  match attachments with
  | [] => aret tt
  | _ =>
      if has_attachmentSender options then
        aeach (deliver_attachment target eventId) (zip (seq 0 (length attachments)) attachments)
      else
        notify target eventId unconfigured_key
          ("This reply included " +:+ pretty (length attachments) +:+
           " attachment(s) but attachment delivery is not configured for this adapter.")%stdpp;@
        athrow ("attachments present but no AttachmentSender is configured (" +:+
                pretty (length attachments) +:+ " undelivered)")%stdpp
  end.

Definition deliver_reply_text (target : ResolvedTarget) (e : OutboundEvent) (text : string) : M unit :=
  s <-@ asget;
  if bool_decide ("text" ∈ rd_checkpoints s) then mutate (fun st => st <| finalTextPosted := true |>)
  else if finalTextPosted (rd_state s) then markCheckpoint (ev_eventId e) "text"
  else
    deliverFinalText target text;@
    mutate (fun st => st <| finalTextPosted := true |>);@
    markCheckpoint (ev_eventId e) "text".

Definition onReply (e : OutboundEvent) (text : string) (attachments : list WorkspaceAttachment) : M unit :=
  target <-@ resolveRequired e;
  (if is_empty text then drop_interim target else deliver_reply_text target e text);@
  deliverAttachments target (ev_eventId e) attachments.

Definition onError (e : OutboundEvent) (message : string) : M unit :=
  target <-@ resolveRequired e;
  s <-@ asget;
  if bool_decide ("text" ∈ rd_checkpoints s) then aret tt
  else deliverFinalText target message;@ markCheckpoint (ev_eventId e) "text".

Definition onCancelled (e : OutboundEvent) : M unit :=
  target <-@ resolve e;
  match target with
  | None => aret tt
  | Some target => drop_interim target
  end.

Definition onPresence (e : OutboundEvent) (presence : Presence) : M unit :=
  match presence with
  | offline =>
      target <-@ resolve e;
      match target with
      | None => aret tt
      | Some target => clearStatusReactions target (ev_eventId e)
      end
  | _ => aret tt
  end.

Definition dispatch (e : OutboundEvent) : M unit :=
  match ev_body e with
  | turn_started => onStarted e
  | turn_progress _ => onProgress
  | turn_delta text => onDelta e text
  | turn_reply text attachments _ => onReply e text attachments
  | turn_error _ message _ => onError e message
  | turn_cancelled => onCancelled e
  | presence_changed presence => onPresence e presence
  end.

Definition apply_event (e : OutboundEvent) : M unit :=
  s <-@ asget;
  if bool_decide (ev_eventId e ∈ seen (rd_state s)) then aret tt
  else if terminal (rd_state s) then aret tt
  else
    afinally (dispatch e)
      (if isTerminalEvent e then
         clearTerminalStatus e;@ mutate (fun st => st <| terminal := true |>)
       else aret tt);@
    mutate (fun st => st <| seen ::= set_add (ev_eventId e) |>).

(** One turn of the correlation's chain: the outcome, and the state it leaves. *)
Definition render (e : OutboundEvent) (st : CorrelationState) : prog RenderReply (result string unit * CorrelationState) :=
  pbind
    ((if has_checkpointStore options then call (get_checkpoints (ev_eventId e)) id else aret []) (mkRendering st []))
    (fun '(r, s) =>
       match r with
       | Throw error => Done (Throw error, st)
       | Ok known =>
           pbind (apply_event e (mkRendering st known)) (fun '(r, s) => Done (r, rd_state s))
       end).
End renderer.
