(* ===== verification/PumbleEffects.v ===== *)
(** * Which effects a rendering performs

    The effects of an event are named by their checkpoints.  [once] is the
    protocol a rendering follows: no effect whose key is [closed], and a
    confirmed effect is followed at once by the write of its checkpoint.
    [apply_spec]: rendering an event follows it, starting from the checkpoints
    that were loaded. *)

From S2P Require Import Prelude RecordUpdate JsValue Contracts Effects PumbleRenderer.
From stdpp Require Import pretty.
From stdpp Require Import options.

(** The checkpoint that guards a call. *)
Definition effect_key (c : RenderCall) : option string :=
  match c with
  | sendMessage _ _ final_text | editMessage _ _ _ final_text => Some "text"
  | sendMessage _ _ (notice k) | editMessage _ _ _ (notice k) => Some k
  | addReaction _ emoji => Some (add_key emoji)
  | removeReaction _ emoji => Some (remove_key emoji)
  | sendAttachment _ index _ => Some (attachment_key index)
  | _ => None
  end.

(** Whether a call resolved. *)
Definition confirmed (c : RenderCall) : RenderReply c -> bool :=
  match c return RenderReply c -> bool with
  | get_checkpoints _ | put_checkpoint _ _ | resolver _ _ | sendMessage _ _ _ | editMessage _ _ _ _
  | deleteMessage _ _ | addReaction _ _ | removeReaction _ _ | sendAttachment _ _ _ => fun r => is_ok r
  | settings_get | date_now => fun _ => true
  end.

(** The server passes the renderer all its dependencies. *)
Definition server_options : PumbleRendererOptions := mkRendererOptions true true true.

Record Ghost := mkGhost { closed : string -> Prop; pending : option string }.

Definition close_key (k : string) (p : option string) (g : Ghost) : Ghost :=
  mkGhost (fun k' => closed g k' \/ k' = k) p.

Section once.
Variable eventId : string.

Definition once_allowed (g : Ghost) (c : RenderCall) : Prop :=
  match c with
  | get_checkpoints _ => False
  | put_checkpoint e k =>
      e = eventId /\ k <> "" /\ (pending g = None /\ ~ closed g k \/ pending g = Some k)
  | _ => pending g = None /\ forall k, effect_key c = Some k -> ~ closed g k
  end.

Definition once_answered (g : Ghost) (c : RenderCall) (r : RenderReply c) (g' : Ghost) : Prop :=
  match c with
  | put_checkpoint _ k => g' = close_key k None g
  | _ =>
      match effect_key c with
      | Some k => g' = if confirmed c r then close_key k (Some k) g else g
      | None => g' = g
      end
  end.

Lemma once_effect g c r k g' :
  effect_key c = Some k -> once_answered g c r g' -> g' = if confirmed c r then close_key k (Some k) g else g.
Proof. destruct c as [| | | ? ? []| ? ? ? []| | | | | |]; intros Hk; by simplify_eq/=. Qed.

#[local] Instance once : Protocol RenderReply Ghost := { allowed := once_allowed; answered := once_answered }.

(** ** Specifications

    [agree A]: no checkpoint is due, and the closed keys in [A] are among the
    event's checkpoints; [seen] and [terminal] are those of [st0]. *)
Variable st0 : CorrelationState.

Definition frame (s : Rendering) : Prop :=
  seen (rd_state s) = seen st0 /\ terminal (rd_state s) = terminal st0.

Definition agree (A : string -> Prop) (g : Ghost) (s : Rendering) : Prop :=
  pending g = None /\ (forall k, A k -> closed g k -> k ∈ rd_checkpoints s) /\ frame s.

(** A method keeps [A] in agreement, and [B] when it throws. *)
Definition keeps_agree (A B : string -> Prop) {X} (m : async RenderReply Rendering string X) : Prop :=
  forall g s, agree A g s ->
    awp g m s (fun g r s => match r with Ok _ => agree A g s | Throw _ => agree B g s end).

Lemma agree_weaken (A B : string -> Prop) g s : (forall k, B k -> A k) -> agree A g s -> agree B g s.
Proof. intros HBA (Hp & Hc & Hf). split_and!; auto. Qed.

Section agreement.
Variables A B : string -> Prop.
Hypothesis sub : forall k, B k -> A k.
Set Default Proof Using "Type*".

Lemma keeps_aret {X} (x : X) : keeps_agree A B (aret x).
Proof. by intros g s Hs. Qed.

Lemma keeps_athrow {X} (e : string) : keeps_agree A B (athrow e : async RenderReply Rendering string X).
Proof. intros g s Hs. by apply (agree_weaken A). Qed.

Lemma keeps_abind {X Y} (m : async RenderReply Rendering string X) (f : X -> async RenderReply Rendering string Y) :
  keeps_agree A B m -> (forall x, keeps_agree A B (f x)) -> keeps_agree A B (abind m f).
Proof.
  intros Hm Hf g s Hs. apply awp_bind. eapply awp_mono; [by apply Hm|].
  intros g' [x|e] s' Hs'; [by apply Hf | done].
Qed.

Lemma keeps_asget {Y} (f : Rendering -> async RenderReply Rendering string Y) :
  (forall g s, agree A g s ->
     awp g (f s) s (fun g r s => match r with Ok _ => agree A g s | Throw _ => agree B g s end)) ->
  keeps_agree A B (abind asget f).
Proof. intros Hf g s Hs. apply awp_bind. by apply Hf. Qed.

Lemma keeps_reading {Y} (f : Rendering -> async RenderReply Rendering string Y) :
  (forall s, keeps_agree A B (f s)) -> keeps_agree A B (abind asget f).
Proof. intros Hf. apply keeps_asget. intros g s Hs. by apply Hf. Qed.

Lemma keeps_each {X} (f : X -> async RenderReply Rendering string unit) (l : list X) :
  (forall x, x ∈ l -> keeps_agree A B (f x)) -> keeps_agree A B (aeach f l).
Proof.
  intros Hf g s Hs. apply (awp_each f (agree A) (fun g _ s => agree B g s)); [|done].
  intros x g' s' Hx Hs'. by apply Hf.
Qed.

(** An update of the other fields of the correlation. *)
Definition frames (f : CorrelationState -> CorrelationState) : Prop :=
  forall st, seen (f st) = seen st /\ terminal (f st) = terminal st.

Lemma frame_mutate (f : CorrelationState -> CorrelationState) s :
  frames f -> frame s -> frame (s <| rd_state ::= f |>).
Proof. intros Hf [H1 H2]. destruct (Hf (rd_state s)) as [E1 E2]. split; simpl; congruence. Qed.

Lemma keeps_mutate (f : CorrelationState -> CorrelationState) : frames f -> keeps_agree A B (mutate f).
Proof. intros Hf g s (Hp & Hc & Hs). split_and!; [done | done | by apply frame_mutate ..]. Qed.

Lemma keeps_mutating (f : CorrelationState -> CorrelationState) (s : Rendering) g
    (m : async RenderReply Rendering string unit) :
  awp g m (s <| rd_state ::= f |>) (fun g r s => match r with Ok _ => agree A g s | Throw _ => agree B g s end) ->
  awp g (mutate f;@ m) s (fun g r s => match r with Ok _ => agree A g s | Throw _ => agree B g s end).
Proof. done. Qed.

(** A call that no checkpoint guards. *)
Definition quiet (c : RenderCall) : Prop :=
  match c with get_checkpoints _ | put_checkpoint _ _ => False | _ => effect_key c = None end.

Lemma keeps_awaited (c : RenderCall) : quiet c -> keeps_agree A B (await c).
Proof.
  intros Hc g s Hs. assert (pending g = None) as Hp by apply Hs. apply awp_await.
  - destruct c; simpl in *; try done; (split; [done|]); intros k Hk; by rewrite Hc in Hk || done.
  - intros r g' Hr. simpl in Hr. unfold once_answered in Hr. destruct c; simpl in *; try done; try (by subst);
      rewrite Hc in Hr; by subst.
Qed.

Lemma keeps_call {X} (c : RenderCall) (to : RenderReply c -> result string X) :
  quiet c -> keeps_agree A B (call c to).
Proof.
  intros Hc. apply keeps_abind; [by apply keeps_awaited|]. intros r g s Hs. unfold lift, awp. simpl.
  destruct (to r); [done | by apply (agree_weaken A)].
Qed.

Lemma keeps_safe {X} (c : RenderCall) (to : RenderReply c -> result string X) :
  quiet c -> keeps_agree A B (safe c to).
Proof. intros Hc. apply keeps_abind; [by apply keeps_awaited|]. intros r. apply keeps_aret. Qed.

(** The checkpoint [k] may be written: it is the only closed key of [A] that
    has none, or it is not closed. *)
Definition due (k : string) (g : Ghost) (s : Rendering) : Prop :=
  (pending g = None /\ ~ closed g k \/ pending g = Some k) /\
  (forall k', A k' -> closed g k' -> k' ∈ rd_checkpoints s \/ k' = k) /\ frame s.

Lemma agree_due k g s : A k -> k ∉ rd_checkpoints s -> agree A g s -> due k g s.
Proof. intros HA Hk (Hp & Hc & Hf). split_and!; [left; split; [done|]; intros Hcl; by apply Hk, Hc | auto | apply Hf ..]. Qed.

Lemma mark_spec k g s :
  k <> "" -> ~ B k -> due k g s -> k ∉ rd_checkpoints s ->
  awp g (markCheckpoint server_options eventId k) s
    (fun g r s => match r with Ok _ => agree A g s | Throw _ => agree B g s end).
Proof.
  intros Hne HB (Hp & Hc & Hf) Hk. unfold markCheckpoint. apply awp_bind. cbn [asget awp wp].
  unfold awp, asget. simpl. rewrite bool_decide_eq_false_2 by done. simpl. split; [done|].
  intros [[]|e] g' ->; simpl.
  - split_and!; [done | | apply Hf]. intros k' HA [Hk'| ->]; simpl; unfold set_add;
      rewrite bool_decide_eq_false_2 by done; apply elem_of_app; [|right; by apply list_elem_of_singleton].
    destruct (Hc k' HA Hk') as [?| ->]; [by left | right; by apply list_elem_of_singleton].
  - split_and!; [done | | apply Hf]. intros k' HB' [Hk'| ->]; [|done].
    destruct (Hc k' (sub _ HB') Hk') as [?| ->]; done.
Qed.

(** The outcome a method of [keeps_agree] has. *)
Definition outcome {X} (g : Ghost) (r : result string X) (s : Rendering) : Prop :=
  match r with Ok _ => agree A g s | Throw _ => agree B g s end.

(** A guarded call of [k], whose checkpoint is not there yet. *)
Lemma effect_await (c : RenderCall) (k : string) g s (Q : Ghost -> result string (RenderReply c) -> Rendering -> Prop) :
  A k -> effect_key c = Some k -> agree A g s -> k ∉ rd_checkpoints s ->
  (forall r g', confirmed c r = true -> due k g' s -> Q g' (Ok r) s) ->
  (forall r g', confirmed c r = false -> agree A g' s -> Q g' (Ok r) s) ->
  awp g (await c) s Q.
Proof.
  intros HA Hk Hs Hin Hyes Hno. destruct Hs as (Hp & Hc & Hf).
  assert (~ closed g k) as Hnk by (intros Hcl; by apply Hin, Hc). apply awp_await.
  - destruct c; simpl in *; try done; (split; [done|]); intros k' Hk'; by simplify_eq.
  - intros r g' Hr. assert (g' = if confirmed c r then close_key k (Some k) g else g) as ->.
    { by apply (once_effect _ c). }
    destruct (confirmed c r) eqn:E; [|by apply Hno].
    apply Hyes; [done|]. split_and!; [by right | | by destruct Hf ..].
    intros k' HA' [Hk'| ->]; [left; by apply Hc | by right].
Qed.

(** ** The operations *)

(** A guarded call whose rejection is logged, and what follows a confirmation. *)
Lemma guarded_spec {X} (c : RenderCall) (to : RenderReply c -> result string X) (k : string)
    (m : async RenderReply Rendering string unit) g s :
  A k -> effect_key c = Some k -> (forall r, is_ok (to r) = confirmed c r) ->
  agree A g s -> k ∉ rd_checkpoints s ->
  (forall g', due k g' s -> awp g' m s (fun g r s => match r with Ok _ => agree A g s | Throw _ => agree B g s end)) ->
  awp g (done <-@ safe c to; if (done : bool) then m else aret tt) s
    (fun g r s => match r with Ok _ => agree A g s | Throw _ => agree B g s end).
Proof.
  intros HA Hk Hto Hs Hin Hm. apply awp_bind, awp_bind. apply (effect_await _ k); [done .. | |].
  - intros r g' Hr Hd. unfold awp at 1. simpl. rewrite Hto, Hr. by apply Hm.
  - intros r g' Hr Hd. unfold awp at 1. simpl. by rewrite Hto, Hr.
Qed.

Lemma due_mutate k (f : CorrelationState -> CorrelationState) g s :
  frames f -> due k g s -> due k g (s <| rd_state ::= f |>).
Proof. intros Hf (Hp & Hc & Hs). split_and!; [done | done | by apply frame_mutate ..]. Qed.

Lemma agree_mutate (f : CorrelationState -> CorrelationState) g s :
  frames f -> agree A g s -> agree A g (s <| rd_state ::= f |>).
Proof. intros Hf (Hp & Hc & Hs). split_and!; [done | done | by apply frame_mutate ..]. Qed.

Lemma addStatusReaction_keeps target emoji :
  A (add_key emoji) -> ~ B (add_key emoji) ->
  keeps_agree A B (addStatusReaction server_options target eventId emoji).
Proof.
  intros HA HB. apply keeps_asget. intros g s Hs. case_bool_decide; [by apply keeps_aret|].
  apply (keeps_mutating (fun st => st <| attemptedReactions ::= set_add emoji |>) s g
    (if bool_decide (add_key emoji ∈ rd_checkpoints s) then _ else _)).
  apply (agree_mutate (fun st => st <| attemptedReactions ::= set_add emoji |>)) in Hs; [|done].
  case_bool_decide; [by apply keeps_mutate|].
  apply (guarded_spec _ _ (add_key emoji)); [done .. |]. intros g' Hd.
  apply (keeps_mutating (fun st => st <| activeReactions ::= set_add emoji |>)).
  apply mark_spec; [done | done | by apply due_mutate | done].
Qed.

Lemma removeStatusReaction_keeps target emoji :
  A (remove_key emoji) -> ~ B (remove_key emoji) ->
  keeps_agree A B (removeStatusReaction server_options target eventId emoji).
Proof.
  intros HA HB. apply keeps_asget. intros g s Hs. apply awp_bind.
  eapply awp_mono with (Q := fun g r s => match r with Ok _ => agree A g s | Throw _ => agree B g s end).
  - case_bool_decide; [by apply keeps_aret|].
    apply (guarded_spec _ _ (remove_key emoji)); [done .. |]. intros g' Hd. by apply mark_spec.
  - intros g' [[]|e] s' Hs'; [|done]. by apply keeps_mutate.
Qed.

Lemma notify_keeps target k text :
  k <> "" -> A k -> ~ B k -> keeps_agree A B (notify server_options target eventId k text).
Proof.
  intros Hne HA HB. apply keeps_asget. intros g s Hs. case_bool_decide; [by apply keeps_aret|].
  apply (guarded_spec _ _ k); [done .. |]. intros g' Hd. by apply mark_spec.
Qed.

Lemma resolve_keeps e : keeps_agree A B (resolve e).
Proof. apply keeps_abind; [by apply keeps_awaited | intros r; apply keeps_aret]. Qed.

Lemma resolveRequired_keeps e : keeps_agree A B (resolveRequired e).
Proof.
  apply keeps_abind; [by apply keeps_call|]. intros [target|]; [apply keeps_aret | apply keeps_athrow].
Qed.

Lemma clearStatusReactions_keeps target :
  (forall emoji, A (remove_key emoji) /\ ~ B (remove_key emoji)) ->
  keeps_agree A B (clearStatusReactions server_options target eventId).
Proof.
  intros HAB. apply keeps_each. intros emoji _. destruct (HAB emoji). by apply removeStatusReaction_keeps.
Qed.

Lemma onStarted_keeps e :
  ev_eventId e = eventId -> (forall emoji, A (add_key emoji) /\ ~ B (add_key emoji)) ->
  keeps_agree A B (onStarted server_options e).
Proof.
  intros He HAB. apply keeps_abind; [apply resolve_keeps|]. intros [target|]; [|apply keeps_aret].
  apply keeps_abind; [by apply keeps_mutate|]. intros _. apply keeps_each. intros emoji _.
  rewrite He. by apply addStatusReaction_keeps; apply HAB.
Qed.

Lemma streamingEnabled_keeps target : keeps_agree A B (streamingEnabled server_options target).
Proof. apply keeps_abind; [by apply keeps_awaited | intros r; apply keeps_aret]. Qed.

Lemma post_interim_keeps target now : keeps_agree A B (post_interim target now).
Proof.
  apply keeps_reading. intros s. destruct (interimMessageId (rd_state s)) as [id|].
  - apply keeps_abind; [by apply keeps_safe|]. intros []; [by apply keeps_mutate | apply keeps_aret].
  - apply keeps_abind; [by apply keeps_awaited|]. intros [response|]; [|apply keeps_aret].
    apply keeps_abind; [|by intros _; apply keeps_mutate].
    destruct (messageIdOf response); [by apply keeps_mutate | apply keeps_aret].
Qed.

Lemma mark_replying_keeps e :
  ev_eventId e = eventId -> (forall k, A k /\ ~ B k) -> keeps_agree A B (mark_replying server_options e).
Proof.
  intros He HAB. apply keeps_reading. intros s. case_bool_decide; [apply keeps_aret|].
  apply keeps_abind; [apply resolve_keeps|]. intros [target|]; [|apply keeps_aret]. rewrite He.
  apply keeps_abind; [|intros _]; [apply removeStatusReaction_keeps | apply addStatusReaction_keeps]; apply HAB.
Qed.

Lemma onDelta_keeps e text :
  ev_eventId e = eventId -> (forall k, A k /\ ~ B k) -> keeps_agree A B (onDelta server_options e text).
Proof.
  intros He HAB. apply keeps_abind; [by apply keeps_mutate|]. intros _.
  apply keeps_abind; [by apply mark_replying_keeps|]. intros _.
  apply keeps_abind; [by apply keeps_awaited|]. intros now. apply keeps_reading. intros s.
  destruct (_ && _); [apply keeps_aret|].
  apply keeps_abind; [apply resolve_keeps|]. intros [target|]; [|apply keeps_aret].
  apply keeps_abind; [apply streamingEnabled_keeps|]. intros []; [apply post_interim_keeps | apply keeps_aret].
Qed.

Lemma drop_interim_keeps target : keeps_agree A B (drop_interim target).
Proof.
  apply keeps_reading. intros s. destruct (interimMessageId _); [|apply keeps_aret].
  apply keeps_abind; [by apply keeps_safe | by intros _; apply keeps_mutate].
Qed.

(** The final text and what follows once it is posted. *)
Lemma final_text_spec target text (m : async RenderReply Rendering string unit) g s :
  A "text" -> agree A g s -> "text" ∉ rd_checkpoints s ->
  (forall g, due "text" g s ->
     awp g m s (fun g r s => match r with Ok _ => agree A g s | Throw _ => agree B g s end)) ->
  awp g (deliverFinalText target text;@ m) s
    (fun g r s => match r with Ok _ => agree A g s | Throw _ => agree B g s end).
Proof.
  intros HA Hs Hin Hm.
  assert (forall g, agree A g s ->
    awp g (call (sendMessage target text final_text) (fun r => _ <-! r; Ok tt)) s
      (fun g r s' => match r with
         | Ok _ => awp g m s' (fun g r s => match r with Ok _ => agree A g s | Throw _ => agree B g s end)
         | Throw _ => agree B g s' end)) as Hsend.
  { intros g' Hs'. apply awp_bind, (effect_await _ "text"); [done .. | |]; intros r g2 Hr Hd;
      destruct r; simplify_eq/=; [by apply Hm | by apply (agree_weaken A)]. }
  apply awp_bind, awp_asget, awp_bind. destruct (interimMessageId _) as [id|].
  - apply awp_bind, (effect_await _ "text"); [done .. | |]; intros r g' Hr Hd; simpl in Hr; unfold awp at 1; simpl;
      rewrite Hr; [by apply Hm | by apply Hsend].
  - by apply Hsend.
Qed.

Lemma deliver_reply_text_keeps target e text :
  ev_eventId e = eventId -> A "text" -> ~ B "text" -> keeps_agree A B (deliver_reply_text server_options target e text).
Proof.
  intros He HA HB. apply keeps_asget. intros g s Hs. rewrite He.
  case_bool_decide; [by apply keeps_mutate|]. destruct (finalTextPosted _).
  - by apply mark_spec; [| |apply agree_due|].
  - apply final_text_spec; [done .. |]. intros g' Hd. apply keeps_mutating.
    by apply mark_spec; [| |apply due_mutate|].
Qed.

Lemma onError_keeps e message :
  ev_eventId e = eventId -> A "text" -> ~ B "text" -> keeps_agree A B (onError server_options e message).
Proof.
  intros He HA HB. apply keeps_abind; [apply resolveRequired_keeps|]. intros target.
  apply keeps_asget. intros g s Hs. rewrite He. case_bool_decide; [by apply keeps_aret|].
  apply final_text_spec; [done .. |]. intros g' Hd. by apply mark_spec.
Qed.

Lemma deliver_attachment_keeps target i attachment :
  A (attachment_key i) -> ~ B (attachment_key i) -> A (failed_key i) -> ~ B (failed_key i) ->
  keeps_agree A B (deliver_attachment server_options target eventId (i, attachment)).
Proof.
  intros HA HB HA' HB'. apply keeps_asget. intros g s Hs.
  case_bool_decide; [by apply keeps_mutate|]. case_bool_decide.
  { by apply mark_spec; [| |apply agree_due|]. }
  apply awp_bind, awp_catch, awp_bind, (effect_await _ (attachment_key i)); [done .. | |];
    intros r g' Hr Hd; destruct r; simplify_eq/=.
  - change (awp g' (mutate (fun st => st <| sentAttachmentIndexes ::= set_add i |>);@
        markCheckpoint server_options eventId (attachment_key i)) s
      (fun g r s => match r with Ok _ => agree A g s | Throw _ => agree B g s end)).
    apply keeps_mutating. by apply mark_spec; [| |apply due_mutate|].
  - change (awp g' (notify server_options target eventId (failed_key i) (failure_text attachment);@ athrow e) s
      (fun g (r : result string unit) s => match r with
         | Ok _ => awp g (mutate (fun st => st <| sentAttachmentIndexes ::= set_add i |>);@
                     markCheckpoint server_options eventId (attachment_key i)) s
                     (fun g r s => match r with Ok _ => agree A g s | Throw _ => agree B g s end)
         | Throw _ => agree B g s end)).
    apply awp_bind. eapply awp_mono; [by apply notify_keeps|]. intros g2 [[]|e'] s' Hs'; [|done].
    by apply (agree_weaken A).
Qed.

Lemma deliverAttachments_keeps target l :
  (forall i, A (attachment_key i) /\ ~ B (attachment_key i) /\ A (failed_key i) /\ ~ B (failed_key i)) ->
  keeps_agree A B (deliverAttachments server_options target eventId l).
Proof.
  intros HAB. destruct l as [|a l]; [apply keeps_aret|]. apply keeps_each. intros [i a'] _.
  destruct (HAB i) as (? & ? & ? & ?). by apply deliver_attachment_keeps.
Qed.

Lemma onReply_keeps e text l :
  ev_eventId e = eventId -> A "text" -> ~ B "text" ->
  (forall i, A (attachment_key i) /\ ~ B (attachment_key i) /\ A (failed_key i) /\ ~ B (failed_key i)) ->
  keeps_agree A B (onReply server_options e text l).
Proof.
  intros He HA HB HAB. apply keeps_abind; [apply resolveRequired_keeps|]. intros target. apply keeps_abind.
  - destruct (is_empty text); [apply drop_interim_keeps | by apply deliver_reply_text_keeps].
  - intros _. rewrite He. by apply deliverAttachments_keeps.
Qed.

Lemma onCancelled_keeps e : keeps_agree A B (onCancelled e).
Proof.
  apply keeps_abind; [apply resolve_keeps|]. intros [target|]; [apply drop_interim_keeps | apply keeps_aret].
Qed.

Lemma onPresence_keeps e p :
  ev_eventId e = eventId -> (forall emoji, A (remove_key emoji) /\ ~ B (remove_key emoji)) ->
  keeps_agree A B (onPresence server_options e p).
Proof.
  intros He HAB. destruct p; [apply keeps_aret .. |]. apply keeps_abind; [apply resolve_keeps|].
  intros [target|]; [|apply keeps_aret]. rewrite He. by apply clearStatusReactions_keeps.
Qed.
End agreement.

(** ** A whole event *)

Definition all_keys (k : string) : Prop := True.
Definition no_keys (k : string) : Prop := False.
Definition is_remove (k : string) : Prop := exists emoji, k = remove_key emoji.

Lemma isTerminalEvent_body e :
  isTerminalEvent e = match ev_body e with turn_reply _ _ _ | turn_error _ _ _ | turn_cancelled => true | _ => false end.
Proof. unfold isTerminalEvent, event_type. by destruct (ev_body e). Qed.

Lemma dispatch_keeps e :
  ev_eventId e = eventId ->
  keeps_agree all_keys (if isTerminalEvent e then is_remove else no_keys) (dispatch server_options e).
Proof.
  intros He. assert (forall i, ~ is_remove (attachment_key i) /\ ~ is_remove (failed_key i)) as Hkeys.
  { intros i. split; intros [x Hx]; discriminate. }
  assert (~ is_remove "text") as Htext by (intros [x Hx]; discriminate).
  rewrite isTerminalEvent_body. unfold dispatch. destruct (ev_body e).
  - apply onStarted_keeps; [done | done | by split; [|intros ?]].
  - by apply keeps_aret.
  - apply onDelta_keeps; [done | done | by split; [|intros ?]].
  - apply onReply_keeps; [done .. |]. intros i. by destruct (Hkeys i).
  - apply onPresence_keeps; [done | done | by split; [|intros ?]].
  - by apply onError_keeps.
  - by apply onCancelled_keeps.
Qed.

Lemma clearTerminalStatus_keeps e :
  ev_eventId e = eventId ->
  forall g s, agree is_remove g s -> awp g (clearTerminalStatus server_options e) s (fun g r s =>
    r = Ok tt /\ agree no_keys g s).
Proof.
  intros He g s Hs. apply awp_catch.
  assert (keeps_agree is_remove no_keys
    (target <-@ resolveRequired e; clearStatusReactions server_options target (ev_eventId e))) as Hclear.
  { apply keeps_abind; [done | by apply resolveRequired_keeps|]. intros target. rewrite He.
    apply clearStatusReactions_keeps; [done|]. intros emoji. split; [by exists emoji | by intros []]. }
  eapply awp_mono; [by apply Hclear|].
  { intros g' [[]|e'] s' Hs'; split; try done. by apply (agree_weaken is_remove). }
Qed.

(** [apply_event] of an event that is neither applied nor late. *)
Lemma apply_spec e g s :
  ev_eventId e = eventId -> rd_state s = st0 -> pending g = None ->
  (forall k, closed g k -> k ∈ rd_checkpoints s) ->
  eventId ∉ seen st0 -> terminal st0 = false ->
  awp g (apply_event server_options e) s (fun g r s =>
    pending g = None /\
    (seen (rd_state s) = if is_ok r then seen st0 ++ [eventId] else seen st0) /\
    terminal (rd_state s) = isTerminalEvent e).
Proof.
  intros He Hst Hp Hc Hseen Hterm. apply awp_asget. rewrite He, Hst.
  rewrite bool_decide_eq_false_2 by done. rewrite Hterm.
  assert (agree all_keys g s) as Hs by (split_and!; [done | auto | split; by rewrite Hst]).
  apply awp_bind, awp_finally. eapply awp_mono; [by apply dispatch_keeps|].
  intros g1 r1 s1 Hs1. destruct (isTerminalEvent e) eqn:Ht.
  - assert (agree is_remove g1 s1) as Hs1' by (destruct r1; [by apply (agree_weaken all_keys) | done]).
    apply awp_bind. eapply awp_mono; [by apply clearTerminalStatus_keeps|].
    intros g2 ? s2 [-> (Hp2 & _ & Hf1 & Hf2)]. unfold awp, mutate, amodify. simpl.
    destruct r1; simpl; split_and!; try done. unfold set_add. rewrite Hf1. by rewrite bool_decide_eq_false_2.
  - assert (agree no_keys g1 s1) as (Hp1 & _ & Hf1 & Hf2)
      by (destruct r1; [by apply (agree_weaken all_keys) | done]).
    unfold awp, aret, mutate, amodify. simpl.
    destruct r1; simpl; split_and!; try done; try congruence. unfold set_add. rewrite Hf1. by rewrite bool_decide_eq_false_2.
Qed.

End once.
