(* ===== verification/PumbleDelivery.v ===== *)
(** * Delivery of core events to Pumble

    packages/pumble-adapter/src/server.ts, [handleCoreEvents] from the point
    where the event is validated: the delivery store is asked, the renderer
    runs the event in its correlation's chain, the completion is recorded and
    the request answered.  Requests interleave at every await, writes may fail,
    and the process may stop.  The environment answers a call by a function of
    the call, except the calls the delivery store answers. *)

From S2P Require Import Prelude RecordUpdate JsValue Contracts Effects DeliveryStore PumbleRenderer PumbleEffects.
From stdpp Require Import gmap.
From stdpp Require Import options.

(** ** State *)

Inductive Phase : Type :=
| checking                 (** awaits [hasCompleted] *)
| queued                   (** awaits its turn in the chain of its correlation *)
| running (p : prog RenderReply (result string unit * CorrelationState))
| completing               (** awaits [markCompleted] *)
| forgetting               (** awaits [forgetCorrelation] *)
| responded (status : Z).

(** A request to /core/events with its validated event. *)
Record EventPost := mkEventPost { post_event : OutboundEvent; post_phase : Phase }.

(** A correlation of the renderer: its state between renderings and its chain,
    the renderings that are not settled, the first one running. *)
Record Cell := mkCell { cell_state : CorrelationState; cell_chain : list nat }.

Inductive Entry : Type :=
| Called (eventId : string) (c : RenderCall) (ok : bool)
| Replied (eventId : string) (status : Z)
| Stopped.

Record Service := mkService {
  delivery : DeliveryStore;
  correlations : gmap (string * string) Cell;
  posts : list EventPost;
  log : list Entry;
}.
#[export] Instance Cell_fields : Fields Cell := fun r => mkCell (cell_state r) (cell_chain r).
#[export] Instance Service_fields : Fields Service :=
  fun r => mkService (delivery r) (correlations r) (posts r) (log r).

Definition correlation_of (e : OutboundEvent) : string * string := (ev_conversationKey e, ev_correlationId e).

(** [stateFor] *)
Definition cell_for (key : string * string) (s : Service) : Cell := default (mkCell fresh_state []) (correlations s !! key).

Definition update_cell (key : string * string) (f : Cell -> Cell) (s : Service) : Service :=
  s <| correlations ::= <[key := f (cell_for key s)]> |>.

Definition set_phase (i : nat) (p : Phase) (s : Service) : Service :=
  s <| posts ::= alter (fun po => mkEventPost (post_event po) p) i |>.

Definition note (x : Entry) (s : Service) : Service := s <| log ::= fun l => l ++ [x] |>.

Section service.
Variable filePath : string.

Definition respond (i : nat) (e : OutboundEvent) (status : Z) (s : Service) : Service :=
  note (Replied (ev_eventId e) status) (set_phase i (responded status) s).

(** The completion is recorded: a terminal event releases its target. *)
Definition acknowledge (i : nat) (e : OutboundEvent) (s : Service) : Service :=
  if isTerminalEvent e then set_phase i forgetting s else respond i e 200 s.

(** A method of the delivery store. *)
Definition with_store {A} (m : comp DeliveryStore string A) (s : Service) : result string A * Service :=
  let '(r, d) := m (delivery s) in (r, s <| delivery := d |>).

(** The answer to a call of the renderer. *)
Definition reply_to (c : RenderCall) (env : forall c, RenderReply c) (io : Io) (s : Service) :
    RenderReply c * Service :=
  match c return RenderReply c * Service with
  | get_checkpoints e => with_store (checkpointsFor filePath e io) s
  | put_checkpoint e k => with_store (DeliveryStore.markCheckpoint filePath e k io) s
  | c => (env c, s)
  end.

(** The rendering of post [i] is settled: the next one of its chain may run. *)
Definition rendered (i : nat) (e : OutboundEvent) (r : result string unit) (st : CorrelationState) (s : Service) :
    Service :=
  let s := update_cell (correlation_of e) (fun c => mkCell st (tail (cell_chain c))) s in
  match r with Ok _ => set_phase i completing s | Throw _ => respond i e 500 s end.

Definition proceed (i : nat) (e : OutboundEvent) (p : prog RenderReply (result string unit * CorrelationState))
    (s : Service) : Service :=
  match p with
  | Done (r, st) => rendered i e r st s
  | Await _ _ => set_phase i (running p) s
  end.

(** The next await of post [i] is answered. *)
Definition advance (i : nat) (env : forall c, RenderReply c) (io : Io) (s : Service) : Service :=
  match posts s !! i with
  | None => s
  | Some (mkEventPost e phase) =>
      match phase with
      | checking =>
          let '(r, s) := with_store (hasCompleted filePath (ev_eventId e) io) s in
          match r with
          | Throw _ => respond i e 500 s
          | Ok true => acknowledge i e s
          | Ok false => update_cell (correlation_of e) (fun c => c <| cell_chain ::= fun l => l ++ [i] |>) (set_phase i queued s)
          end
      | queued =>
          let c := cell_for (correlation_of e) s in
          if bool_decide (head (cell_chain c) = Some i) then
            proceed i e (render server_options e (cell_state c)) s
          else s
      | running (Done _) => s
      | running (Await c k) =>
          let '(r, s) := reply_to c env io s in
          proceed i e (k r) (note (Called (ev_eventId e) c (confirmed c r)) s)
      | completing =>
          let '(r, s) := with_store (markCompleted filePath (ev_eventId e) io) s in
          match r with Ok _ => acknowledge i e s | Throw _ => respond i e 500 s end
      | forgetting =>
          respond i e (if readable io then 200 else 500) s
      | responded _ => s
      end
  end.

Inductive ServiceOp : Type :=
| Arrive (e : OutboundEvent)
| Advance (i : nat) (env : forall c, RenderReply c) (io : Io)
| Stop.

Definition service_step (s : Service) (op : ServiceOp) : Service :=
  match op with
  | Arrive e => s <| posts ::= fun l => l ++ [mkEventPost e checking] |>
  | Advance i env io => advance i env io s
  | Stop => mkService (restart (delivery s)) ∅ [] (log s ++ [Stopped])
  end.

Definition boot_service (file : option FileText) : Service := mkService (mkStore None file) ∅ [] [].
End service.
