(* ===== verification/PumbleBooks.v ===== *)
(** * No confirmed effect is repeated

    One invariant of PumbleDelivery.v, [books], kept by every step: the data of
    the delivery store never falls behind what the renderings did, the rendering
    at the head of a chain follows the protocol [once] of PumbleEffects.v, and
    the log of calls is free of repetitions. *)

From S2P Require Import Prelude RecordUpdate JsMap JsValue Contracts Effects DeliveryStore PumbleRenderer PumbleEffects.
From S2P Require Import PumbleDelivery.
From stdpp Require Import gmap.
From stdpp Require Import options.

(** ** One rendering *)

(** The correlation ignores the event: it is applied, or the turn is over. *)
Definition settled (e : OutboundEvent) (st : CorrelationState) : Prop :=
  ev_eventId e ∈ seen st \/ terminal st = true.

Definition rendering_post (e : OutboundEvent) (st : CorrelationState) (g : Ghost)
    (rs : result string unit * CorrelationState) : Prop :=
  pending g = None /\ (forall e', settled e' st -> settled e' rs.2) /\ (rs.1 = Ok tt -> settled e rs.2).

(** The program follows the protocol of [e] from the ghost state [g]. *)
Definition follows (e : OutboundEvent) (st : CorrelationState) (g : Ghost)
    (p : prog RenderReply (result string unit * CorrelationState)) : Prop :=
  @wp _ _ _ (once (ev_eventId e)) _ g p (rendering_post e st).

(** The rendering once the checkpoints are loaded. *)
Definition loaded (e : OutboundEvent) (st : CorrelationState) (known : list string) :
    prog RenderReply (result string unit * CorrelationState) :=
  pbind (apply_event server_options e (mkRendering st known)) (fun '(r, s) => Done (r, rd_state s)).

Lemma render_loads e st :
  render server_options e st =
  Await (get_checkpoints (ev_eventId e)) (fun r : result string (list string) =>
    match r with Ok known => loaded e st known | Throw error => Done (Throw error, st) end).
Proof. unfold render. simpl. reflexivity. Qed.

Lemma loaded_settled e st known : settled e st -> loaded e st known = Done (Ok tt, st).
Proof.
  intros Hs. unfold loaded, apply_event, abind, asget. simpl. case_bool_decide; [done|].
  destruct Hs as [?| ->]; done.
Qed.

#[export] Instance settled_dec e st : Decision (settled e st).
Proof. unfold settled. apply _. Defined.

Lemma loaded_follows e st known :
  follows e st (mkGhost (fun k => k ∈ known) None) (loaded e st known).
Proof.
  destruct (decide (settled e st)) as [Hs|Hs]; [by rewrite loaded_settled|].
  assert ((ev_eventId e ∉ seen st) /\ terminal st = false) as [Hseen Hterm].
  { split; [intros ?; apply Hs; by left|]. destruct (terminal st) eqn:E; [|done]. destruct Hs. by right. }
  apply wp_pbind. eapply wp_mono; [|by apply (apply_spec (ev_eventId e) st)].
  intros g [r s] (Hp & Hse & Ht). simpl in *. split_and!; [done | |]; simpl.
  - intros e' [Hin|Hbad]; [|congruence]. left. rewrite Hse. destruct (is_ok r); [|done]. apply elem_of_app. by left.
  - intros ->. left. rewrite Hse. simpl. apply elem_of_app. right. by apply list_elem_of_singleton.
Qed.

(** ** The invariant *)

Definition known (d : DeliveryStoreData) (e k : string) : Prop := e ∈ completed d \/ k ∈ checkpoints_of e d.

(** What holds of request [i] in a phase: [d] is the memory of the store, [c] its
    correlation, [g] its ghost state. *)
Definition phase_ok (g : Ghost) (d : option DeliveryStoreData) (c : Cell) (i : nat) (e : OutboundEvent)
    (phase : Phase) : Prop :=
  match phase with
  | checking | forgetting | responded _ => True
  | queued =>
      i ∈ cell_chain c /\ exists dat, d = Some dat /\
      (ev_eventId e ∈ completed dat -> settled e (cell_state c))
  | running p =>
      (head (cell_chain c) = Some i) /\ exists dat, d = Some dat /\
      (p = render server_options e (cell_state c) /\ pending g = None /\ (ev_eventId e ∈ completed dat -> settled e (cell_state c)) \/
       follows e (cell_state c) g p /\ ~ settled e (cell_state c) /\
       (exists q k, p = Await q k) /\
       forall k, known dat (ev_eventId e) k -> closed g k /\ pending g <> Some k)
  | completing => is_Some d /\ settled e (cell_state c)
  end.

(** The effect [k] of event [e] is confirmed, and its checkpoint is to be written. *)
Definition due_now (γ : nat -> Ghost) (l : list EventPost) (e k : string) : Prop :=
  exists i ev p, l !! i = Some (mkEventPost ev (running p)) /\ ev_eventId ev = e /\ pending (γ i) = Some k.

Definition call_of (l : list Entry) (i : nat) (e k : string) (ok : bool) : Prop :=
  exists c, l !! i = Some (Called e c ok) /\ effect_key c = Some k.

(** After a confirmed effect no other call for it, unless the process stopped in
    between; once its checkpoint is written, none at all. *)
Definition no_repeats (l : list Entry) : Prop :=
  forall i j e k ok, (i < j)%nat -> call_of l i e k true -> call_of l j e k ok ->
    exists r, (i < r < j)%nat /\ l !! r = Some Stopped.

Definition none_after_checkpoint (l : list Entry) : Prop :=
  forall i j e k ok, (i < j)%nat -> l !! i = Some (Called e (put_checkpoint e k) true) -> ~ call_of l j e k ok.

Record books (corr : string -> string * string) (γ : nat -> Ghost) (s : Service) : Prop := {
  bk_store : store_ok (delivery s);
  bk_events : forall i po, posts s !! i = Some po ->
    ev_eventId (post_event po) <> "" /\ correlation_of (post_event po) = corr (ev_eventId (post_event po));
  bk_posts : forall i e phase, posts s !! i = Some (mkEventPost e phase) ->
    phase_ok (γ i) (memory (delivery s)) (cell_for (correlation_of e) s) i e phase;
  bk_recent : forall i e k, call_of (log s) i e k true ->
    (forall r, (i < r)%nat -> log s !! r <> Some Stopped) ->
    known (data (delivery s)) e k \/ due_now γ (posts s) e k;
  bk_durable : forall i e k, log s !! i = Some (Called e (put_checkpoint e k) true) ->
    exists d, disk_data (delivery s) = Some d /\ known d e k;
  bk_repeats : no_repeats (log s);
  bk_checkpoints : none_after_checkpoint (log s);
}.

(** ** Cells and logs *)

Lemma cell_for_update key f s key' :
  cell_for key' (update_cell key f s) = if decide (key = key') then f (cell_for key s) else cell_for key' s.
Proof.
  unfold update_cell, cell_for at 1. simpl. case_decide as Hk.
  - subst. by rewrite lookup_insert_eq.
  - by rewrite lookup_insert_ne.
Qed.

Lemma call_of_app l xs i e k ok :
  call_of (l ++ xs) i e k ok <->
  call_of l i e k ok \/ (length l <= i)%nat /\ call_of xs (i - length l) e k ok.
Proof.
  unfold call_of. split.
  - intros (c & Hc & Hk). apply lookup_app_Some in Hc as [Hc|[Hlen Hc]]; eauto.
  - intros [(c & Hc & Hk)|(Hlen & c & Hc & Hk)]; exists c; (split; [|done]); apply lookup_app_Some; auto.
Qed.

(** The calls a log entry is about. *)
Definition entry_call (x : Entry) (e k : string) : Prop :=
  exists c ok, x = Called e c ok /\ effect_key c = Some k.

Lemma call_of_single x i e k ok : call_of [x] i e k ok -> i = 0 /\ entry_call x e k.
Proof.
  intros (c & Hc & Hk). apply list_lookup_singleton_Some in Hc as [-> ->]. split; [done|]. by exists c, ok.
Qed.

(** A new entry repeats nothing. *)
Definition fresh_entry (l : list Entry) (x : Entry) : Prop :=
  forall e k, entry_call x e k ->
    (forall i, call_of l i e k true -> exists r, (i < r)%nat /\ l !! r = Some Stopped) /\
    Called e (put_checkpoint e k) true ∉ l.

Lemma no_repeats_snoc l x : fresh_entry l x -> no_repeats l -> no_repeats (l ++ [x]).
Proof.
  intros Hx Hl i j e k ok Hij [Hi|[Hlen Hi]]%call_of_app [Hj|[Hlen' Hj]]%call_of_app.
  - destruct (Hl i j e k ok Hij Hi Hj) as (r & Hr & Hs). exists r. split; [done|]. by apply lookup_app_l_Some.
  - apply call_of_single in Hj as [Hj Hc]. destruct (Hx e k Hc) as [Hs _]. destruct (Hs i Hi) as (r & Hr & Hstop).
    exists r. apply lookup_lt_Some in Hstop as Hlt. split; [lia|]. by apply lookup_app_l_Some.
  - destruct Hj as (c & Hc & _). apply lookup_lt_Some in Hc. lia.
  - apply call_of_single in Hi as [Hi _], Hj as [Hj _]. lia.
Qed.

Lemma none_after_snoc l x :
  fresh_entry l x -> none_after_checkpoint l -> none_after_checkpoint (l ++ [x]).
Proof.
  intros Hx Hl i j e k ok Hij Hi [Hj|[Hlen Hj]]%call_of_app.
  - apply lookup_app_Some in Hi as [Hi|[Hlen _]]; [by eapply Hl|].
    destruct Hj as (c & Hc & _). apply lookup_lt_Some in Hc. lia.
  - apply call_of_single in Hj as [Hj Hc]. destruct (Hx e k Hc) as [_ Hn]. apply Hn.
    apply lookup_app_Some in Hi as [Hi|[Hlen' _]]; [by eapply list_elem_of_lookup_2 | lia].
Qed.

Lemma entry_quiet l x : (forall e k, ~ entry_call x e k) -> fresh_entry l x.
Proof. intros Hx e k Hc. by destruct (Hx e k). Qed.

Lemma replied_quiet l e status : fresh_entry l (Replied e status).
Proof. apply entry_quiet. intros e' k (c & ok & Hc & _). done. Qed.

Lemma stopped_quiet l : fresh_entry l Stopped.
Proof. apply entry_quiet. intros e' k (c & ok & Hc & _). done. Qed.

(** ** One request moves *)

(** The entries [xs] a step appends. *)
Record logged (γ : nat -> Ghost) (s s' : Service) (xs : list Entry) : Prop := {
  lg_log : log s' = log s ++ xs;
  lg_running : Stopped ∉ xs;
  lg_repeats : no_repeats (log s) -> no_repeats (log s');
  lg_checkpoints : none_after_checkpoint (log s) -> none_after_checkpoint (log s');
  lg_recent : forall i e k, call_of xs i e k true -> known (data (delivery s')) e k \/ due_now γ (posts s') e k;
  lg_durable : forall e k, Called e (put_checkpoint e k) true ∈ xs ->
    exists d, disk_data (delivery s') = Some d /\ known d e k;
}.

Lemma known_le d d' e k : data_le d d' -> known d e k -> known d' e k.
Proof. intros [Hc Hk] [He|Hin]; [left; by apply Hc |]. destruct (Hk e k Hin); [by right | by left]. Qed.

Lemma books_step corr γ γ' s s' i e ph ph' xs :
  books corr γ s ->
  posts s !! i = Some (mkEventPost e ph) ->
  posts s' = <[i := mkEventPost e ph']> (posts s) ->
  (forall j, j <> i -> γ' j = γ j) ->
  store_evolves (delivery s) (delivery s') ->
  data_le (data (delivery s)) (data (delivery s')) ->
  (forall j ej pj, j <> i -> posts s !! j = Some (mkEventPost ej pj) ->
     phase_ok (γ j) (memory (delivery s)) (cell_for (correlation_of ej) s) j ej pj ->
     phase_ok (γ j) (memory (delivery s')) (cell_for (correlation_of ej) s') j ej pj) ->
  phase_ok (γ' i) (memory (delivery s')) (cell_for (correlation_of e) s') i e ph' ->
  (forall p k, ph = running p -> pending (γ i) = Some k ->
     known (data (delivery s')) (ev_eventId e) k \/ exists p', ph' = running p' /\ pending (γ' i) = Some k) ->
  logged γ' s s' xs ->
  books corr γ' s'.
Proof.
  intros [Hst Hev Hpo Hre Hdu Hno Hch] Hi Hposts Hγ Hevo Hle Hothers Hself Hpend [Hlog Hrun Hl1 Hl2 Hl3 Hl4].
  assert (forall j po, posts s' !! j = Some po -> j <> i /\ posts s !! j = Some po \/ j = i /\ po = mkEventPost e ph')
    as Hlook.
  { intros j po. rewrite Hposts. intros [(-> & <- & _)|[Hne Hj]]%list_lookup_insert_Some; [by right | by left]. }
  constructor.
  - by apply Hevo.
  - intros j po Hj. apply Hlook in Hj as [[_ Hj]|[-> ->]]; [by eapply Hev | by apply (Hev i _ Hi)].
  - intros j ej pj Hj. apply Hlook in Hj as [[Hne Hj]|[-> ?]]; simplify_eq; [|done].
    rewrite Hγ by done. by apply Hothers, Hpo.
  - intros j ej k Hj Hs. rewrite Hlog in Hj, Hs. apply call_of_app in Hj as [Hj|[_ Hj]]; [|by eapply Hl3].
    assert (forall r, (j < r)%nat -> log s !! r <> Some Stopped) as Hs'.
    { intros r Hr Hstop. apply (Hs r Hr). by apply lookup_app_l_Some. }
    destruct (Hre j ej k Hj Hs') as [Hk|(n & ev & p & Hn & <- & Hp)]; [left; by eapply known_le|].
    destruct (decide (n = i)) as [->|Hne].
    + rewrite Hi in Hn. simplify_eq. destruct (Hpend p k eq_refl Hp) as [?|(p' & -> & Hp')]; [by left|].
      right. exists i, ev, p'. split_and!; [|done..]. rewrite Hposts. apply list_lookup_insert_eq.
      by eapply lookup_lt_Some.
    + right. exists n, ev, p. rewrite Hposts, list_lookup_insert_ne, Hγ by done. done.
  - intros j ej k Hj. rewrite Hlog in Hj. apply lookup_app_Some in Hj as [Hj|[_ Hj]].
    + destruct (Hdu j ej k Hj) as (d & Hd & Hk). destruct (evolves_disk _ _ Hevo Hst d Hd) as (d' & Hd' & Hle').
      exists d'. split; [done | by eapply known_le].
    + apply Hl4. by eapply list_elem_of_lookup_2.
  - auto.
  - auto.
Qed.

Lemma logged_quiet γ s s' xs :
  log s' = log s ++ xs -> xs = [] \/ (exists e status, xs = [Replied e status]) -> logged γ s s' xs.
Proof.
  intros Hlog Hxs. assert (forall i e k ok, ~ call_of xs i e k ok) as Hcall.
  { intros i e k ok (c & Hc & _). destruct Hxs as [->|(e' & st & ->)]; [done|].
    by apply list_lookup_singleton_Some in Hc as [_ ?]. }
  constructor; [done | | | | |].
  - destruct Hxs as [->|(e' & st & ->)]; [apply not_elem_of_nil|]. by intros ?%list_elem_of_singleton.
  - rewrite Hlog. destruct Hxs as [->|(e' & st & ->)]; [by rewrite app_nil_r|].
    apply no_repeats_snoc, replied_quiet.
  - rewrite Hlog. destruct Hxs as [->|(e' & st & ->)]; [by rewrite app_nil_r|].
    apply none_after_snoc, replied_quiet.
  - intros i e k Hc. by apply Hcall in Hc.
  - intros e k He. destruct Hxs as [->|(e' & st & ->)]; [by apply not_elem_of_nil in He|].
    by apply list_elem_of_singleton in He.
Qed.

(** What the store forgot, no request waits for. *)
Lemma phase_unloaded g g' d c c' i e ph : phase_ok g None c i e ph -> phase_ok g' d c' i e ph.
Proof. destruct ph; simpl; [done | by intros (_ & ? & ? & _) | by intros (_ & ? & ? & _) | by intros [[? ?] _] | done..]. Qed.

Lemma phase_chain g d c i e ph l :
  phase_ok g d c i e ph -> phase_ok g d (c <| cell_chain ::= fun x => x ++ l |>) i e ph.
Proof.
  destruct ph; simpl; try done.
  - intros (Hin & Hd). split; [|done]. apply elem_of_app. by left.
  - intros (Hhd & Hd). split; [|done]. by destruct (cell_chain c).
Qed.

(** Operations that read the store load it, if they change it at all. *)
Record reads (d d' : DeliveryStore) : Prop := {
  rd_evolves : store_evolves d d';
  rd_same : is_Some (memory d) -> d' = d;
}.

Lemma load_same_data path io d dat : memory d = Some dat -> load path io d = (Ok tt, d).
Proof. unfold load. by intros ->. Qed.

Lemma hasCompleted_read path e io d : reads d (hasCompleted path e io d).2.
Proof.
  split; [apply hasCompleted_evolves|]. intros [dat Hd]. unfold hasCompleted, cbind.
  by rewrite (load_same_data _ _ _ _ Hd).
Qed.

Lemma reads_le d d' : reads d d' -> data_le (data d) (data d').
Proof.
  intros [_ Hs]. unfold data. destruct (memory d) eqn:Hd; [by rewrite Hs, Hd by done|].
  split; simpl; [set_solver | intros e k Hk]. by apply not_elem_of_nil in Hk.
Qed.

Lemma hasCompleted_false path e io d d' :
  hasCompleted path e io d = (Ok false, d') -> exists dat, memory d' = Some dat /\ e ∉ completed dat.
Proof.
  unfold hasCompleted, cbind. destruct (load path io d) as [[[]|] d1] eqn:Hl; [|done].
  intros ?. simplify_eq. destruct (load_ok _ _ _ _ Hl) as [dat Hd]. exists dat. split; [done|].
  match goal with H : bool_decide _ = false |- _ => apply bool_decide_eq_false in H; unfold data in H; by rewrite Hd in H end.
Qed.

(** A step that only reads the store and leaves no request waiting more than it did. *)
Lemma books_read corr γ s s' i e ph ph' xs :
  books corr γ s ->
  posts s !! i = Some (mkEventPost e ph) ->
  (forall p, ph <> running p) ->
  posts s' = <[i := mkEventPost e ph']> (posts s) ->
  reads (delivery s) (delivery s') ->
  (forall key, exists l, cell_for key s' = cell_for key s <| cell_chain ::= fun x => x ++ l |>) ->
  phase_ok (γ i) (memory (delivery s')) (cell_for (correlation_of e) s') i e ph' ->
  log s' = log s ++ xs -> xs = [] \/ (exists e status, xs = [Replied e status]) ->
  books corr γ s'.
Proof.
  intros Hb Hi Hph Hposts Hr Hcells Hself Hlog Hxs. eapply (books_step corr γ γ s s' i e ph ph' xs); try done.
  - apply Hr.
  - by apply reads_le.
  - intros j ej pj Hne Hj Hok. destruct (Hcells (correlation_of ej)) as [l ->]. apply phase_chain.
    destruct (memory (delivery s)) as [dat|] eqn:Hd; [|by eapply phase_unloaded].
    by rewrite (rd_same _ _ Hr), Hd by done.
  - intros p k ->. by destruct (Hph p).
  - by apply logged_quiet.
Qed.

Lemma alter_phase (l : list EventPost) i e ph p :
  l !! i = Some (mkEventPost e ph) ->
  alter (fun po => mkEventPost (post_event po) p) i l = <[i := mkEventPost e p]> l.
Proof.
  intros Hi. apply list_eq. intros j. destruct (decide (j = i)) as [->|Hne].
  - rewrite list_lookup_alter_eq, Hi. simpl. symmetry. apply list_lookup_insert_eq. by eapply lookup_lt_Some.
  - by rewrite list_lookup_alter_ne, list_lookup_insert_ne by done.
Qed.

Lemma cell_same (key : string * string) (s : Service) :
  exists l, cell_for key s = cell_for key s <| cell_chain ::= fun x => x ++ l |>.
Proof. exists []. destruct (cell_for key s) as [st ch]. simpl. by rewrite app_nil_r. Qed.

(** The end of a request: it is acknowledged or answered. *)
Lemma books_ended corr γ s s1 i e ph (s' := s1) :
  books corr γ s -> posts s !! i = Some (mkEventPost e ph) -> (forall p, ph <> running p) ->
  reads (delivery s) (delivery s1) -> correlations s1 = correlations s -> posts s1 = posts s -> log s1 = log s ->
  (forall status, books corr γ (respond i e status s1)) /\ books corr γ (acknowledge i e s1).
Proof.
  intros Hb Hi Hph Hr Hc Hp Hl.
  assert (forall status, books corr γ (respond i e status s1)) as Hresp.
  { intros status. eapply (books_read corr γ s _ i e ph (responded status) [Replied (ev_eventId e) status]); try done.
    - simpl. rewrite Hp. by eapply alter_phase.
    - intros key. unfold cell_for. simpl. rewrite Hc. apply (cell_same key s).
    - simpl. by rewrite Hl.
    - right. eauto. }
  split; [done|]. unfold acknowledge. destruct (isTerminalEvent e); [|done].
  eapply (books_read corr γ s _ i e ph forgetting []); try done.
  - simpl. rewrite Hp. by eapply alter_phase.
  - intros key. unfold cell_for. simpl. rewrite Hc. apply (cell_same key s).
  - simpl. by rewrite Hl, app_nil_r.
  - by left.
Qed.

Lemma advance_checking path corr γ s i e env io :
  books corr γ s -> posts s !! i = Some (mkEventPost e checking) -> books corr γ (advance path i env io s).
Proof.
  intros Hb Hi. unfold advance, with_store. rewrite Hi.
  pose proof (hasCompleted_read path (ev_eventId e) io (delivery s)) as Hr.
  destruct (hasCompleted path (ev_eventId e) io (delivery s)) as [r d] eqn:Hhc. simpl in Hr.
  destruct (books_ended corr γ s (s <| delivery := d |>) i e checking) as [Hresp Hack]; [done..|].
  destruct r as [[]|]; [done | | done].
  destruct (hasCompleted_false _ _ _ _ _ Hhc) as (dat & Hd & Hnew).
  eapply (books_read corr γ s _ i e checking queued []); try done.
  - simpl. by eapply alter_phase.
  - intros key. rewrite cell_for_update. case_decide; [subst; by exists [i] | apply (cell_same key s)].
  - rewrite cell_for_update, decide_True by done. simpl. split; [apply elem_of_app; right; by apply list_elem_of_singleton|].
    exists dat. by split.
  - simpl. by rewrite app_nil_r.
  - by left.
Qed.

Lemma advance_forgetting path corr γ s i e env io :
  books corr γ s -> posts s !! i = Some (mkEventPost e forgetting) -> books corr γ (advance path i env io s).
Proof.
  intros Hb Hi. unfold advance. rewrite Hi.
  by apply (books_ended corr γ s s i e forgetting Hb Hi).
Qed.

Lemma advance_queued path corr γ s i e env io :
  books corr γ s -> posts s !! i = Some (mkEventPost e queued) ->
  exists γ', books corr γ' (advance path i env io s).
Proof.
  intros Hb Hi. unfold advance. rewrite Hi. case_bool_decide as Hhd; [|by exists γ].
  rewrite render_loads. cbn [proceed].
  set (γ' := fun j => if decide (j = i) then mkGhost (fun _ => False) None else γ j). exists γ'.
  pose proof (bk_posts _ _ _ Hb _ _ _ Hi) as (Hin & dat & Hd & Hset).
  eapply (books_step corr γ γ' s _ i e queued (running _) []); try done.
  - simpl. by eapply alter_phase.
  - intros j Hj. unfold γ'. by rewrite decide_False.
  - simpl. split; [done|]. exists dat. split; [done|]. left. rewrite render_loads. split_and!; [done | | done].
    unfold γ'. by rewrite decide_True.
  - apply logged_quiet; [simpl; by rewrite app_nil_r | by left].
Qed.

Lemma known_complete e dat e' k : e' <> e -> known (complete e dat) e' k <-> known dat e' k.
Proof.
  intros Hne. unfold known, checkpoints_of. simpl. rewrite jget_delete_ne by done.
  rewrite elem_of_app, list_elem_of_singleton. tauto.
Qed.

Lemma markCompleted_memory path e io d dat :
  memory d = Some dat ->
  exists dat', memory (markCompleted path e io d).2 = Some dat' /\ data_le dat dat' /\
    (dat' = dat \/ dat' = complete e dat).
Proof.
  intros Hd. unfold markCompleted, cbind. rewrite (load_same_data _ _ _ _ Hd).
  case_bool_decide; [exists dat; split_and!; [done | reflexivity | by left]|]. exists (complete e dat).
  split_and!; [|apply data_le_complete | by right].
  unfold change, write, data. rewrite Hd. by destruct (written io).
Qed.

(** Two renderings of one event do not run at once. *)
Lemma running_unique corr γ s i j e p e' p' :
  books corr γ s -> posts s !! i = Some (mkEventPost e (running p)) ->
  posts s !! j = Some (mkEventPost e' (running p')) -> ev_eventId e = ev_eventId e' -> i = j.
Proof.
  intros Hb Hi Hj He. pose proof (bk_posts _ _ _ Hb _ _ _ Hi) as (Hhi & _).
  pose proof (bk_posts _ _ _ Hb _ _ _ Hj) as (Hhj & _).
  destruct (bk_events _ _ _ Hb _ _ Hi) as [_ Hci]. destruct (bk_events _ _ _ Hb _ _ Hj) as [_ Hcj].
  simpl in *. rewrite Hcj, <- He, <- Hci in Hhj. congruence.
Qed.

Lemma same_correlation corr γ s i j e ph e' ph' :
  books corr γ s -> posts s !! i = Some (mkEventPost e ph) -> posts s !! j = Some (mkEventPost e' ph') ->
  ev_eventId e = ev_eventId e' -> correlation_of e = correlation_of e'.
Proof.
  intros Hb Hi Hj He. destruct (bk_events _ _ _ Hb _ _ Hi) as [_ Hci].
  destruct (bk_events _ _ _ Hb _ _ Hj) as [_ Hcj]. simpl in *. congruence.
Qed.

Lemma settled_id e e' st : ev_eventId e = ev_eventId e' -> settled e st -> settled e' st.
Proof. unfold settled. by intros ->. Qed.

Lemma advance_completing path corr γ s i e env io :
  books corr γ s -> posts s !! i = Some (mkEventPost e completing) -> books corr γ (advance path i env io s).
Proof.
  intros Hb Hi. unfold advance, with_store. rewrite Hi.
  pose proof (bk_posts _ _ _ Hb _ _ _ Hi) as ([dat Hd] & Hset).
  destruct (bk_events _ _ _ Hb _ _ Hi) as [Hid Hcorr].
  destruct (markCompleted_memory path (ev_eventId e) io (delivery s) dat Hd) as (dat' & Hd' & Hle & Hdat).
  pose proof (markCompleted_evolves path (ev_eventId e) io (delivery s) Hid) as Hevo.
  destruct (markCompleted path (ev_eventId e) io (delivery s)) as [r d]. simpl in Hd', Hevo.
  assert (forall ph' xs s', posts s' = <[i := mkEventPost e ph']> (posts s) -> delivery s' = d ->
    correlations s' = correlations s -> (forall p, ph' <> running p) -> (ph' = forgetting \/ exists st, ph' = responded st) ->
    log s' = log s ++ xs -> xs = [] \/ (exists e status, xs = [Replied e status]) -> books corr γ s') as Hend.
  { intros ph' xs s' Hp Hs' Hc Hnr Hph' Hl Hxs.
    eapply (books_step corr γ γ s s' i e completing ph' xs); try done.
    - by rewrite Hs'.
    - unfold data. by rewrite Hs', Hd, Hd'.
    - intros j ej pj Hne Hj Hok. unfold cell_for. rewrite Hc, Hs', Hd'. fold (cell_for (correlation_of ej) s).
      destruct (decide (ev_eventId ej = ev_eventId e)) as [He|He].
      + assert (settled ej (cell_state (cell_for (correlation_of ej) s))) as Hsj.
        { rewrite (same_correlation _ _ _ _ _ _ _ _ _ Hb Hj Hi He). by apply (settled_id e). }
        rewrite Hd in Hok. destruct pj; simpl in *; try done.
        * destruct Hok as (Hin & _). split; [done|]. exists dat'. by split.
        * destruct Hok as (Hhd & dat0 & ? & [(Hp1 & Hp2 & _)|(_ & Hns & _)]); [|done].
          split; [done|]. exists dat'. split; [done|]. by left.
      + assert (forall k, known dat' (ev_eventId ej) k -> known dat (ev_eventId ej) k) as Hk.
        { intros k. destruct Hdat as [->| ->]; [done|]. by rewrite known_complete. }
        assert (ev_eventId ej ∈ completed dat' -> ev_eventId ej ∈ completed dat) as Hc'.
        { destruct Hdat as [->| ->]; simpl; [done|]. by intros [?|?%list_elem_of_singleton]%elem_of_app. }
        rewrite Hd in Hok. destruct pj; simpl in *; try done.
        * destruct Hok as (Hin & dat0 & ? & Hs). simplify_eq. split; [done|]. exists dat'. split; [done|]. auto.
        * destruct Hok as (Hhd & dat0 & ? & Hs). simplify_eq. split; [done|]. exists dat'. split; [done|].
          destruct Hs as [(? & ? & Hs)|(? & ? & ? & Hs)]; [left; split_and!; auto | right; split_and!; auto].
        * by destruct Hok.
    - destruct Hph' as [->|[st ->]]; done.
    - by apply logged_quiet. }
  assert (forall status, books corr γ (respond i e status (s <| delivery := d |>))) as Hresp.
  { intros status. eapply (Hend (responded status) [Replied (ev_eventId e) status]); try done; [|by eauto..].
    simpl. by eapply alter_phase. }
  destruct r; [|done]. unfold acknowledge. destruct (isTerminalEvent e); [|done].
  eapply (Hend forgetting []); try done; [by simpl; eapply alter_phase | by left | by simpl; rewrite app_nil_r | by left].
Qed.

(** ** The answer to a call *)

Lemma entry_call_called e c ok e' k : entry_call (Called e c ok) e' k -> e' = e /\ effect_key c = Some k.
Proof. intros (c' & ok' & Hc & Hk). by simplify_eq. Qed.

(** A call, and the answer to the request when it ended the rendering. *)
Lemma logged_call γ s s' e c ok xs :
  xs = [] \/ (exists e status, xs = [Replied e status]) ->
  log s' = log s ++ Called e c ok :: xs ->
  fresh_entry (log s) (Called e c ok) ->
  (forall k, ok = true -> effect_key c = Some k -> known (data (delivery s')) e k \/ due_now γ (posts s') e k) ->
  (forall k, ok = true -> c = put_checkpoint e k -> exists d, disk_data (delivery s') = Some d /\ known d e k) ->
  logged γ s s' (Called e c ok :: xs).
Proof.
  intros Hxs Hlog Hfresh Hrec Hdur. rewrite (cons_middle (Called e c ok)), app_assoc in Hlog.
  constructor.
  - by rewrite Hlog, <- app_assoc.
  - intros [?|Hs]%elem_of_cons; [done|]. destruct Hxs as [->|(e' & st & ->)];
      [by apply not_elem_of_nil in Hs | by apply list_elem_of_singleton in Hs].
  - intros H. rewrite Hlog. apply (no_repeats_snoc _ _ Hfresh) in H.
    destruct Hxs as [->|(e' & st & ->)]; [by rewrite app_nil_r | by apply no_repeats_snoc, H; apply replied_quiet].
  - intros H. rewrite Hlog. apply (none_after_snoc _ _ Hfresh) in H.
    destruct Hxs as [->|(e' & st & ->)]; [by rewrite app_nil_r | by apply none_after_snoc, H; apply replied_quiet].
  - intros i e' k (c' & Hc' & Hk). destruct i as [|i]; simpl in Hc'; [simplify_eq; by apply Hrec|].
    destruct Hxs as [->|(e2 & st & ->)]; [done|]. by destruct i.
  - intros e' k [Hc'|Hc']%elem_of_cons.
    + simplify_eq. by apply Hdur.
    + destruct Hxs as [->|(e2 & st & ->)]; [by apply not_elem_of_nil in Hc' | by apply list_elem_of_singleton in Hc'].
Qed.

(** The other requests, when the store records something of event [e]. *)
Lemma phase_data g dat dat' c j ej pj e :
  phase_ok g (Some dat) c j ej pj ->
  completed dat' = completed dat ->
  (forall e' k, e' <> e -> known dat' e' k -> known dat e' k) ->
  (forall p, pj = running p -> ev_eventId ej <> e) ->
  phase_ok g (Some dat') c j ej pj.
Proof.
  intros Hok Hc Hk Hne. destruct pj; simpl in *; try done.
  - destruct Hok as (Hin & dat0 & ? & Hs). simplify_eq. split; [done|]. exists dat'. by rewrite Hc.
  - destruct Hok as (Hhd & dat0 & ? & Hs). simplify_eq. split; [done|]. exists dat'. rewrite Hc. split; [done|].
    destruct Hs as [?|(? & ? & ? & Hs)]; [by left | right; split_and!; eauto].
  - split; [by eexists | by destruct Hok].
Qed.

(** The other requests of the correlation, when a rendering leaves the chain. *)
Lemma phase_tail g d c j ej pj i st :
  phase_ok g d c j ej pj -> j <> i -> head (cell_chain c) = Some i ->
  (forall e', settled e' (cell_state c) -> settled e' st) ->
  phase_ok g d (mkCell st (tail (cell_chain c))) j ej pj.
Proof.
  intros Hok Hne Hhd Hst. destruct pj; simpl in *; try done.
  - destruct Hok as (Hin & dat & ? & Hs). split; [|exists dat; by auto].
    destruct (cell_chain c); simplify_eq/=. by apply elem_of_cons in Hin as [?|?].
  - destruct Hok as (Hhd' & _). congruence.
  - destruct Hok. by auto.
Qed.

Section answer.
Context (corr : string -> string * string) (γ : nat -> Ghost) (s : Service) (i : nat) (e : OutboundEvent).
Context (p : prog RenderReply (result string unit * CorrelationState)).
Context (Hb : books corr γ s) (Hi : posts s !! i = Some (mkEventPost e (running p))).
#[local] Abbreviation st := (cell_state (cell_for (correlation_of e) s)).
Set Default Proof Using "Type*".

Lemma books_answered (c : RenderCall) (ok : bool) (d' : DeliveryStore) (dat dat' : DeliveryStoreData) (g' : Ghost) p' :
  memory (delivery s) = Some dat -> memory d' = Some dat' ->
  store_evolves (delivery s) d' -> data_le dat dat' -> completed dat' = completed dat ->
  (forall e' k, e' <> ev_eventId e -> known dat' e' k -> known dat e' k) ->
  follows e st g' p' -> (settled e st -> exists x, p' = Done x) ->
  (forall k, ~ settled e st -> known dat' (ev_eventId e) k -> closed g' k /\ pending g' <> Some k) ->
  (forall k, pending (γ i) = Some k -> known dat' (ev_eventId e) k \/ pending g' = Some k) ->
  fresh_entry (log s) (Called (ev_eventId e) c ok) ->
  (forall k, ok = true -> effect_key c = Some k -> known dat' (ev_eventId e) k \/ pending g' = Some k) ->
  (forall k, ok = true -> c = put_checkpoint (ev_eventId e) k ->
     exists d, disk_data d' = Some d /\ known d (ev_eventId e) k) ->
  exists γ', books corr γ' (proceed i e p' (note (Called (ev_eventId e) c ok) (s <| delivery := d' |>))).
Proof.
  intros Hd Hd' Hevo Hle Hcomp Hother Hfol Hset Hknown Hpend Hfresh Hrec Hdur.
  set (γ' := fun j => if decide (j = i) then g' else γ j). exists γ'.
  assert (γ' i = g') as Hgi by (unfold γ'; by rewrite decide_True).
  assert (forall j, j <> i -> γ' j = γ j) as Hgj by (intros j ?; unfold γ'; by rewrite decide_False).
  pose proof (bk_posts _ _ _ Hb _ _ _ Hi) as (Hhd & _).
  assert (data d' = dat' /\ data (delivery s) = dat) as [Hdd Hdd0] by (unfold data; by rewrite Hd, Hd').
  assert (forall j ej pj, j <> i -> posts s !! j = Some (mkEventPost ej pj) ->
    phase_ok (γ j) (memory (delivery s)) (cell_for (correlation_of ej) s) j ej pj ->
    phase_ok (γ j) (Some dat') (cell_for (correlation_of ej) s) j ej pj) as Hothers.
  { intros j ej pj Hne Hj Hok. rewrite Hd in Hok. eapply (phase_data _ _ _ _ _ _ _ (ev_eventId e)); try done.
    intros q -> Hid. by destruct (Hne (running_unique _ _ _ _ _ _ _ _ _ Hb Hj Hi Hid)). }
  destruct p' as [[r st']|q kq].
  - destruct Hfol as (Hp & Hmono & Hok). simpl in Hp, Hmono, Hok.
    assert (forall s' ph' xs, posts s' = <[i := mkEventPost e ph']> (posts s) -> delivery s' = d' ->
      (forall key, cell_for key s' = if decide (correlation_of e = key)
         then mkCell st' (tail (cell_chain (cell_for (correlation_of e) s))) else cell_for key s) ->
      log s' = log s ++ Called (ev_eventId e) c ok :: xs -> xs = [] \/ (exists e status, xs = [Replied e status]) ->
      phase_ok g' (Some dat') (cell_for (correlation_of e) s') i e ph' -> (forall p, ph' <> running p) ->
      books corr γ' s') as Hend.
    { intros s' ph' xs Hps Hds Hcs Hls Hxs Hself Hnr.
      eapply (books_step corr γ γ' s s' i e (running p) ph' (_ :: xs)); try done.
      - by rewrite Hds.
      - by rewrite Hds, Hdd, Hdd0.
      - intros j ej pj Hne Hj Hokj. rewrite Hds, Hd', Hcs. specialize (Hothers _ _ _ Hne Hj Hokj).
        case_decide as Hkey; [|done]. rewrite <- Hkey in Hothers. by apply (phase_tail _ _ _ _ _ _ i).
      - by rewrite Hgi, Hds, Hd'.
      - intros p0 k _ Hk. rewrite Hds, Hdd. left. destruct (Hpend k Hk) as [?|Hp']; [done|]. by rewrite Hp in Hp'.
      - eapply logged_call; rewrite ?Hds, ?Hdd; try done.
        intros k Hk1 Hk2. left. destruct (Hrec k Hk1 Hk2) as [?|Hp']; [done|]. by rewrite Hp in Hp'. }
    cbn [proceed]. unfold rendered. destruct r as [[]|err].
    + eapply (Hend _ completing []); try done; [by simpl; eapply alter_phase | | by left |].
      * intros key. unfold set_phase. by rewrite <- (cell_for_update _ (fun c => mkCell st' (tail (cell_chain c)))).
      * simpl. split; [by eexists|].
        change (settled e (cell_state (cell_for (correlation_of e)
          (update_cell (correlation_of e) (fun c => mkCell st' (tail (cell_chain c))) s)))).
        rewrite cell_for_update, decide_True by done. by apply Hok.
    + eapply (Hend _ (responded 500) [Replied (ev_eventId e) 500]); try done; [by simpl; eapply alter_phase | | | by right; eauto].
      * intros key. by rewrite <- (cell_for_update _ (fun c => mkCell st' (tail (cell_chain c)))).
      * simpl. by rewrite <- app_assoc.
  - assert (~ settled e st) as Hns by (intros Hs; by destruct (Hset Hs)).
    eapply (books_step corr γ γ' s _ i e (running p) (running (Await q kq)) [Called (ev_eventId e) c ok]); try done.
    + simpl. by eapply alter_phase.
    + simpl. by rewrite Hdd, Hdd0.
    + intros j ej pj Hne Hj Hokj. simpl. rewrite Hd'. by apply Hothers.
    + simpl. rewrite Hd', Hgi. split; [done|]. exists dat'. split; [done|]. right. split_and!; [done | done | by eauto |].
      intros k Hk. by apply Hknown.
    + intros p0 k _ Hk. simpl. rewrite Hdd, Hgi. destruct (Hpend k Hk); [by left | right; by eauto].
    + eapply logged_call; simpl; rewrite ?Hdd; try done; [by left|].
      intros k Hk1 Hk2. destruct (Hrec k Hk1 Hk2) as [?|Hp']; [by left|]. right.
      exists i, e, (Await q kq). rewrite Hgi. split_and!; [|done..].
      erewrite alter_phase by done. apply list_lookup_insert_eq. by eapply lookup_lt_Some.
Qed.
End answer.

Definition is_stopped (x : Entry) : bool := match x with Stopped => true | _ => false end.

Lemma stopped_after (l : list Entry) (i : nat) :
  (exists r, (i < r)%nat /\ l !! r = Some Stopped) \/ forall r, (i < r)%nat -> l !! r <> Some Stopped.
Proof.
  destruct (existsb is_stopped (drop (S i) l)) eqn:E.
  - left. apply existsb_exists in E as (x & Hin & Hx). destruct x; try done.
    apply list_elem_of_In, list_elem_of_lookup in Hin as [n Hn]. rewrite lookup_drop in Hn.
    exists (S i + n). split; [lia | done].
  - right. intros r Hr Hs. assert (existsb is_stopped (drop (S i) l) = true) as Ht; [|congruence].
    apply existsb_exists. exists Stopped. split; [|done]. apply list_elem_of_In, list_elem_of_lookup.
    exists (r - S i). rewrite lookup_drop. by replace (S i + (r - S i)) with r by lia.
Qed.

(** A call that the store does not answer. *)
Definition outside (c : RenderCall) : Prop :=
  match c with get_checkpoints _ | put_checkpoint _ _ => False | _ => True end.

Lemma reply_outside path c env io s : outside c -> reply_to path c env io s = (env c, s).
Proof. by destruct c. Qed.

Lemma once_outside (eventId : string) g c : outside c -> once_allowed eventId g c ->
  pending g = None /\ forall k, effect_key c = Some k -> ~ closed g k.
Proof. by destruct c. Qed.

(** What the answer does to the ghost state. *)
Definition after (c : RenderCall) (r : RenderReply c) (g : Ghost) : Ghost :=
  match effect_key c with
  | Some k => if confirmed c r then close_key k (Some k) g else g
  | None => g
  end.

Lemma once_after c (r : RenderReply c) g : outside c -> once_answered g c r (after c r g).
Proof.
  unfold after. destruct c as [| | | ? ? []| ? ? ? []| | | | | |]; intros Hc; try done; by unfold once_answered.
Qed.

Lemma markCheckpoint_memory path e k io d dat :
  memory d = Some dat -> ~ known dat e k -> 
  memory (DeliveryStore.markCheckpoint path e k io d).2 = Some (add_checkpoint e k dat) /\
  ((DeliveryStore.markCheckpoint path e k io d).1 = Ok tt ->
   disk (DeliveryStore.markCheckpoint path e k io d).2 = Some (JsonText (stored_value (add_checkpoint e k dat)))).
Proof.
  intros Hd Hk. unfold DeliveryStore.markCheckpoint, cbind. rewrite (load_same_data _ _ _ _ Hd).
  unfold data. rewrite Hd. simpl.
  rewrite !bool_decide_eq_false_2 by (intros ?; apply Hk; by (left + right)).
  unfold change, write, data. rewrite Hd. by destruct (written io).
Qed.

Lemma known_add e k dat e' k' :
  known (add_checkpoint e k dat) e' k' -> known dat e' k' \/ e' = e /\ k' = k.
Proof.
  unfold known. rewrite checkpoints_of_add. simpl. case_decide; [|by left; tauto].
  intros [?|[?|?%list_elem_of_singleton]%elem_of_app]; [by left; left | by left; right | by right].
Qed.

Section running.
Context (path : string) (corr : string -> string * string) (γ : nat -> Ghost) (s : Service) (i : nat) (e : OutboundEvent).
Context (env : forall c, RenderReply c) (io : Io) (Hb : books corr γ s).
Context (c : RenderCall) (k : RenderReply c -> prog RenderReply (result string unit * CorrelationState)).
Context (Hi : posts s !! i = Some (mkEventPost e (running (Await c k)))).
#[local] Abbreviation st := (cell_state (cell_for (correlation_of e) s)).
Set Default Proof Using "Type*".

Lemma effect_fresh dat ok :
  memory (delivery s) = Some dat -> pending (γ i) = None ->
  (forall k, effect_key c = Some k -> ~ closed (γ i) k) ->
  (forall k, known dat (ev_eventId e) k -> closed (γ i) k) ->
  fresh_entry (log s) (Called (ev_eventId e) c ok).
Proof.
  intros Hd Hp Hc Hk e' key Hcall. apply entry_call_called in Hcall as [-> Hkey].
  assert (~ known dat (ev_eventId e) key) as Hnk by (intros Hkn; by eapply Hc, Hk).
  assert (data (delivery s) = dat) as Hdat by (unfold data; by rewrite Hd). split.
  - intros n Hn. destruct (stopped_after (log s) n) as [?|Hns]; [done|]. exfalso.
    destruct (bk_recent _ _ _ Hb n _ _ Hn Hns) as [Hkn|(j & ev & p & Hj & He & Hpj)]; [by rewrite Hdat in Hkn|].
    rewrite (running_unique _ _ _ _ _ _ _ _ _ Hb Hj Hi He) in Hpj. by rewrite Hp in Hpj.
  - intros [n Hn]%list_elem_of_lookup. destruct (bk_durable _ _ _ Hb _ _ _ Hn) as (d & Hdisk & Hkn).
    destruct (ok_memory _ (bk_store _ _ _ Hb) _ Hd) as (_ & d0 & Hd0 & Hle).
    rewrite Hdisk in Hd0. injection Hd0 as <-. by apply Hnk, (known_le d).
Qed.

Lemma advance_outside dat :
  outside c -> memory (delivery s) = Some dat ->
  follows e st (γ i) (Await c k) -> ~ settled e st ->
  (forall k, known dat (ev_eventId e) k -> closed (γ i) k /\ pending (γ i) <> Some k) ->
  exists γ', books corr γ' (advance path i env io s).
Proof.
  intros Hout Hd Hfol Hns Hkn. unfold advance. rewrite Hi, reply_outside by done.
  destruct Hfol as [Hall Hans]. destruct (once_outside _ _ _ Hout Hall) as [Hp Hcl].
  replace s with (s <| delivery := delivery s |>) at 1 by (by destruct s).
  eapply (books_answered corr γ s i e _ Hb Hi c (confirmed c (env c)) (delivery s) dat dat (after c (env c) (γ i))); try done.
  - by apply Hans, once_after.
  - intros key _ Hk. destruct (Hkn key Hk) as [Hck Hpk]. unfold after. destruct (effect_key c) as [k0|] eqn:Hkey; [|done].
    destruct (confirmed _ _); [|done]. split; [by left|]. simpl. intros [= ->]. by apply (Hcl key).
  - intros key Hpk. congruence.
  - eapply effect_fresh; try done. intros key Hk. by apply Hkn.
  - intros key Hc Hkey. right. unfold after. by rewrite Hkey, Hc.
  - intros key _ ->. done.
Qed.

Lemma advance_put dat e' key :
  c = put_checkpoint e' key -> memory (delivery s) = Some dat ->
  follows e st (γ i) (Await c k) -> ~ settled e st ->
  (forall k, known dat (ev_eventId e) k -> closed (γ i) k /\ pending (γ i) <> Some k) ->
  exists γ', books corr γ' (advance path i env io s).
Proof.
  intros -> Hd Hfol Hns Hkn. unfold advance. rewrite Hi. cbn [reply_to]. unfold with_store.
  destruct Hfol as [(-> & Hne & Hp) Hans].
  assert (~ known dat (ev_eventId e) key) as Hnk.
  { intros Hk. destruct (Hkn _ Hk) as [Hck Hpk]. destruct Hp as [[_ Hp]|Hp]; [by apply Hp | by apply Hpk]. }
  destruct (bk_events _ _ _ Hb _ _ Hi) as [Hid _].
  destruct (markCheckpoint_memory path (ev_eventId e) key io _ _ Hd Hnk) as [Hd' Hdisk].
  pose proof (markCheckpoint_evolves path (ev_eventId e) key io (delivery s) Hid Hne) as Hevo.
  destruct (DeliveryStore.markCheckpoint path (ev_eventId e) key io (delivery s)) as [r d']. simpl in Hd', Hdisk, Hevo.
  assert (known (add_checkpoint (ev_eventId e) key dat) (ev_eventId e) key) as Hnew.
  { right. rewrite checkpoints_of_add, decide_True by done. apply elem_of_app. right. by apply list_elem_of_singleton. }
  eapply (books_answered corr γ s i e _ Hb Hi (put_checkpoint (ev_eventId e) key) (is_ok r) d' dat
    (add_checkpoint (ev_eventId e) key dat) (close_key key None (γ i))); try done.
  - apply data_le_add.
  - intros e' k' He [?|[? ?]]%known_add; [done|]. by destruct He.
  - by apply Hans.
  - intros k' _ [Hk'|[_ ->]]%known_add; simpl; (split; [|done]); [left; by apply Hkn | by right].
  - intros k' Hp'. left. destruct Hp as [[Hp _]|Hp]; rewrite Hp in Hp'; by simplify_eq.
  - apply entry_quiet. intros e' k' Hcall. by apply entry_call_called in Hcall as [_ ?].
  - intros k' Hr Hk'. simplify_eq. destruct r as [[]|]; [|done]. exists (add_checkpoint (ev_eventId e) k' dat).
    split; [|done]. unfold disk_data. rewrite Hdisk by done. apply parse_stored.
    destruct (ok_memory d') with (d := add_checkpoint (ev_eventId e) k' dat) as [Hwf _]; try done.
    apply Hevo, Hb.
Qed.

End running.

Lemma advance_load path corr γ s i e env io dat :
  books corr γ s ->
  posts s !! i = Some (mkEventPost e (running (render server_options e (cell_state (cell_for (correlation_of e) s))))) ->
  memory (delivery s) = Some dat -> pending (γ i) = None ->
  (ev_eventId e ∈ completed dat -> settled e (cell_state (cell_for (correlation_of e) s))) ->
  exists γ', books corr γ' (advance path i env io s).
Proof.
  intros Hb Hi Hd Hp Hset. unfold advance. rewrite Hi, render_loads. cbn [reply_to]. unfold with_store.
  unfold checkpointsFor, cbind. rewrite (load_same_data _ _ _ _ Hd). unfold data. rewrite Hd.
  set (ks := checkpoints_of (ev_eventId e) (default empty_data (Some dat))).
  eapply (books_answered corr γ s i e _ Hb Hi (get_checkpoints (ev_eventId e)) _ (delivery s) dat dat
    (mkGhost (fun k => k ∈ ks) None)); try done.
  - apply loaded_follows.
  - intros Hs. rewrite loaded_settled by done. by eexists.
  - intros k Hns [Hc|Hk]; [by destruct Hns; apply Hset|]. done.
  - intros k Hk. by rewrite Hp in Hk.
  - apply entry_quiet. intros e' k Hcall. by apply entry_call_called in Hcall as [_ ?].
Qed.

Lemma advance_books path corr γ s i env io : books corr γ s -> exists γ', books corr γ' (advance path i env io s).
Proof.
  intros Hb. destruct (posts s !! i) as [[e ph]|] eqn:Hi; [|unfold advance; rewrite Hi; by exists γ].
  destruct ph as [| |p| | |status].
  - exists γ. by eapply advance_checking.
  - by eapply advance_queued.
  - pose proof (bk_posts _ _ _ Hb _ _ _ Hi) as (_ & dat & Hd & [(Hp & Hpend & Hset)|(Hfol & Hns & (c & k & ->) & Hkn)]).
    + subst p. by eapply advance_load.
    + destruct c eqn:Hc; try (by eapply (advance_outside path corr γ s i e env io Hb _ k Hi dat)); [|].
      * by destruct Hfol as [[] _].
      * by eapply (advance_put path corr γ s i e env io Hb _ k Hi dat).
  - exists γ. by eapply advance_completing.
  - exists γ. by eapply advance_forgetting.
  - unfold advance. rewrite Hi. by exists γ.
Qed.

(** The events posted: an event id belongs to one correlation. *)
Definition arrives (corr : string -> string * string) (op : ServiceOp) : Prop :=
  match op with
  | Arrive e => ev_eventId e <> "" /\ correlation_of e = corr (ev_eventId e)
  | _ => True
  end.

Lemma arrive_books corr γ s e :
  ev_eventId e <> "" -> correlation_of e = corr (ev_eventId e) -> books corr γ s ->
  books corr γ (s <| posts ::= fun l => l ++ [mkEventPost e checking] |>).
Proof.
  intros He Hc [Hst Hev Hpo Hre Hdu Hno Hch]. constructor; simpl; try done.
  - intros i po [Hi|[_ Hi]]%lookup_app_Some; [by eapply Hev|].
    by apply list_lookup_singleton_Some in Hi as [_ <-].
  - intros i ej pj [Hi|[_ Hi]]%lookup_app_Some; [by apply Hpo|].
    apply list_lookup_singleton_Some in Hi as [_ ?]. by simplify_eq.
  - intros i ej k Hi Hs. destruct (Hre i ej k Hi Hs) as [?|(n & ev & p & Hn & Hrest)]; [by left|].
    right. exists n, ev, p. split; [by apply lookup_app_l_Some | done].
Qed.

Lemma stop_books corr γ s : books corr γ s -> books corr γ (mkService (restart (delivery s)) ∅ [] (log s ++ [Stopped])).
Proof.
  intros [Hst Hev Hpo Hre Hdu Hno Hch]. constructor; simpl; try done.
  - by apply restart_evolves.
  - intros i ej k Hi Hs. exfalso. apply call_of_app in Hi as [Hi|[_ Hi]].
    + apply (Hs (length (log s))); [destruct Hi as (c & Hi & _); by eapply lookup_lt_Some|].
      rewrite lookup_app_r, Nat.sub_diag by lia. done.
    + by apply call_of_single in Hi as [_ (? & ? & ? & _)].
  - intros i ej k [Hi|[_ Hi]]%lookup_app_Some; [by eapply Hdu|].
    by apply list_lookup_singleton_Some in Hi as [_ ?].
  - by apply no_repeats_snoc; [apply stopped_quiet|].
  - by apply none_after_snoc; [apply stopped_quiet|].
Qed.

Lemma run_books path corr ops γ s :
  Forall (arrives corr) ops -> books corr γ s -> exists γ', books corr γ' (run (service_step path) s ops).
Proof.
  revert γ s. induction ops as [|op ops IH]; intros γ s Hops Hb; [by exists γ|].
  apply Forall_cons in Hops as [Hop Hops]. rewrite run_cons.
  destruct op as [e|i env io|]; simpl.
  - destruct Hop. eapply (IH γ); [done|]. by apply arrive_books.
  - destruct (advance_books path corr γ s i env io Hb) as [γ' Hb']. by eapply IH.
  - eapply (IH γ); [done|]. by apply stop_books.
Qed.

Lemma boot_books corr file : boots file -> books corr (fun _ => mkGhost (fun _ => False) None) (boot_service file).
Proof.
  intros Hf. constructor; simpl; try done.
  - by apply boots_ok.
  - by intros i e k (c & Hc & _).
  - by intros i j e k ok _ (c & Hc & _).
Qed.

(** C6: Whatever Pumble and the file system answer, however requests interleave and events are posted again: an
    effect of an event that Pumble confirmed is not called again unless the process stopped in between, and never
    again once the write of its checkpoint resolved. *)
Theorem confirmed_effects_not_repeated (path : string) (corr : string -> string * string) (file : option FileText)
    (ops : list ServiceOp) (i j : nat) (e k : string) (c c' : RenderCall) (ok : bool) :
  boots file -> Forall (arrives corr) ops ->
  let l := log (run (service_step path) (boot_service file) ops) in
  (i < j)%nat -> l !! j = Some (Called e c' ok) -> effect_key c' = Some k ->
  (l !! i = Some (Called e c true) -> effect_key c = Some k -> exists r, (i < r < j)%nat /\ l !! r = Some Stopped) /\
  l !! i <> Some (Called e (put_checkpoint e k) true).
Proof.
  intros Hf Hops l Hij Hj Hk'. destruct (run_books path corr ops _ _ Hops (boot_books corr file Hf)) as [γ Hb].
  assert (call_of l j e k ok) as Hcj by (by exists c'). split.
  - intros Hi Hk. eapply (bk_repeats _ _ _ Hb i j); [done | by exists c | done].
  - intros Hi. by eapply (bk_checkpoints _ _ _ Hb i j).
Qed.

(** ** A concrete run *)

Definition sample_target : ResolvedTarget := mkResolved "app" "token" "channel" "message" None false.

(** Pumble and the resolver answer every call. *)
Definition sample_env (c : RenderCall) : RenderReply c :=
  match c return RenderReply c with
  | get_checkpoints _ => Ok []
  | resolver _ _ => Ok (Some sample_target)
  | sendMessage _ _ _ => Ok [("id", VString "m1")]
  | settings_get => mkSettings false false
  | date_now => 0%Z
  | put_checkpoint _ _ | editMessage _ _ _ _ | deleteMessage _ _ | addReaction _ _ | removeReaction _ _
  | sendAttachment _ _ _ => Ok tt
  end.

Definition sample_usage : TurnUsage := mkUsage 0 0 0 0 num_zero.
Definition sample_reply : OutboundEvent := mkEvent "e1" "c" "t" 1 0 (turn_reply "hi" [] sample_usage).

(** The reply is posted; the process stops before its checkpoint is written; core posts the event again. *)
Definition sample_ops : list ServiceOp :=
  let move := Advance 0 sample_env io_ok in
  [Arrive sample_reply; move; move; move; move; move; Stop;
   Arrive sample_reply; move; move; move; move; move].

Lemma confirmed_effects_not_repeated_witness :
  exists r, (2 < r < 6)%nat /\
    log (run (service_step "f") (boot_service None) sample_ops) !! r = Some Stopped.
Proof.
  destruct (confirmed_effects_not_repeated "f" (fun _ => ("c", "t")) None sample_ops 2 6 "e1" "text"
    (sendMessage sample_target "hi" final_text) (sendMessage sample_target "hi" final_text) true) as [H _].
  - intros v Hv. discriminate.
  - repeat constructor; discriminate.
  - lia.
  - vm_compute. reflexivity.
  - reflexivity.
  - apply H; [vm_compute; reflexivity | reflexivity].
Defined.
