(* ===== verification/PumbleReplies.v ===== *)
(** * What a rendering that settles has delivered

    Over the runs of a rendering (Effects.v): one that resolves has posted the
    whole reply; one of a terminal event that rejects ends the correlation all
    the same, so that the event posted again is dropped. *)

From S2P Require Import Prelude RecordUpdate JsValue Contracts Effects PumbleRenderer PumbleEffects PumbleDelivery.
From S2P Require Import PumbleBooks.
From stdpp Require Import pretty.
From stdpp Require Import options.

Definition answer : Type := {c : RenderCall & RenderReply c}.
#[local] Existing Instance history.

(** ** The text and the attachments of a reply *)

Definition text_posted (text : string) (tr : list answer) : Prop :=
  exists target c r, existT c r ∈ tr /\ confirmed c r = true /\
    (c = sendMessage target text final_text \/ exists id, c = editMessage target id text final_text).

Definition attachment_sent (n : nat) (a : WorkspaceAttachment) (tr : list answer) : Prop :=
  exists target r, existT (sendAttachment target n a) r ∈ tr /\ is_ok r = true.

Lemma text_posted_app text g x : text_posted text g -> text_posted text (g ++ x).
Proof. intros (t & c & r & Hin & H). exists t, c, r. split; [apply elem_of_app; by left | done]. Qed.

Lemma attachment_sent_app n a g x : attachment_sent n a g -> attachment_sent n a (g ++ x).
Proof. intros (t & r & Hin & H). exists t, r. split; [apply elem_of_app; by left | done]. Qed.

Section replies.
Context (e : OutboundEvent) (text : string) (files : list WorkspaceAttachment).
Context (st0 : CorrelationState) (known0 : list string).
#[local] Abbreviation M := (async RenderReply Rendering string).

Definition has_text (g : list answer) : Prop :=
  text = "" \/ "text" ∈ known0 \/ finalTextPosted st0 = true \/ text_posted text g.

Definition has_file (g : list answer) (n : nat) (a : WorkspaceAttachment) : Prop :=
  attachment_key n ∈ known0 \/ n ∈ sentAttachmentIndexes st0 \/ attachment_sent n a g.

(** What is noted as sent was sent. *)
Definition noted (g : list answer) (s : Rendering) : Prop :=
  forall n a, files !! n = Some a ->
    attachment_key n ∈ rd_checkpoints s \/ n ∈ sentAttachmentIndexes (rd_state s) -> has_file g n a.

Definition delivering (b : bool) (n : nat) (g : list answer) (s : Rendering) : Prop :=
  noted g s /\ (b = true -> has_text g) /\ forall m a, (m < n)%nat -> files !! m = Some a -> has_file g m a.

Lemma has_file_app g x n a : has_file g n a -> has_file (g ++ x) n a.
Proof. unfold has_file. intros [?|[?|?]]; [by left | by right; left | right; right; by apply attachment_sent_app]. Qed.

Lemma has_text_app g x : has_text g -> has_text (g ++ x).
Proof. unfold has_text. intros [?|[?|[?|?]]]; eauto using text_posted_app. Qed.

Lemma delivering_app b n g x s : delivering b n g s -> delivering b n (g ++ x) s.
Proof.
  intros (Hn & Ht & Hf). split_and!.
  - intros m a Hm Hk. by apply has_file_app, (Hn m a).
  - intros Hb. by apply has_text_app, Ht.
  - intros m a Hm Ha. by apply has_file_app, (Hf m a).
Qed.

(** A method keeps [I] while it does not throw. *)
Definition preserves (I : list answer -> Rendering -> Prop) {X} (m : M X) : Prop :=
  forall g s, I g s -> awp g m s (fun g r s => match r with Ok _ => I g s | Throw _ => True end).

Section preserves.
Context (b : bool) (n : nat).
#[local] Abbreviation I := (delivering b n).

Lemma preserves_ret {X} (x : X) : preserves I (aret x).
Proof. by intros g s Hs. Qed.

Lemma preserves_throw {X} (err : string) : preserves I (athrow err : M X).
Proof. by intros g s Hs. Qed.

Lemma preserves_bind {X Y} (m : M X) (f : X -> M Y) :
  preserves I m -> (forall x, preserves I (f x)) -> preserves I (abind m f).
Proof.
  intros Hm Hf g s Hs. apply awp_bind. eapply awp_mono; [by apply Hm|].
  intros g' [x|err] s' Hs'; [by apply Hf | done].
Qed.

Lemma preserves_reading {Y} (f : Rendering -> M Y) : (forall s, preserves I (f s)) -> preserves I (abind asget f).
Proof. intros Hf g s Hs. apply awp_asget. by apply Hf. Qed.

Lemma preserves_await (c : RenderCall) : preserves I (await c).
Proof. intros g s Hs. apply awp_await; [done|]. intros r g' ->. by apply delivering_app. Qed.

Lemma preserves_call {X} (c : RenderCall) (to : RenderReply c -> result string X) : preserves I (call c to).
Proof.
  apply preserves_bind; [apply preserves_await|]. intros r g s Hs. unfold lift, awp. simpl. by destruct (to r).
Qed.

Lemma preserves_safe {X} (c : RenderCall) (to : RenderReply c -> result string X) : preserves I (safe c to).
Proof. apply preserves_bind; [apply preserves_await | intros r; apply preserves_ret]. Qed.

Lemma preserves_mutate (f : CorrelationState -> CorrelationState) :
  (forall st, sentAttachmentIndexes (f st) = sentAttachmentIndexes st) -> preserves I (mutate f).
Proof.
  intros Hf g s (Hn & Ht & Hfi). split_and!; [|done..]. intros m a Hm Hk. simpl in Hk. rewrite Hf in Hk.
  by apply (Hn m a).
Qed.

(** A checkpoint other than an attachment's. *)
Lemma preserves_mark eventId k :
  (forall n, k <> attachment_key n) -> preserves I (markCheckpoint server_options eventId k).
Proof.
  intros Hk. apply preserves_reading. intros s0. case_bool_decide; [apply preserves_ret|].
  apply preserves_bind; [apply preserves_call|]. intros _ g s (Hn & Ht & Hf). split_and!; [|done..].
  intros m a Hm [Hin|Hin]; [|by apply (Hn m a); [|right]]. apply (Hn m a); [done|]. left.
  simpl in Hin. unfold set_add in Hin. case_bool_decide; [done|].
  apply elem_of_app in Hin as [?|Hin]; [done|]. apply list_elem_of_singleton in Hin. by destruct (Hk m).
Qed.

Lemma drop_interim_preserves target : preserves I (drop_interim target).
Proof.
  apply preserves_reading. intros s. destruct (interimMessageId _); [|apply preserves_ret].
  apply preserves_bind; [apply preserves_safe | by intros _; apply preserves_mutate].
Qed.

Lemma notify_preserves target eventId k t :
  (forall n, k <> attachment_key n) -> preserves I (notify server_options target eventId k t).
Proof.
  intros Hk. apply preserves_reading. intros s. case_bool_decide; [apply preserves_ret|].
  apply preserves_bind; [apply preserves_safe|]. intros []; [by apply preserves_mark | apply preserves_ret].
Qed.
End preserves.

Lemma text_posted_last g c (r : RenderReply c) target :
  confirmed c r = true -> c = sendMessage target text final_text \/ (exists id, c = editMessage target id text final_text) ->
  text_posted text (g ++ [existT c r]).
Proof.
  intros Hr Hc. exists target, c, r. split; [|done]. apply elem_of_app. right. by apply list_elem_of_singleton.
Qed.

Lemma delivering_text n g s : delivering false n g s -> has_text g -> delivering true n g s.
Proof. by intros (? & _ & ?) ?. Qed.

Lemma deliverFinalText_posts target n g s :
  delivering false n g s ->
  awp g (deliverFinalText target text) s (fun g r s => match r with Ok _ => delivering true n g s | Throw _ => True end).
Proof.
  intros Hs.
  assert (forall g, delivering false n g s ->
    awp g (call (sendMessage target text final_text) (fun r => _ <-! r; Ok tt)) s
      (fun g r s => match r with Ok _ => delivering true n g s | Throw _ => True end)) as Hsend.
  { intros g' Hs'. apply awp_bind, awp_await; [done|]. intros r g2 ->. unfold lift, awp. simpl.
    destruct r; simpl; [|done]. apply delivering_text; [by apply delivering_app|].
    right. right. right. eapply text_posted_last; [done | by left]. }
  apply awp_asget, awp_bind. destruct (interimMessageId _) as [id|]; [|by apply Hsend].
  apply awp_bind, awp_await; [done|]. intros r g2 ->. unfold awp at 1. simpl. destruct r; simpl.
  - apply delivering_text; [by apply delivering_app|]. right. right. right.
    eapply text_posted_last; [done | right; by eexists].
  - apply Hsend. by apply delivering_app.
Qed.

Lemma text_key n : "text" <> attachment_key n.
Proof. discriminate. Qed.

Lemma deliver_reply_text_posts target n g s :
  rd_checkpoints s = known0 -> finalTextPosted (rd_state s) = finalTextPosted st0 -> delivering false n g s ->
  awp g (deliver_reply_text server_options target e text) s
    (fun g r s => match r with Ok _ => delivering true n g s | Throw _ => True end).
Proof.
  intros Hk Hf Hs. apply awp_asget. rewrite Hk, Hf. case_bool_decide.
  { apply preserves_mutate; [done|]. apply delivering_text; [done|]. right. by left. }
  destruct (finalTextPosted st0) eqn:E.
  { apply preserves_mark; [apply text_key|]. apply delivering_text; [done|]. right. right. by left. }
  apply awp_bind. eapply awp_mono; [by apply deliverFinalText_posts|]. intros g' [[]|err] s' Hs'; [|done].
  apply preserves_bind; [| |exact Hs']; [by apply preserves_mutate | intros _; apply preserves_mark, text_key].
Qed.

(** ** Attachments *)

#[local] Instance attachment_key_inj : Inj (=) (=) attachment_key.
Proof. intros n m H. unfold attachment_key in H. apply append_inj_l in H. by apply (inj pretty) in H. Qed.

(** An attachment that was sent is noted, in memory and as a checkpoint. *)
Lemma note_sent b n m a g s :
  files !! m = Some a -> has_file g m a -> delivering b n g s ->
  delivering b n g (s <| rd_state ::= fun st => st <| sentAttachmentIndexes ::= set_add m |> |>).
Proof.
  intros Hm Hf (Hn & Ht & Hfs). split_and!; [|done..]. intros m' a' Hm' Hk. simpl in Hk.
  destruct (decide (m' = m)) as [->|Hne]; [by simplify_eq|]. apply (Hn m' a'); [done|].
  destruct Hk as [?|Hk]; [by left|]. right. unfold set_add in Hk. case_bool_decide; [done|].
  apply elem_of_app in Hk as [?|?%list_elem_of_singleton]; done.
Qed.

Lemma mark_sent b n m a eventId g s :
  files !! m = Some a -> has_file g m a -> delivering b n g s ->
  awp g (markCheckpoint server_options eventId (attachment_key m)) s
    (fun g r s => match r with Ok _ => delivering b n g s /\ has_file g m a | Throw _ => True end).
Proof.
  intros Hm Hf Hs. apply awp_asget. case_bool_decide; [by split|]. apply awp_bind.
  eapply awp_mono with (Q := fun g r s' => match r with Ok _ => delivering b n g s' /\ has_file g m a | Throw _ => True end).
  - apply awp_bind, awp_await; [done|]. intros r g2 ->. unfold lift, awp. simpl. destruct r; simpl; [|done].
    split; [by apply delivering_app | by apply has_file_app].
  - intros g' [[]|err] s' Hs'; [|done]. destruct Hs' as ((Hn & Ht & Hfs) & Hf'). unfold awp, amodify. simpl.
    split; [|done]. split_and!; [|done..]. intros m' a' Hm' Hk. simpl in Hk.
    destruct (decide (m' = m)) as [->|Hne]; [by simplify_eq|]. apply (Hn m' a'); [done|].
    destruct Hk as [Hk|?]; [|by right]. left. unfold set_add in Hk. case_bool_decide; [done|].
    apply elem_of_app in Hk as [?|Hk%list_elem_of_singleton]; [done|]. by apply (inj attachment_key) in Hk.
Qed.

Lemma deliver_attachment_sends b target eventId n a g s :
  files !! n = Some a -> delivering b n g s ->
  awp g (deliver_attachment server_options target eventId (n, a)) s
    (fun g r s => match r with Ok _ => delivering b (S n) g s | Throw _ => True end).
Proof.
  intros Hn Hs.
  assert (forall g s, delivering b n g s /\ has_file g n a -> delivering b (S n) g s) as Hnext.
  { intros g' s' ((Hno & Ht & Hf) & Hfile). split_and!; [done..|]. intros m a' Hm Ha.
    destruct (decide (m = n)) as [->|?]; [by simplify_eq | apply Hf; [lia | done]]. }
  apply awp_asget. case_bool_decide.
  { assert (has_file g n a) as Hf by (by apply (proj1 Hs n a); [|left]).
    apply (Hnext g (s <| rd_state ::= fun st => st <| sentAttachmentIndexes ::= set_add n |> |>)).
    split; [by apply (note_sent b n n a) | done]. }
  case_bool_decide.
  { eapply awp_mono; [apply (mark_sent b n); [done | by apply (proj1 Hs n a); [|right] | done]|].
    intros g' [[]|err] s' Hs'; [by apply Hnext | done]. }
  apply awp_bind, awp_catch, awp_bind, awp_await; [done|]. intros r g2 ->. unfold lift, awp at 1. simpl.
  destruct r as [[]|err]; simpl.
  - assert (has_file (g ++ [existT (sendAttachment target n a) (Ok tt)]) n a) as Hf.
    { right. right. exists target, (Ok tt). split; [|done]. apply elem_of_app. right. by apply list_elem_of_singleton. }
    apply awp_bind. unfold awp at 1. simpl.
    eapply awp_mono; [apply (mark_sent b n); [done | done |]|].
    + eapply note_sent; [done | done | by apply delivering_app].
    + intros g' [[]|err] s' Hs'; [by apply Hnext | done].
  - apply awp_bind. eapply awp_mono; [apply (notify_preserves b n); [discriminate | by apply delivering_app]|].
    by intros g' [[]|err'] s' Hs'.
Qed.

Lemma each_sends b target eventId l n g s :
  (forall j, l !! j = files !! (n + j)) -> delivering b n g s ->
  awp g (aeach (deliver_attachment server_options target eventId) (zip (seq n (length l)) l)) s
    (fun g r s => match r with Ok _ => delivering b (n + length l) g s | Throw _ => True end).
Proof.
  revert n g s. induction l as [|a l IH]; intros n g s Hl Hs; simpl.
  { by rewrite Nat.add_0_r. }
  apply awp_bind. eapply awp_mono; [apply (deliver_attachment_sends b _ _ n a); [|done]|].
  { specialize (Hl 0). rewrite Nat.add_0_r in Hl. by rewrite <- Hl. }
  intros g' [[]|err] s' Hs'; [|done]. rewrite Nat.add_succ_r. apply (IH (S n)); [|done].
  intros j. specialize (Hl (S j)). simpl in Hl. by rewrite Hl, Nat.add_succ_r.
Qed.

Lemma onReply_delivers g s :
  rd_checkpoints s = known0 -> rd_state s = st0 ->
  awp g (onReply server_options e text files) s
    (fun g r s => match r with Ok _ => delivering true (length files) g s | Throw _ => True end).
Proof.
  intros Hk Hst.
  assert (delivering false 0 g s) as Hs.
  { split_and!; [|done|intros m a Hm; lia]. intros n a _ [Hin|Hin]; [left; by rewrite <- Hk | right; left; by rewrite <- Hst]. }
  apply awp_bind, awp_bind, awp_bind, awp_await; [done|]. intros r g2 ->. unfold lift, awp at 1. simpl.
  unfold awp at 1. destruct r as [[target|]|err]; simpl; [|done..].
  apply (delivering_app _ _ _ [existT (resolver (ev_conversationKey e) (ev_correlationId e)) (Ok (Some target))]) in Hs.
  apply awp_bind.
  eapply awp_mono with (Q := fun g r s => match r with Ok _ => delivering true 0 g s | Throw _ => True end).
  - destruct (is_empty text) eqn:E.
    + apply drop_interim_preserves. apply delivering_text; [done|]. left. by apply is_empty_spec.
    + apply deliver_reply_text_posts; [done | by rewrite Hst | done].
  - intros g' [[]|err] s' Hs'; [|done]. unfold deliverAttachments. destruct files as [|a l] eqn:El; [done|].
    rewrite <- El in *. apply (each_sends true _ _ files 0); [done | done].
Qed.

(** The reactions that are cleared afterwards undo nothing. *)
Lemma apply_delivers g s usage :
  ev_body e = turn_reply text files usage -> ~ settled e st0 -> rd_checkpoints s = known0 -> rd_state s = st0 ->
  awp g (apply_event server_options e) s (fun g r s =>
    r = Ok tt -> has_text g /\ forall n a, files !! n = Some a -> has_file g n a).
Proof.
  intros Hbody Hns Hk Hst. apply awp_asget. rewrite Hst.
  rewrite bool_decide_eq_false_2 by (intros ?; apply Hns; by left).
  destruct (terminal st0) eqn:Ht; [destruct Hns; by right|].
  apply awp_bind, awp_finally. unfold dispatch at 1. rewrite Hbody.
  eapply awp_mono; [by apply onReply_delivers|]. intros g1 r1 s1 Hr1.
  set (I := fun g => r1 = Ok tt -> has_text g /\ forall n a, files !! n = Some a -> has_file g n a).
  assert (I g1) as HI.
  { intros ->. destruct Hr1 as (_ & Htx & Hf). split; [by apply Htx|]. intros n a Hn. apply (Hf n a); [|done].
    by eapply lookup_lt_Some. }
  eapply awp_mono with (Q := fun g _ _ => I g).
  - apply (wp_extends _ g1 I); [|done]. intros g' x Hg' Hr. destruct (Hg' Hr) as [Htx Hf].
    split; [by apply has_text_app | intros n a Hn; by apply has_file_app, Hf].
  - intros g2 [[]|err] s2 Hg2; [|done]. destruct r1 as [[]|]; [|done]. unfold awp, mutate, amodify. simpl. auto.
Qed.
End replies.

(** ** Runs of a rendering *)

(** The checkpoints an answer brings. *)
Definition checkpoints_answer (x : answer) : option (result string (list string)) :=
  let 'existT c r := x in
  match c return RenderReply c -> option (result string (list string)) with
  | get_checkpoints _ => fun r => Some r
  | _ => fun _ => None
  end r.

Lemma render_runs e st known tr rs :
  runs (render server_options e st) (existT (get_checkpoints (ev_eventId e)) (Ok known) :: tr) rs ->
  runs (loaded e st known) tr rs.
Proof.
  rewrite render_loads. intros (r & tr' & Heq & Hr). pose proof (f_equal tail Heq) as Htl.
  apply (f_equal (fun l => head l ≫= checkpoints_answer)) in Heq. simpl in *. by simplify_eq.
Qed.

Lemma once_total g c (r : RenderReply c) : exists g', once_answered g c r g'.
Proof.
  unfold once_answered. destruct c; try (by eexists); by destruct (effect_key _); eexists.
Qed.

(** C7: A rendering of a reply that resolves, once its checkpoints are loaded, either found the event seen or
    its turn over, and then called nothing and changed nothing, or has posted the text and sent every
    attachment, or found them recorded as delivered. *)
Theorem resolved_reply_is_delivered (e : OutboundEvent) (text : string) (files : list WorkspaceAttachment)
    (usage : TurnUsage) (st st' : CorrelationState) (known : list string) (tr : list answer) :
  ev_body e = turn_reply text files usage ->
  runs (render server_options e st) (existT (get_checkpoints (ev_eventId e)) (Ok known) :: tr) (Ok tt, st') ->
  (settled e st /\ tr = [] /\ st' = st) \/
  (~ settled e st /\
   (text = "" \/ "text" ∈ known \/ finalTextPosted st = true \/ text_posted text tr) /\
   forall n a, files !! n = Some a ->
     attachment_key n ∈ known \/ n ∈ sentAttachmentIndexes st \/ attachment_sent n a tr).
Proof.
  intros Hbody Hr%render_runs. destruct (decide (settled e st)) as [Hset|Hns].
  { left. rewrite loaded_settled in Hr by done. destruct Hr as [-> ?]. by simplify_eq. }
  right. split; [done|]. revert Hr. unfold loaded. intros Hr.
  assert (wp [] (loaded e st known) (fun g rs => rs.1 = Ok tt ->
    has_text text st known g /\ forall n a, files !! n = Some a -> has_file st known g n a)) as Hwp.
  { apply wp_pbind. eapply wp_mono; [|by apply (apply_delivers e text files st known [] (mkRendering st known) usage)].
    intros g [r s]. done. }
  by apply (wp_history _ _ _ _ _ Hwp Hr).
Qed.

(** C8: When the rendering of a terminal event rejects once its checkpoints are loaded, the event posted again is
    dropped: its rendering resolves and calls nothing but the load of the checkpoints, so core is told that a
    reply was shown that was not. *)
Theorem failed_terminal_event_is_dropped (e : OutboundEvent) (st st' st2 : CorrelationState)
    (known known' : list string) (tr tr' : list answer) (err : string) (r : result string unit) :
  isTerminalEvent e = true ->
  runs (render server_options e st) (existT (get_checkpoints (ev_eventId e)) (Ok known) :: tr) (Throw err, st') ->
  runs (render server_options e st') (existT (get_checkpoints (ev_eventId e)) (Ok known') :: tr') (r, st2) ->
  tr' = [] /\ r = Ok tt /\ st2 = st'.
Proof.
  intros Ht Hr1%render_runs Hr2%render_runs.
  assert (settled e st') as Hset.
  { destruct (decide (settled e st)) as [Hs|Hs].
    - rewrite loaded_settled in Hr1 by done. by destruct Hr1 as [_ ?].
    - assert ((ev_eventId e ∉ seen st) /\ terminal st = false) as [Hseen Hterm].
      { split; [intros ?; apply Hs; by left|]. destruct (terminal st) eqn:E; [|done]. destruct Hs. by right. }
      right. enough (exists g : Ghost, terminal st' = true) as [_ H] by done.
      eapply (@wp_runs _ _ _ (once (ev_eventId e)) _ (loaded e st known) (mkGhost (fun _ => False) None)
        (fun _ rs => terminal rs.2 = true) tr (Throw err, st')); [| |exact Hr1].
      + apply once_total.
      + apply wp_pbind. eapply wp_mono; [|by apply (apply_spec (ev_eventId e) st)].
        intros g [r1 s1] (_ & _ & Hterm'). simpl in *. congruence. }
  rewrite loaded_settled in Hr2 by done. destruct Hr2 as [-> ?]. by simplify_eq.
Qed.

(** ** Concrete runs *)

Definition sample_files : list WorkspaceAttachment := [mkAttachment "out/a.txt" None None].
Definition sample_answer : OutboundEvent := mkEvent "e2" "c" "t" 1 0 (turn_reply "hi" sample_files sample_usage).

(** Pumble rejects messages. *)
Definition sample_down (c : RenderCall) : RenderReply c :=
  match c return RenderReply c with
  | sendMessage _ _ _ => Throw "503"
  | c => sample_env c
  end.

Lemma resolved_reply_is_delivered_witness :
  let d := drive sample_env (render server_options sample_answer fresh_state) in
  ("hi" = "" \/ "text" ∈ [] \/ finalTextPosted fresh_state = true \/ text_posted "hi" (tail d.1)) /\
  forall n a, sample_files !! n = Some a ->
    attachment_key n ∈ [] \/ n ∈ sentAttachmentIndexes fresh_state \/ attachment_sent n a (tail d.1).
Proof.
  intros d.
  destruct (resolved_reply_is_delivered sample_answer "hi" sample_files sample_usage fresh_state d.2.2 []
    (tail d.1)) as [[Hset _]|[_ H]].
  - reflexivity.
  - exact (runs_drive sample_env (render server_options sample_answer fresh_state)).
  - destruct Hset as [H|H]; [by apply not_elem_of_nil in H | discriminate].
  - exact H.
Defined.

Lemma failed_terminal_event_is_dropped_witness :
  let d := drive sample_down (render server_options sample_answer fresh_state) in
  let d' := drive sample_env (render server_options sample_answer d.2.2) in
  d.2.1 = Throw "503" /\ tail d'.1 = [] /\ d'.2.1 = Ok tt /\ d'.2.2 = d.2.2.
Proof.
  intros d d'. split; [vm_compute; reflexivity|].
  apply (failed_terminal_event_is_dropped sample_answer fresh_state d.2.2 d'.2.2 [] [] (tail d.1) (tail d'.1) "503").
  - reflexivity.
  - exact (runs_drive sample_down (render server_options sample_answer fresh_state)).
  - exact (runs_drive sample_env (render server_options sample_answer d.2.2)).
Defined.
