(* ===== verification/Disk.v ===== *)
(** * Paths and the file system

    What packages/cli uses of node:path and node:fs/promises on a POSIX host.
    A path is the list of its components, the last one first, so that
    [path.dirname] is [tail] and "below" is [suffix]; [[]] is the root "/".
    Paths are normal, as [path.resolve] leaves them: a component is a name, and
    only the target of a symbolic link has a "..".
    A file system is the node at each physical path.  A call resolves every
    component but the last through the symbolic links it meets ([locate]), may
    be refused by the host ([Fault]: permissions, a full disk, an I/O error),
    and leaves behind what it had done by then.  No other process changes the
    tree during a call sequence. *)

From S2P Require Import Prelude RecordUpdate JsString.
From stdpp Require Import options.

(** ** node:path *)

Definition path : Type := list string.

(** [dirname]: that of "/" is "/". *)
Definition dirname (p : path) : path := tail p.

(** The string of an absolute path. *)
Definition path_string (p : path) : string :=
  match p with [] => "/" | _ => ("/" +:+ join "/" (rev p))%stdpp end.

Definition is_absolute (s : string) : bool := starts_with "/" s.

(** Appends components to a path, as [resolve] reads them. *)
Fixpoint extend (p : path) (cs : list string) : path :=
  match cs with
  | [] => p
  | c :: cs =>
      if String.eqb c "" || String.eqb c "." then extend p cs
      else if String.eqb c ".." then extend (tail p) cs
      else extend (c :: p) cs
  end.

Definition slash : Ascii.ascii := Ascii.ascii_of_nat 47.

(** [resolve(base, s)] *)
Definition resolve_path (base : path) (s : string) : path :=
  extend (if is_absolute s then [] else base) (split_on slash s).

(** [relative(from, to)], as its components. *)
Fixpoint relative_components (from to : list string) : list string :=
  match from, to with
  | a :: from', b :: to' =>
      if String.eqb a b then relative_components from' to' else repeat ".." (length from) ++ to
  | _, _ => repeat ".." (length from) ++ to
  end.

Definition relative (from to : path) : list string := relative_components (rev from) (rev to).

(** [relative(root, p)] is ".." or starts with "../". *)
Definition escapes (root p : path) : bool :=
  match relative root p with c :: _ => String.eqb c ".." | [] => false end.

(** [join(to, relative(from, p))] for a [p] that is [from] or below it. *)
Definition rebase (from to p : path) : path := take (length p - length from) p ++ to.

(** ** The file system *)

Inductive Step : Type := Name (c : string) | Up.

Inductive Node : Type :=
| File (content : list N) (mode : Z)
| Directory
| Symlink (absolute : bool) (target : list Step).

#[export] Instance Step_eq_dec : EqDecision Step.
Proof. solve_decision. Defined.

#[export] Instance Node_eq_dec : EqDecision Node.
Proof. solve_decision. Defined.

Definition tree : Type := path -> option Node.

Inductive Errno : Type :=
| ENOENT | ENOTDIR | EEXIST | ELOOP | EINVAL | EISDIR | ENOTEMPTY
| ERR_FS_EISDIR
| Refused (code : string).   (** EACCES, EIO, ENOSPC, ... *)

#[export] Instance Errno_eq_dec : EqDecision Errno.
Proof. solve_decision. Defined.

(** The host refuses a call: the error, how many directories or bytes (plus
    one, for the empty file itself) it had made, and which nodes it had removed
    with all that is below them. *)
Record Fault := mkFault { code : string; made : nat; lost : path -> bool }.

Definition errno (e : Fault) : Errno := Refused (code e).

Definition set_node (p : path) (n : option Node) (t : tree) : tree :=
  fun q => if decide (q = p) then n else t q.

(** Everything at and below [p] is gone. *)
Definition prune (p : path) (t : tree) : tree :=
  fun q => if decide (p `suffix_of` q) then None else t q.

(** The subtree [from] is now at [to]. *)
Definition graft (from to : path) (t : tree) : tree :=
  fun q => if decide (to `suffix_of` q) then t (rebase to from q)
           else if decide (from `suffix_of` q) then None else t q.

(** Follows the components [todo] from the directory [cur], through at most
    [links] symbolic links. *)
Fixpoint walk (links : nat) (t : tree) : path -> list Step -> result Errno path :=
  fix go cur todo :=
    match todo with
    | [] => Ok cur
    | Up :: todo => go (tail cur) todo
    | Name c :: todo =>
        match t (c :: cur) with
        | None => Throw ENOENT
        | Some Directory => go (c :: cur) todo
        | Some (File _ _) => match todo with [] => Ok (c :: cur) | _ => Throw ENOTDIR end
        | Some (Symlink absolute target) =>
            match links with
            | O => Throw ELOOP
            | S links => walk links t (if absolute then [] else cur) (target ++ todo)
            end
        end
    end.

(** Linux gives up after 40 links. *)
Definition max_links : nat := 40.

Definition follow (t : tree) (cur : path) (todo : list Step) : result Errno path :=
  walk max_links t cur todo.
#[global] Arguments follow : simpl never.

Definition real (t : tree) (p : path) : result Errno path := follow t [] (Name <$> rev p).
#[global] Arguments real : simpl never.

(** The physical path a call on [p] acts on: its parent, resolved, and its last
    component, which is not followed. *)
Definition locate (t : tree) (p : path) : result Errno path :=
  match p with
  | [] => Ok []
  | c :: d => match real t d with
              | Ok r => match t r with Some Directory => Ok (c :: r) | _ => Throw ENOTDIR end
              | Throw e => Throw e
              end
  end.

Definition node_at (t : tree) (p : path) : result Errno Node :=
  q <-! locate t p ;
  match t q with Some n => Ok n | None => Throw ENOENT end.

(** ** Calls

    Each returns its outcome and the tree it leaves. *)

Definition call (A : Type) : Type := option Fault -> tree -> result Errno A * tree.

(** A call that only reads, or that has done nothing when it is refused. *)
Definition simple {A} (f : tree -> result Errno (A * tree)) : call A := fun fault t =>
  match fault with
  | Some e => (Throw (errno e), t)
  | None => match f t with Ok (a, t') => (Ok a, t') | Throw e => (Throw e, t) end
  end.

Definition lstat_call (p : path) : call Node := simple (fun t => n <-! node_at t p ; Ok (n, t)).

Definition realpath_call (p : path) : call path := simple (fun t => q <-! real t p ; Ok (q, t)).

Definition access_call (p : path) : call unit := simple (fun t => _ <-! real t p ; Ok (tt, t)).

(** [chmod] follows a link. *)
Definition chmod_call (p : path) (mode : Z) : call unit := simple (fun t =>
  q <-! real t p ;
  Ok (tt, match t q with
          | Some (File content _) => set_node q (Some (File content mode)) t
          | _ => t
          end)).

Definition is_directory (n : option Node) : bool :=
  match n with Some Directory => true | _ => false end.

(** [rename(2)].  A destination that exists is replaced when it is no
    directory; the code renames to a directory nowhere, so that the call is
    refused for an empty one too. *)
Definition rename_tree (p q : path) (t : tree) : result Errno tree :=
  match t p, p, q with
  | None, _, _ => Throw ENOENT
  | Some _, [], _ | Some _, _, [] => Throw EINVAL
  | Some n, _, _ =>
      if decide (q = p) then Ok t
      else if decide (p `suffix_of` q) then Throw EINVAL
      else match t q with
           | None => Ok (graft p q t)
           | Some Directory => Throw ENOTEMPTY
           | Some _ => if is_directory (Some n) then Throw ENOTDIR else Ok (graft p q t)
           end
  end.

Definition rename_call (from to : path) : call unit := simple (fun t =>
  p <-! locate t from ; q <-! locate t to ; t' <-! rename_tree p q t ; Ok (tt, t')).

Definition link_call (from to : path) : call unit := simple (fun t =>
  p <-! locate t from ; q <-! locate t to ;
  match t p, t q with
  | None, _ => Throw ENOENT
  | Some Directory, _ => Throw (Refused "EPERM")
  | Some _, Some _ => Throw EEXIST
  | Some n, None => Ok (tt, set_node q (Some n) t)
  end).

Definition unlink_call (p : path) : call unit := simple (fun t =>
  q <-! locate t p ;
  match t q with
  | None => Throw ENOENT
  | Some Directory => Throw EISDIR
  | Some _ => Ok (tt, set_node q None t)
  end).

(** [r], or what it is below, is lost. *)
Fixpoint lost_with (e : Fault) (q r : path) : bool :=
  bool_decide (q `suffix_of` r) && (lost e r || match r with [] => false | _ :: up => lost_with e q up end).

(** [rm(p, { recursive, force: false })]: without [recursive] a directory is
    refused, empty or not. *)
Definition rm_call (p : path) (recursive : bool) : call unit := fun fault t =>
  match locate t p with
  | Throw e => (Throw e, t)
  | Ok [] => (Throw (Refused "EBUSY"), t)
  | Ok q =>
      match fault, t q with
      | Some e, _ =>
          (Throw (errno e),
           if recursive then fun r => if lost_with e q r then None else t r else t)
      | None, None => (Throw ENOENT, t)
      | None, Some Directory =>
          if recursive then (Ok tt, prune q t) else (Throw ERR_FS_EISDIR, t)
      | None, Some _ => (Ok tt, set_node q None t)
      end
  end.

(** [writeFile(p, content, { flag: "wx", mode })]; [mode] is what is left of it
    under the umask. *)
Definition writeFile_call (p : path) (content : list N) (mode : Z) : call unit := fun fault t =>
  match locate t p with
  | Throw e => (Throw e, t)
  | Ok q =>
      match t q, fault with
      | Some _, _ => (Throw EEXIST, t)
      | None, None => (Ok tt, set_node q (Some (File content mode)) t)
      | None, Some e =>
          (Throw (errno e),
           match made e with
           | O => t
           | S n => set_node q (Some (File (take n content) mode)) t
           end)
      end
  end.

(** The directories [todo] below [cur], each made when it is missing. *)
Fixpoint make_directories (fault : option Fault) (cur : path) (todo : list string) (t : tree)
  : result Errno unit * tree :=
  match todo with
  | [] => (Ok tt, t)
  | c :: todo =>
      match t (c :: cur) with
      | None =>
          match fault with
          | Some (mkFault e O _) => (Throw (Refused e), t)
          | Some (mkFault e (S n) l) =>
              make_directories (Some (mkFault e n l)) (c :: cur) todo
                (set_node (c :: cur) (Some Directory) t)
          | None => make_directories None (c :: cur) todo (set_node (c :: cur) (Some Directory) t)
          end
      | Some Directory => make_directories fault (c :: cur) todo t
      | Some (File _ _) => (Throw (match todo with [] => EEXIST | _ => ENOTDIR end), t)
      | Some (Symlink absolute target) =>
          match follow t (if absolute then [] else cur) target with
          | Ok r => if is_directory (t r) then make_directories fault r todo t else (Throw EEXIST, t)
          | Throw _ => (Throw EEXIST, t)
          end
      end
  end.

(** [mkdir(p, { recursive: true })]: a fault that comes after the last
    directory is one too. *)
Definition mkdirp_call (p : path) : call unit := fun fault t =>
  let '(r, t') := make_directories fault [] (rev p) t in
  (match r, fault with Ok _, Some e => Throw (errno e) | _, _ => r end, t').

(** ** Paths without links

    [clean t p]: no component of [p] is a symbolic link. *)

Definition is_link (n : option Node) : bool := match n with Some (Symlink _ _) => true | _ => false end.

Definition clean (t : tree) (p : path) : Prop := forall q, q `suffix_of` p -> is_link (t q) = false.

Lemma below_cons c (p q : path) : q `suffix_of` c :: p <-> q = c :: p \/ q `suffix_of` p.
Proof.
  split.
  - intros [[|x k] Hk]; simplify_eq/=; [by left|]. right. by exists k.
  - intros [->|H]; [done|]. by apply suffix_cons_r.
Qed.

Lemma clean_suffix t p q : q `suffix_of` p -> clean t p -> clean t q.
Proof. intros Hq Hp r Hr. apply Hp. by etrans. Qed.

Lemma clean_tail t c p : clean t (c :: p) -> clean t p.
Proof. apply clean_suffix. by apply suffix_cons_r. Qed.

Lemma clean_dirname t p : clean t p -> clean t (dirname p).
Proof. destruct p; [done|]. apply clean_tail. Qed.

Lemma clean_cons t c p : clean t p -> is_link (t (c :: p)) = false -> clean t (c :: p).
Proof. intros Hp Hc q [->|Hq]%below_cons; auto. Qed.

Lemma walk_clean links t cs cur q :
  clean t (rev cs ++ cur) -> walk links t cur (Name <$> cs) = Ok q -> q = rev cs ++ cur.
Proof.
  revert cur. induction cs as [|c cs IH]; intros cur Hc.
  - destruct links; simpl; by intros [= ->].
  - simpl in Hc |- *. rewrite <- app_assoc in Hc |- *. simpl in Hc |- *.
    assert (is_link (t (c :: cur)) = false) as Hl by (apply Hc; by exists (rev cs)).
    specialize (IH (c :: cur) Hc).
    destruct links; simpl; destruct (t (c :: cur)) as [[| |]|]; simplify_eq/=; try done;
      destruct cs; naive_solver.
Qed.

Lemma real_clean t p q : clean t p -> real t p = Ok q -> q = p.
Proof.
  intros Hc Hq. assert (rev (rev p) ++ [] = p) as Hp by (rewrite rev_involutive; apply app_nil_r).
  rewrite <- Hp. eapply walk_clean; [by rewrite Hp|done].
Qed.

Lemma locate_clean t p q : clean t (dirname p) -> locate t p = Ok q -> q = p.
Proof.
  destruct p as [|c d]; simpl; [by intros _ [= ->]|].
  intros Hd. destruct (real t d) as [r|] eqn:Hr; [|done].
  apply (real_clean _ _ _ Hd) in Hr as ->.
  destruct (t d) as [[| |]|]; by intros [= ->].
Qed.

(** ** Well-formed trees

    There is a root, and what is there is in a directory. *)

Record wf (t : tree) : Prop := mkWf {
  wf_root : t [] = Some Directory;
  wf_parent : forall c p, t (c :: p) <> None -> t p = Some Directory;
}.

Lemma wf_above t p q : wf t -> t p <> None -> q `suffix_of` p -> q <> p -> t q = Some Directory.
Proof.
  intros Hwf. induction p as [|c p IH]; intros Hp Hq Hne.
  - by apply suffix_nil_inv in Hq.
  - apply below_cons in Hq as [->|Hq]; [done|].
    assert (t p = Some Directory) as Hd by eauto using wf_parent.
    destruct (decide (q = p)) as [->|]; [done|]. apply IH; by rewrite ?Hd.
Qed.

Lemma wf_below t p q : wf t -> t p = None -> p `suffix_of` q -> t q = None.
Proof.
  intros Hwf Hp Hq. destruct (t q) eqn:Ht; [|done]. exfalso.
  destruct (decide (p = q)) as [->|Hne]; [by rewrite Hp in Ht|].
  assert (t p = Some Directory) by (eapply (wf_above t q); [done|by rewrite Ht|done|done]).
  congruence.
Qed.

Lemma walk_real links t cs cur :
  t cur <> None -> (forall q, q `suffix_of` rev cs ++ cur -> cur `suffix_of` q -> q <> rev cs ++ cur -> t q = Some Directory) ->
  is_link (t (rev cs ++ cur)) = false -> t (rev cs ++ cur) <> None ->
  walk links t cur (Name <$> cs) = Ok (rev cs ++ cur).
Proof.
  revert cur. induction cs as [|c cs IH]; intros cur Hcur Hd Hl He; [by destruct links|].
  simpl in *. rewrite <- app_assoc in *. simpl in *.
  destruct (decide (cs = [])) as [->|Hcs].
  { destruct links; simpl in *; by destruct (t (c :: cur)) as [[| |]|]. }
  assert (t (c :: cur) = Some Directory) as Hc.
  { apply Hd; [by exists (rev cs)|by apply suffix_cons_r|].
    intros Heq%(f_equal length). rewrite length_app, length_rev in Heq. simpl in Heq.
    destruct cs; simpl in *; [done|lia]. }
  specialize (IH (c :: cur)). rewrite Hc in IH.
  destruct links; simpl; rewrite Hc; apply IH; try done;
    intros q H1 H2; apply Hd; try done; by etrans; [|apply H2]; apply suffix_cons_r.
Qed.

Lemma real_wf t p : wf t -> t p <> None -> is_link (t p) = false -> real t p = Ok p.
Proof.
  intros Hwf Hp Hl. assert (rev (rev p) ++ [] = p) as Hpp by (rewrite rev_involutive; apply app_nil_r).
  unfold real, follow. rewrite <- Hpp at 2. apply walk_real; rewrite ?Hpp; try done.
  - by rewrite (wf_root t Hwf).
  - intros q Hq _ Hne. by apply (wf_above t p).
Qed.

(** What is in a well-formed tree is where its path says. *)
Lemma locate_wf t c d : wf t -> t d = Some Directory -> locate t (c :: d) = Ok (c :: d).
Proof.
  intros Hwf Hd. simpl. rewrite real_wf; rewrite ?Hd; done.
Qed.

Lemma locate_present t p : wf t -> t p <> None -> locate t p = Ok p.
Proof.
  intros Hwf Hp. destruct p as [|c d]; [done|]. apply locate_wf; [done|]. by eapply wf_parent.
Qed.

Lemma node_at_present t p n : wf t -> t p = Some n -> node_at t p = Ok n.
Proof. intros Hwf Hp. unfold node_at. rewrite locate_present; [|done|by rewrite Hp]. simpl. by rewrite Hp. Qed.

Lemma node_at_clean t p n : clean t (dirname p) -> node_at t p = Ok n -> t p = Some n.
Proof.
  intros Hd. unfold node_at. destruct (locate t p) as [q|] eqn:Hq; [|done]. simpl.
  apply locate_clean in Hq as ->; [|done]. destruct (t p); by intros [= ->].
Qed.

Lemma node_at_absent t p e : wf t -> node_at t p = Throw e -> t p = None.
Proof.
  intros Hwf Hp. destruct (t p) eqn:Ht; [|done]. by erewrite node_at_present in Hp.
Qed.

(** ** Every call leaves a well-formed tree *)

Lemma set_node_eq p n t : set_node p n t p = n.
Proof. unfold set_node. by rewrite decide_True. Qed.

Lemma set_node_ne p n t q : q <> p -> set_node p n t q = t q.
Proof. intros. unfold set_node. by rewrite decide_False. Qed.

Lemma prune_below p t q : p `suffix_of` q -> prune p t q = None.
Proof. intros. unfold prune. by rewrite decide_True. Qed.

Lemma prune_beside p t q : ~ p `suffix_of` q -> prune p t q = t q.
Proof. intros. unfold prune. by rewrite decide_False. Qed.

Lemma graft_to p q t k : graft p q t (k ++ q) = t (k ++ p).
Proof.
  unfold graft, rebase. rewrite decide_True by (by exists k). f_equal.
  rewrite length_app, take_app_length'; [done|lia].
Qed.

Lemma graft_from p q t r : p `suffix_of` r -> ~ q `suffix_of` r -> graft p q t r = None.
Proof. intros. unfold graft. by rewrite decide_False, decide_True. Qed.

Lemma graft_beside p q t r : ~ p `suffix_of` r -> ~ q `suffix_of` r -> graft p q t r = t r.
Proof. intros. unfold graft. by rewrite !decide_False. Qed.

Lemma not_below_tail (c : string) (d : path) : ~ c :: d `suffix_of` d.
Proof. intros H%suffix_length. simpl in H. lia. Qed.

Lemma locate_parent t p c d : wf t -> locate t p = Ok (c :: d) -> t d = Some Directory.
Proof. destruct p as [|c' d']; simpl; [done|]. intros Hwf H. by case_all. Qed.

Lemma wf_no_child t p c : wf t -> t p <> Some Directory -> t (c :: p) = None.
Proof. intros Hwf Hp. destruct (t (c :: p)) eqn:Ht; [|done]. destruct Hp. eapply wf_parent; [done|by rewrite Ht]. Qed.

Lemma wf_set_node t c d n :
  wf t -> t d = Some Directory -> t (c :: d) <> Some Directory -> wf (set_node (c :: d) n t).
Proof.
  intros Hwf Hd Hq. split; [by rewrite set_node_ne, (wf_root t Hwf)|].
  intros c' p. destruct (decide (p = c :: d)) as [->|Hp].
  - rewrite set_node_ne, wf_no_child; [done..|]. intros H%(f_equal length). simpl in H. lia.
  - rewrite (set_node_ne _ _ _ p) by done. destruct (decide (c' :: p = c :: d)) as [[= -> ->]|]; [done|].
    rewrite set_node_ne by done. by apply wf_parent.
Qed.

Lemma wf_prune t c d : wf t -> wf (prune (c :: d) t).
Proof.
  intros Hwf. split.
  - rewrite prune_beside; [apply (wf_root t Hwf)|]. by intros H%suffix_nil_inv.
  - intros c' p. unfold prune. case_decide as H1; [done|]. intros H.
    rewrite decide_False; [by eapply wf_parent|]. intros H2. apply H1. by apply suffix_cons_r.
Qed.

Lemma wf_lost t e c d : wf t -> wf (fun r => if lost_with e (c :: d) r then None else t r).
Proof.
  intros Hwf. split.
  - simpl. rewrite bool_decide_eq_false_2 by (by intros H%suffix_nil_inv). apply (wf_root t Hwf).
  - intros c' p. destruct (lost_with e (c :: d) (c' :: p)) eqn:Hl; [done|]. intros H.
    destruct (lost_with e (c :: d) p) eqn:Hp; [|by eapply wf_parent].
    exfalso. cbn [lost_with] in Hl. rewrite Hp, orb_true_r, andb_true_r in Hl.
    assert (c :: d `suffix_of` p) as Hs by (destruct p; simpl in Hp; bools; done).
    apply bool_decide_eq_false in Hl. apply Hl. by apply suffix_cons_r.
Qed.

Lemma wf_graft t p c d :
  wf t -> t d = Some Directory -> t (c :: d) <> Some Directory -> ~ p `suffix_of` c :: d ->
  t p <> None -> wf (graft p (c :: d) t).
Proof.
  intros Hwf Hd Hq Hpq Hp.
  assert (~ p `suffix_of` d) as Hpd by (intros H; apply Hpq; by apply suffix_cons_r).
  split.
  - rewrite graft_beside; [apply (wf_root t Hwf)| |by intros H%suffix_nil_inv].
    intros ->%suffix_nil_inv. apply Hpq. apply suffix_nil.
  - intros c' r. destruct (decide (c :: d `suffix_of` r)) as [[k ->]|Hr].
    { rewrite app_comm_cons, !graft_to. by apply wf_parent. }
    destruct (decide (c' :: r = c :: d)) as [[= -> ->]|Hne].
    { intros _. by rewrite graft_beside. }
    assert (~ c :: d `suffix_of` c' :: r) as Hr' by (intros [?|?]%below_cons; done).
    destruct (decide (p `suffix_of` c' :: r)) as [|Hpr]; [by rewrite graft_from|].
    rewrite graft_beside by done. rewrite graft_beside; [by apply wf_parent| |done].
    intros H. apply Hpr. by apply suffix_cons_r.
Qed.

(** The calls that keep [wf]. *)
Definition orderly {A} (c : call A) : Prop := forall e t, wf t -> wf (c e t).2.

Lemma orderly_simple {A} (f : tree -> result Errno (A * tree)) :
  (forall t a t', wf t -> f t = Ok (a, t') -> wf t') -> orderly (simple f).
Proof.
  intros Hf [e|] t Hwf; simpl; [done|]. destruct (f t) as [[a t']|] eqn:Heq; simpl; eauto.
Qed.

Lemma orderly_chmod p mode : orderly (chmod_call p mode).
Proof.
  apply orderly_simple. intros t a t' Hwf. destruct (real t p) as [q|]; simpl; [|done]. intros [= <- <-].
  destruct (t q) as [[content m| |]|] eqn:Hq; try done. destruct q as [|c d].
  - by rewrite (wf_root t Hwf) in Hq.
  - apply wf_set_node; [done| |by rewrite Hq]. eapply wf_parent; [done|by rewrite Hq].
Qed.

Lemma rename_tree_graft p q t t' :
  rename_tree p q t = Ok t' ->
  t' = t \/ t' = graft p q t /\ t p <> None /\ t q <> Some Directory /\ ~ p `suffix_of` q.
Proof.
  unfold rename_tree. destruct (t p) eqn:Hp; [|done]. destruct p as [|c d]; [done|].
  destruct q as [|c' d']; [done|]. case_decide; [intros [= <-]; by left|].
  case_decide; [done|]. destruct (t (c' :: d')) as [[| |]|] eqn:Hq; try done;
    repeat case_match; intros [= <-]; right; by rewrite ?Hq.
Qed.

Lemma orderly_rename from to : orderly (rename_call from to).
Proof.
  apply orderly_simple. intros t a t' Hwf.
  destruct (locate t from) as [p|] eqn:Hp; simpl; [|done].
  destruct (locate t to) as [q|] eqn:Hq; simpl; [|done].
  destruct (rename_tree p q t) as [t''|] eqn:Hr; simpl; [|done]. intros [= <- <-].
  destruct (rename_tree_graft _ _ _ _ Hr) as [->|(-> & H1 & H2 & H3)]; [done|].
  destruct q as [|c d]; [by rewrite (wf_root t Hwf) in H2|].
  apply wf_graft; try done. by eapply locate_parent.
Qed.

Lemma orderly_link from to : orderly (link_call from to).
Proof.
  apply orderly_simple. intros t a t' Hwf.
  destruct (locate t from) as [p|] eqn:Hp; simpl; [|done].
  destruct (locate t to) as [q|] eqn:Hq; simpl; [|done].
  destruct (t p) as [n|]; [|done]. destruct (t q) eqn:Htq; [by destruct n|].
  destruct q as [|c d]; [by rewrite (wf_root t Hwf) in Htq|].
  destruct n; intros [= <- <-]; (apply wf_set_node; [done|by eapply locate_parent|by rewrite Htq]).
Qed.

Lemma orderly_unlink p : orderly (unlink_call p).
Proof.
  apply orderly_simple. intros t a t' Hwf. destruct (locate t p) as [q|] eqn:Hq; simpl; [|done].
  destruct q as [|c d]; [by rewrite (wf_root t Hwf)|].
  destruct (t (c :: d)) as [[| |]|] eqn:Ht; intros [= <- <-];
    (apply wf_set_node; [done|by eapply locate_parent|by rewrite Ht]).
Qed.

Lemma orderly_rm p recursive : orderly (rm_call p recursive).
Proof.
  intros e t Hwf. unfold rm_call. destruct (locate t p) as [[|c d]|] eqn:Hq; try done.
  destruct e as [e|]; [destruct recursive; [by apply wf_lost|done]|].
  destruct (t (c :: d)) as [[| |]|] eqn:Ht; try done.
  - apply wf_set_node; [done|by eapply locate_parent|by rewrite Ht].
  - destruct recursive; [by apply wf_prune|done].
  - apply wf_set_node; [done|by eapply locate_parent|by rewrite Ht].
Qed.

Lemma orderly_writeFile p content mode : orderly (writeFile_call p content mode).
Proof.
  intros e t Hwf. unfold writeFile_call. destruct (locate t p) as [q|] eqn:Hq; [|done].
  destruct (t q) eqn:Ht; [done|]. destruct q as [|c d]; [by rewrite (wf_root t Hwf) in Ht|].
  assert (forall n, wf (set_node (c :: d) n t)).
  { intros n. apply wf_set_node; [done|by eapply locate_parent|by rewrite Ht]. }
  destruct e as [e|]; [destruct (made e)|]; simpl; auto.
Qed.

Lemma wf_make_directories e cur todo t :
  wf t -> t cur = Some Directory -> wf (make_directories e cur todo t).2.
Proof.
  revert e cur t. induction todo as [|c todo IH]; intros e cur t Hwf Hcur; simpl; [done|].
  destruct (t (c :: cur)) as [[| |absolute target]|] eqn:Hc; [done|by apply IH| |].
  - destruct (follow t (if absolute then [] else cur) target) as [r|]; simpl; [|done].
    destruct (t r) as [[| |]|] eqn:Hr; simpl; try done. by apply IH.
  - assert (wf (set_node (c :: cur) (Some Directory) t)) by (apply wf_set_node; [done..|by rewrite Hc]).
    destruct e as [[e [|n] l]|]; [done|..]; apply IH; auto using set_node_eq.
Qed.

Lemma orderly_mkdirp p : orderly (mkdirp_call p).
Proof.
  intros e t Hwf. unfold mkdirp_call.
  pose proof (wf_make_directories e [] (rev p) t Hwf (wf_root t Hwf)) as H.
  by destruct (make_directories e [] (rev p) t).
Qed.

#[export] Hint Resolve orderly_chmod orderly_rename orderly_link orderly_unlink orderly_rm
  orderly_writeFile orderly_mkdirp : omp.

(** ** Trees from a list of nodes *)

Definition tree_of (nodes : list (path * Node)) : tree :=
  fun p => snd <$> List.find (fun pn => bool_decide (pn.1 = p)) nodes.

Lemma tree_of_some nodes p n : tree_of nodes p = Some n -> (p, n) ∈ nodes.
Proof.
  unfold tree_of. destruct (List.find _ nodes) as [[q m]|] eqn:Hf; [|done]. simpl. intros [= ->].
  apply List.find_some in Hf as [Hin Hq]. simpl in Hq. apply bool_decide_eq_true in Hq as ->.
  by apply list_elem_of_In.
Qed.

(** The parents of the nodes are in the list. *)
Lemma wf_tree_of nodes :
  tree_of nodes [] = Some Directory ->
  Forall (fun pn => pn.1 = [] \/ tree_of nodes (tail pn.1) = Some Directory) nodes ->
  wf (tree_of nodes).
Proof.
  intros Hroot Hall. split; [done|]. intros c p Hp.
  destruct (tree_of nodes (c :: p)) as [n|] eqn:Hn; [|done].
  apply tree_of_some in Hn. rewrite Forall_forall in Hall. by destruct (Hall _ Hn).
Qed.
