(* ===== verification/FilePlan.v ===== *)
(** * File plans

    packages/cli/src/file-plan.ts with [resolveInside] of identifiers.ts: the
    plans of the CLI (writes, directories, a move, removals) and [applyFilePlan],
    which stages the writes, applies the operations with an undo stack, and on
    an error rolls back.  [World] is what a run keeps: the tree, the table of
    [TransactionArtifact] objects in the order of the [artifacts] array (the
    staged writes and the undo operations refer to them by their index, as the
    closures share the objects), [createdDirectories] and the undo stack, the
    most recent first, whose closures are values of [Undo] with the variables
    they capture. *)

From S2P Require Import Prelude RecordUpdate JsString Disk.
From stdpp Require Import options.

(** ** Data *)

Inductive Content : Type := Text (s : string) | Bytes (b : list N).

Definition encoded (c : Content) : list N := match c with Text s => utf8 s | Bytes b => b end.

Record PlannedWrite := mkPlannedWrite {
  write_path : string; write_content : Content; write_overwrite : option bool; write_mode : option Z;
}.

Inductive FileOperation : Type :=
| Write (p : path) (content : Content) (overwrite : bool) (mode : option Z)
| Mkdir (p : path)
| Move (from to : path)
| Remove (p : path).

Record FilePlan := mkPlan { root : path; operations : list FileOperation }.

(** What is thrown: the [Error]s of the file by their message, those of the
    file system by their code. *)
Inductive PlanError : Type :=
| NotRelative (child : string)
| EscapesProject (child : string)
| PlannedEscape (p : path)
| Duplicate (child : string)
| RefusingToOverwrite (p : path)
| IsDirectory (p : path)
| NotDirectory (p : path)
| SameSourceAndDestination
| AppearedBeforeWrite (p : path)
| NoSource (p : path)
| DestinationExists (p : path)
| NothingToRemove (p : path)
| MissingStagedWrite (p : path)
| NoUniquePath (p : path)
| SymlinkedComponent (p : path)
| Sys (e : Errno)
| Joined (errors : list PlanError)
| WithRollbackContext (error : PlanError) (errors : list PlanError)
| CommittedButCleanupFailed (errors : list PlanError).

Inductive ArtifactKind : Type := stage | backup.

Record TransactionArtifact := mkArtifact {
  artifact_path : path;
  artifact_kind : ArtifactKind;
  cleanupOnSuccess : bool;
  cleanupOnFailure : bool;
}.
#[export] Instance TransactionArtifact_fields : Fields TransactionArtifact :=
  fun r => mkArtifact (artifact_path r) (artifact_kind r) (cleanupOnSuccess r) (cleanupOnFailure r).

(** The undo closures.  [WriteUndoState] is [installed] ([targetInstalled]) and
    [saved]: [state.backup] once [backupMoved], which are set together; [moved]
    and the backup of a removal likewise.  Each closure runs once, so that what
    it resets at its end is not kept. *)
Inductive Undo : Type :=
| UndoMkdir (created : list path)
| UndoWrite (p : path) (created : list path) (installed : bool) (saved : option nat)
| UndoMove (from to : path) (created : list path) (moved : bool)
| UndoRemove (p : path) (saved : option nat).

Record World := mkWorld {
  files : tree;
  calls : nat;        (** calls made to the file system *)
  uuids : nat;        (** UUIDs drawn *)
  artifacts : list TransactionArtifact;
  createdDirectories : list path;
  undoStack : list Undo;
}.
#[export] Instance World_fields : Fields World :=
  fun r => mkWorld (files r) (calls r) (uuids r) (artifacts r) (createdDirectories r) (undoStack r).

(** The host: which calls it refuses, its UUIDs, its umask and its working
    directory. *)
Class Host := {
  fault : nat -> option Fault;
  randomUUID : nat -> string;
  umask : Z;
  cwd : path;
}.

Definition plan_comp (A : Type) : Type := comp World PlanError A.

Definition TRANSACTION_PREFIX : string := ".omp-bundler-txn-".

(** ** Effects of the model *)

Definition get {A} (f : World -> A) : plan_comp A := fun w => (Ok (f w), w).
Definition modify (f : World -> World) : plan_comp unit := fun w => (Ok tt, f w).

(** [try { m; return [] } catch (error) { return [error] }] *)
Definition caught (m : plan_comp unit) : plan_comp (list PlanError) := fun w =>
  match m w with
  | (Ok _, w') => (Ok [], w')
  | (Throw e, w') => (Ok [e], w')
  end.

Definition when (b : bool) (m : plan_comp unit) : plan_comp unit := if b then m else cret tt.

Fixpoint each {A} (xs : list A) (f : A -> plan_comp unit) : plan_comp unit :=
  match xs with [] => cret tt | x :: xs => f x ;? each xs f end.

Fixpoint gather {A} (xs : list A) (f : A -> plan_comp (list PlanError)) : plan_comp (list PlanError) :=
  match xs with
  | [] => cret []
  | x :: xs => errors <-? f x ; more <-? gather xs f ; cret (errors ++ more)
  end.

(** [[...xs].sort((a, b) => length(b) - length(a))], which is stable. *)
Fixpoint insert_by {A} (len : A -> nat) (x : A) (xs : list A) : list A :=
  match xs with
  | [] => [x]
  | y :: ys => if (len y <? len x)%nat then x :: y :: ys else y :: insert_by len x ys
  end.

Definition longest_first {A} (len : A -> nat) (xs : list A) : list A :=
  fold_left (fun sorted x => insert_by len x sorted) xs [].

Section host.
Context {host : Host}.

Definition syscall {A} (c : Disk.call A) : plan_comp A := fun w =>
  let '(r, t) := c (fault (calls w)) (files w) in
  (match r with Ok a => Ok a | Throw e => Throw (Sys e) end,
   w <| files := t |> <| calls ::= S |>).

Definition draw_uuid : plan_comp string :=
  n <-? get uuids ; modify (fun w => w <| uuids ::= S |>) ;? cret (randomUUID n).

(** ** Checks on a path *)

Definition isMissing (e : PlanError) : bool :=
  match e with Sys ENOENT => true | _ => false end.

Definition lstatIfPresent (p : path) : plan_comp (option Node) := fun w =>
  match syscall (lstat_call p) w with
  | (Ok n, w') => (Ok (Some n), w')
  | (Throw e, w') => (if isMissing e then Ok None else Throw e, w')
  end.

Definition assertInside (root p : path) : plan_comp unit :=
  if escapes root p then cthrow (PlannedEscape p) else cret tt.

Definition isSymbolicLink (n : option Node) : bool :=
  match n with Some (Symlink _ _) => true | _ => false end.

(** The [while (true)] from [current] up to [root].  ["/"] has no parent: the
    code stops there only when it is the root, which [assertInside] ensures. *)
Fixpoint no_symlink_up_to (root current : path) : plan_comp unit :=
  info <-? lstatIfPresent current ;
  if isSymbolicLink info then cthrow (SymlinkedComponent current)
  else if decide (current = root) then cret tt
  else match current with [] => cret tt | _ :: up => no_symlink_up_to root up end.

(** The [while (true)] that looks for the nearest ancestor that exists. *)
Fixpoint nearest_is_no_symlink (current : path) : plan_comp unit :=
  info <-? lstatIfPresent current ;
  match info with
  | Some n => if isSymbolicLink (Some n) then cthrow (SymlinkedComponent current) else cret tt
  | None => match current with [] => cret tt | _ :: up => nearest_is_no_symlink up end
  end.

Definition assertNoSymlinkComponents (p root : path) : plan_comp unit :=
  assertInside root p ;?
  no_symlink_up_to root p ;?
  info <-? lstatIfPresent root ;
  match info with
  | Some _ =>
      q <-? syscall (realpath_call root) ;
      if decide (q = root) then cret tt else cthrow (SymlinkedComponent root)
  | None => nearest_is_no_symlink (dirname root)
  end.

(** The same calls in the same order, made synchronously. *)
Definition assertNoSymlinkComponentsSync (p root : path) : plan_comp unit :=
  assertNoSymlinkComponents p root.

Definition assertOperationSafe (operation : FileOperation) (root : path) : plan_comp unit :=
  match operation with
  | Move from to => assertNoSymlinkComponents from root ;? assertNoSymlinkComponents to root
  | Write p _ _ _ | Mkdir p | Remove p => assertNoSymlinkComponents p root
  end.

(** ** Plans *)

Definition resolveInside (root : path) (child : string) : result PlanError path :=
  if is_empty child || is_absolute child then Throw (NotRelative child)
  else let resolvedChild := resolve_path root child in
       if escapes root resolvedChild then Throw (EscapesProject child) else Ok resolvedChild.

Definition lift {A} (r : result PlanError A) : plan_comp A := fun w => (r, w).

Definition refuse_existing (p : path) (overwrite : bool) (error : PlanError) : plan_comp (option Node) :=
  existing <-? lstatIfPresent p ;
  if negb overwrite && bool_decide (existing <> None) then cthrow error else cret existing.

(** The loop of [createFilePlan] after the paths [seen]. *)
Fixpoint plan_writes (planRoot : path) (overwrites : bool) (seen : list path) (writes : list PlannedWrite)
  : plan_comp (list FileOperation) :=
  match writes with
  | [] => cret []
  | write :: writes =>
      p <-? lift (resolveInside planRoot (write_path write)) ;
      if decide (p ∈ seen) then cthrow (Duplicate (write_path write)) else
      assertNoSymlinkComponents p planRoot ;?
      let overwrite := default overwrites (write_overwrite write) in
      existing <-? refuse_existing p overwrite (RefusingToOverwrite p) ;
      if is_directory existing then cthrow (IsDirectory p) else
      rest <-? plan_writes planRoot overwrites (p :: seen) writes ;
      cret (Write p (write_content write) overwrite (write_mode write) :: rest)
  end.

Definition createFilePlan (root : string) (writes : list PlannedWrite) (overwrite : option bool)
  : plan_comp FilePlan :=
  let planRoot := resolve_path cwd root in
  ops <-? plan_writes planRoot (default false overwrite) [] writes ;
  cret (mkPlan planRoot ops).

(** The loop that [createDirectoryPlan] and [createRemovePlan] share. *)
Fixpoint plan_paths (planRoot : path) (operation : path -> FileOperation) (seen : list path)
  (paths : list string) : plan_comp (list FileOperation) :=
  match paths with
  | [] => cret []
  | child :: paths =>
      p <-? lift (resolveInside planRoot child) ;
      if decide (p ∈ seen) then cthrow (Duplicate child) else
      assertNoSymlinkComponentsSync p planRoot ;?
      rest <-? plan_paths planRoot operation (p :: seen) paths ;
      cret (operation p :: rest)
  end.

Definition createDirectoryPlan (root : string) (paths : list string) : plan_comp FilePlan :=
  let planRoot := resolve_path cwd root in
  ops <-? plan_paths planRoot Mkdir [] paths ; cret (mkPlan planRoot ops).

Definition createRemovePlan (root : string) (paths : list string) : plan_comp FilePlan :=
  let planRoot := resolve_path cwd root in
  ops <-? plan_paths planRoot Remove [] paths ; cret (mkPlan planRoot ops).

Definition createMovePlan (root from to : string) : plan_comp FilePlan :=
  let planRoot := resolve_path cwd root in
  source <-? lift (resolveInside planRoot from) ;
  destination <-? lift (resolveInside planRoot to) ;
  if decide (source = destination) then cthrow SameSourceAndDestination else
  assertNoSymlinkComponentsSync source planRoot ;?
  assertNoSymlinkComponentsSync destination planRoot ;?
  cret (mkPlan planRoot [Move source destination]).

(** What a plan says it does. *)
Definition describe (operation : FileOperation) : string :=
  match operation with
  | Write p _ overwrite _ => ((if overwrite then "update " else "create ") +:+ path_string p)%stdpp
  | Mkdir p => ("create directory " +:+ path_string p)%stdpp
  | Move from to => ("move " +:+ path_string from +:+ " -> " +:+ path_string to)%stdpp
  | Remove p => ("remove " +:+ path_string p)%stdpp
  end.

Definition describeFilePlan (plan : FilePlan) : list string := describe <$> operations plan.

Definition operationPaths (operation : FileOperation) : list path :=
  match operation with
  | Move from to => [from; to]
  | Write p _ _ _ | Mkdir p | Remove p => [p]
  end.

(** ** The transaction *)

Definition push_artifact (a : TransactionArtifact) : plan_comp nat := fun w =>
  (Ok (length (artifacts w)), w <| artifacts ::= fun l => l ++ [a] |>).

Definition set_artifact (i : nat) (f : TransactionArtifact -> TransactionArtifact) : plan_comp unit :=
  modify (fun w => w <| artifacts ::= alter f i |>).

Definition path_of (i : nat) : plan_comp path :=
  get (fun w => default [] (artifact_path <$> artifacts w !! i)).

Definition push_undo (u : Undo) : plan_comp unit := modify (fun w => w <| undoStack ::= cons u |>).

(** An operation changes the variables of the closure it pushed last. *)
Definition set_undo (u : Undo) : plan_comp unit :=
  modify (fun w => w <| undoStack ::= fun us => u :: tail us |>).

Definition rewrite_artifact (from to : path) (a : TransactionArtifact) : TransactionArtifact :=
  if decide (from `suffix_of` artifact_path a)
  then a <| artifact_path ::= rebase from to |> else a.

Definition rewriteArtifacts (from to : path) : plan_comp unit :=
  modify (fun w => w <| artifacts ::= fmap (rewrite_artifact from to) |>).

Definition path_length (p : path) : nat := String.length (path_string p).

Fixpoint distinct_paths (seen : list path) (l : list TransactionArtifact) : list TransactionArtifact :=
  match l with
  | [] => []
  | a :: l => if decide (artifact_path a ∈ seen) then distinct_paths seen l
              else a :: distinct_paths (artifact_path a :: seen) l
  end.

(** The errors of [catch]: one that says the path is missing is none. *)
Definition unless_missing (errors : list PlanError) : list PlanError :=
  filter (fun e => isMissing e = false) errors.

Definition remove_path (p root : path) (recursive : bool) : plan_comp unit :=
  assertNoSymlinkComponents p root ;? syscall (rm_call p recursive).

Definition is_backup (k : ArtifactKind) : bool := match k with backup => true | stage => false end.

Definition cleanupArtifacts (root : path) (success : bool) : plan_comp (list PlanError) :=
  all <-? get artifacts ;
  let selected := longest_first (fun a => path_length (artifact_path a))
    (filter (fun a => (if success then cleanupOnSuccess a else cleanupOnFailure a) = true) all) in
  gather (distinct_paths [] selected) (fun a =>
    errors <-? caught (remove_path (artifact_path a) root (success && is_backup (artifact_kind a))) ;
    cret (unless_missing errors)).

Definition cleanupCreatedDirectories (directories : list path) (root : path) : plan_comp (list PlanError) :=
  gather (longest_first path_length directories) (fun p =>
    errors <-? caught (remove_path p root false) ; cret (unless_missing errors)).

Definition renameWithSafety (from to root : path) : plan_comp unit :=
  assertNoSymlinkComponents from root ;?
  assertNoSymlinkComponents to root ;?
  syscall (rename_call from to).

(** [createdDirectories.add(directory)] *)
Definition add_created (p : path) : plan_comp unit :=
  modify (fun w => w <| createdDirectories ::= fun l => if decide (p ∈ l) then l else l ++ [p] |>).

(** The [while (true)] of [ensureDirectory]. *)
Fixpoint missing_directories (root current : path) : plan_comp (list path) :=
  info <-? lstatIfPresent current ;
  match info with
  | Some n => if is_directory (Some n) then cret [] else cthrow (NotDirectory current)
  | None =>
      if decide (current = root) then cret [current] else
      match current with
      | [] => cret [current]
      | _ :: up => rest <-? missing_directories root up ; cret (current :: rest)
      end
  end.

Definition ensureDirectory (p root : path) : plan_comp (list path) :=
  assertInside root p ;?
  assertNoSymlinkComponents p root ;?
  missing <-? missing_directories root p ;
  each missing add_created ;?
  syscall (mkdirp_call p) ;?
  assertNoSymlinkComponents p root ;?
  cret missing.

(** The [attempts] of [uniqueSiblingPath] that are left. *)
Fixpoint unique_sibling (attempts : nat) (p : path) (label : string) (root : path) : plan_comp path :=
  match attempts with
  | O => cthrow (NoUniquePath p)
  | S attempts =>
      uuid <-? draw_uuid ;
      let candidate := (TRANSACTION_PREFIX +:+ label +:+ "-" +:+ uuid)%stdpp :: dirname p in
      assertNoSymlinkComponents candidate root ;?
      info <-? lstatIfPresent candidate ;
      match info with
      | None => cret candidate
      | Some _ => unique_sibling attempts p label root
      end
  end.

Definition uniqueSiblingPath (p : path) (label : string) (root : path) : plan_comp path :=
  unique_sibling 8 p label root.

Definition preflight (root : path) (operation : FileOperation) : plan_comp unit :=
  assertOperationSafe operation root ;?
  match operation with
  | Write p _ overwrite _ =>
      existing <-? refuse_existing p overwrite (AppearedBeforeWrite p) ;
      if is_directory existing then cthrow (IsDirectory p) else cret tt
  | Move from to =>
      source <-? lstatIfPresent from ;
      if bool_decide (source = None) then cthrow (NoSource from) else
      destination <-? lstatIfPresent to ;
      if bool_decide (destination <> None) then cthrow (DestinationExists to) else cret tt
  | Remove p =>
      existing <-? lstatIfPresent p ;
      if bool_decide (existing = None) then cthrow (NothingToRemove p) else cret tt
  | Mkdir _ => cret tt
  end.

Definition preflightFilePlan (plan : FilePlan) : plan_comp unit :=
  each (operations plan) (preflight (root plan)).

(** [existing.mode & 0o7777]; only a file is overwritten. *)
Definition permissions (existing : Node) : Z :=
  match existing with File _ mode => Z.land mode 4095 | _ => 0 end.

(** The mode of a new file: 0o666 unless given, under the umask. *)
Definition created_mode (mode : option Z) : Z := Z.land (default 438%Z mode) (Z.lnot umask).

Definition stage_write (root p : path) (content : Content) (overwrite : bool) (mode : option Z)
  : plan_comp nat :=
  assertNoSymlinkComponents p root ;?
  existing <-? lstatIfPresent p ;
  if is_directory existing then cthrow (IsDirectory p) else
  if negb overwrite && bool_decide (existing <> None) then cthrow (AppearedBeforeWrite p) else
  _ <-? ensureDirectory (dirname p) root ;
  assertNoSymlinkComponents p root ;?
  stagePath <-? uniqueSiblingPath p "stage" root ;
  assertNoSymlinkComponents stagePath root ;?
  syscall (writeFile_call stagePath (encoded content) (created_mode mode)) ;?
  i <-? push_artifact (mkArtifact stagePath stage true true) ;
  match existing with
  | Some n => syscall (chmod_call stagePath (permissions n))
  | None => cret tt
  end ;?
  cret i.

(** [stagedWrites]: for each operation, the artifact of its stage. *)
Fixpoint stage_all (root : path) (ops : list FileOperation) : plan_comp (list (option nat)) :=
  match ops with
  | [] => cret []
  | Write p content overwrite mode :: ops =>
      i <-? stage_write root p content overwrite mode ;
      rest <-? stage_all root ops ; cret (Some i :: rest)
  | _ :: ops => rest <-? stage_all root ops ; cret (None :: rest)
  end.

Definition stageWrites (plan : FilePlan) : plan_comp (list (option nat)) :=
  stage_all (root plan) (operations plan).

Definition applyMkdirOperation (root p : path) : plan_comp unit :=
  assertNoSymlinkComponents p root ;?
  created <-? ensureDirectory p root ;
  push_undo (UndoMkdir created).

(** An existing file makes way: it is renamed to a backup, which the undo
    operation now knows, and the stage gets its permissions. *)
Definition make_way (root p : path) (created : list path) (staged : nat) (existing : Node) : plan_comp nat :=
  syscall (access_call p) ;?
  assertNoSymlinkComponents p root ;?
  backupPath <-? uniqueSiblingPath p "backup" root ;
  assertNoSymlinkComponents backupPath root ;?
  syscall (rename_call p backupPath) ;?
  rewriteArtifacts p backupPath ;?
  i <-? push_artifact (mkArtifact backupPath backup true true) ;
  set_undo (UndoWrite p created false (Some i)) ;?
  stagePath <-? path_of staged ;
  assertNoSymlinkComponents stagePath root ;?
  syscall (chmod_call stagePath (permissions existing)) ;?
  cret i.

(** The stage becomes the file: a rename where the old file made way, else a
    link that fails if a file appeared, and the removal of the stage. *)
Definition install (root p : path) (created : list path) (staged : nat) (saved : option nat)
  : plan_comp unit :=
  assertNoSymlinkComponents p root ;?
  stagePath <-? path_of staged ;
  assertNoSymlinkComponents stagePath root ;?
  match saved with
  | Some _ =>
      syscall (rename_call stagePath p) ;?
      set_artifact staged (fun a => a <| artifact_path := p |> <| cleanupOnSuccess := false |>) ;?
      set_undo (UndoWrite p created true saved)
  | None =>
      syscall (link_call stagePath p) ;?
      set_undo (UndoWrite p created true saved) ;?
      syscall (unlink_call stagePath) ;?
      set_artifact staged (fun a => a <| artifact_path := p |> <| cleanupOnSuccess := false |>)
  end.

Definition applyWriteOperation (root p : path) (overwrite : bool) (staged : option nat) : plan_comp unit :=
  match staged with
  | None => cthrow (MissingStagedWrite p)
  | Some staged =>
      assertNoSymlinkComponents p root ;?
      created <-? ensureDirectory (dirname p) root ;
      push_undo (UndoWrite p created false None) ;?
      existing <-? lstatIfPresent p ;
      if is_directory existing then cthrow (IsDirectory p) else
      if negb overwrite && bool_decide (existing <> None) then cthrow (AppearedBeforeWrite p) else
      saved <-? match existing with
                | Some n => i <-? make_way root p created staged n ; cret (Some i)
                | None => cret None
                end ;
      install root p created staged saved
  end.

Definition applyMoveOperation (root from to : path) : plan_comp unit :=
  assertOperationSafe (Move from to) root ;?
  source <-? lstatIfPresent from ;
  if bool_decide (source = None) then cthrow (NoSource from) else
  destination <-? lstatIfPresent to ;
  if bool_decide (destination <> None) then cthrow (DestinationExists to) else
  created <-? ensureDirectory (dirname to) root ;
  push_undo (UndoMove from to created false) ;?
  assertOperationSafe (Move from to) root ;?
  syscall (rename_call from to) ;?
  set_undo (UndoMove from to created true) ;?
  rewriteArtifacts from to.

Definition applyRemoveOperation (root p : path) : plan_comp unit :=
  assertNoSymlinkComponents p root ;?
  existing <-? lstatIfPresent p ;
  if bool_decide (existing = None) then cthrow (NothingToRemove p) else
  backupPath <-? uniqueSiblingPath p "remove" root ;
  assertNoSymlinkComponents backupPath root ;?
  push_undo (UndoRemove p None) ;?
  assertNoSymlinkComponents p root ;?
  syscall (rename_call p backupPath) ;?
  rewriteArtifacts p backupPath ;?
  i <-? push_artifact (mkArtifact backupPath backup true true) ;
  set_undo (UndoRemove p (Some i)).

Definition apply_operation (root : path) (operation : FileOperation) (staged : option nat) : plan_comp path :=
  match operation with
  | Mkdir p => applyMkdirOperation root p ;? cret p
  | Write p _ overwrite _ => applyWriteOperation root p overwrite staged ;? cret p
  | Move from to => applyMoveOperation root from to ;? cret to
  | Remove p => applyRemoveOperation root p ;? cret p
  end.

(** The loop over the operations: the paths in [applied]. *)
Fixpoint apply_all (root : path) (ops : list (FileOperation * option nat)) : plan_comp (list path) :=
  match ops with
  | [] => cret []
  | (operation, staged) :: ops =>
      p <-? apply_operation root operation staged ;
      rest <-? apply_all root ops ; cret (p :: rest)
  end.

(** The body of the [try]. *)
Definition transact (plan : FilePlan) : plan_comp (list path) :=
  stagedWrites <-? stageWrites plan ;
  apply_all (root plan) (zip (operations plan) stagedWrites).

(** ** Rollback *)

(** [state.backup] goes back to its place and is no artifact any more. *)
Definition put_back (root p : path) (i : nat) : plan_comp unit :=
  backupPath <-? path_of i ;
  renameWithSafety backupPath p root ;?
  rewriteArtifacts backupPath p ;?
  set_artifact i (fun a => a <| cleanupOnSuccess := false |> <| cleanupOnFailure := false |>).

Definition joined (errors : list PlanError) : plan_comp unit :=
  match errors with [] => cret tt | _ => cthrow (Joined errors) end.

Definition run_undo (root : path) (u : Undo) : plan_comp unit :=
  match u with
  | UndoMkdir created => errors <-? cleanupCreatedDirectories created root ; joined errors
  | UndoWrite p created installed saved =>
      e1 <-? caught (when installed (remove_path p root false)) ;
      e2 <-? caught (match saved with Some i => put_back root p i | None => cret tt end) ;
      e3 <-? cleanupCreatedDirectories created root ;
      joined (e1 ++ e2 ++ e3)
  | UndoMove from to created moved =>
      e1 <-? caught (when moved (renameWithSafety to from root ;? rewriteArtifacts to from)) ;
      e2 <-? cleanupCreatedDirectories created root ;
      joined (e1 ++ e2)
  | UndoRemove p saved =>
      match saved with None => cret tt | Some i => put_back root p i end
  end.

Definition rollback (root : path) : plan_comp (list PlanError) :=
  undos <-? get undoStack ; gather undos (fun u => caught (run_undo root u)).

(** The handler of the [catch] of [applyFilePlan]. *)
Definition roll_back (plan : FilePlan) (error : PlanError) : plan_comp (list path) :=
  e1 <-? rollback (root plan) ;
  e2 <-? cleanupArtifacts (root plan) false ;
  created <-? get createdDirectories ;
  e3 <-? cleanupCreatedDirectories created (root plan) ;
  cthrow (match e1 ++ e2 ++ e3 with [] => error | errors => WithRollbackContext error errors end).

(** [artifacts], [createdDirectories] and [undoStack] are new for each call. *)
Definition begin_transaction : plan_comp unit :=
  modify (fun w => w <| artifacts := [] |> <| createdDirectories := [] |> <| undoStack := [] |>).

Definition applyFilePlan (plan : FilePlan) (dryRun : bool) : plan_comp (list path) :=
  if dryRun then cret (operations plan ≫= operationPaths) else
  preflightFilePlan plan ;?
  begin_transaction ;?
  fun w => match transact plan w with
           | (Throw error, w') => roll_back plan error w'
           | (Ok applied, w') =>
               (errors <-? cleanupArtifacts (root plan) true ;
                match errors with
                | [] => cret applied
                | _ => cthrow (CommittedButCleanupFailed errors)
                end) w'
           end.

End host.
