(* ===== verification/PlanContainment.v ===== *)
(** * A file plan stays inside its root

    A small program logic for file-plan.ts: [Safe P m Q] runs [m] from a tree
    of which [P] holds, keeps the tree well-formed and unchanged outside the
    root, and ends with [Q] unless it throws.  The checks of the code give
    [sound] paths, and every call that changes the tree is made on sound paths. *)

From S2P Require Import Prelude RecordUpdate Disk FilePlan.
From stdpp Require Import pretty options.

(** ** Paths inside the root *)

Lemma relative_escapes (from to : list string) :
  match relative_components from to with c :: _ => String.eqb c ".." | [] => false end = false ->
  exists k, to = from ++ k.
Proof.
  revert to. induction from as [|a from IH]; intros to; simpl; [by exists to|].
  destruct to as [|b to]; [done|]. destruct (String.eqb_spec a b) as [->|Hab]; [|done].
  intros [k ->]%IH. by exists k.
Qed.

Lemma escapes_below root p : escapes root p = false -> root `suffix_of` p.
Proof.
  intros [k Hk]%relative_escapes. exists (rev k).
  by rewrite <- (rev_involutive p), Hk, rev_app_distr, rev_involutive.
Qed.

(** ** Outside the root nothing changes *)

(** Outside [root] the tree is what it was, except that the directories above a
    root that was not there may have been made. *)
Definition contained (root : path) (t0 t : tree) : Prop :=
  forall p, ~ root `suffix_of` p ->
    t p = t0 p \/ (t0 p = None /\ t p = Some Directory /\ p `suffix_of` root).

(** No component above the root is a symbolic link. *)
Definition plain_above (root : path) (t0 : tree) : Prop :=
  forall q, q `suffix_of` root -> q <> root -> is_link (t0 q) = false.

(** ** A program logic

    From a state of which [I] and [P] hold, [m] ends with [I], and with [Q] of
    its result if it returns. *)

Section logic.
Context {S E : Type} (I : S -> Prop).

Definition holds {A} (P : S -> Prop) (m : comp S E A) (Q : A -> S -> Prop) : Prop :=
  forall s, I s -> P s -> I (m s).2 /\ forall a, (m s).1 = Ok a -> Q a (m s).2.

Lemma holds_ret {A} (a : A) (Q : A -> S -> Prop) : holds (Q a) (cret a) Q.
Proof. intros s HI HP. split; [done|]. by intros ? [= <-]. Qed.

Lemma holds_throw {A} P e (Q : A -> S -> Prop) : holds P (cthrow e) Q.
Proof. by intros s HI HP. Qed.

Lemma holds_bind {A B} P (m : comp S E A) (k : A -> comp S E B) Q R :
  holds P m Q -> (forall a, holds (Q a) (k a) R) -> holds P (cbind m k) R.
Proof.
  intros Hm Hk s HI HP. destruct (Hm s HI HP) as [HI' HQ]. unfold cbind.
  destruct (m s) as [[a|e] s']; [|done]. apply Hk; auto.
Qed.

Lemma holds_weaken {A} (P P' : S -> Prop) (m : comp S E A) (Q Q' : A -> S -> Prop) :
  (forall s, P s -> P' s) -> (forall a s, Q' a s -> Q a s) -> holds P' m Q' -> holds P m Q.
Proof. intros HP HQ Hm s HI H. destruct (Hm s HI (HP _ H)) as [HI' H']. split; auto. Qed.

Lemma holds_pre {A} (P P' : S -> Prop) (m : comp S E A) Q :
  (forall s, P s -> P' s) -> holds P' m Q -> holds P m Q.
Proof. intros HP Hm s HI H. by apply Hm, HP. Qed.

(** What [P] says of more than the state. *)
Lemma holds_prop {A} (P : S -> Prop) (phi : Prop) (m : comp S E A) Q :
  (forall s, P s -> phi) -> (phi -> holds P m Q) -> holds P m Q.
Proof. intros HP Hm s HI H. by apply Hm; [eapply HP|..]. Qed.

(** The first two programs of a sequence as one. *)
Lemma holds_two {A B C} P (m : comp S E A) (k : A -> comp S E B) (k' : B -> comp S E C) Q R :
  holds P (cbind m k) Q -> (forall b, holds (Q b) (k' b) R) ->
  holds P (cbind m (fun a => cbind (k a) k')) R.
Proof.
  intros Hm Hk s HI HP. pose proof (holds_bind P (cbind m k) k' Q R Hm Hk s HI HP) as H.
  unfold cbind in *. by destruct (m s) as [[a|e] s'].
Qed.
End logic.

(** ** Programs that only look

    [m] makes calls and draws UUIDs; [reads] is what is left for the tree. *)

Definition looks {A} (m : plan_comp A) : Prop :=
  forall w, exists n u, (m w).2 = w <| calls := n |> <| uuids := u |>.

Definition reads {A} (m : plan_comp A) : Prop := forall w, files (m w).2 = files w.

Definition stable (P : World -> Prop) : Prop :=
  forall w n u, P w -> P (w <| calls := n |> <| uuids := u |>).

#[export] Hint Extern 2 (stable _) => (by intros ? ? ?) : omp.

Lemma looks_reads {A} (m : plan_comp A) : looks m -> reads m.
Proof. intros Hm w. by destruct (Hm w) as (n & u & ->). Qed.

Lemma holds_looks {A} I P (m : plan_comp A) :
  stable I -> stable P -> looks m -> holds I P m (fun _ => P).
Proof. intros HI HP Hm w Hw HPw. destruct (Hm w) as (n & u & ->). split; auto. Qed.

Lemma looks_same {A} (m : plan_comp A) : (forall w, (m w).2 = w) -> looks m.
Proof. intros Hm w. exists (calls w), (uuids w). rewrite Hm. by destruct w. Qed.

Lemma looks_ret {A} (a : A) : looks (cret a).
Proof. by apply looks_same. Qed.

Lemma looks_throw {A} e : looks (cthrow e : plan_comp A).
Proof. by apply looks_same. Qed.

Lemma looks_get {A} (f : World -> A) : looks (get f).
Proof. by apply looks_same. Qed.

Lemma looks_bind {A B} (m : plan_comp A) (k : A -> plan_comp B) :
  looks m -> (forall a, looks (k a)) -> looks (cbind m k).
Proof.
  intros Hm Hk w. unfold cbind. destruct (Hm w) as (n & u & Heq).
  destruct (m w) as [[a|e] w1]; simpl in Heq; [|by exists n, u].
  destruct (Hk a w1) as (n' & u' & ->). rewrite Heq. by exists n', u'.
Qed.

#[export] Hint Resolve looks_ret looks_throw looks_get looks_bind looks_reads : omp.

Section looks.
Context {host : Host}.

Lemma looks_syscall {A} (c : Disk.call A) : (forall e t, (c e t).2 = t) -> looks (syscall c).
Proof.
  intros Hc w. exists (S (calls w)), (uuids w). unfold syscall.
  specialize (Hc (fault (calls w)) (files w)).
  destruct (c (fault (calls w)) (files w)) as [r t]. simpl in *. subst t. by destruct w.
Qed.

Lemma looks_lstat p : looks (syscall (lstat_call p)).
Proof. apply looks_syscall. intros [e|] t; [done|]. unfold lstat_call, simple. by destruct (node_at t p). Qed.

Lemma looks_realpath p : looks (syscall (realpath_call p)).
Proof. apply looks_syscall. intros [e|] t; [done|]. unfold realpath_call, simple. by destruct (real t p). Qed.

Lemma looks_access p : looks (syscall (access_call p)).
Proof. apply looks_syscall. intros [e|] t; [done|]. unfold access_call, simple. by destruct (real t p). Qed.

Lemma looks_lstatIfPresent p : looks (lstatIfPresent p).
Proof.
  intros w. destruct (looks_lstat p w) as (n & u & H). exists n, u. unfold lstatIfPresent.
  by destruct (syscall (lstat_call p) w) as [[i|e] w'].
Qed.

Lemma looks_assertInside p q : looks (assertInside p q).
Proof. unfold assertInside. case_match; auto with omp. Qed.

Lemma looks_draw : looks draw_uuid.
Proof. intros w. exists (calls w), (S (uuids w)). by destruct w. Qed.

#[local] Hint Resolve looks_lstat looks_realpath looks_access looks_lstatIfPresent looks_assertInside
  looks_draw : omp.

(** A chain of reads and the branches between them. *)
Ltac look := repeat first [apply looks_bind; [auto with omp|intros ?] | case_match]; auto with omp.

Lemma looks_up_to r p : looks (no_symlink_up_to r p).
Proof. induction p as [|c p IH]; simpl; look. Qed.

Lemma looks_nearest p : looks (nearest_is_no_symlink p).
Proof. induction p as [|c p IH]; simpl; look. Qed.

#[local] Hint Resolve looks_up_to looks_nearest : omp.

Lemma looks_assert p r : looks (assertNoSymlinkComponents p r).
Proof. unfold assertNoSymlinkComponents. look. Qed.

#[local] Hint Resolve looks_assert : omp.

Lemma looks_unique n p label r : looks (unique_sibling n p label r).
Proof. induction n as [|n IH]; simpl; look. Qed.

Lemma looks_missing r p : looks (missing_directories r p).
Proof. induction p as [|c p IH]; simpl; look. Qed.

Lemma looks_refuse_existing p overwrite error : looks (refuse_existing p overwrite error).
Proof. unfold refuse_existing. look. Qed.

Lemma looks_assertOperationSafe o r : looks (assertOperationSafe o r).
Proof. destruct o; simpl; look. Qed.

#[local] Hint Resolve looks_refuse_existing looks_assertOperationSafe : omp.

Lemma looks_preflight r ops : looks (each ops (preflight r)).
Proof.
  induction ops as [|o ops IH]; simpl; [auto with omp|]. apply looks_bind; [|auto].
  apply looks_bind; [auto with omp|]. intros _. destruct o; look.
Qed.
End looks.

#[export] Hint Resolve looks_lstat looks_realpath looks_access looks_lstatIfPresent looks_assertInside
  looks_draw looks_assert looks_unique looks_missing looks_refuse_existing looks_assertOperationSafe
  looks_preflight : omp.

Section contained.
Context {host : Host} (root : path) (t0 : tree).
Hypothesis Habove : plain_above root t0.

Definition Inv (t : tree) : Prop := wf t /\ contained root t0 t.

Definition Safe {A} (P : tree -> Prop) (m : plan_comp A) (Q : A -> tree -> Prop) : Prop :=
  holds (fun w => Inv (files w)) (fun w => P (files w)) m (fun a w => Q a (files w)).

(** A path the checks have let through. *)
Definition sound (t : tree) (p : path) : Prop := root `suffix_of` p /\ clean t p.

(** ** Rules *)

Lemma safe_bind {A B} P (m : plan_comp A) (k : A -> plan_comp B) Q R :
  Safe P m Q -> (forall a, Safe (Q a) (k a) R) -> Safe P (cbind m k) R.
Proof. intros Hm Hk. by eapply holds_bind. Qed.

Lemma safe_weaken {A} (P P' : tree -> Prop) (m : plan_comp A) (Q Q' : A -> tree -> Prop) :
  (forall t, P t -> P' t) -> (forall a t, Q' a t -> Q a t) -> Safe P' m Q' -> Safe P m Q.
Proof. intros HP HQ. apply holds_weaken; auto. Qed.

Lemma safe_pre {A} (P P' : tree -> Prop) (m : plan_comp A) Q :
  (forall t, P t -> P' t) -> Safe P' m Q -> Safe P m Q.
Proof. intros HP. by apply safe_weaken. Qed.

Lemma safe_done {A} P (m : plan_comp A) Q : Safe P m Q -> Safe P m (fun _ _ => True).
Proof. intros H. eapply safe_weaken; [| |apply H]; auto. Qed.

Lemma safe_reads {A} P (m : plan_comp A) : reads m -> Safe P m (fun _ => P).
Proof. intros Hm w HI HP. unfold Inv in *. rewrite !Hm. split; [done|by intros]. Qed.

Lemma safe_call {A} (c : Disk.call A) P Q :
  orderly c ->
  (forall e t, Inv t -> P t -> contained root t0 (c e t).2 /\ forall a, (c e t).1 = Ok a -> Q a (c e t).2) ->
  Safe P (syscall c) Q.
Proof.
  intros Hc H w HI HP. destruct (H (fault (calls w)) (files w) HI HP) as [H1 H2].
  pose proof (Hc (fault (calls w)) (files w) (proj1 HI)) as Hwf.
  unfold syscall. destruct (c (fault (calls w)) (files w)) as [[a|e] t]; simpl in *;
    (split; [by split|]); [|done]. intros ? [= <-]. auto.
Qed.

(** A loop and a [try] keep what their body keeps. *)
Lemma safe_each {A} P (xs : list A) f :
  (forall x, Safe P (f x) (fun _ => P)) -> Safe P (each xs f) (fun _ => P).
Proof.
  intros Hf. induction xs as [|x xs IH]; simpl; [by intros w HI HP|].
  by apply (safe_bind _ _ _ (fun _ => P)).
Qed.

Lemma safe_gather {A} (xs : list A) f :
  (forall x, Safe (fun _ => True) (f x) (fun _ _ => True)) ->
  Safe (fun _ => True) (gather xs f) (fun _ _ => True).
Proof.
  intros Hf. induction xs as [|x xs IH]; simpl; [by intros w HI HP|].
  eapply safe_bind; [apply Hf|]. intros errors. eapply safe_bind; [done|]. intros more.
  by intros w HI HP.
Qed.

Lemma safe_caught P (m : plan_comp unit) :
  Safe P m (fun _ _ => True) -> Safe P (caught m) (fun _ _ => True).
Proof.
  intros Hm w HI HP. destruct (Hm w HI HP) as [H _]. unfold caught.
  by destruct (m w) as [[a|e] w'].
Qed.

Lemma reads_bind {A B} (m : plan_comp A) (k : A -> plan_comp B) :
  reads m -> (forall a, reads (k a)) -> reads (cbind m k).
Proof.
  intros Hm Hk w. unfold cbind. specialize (Hm w). destruct (m w) as [[a|e] w']; [|done].
  by rewrite Hk.
Qed.

(** ** The checks *)

Lemma lstatIfPresent_exact p w info :
  wf (files w) -> clean (files w) (dirname p) -> (lstatIfPresent p w).1 = Ok info -> files w p = info.
Proof.
  intros Hwf Hc. unfold lstatIfPresent, syscall, lstat_call, simple.
  destruct (fault (calls w)); simpl; [done|]. destruct (node_at (files w) p) as [n|e] eqn:Hn; simpl.
  - intros [= <-]. by apply node_at_clean.
  - apply node_at_absent in Hn; [|done]. destruct e; simpl; by intros [= <-].
Qed.

Set Default Proof Using "Type*".

Lemma inv_above t q : Inv t -> q `suffix_of` root -> q <> root -> is_link (t q) = false.
Proof.
  intros [_ Hc] Hq Hne. destruct (Hc q) as [->|(_ & -> & _)]; [|by apply Habove|done].
  intros H. apply Hne. by apply (anti_symm suffix).
Qed.

Lemma up_to_clean p w :
  Inv (files w) -> root `suffix_of` p -> (no_symlink_up_to root p w).1 = Ok tt -> clean (files w) p.
Proof.
  revert w. induction p as [|c p IH]; intros w HI Hp; simpl; unfold cbind.
  all: pose proof (fun q => looks_reads _ (looks_lstatIfPresent q)) as Hreads.
  - apply suffix_nil_inv in Hp as ->. specialize (Hreads [] w).
    pose proof (lstatIfPresent_exact [] w) as Hex.
    destruct (lstatIfPresent [] w) as [[info|e] w']; simpl in *; [|done].
    intros _ q ->%suffix_nil_inv. by rewrite (wf_root _ (proj1 HI)).
  - specialize (Hreads (c :: p) w). pose proof (lstatIfPresent_exact (c :: p) w) as Hex.
    destruct (lstatIfPresent (c :: p) w) as [[info|e] w']; simpl in *; [|done].
    destruct (isSymbolicLink info) eqn:Hl; [done|]. intros Hrest.
    assert (clean (files w) p) as Hcp.
    { case_decide as Hd.
      - intros q Hq. apply inv_above; [done|rewrite <- Hd; by apply suffix_cons_r|].
        intros ->. rewrite <- Hd in Hq. by apply not_below_tail in Hq.
      - rewrite <- Hreads. apply IH; [by rewrite Hreads| |done].
        apply below_cons in Hp as [->|]; done. }
    apply clean_cons; [done|]. rewrite (Hex info); [|apply HI|done|done].
    by destruct info as [[]|].
Qed.

Lemma safe_assert P p :
  Safe P (assertNoSymlinkComponents p root) (fun _ t => P t /\ sound t p).
Proof.
  pose proof (looks_reads _ (looks_assert p root)) as Hreads.
  intros w HI HP. rewrite Hreads. split; [done|]. intros [] H. rewrite Hreads. split; [done|].
  unfold assertNoSymlinkComponents, cbind, assertInside in H.
  destruct (escapes root p) eqn:Hesc; [done|]. simpl in H. apply escapes_below in Hesc.
  split; [done|]. apply up_to_clean; [done..|].
  destruct (no_symlink_up_to root p w) as [[[]|e] w']; [done|]. done.
Qed.

(** ** The calls that change the tree *)

Lemma contained_refl : contained root t0 t0.
Proof. by left. Qed.

Lemma contained_set t p n : contained root t0 t -> root `suffix_of` p -> contained root t0 (set_node p n t).
Proof. intros Ht Hp q Hq. rewrite set_node_ne by (by intros ->). by apply Ht. Qed.

Lemma clean_set t p q n : clean t q -> is_link n = false -> clean (set_node p n t) q.
Proof.
  intros Hq Hn r Hr. destruct (decide (r = p)) as [->|]; [by rewrite set_node_eq|].
  rewrite set_node_ne by done. by apply Hq.
Qed.

Lemma sound_set t p q n : sound t q -> is_link n = false -> sound (set_node p n t) q.
Proof. intros [Hr Hq] Hn. split; [done|by apply clean_set]. Qed.

Lemma sound_locate t p q : sound t p -> locate t p = Ok q -> q = p.
Proof using Type. intros [_ H]. apply locate_clean. by apply clean_dirname. Qed.

Lemma safe_writeFile p content mode :
  Safe (fun t => sound t p) (syscall (writeFile_call p content mode)) (fun _ t => sound t p).
Proof.
  apply safe_call; [auto with omp|]. intros e t [Hwf Hc] Hp. unfold writeFile_call.
  destruct (locate t p) as [q|] eqn:Hq; [|done]. apply (sound_locate _ _ _ Hp) in Hq as ->.
  destruct (t p); [done|].
  destruct e as [e|]; [destruct (made e)|]; simpl; (split; [|try done]); try done;
    try (apply contained_set; [done|apply Hp]).
  intros ? _. by apply sound_set.
Qed.

Lemma safe_chmod p mode :
  Safe (fun t => sound t p) (syscall (chmod_call p mode)) (fun _ t => sound t p).
Proof.
  apply safe_call; [auto with omp|]. intros [e|] t [Hwf Hc] Hp; [done|]. unfold chmod_call, simple.
  destruct (real t p) as [q|] eqn:Hq; simpl; [|done]. apply real_clean in Hq as ->; [|apply Hp].
  destruct (t p) as [[content m| |]|]; simpl; try done.
  split; [apply contained_set; [done|apply Hp]|]. intros ? _. by apply sound_set.
Qed.

Lemma safe_rename p q :
  Safe (fun t => sound t p /\ sound t q) (syscall (rename_call p q)) (fun _ _ => True).
Proof.
  apply safe_call; [auto with omp|]. intros [e|] t [Hwf Hc] [Hp Hq]; [done|]. unfold rename_call, simple.
  destruct (locate t p) as [p'|] eqn:Hp'; simpl; [|done]. apply (sound_locate _ _ _ Hp) in Hp' as ->.
  destruct (locate t q) as [q'|] eqn:Hq'; simpl; [|done]. apply (sound_locate _ _ _ Hq) in Hq' as ->.
  destruct (rename_tree p q t) as [t'|] eqn:Ht; simpl; [|done]. split; [|done].
  destruct (rename_tree_graft _ _ _ _ Ht) as [->|(-> & _)]; [done|].
  intros r Hr. rewrite graft_beside; [by apply Hc|..]; intros H; apply Hr;
    etrans; try apply H; [apply Hp|apply Hq].
Qed.

Lemma safe_link p q :
  Safe (fun t => sound t p /\ sound t q) (syscall (link_call p q)) (fun _ t => sound t p).
Proof.
  apply safe_call; [auto with omp|]. intros [e|] t [Hwf Hc] [Hp Hq]; [done|]. unfold link_call, simple.
  destruct (locate t p) as [p'|] eqn:Hp'; simpl; [|done]. apply (sound_locate _ _ _ Hp) in Hp' as ->.
  destruct (locate t q) as [q'|] eqn:Hq'; simpl; [|done]. apply (sound_locate _ _ _ Hq) in Hq' as ->.
  destruct (t p) as [n|] eqn:Ht; simpl; [|done].
  assert (is_link (Some n) = false) as Hn by (rewrite <- Ht; apply Hp; done).
  destruct n, (t q); simpl; try done;
    (split; [apply contained_set; [done|apply Hq]|intros ? _; by apply sound_set]).
Qed.

Lemma safe_unlink p : Safe (fun t => sound t p) (syscall (unlink_call p)) (fun _ _ => True).
Proof.
  apply safe_call; [auto with omp|]. intros [e|] t [Hwf Hc] Hp; [done|]. unfold unlink_call, simple.
  destruct (locate t p) as [q|] eqn:Hq; simpl; [|done]. apply (sound_locate _ _ _ Hp) in Hq as ->.
  destruct (t p) as [[| |]|]; simpl; try done; (split; [apply contained_set; [done|apply Hp]|done]).
Qed.

Lemma lost_below e q r : lost_with e q r = true -> q `suffix_of` r.
Proof. destruct r; simpl; intros; bools; done. Qed.

Lemma safe_rm p recursive : Safe (fun t => sound t p) (syscall (rm_call p recursive)) (fun _ _ => True).
Proof.
  apply safe_call; [auto with omp|]. intros e t [Hwf Hc] Hp. unfold rm_call.
  destruct (locate t p) as [[|c d]|] eqn:Hq; try done. apply (sound_locate _ _ _ Hp) in Hq as <-.
  assert (forall r, ~ root `suffix_of` r -> ~ c :: d `suffix_of` r) as Hout.
  { intros r Hr H. apply Hr. etrans; [apply Hp|done]. }
  destruct e as [e|].
  - split; [|done]. destruct recursive; [|done]. intros r Hr.
    simpl. destruct (lost_with e (c :: d) r) eqn:Hl; [by apply lost_below, Hout in Hl|by apply Hc].
  - destruct (t (c :: d)) as [[| |]|]; try done.
    1, 3: split; [apply contained_set; [done|apply Hp]|done].
    destruct recursive; [|done]. split; [|done]. intros r Hr.
    simpl. rewrite prune_beside by auto. by apply Hc.
Qed.

Lemma contained_make e cur todo t :
  contained root t0 t -> clean t (rev todo ++ cur) -> root `suffix_of` rev todo ++ cur ->
  contained root t0 (make_directories e cur todo t).2.
Proof.
  revert e cur t. induction todo as [|c todo IH]; intros e cur t Hc Hcl Hr; simpl; [done|].
  simpl in Hcl, Hr. rewrite <- app_assoc in Hcl, Hr. simpl in Hcl, Hr.
  destruct (t (c :: cur)) as [[| |absolute target]|] eqn:Hn; [done|by apply IH| |].
  { assert (is_link (t (c :: cur)) = false) as Hl by (apply Hcl; by exists (rev todo)).
    by rewrite Hn in Hl. }
  assert (contained root t0 (set_node (c :: cur) (Some Directory) t)) as Hset.
  { intros p Hp. destruct (decide (p = c :: cur)) as [->|]; [|rewrite set_node_ne by done; by apply Hc].
    right. rewrite set_node_eq. destruct (Hc _ Hp) as [Ht|(_ & Ht & _)]; [|by rewrite Ht in Hn].
    split; [congruence|]. split; [done|].
    destruct (suffix_weak_total (c :: cur) root (rev todo ++ c :: cur)) as [?|?]; try done.
    by exists (rev todo). }
  destruct e as [[e [|n] l]|]; [done|..]; apply IH; auto using clean_set.
Qed.

Lemma safe_mkdirp p : Safe (fun t => sound t p) (syscall (mkdirp_call p)) (fun _ _ => True).
Proof.
  apply safe_call; [auto with omp|]. intros e t [Hwf Hc] [Hr Hp]. unfold mkdirp_call.
  assert (rev (rev p) ++ [] = p) as Hpp by (rewrite rev_involutive; apply app_nil_r).
  pose proof (contained_make e [] (rev p) t Hc) as H. rewrite Hpp in H. specialize (H Hp Hr).
  by destruct (make_directories e [] (rev p) t).
Qed.

(** ** The operations *)

Lemma reads_modify f : (forall w, files (f w) = files w) -> reads (modify f).
Proof. intros Hf w. apply Hf. Qed.

Lemma reads_add_created p : reads (add_created p).
Proof. exact (fun _ => eq_refl). Qed.

Lemma reads_path_of i : reads (path_of i).
Proof. exact (fun _ => eq_refl). Qed.

Lemma reads_push_artifact a : reads (push_artifact a).
Proof. exact (fun _ => eq_refl). Qed.

Lemma reads_push_undo u : reads (push_undo u).
Proof. exact (fun _ => eq_refl). Qed.

Lemma reads_set_undo u : reads (set_undo u).
Proof. exact (fun _ => eq_refl). Qed.

Lemma reads_set_artifact i f : reads (set_artifact i f).
Proof. exact (fun _ => eq_refl). Qed.

Lemma reads_rewrite p q : reads (rewriteArtifacts p q).
Proof. exact (fun _ => eq_refl). Qed.

#[local] Hint Resolve reads_bind reads_add_created reads_path_of reads_push_artifact
  reads_push_undo reads_set_undo reads_set_artifact reads_rewrite : core.

(** One step of a program: a check, a read, or a call with its rule. *)
Ltac check := eapply safe_bind; [apply safe_assert|intros ?; cbv beta].
Ltac read := eapply safe_bind; [apply safe_reads; auto with omp|intros ?; cbv beta].
Ltac by_rule rule := eapply safe_bind; [eapply safe_pre; [|apply rule]; simpl; tauto|intros ?; cbv beta].
Ltac finish rule := eapply safe_done, safe_pre; [|apply rule]; simpl; tauto.
Ltac ends := (apply holds_throw || (intros w HI HP; by split)).

(** Whatever it does, it keeps the tree contained. *)
Definition Contained {A} (m : plan_comp A) : Prop := Safe (fun _ => True) m (fun _ _ => True).

Lemma contained_bind {A B} (m : plan_comp A) (k : A -> plan_comp B) :
  Contained m -> (forall a, Contained (k a)) -> Contained (cbind m k).
Proof. intros Hm Hk. by eapply safe_bind. Qed.

Lemma contained_reads {A} (m : plan_comp A) : reads m -> Contained m.
Proof. intros. by apply (safe_reads (fun _ => True)). Qed.

Lemma contained_pre {A} P (m : plan_comp A) : Contained m -> Safe P m (fun _ _ => True).
Proof. by apply safe_pre. Qed.

Lemma contained_remove_path p recursive : Contained (remove_path p root recursive).
Proof. unfold Contained, remove_path. check. finish safe_rm. Qed.

Lemma contained_rename p q : Contained (renameWithSafety p q root).
Proof. unfold Contained, renameWithSafety. check. check. finish safe_rename. Qed.

Lemma contained_caught m : Contained m -> Contained (caught m).
Proof. apply safe_caught. Qed.

Lemma contained_gather {A} (xs : list A) f : (forall x, Contained (f x)) -> Contained (gather xs f).
Proof. apply safe_gather. Qed.

#[local] Hint Resolve contained_bind contained_remove_path contained_rename contained_caught
  contained_gather contained_reads : core.

Lemma contained_cleanupArtifacts success : Contained (cleanupArtifacts root success).
Proof.
  apply contained_bind; [auto with omp|]. intros all. apply contained_gather. intros a. auto with omp.
Qed.

Lemma contained_cleanupCreated ds : Contained (cleanupCreatedDirectories ds root).
Proof. apply contained_gather. intros a. auto with omp. Qed.

Lemma contained_ensureDirectory p : Contained (ensureDirectory p root).
Proof.
  unfold Contained, ensureDirectory. read. check. read.
  eapply safe_bind; [apply safe_each; intros x; apply safe_reads; auto with omp|intros ?; cbv beta].
  by_rule safe_mkdirp. read. ends.
Qed.

#[local] Hint Resolve contained_cleanupArtifacts contained_cleanupCreated contained_ensureDirectory : core.

Lemma contained_stage_write p content overwrite mode :
  Contained (stage_write root p content overwrite mode).
Proof.
  unfold Contained, stage_write. read. eapply safe_bind; [apply safe_reads; auto with omp|intros existing; simpl].
  case_match; [ends|]. case_match; [ends|]. apply contained_bind; [auto with omp|]. intros created.
  unfold Contained. read. eapply safe_bind; [apply safe_reads, looks_reads, looks_unique|intros stagePath; simpl].
  check. by_rule safe_writeFile. eapply safe_bind; [apply safe_reads; auto with omp|intros i; simpl].
  destruct existing; [by_rule safe_chmod|read]; ends.
Qed.

Lemma contained_stage_all ops : Contained (stage_all root ops).
Proof.
  induction ops as [|[] ops IH]; simpl; auto using contained_stage_write with omp.
Qed.

Lemma contained_make_way p created staged existing : Contained (make_way root p created staged existing).
Proof.
  unfold Contained, make_way. read. check. eapply safe_bind; [apply safe_reads, looks_reads, looks_unique|intros backupPath; simpl].
  check. by_rule safe_rename. read. read. read. read. check. by_rule safe_chmod. ends.
Qed.

Lemma contained_install p created staged saved : Contained (install root p created staged saved).
Proof.
  unfold Contained, install. check. eapply safe_bind; [apply safe_reads; auto with omp|intros stagePath; simpl].
  check. destruct saved.
  - by_rule safe_rename. read. by apply (safe_reads (fun _ => True)).
  - by_rule safe_link. read. by_rule safe_unlink. by apply (safe_reads (fun _ => True)).
Qed.

#[local] Hint Resolve contained_stage_all contained_make_way contained_install contained_pre : core.

Lemma contained_applyWrite p overwrite staged : Contained (applyWriteOperation root p overwrite staged).
Proof.
  destruct staged as [staged|]; simpl; [|auto with omp].
  repeat (apply contained_bind; [auto with omp|intros ?]). repeat case_match; auto with omp.
Qed.

Lemma contained_applyMkdir p : Contained (applyMkdirOperation root p).
Proof. unfold applyMkdirOperation. auto 6 with omp. Qed.

Lemma contained_applyMove from to : Contained (applyMoveOperation root from to).
Proof.
  apply contained_bind; [apply contained_reads, reads_bind; auto with omp|]. intros _.
  apply contained_bind; [auto with omp|]. intros source. case_match; [auto with omp|].
  apply contained_bind; [auto with omp|]. intros destination. case_match; [auto with omp|].
  apply contained_bind; [auto with omp|]. intros created. apply contained_bind; [auto with omp|]. intros _.
  unfold Contained, assertOperationSafe. eapply safe_bind; [|intros ?; cbv beta].
  { check. apply safe_assert. }
  by_rule safe_rename. read. by apply (safe_reads (fun _ => True)).
Qed.

Lemma contained_applyRemove p : Contained (applyRemoveOperation root p).
Proof.
  apply contained_bind; [auto with omp|]. intros _. apply contained_bind; [auto with omp|]. intros existing.
  case_match; [auto with omp|]. unfold Contained.
  eapply safe_bind; [apply safe_reads, looks_reads, looks_unique|intros backupPath; cbv beta].
  check. read. check. by_rule safe_rename. read. read. by apply (safe_reads (fun _ => True)).
Qed.

Lemma contained_apply_all ops : Contained (apply_all root ops).
Proof.
  induction ops as [|[[] staged] ops IH]; simpl;
    auto 6 using contained_applyMkdir, contained_applyWrite, contained_applyMove, contained_applyRemove with omp.
Qed.

Lemma contained_put_back p i : Contained (put_back root p i).
Proof. unfold put_back. auto 7 with omp. Qed.

Lemma contained_joined errors : Contained (joined errors).
Proof using All. destruct errors; simpl; auto with omp. Qed.

Lemma contained_when b m : Contained m -> Contained (when b m).
Proof using All. destruct b; simpl; auto with omp. Qed.

Lemma contained_run_undo u : Contained (run_undo root u).
Proof.
  destruct u as [created|p created installed saved|from to created moved|p saved]; simpl;
    [..|destruct saved; auto using contained_put_back with omp];
    repeat (apply contained_bind; [|intros ?]); auto using contained_joined with omp;
    apply contained_caught; [apply contained_when|destruct saved|apply contained_when];
    auto 6 using contained_put_back with omp.
Qed.

Lemma contained_roll_back plan error :
  root = FilePlan.root plan -> Contained (roll_back plan error).
Proof.
  unfold roll_back. intros <-. apply contained_bind.
  - apply contained_bind; [auto with omp|]. intros undos. apply contained_gather. intros u.
    auto using contained_run_undo with omp.
  - intros e1. repeat (apply contained_bind; [auto with omp|intros ?]). auto with omp.
Qed.

Lemma contained_applyFilePlan plan dryRun :
  root = FilePlan.root plan -> Contained (applyFilePlan plan dryRun).
Proof.
  intros Hr. unfold applyFilePlan. destruct dryRun; [auto with omp|].
  apply contained_bind; [unfold preflightFilePlan; rewrite <- Hr; auto using looks_preflight with omp|]. intros _.
  apply contained_bind; [by apply contained_reads|]. intros _ w HI HP.
  assert (Contained (transact plan)) as Ht.
  { unfold transact, stageWrites. rewrite <- Hr. auto using contained_apply_all with omp. }
  destruct (Ht w HI HP) as [HI' _]. destruct (transact plan w) as [[applied|e] w'].
  - apply contained_bind; [rewrite <- Hr; auto with omp| |done|done]. intros [|e errors]; auto with omp.
  - by apply contained_roll_back.
Qed.
End contained.

(** C11: Whatever the plan, its outcome, the faults of the host and the rollback
    they cause, [applyFilePlan] keeps to the root of the plan: no path outside
    it changes, symbolic links inside the root notwithstanding, except that the
    directories above a root that was missing may be made; and the tree stays
    well-formed. *)
Theorem plan_stays_inside {host : Host} plan dryRun w :
  wf (files w) -> plain_above (root plan) (files w) ->
  wf (files (applyFilePlan plan dryRun w).2) /\
  contained (root plan) (files w) (files (applyFilePlan plan dryRun w).2).
Proof.
  intros Hwf Habove. apply (contained_applyFilePlan (root plan) (files w) Habove plan dryRun eq_refl w).
  - split; [done|]. by left.
  - done.
Qed.

(** ** Planning *)

(** The operation [o] is the write that [x] asks for, below [r]. *)
Definition PlannedAs (r : path) (overwrites : bool) (x : PlannedWrite) (o : FileOperation) : Prop :=
  exists p, resolveInside r (write_path x) = Ok p /\ r `suffix_of` p /\
    o = Write p (write_content x) (default overwrites (write_overwrite x)) (write_mode x).

Lemma resolveInside_below r child p : resolveInside r child = Ok p -> r `suffix_of` p.
Proof.
  unfold resolveInside. case_match; [done|]. case_match eqn:Hesc; [done|]. intros [= <-].
  by apply escapes_below.
Qed.

Lemma cbind_inv {S E A B} (m : comp S E A) (k : A -> comp S E B) s b :
  (cbind m k s).1 = Ok b -> exists a, (m s).1 = Ok a /\ (k a (m s).2).1 = Ok b.
Proof. unfold cbind. destruct (m s) as [[a|e] s']; [|done]. by exists a. Qed.

Lemma plan_writes_spec {host : Host} r overwrites seen xs w ops :
  (plan_writes r overwrites seen xs w).1 = Ok ops ->
  Forall2 (PlannedAs r overwrites) xs ops /\ NoDup (ops ≫= operationPaths) /\
  Forall (fun p => p ∉ seen) (ops ≫= operationPaths).
Proof.
  revert seen w ops. induction xs as [|x xs IH]; intros seen w ops; cbn [plan_writes].
  { intros [= <-]. split_and!; constructor. }
  intros (p & Hp & Hk)%cbind_inv. unfold lift in Hp, Hk. simpl in Hp, Hk. case_decide as Hseen; [done|].
  apply cbind_inv in Hk as (? & _ & Hk). apply cbind_inv in Hk as (existing & _ & Hk). case_match; [done|].
  apply cbind_inv in Hk as (rest & Hrest & [= <-]).
  destruct (IH _ _ _ Hrest) as (H1 & H2 & H3). rewrite bind_cons. simpl. split_and!.
  - constructor; [|done]. exists p. split_and!; [done|by eapply resolveInside_below|done].
  - constructor; [|done]. intros Hin. rewrite Forall_forall in H3. apply (H3 p Hin). by left.
  - constructor; [done|]. eapply Forall_impl; [apply H3|]. intros q Hq Hin. apply Hq. by right.
Qed.

(** A plan of writes has one write for each that was asked for, in their order,
    at distinct paths below its root. *)
Theorem file_plan_is_what_was_asked {host : Host} root xs overwrite w plan :
  (createFilePlan root xs overwrite w).1 = Ok plan ->
  FilePlan.root plan = resolve_path cwd root /\
  Forall2 (PlannedAs (FilePlan.root plan) (default false overwrite)) xs (operations plan) /\
  NoDup (operations plan ≫= operationPaths).
Proof.
  unfold createFilePlan. intros (ops & Hops & [= <-])%cbind_inv.
  destruct (plan_writes_spec _ _ _ _ _ _ Hops) as (H1 & H2 & _). done.
Qed.

(** ** A project to try the plans on *)

(** A project /w with two files and a directory, and a link /link to /w. *)
Definition sample_tree : tree := tree_of
  [([], Directory); (["w"], Directory); (["a"; "w"], File [1%N] 420); (["d"; "w"], Directory);
   (["x"; "d"; "w"], File [2%N] 384); (["link"], Symlink true [Name "w"])].

Definition sample_world : World := mkWorld sample_tree 0 0 [] [] [].

(** The host that refuses the calls [refused]. *)
Definition sample_host (refused : nat -> bool) : Host := {|
  fault n := if refused n then Some (mkFault "EIO" 0 (fun _ => false)) else None;
  randomUUID n := pretty n;
  umask := 18;
  cwd := ["w"];
|}.

Lemma sample_wf : wf sample_tree.
Proof.
  apply wf_tree_of; [done|]. repeat (apply Forall_cons; split; [vm_compute; tauto|]). by apply Forall_nil.
Qed.

Lemma sample_above p : p `suffix_of` ["w"] -> p <> ["w"] -> is_link (sample_tree p) = false.
Proof. by intros [->| ->%suffix_nil_inv]%below_cons. Qed.

Lemma plan_stays_inside_witness :
  exists plan, root plan = ["w"] /\ operations plan = [Write ["b"; "x"; "w"] (Text "b") false None; Remove ["d"; "w"]] /\
    contained ["w"] sample_tree
      (files (@applyFilePlan (sample_host (fun n => bool_decide (n = 160%nat))) plan false sample_world).2).
Proof.
  exists (mkPlan ["w"] [Write ["b"; "x"; "w"] (Text "b") false None; Remove ["d"; "w"]]).
  split; [done|]. split; [done|].
  apply (@plan_stays_inside (sample_host (fun n => bool_decide (n = 160%nat)))
    (mkPlan ["w"] [Write ["b"; "x"; "w"] (Text "b") false None; Remove ["d"; "w"]]) false sample_world);
    [apply sample_wf|exact sample_above].
Defined.

(** Below a link a missing root is made before the link is refused: of
    /link/n/p only the nearest ancestor that exists, /link/n, is looked at. *)
Lemma missing_root_below_link :
  let t := tree_of [([], Directory); (["w"], Directory); (["n"; "w"], Directory); (["link"], Symlink true [Name "w"])] in
  let w := mkWorld t 0 0 [] [] [] in
  let host := sample_host (fun _ => false) in
  exists plan w1, createFilePlan "/link/n/p" [mkPlannedWrite "a" (Text "a") None None] None w = (Ok plan, w1) /\
    files w1 ["p"; "n"; "w"] = None /\
    is_ok (applyFilePlan plan false w1).1 = false /\
    files (applyFilePlan plan false w1).2 ["p"; "n"; "w"] = Some Directory.
Proof.
  intros t w host. eexists _, _. split; [reflexivity|]. split_and!; vm_compute; reflexivity.
Qed.
