(* ===== verification/PlanRollback.v ===== *)
(** * A removal that fails is undone

    What the calls of file-plan.ts do on a host that refuses none ([quiet]),
    and the rollback of a plan of removals: [Undoes] says, for an undo stack, a
    tree and a table of artifacts, which tree the stack leads back to. *)

From S2P Require Import Prelude RecordUpdate Disk FilePlan PlanContainment.
From Stdlib Require Import FunctionalExtensionality.
From stdpp Require Import options.

(** ** Trees *)

Lemma rebase_app (k p q : path) : rebase p q (k ++ p) = k ++ q.
Proof. unfold rebase. rewrite length_app, take_app_length'; [done|lia]. Qed.

(** A rename to a free place and back changes nothing. *)
Lemma graft_back t p q :
  wf t -> t q = None -> ~ p `suffix_of` q -> ~ q `suffix_of` p ->
  graft q p (graft p q t) = t.
Proof.
  intros Hwf Hq Hpq Hqp. apply functional_extensionality. intros r.
  destruct (decide (p `suffix_of` r)) as [[k ->]|Hp]; [by rewrite !graft_to|].
  destruct (decide (q `suffix_of` r)) as [Hr|Hr].
  - rewrite graft_from by done. symmetry. by eapply wf_below.
  - by rewrite !graft_beside.
Qed.

Lemma siblings_beside (c c' : string) (d : path) : c <> c' -> ~ c :: d `suffix_of` c' :: d.
Proof. intros Hne [[= ->]|H]%below_cons; [done|]. by apply not_below_tail in H. Qed.

(** ** Artifacts *)

Definition present (t : tree) (a : TransactionArtifact) : Prop := t (artifact_path a) <> None.

(** No cleanup removes it. *)
Definition off (a : TransactionArtifact) : Prop := cleanupOnFailure a = false /\ cleanupOnSuccess a = false.

Lemma rewrite_back t p q a :
  wf t -> t q = None -> present t a -> rewrite_artifact q p (rewrite_artifact p q a) = a.
Proof.
  intros Hwf Hq Ha. destruct a as [r k s f]. unfold present, rewrite_artifact in *. simpl in *.
  destruct (decide (p `suffix_of` r)) as [Hp|]; simpl.
  - destruct Hp as [j ->]. rewrite rebase_app, decide_True by (by exists j). simpl.
    by rewrite rebase_app.
  - rewrite decide_False; [done|]. intros H. apply Ha. by eapply wf_below.
Qed.

Lemma off_rewrite p q a : off a -> off (rewrite_artifact p q a).
Proof. unfold rewrite_artifact. by case_decide. Qed.

Lemma present_graft t p q a :
  wf t -> t q = None -> ~ q `suffix_of` p -> present t a -> present (graft p q t) (rewrite_artifact p q a).
Proof.
  intros Hwf Hq Hqp. unfold present, rewrite_artifact. case_decide as Hp; simpl.
  - destruct Hp as [k Hk]. simpl in Hk. rewrite Hk, rebase_app. by rewrite graft_to.
  - intros Ha. rewrite graft_beside; [done..|]. intros H. apply Ha. by eapply wf_below.
Qed.

(** ** A host that refuses nothing *)

Section quiet.
Context {host : Host}.

(** The host refuses no call from the [n]-th on. *)
Definition quiet (n : nat) : Prop := forall m, (n <= m)%nat -> fault m = None.

(** [w] some calls later. *)
Definition later (n : nat) (w : World) : World := w <| calls ::= Nat.add n |>.

Lemma later_later n m w : later n (later m w) = later (n + m) w.
Proof. destruct w. unfold later. simpl. f_equal. lia. Qed.

Lemma quiet_later n m : quiet m -> quiet (n + m).
Proof. intros Hq k Hk. apply Hq. lia. Qed.

Ltac quiets := simpl; repeat apply quiet_later; done.

(** [m] does nothing but calls, and returns [a]. *)
Definition returns {A} (m : plan_comp A) (w : World) (a : A) : Prop :=
  exists n, m w = (Ok a, later n w).

Lemma returns_bind {A B} (m : plan_comp A) (k : A -> plan_comp B) w a b :
  returns m w a -> (forall n, returns (k a) (later n w) b) -> returns (cbind m k) w b.
Proof.
  intros [n Hm] Hk. destruct (Hk n) as [n' Hn']. exists (n' + n)%nat.
  unfold cbind. by rewrite Hm, Hn', later_later.
Qed.

Lemma returns_ret {A} (a : A) w : returns (cret a) w a.
Proof. exists 0%nat. by destruct w. Qed.

Lemma returns_lstat w p n :
  quiet (calls w) -> wf (files w) -> files w p = Some n -> returns (lstatIfPresent p) w (Some n).
Proof.
  intros Hq Hwf Hp. exists 1%nat. unfold lstatIfPresent, syscall, lstat_call, simple.
  rewrite Hq, (node_at_present _ _ _ Hwf Hp) by done. by destruct w.
Qed.

Lemma returns_lstat_absent w c d :
  quiet (calls w) -> wf (files w) -> files w d = Some Directory -> files w (c :: d) = None ->
  returns (lstatIfPresent (c :: d)) w None.
Proof.
  intros Hq Hwf Hd Hp. exists 1%nat. unfold lstatIfPresent, syscall, lstat_call, simple, node_at.
  rewrite Hq, locate_wf by done. cbn [result_bind]. rewrite Hp. by destruct w.
Qed.

(** The walk up to the root meets directories only. *)
Lemma returns_up_to r p w :
  quiet (calls w) -> wf (files w) -> r `suffix_of` p -> files w p <> None ->
  is_link (files w p) = false -> returns (no_symlink_up_to r p) w tt.
Proof.
  revert w. induction p as [|c p IH]; intros w Hq Hwf Hr Hp Hl; simpl.
  all: destruct (files w _) as [n|] eqn:Hn; [|done].
  all: eapply returns_bind; [by eapply returns_lstat|intros m].
  all: assert (isSymbolicLink (Some n) = false) as -> by (by destruct n).
  - case_decide; apply returns_ret.
  - case_decide as Hd; [apply returns_ret|].
    assert (files w p = Some Directory) as Hdir by (eapply wf_parent; [done|by rewrite Hn]).
    apply IH; simpl; rewrite ?Hdir; try done; [quiets|].
    apply below_cons in Hr as [->|]; done.
Qed.

Lemma returns_realpath w p :
  quiet (calls w) -> wf (files w) -> files w p = Some Directory -> returns (syscall (realpath_call p)) w p.
Proof.
  intros Hq Hwf Hp. exists 1%nat. unfold syscall, realpath_call, simple.
  rewrite Hq by done. rewrite real_wf by (rewrite ?Hp; done). by destruct w.
Qed.

(** A path in a directory below the root passes the checks. *)
Lemma returns_assert r c d w :
  quiet (calls w) -> wf (files w) -> escapes r (c :: d) = false -> r `suffix_of` d ->
  files w d = Some Directory -> is_link (files w (c :: d)) = false -> returns (assertNoSymlinkComponents (c :: d) r) w tt.
Proof.
  intros Hq Hwf Hesc Hr Hd Hl. unfold assertNoSymlinkComponents, assertInside.
  assert (files w r = Some Directory) as Hroot.
  { destruct (decide (r = d)) as [->|]; [done|]. eapply wf_above; [done|by rewrite Hd|done..]. }
  rewrite Hesc.
  eapply returns_bind; [apply returns_ret|intros n1].
  eapply (returns_bind _ _ _ tt).
  { destruct (files w (c :: d)) as [n|] eqn:Hn.
    - apply returns_up_to; simpl; rewrite ?Hn; try done; [quiets|by apply suffix_cons_r].
    - simpl. eapply returns_bind; [apply returns_lstat_absent; try done; quiets|].
      intros n2. simpl. case_decide as Hcd; [subst r; by apply not_below_tail in Hr|].
      apply returns_up_to; simpl; rewrite ?Hd; try done; quiets. }
  intros n2. eapply returns_bind; [apply returns_lstat; [quiets|done|exact Hroot]|].
  intros n3. simpl. eapply returns_bind; [apply returns_realpath; [quiets|done..]|].
  intros n4. rewrite decide_True by done. apply returns_ret.
Qed.
End quiet.

(** ** What the checks tell *)

Section checks.
Context {host : Host} (root : path) (t0 : tree) (I : World -> Prop).
Hypothesis Habove : plain_above root t0.
Hypothesis Hstable : stable I.
Hypothesis Hinv : forall w, I w -> Inv root t0 (files w).

Set Default Proof Using "Type*".

Lemma holds_assert P p :
  stable P ->
  holds I P (assertNoSymlinkComponents p root)
    (fun _ w => P w /\ sound root (files w) p /\ escapes root p = false).
Proof.
  intros HP w HI Hw. destruct (looks_assert p root w) as (n & u & Heq).
  destruct (safe_assert root t0 Habove (fun _ => True) p w (Hinv _ HI) Logic.I) as [_ H].
  rewrite Heq in H |- *. split; [auto|]. intros [] Hok. split; [auto|].
  destruct (H tt Hok) as [_ Hs]. split; [done|].
  unfold assertNoSymlinkComponents, cbind, assertInside in Hok. by destruct (escapes root p).
Qed.

Lemma holds_lstat P p :
  stable P -> (forall w, P w -> clean (files w) (dirname p)) ->
  holds I P (lstatIfPresent p) (fun info w => P w /\ files w p = info).
Proof.
  intros HP Hc w HI Hw. destruct (looks_lstatIfPresent p w) as (n & u & Heq).
  pose proof (lstatIfPresent_exact p w) as Hex. rewrite Heq. split; [auto|]. intros info Hok.
  split; [auto|]. apply Hex; [apply (Hinv _ HI)|by apply Hc|done].
Qed.

(** The sibling is free and has passed the checks. *)
Lemma holds_unique P n p label :
  stable P ->
  holds I P (unique_sibling n p label root)
    (fun q w => P w /\ files w q = None /\ sound root (files w) q /\ escapes root q = false /\
                exists b, q = (TRANSACTION_PREFIX +:+ b)%stdpp :: dirname p).
Proof.
  intros HP. induction n as [|n IH]; simpl; [apply holds_throw|].
  eapply holds_bind; [apply holds_looks; auto using looks_draw|intros uuid].
  eapply holds_bind; [by apply holds_assert|intros []].
  eapply holds_bind.
  - apply (holds_lstat (fun w => P w /\ sound root (files w) _ /\ escapes root _ = false)).
    + intros w n' u (H1 & H2 & H3). auto.
    + intros w (_ & H2 & _). apply clean_dirname, H2.
  - intros [node|]; cbv beta.
    + eapply holds_weaken; [| |apply IH]; simpl; tauto.
    + intros w HI ((H1 & H2 & H3) & H4). split; [done|]. intros ? [= <-]. split_and!; try done.
      by exists (label +:+ "-" +:+ uuid)%stdpp.
Qed.
End checks.

(** ** Removals *)

(** [p] was renamed to its sibling [q], and both are in the project. *)
Record Moved (root : path) (t : tree) (p q : path) : Prop := mkMoved {
  moved_names : exists c b d, p = c :: d /\ q = b :: d /\ c <> b /\ root `suffix_of` d;
  moved_from : t p <> None /\ is_link (t p) = false;
  moved_free : t q = None;
  moved_inside : escapes root p = false /\ escapes root q = false;
}.

(** The undo stack leads from the tree [t] with the artifacts [arts] to [t0]. *)
Fixpoint Undoes (root : path) (t0 : tree) (us : list Undo) (t : tree) (arts : list TransactionArtifact)
  : Prop :=
  match us with
  | [] => t = t0 /\ arts = []
  | UndoRemove p None :: us => Undoes root t0 us t arts
  | UndoRemove p (Some i) :: us =>
      exists q t' arts',
        t = graft p q t' /\ i = length arts' /\
        arts = (rewrite_artifact p q <$> arts') ++ [mkArtifact q backup true true] /\
        Moved root t' p q /\ wf t' /\ Forall (present t') arts' /\ Undoes root t0 us t' arts'
  | _ => False
  end.

Lemma moved_sides root t p q : Moved root t p q -> ~ p `suffix_of` q /\ ~ q `suffix_of` p.
Proof.
  intros [(c & b & d & -> & -> & Hne & _) _ _ _]. split; apply siblings_beside; congruence.
Qed.

Lemma wf_moved root t p q : wf t -> Moved root t p q -> wf (graft p q t).
Proof.
  intros Hwf HM. destruct (moved_sides _ _ _ _ HM) as [H1 _].
  destruct HM as [(c & b & d & -> & -> & Hne & Hr) [Hp _] Hq _].
  apply wf_graft; rewrite ?Hq; try done. by eapply wf_parent.
Qed.

Section removal.
Context {host : Host} (root : path) (t0 : tree).
Hypothesis Habove : plain_above root t0.

(** What holds between the steps of a plan of removals. *)
Definition Removing (w : World) : Prop :=
  Inv root t0 (files w) /\ createdDirectories w = [] /\
  Forall (present (files w)) (artifacts w) /\ Undoes root t0 (undoStack w) (files w) (artifacts w).

Lemma removing_inv w : Removing w -> Inv root t0 (files w).
Proof. by intros [H _]. Qed.

(** The rename of a removal and its books. *)
Definition remove_tail (p q : path) : plan_comp unit :=
  syscall (rename_call p q) ;?
  rewriteArtifacts p q ;?
  i <-? push_artifact (mkArtifact q backup true true) ;
  set_undo (UndoRemove p (Some i)).

Lemma rename_sound t e p q :
  wf t -> sound root t p -> sound root t q -> t q = None ->
  (exists err, rename_call p q e t = (Throw err, t)) \/
  rename_call p q e t = (Ok tt, graft p q t) /\ t p <> None /\ p <> [].
Proof.
  intros Hwf Hp Hq Hfree. unfold rename_call, simple. destruct e as [e|]; [by left; eexists|].
  destruct (locate t p) as [p'|] eqn:Hlp; simpl; [|by left; eexists].
  apply (sound_locate root) in Hlp as ->; [|done].
  destruct (locate t q) as [q'|] eqn:Hlq; simpl; [|by left; eexists].
  apply (sound_locate root) in Hlq as ->; [|done].
  unfold rename_tree. rewrite Hfree. destruct (t p) as [n|] eqn:Htp; simpl; [|by left; eexists].
  destruct p, q; try (by left; eexists); repeat case_decide; try (by left; eexists); simplify_eq; by right.
Qed.

Lemma moved_sound t p q b :
  t p <> None -> p <> [] -> t q = None -> sound root t p -> sound root t q ->
  escapes root p = false -> escapes root q = false -> q = b :: dirname p -> Moved root t p q.
Proof.
  intros Hp Hnil Hq Hsp Hsq Hep Heq Hb. destruct p as [|c d]; [done|]. simpl in Hb. subst q.
  assert (c <> b) as Hne by congruence.
  split; try done; [|split; [done|by apply Hsp]]. exists c, b, d. split_and!; try done.
  destruct Hsp as [[->|Hd]%below_cons _]; [|done].
  destruct Hsq as [[[= ->]|Hd]%below_cons _]; [done|]. by apply not_below_tail in Hd.
Qed.

Lemma holds_remove_tail p q :
  holds Removing
    (fun w => (exists us, undoStack w = UndoRemove p None :: us) /\
       (files w q = None /\ sound root (files w) q /\ escapes root q = false /\
        exists b, q = b :: dirname p) /\
       sound root (files w) p /\ escapes root p = false)
    (remove_tail p q) (fun _ _ => True).
Proof.
  intros w (HI & Hcd & Har & Hun) ([us Hus] & (Hq & Hsq & Heq & b & Hb) & Hsp & Hep).
  pose proof (safe_rename root t0 Habove p q w HI (conj Hsp Hsq)) as [HI' _].
  unfold remove_tail, cbind, syscall in *.
  destruct (rename_sound (files w) (fault (calls w)) p q) as [[err Hr]|(Hr & Hp & Hnil)]; [apply HI|done..| |];
    rewrite Hr in HI' |- *; simpl in *; [by split|].
  split; [|done]. rewrite Hus in Hun |- *. simpl in Hun |- *.
  assert (Moved root (files w) p q) as HM by eauto using moved_sound.
  split; [done|]. split; [done|]. split.
  - apply Forall_app. split.
    + apply Forall_fmap. eapply Forall_impl; [apply Har|]. intros a Ha.
      apply present_graft; [apply HI|done|apply (moved_sides _ _ _ _ HM)|done].
    + constructor; [|done]. pose proof (graft_to p q (files w) []) as Hg.
      unfold present. simpl in *. congruence.
  - exists q, (files w), (artifacts w). split_and!; try done; [by rewrite length_fmap|apply HI].
Qed.

(** A free sibling that has passed the checks. *)
Definition free_sibling (p q : path) (w : World) : Prop :=
  files w q = None /\ sound root (files w) q /\ escapes root q = false /\ exists b,
    q = (TRANSACTION_PREFIX +:+ b)%stdpp :: dirname p.

(** A removal, from where its sibling is chosen. *)
Lemma holds_remove_from (J P : World -> Prop) (Q : unit -> World -> Prop) p :
  stable J -> stable P -> (forall w, J w -> Inv root t0 (files w)) ->
  (forall q, holds J (fun w => P w /\ free_sibling p q w)
     (push_undo (UndoRemove p None) ;? assertNoSymlinkComponents p root ;? remove_tail p q) Q) ->
  holds J P (applyRemoveOperation root p) Q.
Proof using Habove.
  intros HJ HP HI Htail. unfold applyRemoveOperation.
  eapply holds_bind; [apply holds_looks; auto with omp|intros []].
  eapply holds_bind; [apply holds_looks; auto with omp|intros existing].
  case_match; [apply holds_throw|]. eapply holds_bind; [by apply (holds_unique root t0)|].
  intros q. cbv beta. apply (holds_bind _ _ _ _ (fun _ w => P w /\ free_sibling p q w)); [|intros []; apply Htail].
  apply holds_looks; auto with omp. intros w n u [H1 H2]. split; [by apply HP|done].
Qed.

Lemma holds_remove p :
  holds Removing (fun _ => True) (applyRemoveOperation root p) (fun _ _ => True).
Proof using Habove.
  apply holds_remove_from; auto using removing_inv with omp. intros q.
  eapply (holds_bind _ _ _ _ (fun _ w => (exists us, undoStack w = UndoRemove p None :: us) /\ free_sibling p q w)).
  { intros w (HI & Hcd & Har & Hun) [_ Hw]. split; [done|]. intros _ _. split; [by eexists|done]. }
  intros []. eapply holds_bind; [apply (holds_assert root t0); auto using removing_inv with omp|].
  intros []. eapply holds_pre; [|apply holds_remove_tail]. unfold free_sibling. naive_solver.
Qed.
End removal.

(** ** The rollback of removals *)

Section rollback.
Context {host : Host} (root : path).

(** A rename in a directory of the project, to a free name. *)
Lemma quiet_rename w c b d :
  quiet (calls w) -> wf (files w) -> root `suffix_of` d -> files w d = Some Directory -> b <> c ->
  escapes root (b :: d) = false -> escapes root (c :: d) = false ->
  files w (b :: d) <> None -> is_link (files w (b :: d)) = false -> files w (c :: d) = None ->
  exists n, renameWithSafety (b :: d) (c :: d) root w =
    (Ok tt, later n w <| files := graft (b :: d) (c :: d) (files w) |>).
Proof.
  intros Hq Hwf Hr Hd Hne Heb Hec Hb Hl Hc.
  destruct (returns_assert root b d w) as [n1 H1]; try done.
  destruct (returns_assert root c d (later n1 w)) as [n2 H2]; simpl; rewrite ?Hc; try done.
  { by apply quiet_later. }
  exists (S (n2 + n1)). unfold renameWithSafety, cbind. rewrite H1, H2, later_later.
  unfold syscall, rename_call, simple. simpl calls. rewrite quiet_later by done.
  simpl files. rewrite !locate_wf by done. cbn [result_bind]. unfold rename_tree. rewrite Hc.
  destruct (files w (b :: d)); [|done]. rewrite decide_False by congruence.
  rewrite decide_False by (by apply siblings_beside). done.
Qed.

Lemma rename_back w t p q :
  quiet (calls w) -> wf t -> Moved root t p q -> files w = graft p q t ->
  exists n, renameWithSafety q p root w = (Ok tt, later n w <| files := t |>).
Proof.
  intros Hq Hwf HM Hf.
  pose proof (wf_moved _ _ _ _ Hwf HM) as Hwf'. destruct (moved_sides _ _ _ _ HM) as [Hpq Hqp].
  destruct HM as [(c & b & d & -> & -> & Hne & Hr) [Hp Hl] Hfree [Hep Heq]].
  assert (t d = Some Directory) as Hd by (by eapply wf_parent).
  pose proof (graft_to (c :: d) (b :: d) t []) as Hto. simpl in Hto.
  destruct (quiet_rename w c b d) as [n Hn]; rewrite ?Hf, ?Hto; try done.
  - rewrite graft_beside; [done|apply not_below_tail..].
  - by apply graft_from.
  - exists n. by rewrite Hn, Hf, graft_back.
Qed.

Lemma put_back_moved w t p q arts dead :
  quiet (calls w) -> wf t -> Moved root t p q -> Forall (present t) arts -> Forall off dead ->
  files w = graft p q t ->
  artifacts w = ((rewrite_artifact p q <$> arts) ++ [mkArtifact q backup true true]) ++ dead ->
  exists n dead', Forall off dead' /\
    put_back root p (length arts) w = (Ok tt, later n w <| files := t |> <| artifacts := arts ++ dead' |>).
Proof.
  intros Hq Hwf HM Harts Hdead Hf Ha.
  destruct (rename_back w t p q Hq Hwf HM Hf) as [n Hn].
  assert (artifact_path <$> artifacts w !! length arts = Some q) as Hlook.
  { rewrite Ha, <- app_assoc, lookup_app_r by (by rewrite length_fmap). by rewrite length_fmap, Nat.sub_diag. }
  exists n, ([mkArtifact p backup false false] ++ (rewrite_artifact q p <$> dead)). split.
  { constructor; [done|]. apply Forall_fmap. eapply Forall_impl; [apply Hdead|]. apply off_rewrite. }
  unfold put_back, path_of, cbind, get. rewrite Hlook. simpl default. rewrite Hn.
  unfold rewriteArtifacts, set_artifact, modify. simpl. do 2 f_equal. rewrite Ha.
  rewrite !fmap_app, <- list_fmap_compose, <- app_assoc.
  rewrite (Forall_fmap_ext_1 _ id arts), list_fmap_id; [|].
  - rewrite alter_app_r_alt by lia. rewrite Nat.sub_diag. simpl. do 2 f_equal.
    unfold rewrite_artifact. simpl. rewrite decide_True by done. simpl. f_equal.
    apply (rebase_app [] q p).
  - eapply Forall_impl; [apply Harts|]. intros a Hpres. simpl. eapply rewrite_back; [done|apply HM|done].
Qed.

(** The undo stack runs back to the beginning without an error. *)
Lemma undoes_run us t0 w t arts dead :
  Undoes root t0 us t arts -> quiet (calls w) -> files w = t -> Forall off dead ->
  artifacts w = arts ++ dead ->
  exists n dead', Forall off dead' /\
    gather us (fun u => caught (run_undo root u)) w =
      (Ok [], later n w <| files := t0 |> <| artifacts := dead' |>).
Proof.
  revert w t arts dead. induction us as [|u us IH]; intros w t arts dead Hu Hq Hf Hdead Ha; simpl in *.
  { destruct Hu as [-> ->]. exists 0%nat, dead. split; [done|]. destruct w; simpl in *; by subst. }
  destruct u as [|p created installed saved| |p [i|]]; try done.
  - destruct Hu as (q & t' & arts' & -> & -> & -> & HM & Hwf & Hpres & Hu).
    destruct (put_back_moved w t' p q arts' dead) as (n & dead' & Hd' & Hrun); try done.
    destruct (IH (later n w <| files := t' |> <| artifacts := arts' ++ dead' |>) t' arts' dead')
      as (n' & dead'' & Hd'' & Hrun'); try done; [by apply (quiet_later n)|].
    exists (n' + n)%nat, dead''. split; [done|].
    unfold cbind at 1, caught at 1. simpl run_undo. rewrite Hrun. unfold cbind. rewrite Hrun'.
    unfold cret. f_equal. destruct w. unfold later. simpl. f_equal; lia.
  - destruct (IH w t arts dead) as (n & dead' & Hd' & Hrun); try done.
    exists n, dead'. split; [done|]. unfold cbind at 1, caught at 1. simpl. unfold cbind. by rewrite Hrun.
Qed.
End rollback.

(** ** Plans of removals *)

Section plans.
Context {host : Host}.

Lemma stage_removals r ps w : stage_all r (Remove <$> ps) w = (Ok ((fun _ => None) <$> ps), w).
Proof.
  induction ps as [|p ps IH]; [done|]. rewrite !fmap_cons. cbn [stage_all]. unfold cbind. by rewrite IH.
Qed.

Lemma holds_apply_removals root t0 ps :
  plain_above root t0 ->
  holds (Removing root t0) (fun _ => True) (apply_all root (zip (Remove <$> ps) ((fun _ => None) <$> ps)))
    (fun _ _ => True).
Proof.
  intros Habove. induction ps as [|p ps IH]; simpl; [by intros w HI HP|].
  eapply holds_bind; [|intros x; eapply holds_bind; [apply IH|intros y; by intros w HI HP]].
  eapply holds_bind; [by apply holds_remove|intros []; by intros w HI HP].
Qed.

(** The state in which the [try] block starts. *)
Definition begun (w : World) (plan : FilePlan) (w0 : World) : Prop :=
  cbind (preflightFilePlan plan) (fun _ => begin_transaction) w = (Ok tt, w0).

Lemma begun_fresh w plan w0 :
  begun w plan w0 ->
  files w0 = files w /\ artifacts w0 = [] /\ createdDirectories w0 = [] /\ undoStack w0 = [].
Proof.
  unfold begun, cbind. destruct (looks_preflight (root plan) (operations plan) w) as (n & u & Heq).
  unfold preflightFilePlan in *. destruct (each _ _ w) as [[[]|e] w']; [|done].
  unfold begin_transaction, modify. intros [= <-]. simpl in Heq. by subst w'.
Qed.

Lemma begun_apply w plan w0 :
  begun w plan w0 ->
  applyFilePlan plan false w =
    match transact plan w0 with
    | (Throw error, w') => roll_back plan error w'
    | (Ok applied, w') =>
        (errors <-? cleanupArtifacts (root plan) true ;
         match errors with
         | [] => cret applied
         | _ => cthrow (CommittedButCleanupFailed errors)
         end) w'
    end.
Proof.
  unfold begun, applyFilePlan, cbind. destruct (preflightFilePlan plan w) as [[[]|e] w']; [|done].
  unfold begin_transaction, modify. by intros [= <-].
Qed.

Lemma removing_begun plan w w0 :
  wf (files w) -> begun w plan w0 -> Removing (root plan) (files w) w0.
Proof.
  intros Hwf (Hf & Ha & Hc & Hu)%begun_fresh. unfold Removing. rewrite Hf, Ha, Hc, Hu.
  split_and!; try done. split; [done|]. intros p _. by left.
Qed.

Lemma cleanup_off r arts w :
  artifacts w = arts -> Forall off arts -> cleanupArtifacts r false w = (Ok [], w).
Proof.
  intros <- Hoff. unfold cleanupArtifacts, cbind, get.
  assert (filter (fun a => cleanupOnFailure a = true) (artifacts w) = []) as ->; [|done].
  induction Hoff as [|a arts Ha Hoff IH]; [done|].
  destruct Ha as [Ha _]. by rewrite filter_cons_False by congruence.
Qed.

(** C14: A removal is all or nothing: when the removal of a list of paths fails
    in its middle, whatever has failed, and the host refuses no call after
    that, [applyFilePlan] throws the error itself, without a rollback error,
    and the tree is what it was, file by file, also where one path of the plan
    is inside another. *)
Theorem failed_removal_is_undone plan ps w w0 error w1 :
  operations plan = Remove <$> ps ->
  wf (files w) -> plain_above (root plan) (files w) ->
  begun w plan w0 -> transact plan w0 = (Throw error, w1) -> quiet (calls w1) ->
  exists w', applyFilePlan plan false w = (Throw error, w') /\ files w' = files w.
Proof.
  intros Hops Hwf Habove Hbegun Ht Hq. rewrite (begun_apply _ _ _ Hbegun), Ht.
  assert (Removing (root plan) (files w) w1) as (HI & Hcd & Hpres & Hun).
  { unfold transact, stageWrites, cbind in Ht. rewrite Hops, stage_removals in Ht.
    pose proof (holds_apply_removals (root plan) (files w) ps Habove w0) as [H _].
    - by apply removing_begun.
    - done.
    - by rewrite Ht in H. }
  destruct (undoes_run (root plan) _ _ w1 _ _ [] Hun Hq eq_refl) as (n & dead & Hdead & Hrun);
    [done|by rewrite app_nil_r|].
  eexists. unfold roll_back, rollback, cbind, get. rewrite Hrun.
  rewrite (cleanup_off _ dead) by done. simpl. rewrite Hcd. done.
Qed.
End plans.

(** The directory goes first, so that the file in it is not found any more. *)
Definition sample_removal : FilePlan := mkPlan ["w"] [Remove ["a"; "w"]; Remove ["d"; "w"]; Remove ["x"; "d"; "w"]].

Lemma outcome_is {A B} (x : A * B) a : x.1 = a -> x = (a, x.2).
Proof. destruct x. simpl. by intros ->. Qed.

Lemma sample_quiet n : @quiet (sample_host (fun _ => false)) n.
Proof. by intros m Hm. Qed.

Lemma failed_removal_is_undone_witness :
  exists w', @applyFilePlan (sample_host (fun _ => false)) sample_removal false sample_world =
    (Throw (NothingToRemove ["x"; "d"; "w"]), w') /\ files w' = sample_tree.
Proof.
  destruct (@failed_removal_is_undone (sample_host (fun _ => false)) sample_removal
    [["a"; "w"]; ["d"; "w"]; ["x"; "d"; "w"]] sample_world
    (cbind (@preflightFilePlan (sample_host (fun _ => false)) sample_removal) (fun _ => begin_transaction) sample_world).2
    (NothingToRemove ["x"; "d"; "w"])
    (@transact (sample_host (fun _ => false)) sample_removal
      (cbind (@preflightFilePlan (sample_host (fun _ => false)) sample_removal) (fun _ => begin_transaction) sample_world).2).2)
    as (w' & H1 & H2); [reflexivity|apply sample_wf|exact sample_above| | |apply sample_quiet|].
  - unfold begun. apply outcome_is. vm_compute. reflexivity.
  - apply outcome_is. vm_compute. reflexivity.
  - exists w'. split; [exact H1|exact H2].
Defined.
