(* ===== verification/PlanRemoval.v ===== *)
(** * A removal that succeeds

    The artifacts in the order of their cleanup, and the tree that a plan of
    removals leaves: [removed]. *)

From S2P Require Import Prelude RecordUpdate JsString Disk FilePlan PlanContainment PlanRollback.
From stdpp Require Import options.

(** ** The order of the cleanup *)

Section sorting.
Context {A : Type} (len : A -> nat).

Definition longer (x y : A) : Prop := (len y <= len x)%nat.

Lemma insert_by_perm x l : insert_by len x l ≡ₚ x :: l.
Proof.
  induction l as [|y l IH]; simpl; [done|]. case_match; [done|]. rewrite IH. apply Permutation_swap.
Qed.

Lemma insert_by_sorted x l : StronglySorted longer l -> StronglySorted longer (insert_by len x l).
Proof.
  induction l as [|y l IH]; simpl; [by repeat constructor|]. intros [Hl Hy]%StronglySorted_inv.
  destruct (Nat.ltb_spec (len y) (len x)) as [Hlt|Hge].
  - constructor; [by constructor|]. constructor; [unfold longer; lia|].
    eapply Forall_impl; [apply Hy|]. unfold longer. intros z Hz. simpl in *. lia.
  - constructor; [by apply IH|]. rewrite insert_by_perm. by constructor.
Qed.

Lemma longest_first_spec l : longest_first len l ≡ₚ l /\ StronglySorted longer (longest_first len l).
Proof.
  unfold longest_first.
  assert (forall l acc, StronglySorted longer acc ->
    fold_left (fun sorted x => insert_by len x sorted) l acc ≡ₚ l ++ acc /\
    StronglySorted longer (fold_left (fun sorted x => insert_by len x sorted) l acc)) as H.
  { clear l. induction l as [|x l IH]; intros acc Hacc; simpl; [done|].
    destruct (IH (insert_by len x acc)) as [H1 H2]; [by apply insert_by_sorted|]. split; [|done].
    rewrite H1, insert_by_perm. by rewrite Permutation_middle. }
  destruct (H l []) as [H1 H2]; [constructor|]. by rewrite app_nil_r in H1.
Qed.
End sorting.

Lemma distinct_paths_sublist seen l : sublist (distinct_paths seen l) l.
Proof.
  revert seen. induction l as [|a l IH]; intros seen; simpl; [done|].
  case_decide; [by apply sublist_cons|by apply sublist_skip].
Qed.

Lemma distinct_paths_fresh seen l :
  NoDup (artifact_path <$> distinct_paths seen l) /\
  Forall (fun a => artifact_path a ∉ seen) (distinct_paths seen l).
Proof.
  revert seen. induction l as [|a l IH]; intros seen; simpl; [split; constructor|].
  case_decide as Ha; [apply IH|]. destruct (IH (artifact_path a :: seen)) as [H1 H2]. split.
  - rewrite fmap_cons. constructor; [|done]. intros (b & Hb & Hin)%list_elem_of_fmap.
    rewrite Forall_forall in H2. apply (H2 b Hin). rewrite <- Hb. constructor.
  - constructor; [done|]. eapply Forall_impl; [apply H2|]. intros b Hb Hin. apply Hb. by constructor.
Qed.

Lemma distinct_paths_all seen l a :
  a ∈ l -> artifact_path a ∉ seen -> exists b, b ∈ distinct_paths seen l /\ artifact_path b = artifact_path a.
Proof.
  revert seen. induction l as [|x l IH]; intros seen Ha Hs; [by apply not_elem_of_nil in Ha|]. simpl.
  apply elem_of_cons in Ha as [->|Ha].
  - rewrite decide_False by done. exists x. split; [constructor|done].
  - case_decide as Hx; [by apply IH|].
    destruct (decide (artifact_path a = artifact_path x)) as [Heq|Hne].
    { exists x. split; [constructor|done]. }
    destruct (IH (artifact_path x :: seen) Ha) as (b & Hb & Heq).
    { rewrite not_elem_of_cons. done. }
    exists b. split; [by constructor|done].
Qed.

Lemma length_join_snoc ws w :
  ws <> [] -> (String.length (join "/" ws) < String.length (join "/" (ws ++ [w])))%nat.
Proof.
  induction ws as [|x ws IH]; intros Hws; [done|]. destruct ws as [|y ws].
  - change (join "/" ([x] ++ [w])) with (x +:+ "/" +:+ w)%stdpp. simpl join.
    rewrite !length_append. simpl. lia.
  - specialize (IH ltac:(done)).
    change (join "/" ((x :: y :: ws) ++ [w])) with (x +:+ "/" +:+ join "/" ((y :: ws) ++ [w]))%stdpp.
    change (join "/" (x :: y :: ws)) with (x +:+ "/" +:+ join "/" (y :: ws))%stdpp.
    rewrite !length_append. lia.
Qed.

(** A path is longer than those above it. *)
Lemma path_length_cons c p : p <> [] -> (path_length p < path_length (c :: p))%nat.
Proof.
  intros Hp. unfold path_length, path_string. destruct p as [|c' p]; [done|].
  assert (rev (c :: c' :: p) = rev (c' :: p) ++ [c]) as -> by done.
  rewrite !length_append. apply Nat.add_lt_mono_l. apply length_join_snoc.
  simpl. by destruct (rev p).
Qed.

Lemma path_length_below p q :
  p <> [] -> p `suffix_of` q -> p <> q -> (path_length p < path_length q)%nat.
Proof.
  intros Hp. induction q as [|c q IH]; intros Hq Hne; [by apply suffix_nil_inv in Hq|].
  apply below_cons in Hq as [->|Hq]; [done|].
  destruct (decide (p = q)) as [->|Hpq]; [by apply path_length_cons|].
  pose proof (IH Hq Hpq). assert (q <> []) as Hne' by (intros ->; by apply suffix_nil_inv in Hq).
  pose proof (path_length_cons c q Hne'). lia.
Qed.

(** ** The cleanup of the backups *)

(** [p] is below one of [ps]. *)
Definition below (ps : list path) (r : path) : Prop := Exists (fun p => p `suffix_of` r) ps.

#[export] Instance below_dec ps r : Decision (below ps r).
Proof. unfold below. apply _. Defined.

Lemma below_one p ps r : below (p :: ps) r <-> p `suffix_of` r \/ below ps r.
Proof. apply Exists_cons. Qed.

#[global] Arguments below_dec : simpl never.

(** [t] without what is at and below [ps]. *)
Definition removed (ps : list path) (t : tree) : tree := fun r => if decide (below ps r) then None else t r.

(** [p] is a path in the project that is there and is no link. *)
Record InProject (root : path) (t : tree) (p : path) : Prop := mkInProject {
  in_there : t p <> None;
  in_no_link : is_link (t p) = false;
  in_inside : escapes root p = false;
  in_below : exists c d, p = c :: d /\ root `suffix_of` d;
}.

Lemma wf_leaf t p q : wf t -> t p <> Some Directory -> p `suffix_of` q -> p <> q -> t q = None.
Proof.
  intros Hwf Hp Hpq Hne. destruct (t q) eqn:Hq; [|done]. destruct Hp.
  apply (wf_above t q); [done|by rewrite Hq|done|done].
Qed.

Lemma cbind_ok {S E A B} (m : comp S E A) (k : A -> comp S E B) s a s' :
  m s = (Ok a, s') -> cbind m k s = k a s'.
Proof. unfold cbind. by intros ->. Qed.

Lemma cbind_throw {S E A B} (m : comp S E A) (k : A -> comp S E B) s e s' :
  m s = (Throw e, s') -> cbind m k s = (Throw e, s').
Proof. unfold cbind. by intros ->. Qed.

Lemma syscall_is {host : Host} {A} (c : Disk.call A) w r t :
  c (fault (calls w)) (files w) = (r, t) ->
  syscall c w = (match r with Ok a => Ok a | Throw e => Throw (Sys e) end, w <| files := t |> <| calls ::= S |>).
Proof. unfold syscall. by intros ->. Qed.

Lemma caught_ok m w w' : m w = (Ok tt, w') -> caught m w = (Ok [], w').
Proof. unfold caught. by intros ->. Qed.

Section cleanup.
Context {host : Host} (root : path).

Lemma remove_backup w p :
  quiet (calls w) -> wf (files w) -> InProject root (files w) p ->
  exists n t, remove_path p root true w = (Ok tt, later n w <| files := t |>) /\
    wf t /\ forall r, t r = if decide (p `suffix_of` r) then None else files w r.
Proof.
  intros Hq Hwf [Hp Hl Hesc (c & d & -> & Hr)].
  assert (files w d = Some Directory) as Hd by (by eapply wf_parent).
  destruct (returns_assert root c d w) as [n Hn]; try done.
  assert (locate (files w) (c :: d) = Ok (c :: d)) as Hloc by (by apply locate_wf).
  destruct (files w (c :: d)) as [nd|] eqn:Hnd; [|done].
  assert (Hcall : exists t, rm_call (c :: d) true None (files w) = (Ok tt, t) /\ wf t /\
    forall r, t r = if decide (c :: d `suffix_of` r) then None else files w r).
  { unfold rm_call. rewrite Hloc, Hnd. destruct nd as [content mode| |absolute target]; [|eexists; split; [done|]|done].
    - eexists. split; [done|]. split; [apply wf_set_node; rewrite ?Hnd; done|]. intros r. unfold set_node.
      case_decide as Hr'; [subst r; by rewrite decide_True|]. case_decide as Hb; [|done].
      apply (wf_leaf _ (c :: d)); try done; by rewrite Hnd.
    - split; [by apply wf_prune|done]. }
  destruct Hcall as (t & Hc & Hwt & Ht). exists (S n), t. split; [|done].
  unfold remove_path, cbind. rewrite Hn. unfold syscall. simpl. rewrite Hq by (simpl; lia). rewrite Hc. done.
Qed.

(** What is left of a path in the project. *)
Lemma in_project_kept t t' p :
  InProject root t p -> t' p = t p -> InProject root t' p.
Proof. intros [H1 H2 H3 H4] Heq. split; rewrite ?Heq; done. Qed.

(** Backups none of which is below an earlier one are all removed. *)
Lemma cleanup_backups w l :
  quiet (calls w) -> wf (files w) ->
  Forall (fun a => artifact_kind a = backup /\ InProject root (files w) (artifact_path a)) l ->
  StronglySorted (fun a b => ~ artifact_path a `suffix_of` artifact_path b) l ->
  exists n t,
    gather l (fun a =>
      errors <-? caught (remove_path (artifact_path a) root (true && is_backup (artifact_kind a))) ;
      cret (unless_missing errors)) w = (Ok [], later n w <| files := t |>) /\
    forall r, t r = if decide (below (artifact_path <$> l) r) then None else files w r.
Proof.
  revert w. induction l as [|a l IH]; intros w Hq Hwf Hl Hs; cbn [gather].
  { exists 0%nat, (files w). split; [by destruct w|done]. }
  apply Forall_cons in Hl as [[Hk Ha] Hl]. apply StronglySorted_inv in Hs as [Hs Hal].
  destruct (remove_backup w (artifact_path a) Hq Hwf Ha) as (n & t & Hrun & Hwt & Ht).
  destruct (IH (later n w <| files := t |>)) as (n' & t' & Hrun' & Ht'); simpl; try done.
  { by apply quiet_later. }
  { rewrite Forall_forall in Hl, Hal |- *. intros b Hb. destruct (Hl b Hb) as [Hkb Hpb]. split; [done|].
    apply (in_project_kept (files w)); [done|]. rewrite Ht. by rewrite decide_False by (by apply Hal). }
  exists (n' + n)%nat, t'. split.
  - erewrite cbind_ok; [|erewrite cbind_ok; [done|apply caught_ok; rewrite Hk; apply Hrun]].
    erewrite cbind_ok; [|apply Hrun']. unfold cret, later. simpl. do 2 f_equal. lia.
  - intros r. change (list_fmap _ _ artifact_path l) with (artifact_path <$> l).
    rewrite Ht'. change (files (later n w <| files := t |>)) with t. rewrite Ht.
    repeat case_decide; try done; exfalso; rewrite below_one in *; tauto.
Qed.

(** Longest first, no path comes after one it is below. *)
Lemma longest_not_below l :
  Forall (fun a => artifact_path a <> []) l -> NoDup (artifact_path <$> l) ->
  StronglySorted (longer (fun a => path_length (artifact_path a))) l ->
  StronglySorted (fun a b => ~ artifact_path a `suffix_of` artifact_path b) l.
Proof.
  induction l as [|a l IH]; intros Hne Hnd Hs; [constructor|]. rewrite fmap_cons in Hnd.
  apply NoDup_cons in Hnd as [Hin Hnd]. apply Forall_cons in Hne as [Ha Hne].
  apply StronglySorted_inv in Hs as [Hs Hal]. constructor; [by apply IH|].
  rewrite Forall_forall in Hal |- *. intros b Hb Hsuf. specialize (Hal b Hb). unfold longer in Hal.
  pose proof (path_length_below (artifact_path a) (artifact_path b) Ha Hsuf) as Hlt.
  assert (artifact_path a <> artifact_path b) as Hab.
  { intros Heq. apply Hin. rewrite Heq. by apply list_elem_of_fmap_2. }
  specialize (Hlt Hab). lia.
Qed.

Lemma forall_sublist {A} (P : A -> Prop) (l k : list A) : sublist l k -> Forall P k -> Forall P l.
Proof. rewrite !Forall_forall. intros Hs Hk x Hx. apply Hk. by eapply elem_of_sublist. Qed.

Lemma filter_everything {A} (P : A -> Prop) `{!forall x, Decision (P x)} (l : list A) :
  Forall P l -> filter P l = l.
Proof. induction 1 as [|x l Hx Hl IH]; [done|]. by rewrite filter_cons_True, IH. Qed.

Lemma sorted_sublist {A} (R : A -> A -> Prop) (l k : list A) :
  sublist l k -> StronglySorted R k -> StronglySorted R l.
Proof.
  induction 1 as [|x l k Hlk IH|x l k Hlk IH]; intros Hk; [done|..];
    apply StronglySorted_inv in Hk as [Hk Hx]; [|by apply IH].
  constructor; [by apply IH|]. by eapply forall_sublist.
Qed.

Lemma cleanup_all w :
  quiet (calls w) -> wf (files w) ->
  Forall (fun a => (artifact_kind a = backup /\ cleanupOnSuccess a = true) /\
                   InProject root (files w) (artifact_path a)) (artifacts w) ->
  exists n t, cleanupArtifacts root true w = (Ok [], later n w <| files := t |>) /\
    forall r, t r = if decide (below (artifact_path <$> artifacts w) r) then None else files w r.
Proof.
  intros Hq Hwf Hall. unfold cleanupArtifacts. erewrite cbind_ok; [|done].
  rewrite filter_everything by (eapply Forall_impl; [apply Hall|]; naive_solver).
  destruct (longest_first_spec (fun a => path_length (artifact_path a)) (artifacts w)) as [Hperm Hsort].
  set (sorted := longest_first _ (artifacts w)) in *.
  pose proof (distinct_paths_sublist [] sorted) as Hsub.
  destruct (distinct_paths_fresh [] sorted) as [Hnd _].
  assert (Forall (fun a => artifact_kind a = backup /\ InProject root (files w) (artifact_path a))
    (distinct_paths [] sorted)) as Hl.
  { eapply forall_sublist; [apply Hsub|]. rewrite Hperm. eapply Forall_impl; [apply Hall|]. naive_solver. }
  destruct (cleanup_backups w (distinct_paths [] sorted)) as (n & t & Hrun & Ht); try done.
  { apply longest_not_below; [|done|by eapply sorted_sublist].
    eapply Forall_impl; [apply Hl|]. intros a [_ [_ _ _ (c & d & -> & _)]]. done. }
  exists n, t. split; [done|]. intros r. rewrite Ht. unfold below.
  destruct (decide _) as [H|H], (decide _) as [H'|H']; try done; exfalso.
  - apply H'. rewrite Exists_exists in H |- *. destruct H as (p & Hp & Hr). exists p. split; [|done].
    apply list_elem_of_fmap in Hp as (a & -> & Ha). apply list_elem_of_fmap_2. rewrite <- Hperm.
    by eapply elem_of_sublist.
  - apply H. rewrite Exists_exists in H' |- *. destruct H' as (p & Hp & Hr). exists p. split; [|done].
    apply list_elem_of_fmap in Hp as (a & -> & Ha). rewrite <- Hperm in Ha.
    destruct (distinct_paths_all [] sorted a Ha) as (b & Hb & <-); [apply not_elem_of_nil|].
    by apply list_elem_of_fmap_2.
Qed.
End cleanup.

(** ** Forward *)

(** No component has the name of a transaction path. *)
Definition ordinary (p : path) : Prop := Forall (fun c => starts_with TRANSACTION_PREFIX c = false) p.

#[export] Instance ordinary_dec p : Decision (ordinary p).
Proof. unfold ordinary. apply _. Defined.

Lemma ordinary_suffix p q : p `suffix_of` q -> ordinary q -> ordinary p.
Proof. intros [k ->] [_ H]%Forall_app. done. Qed.

Lemma transaction_name b p k : ~ ordinary (k ++ (TRANSACTION_PREFIX +:+ b)%stdpp :: p).
Proof.
  intros [_ H]%Forall_app. apply Forall_cons in H as [H _].
  assert (starts_with TRANSACTION_PREFIX (TRANSACTION_PREFIX +:+ b)%stdpp = true) as Ht.
  { apply starts_with_spec. by exists b. }
  congruence.
Qed.

Lemma relative_app (r k : list string) : relative_components r (r ++ k) = k.
Proof. induction r as [|a r IH]; simpl; [done|]. by rewrite String.eqb_refl. Qed.

Lemma escapes_more r c d k :
  escapes r (c :: d) = false -> r `suffix_of` d -> escapes r (k ++ c :: d) = false.
Proof.
  unfold escapes, relative. intros H [j ->]. revert H.
  rewrite rev_app_distr. simpl. rewrite rev_app_distr, <- !app_assoc, !relative_app.
  by destruct (rev j).
Qed.

Section forward.
Context {host : Host} (root : path) (t0 : tree).
Hypothesis Habove : plain_above root t0.
Hypothesis Hwf0 : wf t0.

(** A backup made by the removal of [ps]. *)
Record BackupOf (ps : list path) (t : tree) (a : TransactionArtifact) : Prop := mkBackupOf {
  backup_kind : artifact_kind a = backup /\ cleanupOnSuccess a = true;
  backup_place : InProject root t (artifact_path a);
  backup_free : removed ps t0 (artifact_path a) = None;
  backup_name : ~ ordinary (artifact_path a);
}.

(** Beside the backups, [ps] are gone and nothing else. *)
Record Done (ps : list path) (w : World) : Prop := mkDone {
  done_tree : forall r, Forall (fun a => ~ artifact_path a `suffix_of` r) (artifacts w) ->
                files w r = removed ps t0 r;
  done_artifacts : Forall (BackupOf ps (files w)) (artifacts w);
}.

Lemma removed_below ps p q : removed ps t0 p = None -> p `suffix_of` q -> removed ps t0 q = None.
Proof using Hwf0.
  unfold removed. intros Hp Hpq. destruct (decide (below ps q)) as [|Hq]; [done|].
  destruct (decide (below ps p)) as [Hb|].
  - destruct Hq. eapply Exists_impl; [apply Hb|]. intros r Hr. simpl in *. by trans p.
  - by eapply wf_below.
Qed.

Lemma removed_more ps p r : removed ps t0 r = None -> removed (ps ++ [p]) t0 r = None.
Proof.
  unfold removed. intros Hr. destruct (decide (below (ps ++ [p]) r)) as [|Hn]; [done|].
  destruct (decide (below ps r)) as [Hb|]; [|done]. destruct Hn. apply Exists_app. by left.
Qed.

Lemma done_step ps w p q w' :
  wf (files w) -> Done ps w -> ordinary p -> Moved root (files w) p q ->
  (exists b, q = (TRANSACTION_PREFIX +:+ b)%stdpp :: dirname p) ->
  files w' = graft p q (files w) ->
  artifacts w' = (rewrite_artifact p q <$> artifacts w) ++ [mkArtifact q backup true true] ->
  Done (ps ++ [p]) w'.
Proof using Hwf0.
  intros Hwf [Htree Harts] Hord HM [b Hb] Hf Ha. destruct (moved_sides _ _ _ _ HM) as [Hpq Hqp].
  destruct HM as [(c & b' & d & Hp & Hq & Hne & Hr) [Hthere Hlink] Hfree [Hep Heq]].
  assert (d = dirname p) as Hd by (by rewrite Hp).
  assert (forall k, ~ ordinary (k ++ q)) as Hname by (intros k; rewrite Hb; apply transaction_name).
  assert (Forall (fun a => ~ q `suffix_of` artifact_path a) (artifacts w)) as Hout.
  { eapply Forall_impl; [apply Harts|]. intros a [_ [Hat _ _ _] _ _] H. apply Hat. by eapply wf_below. }
  assert (removed ps t0 q = None) as Hgone.
  { rewrite <- Htree; [done|]. rewrite Forall_forall in Harts |- *. intros a Hin H.
    destruct (Harts a Hin) as [_ [Hat _ _ _] _ Hnm]. rewrite Hb in H.
    apply below_cons in H as [H|H]; [rewrite <- Hb in H; congruence|].
    apply Hnm. eapply ordinary_suffix; [apply H|]. rewrite <- Hd. rewrite Hp in Hord. by inv Hord. }
  assert (forall k, InProject root (files w) (k ++ p) -> InProject root (files w') (k ++ q)) as Hplace.
  { intros k [H1 H2 _ _]. split.
    - by rewrite Hf, graft_to.
    - by rewrite Hf, graft_to.
    - rewrite Hq. apply escapes_more; [by rewrite <- Hq|done].
    - destruct k as [|x k]; [by exists b', d|]. exists x, (k ++ q). split; [done|].
      rewrite Hq. apply suffix_app_r. by apply suffix_cons_r. }
  split.
  - intros r Hrr. rewrite Ha in Hrr. apply Forall_app in Hrr as [Hrr Hrq]. inv Hrq.
    rewrite Hf. simpl in *. destruct (decide (p `suffix_of` r)) as [Hpr|Hpr].
    + rewrite graft_from by done. unfold removed. rewrite decide_True; [done|].
      apply Exists_app. right. by constructor.
    + rewrite graft_beside by done. rewrite Htree.
      * unfold removed. repeat case_decide; try done; exfalso; unfold below in *;
          rewrite Exists_app, Exists_cons, Exists_nil in *; tauto.
      * rewrite Forall_fmap in Hrr. eapply Forall_impl; [apply Hrr|]. intros a Hna H. apply Hna.
        simpl. unfold rewrite_artifact. rewrite decide_False; [done|]. intros Hpa. apply Hpr. by etrans.
  - rewrite Ha. apply Forall_app. split.
    + apply Forall_fmap, Forall_forall. intros a Hin. rewrite Forall_forall in Harts, Hout.
      destruct (Harts a Hin) as [[Hk Hs] Hpl Hfr Hnm]. specialize (Hout a Hin). simpl.
      unfold rewrite_artifact. case_decide as Hpa; simpl.
      * destruct Hpa as [k Hka]. rewrite Hka in Hpl. rewrite Hka, rebase_app.
        split; simpl; rewrite ?Hka, ?rebase_app; try done; [by apply Hplace|].
        apply removed_more. apply (removed_below ps q); [done|by exists k].
      * split; try done; [|by apply removed_more]. apply (in_project_kept _ (files w)); [done|].
        by rewrite Hf, graft_beside.
    + constructor; [|done]. split; simpl; try done; [|by apply removed_more|by apply (Hname [])].
      apply (Hplace []). split; try done. rewrite Hp. by exists c, d.
Qed.

(** One more path is removed. *)
Lemma holds_remove_done ps p :
  ordinary p ->
  holds (fun w => Inv root t0 (files w)) (Done ps) (applyRemoveOperation root p)
    (fun _ => Done (ps ++ [p])).
Proof using Habove Hwf0.
  intros Hord. apply (holds_remove_from root t0 Habove); try (by intros w n u); [|done|].
  { intros w n u [H1 H2]. by split. }
  intros q. eapply (holds_bind _ _ _ _ (fun _ w => Done ps w /\ free_sibling root p q w)).
  { intros w HI [[H1 H2] Hw]. split; [done|]. intros _ _. split; [by split|done]. }
  intros []. eapply holds_bind.
  { apply (holds_assert root t0); auto with omp. intros w n u [[H1 H2] H3]. split; [by split|done]. }
  intros [] w HI ([HD (Hq & Hsq & Heq & b & Hb)] & Hsp & Hep).
  pose proof (safe_rename root t0 Habove p q w HI (conj Hsp Hsq)) as [HI' _].
  unfold remove_tail, cbind, syscall in *.
  destruct (rename_sound root t0 Habove (files w) (fault (calls w)) p q) as [[err Hr]|(Hr & Hp & Hnil)];
    [apply HI|done..| |]; rewrite Hr in HI' |- *; simpl in *; [by split|].
  split; [done|]. intros _ _. eapply (done_step ps w p q); simpl; try done; [apply HI| |by exists b].
  by eapply moved_sound.
Qed.

Lemma holds_removals_done ps qs :
  Forall ordinary qs ->
  holds (fun w => Inv root t0 (files w)) (Done ps)
    (apply_all root (zip (Remove <$> qs) ((fun _ => None) <$> qs)))
    (fun applied w => applied = qs /\ Done (ps ++ qs) w).
Proof using Habove Hwf0.
  revert ps. induction qs as [|q qs IH]; intros ps Hqs; simpl.
  { intros w HI HP. split; [done|]. intros ? [= <-]. by rewrite app_nil_r. }
  inv Hqs. eapply (holds_bind _ _ _ _ (fun a w => a = q /\ Done (ps ++ [q]) w)).
  - eapply holds_bind; [by apply holds_remove_done|]. intros [] w HI HP. split; [done|]. by intros ? [= <-].
  - intros a. eapply (holds_bind _ _ _ _ (fun l w => (a = q /\ l = qs) /\ Done (ps ++ q :: qs) w)).
    + intros w HI [-> HD]. destruct (IH (ps ++ [q]) ltac:(done) w HI HD) as [HI' H]. split; [done|].
      intros l Hl. destruct (H l Hl) as [-> HD']. by rewrite <- app_assoc in HD'.
    + intros l w HI [[-> ->] HD]. split; [done|]. by intros ? [= <-].
Qed.
End forward.

(** C15: A plan of removals does what it says: when the operations have gone
    through and the host refuses no call of the cleanup, [applyFilePlan] returns
    the paths of the plan, they are gone with all that was below them, and every
    other path of the file system is as it was: no backup is left behind, though
    a backup may itself have been moved into another one.  No path of the plan
    has the name of a transaction path. *)
Theorem removal_leaves_the_rest {host : Host} plan ps w w0 applied w1 :
  operations plan = Remove <$> ps -> Forall ordinary ps ->
  wf (files w) -> plain_above (root plan) (files w) ->
  begun w plan w0 -> transact plan w0 = (Ok applied, w1) -> quiet (calls w1) ->
  exists w', applyFilePlan plan false w = (Ok ps, w') /\
    forall r, files w' r = if decide (below ps r) then None else files w r.
Proof.
  intros Hops Hord Hwf Habove Hbegun Ht Hq. rewrite (begun_apply _ _ _ Hbegun), Ht.
  destruct (begun_fresh _ _ _ Hbegun) as (Hf & Ha & _).
  assert (Inv (root plan) (files w) (files w1) /\ applied = ps /\ Done (root plan) (files w) ps w1) as
    (HI & -> & [Htree Harts]).
  { unfold transact, stageWrites, cbind in Ht. rewrite Hops, stage_removals in Ht.
    pose proof (holds_removals_done (root plan) (files w) Habove Hwf [] ps Hord w0) as [H1 H2].
    - rewrite Hf. split; [done|]. intros p _. by left.
    - split; rewrite Ha; [|done]. intros r _. by rewrite Hf.
    - rewrite Ht in H1, H2. split; [done|]. by apply H2. }
  destruct (cleanup_all (root plan) w1) as (n & t & Hrun & Htr); [done|apply HI| |].
  { eapply Forall_impl; [apply Harts|]. by intros a [Hk Hp _ _]. }
  exists (later n w1 <| files := t |>). unfold cbind at 1. rewrite Hrun. split; [done|].
  intros r. simpl. rewrite Htr. destruct (decide (below (artifact_path <$> artifacts w1) r)) as [Hr|Hr].
  - apply Exists_exists in Hr as (p & (a & -> & Hin)%list_elem_of_fmap & Hpr).
    rewrite Forall_forall in Harts. destruct (Harts a Hin) as [_ _ Hfree _].
    symmetry. by apply (removed_below (files w) Hwf ps (artifact_path a)).
  - rewrite Htree; [done|]. apply Forall_forall. intros a Hin Hpr. apply Hr, Exists_exists.
    exists (artifact_path a). split; [by apply list_elem_of_fmap_2|done].
Qed.

(** The file before the directory it is in, with a fault in the preparation of
    neither. *)
Definition sample_removal' : FilePlan := mkPlan ["w"] [Remove ["x"; "d"; "w"]; Remove ["d"; "w"]].

Lemma removal_leaves_the_rest_witness :
  exists w', @applyFilePlan (sample_host (fun _ => false)) sample_removal' false sample_world =
    (Ok [["x"; "d"; "w"]; ["d"; "w"]], w') /\ files w' ["d"; "w"] = None /\
    files w' ["a"; "w"] = Some (File [1%N] 420).
Proof.
  destruct (@removal_leaves_the_rest (sample_host (fun _ => false)) sample_removal'
    [["x"; "d"; "w"]; ["d"; "w"]] sample_world
    (cbind (@preflightFilePlan (sample_host (fun _ => false)) sample_removal') (fun _ => begin_transaction) sample_world).2
    [["x"; "d"; "w"]; ["d"; "w"]]
    (@transact (sample_host (fun _ => false)) sample_removal'
      (cbind (@preflightFilePlan (sample_host (fun _ => false)) sample_removal') (fun _ => begin_transaction) sample_world).2).2)
    as (w' & H1 & H2); [reflexivity| |apply sample_wf|exact sample_above| | |apply sample_quiet|].
  - repeat constructor.
  - unfold begun. apply outcome_is. vm_compute. reflexivity.
  - apply outcome_is. vm_compute. reflexivity.
  - exists w'. split; [exact H1|]. split; rewrite H2; vm_compute; reflexivity.
Defined.
