(* ===== verification/PlanWrites.v ===== *)
(** * The state of a plan of writes

    Where each write of a plan stands while file-plan.ts applies it ([Phase]),
    and what that says of the tree, the artifacts and the undo stack ([State]).
    The plans are those of files in directories that exist. *)

From S2P Require Import Prelude RecordUpdate JsString Disk FilePlan PlanContainment PlanRollback PlanRemoval.
From stdpp Require Import options.

(** ** Phases *)

(** The stage is [s], the backup [b] is artifact [j], the new file is [n]. *)
Inductive Phase : Type :=
| Pending
| Staged (s : path) (n : Node)
| Linked (s : path) (n : Node)
| Fresh (n : Node)
| Saved (s b : path) (j : nat) (n : Node)
| Replaced (b : path) (j : nat) (n : Node)
| Gone.

(** A write to [entry_path], whose stage is artifact [entry_artifact]. *)
Record Entry := mkEntry { entry_path : path; entry_artifact : nat; phase : Phase }.
#[export] Instance Entry_fields : Fields Entry :=
  fun r => mkEntry (entry_path r) (entry_artifact r) (phase r).

Section state.
Context {host : Host} (root : path) (t0 : tree).

(** Where the tree differs from [t0]. *)
Definition effects (e : Entry) : list (path * option Node) :=
  let p := entry_path e in
  match phase e with
  | Pending | Gone => []
  | Staged s n => [(s, Some n)]
  | Linked s n => [(s, Some n); (p, Some n)]
  | Fresh n => [(p, Some n)]
  | Saved s b _ n => [(s, Some n); (p, None); (b, t0 p)]
  | Replaced b _ n => [(p, Some n); (b, t0 p)]
  end.

Definition names (e : Entry) : list path :=
  entry_path e ::
  match phase e with
  | Pending | Gone | Fresh _ => []
  | Staged s _ | Linked s _ => [s]
  | Saved s b _ _ => [s; b]
  | Replaced b _ _ => [b]
  end.

Definition stage_of (s : path) : TransactionArtifact := mkArtifact s stage true true.
Definition installed_at (p : path) : TransactionArtifact := mkArtifact p stage false true.
Definition backup_at (b : path) : TransactionArtifact := mkArtifact b backup true true.

Definition entry_artifacts (e : Entry) : list (nat * TransactionArtifact) :=
  let i := entry_artifact e in
  match phase e with
  | Pending => []
  | Staged s _ | Linked s _ => [(i, stage_of s)]
  | Fresh _ | Gone => [(i, installed_at (entry_path e))]
  | Saved s b j _ => [(i, stage_of s); (j, backup_at b)]
  | Replaced b j _ => [(i, installed_at (entry_path e)); (j, backup_at b)]
  end.

Definition undo_of (e : Entry) : Undo :=
  match phase e with
  | Pending | Staged _ _ | Gone => UndoWrite (entry_path e) [] false None
  | Linked _ _ | Fresh _ => UndoWrite (entry_path e) [] true None
  | Saved _ _ j _ => UndoWrite (entry_path e) [] false (Some j)
  | Replaced _ j _ => UndoWrite (entry_path e) [] true (Some j)
  end.

Definition is_file (n : option Node) : Prop := exists content mode, n = Some (File content mode).

(** A path of the plan: a file, if there, in a directory of the project. *)
Record Target (p : path) : Prop := mkTarget {
  target_place : exists c d, p = c :: d /\ root `suffix_of` d /\ t0 d = Some Directory;
  target_name : ordinary p;
}.

(** A transaction path beside [p]. *)
Record Sibling (p q : path) : Prop := mkSibling {
  sibling_name : exists b, q = (TRANSACTION_PREFIX +:+ b)%stdpp :: dirname p;
  sibling_free : t0 q = None;
  sibling_inside : escapes root q = false;
}.

Definition phase_ok (e : Entry) : Prop :=
  let p := entry_path e in
  match phase e with
  | Pending => True
  | Staged s n => Sibling p s /\ is_file (Some n)
  | Linked s n => Sibling p s /\ is_file (Some n) /\ t0 p = None
  | Fresh n => is_file (Some n) /\ t0 p = None
  | Saved s b _ n => Sibling p s /\ Sibling p b /\ is_file (Some n) /\ is_file (t0 p)
  | Replaced b _ n => Sibling p b /\ is_file (Some n) /\ is_file (t0 p)
  | Gone => t0 p = None \/ is_file (t0 p)
  end.

Definition entry_ok (e : Entry) : Prop :=
  Target (entry_path e) /\ (phase e <> Pending -> escapes root (entry_path e) = false) /\ phase_ok e.

(** What entries say of a state. *)
Record Describes (es : list Entry) (t : tree) (arts : list TransactionArtifact) : Prop := mkDescribes {
  ds_wf : wf t;
  ds_ok : Forall entry_ok es;
  ds_names : NoDup (es ≫= names);
  ds_effects : forall q v, (q, v) ∈ es ≫= effects -> t q = v;
  ds_rest : forall q, q ∉ (es ≫= effects).*1 -> t q = t0 q;
  ds_artifacts : forall k a, (k, a) ∈ es ≫= entry_artifacts -> arts !! k = Some a;
  ds_only : forall k a, arts !! k = Some a -> off a \/ (k, a) ∈ es ≫= entry_artifacts;
}.

Lemma effects_names e q : q ∈ (effects e).*1 -> q ∈ names e.
Proof. unfold effects, names. destruct (phase e); set_solver. Qed.

Lemma in_entries {A} (f : Entry -> list A) es x : x ∈ es ≫= f <-> exists e, e ∈ es /\ x ∈ f e.
Proof. rewrite list_elem_of_bind. naive_solver. Qed.

Lemma in_effects es q : q ∈ (es ≫= effects).*1 <-> exists e, e ∈ es /\ q ∈ (effects e).*1.
Proof.
  rewrite list_elem_of_fmap. split.
  - intros ([q' v] & -> & (e & He & Hin)%in_entries). exists e. split; [done|].
    apply list_elem_of_fmap. by exists (q', v).
  - intros (e & He & ([q' v] & -> & Hin)%list_elem_of_fmap). exists (q', v). split; [done|].
    apply in_entries. by exists e.
Qed.

(** Two entries share no name. *)
Lemma names_apart l1 e l2 q :
  NoDup ((l1 ++ e :: l2) ≫= names) -> q ∈ names e -> forall e', e' ∈ l1 ++ l2 -> q ∉ names e'.
Proof.
  rewrite bind_app, bind_cons. intros (H1 & H2 & (H3 & H4 & H5)%NoDup_app)%NoDup_app Hq e' He' Hq'.
  apply elem_of_app in He' as [He'|He'].
  - apply (H2 q); [apply in_entries; by exists e'|]. apply elem_of_app. by left.
  - apply (H4 q Hq). apply in_entries. by exists e'.
Qed.

(** One entry goes to another phase. *)
Lemma describes_update l1 e l2 t arts e' t' arts' :
  Describes (l1 ++ e :: l2) t arts ->
  wf t' -> entry_ok e' -> NoDup ((l1 ++ e' :: l2) ≫= names) ->
  (forall q v, (q, v) ∈ effects e' -> t' q = v) ->
  (forall q, q ∈ (effects e).*1 -> q ∉ (effects e').*1 -> t' q = t0 q) ->
  (forall q, q ∉ names e -> q ∉ (effects e').*1 -> t' q = t q) ->
  (forall q, q ∈ names e -> q ∉ (effects e).*1 -> q ∉ (effects e').*1 -> t' q = t q) ->
  (forall k a, (k, a) ∈ (l1 ++ l2) ≫= entry_artifacts -> arts' !! k = Some a) ->
  (forall k a, (k, a) ∈ entry_artifacts e' -> arts' !! k = Some a) ->
  (forall k a, arts' !! k = Some a ->
     off a \/ (k, a) ∈ entry_artifacts e' \/ (k, a) ∈ (l1 ++ l2) ≫= entry_artifacts) ->
  Describes (l1 ++ e' :: l2) t' arts'.
Proof.
  intros [Hwf Hok Hnd Heff Hrest Hart Honly] Hwf' Hok' Hnd' Heff' Hback Hother Hsame Hart1 Hart2 Honly'.
  assert (forall e1, e1 ∈ l1 ++ e' :: l2 <-> e1 = e' \/ e1 ∈ l1 ++ l2) as Hin' by set_solver.
  assert (forall e1, e1 ∈ l1 ++ e :: l2 <-> e1 = e \/ e1 ∈ l1 ++ l2) as Hin by set_solver.
  split; try done.
  - apply Forall_app in Hok as [? [? ?]%Forall_cons]. apply Forall_app. split; [done|]. by constructor.
  - intros q v (e1 & [->|He1]%Hin' & Hqv)%in_entries; [by apply Heff'|].
    assert (q ∈ names e1) as Hq1 by (apply effects_names, list_elem_of_fmap; by exists (q, v)).
    rewrite Hother.
    + apply Heff, in_entries. exists e1. split; [apply Hin; by right|done].
    + intros Hq. by apply (names_apart _ _ _ q Hnd Hq e1).
    + intros Hq%effects_names. by apply (names_apart _ _ _ q Hnd' Hq e1).
  - intros q Hq. rewrite in_effects in Hq.
    assert (q ∉ (effects e').*1) as Hqe' by (intros H; apply Hq; exists e'; split; [apply Hin'; by left|done]).
    destruct (decide (q ∈ (effects e).*1)) as [Hqe|Hqe]; [by apply Hback|].
    assert (t' q = t q) as -> by (destruct (decide (q ∈ names e)); auto).
    apply Hrest. rewrite in_effects. intros (e1 & [->|He1]%Hin & Hq1); [done|].
    apply Hq. exists e1. split; [apply Hin'; by right|done].
  - intros k a (e1 & [->|He1]%Hin' & Hka)%in_entries; [by apply Hart2|].
    apply Hart1, in_entries. by exists e1.
  - intros k a [Ha|[Ha|(e1 & He1 & Ha)%in_entries]]%Honly'; [by left|right..]; apply in_entries.
    + exists e'. split; [apply Hin'; by left|done].
    + exists e1. split; [apply Hin'; by right|done].
Qed.

Lemma names_update l1 e l2 e' :
  NoDup ((l1 ++ e :: l2) ≫= names) -> NoDup (names e') ->
  (forall x, x ∈ names e' -> x ∈ names e \/ x ∉ (l1 ++ l2) ≫= names) ->
  NoDup ((l1 ++ e' :: l2) ≫= names).
Proof.
  intros Hnd Hnd' Hx.
  assert (forall x, x ∈ names e' -> (x ∉ l1 ≫= names) /\ (x ∉ l2 ≫= names)) as Hout.
  { intros x Hin. destruct (Hx x Hin) as [He|Hno].
    - split; intros (e1 & He1 & Hq)%in_entries; apply (names_apart _ _ _ x Hnd He e1); set_solver.
    - rewrite bind_app in Hno. set_solver. }
  rewrite !bind_app, !bind_cons in *.
  apply NoDup_app in Hnd as (H1 & H2 & (H3 & H4 & H5)%NoDup_app). apply NoDup_app. split; [done|]. split.
  - intros x Hx1 [Hxe|Hx2]%elem_of_app; [by destruct (Hout x Hxe)|]. apply (H2 x Hx1). set_solver.
  - apply NoDup_app. split; [done|]. split; [|done]. intros x Hxe. by apply Hout.
Qed.

Lemma names_present e q :
  entry_ok e -> q ∈ names e -> q = entry_path e \/ exists n, (q, Some n) ∈ effects e.
Proof.
  intros (_ & _ & Hok). unfold names, effects, phase_ok in *.
  destruct (phase e); rewrite ?elem_of_cons, ?elem_of_nil; try naive_solver.
  1, 2: intros [?|[->|[]]]; [by left|right; exists n; by left].
  - intros [?|[->|[->|[]]]]; [by left|right; eexists; by left|].
    destruct Hok as (_ & _ & _ & c & m & Ht). right. exists (File c m). rewrite Ht. set_solver.
  - intros [?|[->|[]]]; [by left|]. destruct Hok as (_ & _ & c & m & Ht).
    right. exists (File c m). rewrite Ht. set_solver.
Qed.

(** A free path with the name of a transaction path is no name of an entry. *)
Lemma free_name es t arts q b d :
  Describes es t arts -> t q = None -> q = (TRANSACTION_PREFIX +:+ b)%stdpp :: d ->
  (q ∉ es ≫= names) /\ t0 q = None.
Proof.
  intros [_ Hok _ Heff Hrest _ _] Hq Hb. rewrite Forall_forall in Hok.
  assert (q ∉ es ≫= names) as Hno.
  { intros (e & He & Hin)%in_entries. destruct (names_present e q (Hok e He) Hin) as [Hp|[n Hn]].
    - destruct (Hok e He) as ([_ Hord] & _). rewrite <- Hp, Hb in Hord. by apply (transaction_name b d []) in Hord.
    - assert (t q = Some n) by (apply Heff, in_entries; by exists e). congruence. }
  split; [done|]. rewrite <- Hrest; [done|]. rewrite in_effects. intros (e & He & Hin).
  apply Hno, in_entries. exists e. split; [done|]. by apply effects_names.
Qed.

Lemma artifact_names e k a : (k, a) ∈ entry_artifacts e -> artifact_path a ∈ names e.
Proof. unfold entry_artifacts, names. destruct (phase e); set_solver. Qed.

(** Two entries share no artifact. *)
Lemma artifacts_apart l1 e l2 t arts k a k' a' :
  Describes (l1 ++ e :: l2) t arts -> (k, a) ∈ entry_artifacts e ->
  (k', a') ∈ (l1 ++ l2) ≫= entry_artifacts -> k' <> k.
Proof.
  intros HD Hk (e' & He' & Hk')%in_entries ->.
  assert (arts !! k = Some a) as H1 by (apply (ds_artifacts _ _ _ HD), in_entries; exists e; set_solver).
  assert (arts !! k = Some a') as H2 by (apply (ds_artifacts _ _ _ HD), in_entries; exists e'; set_solver).
  assert (a = a') as -> by congruence.
  apply (names_apart _ _ _ (artifact_path a') (ds_names _ _ _ HD) (artifact_names _ _ _ Hk) e' He').
  by eapply artifact_names.
Qed.

Lemma describes_here l1 e l2 t arts :
  Describes (l1 ++ e :: l2) t arts ->
  entry_ok e /\ NoDup (names e) /\ (forall q v, (q, v) ∈ effects e -> t q = v) /\
  (forall q, q ∈ names e -> q ∉ (effects e).*1 -> t q = t0 q) /\
  (forall k a, (k, a) ∈ entry_artifacts e -> arts !! k = Some a).
Proof.
  intros HD. destruct HD as [Hwf Hok Hnd Heff Hrest Hart Honly]. split_and!.
  - rewrite Forall_app, Forall_cons in Hok. tauto.
  - rewrite bind_app, bind_cons in Hnd. apply NoDup_app in Hnd as (_ & _ & Hnd). by apply NoDup_app in Hnd as [? _].
  - intros q v Hq. apply Heff, in_entries. exists e. set_solver.
  - intros q Hq Hno. apply Hrest. rewrite in_effects. intros (e1 & He1 & Hin).
    assert (e1 = e \/ e1 ∈ l1 ++ l2) as [->|H12] by set_solver; [done|].
    by apply (names_apart _ _ _ q Hnd Hq e1 H12), effects_names.
  - intros k a Hk. apply Hart, in_entries. exists e. set_solver.
Qed.

(** ** Tables of artifacts *)

(** The table [arts'] is right for the entries when [e] has become [e']. *)
Record Retabled (l1 : list Entry) (e' : Entry) (l2 : list Entry) (arts' : list TransactionArtifact) : Prop :=
  mkRetabled {
    rt_others : forall k a, (k, a) ∈ (l1 ++ l2) ≫= entry_artifacts -> arts' !! k = Some a;
    rt_here : forall k a, (k, a) ∈ entry_artifacts e' -> arts' !! k = Some a;
    rt_only : forall k a, arts' !! k = Some a ->
      off a \/ (k, a) ∈ entry_artifacts e' \/ (k, a) ∈ (l1 ++ l2) ≫= entry_artifacts;
  }.

(** [describes_update] with its side conditions on names. *)
Lemma describes_step l1 e l2 t arts e' t' arts' :
  Describes (l1 ++ e :: l2) t arts ->
  wf t' -> entry_ok e' -> NoDup (names e') ->
  (forall x, x ∈ names e' -> x ∈ names e \/ x ∉ (l1 ++ l2) ≫= names) ->
  (forall q v, (q, v) ∈ effects e' -> t' q = v) ->
  (forall q, q ∈ names e -> q ∉ (effects e').*1 -> t' q = t0 q) ->
  (forall q, q ∉ names e -> q ∉ (effects e').*1 -> t' q = t q) ->
  Retabled l1 e' l2 arts' ->
  Describes (l1 ++ e' :: l2) t' arts'.
Proof.
  intros HD Hwf Hok Hnd Hnew Heff Hback Hother [H1 H2 H3].
  destruct (describes_here _ _ _ _ _ HD) as (_ & _ & _ & Hfree & _).
  eapply describes_update; try done.
  - eapply names_update; [by eapply ds_names|done|done].
  - intros q Hq. apply Hback. by apply effects_names.
  - intros q Hq Hqe Hqe'. rewrite Hback by done. symmetry. by apply Hfree.
Qed.

Lemma in_middle {A} (f : Entry -> list A) l1 e l2 x :
  x ∈ (l1 ++ e :: l2) ≫= f <-> x ∈ f e \/ x ∈ (l1 ++ l2) ≫= f.
Proof. rewrite !bind_app, bind_cons, !elem_of_app. tauto. Qed.

Lemma retabled_same l1 e l2 t arts e' :
  Describes (l1 ++ e :: l2) t arts -> entry_artifacts e' = entry_artifacts e -> Retabled l1 e' l2 arts.
Proof.
  intros HD Heq. split; rewrite ?Heq.
  - intros k a Hk. apply (ds_artifacts _ _ _ HD), in_middle. by right.
  - intros k a Hk. apply (ds_artifacts _ _ _ HD), in_middle. by left.
  - intros k a Hk. destruct (ds_only _ _ _ HD k a Hk) as [|Hin%in_middle]; [by left|by right].
Qed.

Lemma retabled_push l1 e l2 t arts e' a :
  Describes (l1 ++ e :: l2) t arts -> entry_artifacts e' ≡ₚ (length arts, a) :: entry_artifacts e ->
  Retabled l1 e' l2 (arts ++ [a]).
Proof.
  intros HD Heq. destruct (retabled_same _ _ _ _ _ _ HD eq_refl) as [H1 H2 H3]. split.
  - intros k x Hk. apply lookup_app_l_Some. auto.
  - intros k x. rewrite Heq, elem_of_cons. intros [[= -> ->]|Hk].
    + rewrite lookup_app_r, Nat.sub_diag by done. done.
    + apply lookup_app_l_Some. auto.
  - intros k x. rewrite Heq, elem_of_cons. intros [Hk|[Hlen Hk]]%lookup_app_Some.
    + destruct (H3 k x Hk) as [|[|]]; auto.
    + destruct (k - length arts) as [|m] eqn:Hm; simpl in Hk; [|by rewrite lookup_nil in Hk].
      injection Hk as ->. right. left. left. f_equal. lia.
Qed.

(** One artifact of the entry changes, and the others may be rewritten, which
    changes no other artifact of an entry. *)
Lemma retabled_alter l1 e l2 t arts e' i a f g :
  Describes (l1 ++ e :: l2) t arts -> (i, a) ∈ entry_artifacts e ->
  (forall x, off x -> off (g x)) ->
  (forall k x, (k, x) ∈ (l1 ++ e :: l2) ≫= entry_artifacts -> k <> i -> g x = x) ->
  (forall k x, (k, x) ∈ entry_artifacts e' -> k = i /\ x = f (g a) \/ k <> i /\ (k, x) ∈ entry_artifacts e) ->
  (forall k x, (k, x) ∈ entry_artifacts e -> k <> i -> (k, x) ∈ entry_artifacts e') ->
  off (f (g a)) \/ (i, f (g a)) ∈ entry_artifacts e' ->
  Retabled l1 e' l2 (alter f i (g <$> arts)).
Proof.
  intros HD Hi Hoff Hg Hhere Hkept Hfa.
  assert (arts !! i = Some a) as Hia by (apply (ds_artifacts _ _ _ HD), in_middle; by left).
  assert (forall k x, (k, x) ∈ (l1 ++ e :: l2) ≫= entry_artifacts -> k <> i ->
    alter f i (g <$> arts) !! k = Some x) as Hsame.
  { intros k x Hk Hne. rewrite list_lookup_alter_ne by done.
    rewrite list_lookup_fmap, (ds_artifacts _ _ _ HD k x Hk). simpl. f_equal. by eapply Hg. }
  split.
  - intros k x Hk. apply Hsame; [apply in_middle; by right|]. by eapply artifacts_apart.
  - intros k x Hk. destruct (Hhere k x Hk) as [[-> ->]|[Hne Hin]].
    + rewrite list_lookup_alter_eq, list_lookup_fmap, Hia. done.
    + apply Hsame; [apply in_middle; by left|done].
  - intros k x Hk. destruct (decide (k = i)) as [->|Hne].
    + rewrite list_lookup_alter_eq, list_lookup_fmap, Hia in Hk. simpl in Hk. injection Hk as <-.
      destruct Hfa; [by left|by right; left].
    + rewrite list_lookup_alter_ne, list_lookup_fmap in Hk by done.
      destruct (arts !! k) as [y|] eqn:Hy; simpl in Hk; [|done]. injection Hk as <-.
      destruct (ds_only _ _ _ HD k y Hy) as [Ho|Hin]; [left; by apply Hoff|].
      rewrite (Hg k y Hin Hne). apply in_middle in Hin as [Hin|Hin]; [right; left; by apply Hkept|by right; right].
Qed.

(** ** Names and files *)

Hypothesis Hwf0 : wf t0.

Set Default Proof Using "Type*".

Lemma is_file_not_dir n : is_file n -> n <> Some Directory.
Proof. by intros (c & m & ->). Qed.

(** A name is in a directory of [t0]. *)
Lemma name_dir e x : entry_ok e -> x ∈ names e -> exists c d, x = c :: d /\ t0 d = Some Directory.
Proof.
  intros ([(c & d & Hp & _ & Hd) _] & _ & Hok).
  assert (forall q, Sibling (entry_path e) q -> exists c d, q = c :: d /\ t0 d = Some Directory) as Hsib.
  { intros q [[b ->] _ _]. rewrite Hp. by eexists _, d. }
  unfold names, phase_ok in *. rewrite elem_of_cons. intros [->|Hx]; [by eexists _, _|].
  destruct (phase e); rewrite ?elem_of_cons, ?elem_of_nil in Hx; naive_solver.
Qed.

(** What is no directory has no name below it. *)
Lemma name_below e x y :
  entry_ok e -> x ∈ names e -> t0 y <> Some Directory -> y `suffix_of` x -> y = x.
Proof.
  intros Hok Hx Hy Hyx. destruct (name_dir e x Hok Hx) as (c & d & -> & Hd).
  apply below_cons in Hyx as [->|Hyd]; [done|]. destruct Hy.
  destruct (decide (y = d)) as [->|Hne]; [done|]. by apply (wf_above t0 d); rewrite ?Hd.
Qed.

Lemma rewrite_beside e k a y z :
  entry_ok e -> (k, a) ∈ entry_artifacts e -> t0 y <> Some Directory -> artifact_path a <> y ->
  rewrite_artifact y z a = a.
Proof.
  intros Hok Hk Hy Hne. unfold rewrite_artifact. rewrite decide_False; [done|]. intros Hs.
  apply Hne. symmetry. eapply name_below; [done|by eapply artifact_names|done|done].
Qed.

(** The rename of a file. *)
Lemma graft_file t p q :
  wf t -> is_file (t p) -> t q = None -> q <> p -> ~ p `suffix_of` q ->
  forall r, graft p q t r = if decide (r = q) then t p else if decide (r = p) then None else t r.
Proof.
  intros Hwf (c & m & Hp) Hq Hne Hpq r.
  destruct (decide (q `suffix_of` r)) as [[k ->]|Hqr].
  - rewrite graft_to. destruct k as [|x k]; [by rewrite decide_True|].
    assert (x :: k ++ q <> q) as Hkq.
    { intros H%(f_equal length). simpl in H. rewrite length_app in H. lia. }
    simpl. rewrite decide_False by done.
    assert (t (x :: k ++ p) = None) as ->.
    { apply (wf_leaf t p); [done|by rewrite Hp|by exists (x :: k)|].
      intros H%(f_equal length). simpl in H. rewrite length_app in H. lia. }
    case_decide; [done|]. symmetry. apply (wf_below t q); [done|done|by exists (x :: k)].
  - rewrite decide_False by (intros ->; by apply Hqr). destruct (decide (p `suffix_of` r)) as [Hpr|Hpr].
    + rewrite graft_from by done. case_decide; [done|].
      symmetry. apply (wf_leaf t p); [done|by rewrite Hp|done|congruence].
    + rewrite graft_beside by done. by rewrite decide_False by (intros ->; by apply Hpr).
Qed.

(** ** Steps forward *)

(** What an entry in a known phase has. *)
Ltac shows := unfold names, effects, entry_artifacts, undo_of, phase_ok in *; simpl in *.

(** Membership in lists of known members. *)
Ltac members := shows; rewrite ?elem_of_cons, ?elem_of_nil in *; naive_solver.

Ltac distinct := shows; repeat (apply NoDup_cons; split; [members|]); apply NoDup_nil_2.

Lemma sibling_ne p b d : Target p -> p <> (TRANSACTION_PREFIX +:+ b)%stdpp :: d.
Proof. intros [_ Hord] ->. by apply (transaction_name b d []) in Hord. Qed.

(** The facts of an entry at its place. *)
Lemma here_target l1 e l2 t arts : Describes (l1 ++ e :: l2) t arts -> Target (entry_path e).
Proof. intros HD. by destruct (describes_here _ _ _ _ _ HD) as ((HT & _) & _). Qed.

Lemma step_stage l1 p i0 l2 t arts s b n :
  Describes (l1 ++ mkEntry p i0 Pending :: l2) t arts ->
  t s = None -> s = (TRANSACTION_PREFIX +:+ b)%stdpp :: dirname p ->
  escapes root s = false -> escapes root p = false -> is_file (Some n) ->
  wf (set_node s (Some n) t) ->
  Describes (l1 ++ mkEntry p (length arts) (Staged s n) :: l2) (set_node s (Some n) t) (arts ++ [stage_of s]).
Proof.
  intros HD Hs Hb Hes Hep Hn Hwf.
  destruct (free_name _ _ _ _ _ _ HD Hs Hb) as [Hnew Hs0].
  pose proof (here_target _ _ _ _ _ HD) as HT. simpl in HT.
  destruct (describes_here _ _ _ _ _ HD) as (_ & _ & _ & Hfree & _). simpl in Hfree.
  assert (p <> s) as Hps by (rewrite Hb; by apply sibling_ne).
  rewrite in_middle in Hnew.
  eapply describes_step; [done|done| | | | | | |].
  - split; [done|]. split; [done|]. split; [|done]. split; [by exists b|done..].
  - distinct.
  - intros x Hx. members.
  - intros q v Hqv. shows. apply list_elem_of_singleton in Hqv as [= -> ->]. apply set_node_eq.
  - intros q Hq Hno. rewrite set_node_ne by (intros ->; members). apply Hfree; members.
  - intros q Hq Hno. by rewrite set_node_ne by (intros ->; members).
  - by eapply retabled_push.
Qed.

(** The stage changes: [chmod]. *)
Lemma step_chmod l1 e l2 t arts s n n' e' :
  Describes (l1 ++ e :: l2) t arts ->
  (phase e = Staged s n /\ e' = e <| phase := Staged s n' |> \/
   exists b j, phase e = Saved s b j n /\ e' = e <| phase := Saved s b j n' |>) ->
  is_file (Some n') -> wf (set_node s (Some n') t) ->
  Describes (l1 ++ e' :: l2) (set_node s (Some n') t) arts.
Proof.
  intros HD He Hn' Hwf. destruct (describes_here _ _ _ _ _ HD) as (Hok & Hnd & Heff & Hfree & _).
  assert (names e' = names e /\ entry_artifacts e' = entry_artifacts e /\ entry_ok e' /\
    (effects e').*1 = (effects e).*1 /\ s ∈ (effects e).*1 /\
    forall q v, (q, v) ∈ effects e' -> q = s /\ v = Some n' \/ q <> s /\ (q, v) ∈ effects e) as
    (Hna & Har & Hok' & Hef & Hs & Hev).
  { destruct e as [p i ph]. unfold entry_ok in *. shows.
    destruct He as [[Hp ->]|(b & j & Hp & ->)]; simpl in *; subst ph; simpl in *; split_and!; try done;
      try naive_solver; try set_solver.
    apply NoDup_cons in Hnd as [Hnp Hnd]. apply NoDup_cons in Hnd as [Hnb _].
    intros q v Hqv. members. }
  eapply describes_step; [done|done|done|by rewrite Hna|rewrite Hna; auto| | | |].
  - intros q v [[-> ->]|[Hne Hq]]%Hev; [apply set_node_eq|]. rewrite set_node_ne by done. by apply Heff.
  - rewrite Hef. intros q Hq Hno. rewrite set_node_ne by (intros ->; done). by apply Hfree.
  - rewrite Hef. intros q Hq Hno. by rewrite set_node_ne by (intros ->; done).
  - by eapply retabled_same.
Qed.

Lemma step_link l1 p i l2 t arts s n :
  Describes (l1 ++ mkEntry p i (Staged s n) :: l2) t arts ->
  t p = None -> wf (set_node p (Some n) t) ->
  Describes (l1 ++ mkEntry p i (Linked s n) :: l2) (set_node p (Some n) t) arts.
Proof.
  intros HD Hp Hwf. destruct (describes_here _ _ _ _ _ HD) as ((HT & Hesc & Hok) & Hnd & Heff & Hfree & _).
  shows. assert (p <> s) as Hps by (apply NoDup_cons in Hnd as [Hnd _]; intros ->; members).
  assert (t0 p = None) as Hp0 by (rewrite <- Hfree; [done|members..]).
  eapply describes_step; [done|done| | | | | | |].
  - split; [done|]. split; [by intros _; apply Hesc|]. shows. tauto.
  - distinct.
  - intros x Hx. members.
  - intros q v Hqv. destruct (decide (q = p)) as [->|Hqp]; [rewrite set_node_eq; members|].
    rewrite set_node_ne by done. apply Heff. members.
  - intros q Hq Hno. members.
  - intros q Hq Hno. rewrite set_node_ne; [done|]. intros ->. members.
  - by eapply retabled_same.
Qed.

Lemma retabled_alter_only l1 e l2 t arts e' i a f :
  Describes (l1 ++ e :: l2) t arts -> (i, a) ∈ entry_artifacts e ->
  (forall k x, (k, x) ∈ entry_artifacts e' -> k = i /\ x = f a \/ k <> i /\ (k, x) ∈ entry_artifacts e) ->
  (forall k x, (k, x) ∈ entry_artifacts e -> k <> i -> (k, x) ∈ entry_artifacts e') ->
  (i, f a) ∈ entry_artifacts e' ->
  Retabled l1 e' l2 (alter f i arts).
Proof.
  intros HD Hi Hhere Hkept Hfa. rewrite <- (list_fmap_id arts).
  eapply (retabled_alter l1 e l2 t arts e' i a f id); eauto.
Qed.

Lemma describes_rewritten es t arts g :
  Describes es t arts -> (forall x, off x -> off (g x)) ->
  (forall k x, (k, x) ∈ es ≫= entry_artifacts -> g x = x) ->
  Describes es t (g <$> arts).
Proof.
  intros [Hwf Hok Hnd Heff Hrest Hart Honly] Hoff Hg. split; try done.
  - intros k a Hk. rewrite list_lookup_fmap, (Hart k a Hk). simpl. by rewrite (Hg k a Hk).
  - intros k a. rewrite list_lookup_fmap. destruct (arts !! k) as [x|] eqn:Hx; [|done]. intros [= <-].
    destruct (Honly k x Hx) as [Ho|Hin]; [left; by apply Hoff|right; by rewrite (Hg k x Hin)].
Qed.

Definition become_installed (p : path) (a : TransactionArtifact) : TransactionArtifact :=
  a <| artifact_path := p |> <| cleanupOnSuccess := false |>.

Lemma step_unlink l1 p i l2 t arts s n :
  Describes (l1 ++ mkEntry p i (Linked s n) :: l2) t arts -> wf (set_node s None t) ->
  Describes (l1 ++ mkEntry p i (Fresh n) :: l2) (set_node s None t) (alter (become_installed p) i arts).
Proof.
  intros HD Hwf. destruct (describes_here _ _ _ _ _ HD) as ((HT & Hesc & Hok) & Hnd & Heff & Hfree & Har).
  shows. assert (p <> s) as Hps by (apply NoDup_cons in Hnd as [Hnd _]; intros ->; members).
  assert (t0 s = None) as Hs0 by apply Hok.
  eapply describes_step; [done|done| | | | | | |].
  - split; [done|]. split; [by intros _; apply Hesc|]. shows. tauto.
  - distinct.
  - intros x Hx. members.
  - intros q v Hqv. shows. apply list_elem_of_singleton in Hqv as [= -> ->].
    rewrite set_node_ne by done. apply Heff. members.
  - intros q Hq Hno. assert (q = s) as -> by members. by rewrite set_node_eq.
  - intros q Hq Hno. rewrite set_node_ne; [done|]. intros ->. members.
  - eapply retabled_alter_only; [done|shows; by left|..]; shows; [intros k x|intros k x|]; members.
Qed.

(** The old file [o] makes way for the backup [b]. *)
Lemma step_save l1 p i l2 t arts s n b c :
  Describes (l1 ++ mkEntry p i (Staged s n) :: l2) t arts ->
  is_file (t p) -> t b = None -> b = (TRANSACTION_PREFIX +:+ c)%stdpp :: dirname p ->
  escapes root b = false -> wf (graft p b t) ->
  Describes (l1 ++ mkEntry p i (Saved s b (length arts) n) :: l2) (graft p b t)
    ((rewrite_artifact p b <$> arts) ++ [backup_at b]).
Proof.
  intros HD Hp Hb Hbc Heb Hwf. destruct (free_name _ _ _ _ _ _ HD Hb Hbc) as [Hnew Hb0].
  pose proof (here_target _ _ _ _ _ HD) as HT.
  destruct (describes_here _ _ _ _ _ HD) as ((_ & Hesc & Hok) & Hnd & Heff & Hfree & Har).
  pose proof (ds_ok _ _ _ HD) as Hall. rewrite Forall_forall in Hall.
  rewrite in_middle in Hnew. shows.
  assert (p <> s) as Hps by (apply NoDup_cons in Hnd as [Hnd _]; intros ->; members).
  assert (p <> b) as Hpb by (rewrite Hbc; by apply sibling_ne).
  assert (t p = t0 p) as Hp0 by (apply Hfree; members).
  assert (~ p `suffix_of` b) as Hpsb.
  { rewrite Hbc. destruct HT as [(x & d & -> & _) _]. apply siblings_beside. intros ->. by apply Hpb. }
  pose proof (graft_file t p b (ds_wf _ _ _ HD) Hp Hb (not_eq_sym Hpb) Hpsb) as Hg.
  assert (Describes (l1 ++ mkEntry p i (Staged s n) :: l2) t (rewrite_artifact p b <$> arts)) as HD'.
  { apply describes_rewritten; [done|apply off_rewrite|]. intros k a (e & He & Hk)%in_entries.
    apply (rewrite_beside e k); [by apply Hall|done| |].
    { rewrite <- Hp0. by apply is_file_not_dir. }
    intros Hap. pose proof (artifact_names _ _ _ Hk) as Hna. rewrite Hap in Hna.
    assert (e = mkEntry p i (Staged s n) \/ e ∈ l1 ++ l2) as [->|H12] by set_solver.
    - shows. apply list_elem_of_singleton in Hk as [= -> ->]. by apply Hps.
    - apply (names_apart _ _ _ p (ds_names _ _ _ HD)) in H12; [done|]. shows. by left. }
  eapply describes_step; [apply HD'|done| | | | | | |].
  - split; [done|]. split; [by intros _; apply Hesc|]. shows. rewrite <- Hp0. split_and!; try tauto.
    split; [by exists c|done..].
  - distinct.
  - intros x Hx. members.
  - intros q v Hqv. rewrite Hg. shows. rewrite !elem_of_cons, elem_of_nil in Hqv.
    destruct Hqv as [[= -> ->]|[[= -> ->]|[[= -> ->]|[]]]].
    + rewrite decide_False by (intros ->; members). rewrite decide_False by done. apply Heff. members.
    + rewrite decide_False by done. by rewrite decide_True.
    + by rewrite decide_True.
  - intros q Hq Hno. members.
  - intros q Hq Hno. rewrite Hg. rewrite !decide_False; [done|..]; intros ->; members.
  - rewrite <- (length_fmap (rewrite_artifact p b) arts). eapply retabled_push; [apply HD'|].
    shows. apply Permutation_swap.
Qed.

Lemma step_replace l1 p i l2 t arts s b j n :
  Describes (l1 ++ mkEntry p i (Saved s b j n) :: l2) t arts -> wf (graft s p t) ->
  Describes (l1 ++ mkEntry p i (Replaced b j n) :: l2) (graft s p t) (alter (become_installed p) i arts).
Proof.
  intros HD Hwf. destruct (describes_here _ _ _ _ _ HD) as ((HT & Hesc & Hok) & Hnd & Heff & Hfree & Har).
  shows. apply NoDup_cons in Hnd as [Hnp Hnd]. apply NoDup_cons in Hnd as [Hns _].
  assert (p <> s) as Hps by (intros ->; members). assert (p <> b) as Hpb by (intros ->; members).
  assert (s <> b) as Hsb by (intros ->; members).
  destruct Hok as ([[c Hsc] Hs0 _] & HSb & Hn & Hp0).
  assert (t s = Some n) as Hts by (apply Heff; members). assert (t p = None) as Htp by (apply Heff; members).
  assert (~ s `suffix_of` p) as Hsp.
  { rewrite Hsc. destruct HT as [(x & d & -> & _) _]. apply siblings_beside. intros <-. by apply Hps. }
  assert (is_file (t s)) as Hfs by (by rewrite Hts).
  pose proof (graft_file t s p (ds_wf _ _ _ HD) Hfs Htp Hps Hsp) as Hg.
  assert (j <> i) as Hij.
  { intros ->. assert (arts !! i = Some (stage_of s)) as H1 by (apply Har; members).
    assert (arts !! i = Some (backup_at b)) as H2 by (apply Har; members). rewrite H1 in H2; by inversion H2. }
  eapply describes_step; [done|done| | | | | | |].
  - split; [done|]. split; [by intros _; apply Hesc|]. shows. tauto.
  - distinct.
  - intros x Hx. members.
  - intros q v Hqv. rewrite Hg. shows. rewrite !elem_of_cons, elem_of_nil in Hqv.
    destruct Hqv as [[= -> ->]|[[= -> ->]|[]]]; [by rewrite decide_True|].
    rewrite !decide_False by (intros ->; done). apply Heff. members.
  - intros q Hq Hno. assert (q = s) as -> by members. rewrite Hg, decide_False, decide_True by done. done.
  - intros q Hq Hno. rewrite Hg, !decide_False; [done|..]; intros ->; members.
  - eapply retabled_alter_only; [done|shows; by left|..]; shows; [intros k x|intros k x|]; members.
Qed.

(** ** Steps back *)

Lemma step_unlink_target l1 p i l2 t arts s n :
  Describes (l1 ++ mkEntry p i (Linked s n) :: l2) t arts -> wf (set_node p None t) ->
  Describes (l1 ++ mkEntry p i (Staged s n) :: l2) (set_node p None t) arts.
Proof.
  intros HD Hwf. destruct (describes_here _ _ _ _ _ HD) as ((HT & Hesc & Hok) & Hnd & Heff & Hfree & _).
  shows. assert (p <> s) as Hps by (apply NoDup_cons in Hnd as [Hnd _]; intros ->; members).
  eapply describes_step; [done|done| | | | | | |].
  - split; [done|]. split; [by intros _; apply Hesc|]. shows. tauto.
  - distinct.
  - intros x Hx. members.
  - intros q v Hqv. shows. apply list_elem_of_singleton in Hqv as [= -> ->].
    rewrite set_node_ne by done. apply Heff. members.
  - intros q Hq Hno. assert (q = p) as -> by members. rewrite set_node_eq. symmetry. apply Hok.
  - intros q Hq Hno. rewrite set_node_ne; [done|]. intros ->. members.
  - by eapply retabled_same.
Qed.

Lemma step_remove_target l1 p i l2 t arts n :
  Describes (l1 ++ mkEntry p i (Fresh n) :: l2) t arts -> wf (set_node p None t) ->
  Describes (l1 ++ mkEntry p i Gone :: l2) (set_node p None t) arts.
Proof.
  intros HD Hwf. destruct (describes_here _ _ _ _ _ HD) as ((HT & Hesc & Hok) & Hnd & Heff & Hfree & _).
  shows. eapply describes_step; [done|done| | | | | | |].
  - split; [done|]. split; [by intros _; apply Hesc|]. shows. tauto.
  - distinct.
  - intros x Hx. members.
  - intros q v Hqv. shows. by apply not_elem_of_nil in Hqv.
  - intros q Hq Hno. assert (q = p) as -> by members. rewrite set_node_eq. symmetry. apply Hok.
  - intros q Hq Hno. rewrite set_node_ne; [done|]. intros ->. members.
  - by eapply retabled_same.
Qed.

Definition turn_off (a : TransactionArtifact) : TransactionArtifact :=
  a <| cleanupOnSuccess := false |> <| cleanupOnFailure := false |>.

(** The table after the backup of [e] has gone back. *)
Lemma retabled_put_back l1 e l2 t arts e' p b j n :
  Describes (l1 ++ e :: l2) t arts -> (j, backup_at b) ∈ entry_artifacts e -> p <> b ->
  (phase e = Replaced b j n \/ exists s, phase e = Saved s b j n /\ s <> b) -> entry_path e = p ->
  (forall k x, (k, x) ∈ entry_artifacts e' <-> (k, x) ∈ entry_artifacts e /\ x <> backup_at b) ->
  Retabled l1 e' l2 (alter turn_off j (rewrite_artifact b p <$> arts)).
Proof.
  intros HD Hj Hpb He Hp Hleft. pose proof (ds_ok _ _ _ HD) as Hall. rewrite Forall_forall in Hall.
  destruct (describes_here _ _ _ _ _ HD) as ((_ & _ & Hok) & _ & _ & _ & Har).
  assert (t0 b = None) as Hb0.
  { unfold phase_ok in Hok. destruct He as [He|(s & He & _)]; rewrite He in Hok; apply Hok. }
  assert (forall k x, (k, x) ∈ entry_artifacts e -> x = backup_at b -> k = j) as Hone.
  { intros k x Hk ->. unfold entry_artifacts in Hk.
    destruct He as [He|(s & He & Hs)]; rewrite He in Hk; rewrite ?elem_of_cons, ?elem_of_nil in Hk;
      destruct Hk as [[= -> Hx]|[[= ->]|[]]]; done. }
  apply (retabled_alter l1 e l2 t arts e' j (backup_at b) turn_off (rewrite_artifact b p)); try done.
  - apply off_rewrite.
  - intros k x (e1 & He1 & Hk)%in_entries Hne. apply (rewrite_beside e1 k); [by apply Hall|done|by rewrite Hb0|].
    intros Hx. assert (e1 = e \/ e1 ∈ l1 ++ l2) as [->|H12] by set_solver.
    + unfold entry_artifacts in Hk.
      destruct He as [He|(s & He & Hs)]; rewrite He in Hk; rewrite ?elem_of_cons, ?elem_of_nil in Hk;
        destruct Hk as [[= -> ->]|[[= -> ->]|[]]]; simpl in Hx; congruence.
    + apply (names_apart _ _ _ b (ds_names _ _ _ HD)) in H12.
      * apply H12. rewrite <- Hx. by eapply artifact_names.
      * by apply (artifact_names e j (backup_at b)).
  - intros k x [Hk Hx]%Hleft. right. split; [|done]. intros ->. apply Hx.
    assert (arts !! j = Some x) as H1 by auto. assert (arts !! j = Some (backup_at b)) as H2 by auto. congruence.
  - intros k x Hk Hne. apply Hleft. split; [done|]. intros ->. apply Hne. by eapply Hone.
  - left. done.
Qed.

Lemma step_put_back l1 p i l2 t arts s b j n :
  Describes (l1 ++ mkEntry p i (Saved s b j n) :: l2) t arts -> wf (graft b p t) ->
  Describes (l1 ++ mkEntry p i (Staged s n) :: l2) (graft b p t)
    (alter turn_off j (rewrite_artifact b p <$> arts)).
Proof.
  intros HD Hwf. destruct (describes_here _ _ _ _ _ HD) as ((HT & Hesc & Hok) & Hnd & Heff & Hfree & Har).
  shows. apply NoDup_cons in Hnd as [Hnp Hnd]. apply NoDup_cons in Hnd as [Hns _].
  assert (p <> s) as Hps by (intros ->; members). assert (p <> b) as Hpb by (intros ->; members).
  assert (s <> b) as Hsb by (intros ->; members).
  destruct Hok as (HSs & [[c Hbc] Hb0 _] & Hn & Hp0).
  assert (t b = t0 p) as Htb by (apply Heff; members). assert (t p = None) as Htp by (apply Heff; members).
  assert (~ b `suffix_of` p) as Hbp.
  { rewrite Hbc. destruct HT as [(x & d & -> & _) _]. apply siblings_beside. intros <-. by apply Hpb. }
  assert (is_file (t b)) as Hfb by (by rewrite Htb).
  pose proof (graft_file t b p (ds_wf _ _ _ HD) Hfb Htp Hpb Hbp) as Hg.
  eapply describes_step; [done|done| | | | | | |].
  - split; [done|]. split; [by intros _; apply Hesc|]. shows. tauto.
  - distinct.
  - intros x Hx. members.
  - intros q v Hqv. shows. apply list_elem_of_singleton in Hqv as [= -> ->].
    rewrite Hg, !decide_False by (intros ->; done). apply Heff. members.
  - intros q Hq Hno. rewrite Hg. assert (q = p \/ q = b) as [->| ->] by members.
    + by rewrite decide_True.
    + by rewrite decide_False, decide_True by done.
  - intros q Hq Hno. rewrite Hg, !decide_False; [done|..]; intros ->; members.
  - eapply (retabled_put_back _ _ _ _ _ _ _ _ _ n); [done|shows; members|done|right; exists s; done|done|].
    intros k x. shows. rewrite !elem_of_cons, !elem_of_nil. split; [|naive_solver].
    intros [[= -> ->]|[]]. split; [by left|]. by intros [= ->].
Qed.

Lemma step_restore l1 p i l2 t arts b j n :
  Describes (l1 ++ mkEntry p i (Replaced b j n) :: l2) t arts ->
  wf (set_node p None t) -> wf (graft b p (set_node p None t)) ->
  Describes (l1 ++ mkEntry p i Gone :: l2) (graft b p (set_node p None t))
    (alter turn_off j (rewrite_artifact b p <$> arts)).
Proof.
  intros HD Hwf1 Hwf. destruct (describes_here _ _ _ _ _ HD) as ((HT & Hesc & Hok) & Hnd & Heff & Hfree & Har).
  shows. apply NoDup_cons in Hnd as [Hnp Hnd]. assert (p <> b) as Hpb by (intros ->; members).
  destruct Hok as ([[c Hbc] Hb0 _] & Hn & Hp0). assert (t b = t0 p) as Htb by (apply Heff; members).
  assert (~ b `suffix_of` p) as Hbp.
  { rewrite Hbc. destruct HT as [(x & d & -> & _) _]. apply siblings_beside. intros <-. by apply Hpb. }
  assert (set_node p None t b = t0 p) as Htb1 by (by rewrite set_node_ne by done).
  assert (is_file (set_node p None t b)) as Hfb by (by rewrite Htb1).
  pose proof (graft_file (set_node p None t) b p Hwf1 Hfb (set_node_eq _ _ _) Hpb Hbp) as Hg.
  eapply describes_step; [done|done| | | | | | |].
  - split; [done|]. split; [by intros _; apply Hesc|]. shows. tauto.
  - distinct.
  - intros x Hx. members.
  - intros q v Hqv. shows. by apply not_elem_of_nil in Hqv.
  - intros q Hq Hno. rewrite Hg. assert (q = p \/ q = b) as [->| ->] by members.
    + by rewrite decide_True.
    + by rewrite decide_False, decide_True by done.
  - intros q Hq Hno. rewrite Hg, !decide_False; [rewrite set_node_ne; [done|]|..]; intros ->; members.
  - eapply (retabled_put_back _ _ _ _ _ _ _ _ _ n); [done|shows; members|done|by left|done|].
    intros k x. shows. rewrite !elem_of_cons, !elem_of_nil. naive_solver.
Qed.
End state.
