(* ===== verification/PlanWriteRuns.v ===== *)
(** * The run of a plan of writes

    What file-plan.ts does to the [State] of a plan of writes, call by call:
    staging, applying, on every outcome of every call. *)

From S2P Require Import Prelude RecordUpdate JsString Disk FilePlan PlanContainment PlanRollback PlanRemoval PlanWrites.
From stdpp Require Import options.

Section run.
Context {host : Host} (root : path) (t0 : tree).
Hypothesis Habove : plain_above root t0.
Hypothesis Hwf0 : wf t0.

(** A write that is refused leaves no part of a file. *)
Definition whole : Prop := forall n f, fault n = Some f -> made f = 0%nat.
Hypothesis Hwhole : whole.

(** The operation has not been started. *)
Definition Idle (e : Entry) : Prop := phase e = Pending \/ exists s n, phase e = Staged s n.

(** The operations of [finished] have been started, those of [todo] not. *)
Record State (finished todo : list Entry) (w : World) : Prop := mkState {
  st_inv : Inv root t0 (files w);
  st_describes : Describes root t0 (finished ++ todo) (files w) (artifacts w);
  st_undo : undoStack w = undo_of <$> rev finished;
  st_created : createdDirectories w = [];
  st_idle : Forall Idle todo;
  st_started : Forall (fun e => phase e <> Gone) finished;
}.

Definition Writing (w : World) : Prop := exists finished todo, State finished todo w.

Lemma stable_state finished todo : stable (State finished todo).
Proof. intros w n u [H1 H2 H3 H4 H5 H6]. by split. Qed.

Lemma stable_writing : stable Writing.
Proof. intros w n u (f & t & H). exists f, t. by apply stable_state. Qed.

Lemma writing_inv w : Writing w -> Inv root t0 (files w).
Proof. by intros (f & t & [H _ _ _ _ _]). Qed.

#[local] Hint Resolve stable_state stable_writing writing_inv : omp.

Set Default Proof Using "All".

(** ** Directories that are there *)

Lemma dir_kept es t arts d :
  Describes root t0 es t arts -> t0 d = Some Directory -> t d = Some Directory.
Proof using Type.
  intros HD Hd. rewrite (ds_rest _ _ _ _ _ HD); [done|]. rewrite in_effects. intros (e & He & Hin).
  pose proof (ds_ok _ _ _ _ _ HD) as Hok. rewrite Forall_forall in Hok.
  destruct (Hok e He) as (_ & _ & Hph). apply list_elem_of_fmap in Hin as ([q v] & -> & Hin). simpl in Hd.
  assert (forall x y, Sibling root t0 x y -> t0 y = Some Directory -> False) as Hs by (intros x y [_ Hf _] Hy; congruence).
  assert (forall m, is_file m -> m = Some Directory -> False) as Hf by (intros m (c & k & ->) [=]).
  unfold effects, phase_ok in *. destruct (phase e); rewrite ?elem_of_cons, ?elem_of_nil in Hin;
    destruct_or?; destruct_and?; simplify_eq; eauto; congruence.
Qed.

Lemma make_no_directory e cur todo t :
  (forall q, q `suffix_of` rev todo ++ cur -> cur `suffix_of` q -> t q = Some Directory) ->
  make_directories e cur todo t = (Ok tt, t).
Proof.
  revert cur. induction todo as [|c todo IH]; intros cur Hq; simpl; [done|].
  rewrite (Hq (c :: cur)); [|simpl; rewrite <- app_assoc; by exists (rev todo)|by apply suffix_cons_r].
  apply IH. intros q H1 H2. apply Hq; [simpl; by rewrite <- app_assoc|]. etrans; [|apply H2]. by apply suffix_cons_r.
Qed.

Lemma mkdirp_there w d :
  wf (files w) -> files w d = Some Directory ->
  exists r, syscall (mkdirp_call d) w = (r, w <| calls ::= S |>).
Proof.
  intros Hwf Hd. unfold syscall, mkdirp_call.
  assert (make_directories (fault (calls w)) [] (rev d) (files w) = (Ok tt, files w)) as ->.
  { apply make_no_directory. intros q Hq _. rewrite rev_involutive, app_nil_r in Hq.
    destruct (decide (q = d)) as [->|]; [done|]. by apply (wf_above _ d); rewrite ?Hd. }
  destruct (fault (calls w)); eexists; by destruct w.
Qed.

Lemma clean_dir t d : wf t -> t d = Some Directory -> clean t d.
Proof.
  intros Hwf Hd q Hq. destruct (decide (q = d)) as [->|Hne]; [by rewrite Hd|].
  assert (t q = Some Directory) as Hqd; [|by rewrite Hqd]. by apply (wf_above _ d); rewrite ?Hd.
Qed.

Lemma missing_none w d m :
  wf (files w) -> files w d = Some Directory -> (missing_directories root d w).1 = Ok m -> m = [].
Proof.
  intros Hwf Hd. pose proof (clean_dirname _ _ (clean_dir _ _ Hwf Hd)) as Hc.
  pose proof (lstatIfPresent_exact d w) as Hex.
  destruct d; simpl; unfold cbind; destruct (lstatIfPresent _ w) as [[info|e] w']; simpl in *; try done;
    rewrite <- (Hex info Hwf Hc eq_refl), Hd; by intros [= <-].
Qed.

Lemma holds_ensure P d :
  stable P -> (forall w, P w -> files w d = Some Directory) ->
  holds Writing P (ensureDirectory d root) (fun m w => m = [] /\ P w).
Proof.
  intros HP Hd. unfold ensureDirectory.
  eapply holds_bind; [apply holds_looks; auto with omp|intros []].
  eapply holds_bind; [apply holds_looks; auto with omp|intros []].
  eapply (holds_bind _ _ _ _ (fun m w => m = [] /\ P w)).
  { intros w HI Hw. pose proof (missing_none w d) as Hm.
    destruct (looks_missing root d w) as (n & u & Heq). rewrite Heq. split; [by apply stable_writing|].
    intros m Hok. split; [|by apply HP]. eapply Hm; [apply (writing_inv _ HI)|by apply Hd|done]. }
  intros m. eapply (holds_bind _ _ _ _ (fun _ w => m = [] /\ P w)).
  { intros w HI [-> Hw]. split; [done|]. by intros. }
  intros []. eapply (holds_bind _ _ _ _ (fun _ w => m = [] /\ P w)).
  { intros w HI [-> Hw]. destruct (mkdirp_there w d) as [r Hr]; [apply (writing_inv _ HI)|by apply Hd|].
    rewrite Hr. cbn [fst snd].
    assert (w <| calls ::= S |> = w <| calls := S (calls w) |> <| uuids := uuids w |>) as -> by (by destruct w).
    split; [by apply stable_writing|]. intros _ _. split; [done|by apply HP]. }
  intros []. eapply holds_bind; [apply holds_looks; auto with omp|intros []].
  { intros w n u [-> Hw]. split; [done|by apply HP]. }
  by intros w HI Hw; split; [|intros ? [= <-]].
Qed.

(** ** Staging *)

(** The new file, with the permissions of the old one if there is one. *)
Definition final_node (p : path) (content : Content) (mode : option Z) : Node :=
  File (encoded content)
    (match t0 p with Some (File c m) => permissions (File c m) | _ => created_mode mode end).

Lemma state_update finished todo finished' todo' w w' :
  State finished todo w -> Inv root t0 (files w') ->
  Describes root t0 (finished' ++ todo') (files w') (artifacts w') ->
  undoStack w' = undo_of <$> rev finished' -> createdDirectories w' = createdDirectories w ->
  Forall Idle todo' -> Forall (fun e => phase e <> Gone) finished' -> State finished' todo' w'.
Proof. intros [_ _ _ H _ _] H1 H2 H3 H4 H5 H6. split; try done. by rewrite H4. Qed.

(** One entry that is not started comes to another. *)
Lemma idle_update l1 e l2 s n p i :
  Forall Idle (l1 ++ e :: l2) -> Forall Idle (l1 ++ mkEntry p i (Staged s n) :: l2).
Proof.
  rewrite !Forall_app, !Forall_cons. intros (H1 & _ & H2). split_and!; [done| |done]. right. by exists s, n.
Qed.

Lemma writeFile_sound t e s content mode :
  (forall f, e = Some f -> made f = 0%nat) -> sound root t s -> t s = None ->
  (exists err, writeFile_call s content mode e t = (Throw err, t)) \/
  writeFile_call s content mode e t = (Ok tt, set_node s (Some (File content mode)) t).
Proof.
  intros Hm Hs Hfree. unfold writeFile_call.
  destruct (locate t s) as [q|] eqn:Hq; [|by left; eexists]. apply (sound_locate root) in Hq as ->; [|done].
  rewrite Hfree. destruct e as [f|]; [left|by right]. rewrite (Hm f eq_refl). by eexists.
Qed.

Lemma chmod_sound t e s c m mode :
  sound root t s -> t s = Some (File c m) ->
  (exists err, chmod_call s mode e t = (Throw err, t)) \/
  chmod_call s mode e t = (Ok tt, set_node s (Some (File c mode)) t).
Proof.
  intros Hs Ht. unfold chmod_call, simple. destruct e; [by left; eexists|].
  destruct (real t s) as [q|] eqn:Hq; simpl; [|by left; eexists]. apply real_clean in Hq as ->; [|apply Hs].
  rewrite Ht. by right.
Qed.

Lemma is_file_node c m : is_file (Some (File c m)).
Proof using Type. by exists c, m. Qed.

(** The stage is written and becomes an artifact. *)
Definition stage_tail (s : path) (content : list N) (mode : Z) : plan_comp nat :=
  syscall (writeFile_call s content mode) ;? push_artifact (mkArtifact s stage true true).

Lemma holds_stage_tail l1 p i0 l2 s content mode :
  holds Writing
    (fun w => State [] (l1 ++ mkEntry p i0 Pending :: l2) w /\ escapes root p = false /\
       files w s = None /\ sound root (files w) s /\ escapes root s = false /\
       exists b, s = (TRANSACTION_PREFIX +:+ b)%stdpp :: dirname p)
    (stage_tail s content mode)
    (fun i w => State [] (l1 ++ mkEntry p i (Staged s (File content mode)) :: l2) w /\ sound root (files w) s).
Proof.
  intros w HI (HS & Hep & Hs & Hss & Hes & b & Hb).
  destruct (safe_writeFile root t0 Habove s content mode w (st_inv _ _ _ HS) Hss) as [HI' Hss'].
  unfold stage_tail, cbind, syscall in *.
  destruct (writeFile_sound (files w) (fault (calls w)) s content mode) as [[err Hw]|Hw]; try done;
    [apply Hwhole|rewrite Hw; split; [|done]; exists [], (l1 ++ mkEntry p i0 Pending :: l2)..|].
  { by apply (stable_state _ _ w (S (calls w)) (uuids w)). }
  rewrite Hw in HI', Hss' |- *. simpl in *.
  assert (State [] (l1 ++ mkEntry p (length (artifacts w)) (Staged s (File content mode)) :: l2)
    (w <| files := set_node s (Some (File content mode)) (files w) |> <| calls ::= S |>
       <| artifacts ::= fun l => l ++ [mkArtifact s stage true true] |>)) as HS'.
  { eapply state_update; [apply HS|done| |apply HS|done|eapply idle_update, (st_idle _ _ _ HS)|apply HS].
    apply (step_stage root t0 Hwf0 l1 p i0 l2 (files w) (artifacts w) s b);
      [apply HS|done..|apply is_file_node|apply HI']. }
  split; [by eexists [], _|]. intros i [= <-]. split; [done|by apply (Hss' tt)].
Qed.

Lemma holds_stage_chmod finished l1 p i l2 s c m n :
  holds Writing
    (fun w => State finished (l1 ++ mkEntry p i (Staged s (File c m)) :: l2) w /\ sound root (files w) s)
    (syscall (chmod_call s (permissions n)))
    (fun _ => State finished (l1 ++ mkEntry p i (Staged s (File c (permissions n))) :: l2)).
Proof.
  intros w HI [HS Hss].
  destruct (safe_chmod root t0 Habove s (permissions n) w (st_inv _ _ _ HS) Hss) as [HI' _].
  assert (files w s = Some (File c m)) as Hs.
  { apply (ds_effects _ _ _ _ _ (st_describes _ _ _ HS)), in_entries.
    exists (mkEntry p i (Staged s (File c m))). split; [set_solver|]. by left. }
  unfold syscall in *.
  destruct (chmod_sound (files w) (fault (calls w)) s c m (permissions n)) as [[err Hw]|Hw]; try done;
    rewrite Hw in HI' |- *; simpl in *.
  - split; [|done]. exists finished, (l1 ++ mkEntry p i (Staged s (File c m)) :: l2).
    by apply (stable_state _ _ w (S (calls w)) (uuids w)).
  - assert (State finished (l1 ++ mkEntry p i (Staged s (File c (permissions n))) :: l2)
      (w <| files := set_node s (Some (File c (permissions n))) (files w) |> <| calls ::= S |>)) as HS'.
    { eapply state_update; [apply HS|done| |apply HS|done|eapply idle_update, (st_idle _ _ _ HS)|apply HS]. rewrite app_assoc.
      eapply (step_chmod root t0 Hwf0 (finished ++ l1) (mkEntry p i (Staged s (File c m))) l2 (files w)
        (artifacts w) s _ (File c (permissions n))); [rewrite <- app_assoc; apply HS|left; done|apply is_file_node|apply HI']. }
    split; [by eexists _, _|done].
Qed.

(** An entry whose target the tree still has as it was. *)
Lemma untouched l1 e l2 t arts :
  Describes root t0 (l1 ++ e :: l2) t arts ->
  (phase e = Pending \/ exists s n, phase e = Staged s n /\ s <> entry_path e) ->
  t (entry_path e) = t0 (entry_path e).
Proof.
  intros HD He. destruct (describes_here _ _ _ _ _ _ _ HD) as (_ & _ & _ & Hfree & _).
  apply Hfree; unfold names, effects; [by left|].
  destruct He as [->|(s & n & -> & Hs)]; simpl; set_solver.
Qed.

(** What [refuse_existing] and the check for a directory let through. *)
Lemma existing_file t p info :
  sound root t p -> t p = info -> is_directory info = false -> info = None \/ is_file info.
Proof.
  intros [_ Hc] <- Hd. specialize (Hc p (reflexivity p)).
  destruct (t p) as [[c m| |]|]; try done; [right; by exists c, m|by left].
Qed.

Lemma target_dir l1 e l2 w :
  Describes root t0 (l1 ++ e :: l2) (files w) (artifacts w) ->
  files w (dirname (entry_path e)) = Some Directory.
Proof.
  intros HD. pose proof (here_target root t0 Hwf0 _ _ _ _ _ HD) as [(c & d & -> & _ & Hd) _]. by eapply dir_kept.
Qed.

Lemma holds_stage_write l1 p i0 l2 content overwrite mode :
  holds Writing (State [] (l1 ++ mkEntry p i0 Pending :: l2)) (stage_write root p content overwrite mode)
    (fun i w => exists s, State [] (l1 ++ mkEntry p i (Staged s (final_node p content mode)) :: l2) w).
Proof.
  set (es := l1 ++ mkEntry p i0 Pending :: l2).
  unfold stage_write. eapply holds_bind; [apply (holds_assert root t0 Writing Habove); auto with omp|intros []].
  eapply holds_bind.
  { apply (holds_lstat root t0 Writing Habove); auto with omp.
    - intros w n u (H1 & H2 & H3). split; [by apply stable_state|done].
    - intros w (_ & [_ Hc] & _). by apply clean_dirname. }
  intros existing. cbv beta. destruct (is_directory existing) eqn:Hdir; [apply holds_throw|].
  case_match; [apply holds_throw|].
  apply (holds_prop _ _ (escapes root p = false /\ t0 p = existing /\ (existing = None \/ is_file existing))).
  { intros w ((HS & Hs & He) & Hex). split_and!; [done| |by eapply existing_file].
    rewrite <- Hex. symmetry. eapply (untouched l1 (mkEntry p i0 Pending)); [apply HS|by left]. }
  intros (He & Hex & Hfile). apply (holds_pre _ _ (State [] es)); [by intros w [[HS _] _]|].
  eapply holds_bind; [apply holds_ensure; [auto with omp|]|].
  { intros w HS. eapply (target_dir l1 (mkEntry p i0 Pending)). apply HS. }
  intros created. apply (holds_pre _ _ (State [] es)); [by intros w [_ HS]|].
  eapply holds_bind; [apply holds_looks; auto with omp|intros []].
  eapply holds_bind; [apply (holds_unique root t0 Writing Habove); auto with omp|intros s; cbv beta].
  eapply holds_bind; [apply holds_looks; auto with omp; intros w n u [H1 H2]; split; [by apply stable_state|done]|intros []].
  eapply holds_two; [eapply holds_pre; [|apply (holds_stage_tail l1 p i0 l2 s (encoded content) (created_mode mode))]; tauto|].
  intros i. cbv beta. unfold final_node. rewrite Hex. destruct existing as [n|].
  - destruct Hfile as [|(c & m & [= ->])]; [done|].
    eapply holds_bind; [apply (holds_stage_chmod [] l1 p i l2 s)|].
    intros [] w HI HS. split; [done|]. intros ? [= <-]. by exists s.
  - apply (holds_pre _ _ (State [] (l1 ++ mkEntry p i (Staged s (File (encoded content) (created_mode mode))) :: l2)));
      [by intros w [HS _]|].
    intros w HI HS. split; [done|]. intros ? [= <-]. by exists s.
Qed.

(** ** Applying *)

Section apply.
Context (finished todo : list Entry) (p : path) (i : nat).

(** The operation under way has brought its entry to the phase [ph]. *)
Definition At (ph : Phase) (w : World) : Prop := State (finished ++ [mkEntry p i ph]) todo w.

Lemma at_describes ph w :
  At ph w -> Describes root t0 (finished ++ mkEntry p i ph :: todo) (files w) (artifacts w).
Proof. intros [_ H _ _ _ _]. by rewrite <- app_assoc in H. Qed.

Lemma at_here ph w :
  At ph w ->
  (forall q v, (q, v) ∈ effects t0 (mkEntry p i ph) -> files w q = v) /\
  (forall k a, (k, a) ∈ entry_artifacts (mkEntry p i ph) -> artifacts w !! k = Some a).
Proof. intros (_ & _ & H1 & _ & H2)%at_describes%describes_here. done. Qed.

Lemma at_update ph ph' w w' :
  At ph w -> Inv root t0 (files w') ->
  Describes root t0 (finished ++ mkEntry p i ph' :: todo) (files w') (artifacts w') ->
  undoStack w' = undo_of (mkEntry p i ph') :: tail (undoStack w) -> createdDirectories w' = createdDirectories w ->
  ph' <> Gone -> At ph' w'.
Proof.
  intros [_ _ Hu Hc Hi Hg] H1 H2 H3 H4 H5.
  split; [done|by rewrite <- app_assoc| |by rewrite H4|done|].
  2:{ apply Forall_app in Hg as [Hg _]. apply Forall_app. split; [done|]. by constructor. }
  rewrite H3, Hu, !rev_app_distr. done.
Qed.

Lemma stable_at ph : stable (At ph).
Proof. apply stable_state. Qed.

Lemma at_writing ph w : At ph w -> Writing w.
Proof. intros HA. by eexists _, _. Qed.

#[local] Hint Resolve stable_at : omp.

(** The undo operation is pushed. *)
Lemma holds_begin ph :
  undo_of (mkEntry p i ph) = UndoWrite p [] false None -> ph <> Gone ->
  holds Writing (State finished (mkEntry p i ph :: todo)) (push_undo (UndoWrite p [] false None)) (fun _ => At ph).
Proof.
  intros Hu Hg w HI [H1 H2 H3 H4 H5 H6]. assert (At ph (w <| undoStack ::= cons (UndoWrite p [] false None) |>)) as HA.
  { split; [done|by rewrite <- app_assoc| |done|by inv H5|apply Forall_app; split; [done|by constructor]]. rewrite rev_app_distr. simpl. by rewrite Hu, H3. }
  split; [by eapply at_writing|done].
Qed.

(** The old file makes way: its rename and its books, and what follows. *)
Lemma holds_save {A} s n b c (k : nat -> plan_comp A) Q :
  (forall j, holds Writing (At (Saved s b j n)) (k j) Q) ->
  holds Writing
    (fun w => At (Staged s n) w /\ is_file (files w p) /\ sound root (files w) p /\
       files w b = None /\ sound root (files w) b /\ escapes root b = false /\
       b = (TRANSACTION_PREFIX +:+ c)%stdpp :: dirname p)
    (syscall (rename_call p b) ;? rewriteArtifacts p b ;?
     j <-? push_artifact (mkArtifact b backup true true) ;
     set_undo (UndoWrite p [] false (Some j)) ;? k j) Q.
Proof.
  intros Hk w HI (HA & Hfp & Hsp & Hb & Hsb & Heb & Hc).
  destruct (safe_rename root t0 Habove p b w (writing_inv _ HI) (conj Hsp Hsb)) as [HI' _].
  destruct (rename_sound root t0 Habove (files w) (fault (calls w)) p b) as [[err Hr]|(Hr & _)]; try done;
    [apply (writing_inv _ HI)|apply syscall_is in Hr; rewrite (cbind_throw _ _ _ _ _ Hr)..|].
  { split; [|done]. by apply (stable_writing w (S (calls w)) (uuids w)). }
  apply syscall_is in Hr. rewrite Hr in HI'. simpl in HI'. rewrite (cbind_ok _ _ _ _ _ Hr).
  set (w1 := w <| files := graft p b (files w) |> <| calls ::= S |>) in *.
  change ((rewriteArtifacts p b ;? j <-? push_artifact (mkArtifact b backup true true) ;
     set_undo (UndoWrite p [] false (Some j)) ;? k j) w1) with
    (k (length (artifacts (w1 <| artifacts ::= fmap (rewrite_artifact p b) |>)))
      (w1 <| artifacts ::= fmap (rewrite_artifact p b) |> <| artifacts ::= fun l => l ++ [backup_at b] |>
         <| undoStack ::= fun us => UndoWrite p [] false
              (Some (length (artifacts (w1 <| artifacts ::= fmap (rewrite_artifact p b) |>)))) :: tail us |>)).
  assert (length (artifacts (w1 <| artifacts ::= fmap (rewrite_artifact p b) |>)) = length (artifacts w)) as -> by (simpl; apply length_fmap).
  assert (At (Saved s b (length (artifacts w)) n) (w1 <| artifacts ::= fmap (rewrite_artifact p b) |>
    <| artifacts ::= fun l => l ++ [backup_at b] |>
    <| undoStack ::= fun us => UndoWrite p [] false (Some (length (artifacts w))) :: tail us |>)) as HA'.
  { eapply at_update; [apply HA|done| |done..].
    apply (step_save root t0 Hwf0 finished p i todo (files w) (artifacts w) s n b c); try done; [by apply at_describes|apply HI']. }
  apply Hk; [by eapply at_writing|done].
Qed.

(** The stage takes the place of the old file. *)
Lemma holds_replace s b j n :
  holds Writing
    (fun w => At (Saved s b j n) w /\ sound root (files w) s /\ sound root (files w) p)
    (syscall (rename_call s p) ;?
     set_artifact i (become_installed p) ;? set_undo (UndoWrite p [] true (Some j)))
    (fun _ => At (Replaced b j n)).
Proof.
  intros w HI (HA & Hss & Hsp).
  destruct (safe_rename root t0 Habove s p w (writing_inv _ HI) (conj Hss Hsp)) as [HI' _].
  assert (files w p = None) as Hp.
  { destruct (at_here _ _ HA) as [H _]. apply H. unfold effects. simpl. set_solver. }
  unfold cbind, syscall in *.
  destruct (rename_sound root t0 Habove (files w) (fault (calls w)) s p) as [[err Hr]|(Hr & _)]; try done;
    [apply (writing_inv _ HI)|rewrite Hr; simpl; split; [by apply (stable_writing w (S (calls w)) (uuids w))|done]|].
  rewrite Hr in HI' |- *. simpl in *.
  match goal with |- Writing ?w' /\ _ => assert (At (Replaced b j n) w') as HA' end.
  { eapply at_update; [apply HA|done| |done..].
    apply (step_replace root t0 Hwf0 finished p i todo (files w) (artifacts w) s b j n); [by apply at_describes|apply HI']. }
  split; [by eapply at_writing|done].
Qed.

Lemma link_sound t e s c m :
  sound root t s -> sound root t p -> t s = Some (File c m) ->
  (exists err, link_call s p e t = (Throw err, t)) \/
  t p = None /\ link_call s p e t = (Ok tt, set_node p (Some (File c m)) t).
Proof.
  intros Hs Hp Ht. unfold link_call, simple. destruct e; [by left; eexists|].
  destruct (locate t s) as [s'|] eqn:Hls; simpl; [|by left; eexists]. apply (sound_locate root) in Hls as ->; [|done].
  destruct (locate t p) as [p'|] eqn:Hlp; simpl; [|by left; eexists]. apply (sound_locate root) in Hlp as ->; [|done].
  rewrite Ht. destruct (t p); [by left; eexists|by right].
Qed.

Lemma unlink_sound t e s c m :
  sound root t s -> t s = Some (File c m) ->
  (exists err, unlink_call s e t = (Throw err, t)) \/ unlink_call s e t = (Ok tt, set_node s None t).
Proof.
  intros Hs Ht. unfold unlink_call, simple. destruct e; [by left; eexists|].
  destruct (locate t s) as [s'|] eqn:Hls; simpl; [|by left; eexists]. apply (sound_locate root) in Hls as ->; [|done].
  rewrite Ht. by right.
Qed.

(** Where there was no file: a link, and the stage goes. *)
Lemma holds_link s n :
  holds Writing
    (fun w => At (Staged s n) w /\ sound root (files w) s /\ sound root (files w) p)
    (syscall (link_call s p) ;? set_undo (UndoWrite p [] true None) ;?
     syscall (unlink_call s) ;? set_artifact i (become_installed p))
    (fun _ => At (Fresh n)).
Proof.
  intros w HI (HA & Hss & Hsp).
  assert (exists c m, n = File c m) as (c & m & ->).
  { pose proof (ds_ok _ _ _ _ _ (at_describes _ _ HA)) as Hok. rewrite Forall_app, Forall_cons in Hok.
    destruct Hok as (_ & (_ & _ & _ & c & m & [= Hn]) & _). by exists c, m. }
  assert (files w s = Some (File c m)) as Hs.
  { destruct (at_here _ _ HA) as [H _]. apply H. unfold effects. simpl. set_solver. }
  destruct (safe_link root t0 Habove s p w (writing_inv _ HI) (conj Hss Hsp)) as [HI1 Hss1].
  destruct (link_sound (files w) (fault (calls w)) s c m) as [[err Hr]|[Hp Hr]]; try done;
    apply syscall_is in Hr; [rewrite (cbind_throw _ _ _ _ _ Hr)|].
  { split; [|done]. by apply (stable_writing w (S (calls w)) (uuids w)). }
  rewrite Hr in HI1, Hss1. specialize (Hss1 tt eq_refl). rewrite (cbind_ok _ _ _ _ _ Hr). simpl in HI1, Hss1.
  erewrite cbind_ok; [|unfold set_undo, modify; done].
  match goal with |- Writing (cbind _ _ ?w').2 /\ _ => set (w1 := w') in * end.
  assert (At (Linked s (File c m)) w1) as HA1.
  { eapply at_update; [apply HA|done| |done..].
    apply (step_link root t0 Hwf0 finished p i todo (files w) (artifacts w) s); [by apply at_describes|done|apply HI1]. }
  assert (files w1 s = Some (File c m)) as Hs1.
  { destruct (at_here _ _ HA1) as [H _]. apply H. unfold effects. simpl. set_solver. }
  destruct (safe_unlink root t0 Habove s w1 HI1 Hss1) as [HI2 _].
  destruct (unlink_sound (files w1) (fault (calls w1)) s c m) as [[err Hr2]|Hr2]; try done;
    apply syscall_is in Hr2; [rewrite (cbind_throw _ _ _ _ _ Hr2)|].
  { split; [|done]. apply (at_writing (Linked s (File c m))). by apply (stable_at _ w1 (S (calls w1)) (uuids w1)). }
  rewrite Hr2 in HI2. rewrite (cbind_ok _ _ _ _ _ Hr2). cbn [fst snd] in HI2 |- *.
  match goal with |- Writing (set_artifact _ _ ?w').2 /\ _ => assert (At (Fresh (File c m)) (set_artifact i (become_installed p) w').2) as HA2 end.
  { eapply at_update; [apply HA1|done| |done..].
    apply (step_unlink root t0 Hwf0 finished p i todo (files w1) (artifacts w1) s); [by apply at_describes|apply HI2]. }
  split; [by eapply at_writing|done].
Qed.

Lemma holds_path_of ph a :
  (i, a) ∈ entry_artifacts (mkEntry p i ph) ->
  holds Writing (At ph) (path_of i) (fun q w => q = artifact_path a /\ At ph w).
Proof.
  intros Ha w HI HA. split; [done|]. intros q [= <-]. split; [|done].
  destruct (at_here _ _ HA) as [_ H]. by rewrite (H i a Ha).
Qed.

Lemma holds_install s n saved :
  holds Writing
    (fun w => match saved with Some j => exists b, At (Saved s b j n) w | None => At (Staged s n) w end)
    (install root p [] i saved)
    (fun _ w => exists ph, (ph = Fresh n \/ exists b j, ph = Replaced b j n) /\ At ph w).
Proof.
  set (ph b := match saved with Some j => Saved s b j n | None => Staged s n end).
  cut (forall b, holds Writing (At (ph b)) (install root p [] i saved)
    (fun _ w => exists ph, (ph = Fresh n \/ exists b j, ph = Replaced b j n) /\ At ph w)).
  { intros Hb w HI HA. destruct saved as [j|]; [destruct HA as [b HA]; by apply (Hb b)|by apply (Hb [])]. }
  intros b. unfold install.
  eapply holds_bind; [apply (holds_assert root t0 Writing Habove); auto with omp|intros []].
  eapply (holds_bind _ _ _ _ (fun q w => q = s /\ At (ph b) w /\ sound root (files w) p)).
  { intros w HI (HA & Hs & _). destruct (holds_path_of (ph b) (stage_of s)) with w as [HI' H]; try done.
    { unfold ph, entry_artifacts. destruct saved; simpl; set_solver. }
    split; [done|]. intros q Hq. by destruct (H q Hq) as [-> _]. }
  intros q. apply (holds_prop _ _ (q = s)); [by intros w [-> _]|]. intros ->.
  eapply holds_bind; [apply (holds_assert root t0 Writing Habove); auto with omp|intros []].
  { intros w n' u (H1 & H2 & H3). split; [done|]. split; [by apply stable_at|done]. }
  destruct saved as [j|].
  - eapply holds_weaken; [| |apply (holds_replace s b j n)]; [simpl; tauto|]. simpl.
    intros [] w HA. eexists. split; [right; by exists b, j|done].
  - eapply holds_weaken; [| |apply (holds_link s n)]; [simpl; tauto|]. simpl.
    intros [] w HA. eexists. split; [by left|done].
Qed.

Lemma holds_saved_chmod s b j c m n :
  holds Writing
    (fun w => At (Saved s b j (File c m)) w /\ sound root (files w) s)
    (syscall (chmod_call s (permissions n)))
    (fun _ => At (Saved s b j (File c (permissions n)))).
Proof.
  intros w HI [HA Hss]. destruct (safe_chmod root t0 Habove s (permissions n) w (writing_inv _ HI) Hss) as [HI' _].
  assert (files w s = Some (File c m)) as Hs.
  { destruct (at_here _ _ HA) as [H _]. apply H. unfold effects. simpl. set_solver. }
  destruct (chmod_sound (files w) (fault (calls w)) s c m (permissions n)) as [[err Hw]|Hw]; try done;
    apply syscall_is in Hw; rewrite Hw in HI' |- *; cbn [fst snd] in *.
  { split; [|done]. by apply (stable_writing w (S (calls w)) (uuids w)). }
  match goal with |- Writing ?w' /\ _ => assert (At (Saved s b j (File c (permissions n))) w') as HA' end.
  { eapply at_update; [apply HA|done| |simpl; by rewrite (st_undo _ _ _ HA), rev_app_distr|done..].
    eapply (step_chmod root t0 Hwf0 finished (mkEntry p i (Saved s b j (File c m))) todo (files w) (artifacts w) s _
      (File c (permissions n))); [by apply at_describes|right; by exists b, j|apply is_file_node|apply HI']. }
  split; [by eapply at_writing|done].
Qed.

Lemma holds_make_way s c m n :
  is_file (Some n) ->
  holds Writing (fun w => At (Staged s (File c m)) w /\ files w p = Some n)
    (make_way root p [] i n)
    (fun j w => exists b, At (Saved s b j (File c (permissions n))) w).
Proof.
  intros Hn. unfold make_way.
  assert (stable (fun w => At (Staged s (File c m)) w /\ files w p = Some n)) as Hst.
  { intros w n' u [H1 H2]. split; [by apply stable_at|done]. }
  eapply holds_bind; [apply holds_looks; auto with omp|intros []].
  eapply holds_bind; [apply (holds_assert root t0 Writing Habove); auto with omp|intros []].
  eapply holds_bind; [apply (holds_unique root t0 Writing Habove); auto with omp|intros b; cbv beta].
  { intros w n' u (H1 & H2 & H3). split; [by apply Hst|done]. }
  eapply holds_bind; [apply holds_looks; auto with omp|intros []].
  { intros w n' u ((H1 & H2) & H3). split; [split; [by apply Hst|done]|done]. }
  apply (holds_prop _ _ (exists x, b = (TRANSACTION_PREFIX +:+ x)%stdpp :: dirname p)); [naive_solver|].
  intros [x Hx]. eapply holds_pre; [|apply (holds_save s (File c m) b x)].
  { intros w (((HA & Hp) & Hs & _) & Hb & Hsb & Heb & _). rewrite Hp. by split_and!. }
  intros j. cbv beta.
  eapply (holds_bind _ _ _ _ (fun q w => q = s /\ At (Saved s b j (File c m)) w)).
  { apply (holds_path_of _ (stage_of s)). unfold entry_artifacts. simpl. set_solver. }
  intros q. apply (holds_prop _ _ (q = s)); [by intros w [-> _]|]. intros ->.
  apply (holds_pre _ _ (At (Saved s b j (File c m)))); [by intros w [_ HA]|].
  eapply holds_bind; [apply (holds_assert root t0 Writing Habove); auto with omp|intros []].
  eapply holds_bind; [eapply holds_pre; [|apply (holds_saved_chmod s b j c m n)]; simpl; tauto|intros []].
  intros w HI HA. split; [done|]. intros ? [= <-]. by exists b.
Qed.

(** The write is done. *)
Definition Installed (n : Node) (ph : Phase) : Prop := ph = Fresh n \/ exists b j, ph = Replaced b j n.

Lemma holds_applyWrite s content overwrite mode :
  holds Writing (State finished (mkEntry p i (Staged s (final_node p content mode)) :: todo))
    (applyWriteOperation root p overwrite (Some i))
    (fun _ w => exists ph, Installed (final_node p content mode) ph /\ At ph w).
Proof.
  simpl. set (n := final_node p content mode). set (e := mkEntry p i (Staged s n)).
  assert (forall w l1 l2, Describes root t0 (l1 ++ e :: l2) (files w) (artifacts w) -> files w p = t0 p) as Hsame.
  { intros w l1 l2 HD. apply (untouched l1 e l2 (files w) (artifacts w) HD). right. exists s, n. split; [done|].
    destruct (describes_here _ _ _ _ _ _ _ HD) as (_ & Hnd & _). unfold names in Hnd. simpl in *.
    apply NoDup_cons in Hnd as [Hnd _]. intros ->. set_solver. }
  eapply holds_bind; [apply (holds_assert root t0 Writing Habove); auto with omp|intros []].
  apply (holds_prop _ _ (is_link (t0 p) = false)).
  { intros w (HS & [_ Hc] & _). rewrite <- (Hsame w finished todo); [by apply Hc|apply HS]. }
  intros Hlink. apply (holds_pre _ _ (State finished (e :: todo))); [by intros w [HS _]|].
  eapply holds_bind; [apply holds_ensure; auto with omp|].
  { intros w HS. eapply (target_dir finished e). apply HS. }
  intros created. apply (holds_prop _ _ (created = [])); [by intros w [-> _]|]. intros ->.
  apply (holds_pre _ _ (State finished (e :: todo))); [by intros w [_ HS]|].
  eapply holds_bind; [by apply (holds_begin (Staged s n))|intros []].
  eapply holds_bind.
  { apply (holds_lstat root t0 Writing Habove); auto with omp. intros w HA. apply clean_dir; [apply HA|].
    apply (target_dir finished e todo w (at_describes _ _ HA)). }
  intros existing. cbv beta. destruct (is_directory existing) eqn:Hdir; [apply holds_throw|].
  case_match; [apply holds_throw|].
  eapply (holds_bind _ _ _ _ (fun saved w => match saved with Some j => exists b, At (Saved s b j n) w | None => At (Staged s n) w end)).
  2:{ intros saved. apply holds_install. }
  destruct existing as [old|]; [|intros w HI [HA _]; split; [done|by intros ? [= <-]]].
  apply (holds_prop _ _ (t0 p = Some old)).
  { intros w [HA <-]. symmetry. eapply Hsame. by apply at_describes. }
  intros Hold. rewrite Hold in Hlink. destruct old as [co mo| |]; try done.
  eapply (holds_bind _ _ _ _ (fun j w => exists b, At (Saved s b j n) w)); [|intros j w HI HA; split; [done|by intros ? [= <-]]].
  assert (n = File (encoded content) (permissions (File co mo))) as Hn by (unfold n, final_node; by rewrite Hold).
  rewrite Hn. apply holds_make_way. apply is_file_node.
Qed.
End apply.

(** ** The loops *)

Record PlannedFile := mkPlannedFile {
  pf_path : path; pf_content : Content; pf_overwrite : bool; pf_mode : option Z;
}.

Definition op_of (x : PlannedFile) : FileOperation :=
  Write (pf_path x) (pf_content x) (pf_overwrite x) (pf_mode x).

(** What the write of [x] leaves at its path. *)
Definition new_node (x : PlannedFile) : Node := final_node (pf_path x) (pf_content x) (pf_mode x).

Definition pending (x : PlannedFile) : Entry := mkEntry (pf_path x) 0 Pending.

Definition StagedAs (x : PlannedFile) (e : Entry) : Prop :=
  exists i s, e = mkEntry (pf_path x) i (Staged s (new_node x)).

Definition InstalledAs (x : PlannedFile) (e : Entry) : Prop :=
  exists i ph, e = mkEntry (pf_path x) i ph /\ Installed (new_node x) ph.

Lemma holds_stage_all l1 xs :
  holds Writing (State [] (l1 ++ (pending <$> xs))) (stage_all root (op_of <$> xs))
    (fun ids w => exists es, Forall2 StagedAs xs es /\ ids = Some ∘ entry_artifact <$> es /\ State [] (l1 ++ es) w).
Proof.
  revert l1. induction xs as [|x xs IH]; intros l1.
  { intros w HI HS. split; [done|]. intros ? [= <-]. by exists []. }
  rewrite !fmap_cons. cbn [stage_all op_of].
  eapply holds_bind; [apply holds_stage_write|]. intros i. cbv beta.
  eapply (holds_bind _ _ _ _ (fun ids w => exists es, Forall2 StagedAs (x :: xs) es /\
    Some i :: ids = Some ∘ entry_artifact <$> es /\ State [] (l1 ++ es) w)).
  - intros w HI [s HS]. set (e := mkEntry (pf_path x) i (Staged s (final_node (pf_path x) (pf_content x) (pf_mode x)))) in *.
    destruct (IH (l1 ++ [e]) w HI) as [HI' H]; [by rewrite <- app_assoc|].
    split; [done|]. intros ids Hids. destruct (H ids Hids) as (es & Hes & -> & HS').
    exists (e :: es). rewrite <- app_assoc in HS'. split; [|done]. constructor; [by exists i, s|done].
  - intros ids w HI Hes. split; [done|]. intros ? [= <-]. destruct Hes as (es & H1 & H2 & H3). by exists es.
Qed.

Lemma holds_apply_all finished xs es :
  Forall2 StagedAs xs es ->
  holds Writing (State finished es)
    (apply_all root (zip (op_of <$> xs) (Some ∘ entry_artifact <$> es)))
    (fun applied w => applied = pf_path <$> xs /\
       exists es', Forall2 InstalledAs xs es' /\ State (finished ++ es') [] w).
Proof.
  intros Hxs. revert finished. induction Hxs as [|x e xs es (i & s & ->) Hxs IH]; intros finished.
  { intros w HI HS. split; [done|]. intros ? [= <-]. split; [done|]. exists []. by rewrite app_nil_r. }
  rewrite !fmap_cons. cbn [zip zip_with apply_all op_of apply_operation compose entry_artifact].
  eapply (holds_bind _ _ _ _ (fun q w => q = pf_path x /\ exists e', InstalledAs x e' /\ State (finished ++ [e']) es w)).
  { eapply holds_bind; [apply (holds_applyWrite finished es (pf_path x) i s)|]. intros [] w HI (ph & Hph & HA).
    split; [done|]. intros ? [= <-]. split; [done|]. exists (mkEntry (pf_path x) i ph). split; [by exists i, ph|done]. }
  intros q. apply (holds_prop _ _ (q = pf_path x)); [by intros w [-> _]|]. intros ->.
  eapply (holds_bind _ _ _ _ (fun l w => l = pf_path <$> xs /\
    exists es', Forall2 InstalledAs (x :: xs) es' /\ State (finished ++ es') [] w)).
  - intros w HI [_ (e' & He' & HS)]. destruct (IH (finished ++ [e']) w HI HS) as [HI' H]. split; [done|].
    intros l Hl. destruct (H l Hl) as [-> (es' & Hes' & HS')]. split; [done|]. exists (e' :: es').
    rewrite <- app_assoc in HS'. split; [by constructor|done].
  - intros l w HI [-> H]. split; [done|]. intros ? [= <-]. done.
Qed.
End run.
