(* ===== verification/PlanWriteOutcomes.v ===== *)
(** * What a plan of writes leaves

    The rollback of a [State], the cleanup of its artifacts, and the two
    outcomes of a plan of writes: everything written and nothing left over, or
    everything as it was but for the files that had been overwritten. *)

From S2P Require Import Prelude RecordUpdate JsString Disk FilePlan PlanContainment PlanRollback PlanRemoval.
From S2P Require Import PlanWrites PlanWriteRuns.
From stdpp Require Import options.

(** What an entry in a known phase has, and membership in lists of known
    members. *)
Ltac shows := unfold names, effects, entry_artifacts, undo_of, phase_ok in *; simpl in *.
Ltac members := shows; rewrite ?elem_of_cons, ?elem_of_nil in *; naive_solver.

Section outcomes.
Context {host : Host} (root : path) (t0 : tree).
Hypothesis Hwf0 : wf t0.

Set Default Proof Using "All".

(** ** Undo *)

(** A file of the project is removed. *)
Lemma quiet_remove_file w c d g :
  quiet (calls w) -> wf (files w) -> root `suffix_of` d -> files w d = Some Directory ->
  escapes root (c :: d) = false -> is_file (files w (c :: d)) ->
  exists n, remove_path (c :: d) root g w = (Ok tt, later n w <| files := set_node (c :: d) None (files w) |>) /\
    wf (set_node (c :: d) None (files w)).
Proof.
  intros Hq Hwf Hr Hd Hesc (co & m & Hf).
  destruct (returns_assert root c d w) as [n Hn]; try done; [by rewrite Hf|].
  exists (S n). split; [|apply wf_set_node; rewrite ?Hf; done].
  assert (rm_call (c :: d) g (fault (calls (later n w))) (files (later n w)) =
    (Ok tt, set_node (c :: d) None (files w))) as Hrm.
  { simpl. rewrite quiet_later by done. unfold rm_call. by rewrite locate_wf, Hf. }
  unfold remove_path. rewrite (cbind_ok _ _ _ _ _ Hn). by rewrite (syscall_is _ _ _ _ Hrm).
Qed.

(** The phase of an entry whose operation is undone. *)
Definition undone (e : Entry) : Entry :=
  match phase e with
  | Linked s n | Saved s _ _ n => e <| phase := Staged s n |>
  | Fresh _ | Replaced _ _ _ => e <| phase := Gone |>
  | _ => e
  end.

(** What undoing does to a state: some calls, a tree, a table. *)
Definition undo_to (n : nat) (t : tree) (arts : list TransactionArtifact) (w : World) : World :=
  later n w <| files := t |> <| artifacts := arts |>.

Lemma undo_to_quiet n t arts w : quiet (calls w) -> quiet (calls (undo_to n t arts w)).
Proof using Type. by apply quiet_later. Qed.

Lemma undo_to_twice n t arts m t' arts' w :
  undo_to n t arts (undo_to m t' arts' w) = undo_to (n + m) t arts w.
Proof. destruct w. unfold undo_to, later. simpl. f_equal. lia. Qed.

Lemma undo_to_same w : undo_to 0 (files w) (artifacts w) w = w.
Proof. by destruct w. Qed.

(** The backup goes back to a path that is free. *)
Lemma quiet_put_back w p b j :
  quiet (calls w) -> wf (files w) -> Target root t0 p -> Sibling root t0 p b ->
  escapes root p = false -> files w (dirname p) = Some Directory ->
  is_file (files w b) -> files w p = None -> artifacts w !! j = Some (backup_at b) -> p <> b ->
  exists n, put_back root p j w =
    (Ok tt, undo_to n (graft b p (files w)) (alter turn_off j (rewrite_artifact b p <$> artifacts w)) w) /\
    wf (graft b p (files w)).
Proof.
  intros Hq Hwf [(c & d & -> & Hr & _) _] [[x Hb] _ Heb] Hep Hd Hfb Hp Hj Hne. simpl in Hd, Hb. subst b.
  destruct (quiet_rename root w c (TRANSACTION_PREFIX +:+ x)%stdpp d) as [n Hn]; try done.
  { intros <-. by apply Hne. }
  { by destruct Hfb as (? & ? & ->). }
  { by destruct Hfb as (? & ? & ->). }
  exists n. split.
  - unfold put_back, path_of, get. erewrite cbind_ok; [|done]. rewrite Hj. simpl default.
    rewrite (cbind_ok _ _ _ _ _ Hn). done.
  - apply wf_graft; rewrite ?Hp; try done.
    + apply siblings_beside. intros <-. by apply Hne.
    + by destruct Hfb as (? & ? & ->).
Qed.

Lemma undo_entry l1 e l2 w :
  Describes root t0 (l1 ++ e :: l2) (files w) (artifacts w) -> quiet (calls w) ->
  exists n t arts, run_undo root (undo_of e) w = (Ok tt, undo_to n t arts w) /\
    Describes root t0 (l1 ++ undone e :: l2) t arts.
Proof.
  intros HD Hq. pose proof (ds_wf _ _ _ _ _ HD) as Hwf.
  destruct (describes_here _ _ _ _ _ _ _ HD) as ((HT & Hesc & Hok) & Hnd & Heff & Hfree & Har).
  destruct e as [p i ph]. unfold undone. shows.
  pose proof HT as [(c & d & Hp & Hr & Hd0) _].
  assert (files w d = Some Directory) as Hd by (by eapply dir_kept).
  assert (dirname p = d) as Hdp by (by rewrite Hp).
  pose proof (undo_to_same w) as Hw0.
  destruct ph as [|s n|s n|n|s b j n|b j n|]; simpl.
  1, 2, 7: exists 0%nat, (files w), (artifacts w); rewrite Hw0; done.
  - destruct (quiet_remove_file w c d false) as (m & Hm & Hwf'); try done.
    { rewrite <- Hp. by apply Hesc. }
    { rewrite <- Hp. destruct Hok as (_ & Hn & _). rewrite (Heff p (Some n)); [done|members]. }
    rewrite <- Hp in *. exists m, (set_node p None (files w)), (artifacts w). split.
    + erewrite cbind_ok; [|by apply caught_ok]. erewrite cbind_ok; [|done]. done.
    + by apply step_unlink_target.
  - destruct (quiet_remove_file w c d false) as (m & Hm & Hwf'); try done.
    { rewrite <- Hp. by apply Hesc. }
    { rewrite <- Hp. destruct Hok as (Hn & _). rewrite (Heff p (Some n)); [done|members]. }
    rewrite <- Hp in *. exists m, (set_node p None (files w)), (artifacts w). split.
    + erewrite cbind_ok; [|by apply caught_ok]. erewrite cbind_ok; [|done]. done.
    + by eapply step_remove_target.
  - destruct (quiet_put_back w p b j) as (m & Hm & Hwf'); try done.
    { apply Hok. }
    { by apply Hesc. }
    { by rewrite Hdp. }
    { rewrite (Heff b (t0 p)); [apply Hok|members]. }
    { apply Heff. members. }
    { apply Har. members. }
    { intros ->. apply NoDup_cons in Hnd as [Hnd _]. members. }
    exists m, (graft b p (files w)), (alter turn_off j (rewrite_artifact b p <$> artifacts w)). split.
    + erewrite cbind_ok; [|done]. erewrite cbind_ok; [|by apply caught_ok]. done.
    + by eapply step_put_back.
  - destruct (quiet_remove_file w c d false) as (m & Hm & Hwf'); try done.
    { rewrite <- Hp. by apply Hesc. }
    { rewrite <- Hp. destruct Hok as (_ & Hn & _). rewrite (Heff p (Some n)); [done|members]. }
    rewrite <- Hp in *. assert (p <> b) as Hpb by (intros ->; apply NoDup_cons in Hnd as [Hnd _]; members).
    set (w1 := later m w <| files := set_node p None (files w) |>) in *.
    destruct (quiet_put_back w1 p b j) as (m' & Hm' & Hwf''); try done.
    { by apply quiet_later. }
    { apply Hok. }
    { by apply Hesc. }
    { simpl. rewrite set_node_ne; [by rewrite Hdp|]. rewrite Hp, <- Hdp, Hp. simpl. intros H%(f_equal length). simpl in H. lia. }
    { simpl. rewrite set_node_ne by done. rewrite (Heff b (t0 p)); [apply Hok|members]. }
    { simpl. apply set_node_eq. }
    { apply Har. members. }
    exists (m' + m)%nat, (graft b p (set_node p None (files w))), (alter turn_off j (rewrite_artifact b p <$> artifacts w)). split.
    + erewrite cbind_ok; [|by apply caught_ok]. erewrite cbind_ok; [|by apply caught_ok].
      erewrite cbind_ok; [|done]. simpl. unfold cret. f_equal. destruct w. unfold undo_to, later. simpl. f_equal. lia.
    + by eapply step_restore.
Qed.

Lemma rollback_run finished todo w :
  Describes root t0 (finished ++ todo) (files w) (artifacts w) -> quiet (calls w) ->
  exists n t arts,
    gather (undo_of <$> rev finished) (fun u => caught (run_undo root u)) w = (Ok [], undo_to n t arts w) /\
    Describes root t0 ((undone <$> finished) ++ todo) t arts.
Proof.
  revert todo w. induction finished as [|e finished IH] using rev_ind; intros todo w HD Hq.
  { exists 0%nat, (files w), (artifacts w). by rewrite undo_to_same. }
  rewrite <- app_assoc in HD. destruct (undo_entry finished e todo w HD Hq) as (n & t & arts & Hrun & HD').
  destruct (IH (undone e :: todo) (undo_to n t arts w) HD' (undo_to_quiet n t arts w Hq)) as (n' & t' & arts' & Hrun' & HD'').
  exists (n' + n)%nat, t', arts'. rewrite fmap_app, <- app_assoc. split; [|done].
  rewrite rev_app_distr. simpl rev. rewrite fmap_app. cbn [fmap list_fmap app gather].
  erewrite cbind_ok; [|apply caught_ok, Hrun]. erewrite cbind_ok; [|apply Hrun'].
  by rewrite undo_to_twice.
Qed.

(** ** Cleanup *)

(** A path in a directory of the project, free or a file. *)
Definition Removable (t : tree) (p : path) : Prop :=
  (exists c d, p = c :: d /\ root `suffix_of` d /\ t d = Some Directory) /\
  escapes root p = false /\ (t p = None \/ is_file (t p)).

(** What is not there is no error. *)
Lemma quiet_remove_absent w c d g :
  quiet (calls w) -> wf (files w) -> root `suffix_of` d -> files w d = Some Directory ->
  escapes root (c :: d) = false -> files w (c :: d) = None ->
  exists n, remove_path (c :: d) root g w = (Throw (Sys ENOENT), later n w).
Proof.
  intros Hq Hwf Hr Hd Hesc Hf. destruct (returns_assert root c d w) as [n Hn]; try done; [by rewrite Hf|].
  exists (S n). assert (rm_call (c :: d) g (fault (calls (later n w))) (files (later n w)) = (Throw ENOENT, files w)) as Hrm.
  { simpl. rewrite quiet_later by done. unfold rm_call. by rewrite locate_wf, Hf. }
  unfold remove_path. rewrite (cbind_ok _ _ _ _ _ Hn), (syscall_is _ _ _ _ Hrm). by destruct w.
Qed.

Lemma remove_either w p g :
  quiet (calls w) -> wf (files w) -> Removable (files w) p ->
  exists n t, (errors <-? caught (remove_path p root g) ; cret (unless_missing errors)) w =
      (Ok [], later n w <| files := t |>) /\ wf t /\
    (forall r, t r = if decide (r = p) then None else files w r).
Proof.
  intros Hq Hwf [(c & d & -> & Hr & Hd) [Hesc [Hf|Hf]]].
  - destruct (quiet_remove_absent w c d g) as [n Hn]; try done. exists n, (files w). split.
    + unfold cbind, caught. rewrite Hn. by destruct w.
    + split; [done|]. intros r. by case_decide as Hrr; [rewrite Hrr|].
  - destruct (quiet_remove_file w c d g) as (n & Hn & Hwf'); try done.
    exists n, (set_node (c :: d) None (files w)). split; [|done].
    erewrite cbind_ok; [|by apply caught_ok]. done.
Qed.

Lemma cleanup_files w l (g : TransactionArtifact -> bool) :
  quiet (calls w) -> wf (files w) -> Forall (fun a => Removable (files w) (artifact_path a)) l ->
  exists n t, gather l (fun a =>
      errors <-? caught (remove_path (artifact_path a) root (g a)) ; cret (unless_missing errors)) w =
      (Ok [], later n w <| files := t |>) /\
    (forall r, t r = if decide (r ∈ artifact_path <$> l) then None else files w r).
Proof.
  revert w. induction l as [|a l IH]; intros w Hq Hwf Hl; cbn [gather].
  { exists 0%nat, (files w). split; [by destruct w|done]. }
  apply Forall_cons in Hl as [Ha Hl].
  destruct (remove_either w (artifact_path a) (g a) Hq Hwf Ha) as (n & t & Hn & Hwf' & Ht).
  destruct (IH (later n w <| files := t |>)) as (n' & t' & Hn' & Ht'); try done.
  { by apply quiet_later. }
  { eapply Forall_impl; [apply Hl|]. intros b [(c & d & Hb & Hr & Hd) [Hesc Hf]]. split; [|split; [done|]].
    - exists c, d. split_and!; try done. simpl. rewrite Ht. case_decide as Hda; [|done]. exfalso.
      destruct Ha as (_ & _ & [Hna|(co & m & Hna)]); rewrite <- Hda in Hna; congruence.
    - simpl. rewrite Ht. case_decide; [by left|done]. }
  exists (n' + n)%nat, t'. split.
  - erewrite cbind_ok; [|apply Hn]. erewrite cbind_ok; [|apply Hn'].
    unfold cret, later. simpl. do 2 f_equal. lia.
  - intros r. change (list_fmap _ _ artifact_path l) with (artifact_path <$> l). rewrite Ht'.
    change (files (later n w <| files := t |>)) with t. rewrite Ht.
    repeat case_decide; try done; exfalso; set_solver.
Qed.

Definition flag (success : bool) (a : TransactionArtifact) : bool :=
  if success then cleanupOnSuccess a else cleanupOnFailure a.

Lemma cleanup_flagged w success :
  quiet (calls w) -> wf (files w) ->
  (forall a, a ∈ artifacts w -> flag success a = true -> Removable (files w) (artifact_path a)) ->
  exists n t, cleanupArtifacts root success w = (Ok [], later n w <| files := t |>) /\
    (forall a, a ∈ artifacts w -> flag success a = true -> t (artifact_path a) = None) /\
    (forall r, (forall a, a ∈ artifacts w -> flag success a = true -> artifact_path a <> r) -> t r = files w r).
Proof.
  intros Hq Hwf Hall. unfold cleanupArtifacts. erewrite cbind_ok; [|done].
  set (selected := filter _ (artifacts w)).
  assert (forall a, a ∈ selected <-> flag success a = true /\ a ∈ artifacts w) as Hsel by (intros a; unfold selected; by rewrite list_elem_of_filter).
  destruct (longest_first_spec (fun a => path_length (artifact_path a)) selected) as [Hperm _].
  set (sorted := longest_first _ selected) in *.
  assert (forall a, a ∈ distinct_paths [] sorted -> flag success a = true /\ a ∈ artifacts w) as Hin.
  { intros a Ha. apply Hsel. rewrite <- Hperm. eapply elem_of_sublist; [done|apply distinct_paths_sublist]. }
  destruct (cleanup_files w (distinct_paths [] sorted) (fun a => success && is_backup (artifact_kind a)))
    as (n & t & Hrun & Ht); [done..| |].
  { apply Forall_forall. intros a Ha. destruct (Hin a Ha). by apply Hall. }
  exists n, t. split; [apply Hrun|]. split.
  - intros a Ha Hflag. rewrite Ht, decide_True; [done|].
    assert (a ∈ sorted) as Hs by (rewrite Hperm; by apply Hsel).
    destruct (distinct_paths_all [] sorted a Hs) as (b & Hb & <-); [apply not_elem_of_nil|].
    by apply list_elem_of_fmap_2.
  - intros r Hr. rewrite Ht, decide_False; [done|]. intros (a & -> & Ha)%list_elem_of_fmap.
    destruct (Hin a Ha). by apply (Hr a).
Qed.
End outcomes.

(** ** After the rollback *)

(** The write to [r] had replaced an existing file. *)
Definition Overwritten (w : World) (r : path) : Prop :=
  exists created j, UndoWrite r created true (Some j) ∈ undoStack w.

Section calm.
Context (root : path) (t0 : tree).

Definition Calm (e : Entry) : Prop := Idle e \/ phase e = Gone.

Lemma calm_undone e : Calm (undone e).
Proof.
  unfold Calm, Idle, undone. destruct e as [p i ph]. destruct ph; simpl; eauto 6.
Qed.

(** The artifacts that are left are stages and targets. *)
Lemma calm_artifact e k a :
  Calm e -> (k, a) ∈ entry_artifacts e ->
  (exists s n, phase e = Staged s n /\ a = stage_of s) \/ (phase e = Gone /\ a = installed_at (entry_path e)).
Proof.
  unfold Calm, Idle, entry_artifacts. intros [[He|(s & n & He)]|He] Hk; rewrite He in Hk |- *;
    [by apply not_elem_of_nil in Hk|..]; apply list_elem_of_singleton in Hk as [= -> ->]; [left; by exists s, n|by right].
Qed.

Lemma calm_removable es t arts e k a :
  Describes root t0 es t arts -> e ∈ es -> Calm e -> (k, a) ∈ entry_artifacts e -> Removable root t (artifact_path a).
Proof.
  intros HD He Hcalm Hk. pose proof (ds_ok _ _ _ _ _ HD) as Hok. rewrite Forall_forall in Hok.
  destruct (Hok e He) as ([(c & d & Hp & Hr & Hd) _] & Hesc & Hph).
  assert (t d = Some Directory) as Htd by (by eapply dir_kept).
  destruct (calm_artifact e k a Hcalm Hk) as [(s & n & Hs & ->)|[Hg ->]]; unfold phase_ok in Hph.
  - rewrite Hs in Hph. destruct Hph as [[[b Hb] Hs0 Hsesc] Hn]. simpl. split; [|split; [done|right]].
    + rewrite Hb, Hp. by eexists _, d.
    + rewrite (ds_effects _ _ _ _ _ HD s (Some n)); [done|]. apply in_entries. exists e. split; [done|].
      unfold effects. rewrite Hs. by left.
  - rewrite Hg in Hph. simpl. split; [by exists c, d|]. split; [apply Hesc; by rewrite Hg|].
    rewrite (ds_rest _ _ _ _ _ HD); [done|]. rewrite in_effects. intros (e' & He' & Hin).
    apply list_elem_of_split in He as (l1 & l2 & ->).
    assert (e' = e \/ e' ∈ l1 ++ l2) as [->|H12] by set_solver.
    { unfold effects in Hin. rewrite Hg in Hin. by apply not_elem_of_nil in Hin. }
    apply (names_apart l1 e l2 (entry_path e) (ds_names _ _ _ _ _ HD)) in H12; [|by left].
    by apply H12, (effects_names t0).
Qed.

Lemma elem_of_rev {A} (x : A) l : x ∈ rev l <-> x ∈ l.
Proof. rewrite !list_elem_of_In. symmetry. apply in_rev. Qed.

Lemma overwritten_entry finished todo w r :
  State root t0 finished todo w ->
  Overwritten w r <-> exists e b j n, e ∈ finished /\ entry_path e = r /\ phase e = Replaced b j n.
Proof.
  intros HS. unfold Overwritten. rewrite (st_undo _ _ _ _ _ HS). split.
  - intros (created & j & (e & He & Hin)%list_elem_of_fmap). rewrite elem_of_rev in Hin.
    unfold undo_of in He. destruct (phase e) eqn:Hp; try done. injection He as -> -> ->. eauto 8.
  - intros (e & b & j & n & He & <- & Hp). exists [], j. apply list_elem_of_fmap. exists e.
    rewrite elem_of_rev. split; [|done]. unfold undo_of. by rewrite Hp.
Qed.

Lemma calm_entries finished todo w :
  State root t0 finished todo w -> forall e, e ∈ (undone <$> finished) ++ todo -> Calm e.
Proof.
  intros HS e [(e' & -> & _)%list_elem_of_fmap|He]%elem_of_app; [apply calm_undone|left].
  pose proof (st_idle _ _ _ _ _ HS) as Hidle. rewrite Forall_forall in Hidle. by apply Hidle.
Qed.

(** A target that is gone and had not been overwritten was not there before. *)
Lemma gone_free finished todo w e :
  State root t0 finished todo w -> e ∈ (undone <$> finished) ++ todo -> phase e = Gone ->
  ~ Overwritten w (entry_path e) -> t0 (entry_path e) = None.
Proof.
  intros HS He Hg Hno. apply elem_of_app in He as [(e0 & -> & He0)%list_elem_of_fmap|He].
  - pose proof (ds_ok _ _ _ _ _ (st_describes _ _ _ _ _ HS)) as Hok. rewrite Forall_forall in Hok.
    destruct (Hok e0) as (_ & _ & Hph); [apply elem_of_app; by left|].
    pose proof (st_started _ _ _ _ _ HS) as Hst. rewrite Forall_forall in Hst. specialize (Hst e0 He0).
    rewrite (overwritten_entry _ _ _ _ HS) in Hno. unfold undone, phase_ok in *. destruct e0 as [p i ph].
    destruct ph; simpl in *; try done; [apply Hph|]. destruct Hno. by eexists _, _, _, _.
  - pose proof (st_idle _ _ _ _ _ HS) as Hidle. rewrite Forall_forall in Hidle.
    destruct (Hidle e He) as [Hp|(s & n & Hp)]; congruence.
Qed.

(** The tree after the cleanup of a rolled back state. *)
Lemma calm_tree finished todo w t arts t' :
  State root t0 finished todo w ->
  Describes root t0 ((undone <$> finished) ++ todo) t arts ->
  (forall a, a ∈ arts -> cleanupOnFailure a = true -> t' (artifact_path a) = None) ->
  (forall r, (forall a, a ∈ arts -> cleanupOnFailure a = true -> artifact_path a <> r) -> t' r = t r) ->
  (forall r, Overwritten w r -> t0 r <> None /\ t' r = None) /\
  (forall r, ~ Overwritten w r -> t' r = t0 r).
Proof.
  intros HS HD Hgone Hkept.
  assert (forall e k a, e ∈ (undone <$> finished) ++ todo -> (k, a) ∈ entry_artifacts e -> a ∈ arts) as Hin.
  { intros e k a He Hk. apply list_elem_of_lookup. exists k. apply (ds_artifacts _ _ _ _ _ HD), in_entries. by exists e. }
  split.
  - intros r (e & b & j & n & He & <- & Hp)%(overwritten_entry _ _ _ _ HS). split.
    + pose proof (ds_ok _ _ _ _ _ (st_describes _ _ _ _ _ HS)) as Hok. rewrite Forall_forall in Hok.
      destruct (Hok e) as (_ & _ & Hph); [apply elem_of_app; by left|]. unfold phase_ok in Hph. rewrite Hp in Hph.
      destruct Hph as (_ & _ & c & m & ->). done.
    + apply (Hgone (installed_at (entry_path e))); [|done]. apply (Hin (undone e) (entry_artifact e)).
      * apply elem_of_app. left. by apply list_elem_of_fmap_2.
      * unfold undone, entry_artifacts. rewrite Hp. simpl. by left.
  - intros r Hr. pose proof (calm_entries _ _ _ HS) as Hcalm.
    destruct (decide (r ∈ artifact_path <$> filter (fun a => cleanupOnFailure a = true) arts)) as [Hra|Hra].
    + apply list_elem_of_fmap in Hra as (a & -> & [Hflag Ha]%list_elem_of_filter).
      rewrite (Hgone a Ha Hflag). symmetry. apply list_elem_of_lookup in Ha as [k Hk].
      destruct (ds_only _ _ _ _ _ HD k a Hk) as [[Hoff _]|(e & He & Hka)%in_entries]; [congruence|].
      destruct (calm_artifact e k a (Hcalm e He) Hka) as [(s & n & Hs & ->)|[Hg ->]].
      * pose proof (ds_ok _ _ _ _ _ HD) as Hok. rewrite Forall_forall in Hok.
        destruct (Hok e He) as (_ & _ & Hph). unfold phase_ok in Hph. rewrite Hs in Hph. apply Hph.
      * by apply (gone_free finished todo w).
    + rewrite Hkept.
      * rewrite (ds_rest _ _ _ _ _ HD); [done|]. rewrite in_effects. intros (e & He & Hre).
        unfold effects in Hre. destruct (Hcalm e He) as [[Hp|(s & n & Hp)]|Hp]; rewrite Hp in Hre;
          try (by apply not_elem_of_nil in Hre).
        apply list_elem_of_singleton in Hre as ->. apply Hra.
        apply (list_elem_of_fmap_2 artifact_path _ (stage_of s)), list_elem_of_filter.
        split; [done|]. apply (Hin e (entry_artifact e)); [done|]. unfold entry_artifacts. rewrite Hp. by left.
      * intros a Ha Hflag <-. apply Hra. by apply list_elem_of_fmap_2, list_elem_of_filter.
Qed.
End calm.

(** ** The two outcomes *)

(** ** After the operations *)

Section installed.
Context {host : Host} (root : path) (t0 : tree).

Lemma installed_as es xs e :
  Forall2 (InstalledAs t0) xs es -> e ∈ es ->
  exists x, x ∈ xs /\ entry_path e = pf_path x /\ Installed (new_node t0 x) (phase e).
Proof.
  intros Hes [k Hk]%list_elem_of_lookup. destruct (Forall2_lookup_r _ _ _ _ _ Hes Hk) as (x & Hx & (i & ph & -> & Hph)).
  exists x. split; [by eapply list_elem_of_lookup_2|done].
Qed.

(** What the cleanup removes are backups. *)
Lemma installed_backup xs es t arts a :
  Forall2 (InstalledAs t0) xs es -> Describes root t0 es t arts -> a ∈ arts -> cleanupOnSuccess a = true ->
  exists e b j n, e ∈ es /\ phase e = Replaced b j n /\ a = backup_at b.
Proof.
  intros Hes HD [k Hk]%list_elem_of_lookup Ha.
  destruct (ds_only _ _ _ _ _ HD k a Hk) as [[_ Hoff]|(e & He & Hka)%in_entries]; [congruence|].
  destruct (installed_as _ _ _ Hes He) as (x & _ & _ & [Hp|(b & j & Hp)]); unfold entry_artifacts in Hka;
    rewrite Hp in Hka; rewrite ?elem_of_cons, elem_of_nil in Hka.
  - destruct Hka as [[= -> ->]|[]]. done.
  - destruct Hka as [[= -> ->]|[[= -> ->]|[]]]; [done|]. by eexists _, b, j, _.
Qed.

Lemma replaced_facts es t arts e b j n :
  Describes root t0 es t arts -> e ∈ es -> phase e = Replaced b j n ->
  Sibling root t0 (entry_path e) b /\ is_file (t b) /\ Target root t0 (entry_path e).
Proof.
  intros HD He Hp. pose proof (ds_ok _ _ _ _ _ HD) as Hok. rewrite Forall_forall in Hok.
  destruct (Hok e He) as (HT & _ & Hph). unfold phase_ok in Hph. rewrite Hp in Hph.
  destruct Hph as (HS & _ & Hf). split_and!; try done.
  rewrite (ds_effects _ _ _ _ _ HD b (t0 (entry_path e))); [done|]. apply in_entries. exists e. split; [done|].
  unfold effects. rewrite Hp. right. by left.
Qed.

Lemma backup_removable es t arts e b j n :
  Describes root t0 es t arts -> e ∈ es -> phase e = Replaced b j n -> Removable root t b.
Proof.
  intros HD He Hp. destruct (replaced_facts _ _ _ _ _ _ _ HD He Hp) as ([[x Hb] _ Hesc] & Hf & [(c & d & Hpd & Hr & Hd) _]).
  split; [|split; [done|by right]]. rewrite Hb, Hpd. eexists _, d. split_and!; try done. by eapply dir_kept.
Qed.

(** The tree after the cleanup: targets and the rest. *)
Lemma installed_tree xs es t arts t' :
  Forall2 (InstalledAs t0) xs es -> Describes root t0 es t arts ->
  (forall a, a ∈ arts -> cleanupOnSuccess a = true -> t' (artifact_path a) = None) ->
  (forall r, (forall a, a ∈ arts -> cleanupOnSuccess a = true -> artifact_path a <> r) -> t' r = t r) ->
  (forall x, x ∈ xs -> t' (pf_path x) = Some (new_node t0 x)) /\
  (forall r, r ∉ pf_path <$> xs -> t' r = t0 r).
Proof.
  intros Hes HD Hgone Hkept. split.
  - intros x [k Hx]%list_elem_of_lookup.
    destruct (Forall2_lookup_l _ _ _ _ _ Hes Hx) as (e & Hek & (i & ph & -> & Hph)).
    apply list_elem_of_lookup_2 in Hek as He. rewrite Hkept.
    + apply (ds_effects _ _ _ _ _ HD), in_entries. exists (mkEntry (pf_path x) i ph). split; [done|].
      unfold effects. simpl. destruct Hph as [->|(b & j & ->)]; by left.
    + intros a Ha Hflag Heq. destruct (installed_backup _ _ _ _ _ Hes HD Ha Hflag) as (e' & b & j & n & He' & Hp' & ->).
      destruct (replaced_facts _ _ _ _ _ _ _ HD He' Hp') as ([[y Hb] _ _] & _ & _). simpl in Heq.
      pose proof (ds_ok _ _ _ _ _ HD) as Hok. rewrite Forall_forall in Hok. destruct (Hok _ He) as ([_ Hord] & _).
      simpl in Hord. rewrite <- Heq, Hb in Hord. by apply (transaction_name y _ []) in Hord.
  - intros r Hr. destruct (decide (r ∈ artifact_path <$> filter (fun a => cleanupOnSuccess a = true) arts)) as [Hra|Hra].
    + apply list_elem_of_fmap in Hra as (a & -> & [Hflag Ha]%list_elem_of_filter). rewrite (Hgone a Ha Hflag).
      destruct (installed_backup _ _ _ _ _ Hes HD Ha Hflag) as (e & b & j & n & He & Hp & ->).
      destruct (replaced_facts _ _ _ _ _ _ _ HD He Hp) as ([_ Hfree _] & _ & _). simpl. by rewrite Hfree.
    + rewrite Hkept by (intros a Ha Hflag <-; apply Hra; by apply list_elem_of_fmap_2, list_elem_of_filter).
      apply (ds_rest _ _ _ _ _ HD). rewrite in_effects. intros (e & He & Hin).
      destruct (installed_as _ _ _ Hes He) as (x & Hx & Hpath & Hph).
      assert (r <> entry_path e) as Hne by (intros ->; rewrite Hpath in Hr; by apply Hr, list_elem_of_fmap_2).
      unfold effects in Hin. destruct Hph as [Hp|(b & j & Hp)]; rewrite Hp in Hin; simpl in Hin;
        rewrite ?elem_of_cons, elem_of_nil in Hin; [by destruct Hin as [|[]]|].
      destruct Hin as [|[->|[]]]; [done|]. apply Hra.
      apply (list_elem_of_fmap_2 artifact_path _ (backup_at b)), list_elem_of_filter. split; [done|].
      apply list_elem_of_lookup. exists j. apply (ds_artifacts _ _ _ _ _ HD), in_entries. exists e. split; [done|].
      unfold entry_artifacts. rewrite Hp. right. by left.
Qed.
End installed.

(** A plan of writes to different files, under ordinary names, in directories that
    exist already: the theorems say nothing of a plan that has to make directories
    ([missing_directories_are_made], [created_directory_is_left]). *)
Record WritePlan (plan : FilePlan) (xs : list PlannedFile) (w : World) : Prop := mkWritePlan {
  wp_operations : operations plan = op_of <$> xs;
  wp_distinct : NoDup (pf_path <$> xs);
  wp_targets : Forall (Target (root plan) (files w)) (pf_path <$> xs);
  wp_wf : wf (files w);
  wp_above : plain_above (root plan) (files w);
}.

Section theorems.
Context {host : Host}.

Lemma state_begun plan xs w w0 :
  WritePlan plan xs w -> begun w plan w0 -> State (root plan) (files w) [] (pending <$> xs) w0.
Proof.
  intros [_ Hnd HT Hwf _] (Hf & Ha & Hc & Hu)%begun_fresh.
  assert (forall {A} (f : Entry -> list A), (forall x, f (pending x) = []) -> (pending <$> xs) ≫= f = []) as Hnil.
  { intros A f Hfx. clear - Hfx. induction xs as [|x xs IH]; [done|]. rewrite fmap_cons, bind_cons, Hfx. done. }
  assert ((pending <$> xs) ≫= names = pf_path <$> xs) as Hnames.
  { clear. induction xs as [|x xs IH]; [done|]. rewrite !fmap_cons, bind_cons, IH. done. }
  split; [| |by rewrite Hu|done| |constructor].
  - rewrite Hf. split; [done|]. intros p _. by left.
  - simpl. rewrite Hf, Ha. split; rewrite ?Hnames; rewrite ?Hnil; try done.
    + apply Forall_fmap, Forall_forall. intros x Hx. simpl. split_and!; try done.
      rewrite Forall_fmap, Forall_forall in HT. by apply HT.
    + intros q v []%not_elem_of_nil.
    + intros k a []%not_elem_of_nil.
  - apply Forall_fmap, Forall_forall. intros x Hx. by left.
Qed.

Lemma transact_writing plan xs w w0 :
  WritePlan plan xs w -> whole -> begun w plan w0 ->
  Writing (root plan) (files w) (transact plan w0).2 /\
  forall applied, (transact plan w0).1 = Ok applied -> applied = pf_path <$> xs /\
    exists es, Forall2 (InstalledAs (files w)) xs es /\ State (root plan) (files w) es [] (transact plan w0).2.
Proof.
  intros HP Hwhole Hb. pose proof (state_begun _ _ _ _ HP Hb) as HS. destruct HP as [Hops Hnd HT Hwf Habove].
  unfold transact, stageWrites. rewrite Hops.
  assert (holds (Writing (root plan) (files w)) (State (root plan) (files w) [] (pending <$> xs))
    (stagedWrites <-? stage_all (root plan) (op_of <$> xs) ;
     apply_all (root plan) (zip (op_of <$> xs) stagedWrites))
    (fun applied w' => applied = pf_path <$> xs /\
       exists es, Forall2 (InstalledAs (files w)) xs es /\ State (root plan) (files w) es [] w')) as Hh.
  { eapply holds_bind; [apply (holds_stage_all (root plan) (files w) Habove Hwf Hwhole [] xs)|].
    intros ids. cbv beta. intros w' HI (es & Hes & -> & HS').
    apply (holds_apply_all (root plan) (files w) Habove Hwf Hwhole [] xs es Hes w' HI HS'). }
  apply Hh; [|done]. by eexists _, _.
Qed.

(** C12: A failed plan of writes is rolled back, except for one thing.  Suppose
    that the directories of the files exist ([WritePlan]), that a write the host
    refuses leaves no part of a file ([whole]), and that the host refuses no call
    after the one that failed.  Then [applyFilePlan] throws the error itself, as
    after a rollback without errors, and every path of the file system is as it
    was, but the files that the plan had already overwritten are gone: the
    rollback puts the old file back, and the cleanup of the artifacts then removes
    it, because the artifact of the stage has been given its path.  Without the
    first two conditions more can be left: a directory made for a file
    ([created_directory_is_left]) and a torn stage ([torn_stage_is_left]). *)
Theorem failed_write_deletes_overwritten plan xs w w0 error w1 :
  WritePlan plan xs w -> whole -> begun w plan w0 ->
  transact plan w0 = (Throw error, w1) -> quiet (calls w1) ->
  exists w', applyFilePlan plan false w = (Throw error, w') /\
    (forall r, Overwritten w1 r -> files w r <> None /\ files w' r = None) /\
    (forall r, ~ Overwritten w1 r -> files w' r = files w r).
Proof.
  intros HP Hwhole Hb Ht Hq. rewrite (begun_apply _ _ _ Hb), Ht.
  destruct (transact_writing _ _ _ _ HP Hwhole Hb) as [(finished & todo & HS) _]. rewrite Ht in HS. simpl in HS.
  assert (wf (files w)) as Hwf by apply HP.
  destruct (rollback_run (root plan) (files w) Hwf finished todo w1) as (n & t & arts & Hrun & HD);
    [apply HS|done|].
  set (es := (undone <$> finished) ++ todo) in *. set (w2 := undo_to n t arts w1) in *.
  pose proof (calm_entries _ _ _ _ _ HS) as Hcalm.
  assert (forall a, a ∈ arts -> flag false a = true -> exists e k, e ∈ es /\ (k, a) ∈ entry_artifacts e) as Hlive.
  { intros a [k Hk]%list_elem_of_lookup Hflag. destruct (ds_only _ _ _ _ _ HD k a Hk) as [[Hoff _]|Hin].
    - simpl in Hflag. congruence.
    - apply in_entries in Hin as (e & He & Hin). by exists e, k. }
  destruct (cleanup_flagged (root plan) (files w) Hwf w2 false) as (n' & t' & Hclean & Hgone & Hkept);
    [by apply undo_to_quiet|apply HD| |].
  { intros a Ha Hflag. destruct (Hlive a Ha Hflag) as (e & k & He & Hk). eapply calm_removable; eauto. }
  exists (later n' w2 <| files := t' |>). split_and!.
  - unfold roll_back, rollback, get. erewrite cbind_ok.
    2:{ erewrite cbind_ok; [|done]. rewrite (st_undo _ _ _ _ _ HS). apply Hrun. }
    erewrite cbind_ok; [|apply Hclean]. erewrite cbind_ok; [|done]. simpl.
    rewrite (st_created _ _ _ _ _ HS). done.
  - apply (calm_tree _ _ _ _ _ _ _ _ HS HD Hgone Hkept).
  - apply (calm_tree _ _ _ _ _ _ _ _ HS HD Hgone Hkept).
Qed.

(** C13: A plan of writes to existing directories writes what it says.  When the
    directories of the files exist ([WritePlan]), a write the host refuses leaves
    no part of a file ([whole]), the operations have gone through and the host
    refuses no call of the cleanup, [applyFilePlan] returns the paths of the plan;
    at each of them is a file with the planned content, with the permissions of
    the file it replaces or else the planned mode under the umask; and every other
    path of the file system is as it was, so that no stage and no backup is left
    behind.  (A missing directory would be made, so it would not be as it was:
    [missing_directories_are_made].) *)
Theorem writes_leave_the_rest plan xs w w0 applied w1 :
  WritePlan plan xs w -> whole -> begun w plan w0 ->
  transact plan w0 = (Ok applied, w1) -> quiet (calls w1) ->
  exists w', applyFilePlan plan false w = (Ok (pf_path <$> xs), w') /\
    (forall x, x ∈ xs -> files w' (pf_path x) = Some (new_node (files w) x)) /\
    (forall r, r ∉ pf_path <$> xs -> files w' r = files w r).
Proof.
  intros HP Hwhole Hb Ht Hq. rewrite (begun_apply _ _ _ Hb), Ht.
  destruct (transact_writing _ _ _ _ HP Hwhole Hb) as [_ H]. rewrite Ht in H.
  destruct (H applied eq_refl) as (-> & es & Hes & HS). simpl in HS.
  assert (wf (files w)) as Hwf by apply HP.
  pose proof (st_describes _ _ _ _ _ HS) as HD. rewrite app_nil_r in HD.
  assert (forall a, a ∈ artifacts w1 -> flag true a = true ->
    exists e b j n, e ∈ es /\ phase e = Replaced b j n /\ a = backup_at b) as Hback.
  { intros a Ha Hflag. by eapply installed_backup. }
  destruct (cleanup_flagged (root plan) (files w) Hwf w1 true) as (n & t & Hclean & Hgone & Hkept);
    [done|apply HD| |].
  { intros a Ha Hflag. destruct (Hback a Ha Hflag) as (e & b & j & nd & He & Hp & ->).
    by eapply backup_removable. }
  exists (later n w1 <| files := t |>). split_and!.
  - erewrite cbind_ok; [|apply Hclean]. done.
  - apply (installed_tree _ _ _ _ _ _ _ Hes HD Hgone Hkept).
  - apply (installed_tree _ _ _ _ _ _ _ Hes HD Hgone Hkept).
Qed.
End theorems.

(** ** What the rollback leaves behind *)

(** [rm] without [recursive] removes no directory. *)
Lemma rm_keeps_directory t p q e :
  locate t p = Ok q -> t q = Some Directory -> exists err, rm_call p false e t = (Throw err, t).
Proof.
  intros Hp Hq. unfold rm_call. rewrite Hp. destruct q as [|c d]; [by eexists|]. rewrite Hq.
  destruct e; by eexists.
Qed.

(** A host that refuses the call number [k], of which a write has written
    [made]. *)
Definition refuses_one (k made : nat) : Host := {|
  fault n := if bool_decide (n = k) then Some (mkFault "ENOSPC" made (fun _ => false)) else None;
  randomUUID _ := "u";
  umask := 18;
  cwd := []
|}.

(** A missing directory is made, and nothing else is left. *)
Example missing_directories_are_made :
  let host := refuses_one 1000 0 in
  let plan := mkPlan ["w"] [Write ["b"; "n"; "w"] (Text "b") false None] in
  let w := (applyFilePlan plan false sample_world).2 in
  (applyFilePlan plan false sample_world).1 = Ok [["b"; "n"; "w"]] /\
  sample_tree ["n"; "w"] = None /\ files w ["n"; "w"] = Some Directory /\
  is_file (files w ["b"; "n"; "w"]) /\ files w [".omp-bundler-txn-stage-u"; "n"; "w"] = None.
Proof. split_and!; try (vm_compute; reflexivity). by eexists _, _; vm_compute. Qed.

(** A directory made for a file stays when the plan fails, and the rollback
    says so: [rm] refuses it. *)
Lemma created_directory_is_left :
  let host := refuses_one 60 0 in
  let plan := mkPlan ["w"] [Write ["b"; "n"; "w"] (Text "b") false None] in
  sample_tree ["n"; "w"] = None /\
  (applyFilePlan plan false sample_world).1 =
    Throw (WithRollbackContext (Sys (Refused "ENOSPC")) [Sys ERR_FS_EISDIR]) /\
  files (applyFilePlan plan false sample_world).2 ["n"; "w"] = Some Directory.
Proof. split_and!; vm_compute; reflexivity. Qed.

(** A stage whose [writeFile] fails after it made the file is no artifact yet:
    it stays, and no error says so. *)
Lemma torn_stage_is_left :
  let host := refuses_one 31 1 in
  let plan := mkPlan ["w"] [Write ["b"; "w"] (Text "b") false None] in
  (applyFilePlan plan false sample_world).1 = Throw (Sys (Refused "ENOSPC")) /\
  files (applyFilePlan plan false sample_world).2 [".omp-bundler-txn-stage-u"; "w"] = Some (File [] 420).
Proof. split_and!; vm_compute; reflexivity. Qed.

(** ** An example *)

(** /w/a is there and is overwritten, /w/b is new. *)
Definition sample_files : list PlannedFile :=
  [mkPlannedFile ["a"; "w"] (Text "new") true None; mkPlannedFile ["b"; "w"] (Text "b") false None].

Definition sample_writes : FilePlan := mkPlan ["w"] (op_of <$> sample_files).

Lemma sample_write_plan : WritePlan sample_writes sample_files sample_world.
Proof.
  split; [done| | |apply sample_wf|exact sample_above].
  - apply (bool_decide_unpack _). vm_compute. exact Logic.I.
  - assert (forall c, starts_with TRANSACTION_PREFIX c = false -> Target ["w"] sample_tree [c; "w"]) as HT.
    { intros c Hc. split; [by exists c, ["w"]|]. by repeat constructor. }
    constructor; [by apply HT|]. constructor; [by apply HT|constructor].
Qed.

(** The host refuses one call, in the middle of the second write. *)
Definition refusing : Host := sample_host (fun n => bool_decide (n = 119%nat)).

Definition sample_begun : World :=
  (cbind (@preflightFilePlan refusing sample_writes) (fun _ => begin_transaction) sample_world).2.

Lemma refusing_whole : @whole refusing.
Proof. intros n f. simpl. case_match; [|done]. by intros [= <-]. Qed.

Lemma failed_write_deletes_overwritten_witness :
  exists w', @applyFilePlan refusing sample_writes false sample_world = (Throw (Sys (Refused "EIO")), w') /\
    files sample_world ["a"; "w"] = Some (File [1%N] 420) /\ files w' ["a"; "w"] = None.
Proof.
  destruct (@failed_write_deletes_overwritten refusing sample_writes sample_files sample_world sample_begun
    (Sys (Refused "EIO")) (@transact refusing sample_writes sample_begun).2) as (w' & H1 & H2 & _).
  - exact sample_write_plan.
  - exact refusing_whole.
  - unfold begun, sample_begun. apply outcome_is. vm_compute. reflexivity.
  - apply outcome_is. vm_compute. reflexivity.
  - assert (calls (@transact refusing sample_writes sample_begun).2 = 120%nat) as -> by (vm_compute; reflexivity).
    intros m Hm. simpl. rewrite bool_decide_eq_false_2 by lia. reflexivity.
  - exists w'. split; [exact H1|]. split; [reflexivity|]. apply H2. exists [], 2%nat.
    assert (undoStack (@transact refusing sample_writes sample_begun).2 =
      [UndoWrite ["b"; "w"] [] false None; UndoWrite ["a"; "w"] [] true (Some 2%nat)]) as -> by (vm_compute; reflexivity).
    right. left.
Defined.

Lemma writes_leave_the_rest_witness :
  exists w', @applyFilePlan (sample_host (fun _ => false)) sample_writes false sample_world =
      (Ok [["a"; "w"]; ["b"; "w"]], w') /\
    files w' ["a"; "w"] = Some (File [110%N; 101%N; 119%N] 420) /\ files w' ["b"; "w"] = Some (File [98%N] 420) /\
    files w' ["x"; "d"; "w"] = Some (File [2%N] 384).
Proof.
  destruct (@writes_leave_the_rest (sample_host (fun _ => false)) sample_writes sample_files sample_world
    (cbind (@preflightFilePlan (sample_host (fun _ => false)) sample_writes) (fun _ => begin_transaction) sample_world).2
    [["a"; "w"]; ["b"; "w"]]
    (@transact (sample_host (fun _ => false)) sample_writes
      (cbind (@preflightFilePlan (sample_host (fun _ => false)) sample_writes) (fun _ => begin_transaction) sample_world).2).2)
    as (w' & H1 & H2 & H3).
  - exact sample_write_plan.
  - intros n f. simpl. discriminate.
  - unfold begun. apply outcome_is. vm_compute. reflexivity.
  - apply outcome_is. vm_compute. reflexivity.
  - apply sample_quiet.
  - exists w'. split; [exact H1|]. split_and!.
    + etransitivity; [apply (H2 (mkPlannedFile ["a"; "w"] (Text "new") true None)); left|vm_compute; reflexivity].
    + etransitivity; [apply (H2 (mkPlannedFile ["b"; "w"] (Text "b") false None)); right; left|vm_compute; reflexivity].
    + rewrite H3; [vm_compute; reflexivity|]. apply (bool_decide_unpack _). vm_compute. exact Logic.I.
Defined.
